(* ===== verification/_CoqProject ===== *)
-Q . S2P
Prelude.v
Prog.v
Bytes.v
Config.v
Path.v
Range.v
Metadata.v
Cache.v
HdfsError.v
Backpressure.v
Listing.v
Rfc4648.v
Paging.v
SortedListing.v
Merge.v
Caches.v
Server.v
PyLog.v
Bindings.v
Gateway.v
ListObjects.v
Invariant.v
Objects.v
Listings.v
Requests.v
Pages.v
RequestLog.v
Demo.v
Confinement.v
Liveness.v
Walk.v
Served.v
Front.v
Process.v
Progress.v
Drain.v
Ending.v
Main.v
PyService.v
ServiceDemo.v
ServiceLog.v
Stop.v
Fair.v
CoreTests.v
ListingTests.v
MergeTests.v
ConfigTests.v
MiniDfs.v
GatewayTests.v
ServiceTests.v
