(* ===== verification/Prelude.v ===== *)
(** * The HDFS to S3 gateway, verified

    The gateway is a read-only S3 server over HDFS. A request arrives over
    HTTP, is admitted by the backpressure layer, parsed by [s3s], and answered
    by one operation of [src/s3/mod.rs]: the key is mapped to a path under the
    configured root, the path's status, block map or directory listings are
    read from HDFS or from four bounded caches, and the answer carries the
    request's id. This library is a shallow embedding of that program with the
    theorems that make it correct.

    ** How the program is modelled

    Pure code is Rocq functions on the same data: a [String] is its UTF-8
    bytes ([str]); a [u64], [usize] or [u128] is an [N], with the operations
    that could wrap written [u64_add] and [u64_sub] ([usize] is 64 bits wide);
    [Result] is [result]; [Option] is [option]; a [Vec] is a list.

    Asynchronous code is a [Prog] over the shared state: a tree whose nodes are
    atomic accesses (one lock acquisition, one atomic increment, one log line,
    one remote call). The pool of [Prog] interleaves any number of requests
    access by access, as a multi-threaded executor does, and lets time and HDFS
    change in between. An access that the code awaits ([await]) may instead be
    the end of the request: its future is dropped there ([pool_drop]), with
    what it owns ([owning]), so that the request's log writes its completion
    line; the answer is then [OutDropped]. HDFS and the
    clocks are functions of a tick which every access advances; nothing relates
    the answers at two ticks unless a theorem says so ([stable]), so outside
    writers are unconstrained, and nothing orders the readings of the clock
    beyond what the freshness statements spell out.

    The processes around the service (the accept loop, the Python object and
    its threads, the body of an exchange) are step relations, whose runs are
    all interleavings of their threads.

    Third-party code is a parameter, or a class with the documented laws: the
    [lru] crate ([Cache.Lru], [Cache.LruLaws]), [base64] ([Listing.Base64],
    [Listing.Base64Laws]; [Rfc4648] is an instance), [tokio]'s semaphore
    ([Backpressure.Semaphore], [Backpressure.SemaphoreLaws]) and [Notify]
    ([Bindings.Notify]), the borrows of PyO3 ([Bindings.PyBorrow]), the HDFS
    client and its builder, [mime_guess], the ETag comparisons and header
    values of [s3s] and [http] ([Gateway.World]), the TOML parser and the
    environment (the section of [Config.load]). Each class has an instance,
    and the witnesses run the theorems on it.

    ** The files

    Foundations.
    - [Prelude]: results, machine words, [partition_point], sorting by a
      comparison, [dedup]; total comparisons ([TotalCmp]); what comes along an infinite run
      ([until]).
    - [Prog]: programs, their interleaving, the rely-guarantee judgement [safe]
      with [always] for state-independent results, [keeps] for what every
      access keeps, [owns] for the number and the log lines that are a request's
      own, [same] for
      programs that two worlds do not tell apart, [fair] executions.
    - [Bytes]: the byte order on strings, prefixes, splitting, UTF-8.

    The pure core, one file for each file of [src/core] and [src/config].
    - [Config]: [src/config/mod.rs]. A load succeeds only with a configuration
      that [validate] accepts, and each override wins.
    - [Path]: [src/core/path.rs]. No key or listing leaves the root; both round
      trips; the start directory of a listing holds every match.
    - [Range]: [src/core/range.rs]. A resolved window is exactly the bytes
      requested.
    - [Metadata]: [src/core/metadata.rs]. When two ETags are equal.
    - [Cache]: [src/core/cache.rs]. Both budgets, least-recently-used
      eviction, freshness, for every sequence of calls.
    - [Listing] and [Paging]: [src/core/listing.rs]. Pages are segments of one
      strictly sorted list of outputs ([page_spec]), which are the files that
      match and are not grouped and once each group, a [group] being what comes
      up to the first delimiter ([listing_of]); following the tokens yields each
      output once; the logarithmic pagination equals the general one on the
      children of a directory.
    - [Rfc4648]: the base64 the tokens use, satisfying the laws assumed of it.

    The S3 layer.
    - [HdfsError]: [src/s3/error.rs] and [src/s3/write_policy.rs].
    - [Backpressure]: [src/s3/backpressure.rs] and the cap of
      [src/s3/server.rs]. No more exchanges than permits; a refusal exactly when
      full; every permit returned once.
    - [SortedListing] and [Merge]: [src/s3/sorted_listing.rs]. The lazy k-way
      merge returns the page of the recursive walk ([walk_start]), opens no
      directory it need not, and hides no error but a denial or a
      disappearance below the start.
    - [Caches]: [src/s3/cache.rs].
    - [Gateway]: [src/s3/mod.rs], without listings: the request log and ids,
      [file_meta], [open_reader], [HeadObject], [GetObject] and its body, the
      buckets, the refused writes and the probes.
    - [ListObjects]: [ListObjectsV2] of [src/s3/mod.rs] and [HdfsDirLister].

    The processes around it.
    - [Server]: [src/s3/server.rs], [src/s3/auth.rs], [src/main.rs] and
      [HdfsGateway::from_config]. What [main] builds; the accept loop
      ([serve_step]), its shutdown and its drain.
    - [Bindings]: the [Gateway] class of [src/python/src/lib.rs]: [py_step] is
      one step of a Python thread or of a server thread, between the accesses
      to the object they share.
    - [PyLog]: the log bridge and the panic hook of the same file.

    The contracts and what they give.
    - [Invariant]: what the caches may hold ([gw_inv]); the judgement [hoare].
    - [Objects], [Listings]: the specification of every answer ([get_result],
      [head_result], [list_answer]) and that the handlers refine it.
    - [Requests]: all operations as one type of requests, and the pool.
    - [RequestLog]: ids and log lines.
    - [Pages]: the page each kind of listing answers with.
    - [Demo]: a small file system for the witnesses.
    - [Confinement], [Liveness], [Walk], [Served]: the theorems about a running
      gateway.
    - [Front]: the whole service, the handlers of the pool behind the cap of
      [Backpressure]. Its events are arrivals, accesses of a handler, answers,
      turns of a body's poll and disconnections; every run of it is one of the
      pool.
    - [Process]: the accept loop of [Server] with the exchanges of [Front] on
      its connections ([process_step], and [process_exec], which executes it).
    - [Progress]: an exchange of [Front] that keeps getting its turns ends, and
      any can be dropped.
    - [Drain]: the drain of a [Process] whose clients keep reading ends.
    - [Ending]: an exchange of [Front] ends in whatever order things happen to
      it, so those of a runtime that is being dropped do.
    - [Main]: the binary, [main_step] from its arguments through the [Process]
      of its [serve] and the drop of its runtime to its exit, and what it logs.
    - [PyService]: the object of [Bindings] with what its servers serve, each a
      gateway of its own, over one counter and one log; [ServiceLog] is about
      that log, [Stop] and [Fair] about [stop]. [ServiceDemo] is a run of it.

    The repository's unit tests, a definition of the same name for each, which
    the kernel evaluates: [CoreTests], [ListingTests], [MergeTests],
    [ConfigTests]. They check the definitions, as the tests check the code. And
    its integration tests, on a small cluster ([MiniDfs]): those that call the
    gateway ([GatewayTests]) and those that drive a server ([ServiceTests]).

    ** What the theorems say

    In every interleaving: an answer to [GetObject] or [HeadObject] is one the
    specification allows, from a status no older than a time to live and a
    block map opened for that status; the bytes a client receives are those it
    asked for or it sees an error; over a namespace that does not change, all
    three kinds of listing return the exact page of the directory the prefix
    spells out, whatever the caches hold ([walkable]; the prefixes [.] and [..],
    which the code answers with an empty page though keys match, are excepted:
    [Path.list_start_dot_misses]); the caches hold only what HDFS answered, within their budgets; two requests
    never share an id, and each logs its start and its end exactly once,
    whichever are dropped. Over such a namespace a client that follows the
    continuation tokens collects the whole listing, each key once; it is given
    no more tokens than there are full pages, and in every execution that gives
    its requests their turns it comes to the end ([Walk]). Nothing HDFS
    holds outside the root influences an answer, a cache or a log line
    ([Confinement]). A request that keeps getting turns is answered
    ([Liveness]). All this holds behind the cap, where besides no more requests
    are at work than configured, a refused one touches nothing, and a client
    that reads a download to its end was sent exactly the bytes it asked for
    ([Front]); and a client that keeps reading comes to that end, with all of
    them if the cluster reads well ([Progress]). When a shutdown drained in
    time, no request is left at work, every permit is back, the log is complete
    and nothing changes any more ([Process]); and when the clients keep reading
    or are gone, it comes to its end ([Drain]).

    Of the binary: if it fails it never served; when it exits, it served the
    configuration it loaded, and no request, no permit and no line of the log
    is left open; and once told to stop it does exit, whatever its clients do,
    when its threads and the clock go on ([Main]).

    Of the processes: a shutdown accepts no more connections and waits for those it has, ten seconds at most
    ([Server]); an object of the Python class has at most one background
    server, [start] reports what became of it or, when its runtime cannot be
    built, never returns, and [stop] cannot reach
    [serve_blocking], and is remembered when there was nothing to stop
    ([Bindings]); [stop] can always return, whatever its server is at work on,
    and leaves no request, no permit and no line of the log open ([Stop]); it
    does return when the thread, the tasks and the clock go on ([Fair]); the
    ids and the log of several servers in a process are those of one
    ([ServiceLog]); Python's logger is called with the lines of the log, each
    once and in order ([PyLog]). The theorems of the other
    files are about the functions these are made of.

    ** Fuel

    [next_loop] and [collect_loop] of the merge take fuel: the theorems require
    more than the number of entries the walk of the subtree sees, which bounds
    the turns, and then the result is there. [partition_search],
    [slash_loop], [skip_files], [skip_dirs] and the cache's [evict] take fuel
    that the caller computes from the length of the data; the theorems about
    the callers show that it is enough. The formats of numbers take one unit a
    digit. The walks of the unit tests count their pages as the tests do, or
    by the number of keys. Everything else is structurally recursive.

    ** What is not modelled

    Sockets, the connections of [hyper], the parsing, the signatures and the
    serialization of [s3s] are parameters or left out: a request begins with
    the input of a handler and ends with its output, and who is let in when a
    secret is configured is for [s3s] to decide. The command line parser is
    derived by a macro; only its value parser is here, and the test of its
    flags is cut down accordingly. Tracing spans, latencies and the module
    registration of the bindings do not influence an answer; a [Mutex] is
    an atomic access, and the panic that would poison one is not followed into
    it. Of the signals, [main] catches the one [ctrl_c] waits for; another one
    that ends the process does so at any moment, and there is nothing to state
    of it. How [hyper] ends a connection is in a rule of
    [process_step]: when each of its exchanges is over. The randomized unit
    tests are evaluated on smaller namespaces than the repository's, and the
    integration tests on smaller files; of those, the test of signed requests,
    which is the framework's, and the load test are left out.

    That [tokio] drops the tasks of a runtime where they await, and that the
    drop of the runtime waits for them, is in [main_step] for the binary, and in
    [may_move] and [ps_front] for the threads of Python.

    What is left of the sources is imports, module declarations, accessors of a
    single field and the registration of the Python module: nothing that keeps
    a state or takes a decision. *)

From stdpp Require Export prelude strings list sorting.
From Stdlib Require Export Ascii NArith ZArith.

(** ** Notations *)

(** A Rust [String]/[&str] is its UTF-8 bytes: comparison, [starts_with],
    [find] and slicing at the positions the program uses are all byte-wise. *)
Abbreviation str := (list ascii).

Declare Scope gw_scope.
Delimit Scope gw_scope with gw.
Open Scope gw_scope.

Notation "$ s" := (String.list_ascii_of_string s%string)
  (at level 1, format "$ s") : gw_scope.

(** ** Results *)

(** Rust's [Result<T, E>]. *)
Inductive result (A E : Type) : Type :=
| Ok (a : A)
| Err (e : E).
Arguments Ok {A E} a.
Arguments Err {A E} e.

Definition is_ok {A E} (r : result A E) : bool :=
  match r with Ok _ => true | Err _ => false end.

Definition map_err {A E F} (f : E → F) (r : result A E) : result A F :=
  match r with Ok a => Ok a | Err e => Err (f e) end.

Notation "'let?' x ':=' c 'in' k" :=
  (match c with Ok x => k | Err e => Err e end)
  (at level 10, x pattern, c at level 100, k at level 200) : gw_scope.

(** ** Machine integers *)

Definition U64_MOD : N := (2 ^ 64)%N.
Definition U64_MAX : N := (2 ^ 64 - 1)%N.

(** Release-build arithmetic on a 64-bit unsigned integer wraps. *)
Definition u64_add (a b : N) : N := ((a + b) mod U64_MOD)%N.
Definition u64_sub (a b : N) : N := ((U64_MOD + a - b) mod U64_MOD)%N.

(** ** Slices *)

(** [[T]::partition_point]: the binary search of the standard library,
    [size] halving until one candidate is left. *)
Fixpoint partition_search {A} (fuel : nat) (pred : A → bool) (l : list A)
    (base size : nat) : nat :=
  match fuel with
  | 0 => base
  | S fuel =>
      if bool_decide (size <= 1) then base
      else
        let half := (size / 2) in
        let mid := base + half in
        let base' := match l !! mid with
                     | Some x => if pred x then mid else base
                     | None => base
                     end in
        partition_search fuel pred l base' (size - half)
  end.

Definition partition_point {A} (pred : A → bool) (l : list A) : nat :=
  match l with
  | [] => 0
  | _ =>
      let base := partition_search (length l) pred l 0 (length l) in
      match l !! base with
      | Some x => if pred x then S base else base
      | None => base
      end
  end.

(** [[T]::sort_by]: the standard library's sort is stable, which determines
    its result; insertion from the right computes it. *)
Fixpoint insert_by {A} (cmp : A → A → comparison) (x : A) (l : list A) : list A :=
  match l with
  | [] => [x]
  | y :: l' =>
      match cmp x y with
      | Gt => y :: insert_by cmp x l'
      | _ => x :: y :: l'
      end
  end.

Fixpoint sort_by {A} (cmp : A → A → comparison) (l : list A) : list A :=
  match l with
  | [] => []
  | x :: l' => insert_by cmp x (sort_by cmp l')
  end.

(** [Vec::dedup]: drop an element equal to the one kept before it. *)
Fixpoint dedup {A} `{EqDecision A} (l : list A) : list A :=
  match l with
  | [] => []
  | x :: l' =>
      match l' with
      | [] => [x]
      | y :: _ => if decide (x = y) then dedup l' else x :: dedup l'
      end
  end.

(** [Vec::pop]. *)
Definition vec_pop {A} (l : list A) : option (A * list A) :=
  match last l with
  | Some x => Some (x, removelast l)
  | None => None
  end.

(** A comparison function that orders its type totally. *)
Class TotalCmp {A} (cmp : A → A → comparison) : Prop := {
  cmp_eq_iff : ∀ x y, cmp x y = Eq ↔ x = y;
  cmp_antisym : ∀ x y, cmp y x = CompOpp (cmp x y);
  cmp_lt_trans : ∀ x y z, cmp x y = Lt → cmp y z = Lt → cmp x z = Lt;
}.

(** ** Tactics *)

(** Split the goal's conjunctions and boolean tests. *)
Ltac split_and_all := repeat match goal with |- _ ∧ _ => split end.

(** Case on the first test the goal stops at. *)
Ltac case_goal :=
  match goal with
  | |- context [match ?x with _ => _ end] => destruct x eqn:?
  end.

Create HintDb gw.

(** ** Results: lemmas *)

Lemma map_err_ok {A E F} (f : E → F) (r : result A E) a :
  map_err f r = Ok a ↔ r = Ok a.
Proof. destruct r; simpl; split; congruence. Qed.

(** ** Machine integers: lemmas *)

Lemma u64_add_exact a b : (a + b < U64_MOD)%N → u64_add a b = (a + b)%N.
Proof. intros. unfold u64_add. by apply N.mod_small. Qed.

Lemma u64_sub_exact a b : (b <= a)%N → (a < U64_MOD)%N → u64_sub a b = (a - b)%N.
Proof.
  intros Hle Hlt. unfold u64_sub.
  replace (U64_MOD + a - b)%N with (a - b + 1 * U64_MOD)%N by lia.
  rewrite N.Div0.mod_add. apply N.mod_small. lia.
Qed.

(** ** [partition_point] on partitioned slices *)

Lemma partition_search_spec {A} (pred : A → bool) (l1 l2 : list A) fuel base size :
  Forall (λ x, pred x = true) l1 → Forall (λ x, pred x = false) l2 →
  1 <= size → size <= fuel →
  base + size <= length (l1 ++ l2) →
  (base = 0 ∨ base < length l1) →
  length l1 <= base + size →
  let r := partition_search fuel pred (l1 ++ l2) base size in
  r < length (l1 ++ l2) ∧ (r = 0 ∨ r < length l1) ∧ length l1 <= S r.
Proof.
  intros H1 H2. revert base size.
  induction fuel as [|fuel IH]; intros base size Hs1 Hsf Hlen Hb Hu;
    cbn [partition_search]; cbv zeta; [lia|].
  case_bool_decide as Hsz; [lia|].
  pose proof (Nat.Div0.mul_div_le size 2) as Hh3.
  assert (size / 2 < size ∧ 1 <= size / 2) as [Hh1 Hh2].
  { split; [apply Nat.div_lt; lia|]. apply Nat.div_le_lower_bound; lia. }
  destruct (lookup_lt_is_Some_2 (l1 ++ l2) (base + (size / 2))) as [x Hx]; [lia|].
  rewrite Hx. destruct (decide (base + (size / 2) < length l1)) as [Hl|Hl].
  - rewrite lookup_app_l in Hx by done.
    rewrite Forall_lookup in H1. rewrite (H1 _ _ Hx). apply IH; lia.
  - rewrite lookup_app_r in Hx by lia.
    rewrite Forall_lookup in H2. rewrite (H2 _ _ Hx). apply IH; lia.
Qed.

(** On a slice whose elements satisfying [pred] come first, the binary search
    finds the boundary. *)
Lemma partition_point_spec {A} (pred : A → bool) (l1 l2 : list A) :
  Forall (λ x, pred x = true) l1 → Forall (λ x, pred x = false) l2 →
  partition_point pred (l1 ++ l2) = length l1.
Proof.
  intros H1 H2. unfold partition_point.
  destruct (l1 ++ l2) as [|a l] eqn:El.
  { apply app_eq_nil in El as [-> ->]. done. }
  rewrite <- El.
  assert (1 <= length (l1 ++ l2)) as Hlen by (rewrite El; simpl; lia).
  destruct (partition_search_spec pred l1 l2 (length (l1 ++ l2)) 0 (length (l1 ++ l2)))
    as (Hr1 & Hr2 & Hr3); [done|done|lia|lia|lia|lia|rewrite length_app; lia|].
  set (r := partition_search _ _ _ _ _) in *.
  destruct (lookup_lt_is_Some_2 (l1 ++ l2) r) as [x Hx]; [done|]. rewrite Hx.
  destruct (decide (r < length l1)) as [Hl|Hl].
  - rewrite lookup_app_l in Hx by done.
    rewrite Forall_lookup in H1. rewrite (H1 _ _ Hx). lia.
  - rewrite lookup_app_r in Hx by lia.
    rewrite Forall_lookup in H2. rewrite (H2 _ _ Hx). lia.
Qed.

(** A monotone test partitions a sorted slice: the boundary separates the
    elements that pass it from those that do not. *)
Lemma partition_point_sorted {A} (R : relation A) (pred : A → bool) l :
  StronglySorted R l →
  (∀ x y, R x y → pred y = true → pred x = true) →
  Forall (λ x, pred x = true) (take (partition_point pred l) l) ∧
  Forall (λ x, pred x = false) (drop (partition_point pred l) l).
Proof.
  intros Hs Hmono.
  assert (∃ l1 l2, l = l1 ++ l2 ∧ Forall (λ x, pred x = true) l1 ∧
                   Forall (λ x, pred x = false) l2) as (l1 & l2 & -> & H1 & H2).
  { induction Hs as [|x l Hs IH Hx].
    { by exists [], []. }
    destruct (pred x) eqn:Ex.
    - destruct IH as (l1 & l2 & -> & H1 & H2). exists (x :: l1), l2. auto.
    - exists [], (x :: l). split_and!; [done|done|]. constructor; [done|].
      eapply Forall_impl; [exact Hx|]. intros y Hy. simpl in *.
      destruct (pred y) eqn:Ey; [|done]. rewrite (Hmono _ _ Hy Ey) in Ex. done. }
  rewrite (partition_point_spec pred l1 l2 H1 H2).
  rewrite take_app_length, drop_app_length. done.
Qed.

(** ** Sorting *)

Section sort_by.
Context {A : Type} (cmp : A → A → comparison).
Context (cmp_gt_flip : ∀ x y, cmp x y = Gt → cmp y x ≠ Gt).
Context (cmp_le_trans : ∀ x y z, cmp x y ≠ Gt → cmp y z ≠ Gt → cmp x z ≠ Gt).

Lemma insert_by_perm x l : insert_by cmp x l ≡ₚ x :: l.
Proof.
  induction l as [|y l IH]; simpl; [done|].
  destruct (cmp x y); [done|done|]. rewrite IH. apply Permutation_swap.
Qed.

Lemma sort_by_perm l : sort_by cmp l ≡ₚ l.
Proof. induction l as [|x l IH]; simpl; [done|]. by rewrite insert_by_perm, IH. Qed.

Lemma insert_by_sorted x l :
  StronglySorted (λ a b, cmp a b ≠ Gt) l →
  StronglySorted (λ a b, cmp a b ≠ Gt) (insert_by cmp x l).
Proof using All.
  induction 1 as [|y l Hs IH Hy]; simpl; [by repeat constructor|].
  destruct (cmp x y) eqn:E.
  1, 2: constructor; [by constructor|]; constructor; [congruence|];
    eapply Forall_impl; [exact Hy|]; intros z Hz; simpl in Hz;
    eapply cmp_le_trans; [|exact Hz]; congruence.
  constructor; [done|]. rewrite insert_by_perm. constructor; [|done].
  by apply cmp_gt_flip.
Qed.

Lemma sort_by_sorted l : StronglySorted (λ a b, cmp a b ≠ Gt) (sort_by cmp l).
Proof using All. induction l; simpl; [constructor|]. by apply insert_by_sorted. Qed.

Lemma sort_by_id l :
  StronglySorted (λ a b, cmp a b ≠ Gt) l → sort_by cmp l = l.
Proof.
  induction 1 as [|x l Hs IH Hx]; simpl; [done|]. rewrite IH.
  destruct Hx as [|y l' Hxy _]; simpl; [done|]. by destruct (cmp x y).
Qed.
End sort_by.

(** ** Strictly sorted lists *)

Lemma StronglySorted_filter {A} (R : relation A) (P : A → Prop) `{∀ x, Decision (P x)} l :
  StronglySorted R l → StronglySorted R (filter P l).
Proof.
  induction 1 as [|x l Hs IH Hx]; [constructor|].
  rewrite filter_cons. case_decide; [|done]. constructor; [done|].
  rewrite Forall_forall in Hx |- *. intros y [_ Hy]%list_elem_of_filter. auto.
Qed.

Lemma StronglySorted_take {A} (R : relation A) n l :
  StronglySorted R l → StronglySorted R (take n l).
Proof. intros H. rewrite <- (take_drop n l) in H. by apply StronglySorted_app_1_l in H. Qed.

Lemma StronglySorted_drop {A} (R : relation A) n l :
  StronglySorted R l → StronglySorted R (drop n l).
Proof. intros H. rewrite <- (take_drop n l) in H. by apply StronglySorted_app_1_r in H. Qed.

Lemma StronglySorted_weaken {A} (R R' : relation A) l :
  (∀ x y, R x y → R' x y) → StronglySorted R l → StronglySorted R' l.
Proof.
  intros HR. induction 1 as [|x l Hs IH Hx]; constructor; [done|].
  eapply Forall_impl; [exact Hx|]. auto.
Qed.

Lemma StronglySorted_map {A B} (f : A → B) (R : relation B) l :
  StronglySorted R (f <$> l) ↔ StronglySorted (λ x y, R (f x) (f y)) l.
Proof.
  induction l as [|x l IH]; simpl; [split; constructor|].
  split; inversion 1; subst; (constructor; [by apply IH|]); by apply Forall_fmap.
Qed.

Section strict_sorted.
Context {A : Type} (R : relation A) `{!StrictOrder R}.

Lemma strict_sorted_NoDup l : StronglySorted R l → NoDup l.
Proof using All.
  induction 1 as [|x l Hs IH Hx]; constructor; [|done].
  intros Hin. rewrite Forall_forall in Hx. by apply (irreflexivity R x), Hx.
Qed.

(** A strictly sorted list is determined by its elements. *)
Lemma strict_sorted_ext l1 l2 :
  StronglySorted R l1 → StronglySorted R l2 → (∀ x, x ∈ l1 ↔ x ∈ l2) → l1 = l2.
Proof using All.
  intros H1 H2 Hiff.
  apply (StronglySorted_unique_strong R); [|done|done|].
  - intros x y _ _ Hxy Hyx. exfalso. apply (irreflexivity R x). by etrans.
  - apply NoDup_Permutation; [by apply strict_sorted_NoDup..|done].
Qed.

Lemma strict_sorted_lt l i j x y :
  StronglySorted R l → l !! i = Some x → l !! j = Some y → i < j → R x y.
Proof using Type.
  intros Hs Hi Hj Hlt.
  rewrite <- (take_drop (S i) l) in Hs.
  eapply (StronglySorted_app_1_elem_of R); [exact Hs|..].
  - apply list_elem_of_lookup. exists i. rewrite lookup_take_lt by lia. done.
  - apply list_elem_of_lookup. exists (j - S i). rewrite lookup_drop.
    by replace (S i + (j - S i)) with j by lia.
Qed.
End strict_sorted.

Lemma dedup_cons {A} `{EqDecision A} (x y : A) l :
  dedup (x :: y :: l) = if decide (x = y) then dedup (y :: l) else x :: dedup (y :: l).
Proof. done. Qed.

Lemma elem_of_dedup {A} `{EqDecision A} (l : list A) x : x ∈ dedup l ↔ x ∈ l.
Proof.
  induction l as [|y l IH]; [done|].
  destruct l as [|z l]; [done|]. rewrite dedup_cons.
  case_decide as E; rewrite ?(elem_of_cons (dedup _)), IH, !elem_of_cons;
    intuition (subst; auto).
Qed.

Lemma dedup_strict {A} `{EqDecision A} (R : relation A) (l : list A) :
  Transitive R →
  StronglySorted (λ x y, x = y ∨ R x y) l → StronglySorted R (dedup l).
Proof.
  intros HR. induction 1 as [|x l Hs IH Hx]; [constructor|].
  destruct l as [|y l]; [by repeat constructor|]. rewrite dedup_cons.
  case_decide as E; [done|]. constructor; [done|].
  inversion Hx as [|? ? Hxy Hl]; subst. destruct Hxy as [|Hxy]; [done|].
  rewrite Forall_forall. intros z Hz. apply (elem_of_dedup (y :: l)) in Hz.
  apply elem_of_cons in Hz as [->|Hz]; [done|].
  inversion Hs as [|? ? _ Hy]; subst. rewrite Forall_forall in Hy.
  destruct (Hy z Hz) as [<-|]; [done|]. by etrans.
Qed.

Lemma dedup_id {A} `{EqDecision A} (R : relation A) `{!Irreflexive R} (l : list A) :
  StronglySorted R l → dedup l = l.
Proof.
  induction 1 as [|x l Hs IH Hx]; [done|].
  destruct l as [|y l]; [done|]. rewrite dedup_cons. case_decide as E.
  - subst. inversion Hx as [|? ? Hyy]; subst. by apply irreflexivity in Hyy.
  - by rewrite IH.
Qed.

#[export] Hint Resolve StronglySorted_filter StronglySorted_take StronglySorted_drop : gw.

(** ** Vectors *)

Lemma vec_pop_snoc {A} (l : list A) x : vec_pop (l ++ [x]) = Some (x, l).
Proof. unfold vec_pop. rewrite last_snoc, removelast_last. done. Qed.

Lemma vec_pop_nil {A} : vec_pop (@nil A) = None.
Proof. done. Qed.

Lemma drop_past {A} (a b : list A) x : drop (S (length a)) (a ++ x :: b) = b.
Proof. rewrite drop_app_ge by lia. by replace (S (length a) - length a) with 1 by lia. Qed.

Lemma elem_of_take_inv {A} n (l : list A) x : x ∈ take n l → x ∈ l.
Proof. rewrite <- (take_drop n l) at 2. rewrite elem_of_app. auto. Qed.

Lemma elem_of_drop_inv {A} n (l : list A) x : x ∈ drop n l → x ∈ l.
Proof. rewrite <- (take_drop n l) at 2. rewrite elem_of_app. auto. Qed.

(** ** Boolean filters *)

Lemma elem_of_bfilter {A} (f : A → bool) l x : x ∈ List.filter f l ↔ f x = true ∧ x ∈ l.
Proof. rewrite !list_elem_of_In, List.filter_In. tauto. Qed.

Lemma bfilter_cons {A} (f : A → bool) x l :
  List.filter f (x :: l) = if f x then x :: List.filter f l else List.filter f l.
Proof. done. Qed.

Lemma bfilter_all {A} (f : A → bool) l : Forall (λ x, f x = true) l → List.filter f l = l.
Proof. induction 1 as [|x l Hx HF IH]; simpl; [done|]. by rewrite Hx, IH. Qed.

Lemma bfilter_none {A} (f : A → bool) l : Forall (λ x, f x = false) l → List.filter f l = [].
Proof. induction 1 as [|x l Hx HF IH]; simpl; [done|]. by rewrite Hx. Qed.

Lemma bfilter_app {A} (f : A → bool) l1 l2 :
  List.filter f (l1 ++ l2) = List.filter f l1 ++ List.filter f l2.
Proof. apply List.filter_app. Qed.

Lemma bfilter_ext {A} (f g : A → bool) l :
  (∀ x, x ∈ l → f x = g x) → List.filter f l = List.filter g l.
Proof. intros H. apply List.filter_ext_in. intros x Hx. by apply H, list_elem_of_In. Qed.

Lemma bfilter_bfilter {A} (f g : A → bool) l :
  List.filter f (List.filter g l) = List.filter (λ x, g x && f x) l.
Proof.
  induction l as [|x l IH]; simpl; [done|]. destruct (g x); simpl; [|done].
  by rewrite IH.
Qed.

Lemma StronglySorted_bfilter {A} (R : relation A) (f : A → bool) l :
  StronglySorted R l → StronglySorted R (List.filter f l).
Proof.
  induction 1 as [|x l Hs IH Hx]; simpl; [constructor|]. destruct (f x); [|done].
  constructor; [done|]. rewrite Forall_forall in Hx |- *.
  intros y [_ Hy]%elem_of_bfilter. auto.
Qed.

Lemma NoDup_fmap_bfilter {A B} (f : A → bool) (g : A → B) l :
  NoDup (g <$> l) → NoDup (g <$> List.filter f l).
Proof.
  induction l as [|x l IH]; simpl; [done|]. intros [Hn Hd]%NoDup_cons.
  destruct (f x); simpl; [|auto]. apply NoDup_cons. split; [|auto].
  intros (y & Ey & [_ Hy]%elem_of_bfilter)%list_elem_of_fmap. apply Hn.
  apply list_elem_of_fmap. by exists y.
Qed.

Lemma list_elem_last {A} (l : list A) x : last l = Some x → x ∈ l.
Proof.
  destruct l as [|y l _] using rev_ind; [done|]. rewrite last_snoc. intros [= ->].
  apply elem_of_app. right. apply elem_of_cons. by left.
Qed.

Lemma bfilter_map {A B} (f : B → bool) (g : A → B) l :
  List.filter f (g <$> l) = g <$> List.filter (λ x, f (g x)) l.
Proof.
  induction l as [|x l IH]; [done|]. cbn [fmap list_fmap]. rewrite !bfilter_cons.
  destruct (f (g x)); cbn [fmap list_fmap]; by rewrite <- IH.
Qed.

Lemma partition_point_ext {A} (f g : A → bool) l :
  (∀ x, f x = g x) → partition_point f l = partition_point g l.
Proof.
  intros H. unfold partition_point. destruct l as [|y l]; [done|].
  assert (∀ fuel (l : list A) base size,
            partition_search fuel f l base size = partition_search fuel g l base size) as Hs.
  { induction fuel as [|fuel IH]; intros l' base size; cbn [partition_search]; [done|].
    destruct (bool_decide _); [done|]. cbv zeta. rewrite IH.
    destruct (l' !! _); [by rewrite H|done]. }
  rewrite Hs. destruct (_ !! _); [by rewrite H|done].
Qed.

Lemma partition_search_le {A} fuel (f : A → bool) l base size :
  base + size <= length l → 1 <= size → partition_search fuel f l base size < length l.
Proof.
  revert base size. induction fuel as [|fuel IH]; intros base size Hb Hs; cbn [partition_search]; [lia|].
  case_bool_decide as Hsz; [lia|]. cbv zeta.
  assert (size / 2 < size ∧ 1 <= size / 2) as [Hh1 Hh2].
  { split; [apply Nat.div_lt; lia|]. apply Nat.div_le_lower_bound; lia. }
  apply IH; [|lia]. destruct (l !! _); [|lia]. destruct (f _); lia.
Qed.

Lemma partition_point_le {A} (f : A → bool) l : partition_point f l <= length l.
Proof.
  unfold partition_point. destruct l as [|x l]; [done|].
  pose proof (partition_search_le (length (x :: l)) f (x :: l) 0 (length (x :: l))) as H.
  assert (partition_search (length (x :: l)) f (x :: l) 0 (length (x :: l)) < length (x :: l))
    by (apply H; simpl; lia).
  destruct (_ !! _); [|lia]. destruct (f _); lia.
Qed.

Lemma sort_by_ext {A} (f g : A → A → comparison) l :
  (∀ x y, f x y = g x y) → sort_by f l = sort_by g l.
Proof.
  intros H. assert (∀ x l, insert_by f x l = insert_by g x l) as Hi.
  { intros x l'. induction l' as [|y l' IH]; cbn [insert_by]; [done|]. by rewrite H, IH. }
  induction l as [|x l IH]; cbn [sort_by]; [done|]. by rewrite IH, Hi.
Qed.

(** What a partial map makes of distinct elements is distinct. *)
Lemma NoDup_omap_key {A B C D} (g : A → option B) (p : A → C) (h : B → D) l :
  (∀ x y a b, x ∈ l → y ∈ l → g x = Some a → g y = Some b → h a = h b → p x = p y) →
  NoDup (p <$> l) → NoDup (h <$> omap g l).
Proof.
  induction l as [|x l IH]; intros H; cbn [fmap list_fmap omap list_omap]; [constructor|].
  intros [Hn Hd]%NoDup_cons. assert (NoDup (h <$> omap g l)) as Hrest.
  { apply IH; [|done]. intros y z a b Hy Hz. apply H; by apply elem_of_cons; right. }
  destruct (g x) as [a|] eqn:Eg; [|done]. cbn [fmap list_fmap]. apply NoDup_cons. split; [|done].
  intros (b & E & (y & Hy & Ey)%list_elem_of_omap)%list_elem_of_fmap. apply Hn.
  apply list_elem_of_fmap. exists y. split; [|done].
  apply (H x y a b); auto; apply elem_of_cons; auto.
Qed.

Lemma filter_none {A} (P : A → Prop) `{!∀ x, Decision (P x)} (l : list A) :
  (∀ x, x ∈ l → ¬ P x) → filter P l = [].
Proof.
  intros Hl. apply elem_of_nil_inv. intros x [Hx Hin]%list_elem_of_filter. by apply (Hl x).
Qed.

(** ** Along an infinite run *)

(** What holds until something comes, which does when it is done again and again. *)
Lemma until n0 (P Q T : nat → Prop) n :
  (∀ n, ∃ m, n <= m ∧ (P m → T m)) → (∀ m, n0 <= m → P m → P (S m) ∨ Q (S m)) →
  (∀ m, n0 <= m → P m → T m → Q (S m)) → n0 <= n → P n → ∃ m, n <= m ∧ Q m.
Proof.
  intros Hf Hs Ht Hn HP. destruct (Hf n) as (m & Hm & HT). replace m with (n + (m - n)) in * by lia.
  remember (m - n) as d eqn:E. clear E Hm. revert n Hn HP HT. induction d as [|d IH]; intros n Hn HP HT.
  - rewrite Nat.add_0_r in HT. exists (S n). split; [lia|]. by apply Ht; [..|apply HT].
  - destruct (Hs n Hn HP) as [HP'|HQ]; [|by exists (S n); split; [lia|]].
    destruct (IH (S n)) as (m' & Hm' & ?); [lia|done|by rewrite Nat.add_succ_comm|]. exists m'. split; [lia|done].
Qed.

(** What a step keeps, a run keeps. *)
Lemma kept n0 (P : nat → Prop) n m :
  (∀ m, n0 <= m → P m → P (S m)) → n0 <= n → n <= m → P n → P m.
Proof. intros Hs Hn Hm HP. induction Hm as [|m Hm IH]; [done|]. apply Hs; [lia|exact IH]. Qed.

(** What comes for each of finitely many, and stays, comes for all. *)
Lemma eventually_all (P : nat → nat → Prop) n k :
  (∀ i m, n <= m → P i m → P i (S m)) → (∀ i m, i < k → n <= m → ∃ m', m <= m' ∧ P i m') →
  ∃ m, n <= m ∧ ∀ i, i < k → P i m.
Proof.
  intros Hstay Hev. induction k as [|k IH]; [exists n; split; [lia|intros; lia]|].
  destruct IH as (m & Hm & Hk); [intros; apply Hev; lia|].
  destruct (Hev k m) as (m' & Hm' & HP); [lia..|]. exists m'. split; [lia|].
  intros i Hi. destruct (decide (i = k)) as [->|]; [done|].
  apply (kept n (P i) m); [by apply Hstay|lia..|]. apply Hk. lia.
Qed.
