(* ===== verification/Prog.v ===== *)
(** Programs over a shared state.

    A request handler is a tree of atomic accesses to the state that all
    requests share. [exec] runs one program alone; [pool_step] interleaves any
    number of them, one access at a time, which is what the tasks of an
    asynchronous server do between two [await]s or two lock acquisitions. A task
    that awaits may also be dropped; what its drop does to the state is written
    at the access it waits for.
    [safe] is a rely-guarantee judgement: what is proved of one program with
    it holds in every interleaving ([pool_safe]). *)

From S2P Require Import Prelude.
From stdpp Require Import relations.

Section prog.
Context {S : Type}.

(** A program: a value, or one atomic access and what follows it. Where the
    program awaits the access, [drop] is what dropping it there does to the
    state; elsewhere nothing can drop it. *)
Inductive Prog (A : Type) : Type :=
| Done (a : A)
| Act (B : Type) (drop : option (S → S)) (f : S → B * S) (k : B → Prog A).
Arguments Done {A}.
Arguments Act {A}.

Fixpoint pbind {A B} (p : Prog A) (k : A → Prog B) : Prog B :=
  match p with
  | Done a => k a
  | Act C d f j => Act C d f (λ c, pbind (j c) k)
  end.

(** One access. *)
Definition act {A} (f : S → A * S) : Prog A := Act A None f Done.

(** One that is awaited; dropping the program there does nothing. *)
Definition await {A} (f : S → A * S) : Prog A := Act A (Some id) f Done.

(** A program that owns a value whose [Drop] does [d]: it is what dropping the
    program does, wherever it awaits. *)
Fixpoint owning {A} (d : S → S) (p : Prog A) : Prog A :=
  match p with
  | Done a => Done a
  | Act B d' f k => Act B (const d <$> d') f (λ b, owning d (k b))
  end.

(** The program run alone. *)
Fixpoint exec {A} (p : Prog A) (s : S) : A * S :=
  match p with
  | Done a => (a, s)
  | Act B _ f k => let '(b, s) := f s in exec (k b) s
  end.

Lemma exec_pbind {A B} (p : Prog A) (k : A → Prog B) s :
  exec (pbind p k) s = exec (k (exec p s).1) (exec p s).2.
Proof.
  revert s. induction p as [a|C d f j IH]; intros s; [done|]. cbn [pbind exec].
  destruct (f s) as [c s']. apply IH.
Qed.

Lemma exec_owning {A} d (p : Prog A) s : exec (owning d p) s = exec p s.
Proof.
  revert s. induction p as [a|C d' f j IH]; intros s; [done|]. cbn [owning exec].
  destruct (f s) as [c s']. apply IH.
Qed.

Lemma exec_act {A} (f : S → A * S) s : exec (act f) s = f s.
Proof. unfold act. simpl. by destruct (f s). Qed.

(** ** Rely and guarantee *)

Section safe.
(** The invariant of the state, and the order in which states may follow each
    other; other programs keep the first and step along the second. *)
Context (I : S → Prop) (R : S → S → Prop) `{!PreOrder R}.

(** Dropping a program here keeps them as well. *)
Definition drop_ok (d : option (S → S)) (s : S) : Prop :=
  match d with Some d => I (d s) ∧ R s (d s) | None => True end.

(** From any state after [s0], whatever the others do between two accesses,
    [p] keeps the invariant and the order, and its value satisfies [Q]. *)
Fixpoint safe {A} (s0 : S) (p : Prog A) (Q : S → A → Prop) : Prop :=
  match p with
  | Done a => ∀ s, I s → R s0 s → Q s a
  | Act B d f k => ∀ s, I s → R s0 s →
      I (f s).2 ∧ R s (f s).2 ∧ safe (f s).2 (k (f s).1) Q ∧ drop_ok d s
  end.

Lemma safe_later {A} s0 s1 (p : Prog A) Q : R s0 s1 → safe s0 p Q → safe s1 p Q.
Proof.
  intros H01. destruct p as [a|B d f k]; cbn [safe]; intros Hp s Hs H1s; apply Hp; try done;
    by transitivity s1.
Qed.

Lemma safe_mono {A} s0 (p : Prog A) (Q Q' : S → A → Prop) :
  (∀ s a, R s0 s → Q s a → Q' s a) → safe s0 p Q → safe s0 p Q'.
Proof.
  revert s0. induction p as [a|B d f k IH]; intros s0 HQ; cbn [safe]; intros Hp s Hs H0s; [eauto|].
  destruct (Hp s Hs H0s) as (H1 & H2 & H3 & H4). split_and!; [done..| |done]. eapply IH; [|done].
  intros s' a Hss. apply HQ. by do 2 (etransitivity; [eassumption|]).
Qed.

Lemma safe_start {A} s0 (p : Prog A) Q :
  (∀ s, I s → R s0 s → safe s p Q) → safe s0 p Q.
Proof.
  intros Hp. destruct p as [a|B d f k]; cbn [safe] in *; intros s Hs H0s;
    apply (Hp s Hs H0s s Hs); reflexivity.
Qed.

Lemma safe_bind {A B} s0 (p : Prog A) (k : A → Prog B) Q Q' :
  safe s0 p Q' → (∀ s a, I s → R s0 s → Q' s a → safe s (k a) Q) → safe s0 (pbind p k) Q.
Proof.
  revert s0. induction p as [a|C d f j IH]; intros s0 Hp Hk; cbn [pbind safe] in *.
  - apply safe_start. eauto.
  - intros s Hs H0s. destruct (Hp s Hs H0s) as (H1 & H2 & H3 & H4). split_and!; [done..| |done].
    apply IH; [done|]. intros s' a Hs' Hss. apply Hk; [done|].
    by do 2 (etransitivity; [eassumption|]).
Qed.

(** Binds associate. *)
Lemma safe_assoc {A B C} s0 (p : Prog A) (j : A → Prog B) (k : B → Prog C) Q :
  safe s0 (pbind p (λ a, pbind (j a) k)) Q → safe s0 (pbind (pbind p j) k) Q.
Proof.
  revert s0. induction p as [a|D d f i IH]; intros s0 Hp; cbn [pbind safe] in *; [done|].
  intros s Hs H0s. destruct (Hp s Hs H0s) as (H1 & H2 & H3 & H4). auto.
Qed.

Lemma safe_done {A} s0 (a : A) (Q : S → A → Prop) :
  (∀ s, I s → R s0 s → Q s a) → safe s0 (Done a) Q.
Proof. done. Qed.

Lemma safe_act {A} s0 (f : S → A * S) (Q : S → A → Prop) :
  (∀ s, I s → R s0 s → I (f s).2 ∧ R s (f s).2 ∧ ∀ s', I s' → R (f s).2 s' → Q s' (f s).1) →
  safe s0 (act f) Q.
Proof. intros Hf s Hs H0s. cbn [safe]. destruct (Hf s Hs H0s) as (? & ? & ?). by split_and!. Qed.

Lemma safe_await {A} s0 (f : S → A * S) (Q : S → A → Prop) : safe s0 (act f) Q → safe s0 (await f) Q.
Proof.
  intros Hf s Hs H0s. destruct (Hf s Hs H0s) as (H1 & H2 & H3 & _). split_and!; [done..|].
  split; [done|]. change (id s) with s. reflexivity.
Qed.

Lemma safe_owning {A} s0 d (p : Prog A) (Q : S → A → Prop) :
  (∀ s, I s → I (d s) ∧ R s (d s)) → safe s0 p Q → safe s0 (owning d p) Q.
Proof.
  intros Hd. revert s0. induction p as [a|B d' f k IH]; intros s0; cbn [owning safe]; [done|].
  intros Hp s Hs H0s. destruct (Hp s Hs H0s) as (H1 & H2 & H3 & H4). split_and!; [done..|by apply IH|].
  destruct d'; [by apply Hd|done].
Qed.

(** A program run alone is one of the interleavings. *)
Lemma exec_safe {A} s (p : Prog A) Q :
  I s → safe s p Q → I (exec p s).2 ∧ R s (exec p s).2 ∧ Q (exec p s).2 (exec p s).1.
Proof.
  revert s. induction p as [a|B d f k IH]; intros s Hs; cbn [safe exec].
  - intros Hp. split_and!; [done|reflexivity|]. apply Hp; [done|reflexivity].
  - intros Hp. destruct (Hp s Hs) as (H1 & H2 & H3 & _); [reflexivity|].
    destruct (f s) as [b s1]. cbn [fst snd] in *. destruct (IH b s1 H1 H3) as (G1 & G2 & G3).
    split_and!; [done| |done]. by transitivity s1.
Qed.

Lemma safe_and {A} s0 (p : Prog A) (Q Q' : S → A → Prop) :
  safe s0 p Q → safe s0 p Q' → safe s0 p (λ s a, Q s a ∧ Q' s a).
Proof.
  revert s0. induction p as [a|B d f k IH]; intros s0; cbn [safe]; intros H1 H2 s Hs H0s; [eauto|].
  destruct (H1 s Hs H0s) as (? & ? & ? & ?), (H2 s Hs H0s) as (? & ? & ? & ?). auto.
Qed.

Lemma safe_all {A X} s0 (p : Prog A) (Q : X → S → A → Prop) (Q' : S → A → Prop) :
  safe s0 p Q' → (∀ x, safe s0 p (Q x)) → safe s0 p (λ s a, ∀ x, Q x s a).
Proof.
  revert s0. induction p as [a|B d f k IH]; intros s0; cbn [safe]; intros H1 H2 s Hs H0s.
  - intros x. by apply H2.
  - destruct (H1 s Hs H0s) as (? & ? & ? & ?). split_and!; [done..| |done]. eapply IH; [done|].
    intros x. by destruct (H2 x s Hs H0s) as (_ & _ & ? & _).
Qed.

(** A program whose value satisfies [Q] wherever it starts. *)
Definition always {A} (p : Prog A) (Q : A → Prop) : Prop := ∀ s0, safe s0 p (λ _ a, Q a).

Lemma always_done {A} (a : A) (Q : A → Prop) : Q a → always (Done a) Q.
Proof. intros HQ s0 s _ _. exact HQ. Qed.

Lemma always_bind {A B} (p : Prog A) (k : A → Prog B) (Q' : A → Prop) Q :
  always p Q' → (∀ a, Q' a → always (k a) Q) → always (pbind p k) Q.
Proof. intros Hp Hk s0. eapply safe_bind; [apply Hp|]. intros s a _ _ Ha. by apply Hk. Qed.

Lemma always_assoc {A B C} (p : Prog A) (j : A → Prog B) (k : B → Prog C) Q :
  always (pbind p (λ a, pbind (j a) k)) Q → always (pbind (pbind p j) k) Q.
Proof. intros Hp s0. by apply safe_assoc. Qed.

Lemma always_mono {A} (p : Prog A) (Q Q' : A → Prop) :
  (∀ a, Q a → Q' a) → always p Q → always p Q'.
Proof. intros HQ Hp s0. eapply safe_mono; [|apply Hp]. auto. Qed.
End safe.

(** ** Accesses that leave part of the state alone *)

Section keeps.
(** What each access of the program keeps, and each drop, from any state. *)
Context (D K : S → S → Prop).

Fixpoint keeps {A} (p : Prog A) (Q : A → Prop) : Prop :=
  match p with
  | Done a => Q a
  | Act B d f k => ∀ s, K s (f s).2 ∧ keeps (k (f s).1) Q ∧
      match d with Some d => D s (d s) | None => True end
  end.

Lemma keeps_mono {A} (p : Prog A) (Q Q' : A → Prop) :
  (∀ a, Q a → Q' a) → keeps p Q → keeps p Q'.
Proof.
  intros HQ. induction p as [a|B d f k IH]; cbn [keeps]; [auto|]. intros Hp s.
  destruct (Hp s) as (H1 & H2 & H3). auto.
Qed.

Lemma keeps_bind {A B} (p : Prog A) (k : A → Prog B) Q Q' :
  keeps p Q' → (∀ a, Q' a → keeps (k a) Q) → keeps (pbind p k) Q.
Proof.
  intros Hp Hk. induction p as [a|C d f j IH]; cbn [pbind keeps] in *; [auto|]. intros s.
  destruct (Hp s) as (H1 & H2 & H3). auto.
Qed.

Lemma keeps_act {A} (f : S → A * S) Q : (∀ s, K s (f s).2 ∧ Q (f s).1) → keeps (act f) Q.
Proof. intros Hf s. destruct (Hf s). by split_and!. Qed.

Lemma exec_keeps `{!PreOrder K} {A} (p : Prog A) Q s :
  keeps p Q → K s (exec p s).2 ∧ Q (exec p s).1.
Proof.
  revert s. induction p as [a|B d f k IH]; intros s; cbn [keeps exec]; [by split|]. intros Hp.
  destruct (Hp s) as (H1 & H2 & _). destruct (f s) as [b s1]. cbn [fst snd] in *.
  destruct (IH b s1 H2) as [G1 G2]. split; [by transitivity s1|done].
Qed.
End keeps.

Lemma keeps_weaken (D D' K K' : S → S → Prop) {A} (p : Prog A) Q :
  (∀ s s', D s s' → D' s s') → (∀ s s', K s s' → K' s s') → keeps D K p Q → keeps D' K' p Q.
Proof.
  intros HD HK. induction p as [a|B d f k IH]; cbn [keeps]; [done|]. intros Hp s.
  destruct (Hp s) as (H1 & H2 & H3). split; [by apply HK|]. split; [by apply IH|]. destruct d; auto.
Qed.

Lemma keeps_owning (D D' K : S → S → Prop) {A} d (p : Prog A) Q :
  (∀ s, D' s (d s)) → keeps D K p Q → keeps D' K (owning d p) Q.
Proof.
  intros Hd. induction p as [a|B d' f k IH]; cbn [keeps owning]; [done|]. intros Hp s.
  destruct (Hp s) as (H1 & H2 & H3). split; [done|]. split; [by apply IH|]. destruct d'; [apply Hd|done].
Qed.

(** ** Programs that do the same *)

(** The same accesses, which return the same, and the same drops; and a value
    that satisfies [Q]. *)
Definition same_drop (d d' : option (S → S)) : Prop :=
  match d, d' with
  | Some d, Some d' => ∀ s, d s = d' s
  | None, None => True
  | _, _ => False
  end.

Inductive same {A} (Q : A → Prop) : Prog A → Prog A → Prop :=
| same_done a : Q a → same Q (Done a) (Done a)
| same_act B d d' (f f' : S → B * S) k k' :
    same_drop d d' → (∀ s, f s = f' s) → (∀ s, same Q (k (f s).1) (k' (f s).1)) →
    same Q (Act B d f k) (Act B d' f' k').

Lemma same_drop_refl d : same_drop d d.
Proof. by destruct d. Qed.

Lemma same_refl {A} (p : Prog A) : same (λ _, True) p p.
Proof. induction p as [a|B d f k IH]; constructor; auto using same_drop_refl. Qed.

Lemma same_mono {A} (Q Q' : A → Prop) p p' : (∀ a, Q a → Q' a) → same Q p p' → same Q' p p'.
Proof. intros HQ. induction 1; constructor; auto. Qed.

Lemma same_bind {A B} (Q' : A → Prop) (Q : B → Prop) p p' k k' :
  same Q' p p' → (∀ a, Q' a → same Q (k a) (k' a)) → same Q (pbind p k) (pbind p' k').
Proof. intros Hp Hk. induction Hp; cbn [pbind]; [auto|]. constructor; auto. Qed.

Lemma same_owning {A} (Q : A → Prop) d p p' : same Q p p' → same Q (owning d p) (owning d p').
Proof.
  induction 1 as [|B d1 d2 f f' k k' Hd]; cbn [owning]; constructor; auto. by destruct d1, d2.
Qed.

Lemma same_inv {A} (Q : A → Prop) p p' :
  same Q p p' →
  match p with
  | Done a => p' = Done a
  | Act B d f k => ∃ d' f' k', p' = Act B d' f' k' ∧ same_drop d d' ∧
      (∀ s, f s = f' s) ∧ ∀ s, same Q (k (f s).1) (k' (f s).1)
  end.
Proof. destruct 1; eauto 10. Qed.

Lemma same_sym {A} (p p' : Prog A) : same (λ _, True) p p' → same (λ _, True) p' p.
Proof.
  induction 1 as [|B d d' f f' k k' Hd Hf Hk IH]; constructor; try done.
  - by destruct d, d'; cbn in *.
  - intros s. by rewrite <- Hf.
Qed.

Lemma same_trans {A} (p1 p2 p3 : Prog A) :
  same (λ _, True) p1 p2 → same (λ _, True) p2 p3 → same (λ _, True) p1 p3.
Proof.
  intros H12. revert p3. induction H12 as [a|B d d' f f' k k' Hd Hf Hk IH]; intros p3 H23; [done|].
  apply same_inv in H23 as (d'' & f'' & k'' & -> & Hd' & Hf' & Hk'). constructor.
  - destruct d, d', d''; cbn in *; try done. intros x. by rewrite Hd.
  - intros s. by rewrite Hf.
  - intros s. apply IH. rewrite (Hf s). apply Hk'.
Qed.

Lemma same_assoc {A B C} (p : Prog A) (j : A → Prog B) (k : B → Prog C) :
  same (λ _, True) (pbind (pbind p j) k) (pbind p (λ a, pbind (j a) k)).
Proof.
  induction p as [a|D d f i IH]; cbn [pbind]; [apply same_refl|constructor; auto using same_drop_refl].
Qed.

(** ** Tickets and entries *)

Section tickets.
(** A shared counter, a shared history of entries, and the name an entry is
    under; [named n x] says that [x] is a name of the number [n]. *)
Context {E X : Type} (cnt : S → N) (hist : S → list E) (key : E → X) (named : N → X → Prop).

(** What a program has of its own: a number it took from the counter, the name
    it made of it, and the entries it has written, all under that name. *)
Abbreviation Own := (option (N * X * list E)).

Inductive own_step : Own → S → S → Own → Prop :=
| own_silent g s s' : cnt s' = cnt s → hist s' = hist s → own_step g s s' g
| own_ticket s s' x :
    cnt s' = (cnt s + 1)%N → hist s' = hist s → named (cnt s) x → own_step None s s' (Some (cnt s, x, []))
| own_entry s s' n x es e :
    cnt s' = cnt s → hist s' = hist s ++ [e] → key e = x →
    own_step (Some (n, x, es)) s s' (Some (n, x, es ++ [e])).

(** Every access is such a step, and so is every drop; a finished program and a
    dropped one have what [Q] and [QD] say. *)
Fixpoint owns {A} (g : Own) (p : Prog A) (Q : Own → A → Prop) (QD : Own → Prop) : Prop :=
  match p with
  | Done a => Q g a
  | Act B d f k => ∀ s,
      (∃ g', own_step g s (f s).2 g' ∧ owns g' (k (f s).1) Q QD) ∧
      match d with Some d => ∃ g', own_step g s (d s) g' ∧ QD g' | None => True end
  end.

Lemma owns_mono {A} g (p : Prog A) (Q Q' : Own → A → Prop) (QD QD' : Own → Prop) :
  (∀ g a, Q g a → Q' g a) → (∀ g, QD g → QD' g) → owns g p Q QD → owns g p Q' QD'.
Proof.
  intros HQ HD. revert g. induction p as [a|B d f k IH]; intros g; cbn [owns]; [auto|].
  intros Hp s. destruct (Hp s) as [(g' & H1 & H2) H3]. split; [eauto|].
  destruct d; [|done]. destruct H3 as (g'' & ? & ?). eauto.
Qed.

Lemma owns_bind {A B} g (p : Prog A) (k : A → Prog B) Q Q' QD :
  owns g p Q' QD → (∀ g a, Q' g a → owns g (k a) Q QD) → owns g (pbind p k) Q QD.
Proof.
  intros Hp Hk. revert g Hp. induction p as [a|C d f j IH]; intros g Hp; cbn [pbind owns] in *;
    [auto|]. intros s. destruct (Hp s) as [(g' & H1 & H2) H3]. split; [eauto|done].
Qed.

(** What is owned only grows. *)
Definition own_le (g g' : Own) : Prop :=
  match g with None => True | Some (n, x, es) => ∃ es', g' = Some (n, x, es ++ es') end.

Lemma own_le_refl g : own_le g g.
Proof. destruct g as [[[n x] es]|]; [|done]. exists []. by rewrite app_nil_r. Qed.

Lemma own_le_trans g1 g2 g3 : own_le g1 g2 → own_le g2 g3 → own_le g1 g3.
Proof.
  destruct g1 as [[[n x] es]|]; [|done]. intros [es' ->] [es'' ->]. exists (es' ++ es'').
  by rewrite app_assoc.
Qed.

Lemma own_step_le g s s' g' : own_step g s s' g' → own_le g g'.
Proof. destruct 1; [apply own_le_refl|done|by eexists]. Qed.

(** So what a running program owns is part of what it will own at its end. *)
Lemma owns_end {A} g (p : Prog A) Q QD (s : S) : owns g p Q QD → ∃ g' a, own_le g g' ∧ Q g' a.
Proof.
  revert g. induction p as [a|B d f k IH]; intros g; cbn [owns].
  - intros HQ. exists g, a. split; [apply own_le_refl|done].
  - intros Hp. destruct (Hp s) as [(g1 & H1 & H2) _]. destruct (IH _ _ H2) as (g' & a & H3 & HQ).
    exists g', a. split; [|done]. eapply own_le_trans; [by eapply own_step_le|done].
Qed.

(** A program that leaves both alone. *)
Lemma keeps_owns {A} (D : S → S → Prop) g (p : Prog A) Q (QD : Own → Prop) :
  (∀ s s', D s s' → ∃ g', own_step g s s' g' ∧ QD g') →
  keeps D (λ s s', cnt s' = cnt s ∧ hist s' = hist s) p Q → owns g p (λ g' a, g' = g ∧ Q a) QD.
Proof.
  intros HD. induction p as [a|B d f k IH]; cbn [keeps owns]; [done|]. intros Hp s.
  destruct (Hp s) as ([H1 H2] & H3 & H4). split.
  - exists g. split; [by apply own_silent|auto].
  - destruct d; auto.
Qed.
End tickets.

(** ** Interleavings *)

Section pool.
(** The requests, the program of each, what stands for the value of a dropped
    one, and the steps of the environment. *)
Context {Req A : Type} (prog_of : Req → Prog A) (dropped : A) (Env : S → S → Prop).

(** A task: its request, the state when it started, what is left to run. *)
Record Task := mkTask {
  t_req : Req;
  t_start : S;
  t_prog : Prog A;
}.

Inductive pool_step : S * list Task → S * list Task → Prop :=
| pool_spawn s ts q : pool_step (s, ts) (s, ts ++ [mkTask q s (prog_of q)])
| pool_run s ts i q s0 B d f k :
    ts !! i = Some (mkTask q s0 (Act B d f k)) →
    pool_step (s, ts) ((f s).2, <[i := mkTask q s0 (k (f s).1)]> ts)
| pool_drop s ts i q s0 B d f k :
    ts !! i = Some (mkTask q s0 (Act B (Some d) f k)) →
    pool_step (s, ts) (d s, <[i := mkTask q s0 (Done dropped)]> ts)
| pool_env s s' ts : Env s s' → pool_step (s, ts) (s', ts).

(** The tasks after any interleaving that starts with none. *)
Definition pool_reach (s0 s : S) (ts : list Task) : Prop := rtc pool_step (s0, []) (s, ts).

(** A task may run to its end undisturbed. *)
Lemma pool_exec s ts i q st (p : Prog A) :
  ts !! i = Some (mkTask q st p) →
  rtc pool_step (s, ts) ((exec p s).2, <[i := mkTask q st (Done (exec p s).1)]> ts).
Proof.
  revert s ts. induction p as [a|B d f k IH]; intros s ts Hi; cbn [exec].
  - cbn [fst snd]. rewrite list_insert_id by done. apply rtc_refl.
  - eapply rtc_l; [by eapply pool_run|]. destruct (f s) as [b s1]. cbn [fst snd].
    rewrite <- (list_insert_insert_eq ts i (mkTask q st (Done (exec (k b) s1).1)) (mkTask q st (k b))).
    apply IH. apply list_lookup_insert_eq. by eapply lookup_lt_Some.
Qed.

(** A program after [n] accesses undisturbed, and where its drop then leads. *)
Fixpoint run_for (n : nat) (p : Prog A) (s : S) : Prog A * S :=
  match n, p with
  | Datatypes.S n, Act B _ f k => let '(b, s) := f s in run_for n (k b) s
  | _, _ => (p, s)
  end.

Definition cut (c : Prog A * S) : option S :=
  match c.1 with Act _ (Some d) _ _ => Some (d c.2) | _ => None end.

Lemma pool_run_for n s ts i q st p :
  ts !! i = Some (mkTask q st p) →
  rtc pool_step (s, ts) ((run_for n p s).2, <[i := mkTask q st (run_for n p s).1]> ts).
Proof.
  revert p s ts. induction n as [|n IH]; intros p s ts Hi; cbn [run_for].
  - cbn [fst snd]. rewrite list_insert_id by done. apply rtc_refl.
  - destruct p as [a|B d f k]; cbn [fst snd]; [rewrite list_insert_id by done; apply rtc_refl|].
    eapply rtc_l; [by eapply pool_run|]. destruct (f s) as [b s1]. cbn [fst snd].
    rewrite <- (list_insert_insert_eq ts i (mkTask q st (run_for n (k b) s1).1) (mkTask q st (k b))).
    apply IH. apply list_lookup_insert_eq. by eapply lookup_lt_Some.
Qed.

(** A request that is dropped after [n] accesses. *)
Lemma pool_dropped n s ts q s' :
  cut (run_for n (prog_of q) s) = Some s' →
  rtc pool_step (s, ts) (s', ts ++ [mkTask q s (Done dropped)]).
Proof.
  intros Hc. eapply rtc_l; [apply (pool_spawn _ _ q)|].
  assert ((ts ++ [mkTask q s (prog_of q)]) !! length ts = Some (mkTask q s (prog_of q))) as Hi.
  { by rewrite lookup_app_r, Nat.sub_diag by lia. }
  etransitivity; [by apply (pool_run_for n)|]. rewrite insert_app_r_alt, Nat.sub_diag by lia.
  cbn [insert list_insert]. unfold cut in Hc. destruct (run_for n (prog_of q) s) as [p s1]. cbn [fst snd] in *.
  destruct p as [a|B [d|] f k]; try done. injection Hc as <-. apply rtc_once.
  assert ((ts ++ [mkTask q s (Act B (Some d) f k)]) !! length ts = Some (mkTask q s (Act B (Some d) f k))) as Hi'.
  { by rewrite lookup_app_r, Nat.sub_diag by lia. }
  pose proof (pool_drop s1 _ _ _ _ _ _ _ _ Hi') as H. by rewrite insert_app_r_alt, Nat.sub_diag in H by lia.
Qed.

(** A request alone. *)
Lemma pool_alone s ts q :
  rtc pool_step (s, ts)
    ((exec (prog_of q) s).2, ts ++ [mkTask q s (Done (exec (prog_of q) s).1)]).
Proof.
  eapply rtc_l; [apply (pool_spawn _ _ q)|].
  assert ((ts ++ [mkTask q s (prog_of q)]) !! length ts = Some (mkTask q s (prog_of q))) as Hi.
  { by rewrite lookup_app_r, Nat.sub_diag by lia. }
  pose proof (pool_exec s _ _ _ _ _ Hi) as H. by rewrite insert_app_r_alt, Nat.sub_diag in H by lia.
Qed.

Lemma pool_request s0 s ts q :
  pool_reach s0 s ts →
  pool_reach s0 (exec (prog_of q) s).2 (ts ++ [mkTask q s (Done (exec (prog_of q) s).1)]).
Proof. intros Hr. unfold pool_reach. etransitivity; [exact Hr|apply pool_alone]. Qed.

Context (I : S → Prop) (R : S → S → Prop) `{!PreOrder R}.

(** What is safe of every program alone holds of every task of the pool. *)
Theorem pool_safe (post : Req → S → S → A → Prop) s0 s ts :
  (∀ q s, I s → safe I R s (prog_of q) (post q s)) → (∀ q s s', post q s s' dropped) →
  (∀ s s', I s → Env s s' → I s' ∧ R s s') →
  I s0 → pool_reach s0 s ts →
  I s ∧ R s0 s ∧
  ∀ i t, ts !! i = Some t →
    R s0 (t_start t) ∧ R (t_start t) s ∧ safe I R s (t_prog t) (post (t_req t) (t_start t)).
Proof.
  intros Hprog Hdrop Henv H0. unfold pool_reach.
  set (P := λ c : S * list Task, I c.1 ∧ R s0 c.1 ∧ ∀ i t, c.2 !! i = Some t →
    R s0 (t_start t) ∧ R (t_start t) c.1 ∧ safe I R c.1 (t_prog t) (post (t_req t) (t_start t))).
  apply (rtc_ind_r P (s0, [])).
  { unfold P. cbn [fst snd]. split_and!; [done|reflexivity|]. intros i t. by rewrite lookup_nil. }
  intros [s1 ts1] c2 _ Hst (Hs1 & H01 & Hts). unfold P in *. clear P s ts. cbn [fst snd] in *.
  inversion Hst as [? ? q|? ? i q st B d f k Hi|? ? i q st B d f k Hi|? s2 ? He]; subst; cbn [fst snd].
  - split_and!; [done..|]. intros i t [Hi|[_ [_ <-]%list_lookup_singleton_Some]]%lookup_app_Some;
      [by apply (Hts i)|]. cbn [t_req t_start t_prog]. split_and!; [done|reflexivity|by apply Hprog].
  - destruct (Hts _ _ Hi) as (G1 & G2 & Hsafe). cbn [t_req t_start t_prog safe] in *.
    destruct (Hsafe s1 Hs1) as (I2 & R2 & S2 & _); [reflexivity|].
    split_and!; [done|by transitivity s1|]. intros j t.
    rewrite list_lookup_insert_Some. intros [(<- & <- & _)|[_ Hj]]; cbn [t_req t_start t_prog].
    + split_and!; [done| |done]. by transitivity s1.
    + destruct (Hts _ _ Hj) as (K1 & K2 & K3). split_and!; [done|by transitivity s1|].
      by eapply safe_later.
  - destruct (Hts _ _ Hi) as (G1 & G2 & Hsafe). cbn [t_req t_start t_prog safe] in *.
    destruct (Hsafe s1 Hs1) as (_ & _ & _ & I2 & R2); [reflexivity|].
    split_and!; [done|by transitivity s1|]. intros j t.
    rewrite list_lookup_insert_Some. intros [(<- & <- & _)|[_ Hj]]; cbn [t_req t_start t_prog safe].
    + split_and!; [done|by transitivity s1|]. intros s' _ _. apply Hdrop.
    + destruct (Hts _ _ Hj) as (K1 & K2 & K3). split_and!; [done|by transitivity s1|].
      by eapply safe_later.
  - destruct (Henv _ _ Hs1 He) as [I2 R2]. split_and!; [done|by transitivity s1|].
    intros j t Hj. destruct (Hts _ _ Hj) as (K1 & K2 & K3).
    split_and!; [done|by transitivity s1|]. by eapply safe_later.
Qed.

(** The same, for the tasks that have finished. *)
Lemma pool_post (post : Req → S → S → A → Prop) s0 s ts i q st a :
  (∀ q s, I s → safe I R s (prog_of q) (post q s)) → (∀ q s s', post q s s' dropped) →
  (∀ s s', I s → Env s s' → I s' ∧ R s s') →
  I s0 → pool_reach s0 s ts → ts !! i = Some (mkTask q st (Done a)) → post q st s a.
Proof.
  intros Hp Hdr He H0 Hr Hi. destruct (pool_safe post s0 s ts Hp Hdr He H0 Hr) as (Hs & _ & Hts).
  destruct (Hts _ _ Hi) as (_ & _ & Hd). apply Hd; [done|reflexivity].
Qed.

(** ** Who wrote what *)

Section owners.
Context {E X : Type} `{!EqDecision X} (cnt : S → N) (hist : S → list E) (key : E → X) (named : N → X → Prop).
(** Below [M], different numbers have different names. *)
Context (M : N) (Hinj : ∀ n n' x, (n < M)%N → (n' < M)%N → named n x → named n' x → n = n').
Context (Q : Req → option (N * X * list E) → A → Prop).

(** What the tasks own, at a state they have reached: no two the same number,
    and exactly the entries of the history under their names. *)
Record owned (gs : list (option (N * X * list E))) (s : S) : Prop := {
  ow_named : ∀ i n x es, gs !! i = Some (Some (n, x, es)) → (n < cnt s)%N ∧ named n x;
  ow_distinct : ∀ i j n x x' es es', gs !! i = Some (Some (n, x, es)) →
    gs !! j = Some (Some (n, x', es')) → i = j;
  ow_entries : ∀ i n x es, gs !! i = Some (Some (n, x, es)) → filter (λ e, key e = x) (hist s) = es;
  ow_all : ∀ e, e ∈ hist s → ∃ i n x es, gs !! i = Some (Some (n, x, es)) ∧ key e = x;
}.

Lemma owned_start s0 : hist s0 = [] → owned [] s0.
Proof using Type. intros E0. split; try by intros. intros e. rewrite E0. by intros ?%elem_of_nil. Qed.

Lemma owned_ext gs s s' : cnt s' = cnt s → hist s' = hist s → owned gs s → owned gs s'.
Proof using Type. intros Ec Eh [W1 W2 W3 W4]. split; rewrite ?Ec, ?Eh; done. Qed.

Lemma owned_spawn gs s : owned gs s → owned (gs ++ [None]) s.
Proof using Type.
  assert (∀ i x, (gs ++ [None]) !! i = Some (Some x) → gs !! i = Some (Some x)) as Hold.
  { intros i x [?|[_ [_ ?]%list_lookup_singleton_Some]]%lookup_app_Some; done. }
  intros [H1 H2 H3 H4]. split; [eauto..|]. intros e (i & n & x & es & Hi & He)%H4.
  exists i, n, x, es. split; [by apply lookup_app_l_Some|done].
Qed.

Lemma owned_step gs s s' i g g' :
  owned gs s → (cnt s' <= M)%N → gs !! i = Some g → own_step cnt hist key named g s s' g' →
  owned (<[i := g']> gs) s'.
Proof using Hinj.
  intros [H1 H2 H3 H4] HM Hi Hst. inversion Hst as [? ? ? Ec Eh|? ? x Ec Eh Hx|? ? n x es e Ec Eh Ek]; subst; clear Hst.
  - rewrite list_insert_id by done. split; rewrite ?Ec, ?Eh; done.
  - assert (∀ j n0 x0 es0, <[i := Some (cnt s, x, [])]> gs !! j = Some (Some (n0, x0, es0)) →
      j = i ∧ n0 = cnt s ∧ x0 = x ∧ es0 = [] ∨ j ≠ i ∧ gs !! j = Some (Some (n0, x0, es0)) ∧ (n0 < cnt s)%N) as Hnew.
    { intros j n0 x0 es0 [(<- & [= <- <- <-] & _)|[Hne Hj]]%list_lookup_insert_Some; [by left|].
      right. split_and!; [done..|]. by destruct (H1 _ _ _ _ Hj). }
    split; rewrite ?Eh, ?Ec.
    + intros j n0 x0 es0 [(_ & -> & -> & _)|(_ & Hj & ?)]%Hnew; [split; [lia|done]|].
      destruct (H1 _ _ _ _ Hj). split; [lia|done].
    + intros j1 j2 n0 x1 x2 es1 es2 [(-> & -> & _)|(_ & G1 & L1)]%Hnew [(-> & E2 & _)|(_ & G2 & L2)]%Hnew;
        [done|lia|lia|eauto].
    + intros j n0 x0 es0 [(_ & -> & -> & ->)|(_ & Hj & _)]%Hnew; [|eauto].
      apply filter_none. intros e He Ek.
      destruct (H4 e He) as (j' & n' & x' & es' & Hj' & Ek'). destruct (H1 _ _ _ _ Hj') as [Hlt Hn'].
      assert (n' = cnt s) as -> by (apply (Hinj n' (cnt s) x); [lia|lia|congruence|done]). lia.
    + intros e (j & n & x0 & es & Hj & Ek)%H4. exists j, n, x0, es. split; [|done].
      rewrite list_lookup_insert_ne; [done|]. intros ->. congruence.
  - assert (∀ j n0 x0 es0, <[i := Some (n, key e, es ++ [e])]> gs !! j = Some (Some (n0, x0, es0)) →
      j = i ∧ n0 = n ∧ x0 = key e ∧ es0 = es ++ [e] ∨ j ≠ i ∧ gs !! j = Some (Some (n0, x0, es0))) as Hnew.
    { intros j n0 x0 es0 [(<- & [= <- <- <-] & _)|[Hne Hj]]%list_lookup_insert_Some; [by left|by right]. }
    destruct (H1 _ _ _ _ Hi) as [Hlt Hn]. split; rewrite ?Eh, ?Ec.
    + intros j n0 x0 es0 [(_ & -> & -> & _)|(_ & Hj)]%Hnew; [done|by eapply H1].
    + intros j1 j2 n0 x1 x2 es1 es2 [(-> & -> & _)|(N1 & G1)]%Hnew [(-> & E2 & _)|(N2 & G2)]%Hnew;
        [done| | |eauto]; [destruct N2|destruct N1]; [eauto|]. subst n0. eauto.
    + intros j n0 x0 es0 [(_ & -> & -> & ->)|(Hne & Hj)]%Hnew; rewrite filter_app.
      * rewrite (H3 _ _ _ _ Hi), filter_cons_True by done. done.
      * rewrite (H3 _ _ _ _ Hj), filter_cons_False, filter_nil, app_nil_r; [done|]. intros Ek.
        destruct (H1 _ _ _ _ Hj) as [Hlt0 Hn0].
        assert (n0 = n) as -> by (apply (Hinj n0 n x0); [lia|lia|done|by rewrite <- Ek]).
        destruct Hne. eauto.
    + intros e' [He'|Heq%list_elem_of_singleton]%elem_of_app; [|subst e'].
      * destruct (H4 e' He') as (j & n0 & x0 & es0 & Hj & Ek'). destruct (decide (j = i)) as [->|Hne].
        -- exists i, n, (key e), (es ++ [e]). rewrite list_lookup_insert_eq by (by eapply lookup_lt_Some).
           split; [done|congruence].
        -- exists j, n0, x0, es0. by rewrite list_lookup_insert_ne.
      * exists i, n, (key e), (es ++ [e]). rewrite list_lookup_insert_eq by (by eapply lookup_lt_Some). done.
Qed.

Lemma own_step_cnt g s s' g' : own_step cnt hist key named g s s' g' → (cnt s <= cnt s')%N.
Proof using Type. inversion 1; subst; lia. Qed.

Abbreviation owns_task := (λ (t : Task) g, owns cnt hist key named g (t_prog t) (Q (t_req t))
  (λ g, Q (t_req t) g dropped)).

(** One task moves. *)
Lemma owned_turn ts gs s s' i q st p p' :
  Forall2 owns_task ts gs → ((cnt s <= M)%N → owned gs s) → ts !! i = Some (mkTask q st p) →
  (∀ g, owns cnt hist key named g p (Q q) (λ g, Q q g dropped) →
     ∃ g', own_step cnt hist key named g s s' g' ∧ owns cnt hist key named g' p' (Q q) (λ g, Q q g dropped)) →
  ∃ gs', Forall2 owns_task (<[i := mkTask q st p']> ts) gs' ∧ ((cnt s' <= M)%N → owned gs' s').
Proof using Hinj.
  intros Hgs Ho Hi Hp. destruct (Forall2_lookup_l _ _ _ _ _ Hgs Hi) as (g & Hg & Ht).
  destruct (Hp g Ht) as (g' & Hst & Ht'). exists (<[i := g']> gs). split; [by apply Forall2_insert|].
  intros HM. eapply owned_step; [apply Ho|exact HM|exact Hg|exact Hst].
  apply own_step_cnt in Hst. lia.
Qed.

(** In every interleaving, the history is made of what the tasks wrote, each
    under its own name. *)
Lemma pool_owned s0 s ts :
  (∀ q, owns cnt hist key named None (prog_of q) (Q q) (λ g, Q q g dropped)) →
  (∀ s s', Env s s' → cnt s' = cnt s ∧ hist s' = hist s) →
  hist s0 = [] → pool_reach s0 s ts →
  ∃ gs, Forall2 owns_task ts gs ∧ ((cnt s <= M)%N → owned gs s).
Proof using Hinj.
  intros Hprog Henv H0. unfold pool_reach.
  set (P := λ c : S * list Task, ∃ gs, Forall2 owns_task c.2 gs ∧ ((cnt c.1 <= M)%N → owned gs c.1)).
  apply (rtc_ind_r P (s0, [])).
  { exists []. split; [constructor|intros _; by apply owned_start]. }
  intros [s1 ts1] c2 _ Hst (gs & Hgs & Ho). unfold P in *. clear P s ts. cbn [fst snd] in *.
  inversion Hst as [? ? q|? ? i q st B d f k Hi|? ? i q st B d f k Hi|? s2 ? He]; subst; cbn [fst snd].
  - exists (gs ++ [None]). split; [|intros HM; by apply owned_spawn, Ho].
    apply Forall2_app; [done|]. by constructor; [apply Hprog|].
  - eapply owned_turn; [exact Hgs|exact Ho|exact Hi|]. intros g Ht.
    cbn [owns] in Ht. destruct (Ht s1) as [? _]. done.
  - eapply owned_turn; [exact Hgs|exact Ho|exact Hi|]. intros g Ht.
    cbn [owns] in Ht. destruct (Ht s1) as [_ ?]. done.
  - exists gs. destruct (Henv _ _ He) as [Ec Eh]. split; [done|]. rewrite Ec. intros HM.
    apply (owned_ext gs s1); [done..|]. by apply Ho.
Qed.
End owners.
End pool.

(** ** Fair executions *)

Section fair.
Context {Req A : Type} (prog_of : Req → Prog A) (dropped : A) (Env : S → S → Prop).

(** An infinite execution, which may also pause. *)
Definition execution (run : nat → S * list (Task (Req:=Req) (A:=A))) (s0 : S) : Prop :=
  run 0 = (s0, []) ∧ ∀ n, pool_step prog_of dropped Env (run n) (run (Datatypes.S n)) ∨ run (Datatypes.S n) = run n.

(** What is left of a program after its next access. *)
Definition child (p p' : Prog A) : Prop :=
  match p with Done _ => False | Act B d f k => ∃ b, p' = k b end.

(** The task [i] has one of its accesses. *)
Definition takes_turn (i : nat) (ts ts' : list (Task (Req:=Req) (A:=A))) : Prop :=
  ∃ t p', ts !! i = Some t ∧ child (t_prog t) p' ∧ ts' !! i = Some (mkTask (t_req t) (t_start t) p').

Definition finished (t : Task (Req:=Req) (A:=A)) : Prop := ∃ a, t_prog t = Done a.

(** A task that is not finished will have another turn. *)
Definition fair (i : nat) (run : nat → S * list (Task (Req:=Req) (A:=A))) : Prop :=
  ∀ n t, (run n).2 !! i = Some t → ¬ finished t →
    ∃ m, n <= m ∧ takes_turn i (run m).2 (run (Datatypes.S m)).2.

Lemma execution_reach run s0 n : execution run s0 → pool_reach prog_of dropped Env s0 (run n).1 (run n).2.
Proof.
  intros [H0 Hs]. unfold pool_reach. induction n as [|n IH]; [rewrite H0; apply rtc_refl|].
  destruct (Hs n) as [Hn| ->]; [|exact IH]. eapply rtc_r; [exact IH|].
  destruct (run n), (run (Datatypes.S n)). exact Hn.
Qed.

(** The task as its drop leaves it. *)
Definition drop_task (t : Task (Req:=Req) (A:=A)) : Task := mkTask (t_req t) (t_start t) (Done dropped).

(** A step leaves a task alone, gives it its turn, or drops it before its end. *)
Lemma pool_step_task c c' i t :
  pool_step prog_of dropped Env c c' → c.2 !! i = Some t →
  c'.2 !! i = Some t ∨ takes_turn i c.2 c'.2 ∨ c'.2 !! i = Some (drop_task t) ∧ ¬ finished t.
Proof.
  intros Hst Hi. destruct Hst as [s ts q|s ts j q st B d f k Hj|s ts j q st B d f k Hj|s s' ts He]; cbn [snd] in *.
  - left. by apply lookup_app_l_Some.
  - destruct (decide (i = j)) as [<-|Hne].
    + right. left. exists t, (k (f s).1). rewrite Hj in Hi. injection Hi as <-.
      split_and!; [done|by eexists|].
      cbn [t_req t_start]. apply list_lookup_insert_eq. by eapply lookup_lt_Some.
    + left. by rewrite list_lookup_insert_ne.
  - destruct (decide (i = j)) as [<-|Hne].
    + right. right. rewrite Hj in Hi. injection Hi as <-. split; [|by intros [a [=]]].
      apply list_lookup_insert_eq. by eapply lookup_lt_Some.
    + left. by rewrite list_lookup_insert_ne.
  - by left.
Qed.

(** Until its next turn or its drop, a task stays as it is. *)
Lemma next_turn run s0 i n t d :
  execution run s0 → (run n).2 !! i = Some t →
  (run (n + d)).2 !! i = Some t ∨
  (∃ m p', n <= m ∧ child (t_prog t) p' ∧ (run m).2 !! i = Some (mkTask (t_req t) (t_start t) p')) ∨
  (∃ m, n <= m ∧ (run m).2 !! i = Some (drop_task t) ∧ ¬ finished t).
Proof.
  intros [_ Hs] Hi. induction d as [|d [IH|IH]]; [left; by rewrite Nat.add_0_r| |by right].
  rewrite Nat.add_succ_r. destruct (Hs (n + d)) as [Hst| ->]; [|by left].
  destruct (pool_step_task _ _ i t Hst IH) as [?|[(t' & p' & Ht & Hc & Hp)|[Hd Hf]]]; [by left|right..].
  - rewrite IH in Ht. injection Ht as <-. left. exists (Datatypes.S (n + d)), p'. split_and!; [lia|done|done].
  - right. exists (Datatypes.S (n + d)). split_and!; [lia|done|done].
Qed.

(** A task that has its turns and is not dropped finishes: a program has no
    infinite branch. *)
Lemma fair_finishes run s0 i n t :
  execution run s0 → fair i run → (∀ m, (run m).2 !! i ≠ Some (drop_task t)) → (run n).2 !! i = Some t →
  ∃ m a, n <= m ∧ (run m).2 !! i = Some (mkTask (t_req t) (t_start t) (Done a)).
Proof.
  intros He Hf. destruct t as [q st p]. unfold drop_task. cbn [t_req t_start]. intros Hnd. revert n.
  induction p as [a|B d f k IH]; intros n Hi; [by exists n, a|].
  destruct (Hf n _ Hi) as (m & Hm & Hturn); [by intros [a [=]]|].
  assert (∃ m p', n <= m ∧ child (Act B d f k) p' ∧ (run m).2 !! i = Some (mkTask q st p')) as
    (m' & p' & Hm' & [b ->] & Hi').
  { destruct (next_turn run s0 i n _ (m - n) He Hi) as [Hk|[H|(m' & _ & H & _)]]; [|exact H|by destruct (Hnd m')].
    replace (n + (m - n)) with m in Hk by lia. destruct Hturn as (t & p' & Ht & Hc & Hp).
    rewrite Hk in Ht. injection Ht as <-. exists (Datatypes.S m), p'. split_and!; [lia|done|done]. }
  destruct (IH b m' Hi') as (m2 & a & ? & ?). exists m2, a. split; [lia|done].
Qed.

(** One request served alone, access by access: an execution, and a fair one. *)
Definition advance_solo (c : S * list (Task (Req:=Req) (A:=A))) : S * list (Task (Req:=Req) (A:=A)) :=
  match c.2 with
  | [t] => match t_prog t with
           | Done _ => c
           | Act B _ f k => let '(b, s) := f c.1 in (s, [mkTask (t_req t) (t_start t) (k b)])
           end
  | _ => c
  end.

Fixpoint solo (q : Req) (s0 : S) (n : nat) : S * list (Task (Req:=Req) (A:=A)) :=
  match n with
  | 0 => (s0, [])
  | Datatypes.S 0 => (s0, [mkTask q s0 (prog_of q)])
  | Datatypes.S n => advance_solo (solo q s0 n)
  end.

Lemma solo_task q s0 n :
  ∃ s p, solo q s0 (Datatypes.S n) = (s, [mkTask q s0 p]) ∧ exec p s = exec (prog_of q) s0.
Proof.
  induction n as [|n (s & p & IH & Ee)]; [by exists s0, (prog_of q)|].
  change (solo q s0 (Datatypes.S (Datatypes.S n))) with (advance_solo (solo q s0 (Datatypes.S n))).
  rewrite IH. unfold advance_solo. cbn [snd fst t_prog t_req t_start].
  destruct p as [a|B d f k]; [by exists s, (Done a)|]. cbn [exec] in Ee.
  destruct (f s) as [b s']. by exists s', (k b).
Qed.

(** It ends with the value of the run alone, and is never dropped. *)
Lemma solo_value q s0 n i q' st a :
  (solo q s0 n).2 !! i = Some (mkTask q' st (Done a)) → a = (exec (prog_of q) s0).1.
Proof.
  destruct n as [|n]; [done|]. destruct (solo_task q s0 n) as (s & p & -> & Ee). cbn [snd].
  destruct i as [|i]; [|done]. intros [= <- <- ->]. by rewrite <- Ee.
Qed.

Lemma solo_execution q s0 : execution (solo q s0) s0.
Proof.
  split; [done|]. intros [|n]; [left; apply (pool_spawn prog_of dropped Env s0 [] q)|].
  change (solo q s0 (Datatypes.S (Datatypes.S n))) with (advance_solo (solo q s0 (Datatypes.S n))).
  destruct (solo_task q s0 n) as (s & p & -> & _). unfold advance_solo. cbn [snd fst t_prog t_req t_start].
  destruct p as [a|B d f k]; [by right|left].
  pose proof (pool_run prog_of dropped Env s [mkTask q s0 (Act B d f k)] 0 q s0 B d f k eq_refl) as H.
  by destruct (f s) as [b s'].
Qed.

Lemma solo_fair q s0 i : fair i (solo q s0).
Proof.
  intros [|n] t Hi Hn; [done|]. exists (Datatypes.S n). split; [done|].
  change (solo q s0 (Datatypes.S (Datatypes.S n))) with (advance_solo (solo q s0 (Datatypes.S n))).
  destruct (solo_task q s0 n) as (s & p & E & _). rewrite E in Hi |- *.
  destruct i as [|i]; [|done]. injection Hi as <-.
  destruct p as [a|B d f k]; [destruct Hn; by exists a|]. unfold advance_solo.
  cbn [snd fst t_prog t_req t_start]. exists (mkTask q s0 (Act B d f k)), (k (f s).1).
  destruct (f s) as [b s']. split_and!; [done|by exists b|done].
Qed.

(** Requests served one after the other: those not yet taken up wait. *)
Definition advance_queue (c : S * list (Task (Req:=Req) (A:=A)) * list Req) :
    S * list (Task (Req:=Req) (A:=A)) * list Req :=
  let '(s, ts, wait) := c in
  match last ts, wait with
  | Some (mkTask q st (Act B _ f k)), _ => ((f s).2, <[pred (length ts) := mkTask q st (k (f s).1)]> ts, wait)
  | _, q :: wait => (s, ts ++ [mkTask q s (prog_of q)], wait)
  | _, [] => c
  end.

Fixpoint queue (qs : list Req) (s0 : S) (n : nat) : S * list (Task (Req:=Req) (A:=A)) * list Req :=
  match n with
  | 0 => (s0, [], qs)
  | Datatypes.S n => advance_queue (queue qs s0 n)
  end.

Definition queue_run qs s0 n : S * list (Task (Req:=Req) (A:=A)) := (queue qs s0 n).1.

Lemma queue_execution qs s0 : execution (queue_run qs s0) s0.
Proof.
  split; [done|]. intros n. unfold queue_run. cbn [queue].
  destruct (queue qs s0 n) as [[s ts] wait]. cbn [advance_queue fst].
  destruct (last ts) as [[q st [a|B d f k]]|] eqn:El.
  - destruct wait as [|q' wait]; [by right|left; apply pool_spawn].
  - left. rewrite last_lookup in El. by eapply pool_run.
  - destruct wait as [|q' wait]; [by right|left; apply pool_spawn].
Qed.

(** Only the last is unfinished. *)
Lemma queue_last qs s0 n i t :
  (queue_run qs s0 n).2 !! i = Some t → ¬ finished t → i = pred (length (queue_run qs s0 n).2).
Proof.
  unfold queue_run. revert i t. induction n as [|n IH]; intros i t Hi Hn; [done|]. revert Hi. cbn [queue].
  destruct (queue qs s0 n) as [[s ts] wait]. cbn [advance_queue fst snd] in *.
  assert (∀ q, (∀ t', last ts = Some t' → finished t') → (ts ++ [mkTask q s (prog_of q)]) !! i = Some t →
    i = pred (length (ts ++ [mkTask q s (prog_of q)]))) as Hnew.
  { intros q Hfin [Hi|[Hle Hi]]%lookup_app_Some.
    - pose proof (IH i t Hi Hn) as ->. exfalso. apply Hn, Hfin. by rewrite last_lookup.
    - apply lookup_lt_Some in Hi. rewrite length_app. cbn [length] in *. lia. }
  destruct (last ts) as [[q st [a|B d f k]]|] eqn:El.
  - destruct wait as [|q' wait]; cbn [fst snd]; [intros Hi; by eapply IH|].
    apply Hnew. intros t' [= <-]. by exists a.
  - cbn [fst snd]. intros Hi. rewrite length_insert.
    destruct (decide (i = pred (length ts))) as [->|Hne]; [done|]. rewrite list_lookup_insert_ne in Hi by done.
    by destruct Hne; eapply IH.
  - destruct wait as [|q' wait]; cbn [fst snd]; [intros Hi; by eapply IH|by apply Hnew].
Qed.

Lemma queue_fair qs s0 i : fair i (queue_run qs s0).
Proof.
  intros n t Hi Hn. exists n. split; [done|]. pose proof (queue_last qs s0 n i t Hi Hn) as Ei.
  revert Hi Ei. unfold queue_run. cbn [queue]. destruct (queue qs s0 n) as [[s ts] wait]. cbn [advance_queue fst snd].
  intros Hi ->. rewrite last_lookup, Hi. destruct t as [q st [a|B d f k]]; [by destruct Hn; exists a|].
  cbn [fst snd]. eexists _, _. split_and!; [exact Hi|by eexists|].
  apply list_lookup_insert_eq. by eapply lookup_lt_Some.
Qed.

(** When none waits and all are finished, nothing happens any more. *)
Lemma queue_stops qs s0 n d :
  (queue qs s0 n).2 = [] → Forall finished (queue_run qs s0 n).2 → queue_run qs s0 (n + d) = queue_run qs s0 n.
Proof.
  unfold queue_run. intros Ew Hf. assert (queue qs s0 (n + d) = queue qs s0 n) as E; [|by rewrite E].
  induction d as [|d IH]; [by rewrite Nat.add_0_r|]. rewrite Nat.add_succ_r. cbn [queue].
  rewrite IH. destruct (queue qs s0 n) as [[s ts] wait]. cbn [fst snd] in *. subst wait.
  unfold advance_queue. destruct (last ts) as [[q st p]|] eqn:El; [|done].
  apply last_Some_elem_of in El. rewrite Forall_forall in Hf. by destruct (Hf _ El) as [a [= ->]].
Qed.
End fair.

(** Programs that do the same take the pool through the same states. *)
Lemma pool_same {Req A} (prog_of prog_of' : Req → Prog A) (dropped : A) (Env : S → S → Prop) s0 s ts :
  (∀ q, same (λ _, True) (prog_of q) (prog_of' q)) → pool_reach prog_of dropped Env s0 s ts →
  ∃ ts', pool_reach prog_of' dropped Env s0 s ts' ∧
    Forall2 (λ t t', t_req t = t_req t' ∧ t_start t = t_start t' ∧
                     same (λ _, True) (t_prog t) (t_prog t')) ts ts'.
Proof.
  intros Hq. unfold pool_reach.
  set (P := λ c : S * list (Task (Req:=Req) (A:=A)), ∃ ts',
    rtc (pool_step prog_of' dropped Env) (s0, []) (c.1, ts') ∧
    Forall2 (λ t t', t_req t = t_req t' ∧ t_start t = t_start t' ∧
                     same (λ _, True) (t_prog t) (t_prog t')) c.2 ts').
  apply (rtc_ind_r P (s0, [])); [by exists []|].
  intros [s1 ts1] c2 _ Hst (ts' & Hr & Hts). unfold P in *. clear P s ts. cbn [fst snd] in *.
  inversion Hst as [? ? q|? ? i q st B d f k Hi|? ? i q st B d f k Hi|? s2 ? He]; subst; cbn [fst snd].
  - exists (ts' ++ [mkTask q s1 (prog_of' q)]). split; [eapply rtc_r; [exact Hr|constructor]|].
    apply Forall2_app; [done|]. constructor; [|done]. cbn [t_req t_start t_prog]. auto.
  - destruct (Forall2_lookup_l _ _ _ _ _ Hts Hi) as ([q' st' p'] & Hi' & E1 & E2 & Hp).
    cbn [t_req t_start t_prog] in *. subst q' st'.
    apply same_inv in Hp as (d' & f' & k' & -> & _ & Hf & Hk).
    exists (<[i := mkTask q st (k' (f s1).1)]> ts'). split.
    + eapply rtc_r; [exact Hr|]. rewrite (Hf s1). by eapply pool_run.
    + apply Forall2_insert; [done|]. cbn [t_req t_start t_prog]. auto.
  - destruct (Forall2_lookup_l _ _ _ _ _ Hts Hi) as ([q' st' p'] & Hi' & E1 & E2 & Hp).
    cbn [t_req t_start t_prog] in *. subst q' st'.
    apply same_inv in Hp as ([d'|] & f' & k' & -> & Hd & Hf & Hk); [|done].
    exists (<[i := mkTask q st (Done dropped)]> ts'). split.
    + eapply rtc_r; [exact Hr|]. rewrite (Hd s1). by eapply pool_drop.
    + apply Forall2_insert; [done|]. cbn [t_req t_start t_prog]. split_and!; [done..|by constructor].
  - exists ts'. split; [|done]. eapply rtc_r; [exact Hr|]. by constructor.
Qed.
End prog.
Arguments Prog : clear implicits.
Arguments Done {S A}.
Arguments Act {S A}.
Arguments mkTask {S Req A}.
Arguments t_req {S Req A}.
Arguments t_start {S Req A}.
Arguments t_prog {S Req A}.
