(* ===== verification/Bytes.v ===== *)
(** Byte strings: the order on keys, prefix tests, searching and splitting.

    The operations of Rust's [str] that the gateway uses, on the UTF-8 bytes:
    [Ord] (lexicographic on bytes), [starts_with], [find], [split('/')],
    [rfind('/')], [trim_start_matches('/')], [str_strip_prefix] and [join("/")].
    The lemmas relate the order to concatenation and prefixes, which is what
    every listing argument rests on. *)

From S2P Require Import Prelude.

(** ** Bytes *)

Definition byte_cmp (a b : ascii) : comparison :=
  N.compare (N_of_ascii a) (N_of_ascii b).

Definition byte_eqb (a b : ascii) : bool := bool_decide (a = b).

Definition slash : ascii := "/"%char.

(** ** Order *)

Fixpoint str_cmp (a b : str) : comparison :=
  match a, b with
  | [], [] => Eq
  | [], _ :: _ => Lt
  | _ :: _, [] => Gt
  | x :: a', y :: b' =>
      match byte_cmp x y with
      | Eq => str_cmp a' b'
      | c => c
      end
  end.

Definition str_lt (a b : str) : Prop := str_cmp a b = Lt.
Definition str_le (a b : str) : Prop := str_cmp a b ≠ Gt.

Notation "a ≺ b" := (str_lt a b) (at level 70) : gw_scope.
Notation "a ⪯ b" := (str_le a b) (at level 70) : gw_scope.

#[export] Instance str_lt_dec a b : Decision (a ≺ b).
Proof. unfold str_lt. solve_decision. Defined.
#[export] Instance str_le_dec a b : Decision (a ⪯ b).
Proof. unfold str_le. solve_decision. Defined.

(** ** Searching *)

Fixpoint starts_with (s p : str) {struct p} : bool :=
  match p, s with
  | [], _ => true
  | _ :: _, [] => false
  | x :: p', y :: s' => byte_eqb x y && starts_with s' p'
  end.

(** [str::find(&str)]: byte index of the first occurrence. *)
Fixpoint find_str (s d : str) : option nat :=
  if starts_with s d then Some 0
  else match s with
       | [] => None
       | _ :: s' => S <$> find_str s' d
       end.

(** [str::rfind('/')]: byte index of the last slash. *)
Fixpoint rfind_slash (s : str) : option nat :=
  match s with
  | [] => None
  | c :: s' =>
      match rfind_slash s' with
      | Some i => Some (S i)
      | None => if byte_eqb c slash then Some 0 else None
      end
  end.

Definition str_strip_prefix (s p : str) : option str :=
  if starts_with s p then Some (drop (length p) s) else None.

(** [str::ends_with(&str)]. *)
Definition ends_with (s p : str) : bool :=
  bool_decide (length p <= length s) &&
  bool_decide (drop (length s - length p) s = p).

(** [str::trim_start_matches('/')]. *)
Fixpoint trim_slashes (s : str) : str :=
  match s with
  | [] => []
  | c :: s' => if byte_eqb c slash then trim_slashes s' else s
  end.

(** [str::split('/')]: never empty; [n] slashes give [n + 1] segments. *)
Fixpoint split_slash (s : str) : list str :=
  match s with
  | [] => [[]]
  | c :: s' =>
      if byte_eqb c slash then [] :: split_slash s'
      else match split_slash s' with
           | [] => [[c]]
           | seg :: segs => (c :: seg) :: segs
           end
  end.

(** [[&str]::join("/")]. *)
Fixpoint join_slash (segs : list str) : str :=
  match segs with
  | [] => []
  | seg :: rest =>
      match rest with
      | [] => seg
      | _ :: _ => seg ++ slash :: join_slash rest
      end
  end.

(** ** UTF-8 *)

Definition in_range (lo hi : N) (c : ascii) : bool :=
  N.leb lo (N_of_ascii c) && N.leb (N_of_ascii c) hi.

Definition is_cont (c : ascii) : bool := in_range 0x80 0xBF c.

(** The second byte a three- or four-byte sequence admits, by its first. *)
Definition utf8_second_ok (b0 b1 : ascii) : bool :=
  match N_of_ascii b0 with
  | 0xE0%N => in_range 0xA0 0xBF b1
  | 0xED%N => in_range 0x80 0x9F b1
  | 0xF0%N => in_range 0x90 0xBF b1
  | 0xF4%N => in_range 0x80 0x8F b1
  | _ => is_cont b1
  end.

(** Length of the first chunk of a byte string: [(true, n)] a scalar value of
    [n] bytes, [(false, n)] a maximal invalid sequence of [n] bytes. *)
Definition utf8_next (b0 : ascii) (rest : str) : bool * nat :=
  if in_range 0 0x7F b0 then (true, 1)
  else if in_range 0xC2 0xDF b0 then
    match rest with
    | b1 :: _ => if is_cont b1 then (true, 2) else (false, 1)
    | [] => (false, 1)
    end
  else if in_range 0xE0 0xEF b0 then
    match rest with
    | b1 :: rest' =>
        if utf8_second_ok b0 b1 then
          match rest' with
          | b2 :: _ => if is_cont b2 then (true, 3) else (false, 2)
          | [] => (false, 2)
          end
        else (false, 1)
    | [] => (false, 1)
    end
  else if in_range 0xF0 0xF4 b0 then
    match rest with
    | b1 :: rest' =>
        if utf8_second_ok b0 b1 then
          match rest' with
          | b2 :: rest'' =>
              if is_cont b2 then
                match rest'' with
                | b3 :: _ => if is_cont b3 then (true, 4) else (false, 3)
                | [] => (false, 3)
                end
              else (false, 2)
          | [] => (false, 2)
          end
        else (false, 1)
    | [] => (false, 1)
    end
  else (false, 1).

(** [str::from_utf8(..).is_ok()]; the fuel is the number of bytes. *)
Fixpoint utf8_valid_fuel (fuel : nat) (s : str) : bool :=
  match s with
  | [] => true
  | b0 :: rest =>
      match fuel with
      | 0 => false
      | S fuel =>
          let '(ok, n) := utf8_next b0 rest in
          ok && utf8_valid_fuel fuel (drop n s)
      end
  end.

Definition utf8_valid (s : str) : bool := utf8_valid_fuel (length s) s.

(** U+FFFD, the replacement character. *)
Definition replacement : str :=
  [ascii_of_N 0xEF; ascii_of_N 0xBF; ascii_of_N 0xBD].

(** [OsStr::to_string_lossy]: each maximal invalid sequence becomes U+FFFD. *)
Fixpoint to_string_lossy_fuel (fuel : nat) (s : str) : str :=
  match s with
  | [] => []
  | b0 :: rest =>
      match fuel with
      | 0 => []
      | S fuel =>
          let '(ok, n) := utf8_next b0 rest in
          (if ok then take n s else replacement) ++ to_string_lossy_fuel fuel (drop n s)
      end
  end.

Definition to_string_lossy (s : str) : str := to_string_lossy_fuel (length s) s.

(** ** Trimming and case *)

(** The Unicode [White_Space] characters, as UTF-8. *)
Definition white_space : list str :=
  map (λ n, [ascii_of_N n]) [9; 10; 11; 12; 13; 32]%N.

Definition white_space_wide : list str :=
  map (map ascii_of_N)
    [[0xC2; 0x85]; [0xC2; 0xA0]; [0xE1; 0x9A; 0x80];
     [0xE2; 0x80; 0x80]; [0xE2; 0x80; 0x81]; [0xE2; 0x80; 0x82];
     [0xE2; 0x80; 0x83]; [0xE2; 0x80; 0x84]; [0xE2; 0x80; 0x85];
     [0xE2; 0x80; 0x86]; [0xE2; 0x80; 0x87]; [0xE2; 0x80; 0x88];
     [0xE2; 0x80; 0x89]; [0xE2; 0x80; 0x8A]; [0xE2; 0x80; 0xA8];
     [0xE2; 0x80; 0xA9]; [0xE2; 0x80; 0xAF]; [0xE2; 0x81; 0x9F];
     [0xE3; 0x80; 0x80]]%N.

(** [str::trim]: drop white space at both ends; the fuel is the length. *)
Fixpoint trim_start_fuel (fuel : nat) (s : str) : str :=
  match fuel with
  | 0 => s
  | S fuel =>
      match List.find (starts_with s) (white_space ++ white_space_wide) with
      | Some w => trim_start_fuel fuel (drop (length w) s)
      | None => s
      end
  end.

Fixpoint trim_end_fuel (fuel : nat) (s : str) : str :=
  match fuel with
  | 0 => s
  | S fuel =>
      match List.find (ends_with s) (white_space ++ white_space_wide) with
      | Some w => trim_end_fuel fuel (take (length s - length w) s)
      | None => s
      end
  end.

Definition trim (s : str) : str :=
  let s := trim_start_fuel (length s) s in trim_end_fuel (length s) s.

Definition to_ascii_lowercase (s : str) : str :=
  map (λ c, if in_range 65 90 c then ascii_of_N (N_of_ascii c + 32) else c) s.

(** ** Bytes: lemmas *)

Lemma N_of_ascii_inj a b : N_of_ascii a = N_of_ascii b → a = b.
Proof. intros E. by rewrite <- (ascii_N_embedding a), E, ascii_N_embedding. Qed.

Lemma byte_eqb_spec a b : byte_eqb a b = true ↔ a = b.
Proof. unfold byte_eqb. by rewrite bool_decide_eq_true. Qed.

Lemma byte_eqb_refl a : byte_eqb a a = true.
Proof. by apply byte_eqb_spec. Qed.

Lemma byte_eqb_neq a b : a ≠ b → byte_eqb a b = false.
Proof. unfold byte_eqb. intros. by rewrite bool_decide_eq_false. Qed.

#[export] Instance byte_cmp_total : TotalCmp byte_cmp.
Proof.
  split; unfold byte_cmp.
  - intros x y. rewrite N.compare_eq_iff. split; [apply N_of_ascii_inj|congruence].
  - intros x y. apply N.compare_antisym.
  - intros x y z. rewrite !N.compare_lt_iff. lia.
Qed.

Lemma byte_cmp_refl x : byte_cmp x x = Eq.
Proof. by apply cmp_eq_iff. Qed.

(** ** Order: lemmas *)

Lemma str_cmp_cons x a y b :
  str_cmp (x :: a) (y :: b) =
  match byte_cmp x y with Eq => str_cmp a b | c => c end.
Proof. done. Qed.

#[export] Instance str_cmp_total : TotalCmp str_cmp.
Proof.
  split.
  - induction x as [|c x IH]; intros [|d y]; try done.
    rewrite str_cmp_cons. split.
    + destruct (byte_cmp c d) eqn:E; try done.
      apply cmp_eq_iff in E as ->. by intros ->%IH.
    + intros [= -> ->]. rewrite byte_cmp_refl. by apply IH.
  - induction x as [|c x IH]; intros [|d y]; try done.
    rewrite !str_cmp_cons, (cmp_antisym (cmp:=byte_cmp) c d), IH. by destruct (byte_cmp c d).
  - induction x as [|c x IH]; intros [|d y] [|e z]; try done.
    rewrite !str_cmp_cons.
    destruct (byte_cmp c d) eqn:E1; [apply cmp_eq_iff in E1 as ->| |done].
    + destruct (byte_cmp d e) eqn:E2; [apply cmp_eq_iff in E2 as ->|done|done].
      apply IH.
    + intros _. destruct (byte_cmp d e) eqn:E2; [apply cmp_eq_iff in E2 as ->| |done].
      * by rewrite E1.
      * intros _. by rewrite (cmp_lt_trans _ _ _ E1 E2).
Qed.

Lemma str_cmp_refl a : str_cmp a a = Eq.
Proof. by apply cmp_eq_iff. Qed.

Lemma str_cmp_gt_lt a b : str_cmp a b = Gt ↔ b ≺ a.
Proof. unfold str_lt. rewrite (cmp_antisym (cmp:=str_cmp) a b). by destruct (str_cmp a b). Qed.

#[export] Instance str_lt_strict : StrictOrder str_lt.
Proof.
  split.
  - intros a. unfold str_lt, complement. by rewrite str_cmp_refl.
  - intros a b c. apply cmp_lt_trans.
Qed.

Lemma str_le_lt_eq a b : a ⪯ b ↔ a = b ∨ a ≺ b.
Proof.
  unfold str_le, str_lt. rewrite <- (cmp_eq_iff (cmp:=str_cmp)).
  destruct (str_cmp a b); intuition congruence.
Qed.

Lemma str_lt_le a b : a ≺ b → a ⪯ b.
Proof. rewrite str_le_lt_eq. auto. Qed.

Lemma str_le_not_lt a b : a ⪯ b ↔ ¬ b ≺ a.
Proof. unfold str_le. by rewrite str_cmp_gt_lt. Qed.

Lemma str_lt_not_le a b : a ≺ b ↔ ¬ b ⪯ a.
Proof. rewrite str_le_not_lt. destruct (decide (a ≺ b)); naive_solver. Qed.

Lemma str_le_lt_trans a b c : a ⪯ b → b ≺ c → a ≺ c.
Proof. rewrite str_le_lt_eq. intros [->|H] ?; [done|]. by etrans. Qed.

Lemma str_lt_le_trans a b c : a ≺ b → b ⪯ c → a ≺ c.
Proof. rewrite str_le_lt_eq. intros ? [<-|H]; [done|]. by etrans. Qed.

#[export] Instance str_le_preorder : PreOrder str_le.
Proof.
  split.
  - intros a. rewrite str_le_lt_eq. auto.
  - intros a b c Hab Hbc. apply str_le_lt_eq in Hab as [->|Hab]; [done|].
    apply str_lt_le. by eapply str_lt_le_trans.
Qed.

Lemma str_lt_total a b : a ≺ b ∨ a = b ∨ b ≺ a.
Proof.
  destruct (str_cmp a b) eqn:E; [apply cmp_eq_iff in E| |apply str_cmp_gt_lt in E]; auto.
Qed.

Lemma str_lt_irrefl a : ¬ a ≺ a.
Proof. apply (irreflexivity str_lt). Qed.

Lemma str_lt_neq a b : a ≺ b → a ≠ b.
Proof. intros H ->. by apply str_lt_irrefl in H. Qed.
#[export] Hint Resolve str_lt_le : gw.

(** The order sees past a common prefix. *)
Lemma str_cmp_app p a b : str_cmp (p ++ a) (p ++ b) = str_cmp a b.
Proof. induction p as [|c p IH]; [done|]. simpl. by rewrite byte_cmp_refl. Qed.

Lemma str_lt_app p a b : p ++ a ≺ p ++ b ↔ a ≺ b.
Proof. unfold str_lt. by rewrite str_cmp_app. Qed.

Lemma str_le_app p a b : p ++ a ⪯ p ++ b ↔ a ⪯ b.
Proof. unfold str_le. by rewrite str_cmp_app. Qed.

Lemma str_nil_le a : [] ⪯ a.
Proof. by destruct a. Qed.

Lemma str_prefix_le p a : p ⪯ p ++ a.
Proof. rewrite <- (app_nil_r p) at 1. apply str_le_app, str_nil_le. Qed.

Lemma str_prefix_lt p a : a ≠ [] → p ≺ p ++ a.
Proof. intros Ha. rewrite <- (app_nil_r p) at 1. apply str_lt_app. by destruct a. Qed.

(** Two strings that differ at a byte keep their order under any extension. *)
Lemma str_cmp_diverge p x y a b :
  x ≠ y → str_cmp (p ++ x :: a) (p ++ y :: b) = byte_cmp x y.
Proof.
  intros Hne. rewrite str_cmp_app, str_cmp_cons.
  destruct (byte_cmp x y) eqn:E; [|done..]. apply cmp_eq_iff in E. done.
Qed.

(** Comparison cut at the common length, the form the allocation-free
    comparators are written in. *)
Lemma str_cmp_take a b (n := min (length a) (length b)) :
  str_cmp a b =
  match str_cmp (take n a) (take n b) with
  | Eq => Nat.compare (length a) (length b)
  | c => c
  end.
Proof.
  subst n. revert b. induction a as [|x a IH]; intros [|y b]; [done..|].
  cbn [length Nat.min take]. rewrite !str_cmp_cons.
  destruct (byte_cmp x y); [|done..]. rewrite IH. done.
Qed.

(** ** Prefixes *)

Lemma starts_with_spec s p : starts_with s p = true ↔ ∃ r, s = p ++ r.
Proof.
  revert s. induction p as [|x p IH]; intros s; simpl.
  { split; [by exists s|done]. }
  destruct s as [|y s]; [split; [done|by intros [r [=]]]|].
  rewrite andb_true_iff, byte_eqb_spec, IH.
  split; [intros [-> [r ->]]; by exists r|intros [r [= -> ->]]; eauto].
Qed.

Lemma starts_with_app p r : starts_with (p ++ r) p = true.
Proof. apply starts_with_spec. by exists r. Qed.

Lemma starts_with_nil s : starts_with s [] = true.
Proof. by destruct s. Qed.

Lemma starts_with_le s p : starts_with s p = true → p ⪯ s.
Proof. intros [r ->]%starts_with_spec. apply str_prefix_le. Qed.

(** The strings with a given prefix form an interval. *)
Lemma starts_with_between s t u p :
  starts_with s p = true → starts_with u p = true → s ⪯ t → t ⪯ u →
  starts_with t p = true.
Proof.
  intros [s' ->]%starts_with_spec [u' ->]%starts_with_spec.
  revert t. induction p as [|x p IH]; intros t Hst Htu; [apply starts_with_nil|].
  destruct t as [|y t]; [done|]. simpl in *.
  unfold str_le in Hst, Htu. rewrite str_cmp_cons in Hst, Htu.
  destruct (byte_cmp x y) eqn:E; [| |done].
  - apply cmp_eq_iff in E as ->. rewrite byte_cmp_refl in Htu.
    rewrite byte_eqb_refl. by apply IH.
  - rewrite (cmp_antisym (cmp:=byte_cmp) x y), E in Htu. done.
Qed.

(** Past the prefix's interval nothing matches it any more. *)
Lemma starts_with_past s t p :
  starts_with s p = false → p ⪯ s → s ⪯ t → starts_with t p = false.
Proof.
  intros Hs Hps Hst. destruct (starts_with t p) eqn:Ht; [|done].
  rewrite <- Hs. symmetry.
  eapply starts_with_between; [|exact Ht|exact Hps|exact Hst].
  rewrite <- (app_nil_r p) at 1. apply starts_with_app.
Qed.

Lemma strip_prefix_spec s p r : str_strip_prefix s p = Some r ↔ s = p ++ r.
Proof.
  unfold str_strip_prefix. split.
  - destruct (starts_with s p) eqn:E; [|done].
    apply starts_with_spec in E as [r' ->]. intros [= <-]. by rewrite drop_app_length.
  - intros ->. by rewrite starts_with_app, drop_app_length.
Qed.

(** ** Searching *)

Lemma find_str_some s d i :
  find_str s d = Some i →
  i + length d <= length s ∧ ∃ r, drop i s = d ++ r.
Proof.
  revert i. induction s as [|c s IH]; intros i; cbn [find_str].
  - destruct (starts_with [] d) eqn:E; [|done]. intros [= <-].
    apply starts_with_spec in E as [r E]. rewrite E.
    split; [rewrite length_app; lia|by exists r].
  - destruct (starts_with (c :: s) d) eqn:E.
    + intros [= <-]. apply starts_with_spec in E as [r E]. rewrite E.
      split; [rewrite length_app; lia|by exists r].
    + intros (j & Hj & ->)%fmap_Some. destruct (IH j Hj) as [Hlen Hr].
      split; [simpl; lia|done].
Qed.

(** No occurrence of the pattern starts before the index returned. *)
Lemma find_str_first s d i j :
  find_str s d = Some i → j < i → starts_with (drop j s) d = false.
Proof.
  revert i j. induction s as [|c s IH]; intros i j; cbn [find_str].
  - destruct (starts_with [] d); [|done]. intros [= <-]. lia.
  - destruct (starts_with (c :: s) d) eqn:E; [intros [= <-]; lia|].
    intros (k & Hk & ->)%fmap_Some Hj. destruct j as [|j]; [done|].
    apply (IH k); [done|lia].
Qed.

Lemma find_str_none s d j : find_str s d = None → starts_with (drop j s) d = false.
Proof.
  revert j. induction s as [|c s IH]; intros j; cbn [find_str].
  - destruct (starts_with [] d) eqn:E; [done|]. by rewrite drop_nil.
  - destruct (starts_with (c :: s) d) eqn:E; [done|].
    intros Hn%fmap_None. destruct j as [|j]; [done|]. by apply IH.
Qed.

(** Searching for one byte. *)
Lemma find_byte_none c s : find_str s [c] = None ↔ c ∉ s.
Proof.
  induction s as [|d s IH]; cbn [find_str].
  { split; [intros _; apply not_elem_of_nil|done]. }
  cbn [starts_with]. rewrite andb_true_r, not_elem_of_cons.
  destruct (byte_eqb c d) eqn:E.
  - apply byte_eqb_spec in E. split; [done|]. by intros [? _].
  - rewrite fmap_None, IH. split; [|by intros []]. intros ?. split; [|done].
    intros Heq. by rewrite <- Heq, byte_eqb_refl in E.
Qed.

Lemma find_byte_app c a b : c ∉ a → find_str (a ++ c :: b) [c] = Some (length a).
Proof.
  induction a as [|d a IH]; cbn [find_str app].
  { intros _. cbn [starts_with]. by rewrite byte_eqb_refl. }
  intros [Hne Ha]%not_elem_of_cons. cbn [starts_with].
  rewrite byte_eqb_neq by done. simpl. by rewrite IH.
Qed.

Lemma find_byte_some c s i :
  find_str s [c] = Some i → ∃ a b, s = a ++ c :: b ∧ (c ∉ a) ∧ i = length a.
Proof.
  intros Hi. destruct (decide (c ∈ s)) as [Hin|Hin].
  - apply list_elem_of_split_l in Hin as (a & b & -> & Ha).
    rewrite find_byte_app in Hi by done. injection Hi as <-. by exists a, b.
  - apply find_byte_none in Hin. congruence.
Qed.

Lemma rfind_slash_some s i :
  rfind_slash s = Some i →
  ∃ a b, s = a ++ slash :: b ∧ (slash ∉ b) ∧ i = length a.
Proof.
  revert i. induction s as [|c s IH]; intros i; simpl; [done|].
  destruct (rfind_slash s) as [j|] eqn:E.
  - intros [= <-]. destruct (IH j eq_refl) as (a & b & -> & Hb & ->).
    by exists (c :: a), b.
  - destruct (byte_eqb c slash) eqn:Ec; [|done]. apply byte_eqb_spec in Ec as ->.
    intros [= <-]. exists [], s. split_and!; [done| |done].
    clear IH. revert E. induction s as [|d s IH]; [intros _; apply not_elem_of_nil|].
    simpl. destruct (rfind_slash s); [done|]. destruct (byte_eqb d slash) eqn:Ed; [done|].
    intros _. apply not_elem_of_cons. split; [|by apply IH].
    intros <-. by rewrite byte_eqb_refl in Ed.
Qed.

Lemma rfind_slash_none s : rfind_slash s = None ↔ slash ∉ s.
Proof.
  induction s as [|c s IH]; simpl; [split; [intros _; apply not_elem_of_nil|done]|].
  rewrite not_elem_of_cons. destruct (rfind_slash s) as [j|].
  { split; [done|]. intros [_ Hs%IH]. done. }
  destruct (byte_eqb c slash) eqn:Ec.
  - apply byte_eqb_spec in Ec as ->. split; [done|]. by intros [? _].
  - split; [|done]. intros _. split; [|by apply IH].
    intros <-. by rewrite byte_eqb_refl in Ec.
Qed.

Lemma rfind_slash_app a b : slash ∉ b → rfind_slash (a ++ slash :: b) = Some (length a).
Proof.
  intros Hb. induction a as [|c a IH]; simpl.
  - by apply rfind_slash_none in Hb as ->.
  - by rewrite IH.
Qed.

Lemma ends_with_spec s p : ends_with s p = true ↔ ∃ r, s = r ++ p.
Proof.
  unfold ends_with. rewrite andb_true_iff, !bool_decide_eq_true. split.
  - intros [Hle Hd]. exists (take (length s - length p) s).
    rewrite <- Hd at 2. by rewrite take_drop.
  - intros [r ->]. rewrite length_app. split; [lia|].
    replace (length r + length p - length p) with (length r) by lia.
    by rewrite drop_app_length.
Qed.

(** ** Leading slashes *)

Lemma trim_slashes_spec s :
  ∃ n, s = replicate n slash ++ trim_slashes s ∧ head (trim_slashes s) ≠ Some slash.
Proof.
  induction s as [|c s (n & IH1 & IH2)]; simpl; [by exists 0|].
  destruct (byte_eqb c slash) eqn:E.
  - apply byte_eqb_spec in E as ->. exists (S n). simpl. by rewrite <- IH1.
  - exists 0. split; [done|]. simpl. intros [= ->]. by rewrite byte_eqb_refl in E.
Qed.

Lemma trim_slashes_id s : head s ≠ Some slash → trim_slashes s = s.
Proof.
  destruct s as [|c s]; [done|]. simpl. intros H. rewrite byte_eqb_neq; [done|].
  congruence.
Qed.

(** ** Splitting and joining *)

Lemma split_slash_no_slash s : slash ∉ s → split_slash s = [s].
Proof.
  induction s as [|c s IH]; simpl; [done|]. intros [Hc Hs]%not_elem_of_cons.
  rewrite byte_eqb_neq by congruence. by rewrite IH.
Qed.

Lemma split_slash_nonempty s : split_slash s ≠ [].
Proof.
  destruct s as [|c s]; simpl; [done|]. destruct (byte_eqb c slash); [done|].
  by destruct (split_slash s).
Qed.

Lemma split_slash_app a b :
  split_slash (a ++ slash :: b) = split_slash a ++ split_slash b.
Proof.
  induction a as [|c a IH]; simpl; [done|].
  rewrite IH. destruct (byte_eqb c slash); [done|].
  destruct (split_slash a) eqn:E; [|done].
  by apply split_slash_nonempty in E.
Qed.

Lemma split_slash_Forall s : Forall (λ seg, slash ∉ seg) (split_slash s).
Proof.
  induction s as [|c s IH]; simpl.
  { constructor; [apply not_elem_of_nil|done]. }
  destruct (byte_eqb c slash) eqn:E.
  - constructor; [apply not_elem_of_nil|done].
  - destruct IH as [|seg segs Hseg Hsegs].
    + constructor; [|done]. apply not_elem_of_cons. split; [|apply not_elem_of_nil].
      intros <-. by rewrite byte_eqb_refl in E.
    + constructor; [|done]. apply not_elem_of_cons. split; [|done].
      intros <-. by rewrite byte_eqb_refl in E.
Qed.

Lemma join_slash_cons seg segs :
  segs ≠ [] → join_slash (seg :: segs) = seg ++ slash :: join_slash segs.
Proof. by destruct segs. Qed.

Lemma join_slash_app l1 l2 :
  l1 ≠ [] → l2 ≠ [] →
  join_slash (l1 ++ l2) = join_slash l1 ++ slash :: join_slash l2.
Proof.
  intros H1 H2. induction l1 as [|a l1 IH]; [done|].
  destruct l1 as [|b l1]; [by rewrite <- app_comm_cons, join_slash_cons|].
  rewrite <- app_comm_cons, join_slash_cons, IH by done.
  rewrite (join_slash_cons a (b :: l1)) by done. by rewrite <- app_assoc.
Qed.

Lemma split_join segs :
  segs ≠ [] → Forall (λ seg, slash ∉ seg) segs → split_slash (join_slash segs) = segs.
Proof.
  intros Hne HF. induction HF as [|seg segs Hseg HF IH]; [done|].
  destruct segs as [|s2 segs].
  - simpl. by apply split_slash_no_slash.
  - rewrite join_slash_cons by done. rewrite split_slash_app, IH by done.
    by rewrite split_slash_no_slash.
Qed.

Lemma join_split s : join_slash (split_slash s) = s.
Proof.
  induction s as [|c s IH]; simpl; [done|].
  destruct (byte_eqb c slash) eqn:E.
  - apply byte_eqb_spec in E as ->.
    rewrite join_slash_cons by apply split_slash_nonempty. by rewrite IH.
  - destruct (split_slash s) as [|seg segs] eqn:Es.
    { by apply split_slash_nonempty in Es. }
    destruct segs; simpl in *; by rewrite <- IH.
Qed.

(** ** Sorting by a key *)

Section by_key.
Context {A : Type} (f : A → str).
Implicit Types (l : list A).

Definition key_lt (x y : A) : Prop := f x ≺ f y.
Definition key_cmp (x y : A) : comparison := str_cmp (f x) (f y).

#[export] Instance key_lt_strict : StrictOrder key_lt.
Proof.
  split.
  - intros x H. by apply str_lt_irrefl in H.
  - intros x y z H1 H2. unfold key_lt in *. by etrans.
Qed.

Lemma sort_by_key_sorted l : StronglySorted (λ x y, f x ⪯ f y) (sort_by key_cmp l).
Proof using Type.
  apply sort_by_sorted; unfold key_cmp.
  - intros x y. rewrite str_cmp_gt_lt. intros H E%str_cmp_gt_lt.
    apply (str_lt_irrefl (f x)). by etrans.
  - intros x y z H1 H2. change (f x ⪯ f z). by etrans.
Qed.

(** Distinct keys make the order strict. *)
Lemma sorted_nodup_strict l :
  StronglySorted (λ x y, f x ⪯ f y) l → NoDup (f <$> l) → StronglySorted key_lt l.
Proof using Type.
  induction 1 as [|x l Hs IH Hx]; [constructor|]. cbn [fmap list_fmap].
  intros [Hn Hd]%NoDup_cons. constructor; [auto|].
  rewrite Forall_forall in Hx |- *. intros y Hy. specialize (Hx y Hy).
  apply str_le_lt_eq in Hx as [E|?]; [|done]. destruct Hn.
  apply list_elem_of_fmap. by exists y.
Qed.

Lemma sort_by_key_strict l :
  NoDup (f <$> l) → StronglySorted key_lt (sort_by key_cmp l).
Proof using Type.
  intros Hd. apply sorted_nodup_strict; [apply sort_by_key_sorted|].
  rewrite (sort_by_perm key_cmp l). done.
Qed.

Lemma sort_by_key_id l : StronglySorted key_lt l → sort_by key_cmp l = l.
Proof using Type.
  intros Hs. apply sort_by_id. eapply StronglySorted_weaken; [|exact Hs].
  intros x y H. by apply str_lt_le in H.
Qed.

(** A strictly sorted permutation is the sort. *)
Lemma sort_by_key_unique l l' :
  StronglySorted key_lt l' → l' ≡ₚ l → sort_by key_cmp l = l'.
Proof using Type.
  intros Hs Hp. apply (strict_sorted_ext key_lt); [|done|].
  - apply sort_by_key_strict. rewrite <- Hp.
    apply (strict_sorted_NoDup str_lt), (StronglySorted_map f str_lt). done.
  - intros x. by rewrite (sort_by_perm key_cmp l), Hp.
Qed.

Lemma key_lt_map l : StronglySorted key_lt l ↔ StronglySorted str_lt (f <$> l).
Proof using Type. symmetry. apply (StronglySorted_map f str_lt l). Qed.
End by_key.

#[export] Hint Resolve StronglySorted_bfilter : gw.

Lemma str_cmp_sort_dedup l : StronglySorted str_lt (dedup (sort_by str_cmp l)).
Proof.
  apply dedup_strict; [apply str_lt_strict|]. eapply StronglySorted_weaken; [|apply (sort_by_key_sorted id)].
  intros x y H. by apply str_le_lt_eq in H.
Qed.

(** The strings after a bound, in a sorted list, are a suffix of it. *)
Lemma bfilter_after_split {A} (f : A → str) l1 x l2 :
  StronglySorted (key_lt f) (l1 ++ x :: l2) →
  List.filter (λ y, match str_cmp (f y) (f x) with Gt => true | _ => false end) (l1 ++ x :: l2) = l2.
Proof.
  intros Hs. rewrite bfilter_app, bfilter_cons, str_cmp_refl.
  rewrite bfilter_none.
  2: { apply Forall_forall. intros y Hy.
       assert (f y ≺ f x) as Hlt.
       { apply (StronglySorted_app_1_elem_of (key_lt f) l1 (x :: l2)); [done|done|].
         apply elem_of_cons. by left. }
       unfold str_lt in Hlt. by rewrite Hlt. }
  cbn [app]. apply bfilter_all, Forall_forall. intros y Hy.
  apply StronglySorted_app_1_r in Hs. inversion Hs as [|? ? _ HF]; subst.
  rewrite Forall_forall in HF. specialize (HF y Hy).
  destruct (str_cmp (f y) (f x)) eqn:E; [| |done]; exfalso.
  - apply cmp_eq_iff in E. apply (str_lt_irrefl (f x)). unfold key_lt in HF. by rewrite E in HF.
  - apply (str_lt_irrefl (f x)). by trans (f y).
Qed.
