(* ===== verification/Config.v ===== *)
(** Configuration: the types of [src/config/mod.rs], loading and validation.

    The file system, the TOML parser, the process environment and the bucket
    name test of [s3s] are parameters; the [Deserialize] implementation that
    the [serde] attributes of [Config] and [CacheConfig] describe is
    [config_of_toml]. *)

From stdpp Require Export gmap.
From S2P Require Import Prelude Bytes.

(** ** Types *)

Record CacheConfig := mkCacheConfig {
  enabled : bool;
  metadata_ttl_ms : N;
  blocks_ttl_ms : N;
  listing_ttl_ms : N;
  negative_ttl_ms : N;
  metadata_capacity : N;
  blocks_capacity : N;
  listing_capacity_entries : N;
  listing_max_dir_entries : N;
}.

(** [impl Default for CacheConfig]. *)
Definition default_cache_config : CacheConfig := {|
  enabled := false;
  metadata_ttl_ms := 1000;
  blocks_ttl_ms := 10000;
  listing_ttl_ms := 5000;
  negative_ttl_ms := 1000;
  metadata_capacity := 100000;
  blocks_capacity := 512;
  listing_capacity_entries := 200000;
  listing_max_dir_entries := 50000;
|}.

Record Config := mkConfig {
  namenode_uri : str;
  hdfs_root : str;
  bucket_name : str;
  listen_addr : str;
  max_concurrent_requests : N;
  expose_upstream_errors : bool;
  hdfs_options : gmap str str;
  hdfs_config_dir : option str;
  hdfs_user : option str;
  cache : CacheConfig;
  auth_secret : option str;
}.

Record CliArgs := mkCliArgs {
  arg_config : option str;
  arg_listen_addr : option str;
  arg_namenode_uri : option str;
  arg_hdfs_root : option str;
  arg_bucket_name : option str;
  arg_auth_secret : option str;
  arg_hdfs_user : option str;
  arg_hdfs_config_dir : option str;
  arg_hdfs_options : option (list (str * str));
  arg_no_cache : bool;
  arg_cache : bool;
}.

(** The texts of [ConfigError::Invalid], by their format string's arguments. *)
Inductive InvalidValue :=
| BadEnvBool (name value : str)
| ZeroMaxConcurrent
| ZeroListingCapacity
| BadBucketName (name : str).

Inductive ConfigError (IoError TomlError : Type) :=
| ReadFile (path : str) (e : IoError)
| ParseToml (e : TomlError)
| Missing (field : str)
| Invalid (why : InvalidValue).
Arguments ReadFile {IoError TomlError} path e.
Arguments ParseToml {IoError TomlError} e.
Arguments Missing {IoError TomlError} field.
Arguments Invalid {IoError TomlError} why.

Definition default_listen_addr : str := $"0.0.0.0:8080".
Definition default_max_concurrent_requests : N := 2048.

(** [impl Default for Config]. *)
Definition default_config : Config := {|
  namenode_uri := $"hdfs://localhost:8020";
  hdfs_root := $"/";
  bucket_name := $"hdfs";
  listen_addr := default_listen_addr;
  max_concurrent_requests := default_max_concurrent_requests;
  expose_upstream_errors := true;
  hdfs_options := ∅;
  hdfs_config_dir := None;
  hdfs_user := None;
  cache := default_cache_config;
  auth_secret := None;
|}.

(** What the TOML parser hands to the derived [Deserialize]: the keys present. *)
Record TomlCache := mkTomlCache {
  t_enabled : option bool;
  t_metadata_ttl_ms : option N;
  t_blocks_ttl_ms : option N;
  t_listing_ttl_ms : option N;
  t_negative_ttl_ms : option N;
  t_metadata_capacity : option N;
  t_blocks_capacity : option N;
  t_listing_capacity_entries : option N;
  t_listing_max_dir_entries : option N;
  t_cache_unknown : option str;
}.

Record TomlConfig := mkTomlConfig {
  t_namenode_uri : option str;
  t_hdfs_root : option str;
  t_bucket_name : option str;
  t_listen_addr : option str;
  t_max_concurrent_requests : option N;
  t_expose_upstream_errors : option bool;
  t_hdfs_options : option (gmap str str);
  t_hdfs_config_dir : option str;
  t_hdfs_user : option str;
  t_cache : option TomlCache;
  t_auth_secret : option str;
  t_unknown : option str;
}.

Definition or_else {A} (o : option A) (d : A) : A :=
  match o with Some a => a | None => d end.

Section deserialize.
Context {TomlError : Type}.
(** [serde]'s errors for a required key that is absent and, under
    [deny_unknown_fields], for a key that is not a field. *)
Context (missing_field unknown_field : str → TomlError).

Definition required {A} (name : str) (o : option A) : result A TomlError :=
  match o with Some a => Ok a | None => Err (missing_field name) end.

(** [#[serde(default, deny_unknown_fields)]] on [CacheConfig]: each absent
    field is that of [CacheConfig::default()]. *)
Definition cache_of_toml (t : TomlCache) : result CacheConfig TomlError :=
  match t_cache_unknown t with
  | Some k => Err (unknown_field k)
  | None =>
      let d := default_cache_config in
      Ok {|
        enabled := or_else (t_enabled t) (enabled d);
        metadata_ttl_ms := or_else (t_metadata_ttl_ms t) (metadata_ttl_ms d);
        blocks_ttl_ms := or_else (t_blocks_ttl_ms t) (blocks_ttl_ms d);
        listing_ttl_ms := or_else (t_listing_ttl_ms t) (listing_ttl_ms d);
        negative_ttl_ms := or_else (t_negative_ttl_ms t) (negative_ttl_ms d);
        metadata_capacity := or_else (t_metadata_capacity t) (metadata_capacity d);
        blocks_capacity := or_else (t_blocks_capacity t) (blocks_capacity d);
        listing_capacity_entries :=
          or_else (t_listing_capacity_entries t) (listing_capacity_entries d);
        listing_max_dir_entries :=
          or_else (t_listing_max_dir_entries t) (listing_max_dir_entries d);
      |}
  end.

(** The attributes of [Config]: three required fields, [default] or
    [default = "..."] on the others. *)
Definition config_of_toml (t : TomlConfig) : result Config TomlError :=
  match t_unknown t with
  | Some k => Err (unknown_field k)
  | None =>
      let? cache := match t_cache t with
                    | Some c => cache_of_toml c
                    | None => Ok default_cache_config
                    end in
      let? namenode_uri := required $"namenode_uri" (t_namenode_uri t) in
      let? hdfs_root := required $"hdfs_root" (t_hdfs_root t) in
      let? bucket_name := required $"bucket_name" (t_bucket_name t) in
      Ok {|
        namenode_uri := namenode_uri;
        hdfs_root := hdfs_root;
        bucket_name := bucket_name;
        listen_addr := or_else (t_listen_addr t) default_listen_addr;
        max_concurrent_requests :=
          or_else (t_max_concurrent_requests t) default_max_concurrent_requests;
        expose_upstream_errors := or_else (t_expose_upstream_errors t) false;
        hdfs_options := or_else (t_hdfs_options t) ∅;
        hdfs_config_dir := t_hdfs_config_dir t;
        hdfs_user := t_hdfs_user t;
        cache := cache;
        auth_secret := t_auth_secret t;
      |}
  end.
End deserialize.

(** [parse_hdfs_option]: split [KEY=VALUE] at the first [=]. *)
Definition parse_hdfs_option (raw : str) : result (str * str) str :=
  match find_str raw ["="%char] with
  | Some i =>
      let key := take i raw in
      let value := drop (S i) raw in
      if negb (bool_decide (key = [])) then Ok (key, value)
      else Err $"expected KEY=VALUE, e.g. dfs.client.use.datanode.hostname=true"
  | None => Err $"expected KEY=VALUE, e.g. dfs.client.use.datanode.hostname=true"
  end.

Section load.
Context {IoError TomlError : Type}.
(** [std::fs::read_to_string]. *)
Context (read_to_string : str → result str IoError).
(** [toml::from_str]: the parser, then the derived [Deserialize]. *)
Context (toml_parse : str → result TomlConfig TomlError).
Context (missing_field unknown_field : str → TomlError).
(** [std::env::var_os]: the raw bytes of a variable that is set. *)
Context (var_os : str → option str).
(** [s3s::path::check_bucket_name]. *)
Context (check_bucket_name : str → bool).

(** [std::env::var(name).ok()]: set, and valid Unicode. *)
Definition env_var (name : str) : option str :=
  match var_os name with
  | Some v => if utf8_valid v then Some v else None
  | None => None
  end.

Definition env_bool (name : str) : result (option bool) (ConfigError IoError TomlError) :=
  match var_os name with
  | None => Ok None
  | Some raw =>
      let value := to_ascii_lowercase (trim (to_string_lossy raw)) in
      if bool_decide (value ∈ [$"1"; $"true"; $"yes"; $"on"]) then Ok (Some true)
      else if bool_decide (value ∈ [$"0"; $"false"; $"no"; $"off"]) then Ok (Some false)
      else Err (Invalid (BadEnvBool name value))
  end.

Definition from_env : option Config :=
  namenode_uri ← env_var $"HDFS_NN_URI";
  hdfs_root ← env_var $"HDFS_ROOT";
  bucket_name ← env_var $"BUCKET_NAME";
  Some {|
    namenode_uri := namenode_uri;
    hdfs_root := hdfs_root;
    bucket_name := bucket_name;
    listen_addr := default_listen_addr;
    max_concurrent_requests := default_max_concurrent_requests;
    expose_upstream_errors := true;
    hdfs_options := ∅;
    hdfs_config_dir := None;
    hdfs_user := None;
    cache := default_cache_config;
    auth_secret := None;
  |}.

Definition validate (c : Config) : result unit (ConfigError IoError TomlError) :=
  if bool_decide (namenode_uri c = []) then Err (Missing $"namenode_uri")
  else if bool_decide (hdfs_root c = []) then Err (Missing $"hdfs_root")
  else if bool_decide (bucket_name c = []) then Err (Missing $"bucket_name")
  else if N.eqb (max_concurrent_requests c) 0 then Err (Invalid ZeroMaxConcurrent)
  else if enabled (cache c) && N.ltb 0 (listing_ttl_ms (cache c))
          && N.eqb (listing_capacity_entries (cache c)) 0
  then Err (Invalid ZeroListingCapacity)
  else if negb (check_bucket_name (bucket_name c))
  then Err (Invalid (BadBucketName (bucket_name c)))
  else Ok tt.

Definition toml_from_str (text : str) : result Config TomlError :=
  let? t := toml_parse text in config_of_toml missing_field unknown_field t.

Definition set_enabled (b : bool) (c : CacheConfig) : CacheConfig := {|
  enabled := b;
  metadata_ttl_ms := metadata_ttl_ms c;
  blocks_ttl_ms := blocks_ttl_ms c;
  listing_ttl_ms := listing_ttl_ms c;
  negative_ttl_ms := negative_ttl_ms c;
  metadata_capacity := metadata_capacity c;
  blocks_capacity := blocks_capacity c;
  listing_capacity_entries := listing_capacity_entries c;
  listing_max_dir_entries := listing_max_dir_entries c;
|}.

(** The [if let Some(v) = &args.x] assignments of [Config::load], in order. *)
Definition apply_args (args : CliArgs) (c : Config) : Config := {|
  listen_addr := or_else (arg_listen_addr args) (listen_addr c);
  namenode_uri := or_else (arg_namenode_uri args) (namenode_uri c);
  hdfs_root := or_else (arg_hdfs_root args) (hdfs_root c);
  bucket_name := or_else (arg_bucket_name args) (bucket_name c);
  max_concurrent_requests := max_concurrent_requests c;
  expose_upstream_errors := expose_upstream_errors c;
  auth_secret := match arg_auth_secret args with
                 | Some v => Some v | None => auth_secret c end;
  hdfs_user := match arg_hdfs_user args with
               | Some v => Some v | None => hdfs_user c end;
  hdfs_config_dir := match arg_hdfs_config_dir args with
                     | Some v => Some (to_string_lossy v) | None => hdfs_config_dir c end;
  hdfs_options :=
    match arg_hdfs_options args with
    | Some pairs => foldl (λ m '(k, v), <[k := v]> m) (hdfs_options c) pairs
    | None => hdfs_options c
    end;
  cache := cache c;
|}.

Definition with_cache (b : bool) (c : Config) : Config := {|
  namenode_uri := namenode_uri c;
  hdfs_root := hdfs_root c;
  bucket_name := bucket_name c;
  listen_addr := listen_addr c;
  max_concurrent_requests := max_concurrent_requests c;
  expose_upstream_errors := expose_upstream_errors c;
  hdfs_options := hdfs_options c;
  hdfs_config_dir := hdfs_config_dir c;
  hdfs_user := hdfs_user c;
  cache := set_enabled b (cache c);
  auth_secret := auth_secret c;
|}.

(** The base configuration: the file when one is named, else the environment,
    else the default. *)
Definition load_base (args : CliArgs) : result Config (ConfigError IoError TomlError) :=
  match arg_config args with
  | Some path =>
      let? text := map_err (ReadFile path) (read_to_string path) in
      map_err ParseToml (toml_from_str text)
  | None => Ok (or_else from_env default_config)
  end.

Definition load (args : CliArgs) : result Config (ConfigError IoError TomlError) :=
  let? config := load_base args in
  let config := apply_args args config in
  let? env := env_bool $"HDFS_S3_CACHE_ENABLED" in
  let config := match env with Some b => with_cache b config | None => config end in
  let config := if arg_no_cache args then with_cache false config else config in
  let config := if arg_cache args then with_cache true config else config in
  let? _ := validate config in
  Ok config.

(** ** Loading: theorems *)

(** The configuration a successful load returns, spelled out. *)
Lemma load_inv args c :
  load args = Ok c →
  ∃ base env, load_base args = Ok base ∧ env_bool $"HDFS_S3_CACHE_ENABLED" = Ok env ∧
    validate c = Ok tt ∧
    c = (let c := apply_args args base in
         let c := match env with Some b => with_cache b c | None => c end in
         let c := if arg_no_cache args then with_cache false c else c in
         if arg_cache args then with_cache true c else c).
Proof.
  unfold load. destruct (load_base args) as [base|e]; [|done].
  destruct (env_bool _) as [env|e]; [|done].
  match goal with |- context [validate ?x] => destruct (validate x) as [[]|] eqn:Hv end;
    [|done].
  intros [= <-]. by exists base, env.
Qed.

Lemma with_cache_fields b c :
  hdfs_options (with_cache b c) = hdfs_options c ∧
  namenode_uri (with_cache b c) = namenode_uri c ∧
  hdfs_root (with_cache b c) = hdfs_root c ∧
  bucket_name (with_cache b c) = bucket_name c ∧
  listen_addr (with_cache b c) = listen_addr c ∧
  auth_secret (with_cache b c) = auth_secret c ∧
  hdfs_user (with_cache b c) = hdfs_user c ∧
  hdfs_config_dir (with_cache b c) = hdfs_config_dir c ∧
  max_concurrent_requests (with_cache b c) = max_concurrent_requests c ∧
  expose_upstream_errors (with_cache b c) = expose_upstream_errors c.
Proof. done. Qed.

(** The cache switch's precedence: flags over environment over file. *)
Theorem load_cache_switch args c :
  load args = Ok c →
  ∃ base, load_base args = Ok base ∧
    enabled (cache c) =
      if arg_cache args then true
      else if arg_no_cache args then false
      else match env_bool $"HDFS_S3_CACHE_ENABLED" with
           | Ok (Some b) => b
           | _ => enabled (cache base)
           end.
Proof.
  intros (base & env & Hb & He & _ & ->)%load_inv. exists base. split; [done|].
  rewrite He. destruct (arg_cache args), (arg_no_cache args), env; done.
Qed.

(** C36 A loaded configuration satisfies every check of [validate]. *)
Theorem load_legal args c :
  load args = Ok c →
  namenode_uri c ≠ [] ∧ hdfs_root c ≠ [] ∧ bucket_name c ≠ [] ∧
  (0 < max_concurrent_requests c)%N ∧
  check_bucket_name (bucket_name c) = true ∧
  (enabled (cache c) = true → (0 < listing_ttl_ms (cache c))%N →
   (0 < listing_capacity_entries (cache c))%N).
Proof.
  intros (base & env & _ & _ & Hv & _)%load_inv. clear base env. revert Hv.
  unfold validate. repeat case_bool_decide; try done.
  destruct (N.eqb_spec (max_concurrent_requests c) 0); [done|].
  destruct (enabled (cache c)) eqn:?, (N.ltb_spec 0 (listing_ttl_ms (cache c))),
    (N.eqb_spec (listing_capacity_entries (cache c)) 0); try done;
    simpl; destruct (check_bucket_name (bucket_name c)) eqn:?; try done; intros _;
    split_and!; try done; intros; lia.
Qed.

Lemma options_extend (pairs : list (str * str)) (m : gmap str str) k :
  foldl (λ m '(k, v), <[k := v]> m) m pairs !! k =
  match last (filter (λ p, p.1 = k) pairs) with
  | Some p => Some p.2
  | None => m !! k
  end.
Proof.
  induction pairs as [|[k' v'] pairs IH] using rev_ind; [done|].
  rewrite foldl_app, filter_app, filter_cons, filter_nil. simpl.
  case_decide as E; simpl in E.
  - subst. by rewrite lookup_insert_eq, last_snoc.
  - by rewrite lookup_insert_ne, app_nil_r.
Qed.

(** Each command-line override wins over the base configuration, and what is
    not overridden is the base's; an [--hdfs-option] key takes its last value. *)
Theorem load_overrides args c :
  load args = Ok c →
  ∃ base, load_base args = Ok base ∧
    listen_addr c = or_else (arg_listen_addr args) (listen_addr base) ∧
    namenode_uri c = or_else (arg_namenode_uri args) (namenode_uri base) ∧
    hdfs_root c = or_else (arg_hdfs_root args) (hdfs_root base) ∧
    bucket_name c = or_else (arg_bucket_name args) (bucket_name base) ∧
    auth_secret c = (if arg_auth_secret args is Some v then Some v else auth_secret base) ∧
    hdfs_user c = (if arg_hdfs_user args is Some v then Some v else hdfs_user base) ∧
    max_concurrent_requests c = max_concurrent_requests base ∧
    expose_upstream_errors c = expose_upstream_errors base ∧
    ∀ k, hdfs_options c !! k =
      match last (filter (λ p, p.1 = k) (or_else (arg_hdfs_options args) [])) with
      | Some p => Some p.2
      | None => hdfs_options base !! k
      end.
Proof.
  intros (base & env & Hb & _ & _ & Hc)%load_inv. exists base. split; [done|].
  assert (∀ A (f : Config → A), (∀ b c, f (with_cache b c) = f c) →
            f c = f (apply_args args base)) as Hf.
  { intros A f Hw. rewrite Hc. destruct (arg_cache args), (arg_no_cache args), env;
      cbv zeta; rewrite ?Hw; done. }
  rewrite (Hf _ listen_addr), (Hf _ namenode_uri), (Hf _ hdfs_root), (Hf _ bucket_name),
    (Hf _ auth_secret), (Hf _ hdfs_user), (Hf _ max_concurrent_requests),
    (Hf _ expose_upstream_errors), (Hf _ hdfs_options) by done.
  split_and!; try done.
  intros k. simpl. destruct (arg_hdfs_options args) as [pairs|]; [|done].
  apply options_extend.
Qed.

(** A value of the kill switch that is not a boolean fails the load. *)
Theorem load_bad_switch args base raw :
  load_base args = Ok base →
  var_os $"HDFS_S3_CACHE_ENABLED" = Some raw →
  let value := to_ascii_lowercase (trim (to_string_lossy raw)) in
  value ∉ [$"1"; $"true"; $"yes"; $"on"; $"0"; $"false"; $"no"; $"off"] →
  load args = Err (Invalid (BadEnvBool $"HDFS_S3_CACHE_ENABLED" value)).
Proof.
  intros Hb Hr value Hv. unfold load. rewrite Hb. unfold env_bool. rewrite Hr.
  fold value. rewrite !bool_decide_eq_false_2; [done|..];
    intros Hin; apply Hv; revert Hin; rewrite !elem_of_cons; tauto.
Qed.
End load.

(** [--hdfs-option] accepts exactly [KEY=VALUE] with a non-empty key, and the
    key stops at the first [=]. *)
Theorem parse_hdfs_option_spec raw key value :
  parse_hdfs_option raw = Ok (key, value) ↔
  raw = key ++ "="%char :: value ∧ key ≠ [] ∧ "="%char ∉ key.
Proof.
  unfold parse_hdfs_option. destruct (find_str raw ["="%char]) as [i|] eqn:E.
  - apply find_byte_some in E as (a & b & -> & Ha & ->).
    rewrite take_app_length, drop_past. case_bool_decide as Hk; simpl.
    + split; [done|]. intros (Heq & Hne & Hk2). destruct Hne.
      subst a. destruct key as [|c key]; [done|]. simpl in Heq. injection Heq as <- _.
      apply not_elem_of_cons in Hk2 as []. done.
    + split; [intros [= <- <-]; done|]. intros (Heq & _ & Hk2).
      assert (a = key ∧ b = value) as [-> ->]; [|done].
      assert (find_str (a ++ "="%char :: b) ["="%char] = Some (length key)) as Hlen
        by (rewrite Heq; by apply find_byte_app).
      rewrite find_byte_app in Hlen by done. injection Hlen as Hlen.
      by apply app_inj_1 in Heq as [-> [= ->]].
  - apply find_byte_none in E. split; [done|]. intros (-> & _). destruct E.
    apply elem_of_app. right. apply elem_of_cons. by left.
Qed.

(** A configuration file that does not mention [expose_upstream_errors] hides
    upstream errors, where the environment and the default expose them. *)
Theorem toml_hides_errors_by_default {E} (mf uf : str → E) t c :
  t_expose_upstream_errors t = None → config_of_toml mf uf t = Ok c →
  expose_upstream_errors c = false ∧ expose_upstream_errors default_config = true.
Proof.
  unfold config_of_toml. intros Hn. rewrite Hn. destruct (t_unknown t); [done|].
  destruct (match t_cache t with Some _ => _ | None => _ end); [|done].
  unfold required. destruct (t_namenode_uri t), (t_hdfs_root t), (t_bucket_name t); try done.
  by intros [= <-].
Qed.

(** ** Witnesses *)

(** The environment of a container: three settings and the kill switch. *)
Definition demo_env (name : str) : option str :=
  if bool_decide (name = $"HDFS_NN_URI") then Some $"hdfs://nn:8020"
  else if bool_decide (name = $"HDFS_ROOT") then Some $"/data"
  else if bool_decide (name = $"BUCKET_NAME") then Some $"hdfs"
  else if bool_decide (name = $"HDFS_S3_CACHE_ENABLED") then Some $" Yes "
  else None.

Definition demo_args : CliArgs :=
  mkCliArgs None (Some $"127.0.0.1:9000") None None None None None None
    (Some [($"a", $"1"); ($"a", $"2")]) false false.

Definition demo_load : CliArgs → result Config (ConfigError unit unit) :=
  load (λ _, Err tt) (λ _, Err tt) (λ _, tt) (λ _, tt) demo_env (λ _, true).

Definition demo_base : result Config (ConfigError unit unit) :=
  load_base (λ _, Err tt) (λ _, Err tt) (λ _, tt) (λ _, tt) demo_env demo_args.

(** What the arguments and the environment above load. *)
Definition demo_loaded : Config :=
  match demo_load demo_args with Ok c => c | Err _ => default_config end.

Lemma demo_load_ok : demo_load demo_args = Ok demo_loaded.
Proof. vm_compute. reflexivity. Qed.

Example load_legal_witness :
  namenode_uri demo_loaded ≠ [] ∧ hdfs_root demo_loaded ≠ [] ∧ bucket_name demo_loaded ≠ [] ∧
  (0 < max_concurrent_requests demo_loaded)%N ∧ true = true ∧
  (enabled (cache demo_loaded) = true → (0 < listing_ttl_ms (cache demo_loaded))%N →
   (0 < listing_capacity_entries (cache demo_loaded))%N).
Proof. exact (load_legal _ _ _ _ demo_env _ demo_args demo_loaded demo_load_ok). Defined.

Example load_cache_switch_witness :
  ∃ base, demo_base = Ok base ∧
    enabled (cache demo_loaded) =
      if arg_cache demo_args then true
      else if arg_no_cache demo_args then false
      else match env_bool (IoError:=unit) (TomlError:=unit) demo_env $"HDFS_S3_CACHE_ENABLED" with
           | Ok (Some b) => b
           | _ => enabled (cache base)
           end.
Proof. exact (load_cache_switch _ _ _ _ demo_env _ demo_args demo_loaded demo_load_ok). Defined.

Example demo_cache_on : enabled (cache demo_loaded) = true.
Proof. vm_compute. reflexivity. Qed.

Example load_overrides_witness :
  ∃ base, demo_base = Ok base ∧
    listen_addr demo_loaded = or_else (arg_listen_addr demo_args) (listen_addr base) ∧
    namenode_uri demo_loaded = or_else (arg_namenode_uri demo_args) (namenode_uri base) ∧
    hdfs_root demo_loaded = or_else (arg_hdfs_root demo_args) (hdfs_root base) ∧
    bucket_name demo_loaded = or_else (arg_bucket_name demo_args) (bucket_name base) ∧
    auth_secret demo_loaded = (if arg_auth_secret demo_args is Some v then Some v else auth_secret base) ∧
    hdfs_user demo_loaded = (if arg_hdfs_user demo_args is Some v then Some v else hdfs_user base) ∧
    max_concurrent_requests demo_loaded = max_concurrent_requests base ∧
    expose_upstream_errors demo_loaded = expose_upstream_errors base ∧
    ∀ k, hdfs_options demo_loaded !! k =
      match last (filter (λ p, p.1 = k) (or_else (arg_hdfs_options demo_args) [])) with
      | Some p => Some p.2
      | None => hdfs_options base !! k
      end.
Proof. exact (load_overrides _ _ _ _ demo_env _ demo_args demo_loaded demo_load_ok). Defined.
