(* ===== verification/Path.v ===== *)
(** Keys and paths: [src/core/path.rs].

    [PathMapper] translates S3 keys to absolute HDFS paths under the
    configured root and back. The theorems state the containment of every
    translated key in the root, the two round trips, and that the directory
    [list_start] computes for a prefix holds every key that matches it. *)

From S2P Require Import Prelude Bytes Config.

(** ** Normalization *)

Definition dot : str := $".".
Definition dotdot : str := $"..".
Definition root_path : str := [slash].

(** The loop of [normalize_abs] over the segments, with the stack [parts]. *)
Fixpoint normalize_loop (absolute : bool) (parts segments : list str) : option (list str) :=
  match segments with
  | [] => Some parts
  | segment :: rest =>
      if bool_decide (segment = []) || bool_decide (segment = dot) then
        normalize_loop absolute parts rest
      else if bool_decide (segment = dotdot) then
        match vec_pop parts with
        | None => if absolute then None else normalize_loop absolute parts rest
        | Some (_, parts) => normalize_loop absolute parts rest
        end
      else normalize_loop absolute (parts ++ [segment]) rest
  end.

Definition normalize_abs (path : str) : option str :=
  let absolute := starts_with path root_path in
  parts ← normalize_loop absolute [] (split_slash path);
  Some (if absolute then slash :: join_slash parts else join_slash parts).

Definition normalize_root (root : str) : str :=
  let rooted := if starts_with root root_path then root else slash :: root in
  or_else (normalize_abs rooted) root_path.

Definition join_root (root key : str) : str :=
  if bool_decide (root = root_path) then slash :: key else root ++ slash :: key.

(** ** The mapper *)

Record PathMapper := mkPathMapper {
  root : str;
  bucket : str;
}.

(** [PathMapper::new]. *)
Definition new_mapper (config : Config) : PathMapper := {|
  root := normalize_root (hdfs_root config);
  bucket := bucket_name config;
|}.

Definition key_to_hdfs_path (m : PathMapper) (key : str) : option str :=
  let key := trim_slashes key in
  if bool_decide (key = []) then None
  else
    let combined := join_root (root m) key in
    match normalize_abs combined with
    | None => None
    | Some normalized =>
        let under_root :=
          if bool_decide (root m = root_path) then starts_with normalized root_path
          else bool_decide (normalized = root m)
               || starts_with normalized (root m ++ root_path) in
        if under_root then Some normalized else None
    end.

Definition list_start (m : PathMapper) (prefix : str) : option str :=
  let first := or_else (head (split_slash prefix)) [] in
  if bool_decide (first = dot) || bool_decide (first = dotdot) then None
  else match rfind_slash prefix with
       | None => Some (root m)
       | Some i => key_to_hdfs_path m (take (S i) prefix)
       end.

Definition hdfs_path_to_key (m : PathMapper) (hdfs_path : str) : option str :=
  match normalize_abs hdfs_path with
  | None => None
  | Some normalized =>
      if bool_decide (normalized = root m) then Some []
      else if bool_decide (root m = root_path) then str_strip_prefix normalized root_path
      else str_strip_prefix normalized (root m ++ root_path)
  end.

(** ** Clean paths: the specification's view *)

(** A path component the normalizer keeps. *)
Definition valid_seg (seg : str) : Prop :=
  seg ≠ [] ∧ seg ≠ dot ∧ seg ≠ dotdot ∧ slash ∉ seg.

#[export] Instance valid_seg_dec seg : Decision (valid_seg seg).
Proof. unfold valid_seg. apply _. Defined.

(** The absolute path of a list of components. *)
Definition abs_path (segs : list str) : str := slash :: join_slash segs.

(** A mapper whose root is the clean path [rs]. *)
Definition rooted_at (m : PathMapper) (rs : list str) : Prop :=
  Forall valid_seg rs ∧ root m = abs_path rs.

(** The part of a key above its last components: [""], or [ds] and a slash. *)
Definition dir_prefix (ds : list str) : str :=
  match ds with [] => [] | _ => join_slash ds ++ [slash] end.

(** ** Components *)

Lemma valid_seg_no_slash segs : Forall valid_seg segs → Forall (λ s, slash ∉ s) segs.
Proof. intros H. eapply Forall_impl; [exact H|]. by intros s (_ & _ & _ & ?). Qed.
#[export] Hint Resolve valid_seg_no_slash : gw.

Lemma valid_join_nonempty segs :
  Forall valid_seg segs → segs ≠ [] → join_slash segs ≠ [].
Proof.
  intros HF Hne. destruct HF as [|s segs (Hs & _) HF]; [done|].
  destruct segs; [done|]. rewrite join_slash_cons by done. by destruct s.
Qed.

Lemma valid_join_head segs : Forall valid_seg segs → head (join_slash segs) ≠ Some slash.
Proof.
  intros HF. destruct HF as [|s segs (Hs & _ & _ & Hns) HF]; [done|].
  destruct s as [|c s]; [done|]. intros Heq.
  assert (c = slash) as -> by (destruct segs; simpl in Heq; congruence).
  apply Hns. apply elem_of_cons. by left.
Qed.

Lemma valid_trim segs : Forall valid_seg segs → trim_slashes (join_slash segs) = join_slash segs.
Proof. intros. by apply trim_slashes_id, valid_join_head. Qed.

Lemma split_valid segs : segs ≠ [] → Forall valid_seg segs → split_slash (join_slash segs) = segs.
Proof. intros. apply split_join; auto with gw. Qed.

Lemma join_valid_inj segs segs' :
  Forall valid_seg segs → Forall valid_seg segs' →
  join_slash segs = join_slash segs' → segs = segs'.
Proof.
  intros H1 H2 E. destruct (decide (segs = [])) as [->|N1].
  { destruct (decide (segs' = [])) as [->|N2]; [done|].
    by destruct (valid_join_nonempty segs'). }
  destruct (decide (segs' = [])) as [->|N2].
  { by destruct (valid_join_nonempty segs). }
  by rewrite <- (split_valid segs), E, split_valid.
Qed.

(** ** The loop *)

Lemma normalize_loop_app absolute parts l1 l2 :
  normalize_loop absolute parts (l1 ++ l2) =
  normalize_loop absolute parts l1 ≫= λ p, normalize_loop absolute p l2.
Proof.
  revert parts. induction l1 as [|s l1 IH]; intros parts; simpl; [done|].
  repeat case_goal; simplify_eq; auto.
Qed.

Lemma normalize_loop_valid absolute parts segs :
  Forall valid_seg segs → normalize_loop absolute parts segs = Some (parts ++ segs).
Proof.
  intros HF. revert parts. induction HF as [|s segs (H1 & H2 & H3 & H4) HF IH];
    intros parts; simpl; [by rewrite app_nil_r|].
  rewrite !bool_decide_eq_false_2 by done. simpl. rewrite IH. by rewrite <- app_assoc.
Qed.

Lemma vec_pop_Forall {A} (P : A → Prop) l x l' :
  Forall P l → vec_pop l = Some (x, l') → Forall P l'.
Proof.
  destruct l as [|y l _] using rev_ind; [done|].
  rewrite vec_pop_snoc. intros [H _]%Forall_app [= <- <-]. done.
Qed.

(** The stack only ever holds valid components. *)
Lemma normalize_loop_clean absolute parts segs r :
  Forall valid_seg parts → Forall (λ s, slash ∉ s) segs →
  normalize_loop absolute parts segs = Some r → Forall valid_seg r.
Proof.
  intros Hp HF. revert parts Hp. induction HF as [|s segs Hs HF IH]; intros parts Hp; simpl.
  { by intros [= <-]. }
  case_bool_decide; simpl; [by apply IH|]. case_bool_decide; simpl; [by apply IH|].
  case_bool_decide.
  - destruct (vec_pop parts) as [[x parts']|] eqn:E.
    + apply IH. by eapply vec_pop_Forall.
    + destruct absolute; [done|]. by apply IH.
  - apply IH. apply Forall_app. split; [done|]. by repeat constructor.
Qed.

Lemma normalize_abs_slash s :
  normalize_abs (slash :: s) = abs_path <$> normalize_loop true [] (split_slash s).
Proof. unfold normalize_abs. simpl. by destruct (normalize_loop _ _ _). Qed.

Lemma normalize_abs_path segs : Forall valid_seg segs → normalize_abs (abs_path segs) = Some (abs_path segs).
Proof.
  intros HF. unfold abs_path at 1. rewrite normalize_abs_slash.
  destruct (decide (segs = [])) as [->|Hne]; [done|].
  rewrite split_valid, normalize_loop_valid by done. done.
Qed.

Lemma normalize_abs_clean s p :
  normalize_abs (slash :: s) = Some p → ∃ segs, Forall valid_seg segs ∧ p = abs_path segs.
Proof.
  rewrite normalize_abs_slash. intros (segs & Hs & ->)%fmap_Some. exists segs.
  split; [|done]. by eapply normalize_loop_clean, Hs; [constructor|apply split_slash_Forall].
Qed.

(** The root of every mapper the gateway builds is a clean absolute path. *)
Lemma new_mapper_rooted config : ∃ rs, rooted_at (new_mapper config) rs.
Proof.
  assert (∀ s, ∃ rs, Forall valid_seg rs ∧ or_else (normalize_abs (slash :: s)) root_path = abs_path rs)
    as H.
  { intros s. destruct (normalize_abs (slash :: s)) as [p|] eqn:E; simpl.
    - by apply normalize_abs_clean in E.
    - exists []. by split. }
  unfold rooted_at. simpl. unfold normalize_root. cbv zeta.
  destruct (starts_with (hdfs_root config) root_path) eqn:E; [|apply H].
  apply starts_with_spec in E as [r ->]. apply H.
Qed.

(** ** The mapper on components *)

Lemma abs_path_inj s1 s2 :
  Forall valid_seg s1 → Forall valid_seg s2 → abs_path s1 = abs_path s2 → s1 = s2.
Proof. intros ?? [= E]. by apply join_valid_inj. Qed.

Lemma abs_path_root segs : Forall valid_seg segs → abs_path segs = root_path ↔ segs = [].
Proof.
  intros HF. split; [|by intros ->]. intros E. by apply abs_path_inj.
Qed.

Lemma abs_path_app s1 s2 :
  s1 ≠ [] → s2 ≠ [] → abs_path (s1 ++ s2) = abs_path s1 ++ root_path ++ join_slash s2.
Proof. intros. unfold abs_path. by rewrite join_slash_app. Qed.

(** Joining the root to a key and normalizing pushes the key's segments on
    the root's. *)
Lemma normalize_join m rs key :
  rooted_at m rs →
  normalize_abs (join_root (root m) key) = abs_path <$> normalize_loop true rs (split_slash key).
Proof.
  intros [HF Hr]. unfold join_root. rewrite Hr.
  case_bool_decide as E.
  - apply abs_path_root in E as ->; [|done]. by rewrite normalize_abs_slash.
  - assert (rs ≠ []) as Hne by (by intros ->).
    unfold abs_path at 1. cbn [app]. rewrite normalize_abs_slash, split_slash_app.
    by rewrite split_valid, normalize_loop_app, normalize_loop_valid by done.
Qed.

(** The containment test of [key_to_hdfs_path]: the root itself, or a path
    that extends the root at a separator. *)
Lemma under_root_spec rs ns :
  Forall valid_seg rs → Forall valid_seg ns →
  (if bool_decide (abs_path rs = root_path) then starts_with (abs_path ns) root_path
   else bool_decide (abs_path ns = abs_path rs)
        || starts_with (abs_path ns) (abs_path rs ++ root_path)) = true
  ↔ ∃ ds, ns = rs ++ ds.
Proof.
  intros Hr Hn. case_bool_decide as E.
  - apply abs_path_root in E as ->; [|done]. split; [by exists ns|done].
  - assert (rs ≠ []) as Hne by (by intros ->).
    rewrite orb_true_iff, bool_decide_eq_true. split.
    + intros [Heq|[r Heq]%starts_with_spec].
      * apply abs_path_inj in Heq as ->; [|done..]. exists []. by rewrite app_nil_r.
      * destruct (decide (ns = [])) as [->|Hns].
        { apply (f_equal length) in Heq. rewrite !length_app in Heq. simpl in Heq.
          assert (0 < length (join_slash rs)).
          { pose proof (valid_join_nonempty rs Hr Hne). destruct (join_slash rs); [done|simpl; lia]. }
          lia. }
        exists (split_slash r). injection Heq as Heq.
        rewrite <- (split_valid ns), Heq by done. unfold root_path.
        rewrite <- app_assoc. cbn [app]. by rewrite split_slash_app, split_valid.
    + intros [ds ->]. destruct (decide (ds = [])) as [->|Hd].
      * left. by rewrite app_nil_r.
      * right. rewrite abs_path_app, app_assoc by done. apply starts_with_app.
Qed.

(** [key_to_hdfs_path], on components: the root's segments stay at the bottom
    of the stack, or the key is refused. *)
Lemma key_to_hdfs_path_spec m rs key :
  rooted_at m rs →
  key_to_hdfs_path m key =
    if decide (trim_slashes key = []) then None
    else match normalize_loop true rs (split_slash (trim_slashes key)) with
         | Some ns => if decide (take (length rs) ns = rs) then Some (abs_path ns) else None
         | None => None
         end.
Proof.
  intros Hm. pose proof Hm as [HF Hr]. unfold key_to_hdfs_path. cbv zeta.
  case_bool_decide as E1; case_decide as E2; [done|done|done|]. clear E2.
  rewrite (normalize_join m rs) by done.
  destruct (normalize_loop _ _ _) as [ns|] eqn:En; cbn [fmap option_fmap option_map]; [|done].
  assert (Forall valid_seg ns) as Hns
    by (eapply normalize_loop_clean; [exact HF|apply split_slash_Forall|exact En]).
  rewrite Hr. pose proof (under_root_spec rs ns HF Hns) as Hu.
  destruct (decide (take (length rs) ns = rs)) as [Ed|Ed].
  - assert (∃ ds, ns = rs ++ ds) as Hex.
    { exists (drop (length rs) ns). rewrite <- Ed at 1. by rewrite take_drop. }
    apply Hu in Hex. by rewrite Hex.
  - destruct (if bool_decide _ then _ else _) eqn:Eu; [|done].
    destruct Hu as [Hu _]. destruct (Hu eq_refl) as [ds ->]. by rewrite take_app_length in Ed.
Qed.

Lemma key_to_hdfs_path_inv m rs key p :
  rooted_at m rs → key_to_hdfs_path m key = Some p →
  ∃ ds, Forall valid_seg ds ∧ p = abs_path (rs ++ ds).
Proof.
  intros Hm. pose proof Hm as [HF _]. rewrite (key_to_hdfs_path_spec m rs) by done.
  case_decide; [done|]. destruct (normalize_loop _ _ _) as [ns|] eqn:En; [|done].
  case_decide as Ed; [|done]. intros [= <-].
  assert (Forall valid_seg ns) as Hns
    by (eapply normalize_loop_clean; [exact HF|apply split_slash_Forall|exact En]).
  exists (drop (length rs) ns). split; [by apply Forall_drop|].
  rewrite <- Ed at 1. by rewrite take_drop.
Qed.

Lemma key_to_hdfs_path_clean m rs ds :
  rooted_at m rs → Forall valid_seg ds → ds ≠ [] →
  key_to_hdfs_path m (join_slash ds) = Some (abs_path (rs ++ ds)).
Proof.
  intros Hm Hd Hne. rewrite (key_to_hdfs_path_spec m rs) by done.
  rewrite valid_trim by done. rewrite decide_False by (by apply valid_join_nonempty).
  rewrite split_valid, normalize_loop_valid by done.
  by rewrite take_app_length, decide_True.
Qed.

(** A trailing slash does not change the path a key names. *)
Lemma key_to_hdfs_path_dir m rs ds :
  rooted_at m rs → Forall valid_seg ds → ds ≠ [] →
  key_to_hdfs_path m (join_slash ds ++ [slash]) = Some (abs_path (rs ++ ds)).
Proof.
  intros Hm Hd Hne. rewrite (key_to_hdfs_path_spec m rs) by done.
  assert (join_slash ds ≠ []) as Hj by (by apply valid_join_nonempty).
  rewrite trim_slashes_id.
  2: { pose proof (valid_join_head ds Hd). by destruct (join_slash ds). }
  rewrite decide_False by (by destruct (join_slash ds)).
  rewrite split_slash_app, split_valid, normalize_loop_app, normalize_loop_valid by done.
  simpl. by rewrite take_app_length, decide_True.
Qed.

Lemma hdfs_path_to_key_clean m rs ds :
  rooted_at m rs → Forall valid_seg ds →
  hdfs_path_to_key m (abs_path (rs ++ ds)) = Some (join_slash ds).
Proof.
  intros [HF Hr] Hd. unfold hdfs_path_to_key.
  rewrite normalize_abs_path by (by apply Forall_app). rewrite Hr.
  case_bool_decide as E.
  { apply abs_path_inj in E; [|by apply Forall_app|done].
    rewrite <- (app_nil_r rs) in E at 2. by apply app_inv_head in E as ->. }
  assert (ds ≠ []) as Hne by (intros ->; by rewrite app_nil_r in E).
  case_bool_decide as E2.
  - apply abs_path_root in E2 as ->; [|done]. by apply strip_prefix_spec.
  - assert (rs ≠ []) by (by intros ->). apply strip_prefix_spec.
    by rewrite abs_path_app, <- app_assoc by done.
Qed.

Lemma hdfs_path_to_key_inv m rs path key :
  rooted_at m rs → hdfs_path_to_key m path = Some key →
  ∃ ds, Forall valid_seg ds ∧ key = join_slash ds ∧ normalize_abs path = Some (abs_path (rs ++ ds)).
Proof.
  intros Hm. pose proof Hm as [HF Hr]. unfold hdfs_path_to_key.
  destruct (normalize_abs path) as [n|] eqn:En; [|done].
  case_bool_decide as E.
  { intros [= <-]. exists []. rewrite app_nil_r, E, Hr. done. }
  assert (starts_with path root_path = true → ∃ ns, Forall valid_seg ns ∧ n = abs_path ns) as Hclean.
  { intros [r ->]%starts_with_spec. by apply normalize_abs_clean in En. }
  destruct (starts_with path root_path) eqn:Ep.
  - destruct Hclean as (ns & Hns & ->); [done|]. rewrite Hr. intros Hk.
    assert (∃ ds, ns = rs ++ ds) as [ds ->].
    { apply under_root_spec; [done..|]. case_bool_decide; [done|].
      apply strip_prefix_spec in Hk as ->. by rewrite starts_with_app, orb_true_r. }
    apply Forall_app in Hns as [_ Hds]. exists ds. split_and!; [done| |done].
    pose proof (hdfs_path_to_key_clean m rs ds Hm Hds) as Hc. revert Hc.
    unfold hdfs_path_to_key. rewrite normalize_abs_path by (by apply Forall_app).
    rewrite Hr in E |- *. rewrite bool_decide_eq_false_2 by done. rewrite Hk. by intros [= ->].
  - (* a relative path normalizes to one that does not start with a slash *)
    assert (starts_with n root_path = false) as Hrel.
    { revert En. unfold normalize_abs. rewrite Ep.
      intros (segs & Hs & [= <-])%bind_Some.
      assert (Forall valid_seg segs) as Hv
        by (eapply normalize_loop_clean; [constructor|apply split_slash_Forall|exact Hs]).
      apply not_true_iff_false. intros [r Es]%starts_with_spec. cbn beta iota in Es.
      destruct (valid_join_head segs Hv). by rewrite Es. }
    rewrite Hr. assert (∀ r, n ≠ root_path ++ r) as Hno.
    { intros r ->. by rewrite starts_with_app in Hrel. }
    case_bool_decide; intros Hk%strip_prefix_spec; exfalso; revert Hk; apply Hno.
Qed.

(** ** Containment and round trips *)

(** C13 Every key the gateway accepts names a path inside the configured root:
    the root's components followed by components that are neither empty, [.],
    [..] nor contain a slash. *)
Theorem key_contained config key p :
  key_to_hdfs_path (new_mapper config) key = Some p →
  ∃ rs ds, Forall valid_seg (rs ++ ds) ∧
    root (new_mapper config) = abs_path rs ∧ p = abs_path (rs ++ ds).
Proof.
  destruct (new_mapper_rooted config) as [rs Hm].
  intros (ds & Hd & ->)%(key_to_hdfs_path_inv _ rs); [|done].
  exists rs, ds. destruct Hm as [HF Hr]. by rewrite Forall_app.
Qed.

(** C33 A clean key survives the trip to HDFS and back. *)
Theorem key_round_trip config ds :
  Forall valid_seg ds → ds ≠ [] →
  ∃ p, key_to_hdfs_path (new_mapper config) (join_slash ds) = Some p ∧
       hdfs_path_to_key (new_mapper config) p = Some (join_slash ds).
Proof.
  intros Hd Hne. destruct (new_mapper_rooted config) as [rs Hm].
  exists (abs_path (rs ++ ds)).
  by rewrite (key_to_hdfs_path_clean _ rs), (hdfs_path_to_key_clean _ rs).
Qed.

(** The key of a path is the empty key of the root itself, or a key that
    maps back to the path, normalized. *)
Theorem path_round_trip config path key :
  hdfs_path_to_key (new_mapper config) path = Some key →
  if decide (key = []) then normalize_abs path = Some (root (new_mapper config))
  else key_to_hdfs_path (new_mapper config) key = normalize_abs path.
Proof.
  destruct (new_mapper_rooted config) as [rs Hm].
  intros (ds & Hd & -> & Hn)%(hdfs_path_to_key_inv _ rs); [|done]. rewrite Hn.
  case_decide as E.
  - assert (ds = []) as ->.
    { destruct (decide (ds = [])); [done|]. by destruct (valid_join_nonempty ds). }
    destruct Hm as [_ ->]. by rewrite app_nil_r.
  - apply key_to_hdfs_path_clean; [done..|]. by intros ->.
Qed.

(** ** Where a listing starts *)

(** A prefix splits at its last slash into whole directories and a partial
    name. *)
Lemma prefix_split prefix :
  ((slash ∉ prefix) ∧ rfind_slash prefix = None) ∨
  ∃ d part, prefix = d ++ slash :: part ∧ (slash ∉ part) ∧
            rfind_slash prefix = Some (length d) ∧
            take (S (length d)) prefix = d ++ [slash].
Proof.
  destruct (rfind_slash prefix) as [i|] eqn:E.
  - right. apply rfind_slash_some in E as (d & part & -> & Hp & ->).
    exists d, part. split_and!; [done..|].
    rewrite cons_middle, app_assoc, take_app_le by (rewrite length_app; simpl; lia).
    by rewrite firstn_all2 by (rewrite length_app; simpl; lia).
  - left. split; [|done]. by apply rfind_slash_none.
Qed.

(** The whole directories of a prefix of a clean key are components of it. *)
Lemma starts_with_dirs segs d part :
  Forall valid_seg segs → starts_with (join_slash segs) (d ++ slash :: part) = true →
  ∃ ds rest, segs = ds ++ rest ∧ ds ≠ [] ∧ rest ≠ [] ∧ d = join_slash ds ∧
             starts_with (join_slash rest) part = true.
Proof.
  intros HF [r Hr]%starts_with_spec.
  assert (segs ≠ []) as Hne.
  { intros ->. by destruct d. }
  assert (segs = split_slash d ++ split_slash (part ++ r)) as Hs.
  { rewrite <- (split_valid segs), Hr, <- app_assoc by done. cbn [app].
    by rewrite split_slash_app. }
  exists (split_slash d), (split_slash (part ++ r)). rewrite !join_split.
  split_and!; try apply split_slash_nonempty; [done|done|]. apply starts_with_app.
Qed.

Lemma head_split_dir d rest : head (split_slash (d ++ slash :: rest)) = head (split_slash d).
Proof.
  rewrite split_slash_app. pose proof (split_slash_nonempty d). by destruct (split_slash d).
Qed.

(** The start of a listing: the directory whose components the prefix spells
    out, but for the prefixes [.] and [..]. *)
Lemma list_start_clean m rs ds part :
  rooted_at m rs → Forall valid_seg ds → slash ∉ part →
  dir_prefix ds ++ part ≠ dot → dir_prefix ds ++ part ≠ dotdot →
  list_start m (dir_prefix ds ++ part) = Some (abs_path (rs ++ ds)).
Proof.
  intros Hm HF Hp Hd1 Hd2. destruct (decide (ds = [])) as [->|Hne].
  - cbn [dir_prefix app] in *. pose proof Hm as [_ Hr]. unfold list_start. cbv zeta.
    rewrite split_slash_no_slash, (proj2 (rfind_slash_none part) Hp) by done. cbn [head or_else].
    rewrite !bool_decide_eq_false_2 by done. cbn [orb]. by rewrite app_nil_r, Hr.
  - assert (dir_prefix ds ++ part = join_slash ds ++ slash :: part) as E.
    { unfold dir_prefix. destruct ds; [done|]. by rewrite <- app_assoc. }
    rewrite E. unfold list_start. cbv zeta.
    rewrite rfind_slash_app, head_split_dir, split_valid by done.
    assert (take (S (length (join_slash ds))) (join_slash ds ++ slash :: part) = join_slash ds ++ [slash]) as ->.
    { rewrite cons_middle, app_assoc, take_app_le by (rewrite length_app; simpl; lia).
      by rewrite firstn_all2 by (rewrite length_app; simpl; lia). }
    pose proof HF as HF'. destruct HF as [|s ds' (Hs0 & Hs1 & Hs2 & Hs3) HF]; [done|]. cbn [head or_else].
    rewrite !bool_decide_eq_false_2 by done. cbn [orb]. by apply key_to_hdfs_path_dir.
Qed.

(** A prefix that a clean key has splits into components of the key and a
    partial name. *)
Lemma prefix_dirs prefix segs :
  Forall valid_seg segs → segs ≠ [] → starts_with (join_slash segs) prefix = true →
  ∃ ds rest part, segs = ds ++ rest ∧ rest ≠ [] ∧ prefix = dir_prefix ds ++ part ∧ (slash ∉ part) ∧
    starts_with (join_slash rest) part = true.
Proof.
  intros HF Hne Hst. destruct (prefix_split prefix) as [[Hns Hrf]|(d & part & -> & Hp & Hrf & Htk)].
  - by exists [], segs, prefix.
  - destruct (starts_with_dirs segs d part HF Hst) as (ds & rest & -> & Hds & Hrest & -> & Hpr).
    exists ds, rest, part. split_and!; [done|done| |done|done].
    unfold dir_prefix. destruct ds; [done|]. by rewrite <- app_assoc.
Qed.

(** The start of a listing, from a clean key that matches its prefix. *)
Lemma list_start_dirs m rs prefix segs :
  rooted_at m rs → Forall valid_seg segs → segs ≠ [] →
  starts_with (join_slash segs) prefix = true →
  prefix ≠ dot → prefix ≠ dotdot →
  ∃ ds rest part,
    list_start m prefix = Some (abs_path (rs ++ ds)) ∧
    segs = ds ++ rest ∧ rest ≠ [] ∧ prefix = dir_prefix ds ++ part ∧ (slash ∉ part) ∧
    starts_with (join_slash rest) part = true.
Proof.
  intros Hm HF Hne Hst Hd1 Hd2.
  destruct (prefix_dirs prefix segs HF Hne Hst) as (ds & rest & part & -> & Hrest & -> & Hp & Hpr).
  apply Forall_app in HF as [HFd _]. exists ds, rest, part. split_and!; [|done..]. by apply list_start_clean.
Qed.

(** C34 The directory a listing starts from holds, below it, every clean key
    that matches the prefix: the key's components begin with those of the
    directory, and the prefix is those and a partial name. The prefixes [.]
    and [..] are the exception. *)
Theorem list_start_complete config prefix segs :
  Forall valid_seg segs → segs ≠ [] →
  starts_with (join_slash segs) prefix = true →
  prefix ≠ dot → prefix ≠ dotdot →
  ∃ rs ds rest part,
    root (new_mapper config) = abs_path rs ∧
    list_start (new_mapper config) prefix = Some (abs_path (rs ++ ds)) ∧
    segs = ds ++ rest ∧ rest ≠ [] ∧
    prefix = dir_prefix ds ++ part ∧ slash ∉ part.
Proof.
  intros HF Hne Hst Hd1 Hd2. destruct (new_mapper_rooted config) as [rs Hm].
  destruct (list_start_dirs _ rs prefix segs Hm HF Hne Hst Hd1 Hd2)
    as (ds & rest & part & H1 & H2 & H3 & H4 & H5 & _).
  exists rs, ds, rest, part. by destruct Hm as [_ Hr].
Qed.

Lemma list_start_rooted m rs prefix start :
  rooted_at m rs → list_start m prefix = Some start →
  ∃ ds, Forall valid_seg ds ∧ start = abs_path (rs ++ ds).
Proof.
  intros Hm. unfold list_start. cbv zeta. destruct (_ || _); [done|].
  destruct (rfind_slash prefix); [by apply key_to_hdfs_path_inv|].
  intros [= <-]. exists []. rewrite app_nil_r. by destruct Hm.
Qed.

(** A listing never starts outside the configured root. *)
Theorem list_start_contained config prefix start :
  list_start (new_mapper config) prefix = Some start →
  ∃ rs ds, Forall valid_seg (rs ++ ds) ∧
    root (new_mapper config) = abs_path rs ∧ start = abs_path (rs ++ ds).
Proof.
  destruct (new_mapper_rooted config) as [rs Hm].
  intros (ds & Hd & ->)%(list_start_rooted _ rs); [|done].
  exists rs, ds. destruct Hm as [HF Hr]. by rewrite Forall_app.
Qed.

(** The prefixes [.] and [..] have no starting directory, although every file of
    the root whose name begins with a dot has a key that matches the first,
    and likewise the second: a listing never shows those keys for them. *)
Theorem list_start_dot_misses config prefix name :
  prefix = dot ∨ prefix = dotdot → valid_seg name → starts_with name prefix = true →
  ∃ path, key_to_hdfs_path (new_mapper config) name = Some path ∧
    hdfs_path_to_key (new_mapper config) path = Some name ∧
    list_start (new_mapper config) prefix = None.
Proof.
  intros Hp Hv _. destruct (new_mapper_rooted config) as [rs Hm].
  assert (Forall valid_seg [name]) as Hn by by apply Forall_singleton.
  exists (abs_path (rs ++ [name])). split_and!.
  - by apply (key_to_hdfs_path_clean _ rs [name]).
  - by apply (hdfs_path_to_key_clean _ rs [name]).
  - by destruct Hp as [->| ->].
Qed.

(** ** Normalization is idempotent, and a root that climbs above [/] is [/] *)

Lemma normalize_abs_rel path p :
  starts_with path root_path = false → normalize_abs path = Some p →
  ∃ segs, Forall valid_seg segs ∧ p = join_slash segs.
Proof.
  unfold normalize_abs. intros ->. intros (segs & Hs & [= <-])%bind_Some. exists segs.
  split; [|done]. eapply normalize_loop_clean; [constructor|apply split_slash_Forall|exact Hs].
Qed.

(** A normalized path is a fixed point of normalization. *)
Theorem normalize_abs_idempotent path p :
  normalize_abs path = Some p → normalize_abs p = Some p.
Proof.
  destruct (starts_with path root_path) eqn:E.
  - apply starts_with_spec in E as [r ->]. intros (segs & HF & ->)%normalize_abs_clean.
    by apply normalize_abs_path.
  - intros (segs & HF & ->)%normalize_abs_rel; [|done]. unfold normalize_abs.
    destruct (starts_with (join_slash segs) root_path) eqn:Es.
    + apply starts_with_spec in Es as [r Es]. destruct (valid_join_head segs HF).
      by rewrite Es.
    + destruct (decide (segs = [])) as [->|Hne]; [done|].
      by rewrite split_valid, normalize_loop_valid.
Qed.

(** ** Witnesses *)

(** The configuration of the component's own tests. *)
Definition data_config (hdfs_root : str) : Config :=
  {| namenode_uri := $"hdfs://localhost:8020";
     Config.hdfs_root := hdfs_root;
     bucket_name := $"hdfs";
     listen_addr := default_listen_addr;
     max_concurrent_requests := default_max_concurrent_requests;
     expose_upstream_errors := false;
     hdfs_options := ∅;
     hdfs_config_dir := None;
     hdfs_user := None;
     cache := default_cache_config;
     auth_secret := None |}.

Example key_contained_witness :
  ∃ rs ds, Forall valid_seg (rs ++ ds) ∧
    root (new_mapper (data_config $"/data/")) = abs_path rs ∧
    $"/data/b.txt" = abs_path (rs ++ ds).
Proof. by apply (key_contained (data_config $"/data/") $"/a/../b.txt"). Defined.

Example key_round_trip_witness :
  ∃ p, key_to_hdfs_path (new_mapper (data_config $"/")) $"a/b.txt" = Some p ∧
       hdfs_path_to_key (new_mapper (data_config $"/")) p = Some $"a/b.txt".
Proof. apply (key_round_trip _ [$"a"; $"b.txt"]); [by apply (bool_decide_unpack _)|done]. Defined.

Example path_round_trip_witness :
  key_to_hdfs_path (new_mapper (data_config $"/data")) $"x/y" = Some $"/data/x/y".
Proof. by apply (path_round_trip _ $"//data/./x/y" $"x/y"). Defined.

Example list_start_complete_witness :
  ∃ rs ds rest part,
    root (new_mapper (data_config $"/data")) = abs_path rs ∧
    list_start (new_mapper (data_config $"/data")) $"a/b" = Some (abs_path (rs ++ ds)) ∧
    [$"a"; $"bc"; $"d"] = ds ++ rest ∧ rest ≠ [] ∧ $"a/b" = dir_prefix ds ++ part ∧ slash ∉ part.
Proof. by apply list_start_complete; [apply (bool_decide_unpack _)|..]. Defined.

Example list_start_contained_witness :
  ∃ rs ds, Forall valid_seg (rs ++ ds) ∧
    root (new_mapper (data_config $"/data")) = abs_path rs ∧ $"/data/a/b" = abs_path (rs ++ ds).
Proof. by apply (list_start_contained _ $"a/b/c.txt"). Defined.

Example normalize_abs_idempotent_witness : normalize_abs $"/b" = Some $"/b".
Proof. by apply (normalize_abs_idempotent $"//a/../b/"). Defined.

Example list_start_dot_misses_witness :
  ∃ path, key_to_hdfs_path (new_mapper (data_config $"/data")) $".hidden" = Some path ∧
    hdfs_path_to_key (new_mapper (data_config $"/data")) path = Some $".hidden" ∧
    list_start (new_mapper (data_config $"/data")) dot = None.
Proof.
  apply (list_start_dot_misses (data_config $"/data") dot); [by left|by apply (bool_decide_unpack _)|done].
Defined.
