(* ===== verification/Range.v ===== *)
(** Byte ranges: [src/core/range.rs].

    [resolve_range] on 64-bit lengths and offsets, against the set of bytes
    a range selects. *)

From S2P Require Import Prelude.

Inductive ByteRange : Type :=
| From (first : N)
| Inclusive (first last : N)
| Suffix (length : N).

Definition resolve_range (file_len : N) (range : ByteRange) : option (N * N) :=
  match range with
  | From first =>
      if N.leb file_len first then None else Some (first, file_len)
  | Inclusive first last =>
      if N.leb file_len first then None
      else
        let last := N.min last (u64_sub file_len 1) in
        if N.ltb last first then None else Some (first, u64_add last 1)
  | Suffix length =>
      if N.eqb length 0 then None
      else
        let length := N.min length file_len in
        if N.eqb length 0 then None
        else Some (u64_sub file_len length, file_len)
  end.

(** ** Specification *)

(** The offsets a range asks for, in a file of [file_len] bytes. *)
Definition requested (range : ByteRange) (file_len i : N) : Prop :=
  match range with
  | From first => first <= i
  | Inclusive first last => first <= i /\ i <= last
  | Suffix length => file_len <= i + length
  end%N.

(** The fields are 64-bit words. *)
Definition range_wf (range : ByteRange) : Prop :=
  match range with
  | From first => first < U64_MOD
  | Inclusive first last => first < U64_MOD /\ last < U64_MOD
  | Suffix length => length < U64_MOD
  end%N.

(** ** Theorems *)

(** The window of a range: never empty, never past the end of the file. *)
Lemma resolve_range_window file_len range s e :
  (file_len < U64_MOD)%N → resolve_range file_len range = Some (s, e) →
  (s < e)%N ∧ (e <= file_len)%N ∧
  ∀ i, (s <= i < e)%N ↔ (i < file_len)%N ∧ requested range file_len i.
Proof.
  intros Hl. destruct range as [first|first last|length]; cbn [resolve_range requested]; cbv zeta.
  - destruct (N.leb_spec file_len first); [done|]. intros [= <- <-].
    split_and_all; [lia..|]. intros i. lia.
  - destruct (N.leb_spec file_len first); [done|]. rewrite u64_sub_exact by lia.
    destruct (N.ltb_spec (N.min last (file_len - 1)) first); [done|].
    rewrite u64_add_exact by lia. intros [= <- <-].
    split_and_all; [lia..|]. intros i. lia.
  - destruct (N.eqb_spec length 0); [done|].
    destruct (N.eqb_spec (N.min length file_len) 0); [done|].
    rewrite u64_sub_exact by lia. intros [= <- <-].
    split_and_all; [lia..|]. intros i. lia.
Qed.

(** C35 A resolved range is exactly the requested bytes of the file: a non-empty
    window inside it, with no wrap-around in the arithmetic. *)
Theorem resolve_range_exact file_len range s e :
  (file_len < U64_MOD)%N → resolve_range file_len range = Some (s, e) →
  (s < e)%N ∧ (e <= file_len)%N ∧
  ∀ i, (s <= i < e)%N ↔ (i < file_len)%N ∧ requested range file_len i.
Proof. apply resolve_range_window. Qed.

(** A range is refused exactly when it selects no byte of the file. *)
Theorem resolve_range_none file_len range :
  (file_len < U64_MOD)%N → range_wf range →
  resolve_range file_len range = None ↔ ∀ i, (i < file_len)%N → ¬ requested range file_len i.
Proof.
  intros Hl Hwf. destruct (resolve_range file_len range) as [[s e]|] eqn:E.
  - split; [done|]. destruct (resolve_range_window _ _ _ _ Hl E) as (H1 & H2 & H3).
    intros Hno. destruct (proj1 (H3 s)) as [Hs Hreq]; [lia|]. by destruct (Hno s Hs).
  - split; [|done]. intros _ i Hi. revert E.
    destruct range as [first|first last|length]; cbn [resolve_range requested range_wf] in *;
      cbv zeta.
    + destruct (N.leb_spec file_len first); [lia|done].
    + destruct (N.leb_spec file_len first); [lia|]. rewrite u64_sub_exact by lia.
      destruct (N.ltb_spec (N.min last (file_len - 1)) first); [lia|done].
    + destruct (N.eqb_spec length 0); [lia|].
      destruct (N.eqb_spec (N.min length file_len) 0); [lia|done].
Qed.

(** ** Witnesses *)

Example resolve_range_exact_witness :
  (90 < 100)%N ∧ (100 <= 100)%N ∧
  ∀ i, (90 <= i < 100)%N ↔ (i < 100)%N ∧ requested (Inclusive 90 500) 100 i.
Proof. by apply (resolve_range_exact 100 (Inclusive 90 500)). Defined.

Example resolve_range_none_witness :
  resolve_range 0 (Suffix 5) = None ↔
  ∀ i, (i < 0)%N → ¬ requested (Suffix 5) 0 i.
Proof. by apply resolve_range_none. Defined.
