(* ===== verification/Metadata.v ===== *)
(** Object metadata: [src/core/metadata.rs].

    ETags and content types of objects. The extension table of [mime_guess]
    is a parameter. The theorems say when two ETags are equal, and that the
    content type depends on the base name alone. *)

From S2P Require Import Prelude Bytes.

Record ObjectMetadata := mkObjectMetadata {
  path : str;
  length : N;
  is_dir : bool;
  modification_time : N;
  checksum : option str;
}.

Definition from_hdfs (path : str) (length : N) (is_dir : bool) (modification_time : N)
    (checksum : option str) : ObjectMetadata :=
  mkObjectMetadata path length is_dir modification_time checksum.

(** ** Hexadecimal *)

(** [char::from_digit(d, 16)], for [d < 16]. *)
Definition from_digit (d : N) : ascii :=
  ascii_of_N (if N.ltb d 10 then 48 + d else 87 + d).

Fixpoint hex_encode (bytes : str) : str :=
  match bytes with
  | [] => []
  | b :: bytes =>
      from_digit (N.shiftr (N_of_ascii b) 4) :: from_digit (N.land (N_of_ascii b) 0xf)
        :: hex_encode bytes
  end.

(** The [{:x}] format of a 64-bit word: its hexadecimal digits, at most
    sixteen, without leading zeros. *)
Fixpoint fmt_hex_fuel (fuel : nat) (n : N) : str :=
  match fuel with
  | 0 => []
  | S fuel =>
      if N.ltb n 16 then [from_digit n]
      else fmt_hex_fuel fuel (n / 16) ++ [from_digit (n mod 16)]
  end.

Definition fmt_hex (n : N) : str := fmt_hex_fuel 16 n.

Definition fallback_etag (length modification_time : N) : str :=
  $"hdfs-" ++ fmt_hex length ++ $"-" ++ fmt_hex modification_time.

Definition etag (m : ObjectMetadata) : str :=
  match checksum m with
  | Some bytes => hex_encode bytes
  | None => fallback_etag (length m) (modification_time m)
  end.

(** [path.rsplit('/').next()]: what follows the last slash. *)
Definition base_name (p : str) : str :=
  match rfind_slash p with Some i => drop (S i) p | None => p end.

Section content_type.
(** [mime_guess::from_path(name).first()]. *)
Context (mime_first : str → option str).

Definition content_type (m : ObjectMetadata) : str :=
  let name := base_name (path m) in
  match mime_first name with Some m => m | None => $"application/octet-stream" end.

(** The content type of an object depends on its base name alone. *)
Lemma content_type_base d name len dir mt ck len' dir' mt' ck' :
  slash ∉ name →
  content_type (from_hdfs (d ++ slash :: name) len dir mt ck) =
  content_type (from_hdfs name len' dir' mt' ck').
Proof.
  intros Hn. unfold content_type, base_name. simpl.
  rewrite rfind_slash_app by done. apply rfind_slash_none in Hn as ->. by rewrite drop_past.
Qed.
End content_type.

(** ** Digits *)

Lemma lt_16_cases d :
  (d < 16)%N → d ∈ [0; 1; 2; 3; 4; 5; 6; 7; 8; 9; 10; 11; 12; 13; 14; 15]%N.
Proof. intros. rewrite !elem_of_cons, elem_of_nil. lia. Qed.

(** The value of a digit; out of range on other bytes. *)
Definition digit_val (c : ascii) : N :=
  let n := N_of_ascii c in if N.ltb n 58 then n - 48 else n - 87.

Lemma digit_val_from d : (d < 16)%N → digit_val (from_digit d) = d.
Proof.
  intros Hd%lt_16_cases. repeat (apply elem_of_cons in Hd as [->|Hd]; [done|]).
  by apply elem_of_nil in Hd.
Qed.

Lemma from_digit_inj d d' : (d < 16)%N → (d' < 16)%N → from_digit d = from_digit d' → d = d'.
Proof. intros H1 H2 E. by rewrite <- (digit_val_from d), E, digit_val_from. Qed.

(** A digit is neither the dash nor the [h] of the fallback format. *)
Lemma from_digit_not d : (d < 16)%N → from_digit d ≠ "-"%char ∧ from_digit d ≠ "h"%char.
Proof.
  intros Hd%lt_16_cases. repeat (apply elem_of_cons in Hd as [->|Hd]; [done|]).
  by apply elem_of_nil in Hd.
Qed.

Lemma byte_nibbles b :
  (N.shiftr (N_of_ascii b) 4 < 16)%N ∧ (N.land (N_of_ascii b) 0xf < 16)%N ∧
  N_of_ascii b = (16 * N.shiftr (N_of_ascii b) 4 + N.land (N_of_ascii b) 0xf)%N.
Proof.
  pose proof (N_ascii_bounded b). change 15%N with (N.ones 4).
  rewrite N.land_ones, N.shiftr_div_pow2. change (2 ^ 4)%N with 16%N.
  pose proof (N.mod_lt (N_of_ascii b) 16). pose proof (N.div_mod (N_of_ascii b) 16).
  split_and!; [apply N.Div0.div_lt_upper_bound|..]; lia.
Qed.

Lemma hex_encode_inj b1 b2 : hex_encode b1 = hex_encode b2 → b1 = b2.
Proof.
  revert b2. induction b1 as [|x b1 IH]; intros [|y b2]; cbn [hex_encode]; try done.
  intros [= H1 H2 H3]. destruct (byte_nibbles x) as (X1 & X2 & X3), (byte_nibbles y) as (Y1 & Y2 & Y3).
  apply from_digit_inj in H1; [|done..]. apply from_digit_inj in H2; [|done..].
  assert (x = y) as -> by (apply N_of_ascii_inj; lia). by rewrite (IH b2).
Qed.

(** ** Numbers *)

Lemma fmt_hex_no_dash fuel n : "-"%char ∉ fmt_hex_fuel fuel n.
Proof.
  revert n. induction fuel as [|fuel IH]; intros n; cbn [fmt_hex_fuel]; [apply not_elem_of_nil|].
  destruct (N.ltb_spec n 16) as [H|H].
  - intros [E| []%elem_of_nil]%elem_of_cons. by destruct (from_digit_not n H).
  - pose proof (N.mod_lt n 16). intros [Hin|[E| []%elem_of_nil]%elem_of_cons]%elem_of_app.
    + by destruct (IH _ Hin).
    + destruct (from_digit_not (n mod 16)) as [Hd _]; [lia|]. done.
Qed.

Lemma fmt_hex_nonempty fuel n : fmt_hex_fuel (S fuel) n ≠ [].
Proof. cbn [fmt_hex_fuel]. destruct (N.ltb n 16); [done|]. intros []%app_eq_nil. done. Qed.

Lemma fmt_hex_fuel_inj fuel n n' :
  (n < 16 ^ N.of_nat fuel)%N → (n' < 16 ^ N.of_nat fuel)%N →
  fmt_hex_fuel fuel n = fmt_hex_fuel fuel n' → n = n'.
Proof.
  revert n n'. induction fuel as [|fuel IH]; intros n n' Hn Hn'.
  { simpl in *. lia. }
  rewrite Nat2N.inj_succ, N.pow_succ_r' in Hn, Hn'. cbn [fmt_hex_fuel].
  pose proof (N.mod_lt n 16). pose proof (N.mod_lt n' 16).
  pose proof (N.div_mod n 16). pose proof (N.div_mod n' 16).
  assert (∀ m, (16 <= m)%N → (m < 16 * 16 ^ N.of_nat fuel)%N → fmt_hex_fuel fuel (m / 16) ≠ [])
    as Hne.
  { intros m ? ?. destruct fuel; [simpl in *; lia|]. apply fmt_hex_nonempty. }
  destruct (N.ltb_spec n 16), (N.ltb_spec n' 16).
  - intros [= E]. by apply from_digit_inj.
  - intros E. apply (app_inj_2 [] _ [_] [_]) in E as [E _]; [|done]. by destruct (Hne n').
  - intros E. symmetry in E. apply (app_inj_2 [] _ [_] [_]) in E as [E _]; [|done].
    by destruct (Hne n).
  - intros E. apply app_inj_2 in E as [E1 [= E2]]; [|done].
    apply from_digit_inj in E2; [|lia..]. apply IH in E1; [lia|..];
      by apply N.Div0.div_lt_upper_bound.
Qed.

Lemma fmt_hex_inj n n' :
  (n < U64_MOD)%N → (n' < U64_MOD)%N → fmt_hex n = fmt_hex n' → n = n'.
Proof. apply (fmt_hex_fuel_inj 16). Qed.

(** ** ETags *)

(** Splitting at the first dash is unique. *)
Lemma dash_split_inj a b a' b' :
  "-"%char ∉ a → "-"%char ∉ a' → a ++ $"-" ++ b = a' ++ $"-" ++ b' → a = a' ∧ b = b'.
Proof.
  intros Ha Ha' E.
  assert (find_str (a ++ "-"%char :: b) ["-"%char] = Some (List.length a')) as Hl.
  { replace (a ++ "-"%char :: b) with (a' ++ "-"%char :: b') by (symmetry; exact E).
    by apply find_byte_app. }
  rewrite find_byte_app in Hl by done. injection Hl as Hl.
  apply app_inj_1 in E as [-> [= ->]]; done.
Qed.

Lemma fallback_etag_inj l t l' t' :
  (l < U64_MOD)%N → (t < U64_MOD)%N → (l' < U64_MOD)%N → (t' < U64_MOD)%N →
  fallback_etag l t = fallback_etag l' t' → l = l' ∧ t = t'.
Proof.
  intros. unfold fallback_etag in *. simplify_list_eq.
  match goal with H : fmt_hex l ++ _ = _ |- _ => apply (dash_split_inj _ (fmt_hex t) _ (fmt_hex t')) in H
  end; [|by apply (fmt_hex_no_dash 16)..].
  destruct_and!. split; by apply fmt_hex_inj.
Qed.

(** No checksum is encoded as a fallback value. *)
Lemma hex_encode_not_fallback b l t : hex_encode b ≠ fallback_etag l t.
Proof.
  destruct b as [|x b]; [done|]. cbn [hex_encode]. intros [= E _].
  destruct (byte_nibbles x) as (Hx & _). by destruct (from_digit_not _ Hx).
Qed.

(** Two objects have the same ETag exactly when their checksums agree and,
    without checksums, when both length and modification time agree. *)
Theorem etag_eq m m' :
  (length m < U64_MOD)%N → (modification_time m < U64_MOD)%N →
  (length m' < U64_MOD)%N → (modification_time m' < U64_MOD)%N →
  etag m = etag m' ↔
  checksum m = checksum m' ∧
  (checksum m = None → length m = length m' ∧ modification_time m = modification_time m').
Proof.
  intros. unfold etag. destruct (checksum m) as [b|], (checksum m') as [b'|].
  - split; [|by intros [[= ->] _]]. by intros ->%hex_encode_inj.
  - split; [by intros ?%hex_encode_not_fallback|by intros [? _]].
  - split; [|by intros [? _]]. intros E. symmetry in E. by apply hex_encode_not_fallback in E.
  - split; [|by intros [_ [-> ->]]]. intros E. split; [done|]. intros _.
    by apply fallback_etag_inj in E.
Qed.

(** ** Witnesses *)

(** The object of the component's own tests. *)
Definition test_object (checksum : option str) : ObjectMetadata :=
  from_hdfs $"/data/a/b.txt" 1024 false 1700000000000 checksum.

(** Another object of the same length, rewritten a millisecond later. *)
Definition test_rewrite : ObjectMetadata :=
  from_hdfs $"/data/a/b.txt" 1024 false 1700000000001 None.

Example etag_eq_witness :
  etag (test_object None) = etag test_rewrite ↔
  checksum (test_object None) = checksum test_rewrite ∧
  (checksum (test_object None) = None →
   length (test_object None) = length test_rewrite ∧
   modification_time (test_object None) = modification_time test_rewrite).
Proof. by apply (etag_eq (test_object None) test_rewrite). Defined.

(** The values the component's own tests check. *)
Example etag_checksum :
  etag (test_object (Some (map ascii_of_N [0xde; 0xad; 0xbe; 0xef]%N))) = $"deadbeef".
Proof. reflexivity. Qed.

Example etag_fallback : etag (test_object None) = $"hdfs-400-18bcfe56800".
Proof. vm_compute. reflexivity. Qed.
