(* ===== verification/Cache.v ===== *)
(** The bounded TTL cache: [src/core/cache.rs].

    [TtlCache] wraps a least-recently-used map of the [lru] crate, which is
    the interface [Lru] with the laws [LruLaws]: [lru_items] is the content in
    the order of the crate's iterator, most recently used first. Time is an
    argument of the operations that read the clock. The theorems state the
    budget invariant, freshness, and what an insertion evicts. *)

From S2P Require Import Prelude.

(** ** The [lru] crate *)

Class Lru (K : Type) (L : Type → Type) := {
  lru_new : ∀ {E}, N → L E;
  lru_peek : ∀ {E}, K → L E → option E;
  lru_get : ∀ {E}, K → L E → option E * L E;
  lru_pop : ∀ {E}, K → L E → option E * L E;
  lru_push : ∀ {E}, K → E → L E → option (K * E) * L E;
  lru_pop_lru : ∀ {E}, L E → option (K * E) * L E;
  lru_len : ∀ {E}, L E → N;
  lru_items : ∀ {E}, L E → list (K * E);
  lru_cap : ∀ {E}, L E → N;
}.

Fixpoint assoc {K E} `{EqDecision K} (k : K) (l : list (K * E)) : option E :=
  match l with
  | [] => None
  | (k', e) :: l => if decide (k' = k) then Some e else assoc k l
  end.

Definition assoc_del {K E} `{EqDecision K} (k : K) (l : list (K * E)) : list (K * E) :=
  filter (λ p, p.1 ≠ k) l.

(** The documented behaviour of the operations. *)
Class LruLaws (K : Type) (L : Type → Type) `{EqDecision K} `{!Lru K L} : Prop := {
  lru_items_new : ∀ E n, lru_items (lru_new (E:=E) n) = [];
  lru_cap_new : ∀ E n, lru_cap (lru_new (E:=E) n) = n;
  lru_peek_law : ∀ E k (l : L E), lru_peek k l = assoc k (lru_items l);
  lru_get_law : ∀ E k (l : L E),
    (lru_get k l).1 = assoc k (lru_items l) ∧
    lru_items (lru_get k l).2 =
      match assoc k (lru_items l) with
      | Some e => (k, e) :: assoc_del k (lru_items l)
      | None => lru_items l
      end ∧
    lru_cap (lru_get k l).2 = lru_cap l;
  lru_pop_law : ∀ E k (l : L E),
    (lru_pop k l).1 = assoc k (lru_items l) ∧
    lru_items (lru_pop k l).2 = assoc_del k (lru_items l) ∧
    lru_cap (lru_pop k l).2 = lru_cap l;
  lru_push_law : ∀ E k e (l : L E),
    lru_cap (lru_push k e l).2 = lru_cap l ∧
    match assoc k (lru_items l) with
    | Some old =>
        (lru_push k e l).1 = Some (k, old) ∧
        lru_items (lru_push k e l).2 = (k, e) :: assoc_del k (lru_items l)
    | None =>
        if N.ltb (N.of_nat (length (lru_items l))) (lru_cap l) then
          (lru_push k e l).1 = None ∧
          lru_items (lru_push k e l).2 = (k, e) :: lru_items l
        else
          (lru_push k e l).1 = last (lru_items l) ∧
          lru_items (lru_push k e l).2 = (k, e) :: removelast (lru_items l)
    end;
  lru_pop_lru_law : ∀ E (l : L E),
    (lru_pop_lru l).1 = last (lru_items l) ∧
    lru_items (lru_pop_lru l).2 = removelast (lru_items l) ∧
    lru_cap (lru_pop_lru l).2 = lru_cap l;
  lru_len_law : ∀ E (l : L E), lru_len l = N.of_nat (length (lru_items l));
}.

(** ** The cache *)

Record Entry (V : Type) := mkEntry {
  value : V;
  inserted : N;
  entry_weight : N;
}.
Arguments mkEntry {V}.
Arguments value {V}.
Arguments inserted {V}.
Arguments entry_weight {V}.

(** [TtlCache] with the fields of the [Inner] its mutex guards. *)
Record TtlCache (L : Type → Type) (V : Type) := mkTtlCache {
  entries : L (Entry V);
  total_weight : N;
  ttl : N;
  max_weight : N;
}.
Arguments mkTtlCache {L V}.
Arguments entries {L V}.
Arguments total_weight {L V}.
Arguments ttl {L V}.
Arguments max_weight {L V}.

Section cache.
Context {K : Type} {L : Type → Type} `{EqDecision K} `{!Lru K L}.
Context {V : Type}.
Implicit Types (k : K) (c : TtlCache L V) (now w : N) (v : V).

(** [TtlCache::new(capacity, ttl, max_weight)]. *)
Definition cache_new (capacity ttl max_weight : N) : TtlCache L V :=
  mkTtlCache (lru_new capacity) 0 ttl max_weight.

Definition is_enabled c : bool := negb (N.eqb (ttl c) 0).

(** [self.lock()] and the assignments to the guarded fields. *)
Definition with_inner c (entries : L (Entry V)) (weight : N) : TtlCache L V :=
  mkTtlCache entries weight (ttl c) (max_weight c).

(** [inserted.elapsed()], which saturates at zero. *)
Definition elapsed now (e : Entry V) : N := (now - inserted e)%N.

Definition cache_get now k c : option V * TtlCache L V :=
  if negb (is_enabled c) then (None, c)
  else
    let expired := match lru_peek k (entries c) with
                   | Some entry => N.leb (ttl c) (elapsed now entry)
                   | None => false
                   end in
    if expired then
      match lru_pop k (entries c) with
      | (Some entry, l) =>
          (None, with_inner c l (u64_sub (total_weight c) (entry_weight entry)))
      | (None, l) => (None, with_inner c l (total_weight c))
      end
    else
      let '(hit, l) := lru_get k (entries c) in
      (value <$> hit, with_inner c l (total_weight c)).

(** The eviction loop of [insert]; each turn pops an entry or stops. *)
Fixpoint evict (fuel : nat) c : TtlCache L V :=
  match fuel with
  | 0 => c
  | S fuel =>
      if N.ltb (max_weight c) (total_weight c) then
        match lru_pop_lru (entries c) with
        | (Some (_, entry), l) =>
            evict fuel (with_inner c l (u64_sub (total_weight c) (entry_weight entry)))
        | (None, l) => with_inner c l (total_weight c)
        end
      else c
  end.

Definition cache_insert now k v w c : TtlCache L V :=
  if negb (is_enabled c) || N.ltb (max_weight c) w then c
  else
    let c := match lru_pop k (entries c) with
             | (Some old, l) =>
                 with_inner c l (u64_sub (total_weight c) (entry_weight old))
             | (None, l) => with_inner c l (total_weight c)
             end in
    let c := match lru_push k (mkEntry v now w) (entries c) with
             | (Some (_, evicted), l) =>
                 with_inner c l (u64_sub (total_weight c) (entry_weight evicted))
             | (None, l) => with_inner c l (total_weight c)
             end in
    let c := with_inner c (entries c) (u64_add (total_weight c) w) in
    evict (S (N.to_nat (lru_len (entries c)))) c.

Definition cache_remove k c : TtlCache L V :=
  match lru_pop k (entries c) with
  | (Some entry, l) => with_inner c l (u64_sub (total_weight c) (entry_weight entry))
  | (None, l) => with_inner c l (total_weight c)
  end.

Definition cache_len c : N := lru_len (entries c).
Definition cache_is_empty c : bool := N.eqb (cache_len c) 0.

(** ** Histories *)

(** A call on the shared cache; the mutex makes each one atomic. *)
Inductive cache_op : Type :=
| OpGet (now : N) (k : K)
| OpInsert (now : N) (k : K) (v : V) (w : N)
| OpRemove (k : K).

Definition cache_step c (op : cache_op) : TtlCache L V :=
  match op with
  | OpGet now k => (cache_get now k c).2
  | OpInsert now k v w => cache_insert now k v w c
  | OpRemove k => cache_remove k c
  end.

Definition cache_run (ops : list cache_op) c : TtlCache L V := foldl cache_step c ops.

(** The value the history last stored under a key, with its time: the
    cache's promise, without bounds or eviction. *)
Definition last_write (max_weight : N) (ops : list cache_op) k : option (V * N) :=
  foldl (λ acc op,
    match op with
    | OpGet _ _ => acc
    | OpInsert now k' v w =>
        if bool_decide (k' = k) && negb (N.ltb max_weight w) then Some (v, now) else acc
    | OpRemove k' => if bool_decide (k' = k) then None else acc
    end) None ops.

(** ** The invariant *)

Definition weight_of (l : list (K * Entry V)) : N :=
  foldr (λ p acc, entry_weight p.2 + acc)%N 0%N l.

(** The recorded weight is the sum of the entries', within the budget, the
    entry count is within the capacity, and no key is stored twice. The
    budget leaves room to add one more value to it. *)
Record cache_wf c : Prop := {
  wf_weight : total_weight c = weight_of (lru_items (entries c));
  wf_budget : (total_weight c <= max_weight c)%N;
  wf_cap : (N.of_nat (length (lru_items (entries c))) <= lru_cap (entries c))%N;
  wf_cap_pos : (0 < lru_cap (entries c))%N;
  wf_nodup : NoDup (lru_items (entries c)).*1;
  wf_room : (2 * max_weight c < U64_MOD)%N;
}.

(** ** Association lists *)

Lemma elem_of_assoc_del k (l : list (K * Entry V)) x : x ∈ assoc_del k l ↔ x.1 ≠ k ∧ x ∈ l.
Proof. unfold assoc_del. by rewrite list_elem_of_filter. Qed.

Lemma assoc_del_cons k k' e (l : list (K * Entry V)) :
  assoc_del k ((k', e) :: l) =
  if decide (k' = k) then assoc_del k l else (k', e) :: assoc_del k l.
Proof.
  unfold assoc_del. rewrite filter_cons. cbn [fst].
  destruct (decide (k' = k)) as [->|]; [by rewrite decide_False by auto|by rewrite decide_True].
Qed.

Lemma assoc_del_none k (l : list (K * Entry V)) : assoc k l = None → assoc_del k l = l.
Proof.
  induction l as [|[k' e] l IH]; [done|]. cbn [assoc]. case_decide; [done|].
  intros Hn%IH. by rewrite assoc_del_cons, decide_False, Hn.
Qed.

Lemma assoc_some_elem k e (l : list (K * Entry V)) : assoc k l = Some e → (k, e) ∈ l.
Proof.
  induction l as [|[k' e'] l IH]; [done|]. cbn [assoc].
  case_decide; [intros [= ->]; subst; apply elem_of_cons; auto|].
  intros Hin%IH. apply elem_of_cons. auto.
Qed.

Lemma assoc_none_keys k (l : list (K * Entry V)) : assoc k l = None ↔ k ∉ l.*1.
Proof.
  induction l as [|[k' e'] l IH]; simpl; [split; [intros _; apply not_elem_of_nil|done]|].
  rewrite not_elem_of_cons. case_decide; [split; [done|by intros []]|].
  rewrite IH. intuition congruence.
Qed.

Lemma assoc_del_absent k (l : list (K * Entry V)) : assoc k (assoc_del k l) = None.
Proof.
  apply assoc_none_keys. intros ([k' e] & -> & Hin)%list_elem_of_fmap.
  by apply elem_of_assoc_del in Hin as [[] _].
Qed.

Lemma assoc_del_nodup k (l : list (K * Entry V)) : NoDup l.*1 → NoDup (assoc_del k l).*1.
Proof.
  induction l as [|[k' e] l IH]; [done|]. cbn [fmap list_fmap].
  intros [Hni Hnd]%NoDup_cons. rewrite assoc_del_cons. case_decide; [auto|].
  cbn [fmap list_fmap]. apply NoDup_cons. split; [|auto].
  intros ([k2 e2] & Ek & [_ Hin]%elem_of_assoc_del)%list_elem_of_fmap. apply Hni.
  apply list_elem_of_fmap. by exists (k2, e2).
Qed.

Lemma assoc_del_length k (l : list (K * Entry V)) : length (assoc_del k l) <= length l.
Proof. apply length_filter. Qed.

(** ** Weights *)

Lemma weight_of_app l1 l2 : weight_of (l1 ++ l2) = (weight_of l1 + weight_of l2)%N.
Proof. induction l1 as [|x l1 IH]; simpl; [done|]. rewrite IH. lia. Qed.

Lemma weight_of_take n l : (weight_of (take n l) <= weight_of l)%N.
Proof. rewrite <- (take_drop n l) at 2. rewrite weight_of_app. lia. Qed.

Lemma weight_of_del k l :
  NoDup l.*1 →
  weight_of l = (weight_of (assoc_del k l) +
                 if assoc k l is Some e then entry_weight e else 0)%N.
Proof.
  induction l as [|[k' e'] l IH]; [done|]. cbn [fmap list_fmap].
  intros [Hni Hnd]%NoDup_cons. cbn [assoc]. rewrite assoc_del_cons. case_decide as E.
  - assert (assoc k l = None) as Hna by (apply assoc_none_keys; by rewrite <- E).
    rewrite (assoc_del_none _ _ Hna). simpl. lia.
  - simpl. rewrite (IH Hnd) at 1. lia.
Qed.

Lemma removelast_take {A} (l : list A) : removelast l = take (length l - 1) l.
Proof.
  destruct l as [|x l _] using rev_ind; [done|].
  rewrite removelast_last, length_app, take_app_le by (simpl; lia).
  by rewrite take_ge by (simpl; lia).
Qed.

Lemma weight_of_last l :
  weight_of l =
  (weight_of (removelast l) + if last l is Some p then entry_weight p.2 else 0)%N.
Proof.
  destruct l as [|x l _] using rev_ind; [done|].
  rewrite removelast_last, last_snoc, weight_of_app. simpl. lia.
Qed.
End cache.
Arguments cache_op : clear implicits.

(** ** Operations *)

Section cache_theorems.
Context {K : Type} {L : Type → Type} `{EqDecision K} `{!Lru K L} `{!LruLaws K L}.
Context {V : Type}.
Implicit Types (k : K) (c : TtlCache L V) (now w : N) (v : V).

Abbreviation items c := (lru_items (entries c)).

(** Both branches of a [pop] that releases the entry's weight. *)
Lemma pop_release c k c' :
  cache_wf c →
  c' = (match lru_pop k (entries c) with
        | (Some e, l) => with_inner c l (u64_sub (total_weight c) (entry_weight e))
        | (None, l) => with_inner c l (total_weight c)
        end) →
  cache_wf c' ∧ items c' = assoc_del k (items c) ∧
  lru_cap (entries c') = lru_cap (entries c) ∧
  ttl c' = ttl c ∧ max_weight c' = max_weight c.
Proof.
  intros [Hw Hb Hc Hp Hn Hr]. destruct (lru_pop_law _ k (entries c)) as (H1 & H2 & H3).
  pose proof (weight_of_del k _ Hn) as Hd. pose proof (assoc_del_length k (items c)) as Hl.
  destruct (lru_pop k (entries c)) as [[e|] l]; simpl in H1, H2, H3; rewrite <- H1 in Hd;
    intros ->; simpl; (split; [split; simpl|]); rewrite ?H2, ?H3;
    try (by apply assoc_del_nodup); try done; try lia.
  rewrite u64_sub_exact by lia. lia.
  rewrite u64_sub_exact by lia. lia.
Qed.

(** The eviction loop ends within its fuel, within the budget, and keeps the
    longest prefix of the items, in order of use, that fits. *)
Lemma evict_spec fuel c :
  length (items c) < fuel → total_weight c = weight_of (items c) →
  (weight_of (items c) < U64_MOD)%N →
  let c' := evict fuel c in
  total_weight c' = weight_of (items c') ∧ (total_weight c' <= max_weight c)%N ∧
  lru_cap (entries c') = lru_cap (entries c) ∧ ttl c' = ttl c ∧ max_weight c' = max_weight c ∧
  ∃ n, items c' = take n (items c) ∧ n <= length (items c) ∧
       ∀ m, (weight_of (take m (items c)) <= max_weight c)%N → m <= length (items c) → m <= n.
Proof.
  revert c. induction fuel as [|fuel IH]; intros c Hf Hw Hr; [lia|]. cbv zeta. cbn [evict].
  destruct (N.ltb_spec (max_weight c) (total_weight c)) as [Ht|Ht].
  - destruct (lru_pop_lru_law _ (entries c)) as (H1 & H2 & H3).
    pose proof (weight_of_last (items c)) as Hl.
    destruct (lru_pop_lru (entries c)) as [[[k e]|] l]; simpl in H1, H2, H3;
      rewrite <- H1 in Hl; simpl in Hl.
    + assert (0 < length (items c)) as Hpos by (destruct (items c); [done|simpl; lia]).
      set (c1 := with_inner c l _).
      assert (items c1 = removelast (items c)) as Hi by done.
      rewrite removelast_take in Hi.
      assert (total_weight c1 = weight_of (items c1)) as Hw1.
      { simpl. rewrite H2, Hw, u64_sub_exact by lia. lia. }
      destruct (IH c1) as (E1 & E2 & E3 & E4 & E5 & n & E6 & E7 & E8).
      * rewrite Hi, length_take. lia.
      * done.
      * rewrite Hi. pose proof (weight_of_take (length (items c) - 1) (items c)). lia.
      * rewrite E3. split_and!; [done|done|done|done|done|].
        rewrite Hi in E6, E7, E8. rewrite length_take in E7, E8. rewrite take_take in E6.
        exists (n `min` (length (items c) - 1)). split_and!; [done|lia|].
        intros m Hm Hle. assert (m ≠ length (items c)).
        { intros ->. rewrite take_ge in Hm by done. lia. }
        assert (m <= n); [|lia]. apply E8; [|lia].
        rewrite take_take. by replace (m `min` _) with m by lia.
    + exfalso. symmetry in H1. apply last_None in H1. rewrite H1 in Hw. simpl in Hw. lia.
  - split_and!; [done|done|done|done|done|]. exists (length (items c)).
    by rewrite take_ge.
Qed.

(** What a [push] of an absent key drops to make room. *)
Lemma push_release c k e c' :
  cache_wf c → assoc k (items c) = None →
  c' = (match lru_push k e (entries c) with
        | (Some (_, ev), l) => with_inner c l (u64_sub (total_weight c) (entry_weight ev))
        | (None, l) => with_inner c l (total_weight c)
        end) →
  let n := length (items c) `min` (N.to_nat (lru_cap (entries c)) - 1) in
  items c' = (k, e) :: take n (items c) ∧ total_weight c' = weight_of (take n (items c)) ∧
  lru_cap (entries c') = lru_cap (entries c) ∧ ttl c' = ttl c ∧ max_weight c' = max_weight c.
Proof.
  intros [Hw Hb Hc Hp Hn Hr] Ha. destruct (lru_push_law _ k e (entries c)) as [H3 H].
  rewrite Ha in H. pose proof (weight_of_last (items c)) as Hl.
  destruct (N.ltb_spec (N.of_nat (length (items c))) (lru_cap (entries c))) as [Hlt|Hge];
    destruct H as [H1 H2]; destruct (lru_push k e (entries c)) as [ev l];
    simpl in H1, H2, H3; subst ev.
  - intros ->. cbv zeta. simpl. rewrite take_ge by lia. by rewrite H2.
  - assert (0 < length (items c)) as Hpos by lia.
    destruct (last (items c)) as [[k' ev]|] eqn:El; simpl in Hl.
    2: { apply last_None in El. rewrite El in Hpos. simpl in Hpos. lia. }
    intros ->. cbv zeta. simpl. rewrite H2, H3, removelast_take. rewrite removelast_take in Hl.
    replace (_ `min` _) with (length (items c) - 1) by lia.
    split_and!; try done. rewrite u64_sub_exact; lia.
Qed.

(** An accepted insertion: the new entry is the most recently used; of the
    others, the least recently used give way to the two bounds, and no more
    of them than necessary. *)
Lemma insert_spec now k v w c :
  cache_wf c → is_enabled c = true → (w <= max_weight c)%N →
  let c' := cache_insert now k v w c in
  let others := assoc_del k (items c) in
  cache_wf c' ∧ ttl c' = ttl c ∧ max_weight c' = max_weight c ∧
  lru_cap (entries c') = lru_cap (entries c) ∧
  ∃ n, items c' = (k, mkEntry v now w) :: take n others ∧ n <= length others ∧
       (n < length others →
        S n = N.to_nat (lru_cap (entries c)) ∨
        (max_weight c < w + weight_of (take (S n) others))%N).
Proof.
  intros Hwf He Hwm. cbv zeta. unfold cache_insert. rewrite He. cbn [negb orb].
  destruct (N.ltb_spec (max_weight c) w) as [?|_]; [lia|]. cbv zeta.
  destruct (pop_release c k _ Hwf eq_refl) as (Hwf1 & Hi1 & Hc1 & Ht1 & Hm1).
  set (c1 := match lru_pop k (entries c) with (_, _) => _ end) in *. clearbody c1.
  assert (assoc k (items c1) = None) as Ha by (rewrite Hi1; apply assoc_del_absent).
  destruct (push_release c1 k (mkEntry v now w) _ Hwf1 Ha eq_refl) as (Hi2 & Hw2 & Hc2 & Ht2 & Hm2).
  set (c2 := match lru_push k _ (entries c1) with (_, _) => _ end) in *. clearbody c2.
  destruct Hwf1 as [W1 B1 C1 P1 N1 R1]. rewrite Hi1, Hm1, Hc1, Ht1 in *.
  set (others := assoc_del k (items c)) in *.
  set (n0 := length others `min` _) in *.
  pose proof (weight_of_take n0 others) as Hle.
  set (c3 := with_inner c2 (entries c2) _).
  assert (items c3 = (k, mkEntry v now w) :: take n0 others) as Hi3 by done.
  assert (total_weight c3 = weight_of (items c3)) as Hw3.
  { rewrite Hi3. simpl. rewrite Hw2, u64_add_exact by lia. lia. }
  destruct (evict_spec (S (N.to_nat (lru_len (entries c3)))) c3)
    as (E1 & E2 & E3 & E4 & E5 & n & E6 & E7 & E8).
  { rewrite lru_len_law. lia. }
  { done. }
  { rewrite Hi3. simpl. lia. }
  set (c' := evict _ c3) in *. clearbody c'.
  simpl in E2, E3, E4, E5, E8. rewrite Hi2, ?Hc2, ?Hm2, ?Ht2 in *.
  assert (1 <= n) as Hn1.
  { apply (E8 1); simpl; lia. }
  destruct n as [|n]; [lia|]. clear Hn1. cbn [take] in E6. rewrite Hi3 in E6, E7.
  simpl in E7, E6. rewrite length_take in E7.
  rewrite take_take in E6. replace (n `min` n0) with n in E6 by lia.
  split_and!; [|done|done|done|exists n; split_and!; [done|lia|]].
  - split.
    + done.
    + by rewrite E5.
    + rewrite E3, E6. simpl. rewrite length_take. lia.
    + by rewrite E3.
    + rewrite E6. simpl. apply NoDup_cons. split.
      * apply assoc_none_keys in Ha. intros Hin. apply Ha.
        rewrite <- (take_drop n others), fmap_app. apply elem_of_app. by left.
      * rewrite <- (take_drop n others), fmap_app in N1. by apply NoDup_app in N1 as (? & _).
    + by rewrite E5.
  - intros Hn. destruct (decide (n = n0)) as [->|Hne]; [left; lia|right].
    apply N.lt_nge. intros Hfit.
    assert (S (S n) <= S n); [|lia]. apply E8; simpl; [|rewrite length_take; lia].
    rewrite take_take. by replace (S n `min` n0) with (S n) by lia.
Qed.

Lemma insert_refused now k v w c :
  is_enabled c = false ∨ (max_weight c < w)%N → cache_insert now k v w c = c.
Proof.
  unfold cache_insert. intros [->|Hw]; [done|].
  apply N.ltb_lt in Hw. by rewrite Hw, orb_true_r.
Qed.

(** A lookup: a live entry is returned and becomes the most recently used, an
    expired one is dropped. *)
Lemma get_spec now k c :
  is_enabled c = true →
  let r := cache_get now k c in
  lru_cap (entries r.2) = lru_cap (entries c) ∧ ttl r.2 = ttl c ∧ max_weight r.2 = max_weight c ∧
  match assoc k (items c) with
  | None => r.1 = None ∧ items r.2 = items c
  | Some e =>
      if N.leb (ttl c) (elapsed now e) then r.1 = None ∧ items r.2 = assoc_del k (items c)
      else r.1 = Some (value e) ∧ items r.2 = (k, e) :: assoc_del k (items c)
  end.
Proof.
  intros He. cbv zeta. unfold cache_get. rewrite He, lru_peek_law. cbn [negb].
  destruct (lru_get_law _ k (entries c)) as (G1 & G2 & G3).
  destruct (lru_pop_law _ k (entries c)) as (P1 & P2 & P3).
  destruct (lru_get k (entries c)) as [g lg]. destruct (lru_pop k (entries c)) as [p lp].
  simpl in *. subst g p. destruct (assoc k (items c)) as [e|]; simpl; [|by rewrite G2].
  destruct (N.leb (ttl c) (elapsed now e)); simpl; [by rewrite P2|by rewrite G2].
Qed.

Lemma get_disabled now k c : is_enabled c = false → cache_get now k c = (None, c).
Proof. intros He. unfold cache_get. by rewrite He. Qed.

Lemma get_wf now k c : cache_wf c → cache_wf (cache_get now k c).2.
Proof.
  intros Hwf. unfold cache_get. destruct (is_enabled c); cbn [negb]; [|done]. cbv zeta.
  rewrite lru_peek_law. destruct (match assoc k (items c) with Some _ => _ | None => _ end).
  - destruct (pop_release c k _ Hwf eq_refl) as (Hwf1 & _).
    by destruct (lru_pop k (entries c)) as [[e|] l].
  - destruct (lru_get_law _ k (entries c)) as (G1 & G2 & G3). destruct Hwf as [Hw Hb Hc Hp Hn Hr].
    pose proof (weight_of_del k _ Hn) as Hd. pose proof (assoc_del_length k (items c)) as Hl.
    destruct (lru_get k (entries c)) as [g l]. simpl in *.
    destruct (assoc k (items c)) as [e|] eqn:Ea; [|split; simpl; rewrite ?G2, ?G3; done].
    assert (length (items c) = S (length (assoc_del k (items c)))) as Hlen.
    { clear -Ea Hn. induction (items c) as [|[k' e'] l IH]; [done|]. revert Ea. cbn [assoc].
      rewrite assoc_del_cons. cbn [fmap list_fmap] in Hn. apply NoDup_cons in Hn as [Hni Hnd].
      case_decide as E; intros Ea; simpl; [|by rewrite <- IH]. subst.
      by rewrite assoc_del_none by (by apply assoc_none_keys). }
    split; simpl; rewrite ?G2, ?G3; try done; simpl; try lia.
    apply NoDup_cons. split; [|by apply assoc_del_nodup].
    apply assoc_none_keys, assoc_del_absent.
Qed.

Lemma step_wf c op : cache_wf c → cache_wf (cache_step c op).
Proof.
  intros Hwf. destruct op as [now k|now k v w|k]; cbn [cache_step].
  - by apply get_wf.
  - destruct (is_enabled c) eqn:He; [|by rewrite insert_refused by auto].
    destruct (N.lt_ge_cases (max_weight c) w); [by rewrite insert_refused by auto|].
    by apply insert_spec.
  - by apply (pop_release c k).
Qed.

Lemma new_wf cap ttl max_weight :
  (0 < cap)%N → (2 * max_weight < U64_MOD)%N → cache_wf (cache_new (L:=L) (V:=V) cap ttl max_weight).
Proof.
  intros. unfold cache_new. split; simpl; rewrite ?lru_items_new, ?lru_cap_new; simpl; try done.
  - lia.
  - lia.
  - constructor.
Qed.

Lemma run_wf ops c : cache_wf c → cache_wf (cache_run ops c).
Proof.
  unfold cache_run. revert c. induction ops as [|op ops IH]; intros c Hwf; [done|].
  apply IH. by apply step_wf.
Qed.

(** C32 Whatever calls it has served, a cache holds no more entries than its
    capacity and no more weight than its budget, and the weight it has
    recorded is that of its entries: the wrapping counter never drifts. *)
Theorem cache_within_budget cap ttl max_weight (ops : list (cache_op K V)) :
  (0 < cap)%N → (2 * max_weight < U64_MOD)%N →
  let c := cache_run ops (cache_new (L:=L) cap ttl max_weight) in
  total_weight c = weight_of (items c) ∧ (weight_of (items c) <= max_weight)%N ∧
  (cache_len c <= cap)%N ∧ NoDup (items c).*1.
Proof.
  intros Hc Hm. cbv zeta. pose proof (run_wf ops _ (new_wf cap ttl max_weight Hc Hm)) as Hwf.
  assert (Cache.max_weight (cache_run ops (cache_new (L:=L) cap ttl max_weight)) = max_weight ∧
          lru_cap (entries (cache_run ops (cache_new (L:=L) cap ttl max_weight))) = cap) as [Em Ec].
  { clear Hwf. induction ops as [|op ops IH] using rev_ind; [split; [done|apply lru_cap_new]|].
    unfold cache_run in *. rewrite foldl_snoc. pose proof (run_wf ops _ (new_wf cap ttl max_weight Hc Hm)) as Hwf.
    unfold cache_run in Hwf.
    set (c := foldl cache_step _ ops) in *. clearbody c. destruct IH as [<- <-].
    destruct op as [now k|now k v w|k]; cbn [cache_step].
    - destruct (is_enabled c) eqn:He; [|by rewrite get_disabled].
      by destruct (get_spec now k c He) as (? & ? & ? & _).
    - destruct (is_enabled c) eqn:He; [|by rewrite insert_refused by auto].
      destruct (N.lt_ge_cases (Cache.max_weight c) w); [by rewrite insert_refused by auto|].
      by destruct (insert_spec now k v w c Hwf He) as (_ & _ & ? & ? & _).
    - by destruct (pop_release c k _ Hwf eq_refl) as (_ & _ & ? & _ & ?). }
  destruct Hwf as [Hw Hb Hcp _ Hn _]. rewrite Em, ?Ec in *. rewrite <- Hw.
  unfold cache_len. by rewrite lru_len_law.
Qed.

(** An accepted insertion makes its entry the most recently used, and drops
    the least recently used of the others, as few as the two bounds allow. *)
Theorem insert_evicts_lru now k v w c :
  cache_wf c → is_enabled c = true → (w <= max_weight c)%N →
  let c' := cache_insert now k v w c in
  let others := assoc_del k (items c) in
  ∃ n, items c' = (k, mkEntry v now w) :: take n others ∧ n <= length others ∧
       (n < length others →
        S n = N.to_nat (lru_cap (entries c)) ∨
        (max_weight c < w + weight_of (take (S n) others))%N).
Proof. intros. by apply insert_spec. Qed.

(** A value that fits the budget is found until its time to live has passed,
    and not after. *)
Theorem get_after_insert now now' k v w c :
  cache_wf c → is_enabled c = true → (w <= max_weight c)%N →
  (cache_get now' k (cache_insert now k v w c)).1 =
    if N.ltb (now' - now) (ttl c) then Some v else None.
Proof.
  intros Hwf He Hw. destruct (insert_spec now k v w c Hwf He Hw) as (_ & Ht & _ & _ & n & Hi & _).
  set (c' := cache_insert now k v w c) in *. clearbody c'.
  assert (is_enabled c' = true) as He' by (unfold is_enabled in *; by rewrite Ht).
  destruct (get_spec now' k c' He') as (_ & _ & _ & Hg). revert Hg.
  rewrite Hi. cbn [assoc]. rewrite decide_True by done. unfold elapsed. cbn [inserted value].
  rewrite Ht. destruct (N.leb_spec (ttl c) (now' - now)), (N.ltb_spec (now' - now) (ttl c));
    intros [-> _]; done || lia.
Qed.

(** ** Freshness *)

Lemma evict_params fuel c :
  ttl (evict fuel c) = ttl c ∧ max_weight (evict fuel c) = max_weight c.
Proof.
  revert c. induction fuel as [|fuel IH]; intros c; cbn [evict]; [done|].
  destruct (N.ltb _ _); [|done]. destruct (lru_pop_lru (entries c)) as [[[k e]|] l]; [|done].
  by destruct (IH (with_inner c l (u64_sub (total_weight c) (entry_weight e)))).
Qed.

Lemma step_params c op :
  ttl (cache_step c op) = ttl c ∧ max_weight (cache_step c op) = max_weight c.
Proof.
  destruct op as [now k|now k v w|k]; cbn [cache_step].
  - unfold cache_get. cbv zeta. repeat case_match; done.
  - unfold cache_insert. destruct (_ || _); [done|]. cbv zeta.
    match goal with |- context [evict ?f ?c1] => destruct (evict_params f c1) as [-> ->] end.
    simpl. destruct (lru_push _ _ _) as [[[k' e]|] l], (lru_pop k (entries c)) as [[e'|] l']; done.
  - unfold cache_remove. by destruct (lru_pop k (entries c)) as [[e|] l].
Qed.

Lemma run_params ops c :
  ttl (cache_run ops c) = ttl c ∧ max_weight (cache_run ops c) = max_weight c.
Proof.
  unfold cache_run. revert c. induction ops as [|op ops IH]; intros c; [done|]. cbn [foldl].
  destruct (IH (cache_step c op)) as [-> ->]. apply step_params.
Qed.

Lemma evict_subset fuel c x : x ∈ items (evict fuel c) → x ∈ items c.
Proof.
  revert c. induction fuel as [|fuel IH]; intros c; cbn [evict]; [done|].
  destruct (N.ltb _ _); [|done]. destruct (lru_pop_lru_law _ (entries c)) as (_ & H & _).
  destruct (lru_pop_lru (entries c)) as [[[k e]|] l]; simpl in H; [intros Hin%IH; simpl in Hin|simpl];
    rewrite H, removelast_take in *; [by eapply elem_of_take_inv|].
  intros Hin. by eapply elem_of_take_inv.
Qed.

Lemma insert_subset now k v w c x :
  negb (is_enabled c) || N.ltb (max_weight c) w = false →
  x ∈ items (cache_insert now k v w c) →
  x = (k, mkEntry v now w) ∨ (x.1 ≠ k ∧ x ∈ items c).
Proof.
  unfold cache_insert. intros ->. cbv zeta. intros Hin%evict_subset. simpl in Hin.
  assert (∀ l, lru_items l = assoc_del k (items c) → x ∈ lru_items (lru_push k (mkEntry v now w) l).2 →
            x = (k, mkEntry v now w) ∨ (x.1 ≠ k ∧ x ∈ items c)) as Hpush.
  { intros l Hl. destruct (lru_push_law _ k (mkEntry v now w) l) as [_ H]. rewrite Hl in H.
    rewrite assoc_del_absent in H. rewrite <- elem_of_assoc_del.
    destruct (N.ltb _ _); destruct H as [_ ->]; rewrite elem_of_cons; [done|].
    rewrite removelast_take. intros [?|?%elem_of_take_inv]; auto. }
  destruct (lru_pop_law _ k (entries c)) as (_ & H2 & _).
  destruct (lru_pop k (entries c)) as [[old|] l] eqn:El; cbn [with_inner entries snd] in *;
    apply (Hpush l H2); destruct (lru_push k _ l) as [[[k' e]|] l']; exact Hin.
Qed.

Lemma new_items cap ttl max_weight : items (cache_new (L:=L) (V:=V) cap ttl max_weight) = [].
Proof. apply lru_items_new. Qed.

(** Every entry a cache holds is what the history last stored under its key. *)
Lemma run_items cap ttl max_weight ops k e :
  ttl ≠ 0%N →
  (k, e) ∈ items (cache_run ops (cache_new (L:=L) (V:=V) cap ttl max_weight)) →
  last_write max_weight ops k = Some (value e, inserted e).
Proof.
  intros Ht. revert e. induction ops as [|op ops IH] using rev_ind; intros e.
  { unfold cache_run. cbn [foldl]. rewrite new_items. by intros ?%elem_of_nil. }
  destruct (run_params ops (cache_new (L:=L) (V:=V) cap ttl max_weight)) as [Ec1 Ec2].
  unfold last_write, cache_run in *. rewrite !foldl_snoc.
  set (c := foldl cache_step _ ops) in *. clearbody c. simpl in Ec1, Ec2.
  set (w0 := foldl _ None ops) in *. clearbody w0.
  destruct op as [now k'|now k' v w|k']; cbn [cache_step].
  - intros Hin. apply IH. revert Hin.
    assert (is_enabled c = true) as He.
    { unfold is_enabled. rewrite Ec1. by destruct (N.eqb_spec ttl 0). }
    destruct (get_spec now k' c He) as (_ & _ & _ & Hg).
    destruct (assoc k' (items c)) as [e'|] eqn:Ea; [|by destruct Hg as [_ ->]].
    destruct (N.leb _ _); destruct Hg as [_ ->]; rewrite ?elem_of_cons, elem_of_assoc_del.
    + by intros [_ ?].
    + intros [[= -> ->]|[_ ?]]; [by apply assoc_some_elem|done].
  - intros Hin. destruct (negb (is_enabled c) || N.ltb (Cache.max_weight c) w) eqn:Er.
    + rewrite insert_refused in Hin.
      2: { apply orb_true_iff in Er as [Er|Er]; [left|right].
           - by destruct (is_enabled c). - by apply N.ltb_lt. }
      apply orb_true_iff in Er as [Er|Er].
      { unfold is_enabled in Er. rewrite Ec1 in Er. by destruct (N.eqb_spec ttl 0). }
      rewrite <- Ec2, Er, andb_false_r. by apply IH.
    + destruct (insert_subset _ _ _ _ _ _ Er Hin) as [[= -> ->]|[Hne Hin']].
      * apply orb_false_iff in Er as [_ Er]. rewrite <- Ec2, Er, bool_decide_true by done. done.
      * rewrite bool_decide_false by (intros ->; by apply Hne). by apply IH.
  - unfold cache_remove. destruct (lru_pop_law _ k' (entries c)) as (_ & H2 & _). intros Hin.
    assert ((k, e) ∈ assoc_del k' (items c)) as [Hne Hin']%elem_of_assoc_del.
    { destruct (lru_pop k' (entries c)) as [[e'|] l]; simpl in *; by rewrite <- H2. }
    rewrite bool_decide_false by (intros ->; by apply Hne). by apply IH.
Qed.

(** C31 A hit returns what was last stored under the key, no older than the time
    to live: staleness is bounded, and a removed or replaced value never
    comes back. *)
Theorem cache_fresh cap ttl max_weight ops now k v :
  (cache_get now k (cache_run ops (cache_new (L:=L) (V:=V) cap ttl max_weight))).1 = Some v →
  ∃ t, last_write max_weight ops k = Some (v, t) ∧ (now - t < ttl)%N.
Proof.
  destruct (run_params ops (cache_new (L:=L) (V:=V) cap ttl max_weight)) as [Et _].
  simpl in Et. intros Hg.
  destruct (is_enabled (cache_run ops (cache_new cap ttl max_weight))) eqn:He;
    [|by rewrite get_disabled in Hg].
  assert (ttl ≠ 0%N) as Ht.
  { unfold is_enabled in He. rewrite Et in He. by destruct (N.eqb_spec ttl 0). }
  destruct (get_spec now k _ He) as (_ & _ & _ & H). rewrite Hg in H. clear Hg.
  destruct (assoc k _) as [e|] eqn:Ea; [|by destruct H].
  apply assoc_some_elem, run_items in Ea; [|done]. rewrite Et in H.
  destruct (N.leb_spec ttl (elapsed now e)); [by destruct H|]. destruct H as [[= ->] _].
  exists (inserted e). done.
Qed.

(** A zero time to live disables the cache: it stays empty and never hits. *)
Theorem cache_disabled cap max_weight ops now k :
  let c := cache_run ops (cache_new (L:=L) (V:=V) cap 0 max_weight) in
  cache_get now k c = (None, c) ∧ cache_is_empty c = true.
Proof.
  cbv zeta. destruct (run_params ops (cache_new (L:=L) (V:=V) cap 0 max_weight)) as [Et _].
  simpl in Et. split.
  { apply get_disabled. unfold is_enabled. by rewrite Et. }
  clear Et. unfold cache_is_empty, cache_len. rewrite lru_len_law.
  assert (items (cache_run ops (cache_new (L:=L) (V:=V) cap 0 max_weight)) = []) as ->; [|done].
  induction ops as [|op ops IH] using rev_ind; [apply new_items|].
  destruct (run_params ops (cache_new (L:=L) (V:=V) cap 0 max_weight)) as [Et _].
  unfold cache_run in *. rewrite foldl_snoc. set (c := foldl _ _ ops) in *. clearbody c.
  simpl in Et. assert (is_enabled c = false) as He by (unfold is_enabled; by rewrite Et).
  destruct op as [now' k'|now' k' v w|k']; cbn [cache_step].
  - by rewrite get_disabled.
  - by rewrite insert_refused by auto.
  - unfold cache_remove. destruct (lru_pop_law _ k' (entries c)) as (_ & H2 & _).
    rewrite IH in H2. destruct (lru_pop k' (entries c)) as [[e'|] l]; simpl in *; by rewrite H2.
Qed.

(** ** Predicates on the entries *)

(** A hit is an entry younger than the time to live. *)
Lemma cache_hit now k c v :
  (cache_get now k c).1 = Some v →
  ∃ e, (k, e) ∈ items c ∧ value e = v ∧ (now - inserted e < ttl c)%N.
Proof.
  destruct (is_enabled c) eqn:He; [|by rewrite get_disabled].
  destruct (get_spec now k c He) as (_ & _ & _ & H). intros Hg. rewrite Hg in H.
  destruct (assoc k (items c)) as [e|] eqn:Ea; [|by destruct H].
  destruct (N.leb_spec (ttl c) (elapsed now e)); destruct H as [[= ->] _].
  exists e. split_and!; [by apply assoc_some_elem|done..].
Qed.

Lemma get_subset now k c x : x ∈ items (cache_get now k c).2 → x ∈ items c.
Proof.
  destruct (is_enabled c) eqn:He; [|by rewrite get_disabled].
  destruct (get_spec now k c He) as (_ & _ & _ & H).
  destruct (assoc k (items c)) as [e|] eqn:Ea; [|by destruct H as [_ ->]].
  apply assoc_some_elem in Ea.
  destruct (N.leb (ttl c) _); destruct H as [_ ->]; rewrite ?elem_of_cons, elem_of_assoc_del;
    [by intros []|by intros [->|[]]].
Qed.

Lemma remove_subset k c x : x ∈ items (cache_remove k c) → x ∈ items c.
Proof.
  unfold cache_remove. destruct (lru_pop_law _ k (entries c)) as (_ & H & _).
  destruct (lru_pop k (entries c)) as [[e|] l]; simpl in *; rewrite H, elem_of_assoc_del; by intros [].
Qed.

Lemma insert_elem now k v w c x :
  x ∈ items (cache_insert now k v w c) → x = (k, mkEntry v now w) ∨ x ∈ items c.
Proof.
  destruct (negb (is_enabled c) || N.ltb (max_weight c) w) eqn:Er.
  - unfold cache_insert. rewrite Er. by right.
  - intros [->|[_ ?]]%insert_subset; auto.
Qed.

(** A well-formed cache with the parameters of [c0], all of whose entries
    satisfy [P]. *)
Record cache_ok (P : K → Entry V → Prop) (c0 c : TtlCache L V) : Prop := {
  ok_wf : cache_wf c;
  ok_ttl : ttl c = ttl c0;
  ok_budget : max_weight c = max_weight c0;
  ok_items : ∀ k e, (k, e) ∈ items c → P k e;
}.

Lemma cache_ok_mono (P P' : K → Entry V → Prop) c0 c :
  (∀ k e, P k e → P' k e) → cache_ok P c0 c → cache_ok P' c0 c.
Proof. intros HP [H1 H2 H3 H4]. split; auto. Qed.

Lemma cache_ok_get P c0 c now k : cache_ok P c0 c → cache_ok P c0 (cache_get now k c).2.
Proof.
  intros [H1 H2 H3 H4]. destruct (step_params c (OpGet now k)) as [E1 E2].
  cbn [cache_step] in E1, E2. split; [by apply get_wf|congruence..|].
  intros k' e Hin%get_subset. auto.
Qed.

Lemma cache_ok_hit P c0 c now k v :
  cache_ok P c0 c → (cache_get now k c).1 = Some v →
  ∃ e, P k e ∧ value e = v ∧ (now - inserted e < ttl c0)%N.
Proof. intros [H1 H2 H3 H4] (e & Hin & Hv & Ht)%cache_hit. exists e. rewrite <- H2. auto. Qed.

Lemma cache_ok_insert (P : K → Entry V → Prop) c0 c now k v w :
  P k (mkEntry v now w) → cache_ok P c0 c → cache_ok P c0 (cache_insert now k v w c).
Proof.
  intros HP [H1 H2 H3 H4]. destruct (step_params c (OpInsert now k v w)) as [E1 E2].
  cbn [cache_step] in E1, E2. split; [by apply (step_wf c (OpInsert now k v w))|congruence..|].
  intros k' e [[= -> ->]|Hin]%insert_elem; auto.
Qed.

Lemma cache_ok_remove P c0 c k : cache_ok P c0 c → cache_ok P c0 (cache_remove k c).
Proof.
  intros [H1 H2 H3 H4]. destruct (step_params c (OpRemove k)) as [E1 E2].
  cbn [cache_step] in E1, E2. split; [by apply (step_wf c (OpRemove k))|congruence..|].
  intros k' e Hin%remove_subset. auto.
Qed.
End cache_theorems.

(** ** A concrete least-recently-used map *)

Record list_lru (K E : Type) := mkListLru { ll_items : list (K * E); ll_cap : N }.
Arguments mkListLru {K E}.
Arguments ll_items {K E}.
Arguments ll_cap {K E}.

#[export] Instance list_lru_ops {K} `{EqDecision K} : Lru K (list_lru K) := {|
  lru_new E n := mkListLru [] n;
  lru_peek E k l := assoc k (ll_items l);
  lru_get E k l :=
    (assoc k (ll_items l),
     match assoc k (ll_items l) with
     | Some e => mkListLru ((k, e) :: assoc_del k (ll_items l)) (ll_cap l)
     | None => l
     end);
  lru_pop E k l :=
    (assoc k (ll_items l), mkListLru (assoc_del k (ll_items l)) (ll_cap l));
  lru_push E k e l :=
    match assoc k (ll_items l) with
    | Some old => (Some (k, old), mkListLru ((k, e) :: assoc_del k (ll_items l)) (ll_cap l))
    | None =>
        if N.ltb (N.of_nat (length (ll_items l))) (ll_cap l)
        then (None, mkListLru ((k, e) :: ll_items l) (ll_cap l))
        else (last (ll_items l), mkListLru ((k, e) :: removelast (ll_items l)) (ll_cap l))
    end;
  lru_pop_lru E l := (last (ll_items l), mkListLru (removelast (ll_items l)) (ll_cap l));
  lru_len E l := N.of_nat (length (ll_items l));
  lru_items E l := ll_items l;
  lru_cap E l := ll_cap l;
|}.

#[export] Instance list_lru_laws {K} `{EqDecision K} : LruLaws K (list_lru K).
Proof.
  split; try done; intros; simpl.
  - by destruct (assoc k (ll_items l)).
  - destruct (assoc k (ll_items l)); [done|]. by destruct (N.ltb _ _).
Qed.

(** ** Witnesses *)

Abbreviation demo_cache cap ttl mw := (cache_new (L:=list_lru nat) (V:=nat) cap ttl mw).

(** Three values of weight 1, 2 and 2 in a budget of 4: the last insertion
    evicts the least recently used entry. *)
Definition demo_ops : list (cache_op nat nat) :=
  [OpInsert 0 1 10 1; OpInsert 5 2 20 2; OpGet 6 1; OpInsert 7 3 30 2].

Example cache_within_budget_witness :
  let c := cache_run demo_ops (demo_cache 8 100 4) in
  total_weight c = weight_of (lru_items (entries c)) ∧
  (weight_of (lru_items (entries c)) <= 4)%N ∧
  (cache_len c <= 8)%N ∧ NoDup (lru_items (entries c)).*1.
Proof. by apply cache_within_budget. Defined.

Example demo_items :
  (lru_items (entries (cache_run demo_ops (demo_cache 8 100 4)))).*1 = [3; 1].
Proof. reflexivity. Qed.

Example insert_evicts_lru_witness :
  let c := cache_run (take 3 demo_ops) (demo_cache 8 100 4) in
  let others := assoc_del 3 (lru_items (entries c)) in
  ∃ n, lru_items (entries (cache_insert 7 3 30 2 c)) = (3, mkEntry 30 7 2) :: take n others ∧
       n <= length others ∧
       (n < length others →
        S n = N.to_nat (lru_cap (entries c)) ∨
        (max_weight c < 2 + weight_of (take (S n) others))%N).
Proof. by apply insert_evicts_lru; [apply run_wf, new_wf|..]. Defined.

Example get_after_insert_witness :
  (cache_get 50 3 (cache_insert 7 3 30 2 (cache_run (take 3 demo_ops) (demo_cache 8 100 4)))).1 =
  if N.ltb (50 - 7) 100 then Some 30 else None.
Proof. by apply get_after_insert; [apply run_wf, new_wf|..]. Defined.

Example cache_fresh_witness :
  ∃ t, last_write 4 demo_ops 1 = Some (10, t) ∧ (99 - t < 100)%N.
Proof. by apply (cache_fresh (L:=list_lru nat) 8 100 4 demo_ops 99 1 10). Defined.
