(* ===== verification/HdfsError.v ===== *)
(** Errors: [src/s3/error.rs], the denial test of [src/s3/sorted_listing.rs]
    and the uniform refusal of [src/s3/write_policy.rs].

    [HdfsError] has the variants of [hdfs_native::HdfsError] the program
    tells apart; every other variant is [OtherError]. Its [Display]
    implementation is the parameter [to_string]. *)

From S2P Require Import Prelude Bytes.

Inductive HdfsError : Type :=
| FileNotFound (what : str)
| IsADirectoryError (what : str)
| InvalidPath (what : str)
| InvalidArgumentError (what : str)
| UnsupportedFeature (what : str)
| UnsupportedErasureCodingPolicy (what : str)
| SASLError (what : str)
| GSSAPIError (what : str)
| NoSASLMechanism
| RPCError (exception message : str)
| FatalRPCError (exception message : str)
| OtherError (what : str).

(** The error codes of [s3s] the program answers with. *)
Inductive S3ErrorCode : Type :=
| NoSuchKey | NoSuchBucket | InvalidArgument | InvalidToken | InvalidRange
| NotImplemented | AccessDenied | ServiceUnavailable | InternalError
| PreconditionFailed | NotModified | SlowDown.

#[export] Instance S3ErrorCode_eq_dec : EqDecision S3ErrorCode.
Proof. solve_decision. Defined.

(** [s3s::S3Error]: what the program sets of it. *)
Record S3Error := mkS3Error {
  code : S3ErrorCode;
  message : option str;
  error_source : option HdfsError;
  error_request_id : option str;
  error_headers : option (list (str * str));
}.

Definition s3_error (code : S3ErrorCode) : S3Error := mkS3Error code None None None None.

Definition s3_error_with (code : S3ErrorCode) (message : str) : S3Error :=
  mkS3Error code (Some message) None None None.

Definition set_source (src : HdfsError) (e : S3Error) : S3Error :=
  mkS3Error (code e) (message e) (Some src) (error_request_id e) (error_headers e).

Definition is_access_denied (exception : str) : bool :=
  ends_with exception $"AccessControlException"
  || ends_with exception $"AuthorizationException"
  || ends_with exception $"AccessDeniedException"
  || ends_with exception $"PermissionDeniedException"
  || ends_with exception $"PermissionDenied".

Definition is_unavailable (exception : str) : bool :=
  ends_with exception $"StandbyException" || ends_with exception $"SafeModeException".

(** The [match] that picks the code, once the not-found family is answered. *)
Definition hdfs_error_code (err : HdfsError) : S3ErrorCode :=
  match err with
  | InvalidArgumentError _ => InvalidArgument
  | UnsupportedFeature _ | UnsupportedErasureCodingPolicy _ => NotImplemented
  | SASLError _ | GSSAPIError _ | NoSASLMechanism => AccessDenied
  | RPCError exception _ | FatalRPCError exception _ =>
      if is_access_denied exception then AccessDenied
      else if is_unavailable exception then ServiceUnavailable
      else InternalError
  | _ => InternalError
  end.

Section map_hdfs_error.
(** [impl Display for HdfsError]. *)
Context (to_string : HdfsError → str).

Definition map_hdfs_error (err : HdfsError) (expose : bool) : S3Error :=
  match err with
  | FileNotFound _ | IsADirectoryError _ | InvalidPath _ => s3_error NoSuchKey
  | _ =>
      let code := hdfs_error_code err in
      let e := if expose then s3_error_with code (to_string err) else s3_error code in
      set_source err e
  end.
End map_hdfs_error.

(** [sorted_listing::is_dir_denied]. *)
Definition is_dir_denied (err : HdfsError) : bool :=
  match err with
  | RPCError exception _ | FatalRPCError exception _ => is_access_denied exception
  | _ => false
  end.

(** [write_policy::write_denied]. *)
Definition write_denied : S3Error :=
  s3_error_with AccessDenied
    $"this gateway is read-only; write operations are not supported".

(** ** Classification *)

(** Two suffixes of one string: the shorter is a suffix of the longer. *)
Lemma ends_with_two s p q :
  ends_with s p = true → ends_with s q = true → length p <= length q → ends_with q p = true.
Proof.
  rewrite !ends_with_spec. intros [a Ha] [b Hb] Hl. subst s.
  apply app_eq_inv in Hb as [(k & E1 & E2)|(k & E1 & E2)]; subst; [by exists k|].
  rewrite length_app in Hl. destruct k; [|simpl in Hl; lia]. by exists [].
Qed.

(** No exception class is both a denial and an unavailability: the order of
    the two tests does not matter. *)
Lemma denied_not_unavailable exception :
  is_access_denied exception = true → is_unavailable exception = false.
Proof.
  unfold is_access_denied, is_unavailable. rewrite !orb_true_iff, orb_false_iff.
  intros H. split; apply not_true_iff_false; intros Hu;
    repeat match goal with H : _ ∨ _ |- _ => destruct H as [H|H] end;
    match goal with
    | H1 : ends_with exception ?p = true, H2 : ends_with exception ?q = true |- _ =>
        first [ assert (ends_with q p = true) by (apply (ends_with_two exception); [done|done|simpl; lia]); done
              | assert (ends_with p q = true) by (apply (ends_with_two exception); [done|done|simpl; lia]); done ]
    end.
Qed.

(** The conditions under which the program answers 403 for an HDFS error. *)
Definition authz_failure (err : HdfsError) : Prop :=
  match err with
  | SASLError _ | GSSAPIError _ | NoSASLMechanism => True
  | RPCError exception _ | FatalRPCError exception _ => is_access_denied exception = true
  | _ => False
  end.

Definition unavailable (err : HdfsError) : Prop :=
  match err with
  | RPCError exception _ | FatalRPCError exception _ => is_unavailable exception = true
  | _ => False
  end.

Definition not_found (err : HdfsError) : Prop :=
  match err with FileNotFound _ | IsADirectoryError _ | InvalidPath _ => True | _ => False end.

(** The code of a mapped error: [NoSuchKey] exactly for the not-found
    family, [AccessDenied] exactly for authentication and permission failures,
    [ServiceUnavailable] exactly for a standby or safe-mode NameNode. *)
Theorem map_hdfs_error_code to_string err expose :
  let c := code (map_hdfs_error to_string err expose) in
  (c = NoSuchKey ↔ not_found err) ∧
  (c = AccessDenied ↔ authz_failure err) ∧
  (c = ServiceUnavailable ↔ unavailable err).
Proof.
  cbv zeta. destruct err as [| | | | | | | | |ex ?|ex ?|], expose; simpl;
    try (destruct (is_access_denied ex) eqn:Ea;
         [rewrite (denied_not_unavailable ex Ea)|destruct (is_unavailable ex)]);
    split_and!; split; intros; done || congruence.
Qed.

(** Without [expose_upstream_errors] no text of the upstream error reaches
    the client, and with it every error that is not a missing object carries
    its text; the error itself is kept for the log in both cases. *)
Theorem map_hdfs_error_exposure to_string err expose :
  let e := map_hdfs_error to_string err expose in
  (expose = false → message e = None) ∧
  (¬ not_found err → error_source e = Some err ∧
     (expose = true → message e = Some (to_string err))).
Proof. cbv zeta. destruct err, expose; simpl; intuition congruence. Qed.

(** A directory the flat listing would skip as unreadable is, as the start of
    a listing, answered with 403; a failure to authenticate is not skipped. *)
Theorem dir_denied_code to_string err expose :
  is_dir_denied err = true →
  code (map_hdfs_error to_string err expose) = AccessDenied ∧
  ¬ not_found err ∧
  match err with SASLError _ | GSSAPIError _ | NoSASLMechanism => False | _ => True end.
Proof. destruct err, expose; simpl; intros H; try done; rewrite H; intuition. Qed.

Example dir_denied_code_witness :
  code (map_hdfs_error (λ _, [])
          (RPCError $"org.apache.hadoop.security.AccessControlException" $"d") true)
    = AccessDenied.
Proof.
  apply (dir_denied_code (λ _, [])
    (RPCError $"org.apache.hadoop.security.AccessControlException" $"d") true). reflexivity.
Defined.
