(* ===== verification/Backpressure.v ===== *)
(** The cap on requests in flight: [src/s3/backpressure.rs].

    A request is admitted with a permit of a shared semaphore, refused with
    [503 SlowDown] when there is none, and holds its permit until its response
    body has ended or has been dropped. [tokio]'s semaphore is the interface
    [Semaphore] with the laws [SemaphoreLaws]; the wrapped service and its
    bodies are parameters. [bp_run] interleaves the exchanges of any number
    of clients: an event is one arrival, one answer of the wrapped service,
    one poll of a body, or one drop. *)

From S2P Require Import Prelude Config HdfsError.

(** ** [tokio::sync::Semaphore] *)

Class Semaphore (Sem : Type) := {
  sem_new : N → Sem;
  (* [try_acquire_owned], on a semaphore that is never closed *)
  try_acquire : Sem → option Sem;
  (* [impl Drop for OwnedSemaphorePermit] *)
  drop_permit : Sem → Sem;
  permits : Sem → N;
  (* [Semaphore::MAX_PERMITS] *)
  max_permits : N;
}.

Class SemaphoreLaws (Sem : Type) `{!Semaphore Sem} : Prop := {
  permits_new : ∀ n, (n ≤ max_permits)%N → permits (sem_new n) = n;
  try_acquire_none : ∀ s, try_acquire s = None ↔ permits s = 0%N;
  try_acquire_some : ∀ s s', try_acquire s = Some s' → permits s = (permits s' + 1)%N;
  permits_drop : ∀ s, (permits s < max_permits)%N → permits (drop_permit s) = (permits s + 1)%N;
}.

(** [std::task::Poll]. *)
Inductive Poll (A : Type) : Type :=
| Ready (a : A)
| Pending.
Arguments Ready {A}.
Arguments Pending {A}.

Section backpressure.
Context {Sem : Type} `{!Semaphore Sem}.
(** [s3s::Body], its frames and their errors; what else a response holds. *)
Context {Body Frame FrameError Head HttpError : Type}.
(** [<Body as http_body::Body>::poll_frame]. *)
Context (body_poll : Body → Poll (option (result Frame FrameError)) * Body).
(** [S3Error::to_http_response], and a response of a bare status code. *)
Context (empty_body : Body) (status_head : N → Head).

Record HttpResponse (B : Type) := mkHttpResponse {
  resp_head : Head;
  resp_body : B;
}.
Arguments mkHttpResponse {B}.
Arguments resp_head {B}.
Arguments resp_body {B}.

Context (to_http_response : S3Error → result (HttpResponse Body) HttpError).

(** ** The body that holds a permit *)

Record PermitBody := mkPermitBody {
  pb_inner : Body;
  pb_permit : option unit;
}.

Definition new_permit_body (inner : Body) : PermitBody := mkPermitBody inner (Some tt).

(** [self.permit = None]: the permit, if there is one, is dropped. *)
Definition release (b : PermitBody) (sem : Sem) : PermitBody * Sem :=
  (mkPermitBody (pb_inner b) None,
   match pb_permit b with Some _ => drop_permit sem | None => sem end).

Definition poll_frame (b : PermitBody) (sem : Sem) :
    Poll (option (result Frame FrameError)) * (PermitBody * Sem) :=
  let '(result, inner) := body_poll (pb_inner b) in
  let this := mkPermitBody inner (pb_permit b) in
  (result, match result with Ready None => release this sem | _ => (this, sem) end).

Definition drop_body (b : PermitBody) (sem : Sem) : Sem := (release b sem).2.

Section hints.
(** The other methods of [http_body::Body]. *)
Context {SizeHint : Type} (body_is_end : Body → bool) (body_size : Body → SizeHint).

Definition is_end_stream (b : PermitBody) : bool := body_is_end (pb_inner b).
Definition size_hint (b : PermitBody) : SizeHint := body_size (pb_inner b).

(** The wrapper does not show: to the connection it is the body inside. *)
Lemma permit_body_transparent b sem :
  let '(r, inner) := body_poll (pb_inner b) in
  let '(r', (b', _)) := poll_frame b sem in
  r' = r ∧ pb_inner b' = inner ∧ is_end_stream b' = body_is_end inner ∧ size_hint b' = body_size inner.
Proof using Type.
  unfold poll_frame. destruct (body_poll (pb_inner b)) as [r inner]. by destruct r as [[|]|].
Qed.
End hints.

(** ** The service *)

Definition bp_new (max_concurrent : N) : Sem := sem_new (N.max max_concurrent 1).

(** The layer [build_service] adds. *)
Definition bp_service (config : Config) : Sem := bp_new (max_concurrent_requests config).

Definition slow_down_response : HttpResponse Body :=
  match to_http_response
          (s3_error_with SlowDown $"too many requests in flight; please retry later") with
  | Ok resp => resp
  | Err _ => mkHttpResponse (status_head 503) empty_body
  end.

(** Where a request is: refused, in the wrapped service, answered and sending
    its body, failed, or over. *)
Inductive Exchange : Type :=
| Refused (resp : HttpResponse Body)
| Handling
| Sending (resp : HttpResponse PermitBody)
| Failed (e : HttpError)
| Gone.

(** [Service::call]: the admission. *)
Definition bp_call (sem : Sem) : Exchange * Sem :=
  match try_acquire sem with
  | Some sem => (Handling, sem)
  | None => (Refused slow_down_response, sem)
  end.

(** The rest of the admitted future, once the wrapped service has answered: the
    permit moves into the body, or is dropped with the future. *)
Definition bp_answer (r : result (HttpResponse Body) HttpError) (sem : Sem) : Exchange * Sem :=
  match r with
  | Ok resp => (Sending (mkHttpResponse (resp_head resp) (new_permit_body (resp_body resp))), sem)
  | Err e => (Failed e, drop_permit sem)
  end.

(** The drop of what is left of an exchange. *)
Definition bp_drop (x : Exchange) (sem : Sem) : Sem :=
  match x with
  | Handling => drop_permit sem
  | Sending resp => drop_body (resp_body resp) sem
  | _ => sem
  end.

(** ** Interleavings *)

Inductive bp_event : Type :=
| Arrive
| Answer (i : nat) (r : result (HttpResponse Body) HttpError)
| PollBody (i : nat)
| DropExchange (i : nat).

(** One event; one that does not apply to the exchange is not a step. *)
Definition bp_step (c : Sem * list Exchange) (ev : bp_event) : Sem * list Exchange :=
  let '(sem, xs) := c in
  match ev with
  | Arrive => let '(x, sem) := bp_call sem in (sem, xs ++ [x])
  | Answer i r =>
      match xs !! i with
      | Some Handling => let '(x, sem) := bp_answer r sem in (sem, <[i := x]> xs)
      | _ => (sem, xs)
      end
  | PollBody i =>
      match xs !! i with
      | Some (Sending resp) =>
          let '(b, sem) := (poll_frame (resp_body resp) sem).2 in
          (sem, <[i := Sending (mkHttpResponse (resp_head resp) b)]> xs)
      | _ => (sem, xs)
      end
  | DropExchange i =>
      match xs !! i with
      | Some x => (bp_drop x sem, <[i := Gone]> xs)
      | None => (sem, xs)
      end
  end.

Definition bp_run (config : Config) (evs : list bp_event) : Sem * list Exchange :=
  foldl bp_step (bp_service config, []) evs.

(** ** The permits held *)

Definition holds (x : Exchange) : N :=
  match x with
  | Handling => 1
  | Sending resp => match pb_permit (resp_body resp) with Some _ => 1 | None => 0 end
  | _ => 0
  end.

Definition in_flight (xs : list Exchange) : N := foldr (λ x n, (holds x + n)%N) 0%N xs.

(** A client reading one body: the results of [n] polls. *)
Fixpoint poll_body (n : nat) (b : PermitBody) (sem : Sem) :
    list (Poll (option (result Frame FrameError))) * (PermitBody * Sem) :=
  match n with
  | 0 => ([], (b, sem))
  | S n =>
      let '(r, (b, sem)) := poll_frame b sem in
      let '(rs, c) := poll_body n b sem in (r :: rs, c)
  end.

Fixpoint poll_inner (n : nat) (b : Body) : list (Poll (option (result Frame FrameError))) * Body :=
  match n with
  | 0 => ([], b)
  | S n => let '(r, b) := body_poll b in let '(rs, b) := poll_inner n b in (r :: rs, b)
  end.

Definition is_end (r : Poll (option (result Frame FrameError))) : bool :=
  match r with Ready None => true | _ => false end.

Lemma holds_le x : (holds x ≤ 1)%N.
Proof. destruct x as [| |resp| |]; cbn [holds]; try lia. destruct (pb_permit _); lia. Qed.

Lemma in_flight_cons x xs : in_flight (x :: xs) = (holds x + in_flight xs)%N.
Proof. done. Qed.

Lemma in_flight_app xs ys : in_flight (xs ++ ys) = (in_flight xs + in_flight ys)%N.
Proof.
  induction xs as [|x xs IH]; [done|]. rewrite <- app_comm_cons, !in_flight_cons, IH. lia.
Qed.

(** Replacing an exchange changes the count by the permits of the two. *)
Lemma in_flight_insert xs i x y :
  xs !! i = Some x → (in_flight (<[i := y]> xs) + holds x = in_flight xs + holds y)%N.
Proof.
  revert i. induction xs as [|z xs IH]; intros [|i] Hi; try done.
  - injection Hi as ->. change (<[0 := y]> (x :: xs)) with (y :: xs). rewrite !in_flight_cons. lia.
  - change (<[S i := y]> (z :: xs)) with (z :: <[i := y]> xs). rewrite !in_flight_cons.
    specialize (IH i Hi). lia.
Qed.

(** ** Every permit is accounted for *)

Context `{!SemaphoreLaws Sem}.

(** The permit a body holds. *)
Definition body_permit (b : PermitBody) : N :=
  match pb_permit b with Some _ => 1 | None => 0 end.

(** A release moves the permit of the body to the semaphore. *)
Lemma release_permits b sem :
  (permits sem + body_permit b ≤ max_permits)%N →
  permits (release b sem).2 = (permits sem + body_permit b)%N ∧ body_permit (release b sem).1 = 0%N.
Proof.
  unfold release, body_permit. destruct (pb_permit b); cbn [fst snd pb_permit]; intros H.
  - split; [|done]. apply permits_drop. lia.
  - split; [lia|done].
Qed.

Lemma poll_frame_permits b sem r b' sem' :
  poll_frame b sem = (r, (b', sem')) → (permits sem + body_permit b ≤ max_permits)%N →
  (permits sem' + body_permit b' = permits sem + body_permit b)%N ∧
  body_permit b' = (if is_end r then 0 else body_permit b)%N.
Proof.
  unfold poll_frame. destruct (body_poll (pb_inner b)) as [res inner]. intros [= <- E] Hle.
  pose proof (release_permits (mkPermitBody inner (pb_permit b)) sem Hle) as [H1 H2].
  destruct res as [[a|]|]; cbn [is_end]; [by injection E as <- <-| |by injection E as <- <-].
  destruct (release _ sem) as [c s]. injection E as <- <-. cbn [fst snd] in *.
  rewrite H1, H2. unfold body_permit. cbn [pb_permit]. lia.
Qed.

(** Every event keeps the total. *)
Lemma bp_step_accounted cap c ev :
  (cap ≤ max_permits)%N → (permits c.1 + in_flight c.2 = cap)%N →
  (permits (bp_step c ev).1 + in_flight (bp_step c ev).2 = cap)%N.
Proof.
  intros Hcap Hc. destruct c as [sem xs]. cbn [fst snd] in Hc. destruct ev as [|i r|i|i]; cbn [bp_step].
  - unfold bp_call. destruct (try_acquire sem) as [sem'|] eqn:E; cbn [fst snd];
      rewrite in_flight_app, in_flight_cons; cbn [holds];
      change (in_flight []) with 0%N; [apply try_acquire_some in E|]; lia.
  - destruct (xs !! i) as [[| | | |]|] eqn:E; try done. pose proof (in_flight_insert xs i _
      (bp_answer r sem).1 E) as Hi. destruct r as [resp|e]; cbn [bp_answer fst snd holds] in *.
    + cbn [resp_body new_permit_body pb_permit] in Hi. lia.
    + rewrite permits_drop by lia. lia.
  - destruct (xs !! i) as [[| |resp| |]|] eqn:E; try done.
    destruct (poll_frame (resp_body resp) sem) as [r [b sem']] eqn:Ep. cbn [fst snd].
    pose proof (in_flight_insert xs i _ (Sending (mkHttpResponse (resp_head resp) b)) E) as Hi.
    pose proof (in_flight_insert xs i _ Gone E) as Hg. cbn [holds resp_body] in Hi, Hg.
    fold (body_permit (resp_body resp)) in Hi, Hg. fold (body_permit b) in Hi.
    apply poll_frame_permits in Ep as [Hp _]; lia.
  - destruct (xs !! i) as [x|] eqn:E; [|done]. pose proof (in_flight_insert xs i _ Gone E) as Hi.
    destruct x as [|  |resp| |]; cbn [bp_drop holds fst snd] in *; try lia.
    + rewrite permits_drop by lia. lia.
    + fold (body_permit (resp_body resp)) in Hi. unfold drop_body.
      rewrite (proj1 (release_permits (resp_body resp) sem ltac:(lia))). lia.
Qed.

Lemma bp_run_accounted config evs :
  (N.max (max_concurrent_requests config) 1 ≤ max_permits)%N →
  (permits (bp_run config evs).1 + in_flight (bp_run config evs).2 =
     N.max (max_concurrent_requests config) 1)%N.
Proof.
  intros Hcap. unfold bp_run, bp_service, bp_new. induction evs as [|ev evs IH] using rev_ind.
  - cbn [foldl fst snd in_flight foldr]. rewrite permits_new by done. lia.
  - rewrite foldl_app. cbn [foldl]. by apply bp_step_accounted.
Qed.

(** An exchange that still occupies a slot: in the wrapped service, or sending a
    body whose end has not been polled. *)
Definition occupies (x : Exchange) : Prop :=
  match x with
  | Handling => True
  | Sending resp => pb_permit (resp_body resp) ≠ None
  | _ => False
  end.

Lemma holds_occupies x : occupies x ↔ holds x = 1%N.
Proof. destruct x as [| |resp| |]; cbn [occupies holds]; try done. by destruct (pb_permit _). Qed.

Lemma in_flight_zero xs : Forall (λ x, ¬ occupies x) xs → in_flight xs = 0%N.
Proof.
  induction 1 as [|x xs Hx _ IH]; [done|]. rewrite in_flight_cons, IH.
  destruct x as [| |resp| |]; cbn [occupies holds] in *; try lia.
  destruct (pb_permit _); [|lia]. by destruct Hx.
Qed.

(** C15 However many requests arrive, answer, stream and disconnect, no more are
    in flight than configured; one that arrives is refused, with 503, exactly
    when that many are; and once none occupies a slot every slot is free. *)
Theorem in_flight_bounded config evs :
  (1 ≤ max_concurrent_requests config ≤ max_permits)%N →
  (in_flight (bp_run config evs).2 ≤ max_concurrent_requests config)%N ∧
  (bp_call (bp_run config evs).1).1 =
    (if N.eqb (in_flight (bp_run config evs).2) (max_concurrent_requests config)
     then Refused slow_down_response else Handling) ∧
  (Forall (λ x, ¬ occupies x) (bp_run config evs).2 →
     permits (bp_run config evs).1 = max_concurrent_requests config).
Proof.
  intros [H1 H2]. pose proof (bp_run_accounted config evs) as Ha.
  rewrite N.max_l in Ha by done. specialize (Ha H2).
  destruct (bp_run config evs) as [sem xs]. cbn [fst snd] in *.
  split_and!; [lia| |intros Hf; rewrite (in_flight_zero _ Hf) in Ha; lia].
  unfold bp_call. destruct (try_acquire sem) as [sem'|] eqn:E; cbn [fst].
  - apply try_acquire_some in E. destruct (N.eqb_spec (in_flight xs) (max_concurrent_requests config));
      [lia|done].
  - apply try_acquire_none in E. destruct (N.eqb_spec (in_flight xs) (max_concurrent_requests config));
      [done|lia].
Qed.

(** The polls of a body, and where its permit is after them. *)
Lemma poll_body_permits n b sem :
  (permits sem + body_permit b ≤ max_permits)%N →
  let '(rs, (b', sem')) := poll_body n b sem in
  (rs, pb_inner b') = poll_inner n (pb_inner b) ∧
  permits sem' = (permits sem + if existsb is_end rs then body_permit b else 0)%N ∧
  body_permit b' = (if existsb is_end rs then 0 else body_permit b)%N.
Proof.
  revert b sem. induction n as [|n IH]; intros b sem Hle; cbn [poll_body poll_inner existsb];
    [split_and!; [done|lia|done]|].
  destruct (poll_frame b sem) as [r [b1 sem1]] eqn:E.
  assert (body_poll (pb_inner b) = (r, pb_inner b1)) as ->.
  { unfold poll_frame in E. destruct (body_poll (pb_inner b)) as [res inner].
    by destruct res as [[a|]|]; injection E as <- <- <-. }
  destruct (poll_frame_permits _ _ _ _ _ E Hle) as [Hp Hb]. specialize (IH b1 sem1).
  destruct (poll_body n b1 sem1) as [rs [b2 sem2]]. destruct IH as (I1 & I2 & I3); [lia|].
  rewrite <- I1. cbn [existsb]. split; [done|]. rewrite I2, I3, Hb in *.
  destruct (is_end r), (existsb is_end rs); cbn [orb]; split; lia.
Qed.

(** A response body passes on what the inner body yields, and gives its permit
    back once: at the first end of the stream, and otherwise when dropped. *)
Theorem permit_until_end n inner sem :
  (permits sem < max_permits)%N →
  let '(rs, (b, sem')) := poll_body n (new_permit_body inner) sem in
  (rs, pb_inner b) = poll_inner n inner ∧
  permits sem' = (permits sem + if existsb is_end rs then 1 else 0)%N ∧
  permits (drop_body b sem') = (permits sem + 1)%N.
Proof.
  intros Hlt. assert (body_permit (new_permit_body inner) = 1%N) as E1 by done.
  pose proof (poll_body_permits n (new_permit_body inner) sem) as Hall. rewrite E1 in Hall.
  destruct (poll_body n _ sem) as [rs [b sem']]. destruct Hall as (H1 & H2 & H3); [lia|].
  split_and!; [done|done|]. unfold drop_body. rewrite (proj1 (release_permits b sem' ltac:(
    rewrite H2, H3; destruct (existsb is_end rs); lia))). rewrite H2, H3.
  destruct (existsb is_end rs); lia.
Qed.
End backpressure.

(** ** The laws can hold: a counter *)

#[export] Instance counter_semaphore : Semaphore N := {|
  sem_new n := n;
  try_acquire s := if N.eqb s 0 then None else Some (s - 1)%N;
  drop_permit s := (s + 1)%N;
  permits s := s;
  max_permits := (2 ^ 61 - 1)%N;
|}.

#[export] Instance counter_laws : SemaphoreLaws N.
Proof.
  split; cbn; [done| |  |done].
  - intros s. destruct (N.eqb_spec s 0); naive_solver.
  - intros s s'. destruct (N.eqb_spec s 0); intros; simplify_eq. lia.
Qed.

(** A body is the list of the polls that are left. *)
Definition demo_poll (b : list (Poll (option (result str unit)))) :
    Poll (option (result str unit)) * list (Poll (option (result str unit))) :=
  match b with [] => (Ready None, []) | r :: b => (r, b) end.

Definition demo_response : @HttpResponse N (list (Poll (option (result str unit)))) :=
  mkHttpResponse _ 200%N [Ready (Some (Ok $"chunk")); Pending].

Definition two_slots : Config := {|
  namenode_uri := $"hdfs://nn"; hdfs_root := $"/data"; bucket_name := $"hdfs";
  listen_addr := default_listen_addr; max_concurrent_requests := 2;
  expose_upstream_errors := false; hdfs_options := ∅; hdfs_config_dir := None; hdfs_user := None;
  cache := default_cache_config; auth_secret := None |}.

(** Two requests fill the slots and the third is refused; the first frees its
    slot when its body ends, the second when its client disconnects. *)
Definition demo_events : list (bp_event (Head:=N) (HttpError:=unit)) :=
  [Arrive; Arrive; Arrive; Answer 0 (Ok demo_response); PollBody 0; PollBody 0; PollBody 0;
   Arrive; DropExchange 1].

Definition demo_run (n : nat) :=
  bp_run (Sem:=N) demo_poll [] id (λ _, Err tt) two_slots (take n demo_events).

Example demo_in_flight :
  map (λ n, (in_flight (demo_run n).2, (demo_run n).1)) (seq 0 10) =
  [(0, 2); (1, 1); (2, 0); (2, 0); (2, 0); (2, 0); (2, 0); (1, 1); (2, 0); (1, 1)]%N.
Proof. vm_compute. reflexivity. Qed.

Lemma in_flight_bounded_witness :
  (in_flight (demo_run 9).2 ≤ 2)%N ∧
  (bp_call (Body:=list (Poll (option (result str unit)))) (Head:=N) (HttpError:=unit)
     [] id (λ _, Err tt) (demo_run 9).1).1 = Handling.
Proof.
  pose proof (in_flight_bounded demo_poll [] id (λ _, Err tt) two_slots demo_events) as H.
  change (bp_run _ _ _ _ _ demo_events) with (demo_run 9) in H.
  destruct H as (H1 & H2 & _); [vm_compute; split; discriminate|].
  split; [exact H1|]. etransitivity; [exact H2|]. vm_compute. reflexivity.
Defined.

Lemma permit_until_end_witness :
  let '(rs, (b, sem)) := poll_body (Sem:=N) demo_poll 3 (new_permit_body (resp_body _ demo_response)) 0%N in
  rs = [Ready (Some (Ok $"chunk")); Pending; Ready None] ∧ sem = 1%N ∧ drop_body b sem = 1%N.
Proof.
  pose proof (permit_until_end demo_poll 3 (resp_body _ demo_response) (0 : N)) as H.
  destruct (poll_body _ _ _ _) as [rs [b sem]]. destruct H as (H1 & H2 & H3); [vm_compute; reflexivity|].
  vm_compute in H1. injection H1 as -> _. cbn in H2. subst sem. split_and!; [done|done|]. exact H3.
Defined.
