(* ===== verification/Listing.v ===== *)
(** Listing translation: [src/core/listing.rs].

    The collapse of keys into [Contents] and [CommonPrefixes], pagination in
    its general form ([paginate]) and in the logarithmic form for the
    delimiter [/] ([paginate_slash]), the comparators of directory output
    keys, and continuation tokens. The base64 engines are parameters. *)

From S2P Require Import Prelude Bytes.

Record ListEntry := mkListEntry {
  key : str;
  size : N;
  modification_time : N;
}.

#[export] Instance ListEntry_eq_dec : EqDecision ListEntry.
Proof. solve_decision. Defined.

Record DirListing := mkDirListing {
  files : list ListEntry;
  dirs : list str;
}.

Definition empty_listing : DirListing := mkDirListing [] [].

(** ** Common prefixes *)

(** [BTreeSet<String>] as its elements in order. *)
Definition CommonPrefixSet : Type := list str.

(** [CommonPrefixSet::insert]. *)
Fixpoint prefix_insert (prefix : str) (s : CommonPrefixSet) : CommonPrefixSet :=
  match s with
  | [] => [prefix]
  | p :: s' =>
      match str_cmp prefix p with
      | Lt => prefix :: p :: s'
      | Eq => p :: s'
      | Gt => p :: prefix_insert prefix s'
      end
  end.

(** [CommonPrefixSet::into_vec]. *)
Definition into_vec (s : CommonPrefixSet) : list str := s.

(** The body of the loop of [list_to_contents]. *)
Definition list_to_contents_step (prefix : str) (delimiter : option str)
    (acc : list ListEntry * CommonPrefixSet) (entry : ListEntry) :
    list ListEntry * CommonPrefixSet :=
  let '(contents, common) := acc in
  if negb (starts_with (key entry) prefix) then (contents, common)
  else
    let rest := drop (length prefix) (key entry) in
    match delimiter with
    | Some delim =>
        match find_str rest delim with
        | Some idx =>
            (contents, prefix_insert (prefix ++ take (idx + length delim) rest) common)
        | None => (contents ++ [entry], common)
        end
    | None => (contents ++ [entry], common)
    end.

Definition list_to_contents (entries : list ListEntry) (prefix : str)
    (delimiter : option str) : list ListEntry * CommonPrefixSet :=
  let delimiter := match delimiter with
                   | Some d => if bool_decide (d = []) then None else Some d
                   | None => None
                   end in
  foldl (list_to_contents_step prefix delimiter) ([], []) entries.

(** ** Pagination *)

Record Page := mkPage {
  contents : list ListEntry;
  common_prefixes : list str;
  is_truncated : bool;
  next_token : option str;
}.

Definition empty_page : Page := mkPage [] [] false None.

Definition cmp_entry (a b : ListEntry) : comparison := str_cmp (key a) (key b).

(** The common prefix of a directory, for the delimiter [/]. *)
Definition dir_common_prefix (prefix dir : str) : str :=
  let rest := drop (length prefix) dir in
  match find_str rest [slash] with
  | Some i => prefix ++ take (i + 1) rest
  | None => dir ++ [slash]
  end.

(** The first half of [paginate]: everything the listing outputs, sorted. *)
Definition listing_outputs (files : list ListEntry) (dirs : list str) (prefix : str)
    (delimiter : option str) : list ListEntry * list str :=
  let '(contents, common) := list_to_contents files prefix delimiter in
  let common_vec := into_vec common in
  let common_vec :=
    if bool_decide (delimiter = Some [slash]) then
      common_vec ++ map (dir_common_prefix prefix)
                        (List.filter (λ dir, starts_with dir prefix) dirs)
    else common_vec in
  (sort_by cmp_entry contents, dedup (sort_by str_cmp common_vec)).

(** [key > marker], when there is a marker. *)
Definition after_marker (marker : option str) (k : str) : bool :=
  match marker with
  | None => true
  | Some m => match str_cmp k m with Gt => true | _ => false end
  end.

Definition paginate (files : list ListEntry) (dirs : list str) (prefix : str)
    (delimiter : option str) (marker : option str) (max_keys : N) : Page :=
  if N.eqb max_keys 0 then empty_page
  else
    let '(contents, common_vec) := listing_outputs files dirs prefix delimiter in
    let contents := List.filter (λ e, after_marker marker (key e)) contents in
    let common_vec := List.filter (after_marker marker) common_vec in
    let all_keys := sort_by str_cmp (map key contents ++ common_vec) in
    let take_n := N.to_nat (N.min max_keys (N.of_nat (length all_keys))) in
    let page := take take_n all_keys in
    let is_truncated := bool_decide (take_n < length all_keys) in
    {| contents := List.filter (λ e, bool_decide (key e ∈ page)) contents;
       common_prefixes := List.filter (λ p, bool_decide (p ∈ page)) common_vec;
       is_truncated := is_truncated;
       next_token := if is_truncated then last page else None |}.

(** ** Comparators of directory output keys *)

(** An index the guards keep in range; [None] stands for the panic. *)
Definition cmp_dir_output (dir other : str) : comparison :=
  let common := min (length dir) (length other) in
  match str_cmp (take common dir) (take common other) with
  | Eq =>
      if bool_decide (length other <= length dir) then Gt
      else match other !! length dir with
           | Some c =>
               match byte_cmp slash c with
               | Eq => if bool_decide (length other = length dir + 1) then Eq else Lt
               | o => o
               end
           | None => Eq
           end
  | o => o
  end.

Definition cmp_dir_keys (a b : str) : comparison :=
  let common := min (length a) (length b) in
  match str_cmp (take common a) (take common b) with
  | Eq =>
      if bool_decide (length a = length b) then Eq
      else if bool_decide (length a < length b) then
        match b !! length a with
        | Some c => match byte_cmp slash c with Eq => Lt | o => o end
        | None => Eq
        end
      else
        match a !! length b with
        | Some c => match byte_cmp c slash with Eq => Gt | o => o end
        | None => Eq
        end
  | o => o
  end.

Definition cmp_file_dir (file dir : str) : comparison := CompOpp (cmp_dir_output dir file).

Definition dir_output_starts_with (dir prefix : str) : bool :=
  if bool_decide (length prefix <= length dir) then starts_with dir prefix
  else bool_decide (length prefix = length dir + 1) && starts_with prefix dir
       && bool_decide (prefix !! length dir = Some slash).

(** ** Pagination for the delimiter [/] *)

(** The loop that drops files outside the prefix range; its fuel is the
    number of files, which each turn decreases or exhausts. *)
Fixpoint skip_files (fuel : nat) (files : list ListEntry) (prefix : str) (fi : nat) : nat :=
  match fuel with
  | 0 => fi
  | S fuel =>
      match files !! fi with
      | None => fi
      | Some f =>
          if starts_with (key f) prefix then fi
          else match str_cmp (key f) prefix with
               | Gt => skip_files fuel files prefix (length files)
               | _ => skip_files fuel files prefix (S fi)
               end
      end
  end.

Fixpoint skip_dirs (fuel : nat) (dirs : list str) (prefix : str) (di : nat) : nat :=
  match fuel with
  | 0 => di
  | S fuel =>
      match dirs !! di with
      | None => di
      | Some d =>
          if dir_output_starts_with d prefix then di
          else match cmp_dir_output d prefix with
               | Gt => skip_dirs fuel dirs prefix (length dirs)
               | _ => skip_dirs fuel dirs prefix (S di)
               end
      end
  end.

(** The variables of the merge loop. *)
Record SlashState := mkSlashState {
  st_contents : list ListEntry;
  st_prefixes : list str;
  st_last_key : option str;
}.

Definition finish_page (st : SlashState) (is_truncated : bool) : Page :=
  {| contents := st_contents st;
     common_prefixes := st_prefixes st;
     is_truncated := is_truncated;
     next_token := if is_truncated then st_last_key st else None |}.

(** The merge loop; each turn emits a file or a directory. *)
Fixpoint slash_loop (fuel : nat) (files : list ListEntry) (dirs : list str)
    (prefix : str) (max_keys : N) (fi di : nat) (st : SlashState) : option Page :=
  match fuel with
  | 0 => None
  | S fuel =>
      let fi := skip_files (length files) files prefix fi in
      let di := skip_dirs (length dirs) dirs prefix di in
      let full := N.eqb (N.of_nat (length (st_contents st) + length (st_prefixes st)))
                        max_keys in
      let take_file f :=
        slash_loop fuel files dirs prefix max_keys (S fi) di
          (mkSlashState (st_contents st ++ [f]) (st_prefixes st) (Some (key f))) in
      let take_dir d :=
        slash_loop fuel files dirs prefix max_keys fi (S di)
          (mkSlashState (st_contents st) (st_prefixes st ++ [d ++ [slash]])
             (Some (d ++ [slash]))) in
      match files !! fi, dirs !! di with
      | None, None => Some (finish_page st false)
      | Some f, Some d =>
          if full then Some (finish_page st true)
          else match cmp_dir_output d (key f) with
               | Gt => take_file f
               | _ => take_dir d
               end
      | Some f, None => if full then Some (finish_page st true) else take_file f
      | None, Some d => if full then Some (finish_page st true) else take_dir d
      end
  end.

(** The lower bounds of the two streams. *)
Definition slash_start (files : list ListEntry) (dirs : list str) (prefix : str)
    (marker : option str) : nat * nat :=
  let fi := partition_point (λ f, bool_decide (str_cmp (key f) prefix = Lt)) files in
  let di := partition_point (λ d, bool_decide (cmp_dir_output d prefix = Lt)) dirs in
  match marker with
  | Some marker =>
      (fi `max` partition_point (λ f, bool_decide (str_cmp (key f) marker ≠ Gt)) files,
       di `max` partition_point (λ d, bool_decide (cmp_dir_output d marker ≠ Gt)) dirs)
  | None => (fi, di)
  end.

(** [paginate_slash]. Fuel one beyond the number of outputs is enough:
    [paginate_slash_equiv] has no hypothesis on it. *)
Definition paginate_slash (files : list ListEntry) (dirs : list str) (prefix : str)
    (marker : option str) (max_keys : N) : option Page :=
  if N.eqb max_keys 0 then Some empty_page
  else
    let '(fi, di) := slash_start files dirs prefix marker in
    slash_loop (S (length files + length dirs)) files dirs prefix max_keys fi di
      (mkSlashState [] [] None).

(** ** Continuation tokens *)

(** The base64 engines of the [base64] crate. *)
Class Base64 := {
  url_encode : str → str;
  url_decode : str → option str;
  std_encode : str → str;
  std_decode : str → option str;
}.

(** Decoding inverts encoding, and the URL-safe engine never decodes a
    padded-alphabet token to other bytes: the alphabets differ in two
    characters, and neither accepts the other's. *)
Class Base64Laws `{Base64} : Prop := {
  url_roundtrip : ∀ b, url_decode (url_encode b) = Some b;
  std_roundtrip : ∀ b, std_decode (std_encode b) = Some b;
  url_std_agree : ∀ b b', url_decode (std_encode b) = Some b' → b' = b;
}.

Definition encode_token `{Base64} (last_key : str) : str := url_encode last_key.

Definition decode_token `{Base64} (token : str) : option str :=
  match (match url_decode token with
         | Some b => Some b
         | None => std_decode token
         end) with
  | Some bytes => if utf8_valid bytes then Some bytes else None
  | None => None
  end.

(** ** The comparators compare output keys *)

Lemma cmp_dir_output_cons x d y o :
  cmp_dir_output (x :: d) (y :: o) =
  match byte_cmp x y with Eq => cmp_dir_output d o | c => c end.
Proof.
  unfold cmp_dir_output. cbn [length min take str_cmp]. destruct (byte_cmp x y); [|done..].
  destruct (str_cmp _ _); [|done..].
  rewrite (bool_decide_ext (S (length o) <= S (length d)) (length o <= length d)) by lia.
  cbn [lookup list_lookup]. destruct (bool_decide _); [done|].
  destruct (o !! length d); [|done]. destruct (byte_cmp slash _); [|done..].
  by rewrite (bool_decide_ext (S (length o) = S (length d) + 1) (length o = length d + 1)) by lia.
Qed.

Lemma cmp_dir_output_str d o : cmp_dir_output d o = str_cmp (d ++ [slash]) o.
Proof.
  revert o. induction d as [|x d IH]; intros [|y o]; [done| |done|].
  - unfold cmp_dir_output. cbn [length min take str_cmp app].
    rewrite bool_decide_eq_false_2 by (simpl; lia). cbn [lookup list_lookup].
    destruct (byte_cmp slash y); [|done..]. by destruct o.
  - rewrite cmp_dir_output_cons. cbn [app]. rewrite str_cmp_cons. by rewrite IH.
Qed.

Lemma cmp_dir_keys_cons x a y b :
  cmp_dir_keys (x :: a) (y :: b) =
  match byte_cmp x y with Eq => cmp_dir_keys a b | c => c end.
Proof.
  unfold cmp_dir_keys. cbn [length min take str_cmp]. destruct (byte_cmp x y); [|done..].
  destruct (str_cmp _ _); [|done..].
  rewrite (bool_decide_ext (S (length a) = S (length b)) (length a = length b)) by lia.
  by rewrite (bool_decide_ext (S (length a) < S (length b)) (length a < length b)) by lia.
Qed.

Lemma cmp_dir_keys_str a b : cmp_dir_keys a b = str_cmp (a ++ [slash]) (b ++ [slash]).
Proof.
  revert b. induction a as [|x a IH]; intros [|y b]; [done| | |].
  - unfold cmp_dir_keys. cbn [length min take str_cmp app lookup list_lookup].
    rewrite bool_decide_eq_false_2, bool_decide_eq_true_2 by (simpl; lia).
    destruct (byte_cmp slash y); [|done..]. by destruct b.
  - unfold cmp_dir_keys. cbn [length min take str_cmp app lookup list_lookup].
    rewrite !bool_decide_eq_false_2 by (simpl; lia).
    destruct (byte_cmp x slash); [|done..]. by destruct a.
  - rewrite cmp_dir_keys_cons. cbn [app]. rewrite str_cmp_cons. by rewrite IH.
Qed.

Lemma cmp_file_dir_str f d : cmp_file_dir f d = str_cmp f (d ++ [slash]).
Proof. unfold cmp_file_dir. by rewrite cmp_dir_output_str, <- (cmp_antisym (cmp:=str_cmp)). Qed.

Lemma dir_output_starts_with_str d p :
  dir_output_starts_with d p = starts_with (d ++ [slash]) p.
Proof.
  unfold dir_output_starts_with. apply eq_true_iff_eq. rewrite (starts_with_spec (d ++ _)).
  case_bool_decide as Hl.
  - rewrite starts_with_spec. split.
    + intros [r ->]. exists (r ++ [slash]). by rewrite app_assoc.
    + intros [r E]. destruct r as [|c r _] using rev_ind.
      { rewrite app_nil_r in E. subst p. rewrite length_app in Hl. simpl in Hl. lia. }
      rewrite app_assoc in E. apply app_inj_tail in E as [-> _]. by exists r.
  - rewrite !andb_true_iff, !bool_decide_eq_true, starts_with_spec. split.
    + intros [[Hn [r ->]] Hs]. rewrite length_app in Hn. destruct r as [|c [|c2 r]]; simpl in Hn; try lia.
      rewrite lookup_app_r, Nat.sub_diag in Hs by lia. injection Hs as ->.
      exists []. by rewrite app_nil_r.
    + intros [r E]. pose proof (f_equal length E) as El. rewrite !length_app in El. simpl in El.
      destruct r; [|simpl in El; lia]. rewrite app_nil_r in E. subst p.
      rewrite length_app, lookup_app_r, Nat.sub_diag by lia. split_and!; [done|by exists [slash]|done].
Qed.

(** The comparators of the directory streams are the byte order of the
    directories' output keys (the key and a slash), computed without building
    them, and so is the prefix test. *)
Theorem dir_comparators d d' f p :
  cmp_dir_output d f = str_cmp (d ++ [slash]) f ∧
  cmp_dir_keys d d' = str_cmp (d ++ [slash]) (d' ++ [slash]) ∧
  cmp_file_dir f d = str_cmp f (d ++ [slash]) ∧
  dir_output_starts_with d p = starts_with (d ++ [slash]) p.
Proof.
  by rewrite cmp_dir_output_str, cmp_dir_keys_str, cmp_file_dir_str, dir_output_starts_with_str.
Qed.

(** ** Tokens *)

(** A token minted for a key decodes to it, from the current and from the
    legacy encoding. *)
Theorem token_round_trip `{Base64Laws} k :
  utf8_valid k = true →
  decode_token (encode_token k) = Some k ∧ decode_token (std_encode k) = Some k.
Proof.
  intros Hk. unfold decode_token, encode_token. rewrite url_roundtrip, Hk. split; [done|].
  destruct (url_decode (std_encode k)) as [b|] eqn:E.
  - apply url_std_agree in E as ->. by rewrite Hk.
  - by rewrite std_roundtrip, Hk.
Qed.

Lemma token_decodes `{Base64Laws} k :
  utf8_valid k = true → decode_token (encode_token k) = Some k.
Proof. intros Hk. unfold decode_token, encode_token. by rewrite url_roundtrip, Hk. Qed.

(** A decoded token is always text. *)
Lemma decode_token_valid `{Base64} t k : decode_token t = Some k → utf8_valid k = true.
Proof.
  unfold decode_token. destruct (match url_decode t with Some _ => _ | None => _ end) as [b|];
    [|done]. destruct (utf8_valid b) eqn:E; [|done]. by intros [= <-].
Qed.

(** ** The collapse *)

Lemma elem_of_prefix_insert p s x : x ∈ prefix_insert p s ↔ x = p ∨ x ∈ s.
Proof.
  induction s as [|y s IH]; cbn [prefix_insert]; [by rewrite elem_of_cons|].
  destruct (str_cmp p y) eqn:E; rewrite !elem_of_cons, ?IH; [|tauto..].
  apply cmp_eq_iff in E as ->. tauto.
Qed.

Lemma prefix_insert_sorted p s :
  StronglySorted str_lt s → StronglySorted str_lt (prefix_insert p s).
Proof.
  induction 1 as [|y s Hs IH Hy]; cbn [prefix_insert]; [by repeat constructor|].
  destruct (str_cmp p y) eqn:E.
  - by constructor.
  - constructor; [by constructor|]. constructor; [done|].
    eapply Forall_impl; [exact Hy|]. intros z Hz. by trans y.
  - constructor; [done|]. apply str_cmp_gt_lt in E. rewrite Forall_forall in Hy |- *.
    intros z [->|Hz]%elem_of_prefix_insert; auto.
Qed.

(** The delimiter after the treatment of the empty one. *)
Definition norm_delimiter (delimiter : option str) : option str :=
  match delimiter with
  | Some d => if bool_decide (d = []) then None else Some d
  | None => None
  end.

(** What a key becomes: the end of its common prefix, if it has one. *)
Definition collapse (prefix : str) (delimiter : option str) (k : str) : option str :=
  match delimiter with
  | Some d =>
      let rest := drop (length prefix) k in
      (λ idx, prefix ++ take (idx + length d) rest) <$> find_str rest d
  | None => None
  end.

Definition is_content (prefix : str) (delimiter : option str) (k : str) : bool :=
  starts_with k prefix && match collapse prefix delimiter k with None => true | _ => false end.

Lemma list_to_contents_step_spec prefix d cs ps e :
  list_to_contents_step prefix d (cs, ps) e =
  (cs ++ (if is_content prefix d (key e) then [e] else []),
   if starts_with (key e) prefix is true then
     match collapse prefix d (key e) with Some p => prefix_insert p ps | None => ps end
   else ps).
Proof.
  unfold list_to_contents_step, is_content, collapse.
  destruct (starts_with (key e) prefix); cbn [negb andb]; [|by rewrite app_nil_r].
  cbv zeta. destruct d as [d|]; [|done]. destruct (find_str _ d); cbn [fmap option_fmap option_map]; [|done].
  by rewrite app_nil_r.
Qed.

Lemma list_to_contents_fold prefix d es cs ps :
  let r := foldl (list_to_contents_step prefix d) (cs, ps) es in
  r.1 = cs ++ List.filter (λ e, is_content prefix d (key e)) es ∧
  (StronglySorted str_lt ps → StronglySorted str_lt r.2) ∧
  ∀ x, x ∈ r.2 ↔ x ∈ ps ∨ ∃ e, e ∈ es ∧ starts_with (key e) prefix = true ∧
                                collapse prefix d (key e) = Some x.
Proof.
  cbv zeta. revert cs ps. induction es as [|e es IH]; intros cs ps.
  { simpl. rewrite app_nil_r. split_and!; [done|done|]. intros x. split; [auto|].
    intros [?|(e & []%elem_of_nil & _)]; done. }
  cbn [foldl]. rewrite list_to_contents_step_spec.
  match goal with |- context [foldl _ (?a, ?b) es] => destruct (IH a b) as (H1 & H2 & H3) end.
  rewrite H1, bfilter_cons. split_and!.
  - rewrite <- app_assoc. by destruct (is_content prefix d (key e)).
  - intros Hs. apply H2. destruct (starts_with (key e) prefix); [|done].
    destruct (collapse prefix d (key e)); [|done]. by apply prefix_insert_sorted.
  - intros x. rewrite H3. clear H1 H2 H3 IH.
    assert ((∃ e0, e0 ∈ e :: es ∧ starts_with (key e0) prefix = true ∧ collapse prefix d (key e0) = Some x) ↔
            (starts_with (key e) prefix = true ∧ collapse prefix d (key e) = Some x) ∨
            ∃ e0, e0 ∈ es ∧ starts_with (key e0) prefix = true ∧ collapse prefix d (key e0) = Some x) as ->.
    { split.
      - intros (e0 & [->|?]%elem_of_cons & ?); [by left|right; eauto].
      - intros [?|(e0 & ? & ?)]; [exists e|exists e0]; rewrite elem_of_cons; auto. }
    destruct (starts_with (key e) prefix); [|intuition congruence].
    destruct (collapse prefix d (key e)) as [p|]; [rewrite elem_of_prefix_insert|]; intuition congruence.
Qed.

Lemma list_to_contents_norm es prefix d :
  list_to_contents es prefix d = foldl (list_to_contents_step prefix (norm_delimiter d)) ([], []) es.
Proof. done. Qed.

Lemma list_to_contents_contents es prefix d :
  (list_to_contents es prefix d).1 =
  List.filter (λ e, is_content prefix (norm_delimiter d) (key e)) es.
Proof. rewrite list_to_contents_norm. by destruct (list_to_contents_fold prefix (norm_delimiter d) es [] []). Qed.

Lemma list_to_contents_sorted es prefix d : StronglySorted str_lt (list_to_contents es prefix d).2.
Proof.
  rewrite list_to_contents_norm.
  destruct (list_to_contents_fold prefix (norm_delimiter d) es [] []) as (_ & H & _).
  apply H. constructor.
Qed.

Lemma elem_of_list_to_contents es prefix d x :
  x ∈ (list_to_contents es prefix d).2 ↔
  ∃ e, e ∈ es ∧ starts_with (key e) prefix = true ∧ collapse prefix (norm_delimiter d) (key e) = Some x.
Proof.
  rewrite list_to_contents_norm.
  destruct (list_to_contents_fold prefix (norm_delimiter d) es [] []) as (_ & _ & H).
  rewrite H. split; [by intros [[]%elem_of_nil|?]|auto].
Qed.

(** A collapse stops at the first occurrence of the delimiter. *)
Lemma collapse_spec prefix d m :
  collapse prefix (Some d) (prefix ++ m) =
  match find_str m d with
  | Some i => Some (prefix ++ take i m ++ d)
  | None => None
  end.
Proof.
  unfold collapse. cbv zeta. rewrite drop_app_length.
  destruct (find_str m d) as [i|] eqn:E; [|done]. cbn [fmap option_fmap option_map].
  apply find_str_some in E as [Hl [r Hr]]. do 2 f_equal.
  rewrite <- (take_drop i m) at 1. rewrite Hr, take_app_ge by (rewrite length_take; lia).
  rewrite length_take. replace (i + length d - i `min` length m) with (length d) by lia.
  by rewrite take_app_length.
Qed.

(** Of the keys that match the prefix, the contents are those without the
    delimiter in their remainder, in order; the common prefixes are, each
    once and in order, the parts of the others up to and including the
    first delimiter. *)
Theorem list_to_contents_spec es prefix d :
  d ≠ [] →
  let r := list_to_contents es prefix (Some d) in
  r.1 = List.filter (λ e, starts_with (key e) prefix &&
          match find_str (drop (length prefix) (key e)) d with None => true | _ => false end) es ∧
  StronglySorted str_lt r.2 ∧
  ∀ p, p ∈ r.2 ↔
    ∃ e m i, e ∈ es ∧ key e = prefix ++ m ∧ find_str m d = Some i ∧ p = prefix ++ take i m ++ d.
Proof.
  intros Hd. cbv zeta. split_and!.
  - rewrite list_to_contents_contents. unfold norm_delimiter. rewrite bool_decide_eq_false_2 by done.
    apply bfilter_ext. intros e _. unfold is_content, collapse. cbv zeta.
    by destruct (find_str _ d).
  - apply list_to_contents_sorted.
  - intros p. rewrite elem_of_list_to_contents. unfold norm_delimiter.
    rewrite bool_decide_eq_false_2 by done. split.
    + intros (e & He & [m Hm]%starts_with_spec & Hc). rewrite Hm, collapse_spec in Hc.
      destruct (find_str m d) as [i|] eqn:Ei; [|done]. injection Hc as <-. by exists e, m, i.
    + intros (e & m & i & He & Hk & Hi & ->). exists e. split_and!; [done|..].
      * rewrite Hk. apply starts_with_app.
      * by rewrite Hk, collapse_spec, Hi.
Qed.

(** ** Witnesses *)

Example list_to_contents_spec_witness :
  let es := [mkListEntry $"a/b/c" 1 0; mkListEntry $"a/x" 1 0; mkListEntry $"a/b/d" 1 0] in
  let r := list_to_contents es $"a/" (Some [slash]) in
  r.1 = List.filter (λ e, starts_with (key e) $"a/" &&
          match find_str (drop 2 (key e)) [slash] with None => true | _ => false end) es ∧
  StronglySorted str_lt r.2 ∧
  ∀ p, p ∈ r.2 ↔
    ∃ e m i, e ∈ es ∧ key e = $"a/" ++ m ∧ find_str m [slash] = Some i ∧
      p = $"a/" ++ take i m ++ [slash].
Proof. by apply list_to_contents_spec. Defined.

(** Engines that write a byte as itself. *)
Definition plain64 : Base64 := {|
  url_encode b := b; url_decode t := Some t; std_encode b := b; std_decode t := Some t;
|}.

#[export] Instance plain64_laws : @Base64Laws plain64.
Proof. split; simpl; congruence. Qed.

Example token_round_trip_witness :
  @decode_token plain64 (@encode_token plain64 $"a/b") = Some $"a/b" ∧
  @decode_token plain64 (@std_encode plain64 $"a/b") = Some $"a/b".
Proof. by apply (@token_round_trip plain64 plain64_laws). Defined.
