(* ===== verification/Rfc4648.v ===== *)
(** Base64, as RFC 4648 defines it.

    The two engines the tokens use, as an instance of the interface [Base64]
    of [Listing]: the URL-safe alphabet without padding and the standard one
    with it, both strict about padding and unused bits. The laws the listing
    theorems assume hold of them. *)

From S2P Require Import Prelude Bytes Listing.

(** ** Sextets and characters *)

(** The last two characters tell the alphabets apart. *)
Definition sextet_char (c62 c63 : ascii) (n : N) : ascii :=
  if N.ltb n 26 then ascii_of_N (65 + n)
  else if N.ltb n 52 then ascii_of_N (71 + n)
  else if N.ltb n 62 then ascii_of_N (n - 4)
  else if N.eqb n 62 then c62 else c63.

Definition char_sextet (c62 c63 : ascii) (c : ascii) : option N :=
  let n := N_of_ascii c in
  if N.leb 65 n && N.leb n 90 then Some (n - 65)%N
  else if N.leb 97 n && N.leb n 122 then Some (n - 71)%N
  else if N.leb 48 n && N.leb n 57 then Some (n + 4)%N
  else if bool_decide (c = c62) then Some 62%N
  else if bool_decide (c = c63) then Some 63%N
  else None.

Abbreviation url_char := (sextet_char "-"%char "_"%char).
Abbreviation std_char := (sextet_char "+"%char "/"%char).
Abbreviation url_sextet := (char_sextet "-"%char "_"%char).
Abbreviation std_sextet := (char_sextet "+"%char "/"%char).

(** ** Bytes and sextets *)

(** Three bytes are four sextets; the unused bits at the end are zero. *)
Fixpoint pack (bytes : list N) : list N :=
  match bytes with
  | a :: b :: c :: bytes =>
      (a / 4 :: a mod 4 * 16 + b / 16 :: b mod 16 * 4 + c / 64 :: c mod 64 :: pack bytes)%N
  | [a; b] => [a / 4; a mod 4 * 16 + b / 16; b mod 16 * 4]%N
  | [a] => [a / 4; a mod 4 * 16]%N
  | [] => []
  end.

Fixpoint unpack (sextets : list N) : option (list N) :=
  match sextets with
  | s :: t :: u :: v :: sextets =>
      bytes ← unpack sextets;
      Some (s * 4 + t / 16 :: t mod 16 * 16 + u / 4 :: u mod 4 * 64 + v :: bytes)%N
  | [s; t; u] =>
      if N.eqb (u mod 4) 0 then Some [s * 4 + t / 16; t mod 16 * 16 + u / 4]%N else None
  | [s; t] => if N.eqb (t mod 16) 0 then Some [s * 4 + t / 16]%N else None
  | [_] => None
  | [] => Some []
  end.

(** ** The engines *)

Definition base64_encode (alphabet : N → ascii) (bytes : str) : str :=
  map alphabet (pack (map N_of_ascii bytes)).

Definition base64_decode (sextet : ascii → option N) (text : str) : option str :=
  match mapM (M:=option) sextet text with
  | Some sextets => map ascii_of_N <$> unpack sextets
  | None => None
  end.

(** The padding that fills the last group of four. *)
Definition padding (len : nat) : str :=
  match len mod 4 with 2 => ["="; "="]%char | 3 => ["="%char] | _ => [] end.

(** Up to two trailing [=]. *)
Definition strip_padding (text : str) : str :=
  match rev text with
  | a :: b :: t => if bool_decide (a = "="%char)
                   then if bool_decide (b = "="%char) then rev t else rev (b :: t) else text
  | _ => text
  end.

#[export] Instance rfc4648 : Base64 := {|
  url_encode := base64_encode url_char;
  url_decode := base64_decode url_sextet;
  std_encode b := let text := base64_encode std_char b in text ++ padding (length text);
  std_decode t := if N.eqb (N.of_nat (length t) mod 4) 0 then base64_decode std_sextet (strip_padding t)
                  else None;
|}.

(** ** The laws *)

Lemma sextet_round_trip n :
  (n < 64)%N → url_sextet (url_char n) = Some n ∧ std_sextet (std_char n) = Some n ∧
  std_char n ≠ "="%char.
Proof.
  intros Hn. assert (∀ k, k ∈ seq 0 64 → url_sextet (url_char (N.of_nat k)) = Some (N.of_nat k) ∧
    std_sextet (std_char (N.of_nat k)) = Some (N.of_nat k) ∧ std_char (N.of_nat k) ≠ "="%char) as H.
  { apply Forall_forall. by apply (bool_decide_unpack _); vm_compute. }
  rewrite <- (N2Nat.id n). apply H, elem_of_seq. lia.
Qed.

Lemma all_bytes (f : ascii → bool) :
  forallb (λ k, f (ascii_of_nat k)) (seq 0 256) = true → ∀ c, f c = true.
Proof.
  rewrite forallb_forall. intros Hall c. rewrite <- (ascii_nat_embedding c). apply Hall, in_seq.
  pose proof (nat_ascii_bounded c). lia.
Qed.

(** Where the alphabets both have a character, they agree on it. *)
Lemma alphabets_agree c s s' : url_sextet c = Some s → std_sextet c = Some s' → s = s'.
Proof.
  pose proof (all_bytes (λ c, match url_sextet c, std_sextet c with
                              | Some s, Some s' => N.eqb s s' | _, _ => true end) ltac:(by vm_compute) c) as H.
  cbv beta in H. intros E1 E2. rewrite E1, E2 in H. by apply N.eqb_eq.
Qed.

Lemma triple_ind {A} (P : list A → Prop) :
  P [] → (∀ a, P [a]) → (∀ a b, P [a; b]) → (∀ a b c l, P l → P (a :: b :: c :: l)) → ∀ l, P l.
Proof.
  intros H0 H1 H2 H3. fix IH 1. intros [|a [|b [|c l]]]; [done|done|done|]. apply H3, IH.
Qed.

Lemma Forall_cons_3 {A} (P : A → Prop) a b c l :
  Forall P (a :: b :: c :: l) → P a ∧ P b ∧ P c ∧ Forall P l.
Proof. by intros (? & (? & (? & ?)%Forall_cons)%Forall_cons)%Forall_cons. Qed.

Ltac digits := zify; Z.to_euclidean_division_equations; lia.

Lemma pack_small bytes :
  Forall (λ a, a < 256)%N bytes → Forall (λ s, s < 64)%N (pack bytes).
Proof.
  induction bytes as [|a|a b|a b c bytes IH] using triple_ind; intros H.
  - constructor.
  - apply Forall_cons in H as [H _]. cbn [pack]. repeat (constructor; [digits|]); constructor.
  - apply Forall_cons in H as [Ha [Hb _]%Forall_cons]. cbn [pack]. repeat (constructor; [digits|]); constructor.
  - apply Forall_cons_3 in H as (Ha & Hb & Hc & H). cbn [pack].
    do 4 (constructor; [digits|]). auto.
Qed.

Lemma unpack_pack bytes : Forall (λ a, a < 256)%N bytes → unpack (pack bytes) = Some bytes.
Proof.
  induction bytes as [|a|a b|a b c bytes IH] using triple_ind; intros H.
  - done.
  - apply Forall_cons in H as [H _]. cbn [pack unpack].
    rewrite (proj2 (N.eqb_eq (a mod 4 * 16 mod 16) 0)) by digits. do 2 f_equal. digits.
  - apply Forall_cons in H as [Ha [Hb _]%Forall_cons]. cbn [pack unpack].
    rewrite (proj2 (N.eqb_eq (b mod 16 * 4 mod 4) 0)) by digits. do 2 f_equal; [digits|]. f_equal. digits.
  - apply Forall_cons_3 in H as (Ha & Hb & Hc & H). cbn [pack unpack]. rewrite IH by done.
    cbn [mbind option_bind]. do 2 f_equal; [digits|]. f_equal; [digits|]. f_equal. digits.
Qed.

Lemma bytes_small (b : str) : Forall (λ a, a < 256)%N (map N_of_ascii b).
Proof. apply Forall_map, Forall_forall. intros c _. apply N_ascii_bounded. Qed.

Lemma mapM_alphabet (alphabet : N → ascii) (sextet : ascii → option N) (l : list N) :
  (∀ n, (n < 64)%N → sextet (alphabet n) = Some n) → Forall (λ s, s < 64)%N l →
  mapM (M:=option) sextet (map alphabet l) = Some l.
Proof.
  intros Hs. induction 1 as [|n l Hn _ IH]; [done|]. cbn [map mapM]. rewrite Hs by done.
  cbn [mbind option_bind]. by rewrite IH.
Qed.

Lemma decode_encode alphabet sextet (b : str) :
  (∀ n, (n < 64)%N → sextet (alphabet n) = Some n) →
  base64_decode sextet (base64_encode alphabet b) = Some b.
Proof.
  intros Hs. unfold base64_decode, base64_encode. pose proof (bytes_small b) as Hb.
  rewrite mapM_alphabet; [|done|by apply pack_small]. rewrite unpack_pack by done.
  cbn [fmap option_fmap option_map]. f_equal. rewrite map_map. etransitivity; [|apply map_id].
  apply map_ext. intros c. apply ascii_N_embedding.
Qed.

Lemma length_encode alphabet (b : str) : length (base64_encode alphabet b) mod 4 ≠ 1.
Proof.
  unfold base64_encode. rewrite length_map. generalize (map N_of_ascii b). intros l.
  induction l as [|x|x y|x y z l IH] using triple_ind; [done..|]. cbn [pack length].
  replace (S (S (S (S (length (pack l)))))) with (length (pack l) + 1 * 4) by lia.
  by rewrite Nat.Div0.mod_add.
Qed.

(** A text that is not ended by padding is left alone. *)
Lemma strip_none (t : str) :
  (∀ c, c ∈ t → c ≠ "="%char) → strip_padding t = t.
Proof.
  intros Ht. unfold strip_padding. destruct (rev t) as [|a [|b l]] eqn:E; [done..|].
  assert (a ∈ t) as Ha%Ht; [|by rewrite bool_decide_eq_false_2].
  rewrite <- (rev_involutive t), E. cbn [rev]. rewrite !elem_of_app. right. by apply list_elem_of_singleton.
Qed.

Lemma strip_padded (t : str) :
  length t mod 4 ≠ 1 → (∀ c, c ∈ t → c ≠ "="%char) →
  strip_padding (t ++ padding (length t)) = t ∧ length (t ++ padding (length t)) mod 4 = 0.
Proof.
  intros H1 Ht. rewrite length_app. pose proof (Nat.mod_upper_bound (length t) 4 ltac:(lia)) as Hu.
  pose proof (Nat.div_mod_eq (length t) 4) as Hd. unfold padding.
  destruct (length t mod 4) as [|[|[|[|n]]]] eqn:E; [| |..|lia]; cbn [length].
  - rewrite app_nil_r. split; [by apply strip_none|]. by rewrite Nat.add_0_r.
  - done.
  - split.
    + unfold strip_padding. rewrite rev_app_distr. cbn [rev app]. by rewrite !bool_decide_eq_true_2, rev_involutive by done.
    + rewrite Hd. replace (4 * (length t / 4) + 2 + 2) with (0 + (length t / 4 + 1) * 4) by lia.
      by rewrite Nat.Div0.mod_add.
  - split.
    + unfold strip_padding. rewrite rev_app_distr. cbn [rev app]. destruct (rev t) as [|b l] eqn:Er.
      { by destruct t; [|apply (f_equal (@length _)) in Er; rewrite length_rev in Er]. }
      assert (b ∈ t) as Hb%Ht.
      { rewrite <- (rev_involutive t), Er. cbn [rev]. rewrite elem_of_app. right. by apply list_elem_of_singleton. }
      rewrite bool_decide_eq_true_2, bool_decide_eq_false_2 by done.
      etransitivity; [|apply rev_involutive]. by rewrite Er.
    + rewrite Hd. replace (4 * (length t / 4) + 3 + 1) with (0 + (length t / 4 + 1) * 4) by lia.
      by rewrite Nat.Div0.mod_add.
Qed.

Lemma encoded_not_pad (b : str) c : c ∈ base64_encode std_char b → c ≠ "="%char.
Proof.
  unfold base64_encode. intros (n & <- & Hn)%list_elem_of_In%in_map_iff.
  pose proof (pack_small _ (bytes_small b)) as Hs. rewrite Forall_forall in Hs.
  apply sextet_round_trip, Hs. by apply list_elem_of_In.
Qed.

(** What both alphabets decode, they decode alike. *)
Lemma decode_agree (t : str) b b' :
  base64_decode url_sextet t = Some b → base64_decode std_sextet t = Some b' → b = b'.
Proof.
  unfold base64_decode. destruct (mapM (M:=option) url_sextet t) as [l|] eqn:E1; [|done].
  destruct (mapM (M:=option) std_sextet t) as [l'|] eqn:E2; [|done].
  assert (l = l') as ->; [|congruence]. apply mapM_Some in E1, E2. revert l' E2.
  induction E1 as [|c s t l Hc _ IH]; intros l' E2; inversion E2 as [|? s' ? l2 Hs Hl]; subst; [done|].
  f_equal; [by eapply alphabets_agree|by apply IH].
Qed.

(** The URL-safe engine does not read padding. *)
Lemma url_no_pad (t : str) n b :
  base64_decode url_sextet (t ++ padding n) = Some b → padding n = [].
Proof.
  unfold base64_decode. destruct (mapM (M:=option) url_sextet _) as [l|] eqn:E; [|done]. intros _.
  apply mapM_Some in E. assert (Forall (λ c, is_Some (url_sextet c)) (padding n)) as H.
  { apply (Forall_app _ t). eapply Forall2_Forall_l; [exact E|]. apply Forall_forall. eauto. }
  revert H. unfold padding. destruct (n mod 4) as [|[|[|[|?]]]]; try done;
    by intros [[? [=]] _]%Forall_cons.
Qed.

#[export] Instance rfc4648_laws : Base64Laws.
Proof.
  assert (∀ b, base64_decode std_sextet (strip_padding (std_encode b)) = Some b ∧
               length (std_encode b) mod 4 = 0) as Hstd.
  { intros b. cbn [std_encode rfc4648]. set (t := base64_encode std_char b).
    destruct (strip_padded t) as [-> ->]; [apply length_encode|apply encoded_not_pad|]. split; [|done].
    apply decode_encode. intros n Hn. by apply sextet_round_trip. }
  split.
  - intros b. cbn [url_encode url_decode rfc4648]. apply decode_encode. intros n Hn. by apply sextet_round_trip.
  - intros b. destruct (Hstd b) as [H1 H2]. cbn [std_decode rfc4648].
    rewrite (proj2 (N.eqb_eq _ 0)); [done|]. rewrite <- (Nat2N.inj_mod _ 4). by rewrite H2.
  - intros b b' Hu. cbn [std_encode url_decode rfc4648] in Hu. set (t := base64_encode std_char b) in *.
    rewrite (url_no_pad _ _ _ Hu), app_nil_r in Hu.
    apply (decode_agree t b' b Hu). apply decode_encode. intros n Hn. by apply sextet_round_trip.
Qed.
