(* ===== verification/Paging.v ===== *)
(** Pagination: the specification [paginate] and [paginate_slash] implement.

    The outputs of a listing are one strictly sorted list of keys and common
    prefixes; a page is a segment of it; following the tokens yields the whole
    of it; and the logarithmic pagination of one directory computes the same
    page as the general one. *)

From S2P Require Import Prelude Bytes Listing.

(** ** Outputs *)

(** An object or a common prefix. *)
Abbreviation output := (ListEntry + str)%type.

Definition output_key (o : output) : str :=
  match o with inl e => key e | inr p => p end.

Definition objects (l : list output) : list ListEntry :=
  omap (λ o : output, match o with inl e => Some e | inr _ => None end) l.

Definition prefixes (l : list output) : list str :=
  omap (λ o : output, match o with inl _ => None | inr p => Some p end) l.

Abbreviation output_lt := (key_lt output_key).

(** The outputs of a listing, interleaved in key order. *)
Definition merge_outputs (c : list ListEntry) (p : list str) : list output :=
  sort_by (key_cmp output_key) ((inl <$> c) ++ (inr <$> p)).

Definition all_outputs files dirs prefix delimiter : list output :=
  let '(c, p) := listing_outputs files dirs prefix delimiter in merge_outputs c p.

Definition outputs_after (marker : option str) (l : list output) : list output :=
  List.filter (λ o, after_marker marker (output_key o)) l.

(** A page of at most [n] outputs after the marker. *)
Definition page_spec (l : list output) (n : N) (marker : option str) : Page :=
  let rest := outputs_after marker l in
  let seg := take (N.to_nat (N.min n (N.of_nat (length rest)))) rest in
  let more := bool_decide (N.to_nat (N.min n (N.of_nat (length rest))) < length rest) in
  {| contents := objects seg;
     common_prefixes := prefixes seg;
     is_truncated := more;
     next_token := if more then output_key <$> last seg else None |}.

(** What the delimiter makes of the rest of a key after the prefix: the part up to
    and including its first occurrence; nothing when it does not occur, or there
    is no delimiter. *)
Definition group (delimiter : option str) (m q : str) : Prop := ∃ d a b,
  delimiter = Some d ∧ d ≠ [] ∧ m = a ++ d ++ b ∧ q = a ++ d ∧
  ∀ a' b', m = a' ++ d ++ b' → length a <= length a'.

(** The listing of files and directories under a prefix, without reference to how
    it is computed: the files that match and are not grouped, and each group
    once, in key order. A directory stands for its path with a slash. *)
Record listing_of (files : list ListEntry) (dirs : list str) (prefix : str) (delimiter : option str)
    (l : list output) : Prop := {
  li_sorted : StronglySorted output_lt l;
  li_objects : ∀ e, inl e ∈ l ↔
    e ∈ files ∧ ∃ m, key e = prefix ++ m ∧ ∀ q, ¬ group delimiter m q;
  li_prefixes : ∀ p, inr p ∈ l ↔
    ∃ k m q, (k ∈ (key <$> files) ∨ k ∈ ((λ dir, dir ++ [slash]) <$> dirs)) ∧
      k = prefix ++ m ∧ group delimiter m q ∧ p = prefix ++ q;
}.

(** A client that follows the tokens from a marker. *)
Fixpoint walk_pages (fuel : nat) (fetch : option str → Page) (marker : option str) :
    option (list Page) :=
  match fuel with
  | 0 => None
  | S fuel =>
      let p := fetch marker in
      match next_token p with
      | None => Some [p]
      | Some t =>
          match walk_pages fuel fetch (Some t) with
          | Some ps => Some (p :: ps)
          | None => None
          end
      end
  end.

(** ** Lists of outputs *)

Lemma elem_of_objects l e : e ∈ objects l ↔ inl e ∈ l.
Proof.
  unfold objects. rewrite list_elem_of_omap. split.
  - intros ([e'|p] & Hin & [= ->]). done.
  - intros. by exists (inl e).
Qed.

Lemma elem_of_prefixes l p : p ∈ prefixes l ↔ inr p ∈ l.
Proof.
  unfold prefixes. rewrite list_elem_of_omap. split.
  - intros ([e'|p'] & Hin & [= ->]). done.
  - intros. by exists (inr p).
Qed.

Lemma objects_app l1 l2 : objects (l1 ++ l2) = objects l1 ++ objects l2.
Proof. apply omap_app. Qed.

Lemma prefixes_app l1 l2 : prefixes (l1 ++ l2) = prefixes l1 ++ prefixes l2.
Proof. apply omap_app. Qed.

Lemma objects_prefixes_length l : length (objects l) + length (prefixes l) = length l.
Proof. induction l as [|[e|p] l IH]; simpl; [done|..]; lia. Qed.

Lemma objects_sorted l : StronglySorted output_lt l → StronglySorted (key_lt key) (objects l).
Proof.
  induction 1 as [|[e|p] l Hs IH Hx]; [constructor| |done].
  change (StronglySorted (key_lt key) (e :: objects l)). constructor; [done|].
  rewrite Forall_forall in Hx. apply Forall_forall. intros e' He'%elem_of_objects. apply (Hx _ He').
Qed.

Lemma prefixes_sorted l : StronglySorted output_lt l → StronglySorted str_lt (prefixes l).
Proof.
  induction 1 as [|[e|p] l Hs IH Hx]; [constructor|done|].
  change (StronglySorted str_lt (p :: prefixes l)). constructor; [done|].
  rewrite Forall_forall in Hx. apply Forall_forall. intros p' Hp'%elem_of_prefixes. apply (Hx _ Hp').
Qed.

Lemma objects_filter f l :
  objects (List.filter (λ o, f (output_key o)) l) = List.filter (λ e, f (key e)) (objects l).
Proof.
  induction l as [|[e|p] l IH]; [done|..]; cbn [objects omap list_omap output_key];
    rewrite bfilter_cons; cbn [output_key].
  - change (omap _ l) with (objects l). rewrite bfilter_cons. destruct (f (key e)); [|done].
    cbn [objects omap list_omap]. by rewrite <- IH.
  - change (omap _ l) with (objects l). rewrite <- IH. by destruct (f p).
Qed.

Lemma prefixes_filter f l :
  prefixes (List.filter (λ o, f (output_key o)) l) = List.filter f (prefixes l).
Proof.
  induction l as [|[e|p] l IH]; [done|..]; cbn [prefixes omap list_omap output_key];
    rewrite bfilter_cons; cbn [output_key].
  - change (omap _ l) with (prefixes l). rewrite <- IH. by destruct (f (key e)).
  - change (omap _ l) with (prefixes l). rewrite bfilter_cons. destruct (f p); [|done].
    cbn [prefixes omap list_omap]. by rewrite <- IH.
Qed.

(** ** Merging *)

(** Sorted contents and prefixes without a key in common. *)
Record outputs_ok (c : list ListEntry) (p : list str) : Prop := {
  ok_contents : StronglySorted (key_lt key) c;
  ok_prefixes : StronglySorted str_lt p;
  ok_disjoint : ∀ e q, e ∈ c → q ∈ p → key e ≠ q;
}.

Lemma outputs_keys c p :
  output_key <$> ((inl <$> c) ++ (inr <$> p)) = (key <$> c) ++ p.
Proof.
  rewrite fmap_app. f_equal; [by rewrite <- list_fmap_compose|].
  rewrite <- list_fmap_compose. by apply list_fmap_id.
Qed.

Lemma outputs_nodup c p :
  outputs_ok c p → NoDup (output_key <$> ((inl <$> c) ++ (inr <$> p) : list output)).
Proof.
  intros [Hc Hp Hd]. rewrite outputs_keys. apply NoDup_app. split_and!.
  - apply (strict_sorted_NoDup str_lt). by apply (StronglySorted_map key str_lt).
  - intros k (e & -> & He)%list_elem_of_fmap Hk. by apply (Hd e (key e)).
  - by apply (strict_sorted_NoDup str_lt).
Qed.

Lemma merge_outputs_sorted c p : outputs_ok c p → StronglySorted output_lt (merge_outputs c p).
Proof. intros H. apply sort_by_key_strict. by apply outputs_nodup. Qed.

Lemma elem_of_merge_outputs c p o :
  o ∈ merge_outputs c p ↔ match o with inl e => e ∈ c | inr q => q ∈ p end.
Proof.
  unfold merge_outputs. rewrite (sort_by_perm (key_cmp output_key) _), elem_of_app, !list_elem_of_fmap.
  destruct o as [e|q]; (split; [intros [(x & Ex & Hx)|(x & Ex & Hx)]; simplify_eq; done|]);
    intros; [left|right]; by eexists.
Qed.

Lemma merge_outputs_objects c p : outputs_ok c p → objects (merge_outputs c p) = c.
Proof.
  intros H. apply (strict_sorted_ext (key_lt key)).
  - by apply objects_sorted, merge_outputs_sorted.
  - by apply ok_contents in H.
  - intros e. by rewrite elem_of_objects, elem_of_merge_outputs.
Qed.

Lemma merge_outputs_prefixes c p : outputs_ok c p → prefixes (merge_outputs c p) = p.
Proof.
  intros H. apply (strict_sorted_ext str_lt).
  - by apply prefixes_sorted, merge_outputs_sorted.
  - by apply ok_prefixes in H.
  - intros q. by rewrite elem_of_prefixes, elem_of_merge_outputs.
Qed.

Lemma outputs_ok_filter f c p :
  outputs_ok c p → outputs_ok (List.filter (λ e, f (key e)) c) (List.filter f p).
Proof.
  intros [Hc Hp Hd]. split; auto with gw.
  intros e q [_ He]%elem_of_bfilter [_ Hq]%elem_of_bfilter. by apply Hd.
Qed.

Lemma merge_outputs_filter f c p :
  outputs_ok c p →
  List.filter (λ o, f (output_key o)) (merge_outputs c p) =
  merge_outputs (List.filter (λ e, f (key e)) c) (List.filter f p).
Proof.
  intros H. apply (strict_sorted_ext output_lt).
  - apply StronglySorted_bfilter. by apply merge_outputs_sorted.
  - by apply merge_outputs_sorted, outputs_ok_filter.
  - intros [e|q]; rewrite elem_of_bfilter, !elem_of_merge_outputs, elem_of_bfilter; done.
Qed.

Lemma merge_outputs_nil_l p : StronglySorted str_lt p → merge_outputs [] p = inr <$> p.
Proof.
  intros Hp. apply (sort_by_key_id output_key), key_lt_map.
  rewrite <- list_fmap_compose. by rewrite list_fmap_id.
Qed.

Lemma merge_outputs_nil_r c : StronglySorted (key_lt key) c → merge_outputs c [] = inl <$> c.
Proof.
  intros Hc. unfold merge_outputs. rewrite app_nil_r.
  apply (sort_by_key_id output_key), key_lt_map. rewrite <- list_fmap_compose.
  by apply (key_lt_map key).
Qed.

(** The first output is the smaller of the two heads. *)
Lemma merge_outputs_step c p :
  outputs_ok c p →
  merge_outputs c p =
    match c, p with
    | [], _ => inr <$> p
    | _, [] => inl <$> c
    | e :: c', q :: p' =>
        match str_cmp q (key e) with
        | Gt => inl e :: merge_outputs c' p
        | _ => inr q :: merge_outputs c p'
        end
    end.
Proof.
  intros H. pose proof (merge_outputs_sorted c p H) as Hs.
  destruct c as [|e c]; [by apply merge_outputs_nil_l; destruct H|].
  destruct p as [|q p]; [by apply merge_outputs_nil_r; destruct H|].
  destruct H as [Hc Hp Hd]. inversion Hc as [|? ? Hc1 Hc2]; subst.
  inversion Hp as [|? ? Hp1 Hp2]; subst. rewrite Forall_forall in Hc2. rewrite Forall_forall in Hp2.
  assert (outputs_ok c (q :: p)) as H1.
  { split; [done..|]. intros. apply Hd; [by apply elem_of_cons; right|done]. }
  assert (outputs_ok (e :: c) p) as H2.
  { split; [done..|]. intros. apply Hd; [done|by apply elem_of_cons; right]. }
  assert (str_cmp q (key e) ≠ Eq) as Hne.
  { intros E%cmp_eq_iff. apply (Hd e q); [apply elem_of_cons; by left..|done]. }
  symmetry. destruct (str_cmp q (key e)) eqn:E; [done| |];
    (apply (strict_sorted_ext output_lt); [|done|]).
  2, 4: intros [e'|q']; rewrite elem_of_cons, !elem_of_merge_outputs, ?elem_of_cons; intuition congruence.
  + constructor; [by apply merge_outputs_sorted|]. apply Forall_forall.
    intros [e'|q'] Ho%elem_of_merge_outputs; unfold key_lt; simpl; [|by apply Hp2].
    apply elem_of_cons in Ho as [->|Ho]; [done|]. trans (key e); [done|]. by apply Hc2.
  + apply str_cmp_gt_lt in E. constructor; [by apply merge_outputs_sorted|]. apply Forall_forall.
    intros [e'|q'] Ho%elem_of_merge_outputs; unfold key_lt; simpl; [by apply Hc2|].
    apply elem_of_cons in Ho as [->|Ho]; [done|]. trans q; [done|]. by apply Hp2.
Qed.

(** ** [paginate] returns the segment of its outputs after the marker *)

Lemma dir_common_prefix_slash prefix dir :
  starts_with dir prefix = true →
  ∃ m, dir_common_prefix prefix dir = prefix ++ m ++ [slash] ∧ slash ∉ m.
Proof.
  intros [r ->]%starts_with_spec. unfold dir_common_prefix. rewrite drop_app_length. cbv zeta.
  destruct (find_str r [slash]) as [i|] eqn:E.
  - apply find_byte_some in E as (a & b & -> & Ha & ->). exists a. split; [|done].
    do 2 f_equal. rewrite (take_app_ge a) by lia. by replace (length a + 1 - length a) with 1 by lia.
  - apply find_byte_none in E. exists r. by rewrite app_assoc.
Qed.

(** Contents and common prefixes have no key in common: a common prefix has
    the delimiter where a content has none. *)
Lemma listing_outputs_disjoint files dirs prefix d e p :
  e ∈ (listing_outputs files dirs prefix d).1 → p ∈ (listing_outputs files dirs prefix d).2 →
  key e ≠ p.
Proof.
  unfold listing_outputs. pose proof (list_to_contents_contents files prefix d) as Hc.
  pose proof (elem_of_list_to_contents files prefix d p) as Hp.
  destruct (list_to_contents files prefix d) as [c com]. cbn [fst snd] in *. subst c.
  rewrite (sort_by_perm cmp_entry), elem_of_bfilter. intros [He _] Hin Hk.
  rewrite elem_of_dedup, (sort_by_perm str_cmp) in Hin. unfold is_content in He.
  apply andb_true_iff in He as [_ He]. rewrite Hk in He.
  assert ((∃ m delim rest, norm_delimiter d = Some delim ∧ p = prefix ++ m ∧
            find_str m delim = Some rest) ) as (m & delim & i & Hn & -> & Hf).
  { assert (p ∈ com ∨ (d = Some [slash] ∧ ∃ dir, starts_with dir prefix = true ∧
              p = dir_common_prefix prefix dir)) as [Hcom|(-> & dir & Hd & ->)].
    { revert Hin. case_bool_decide; [|by left]. rewrite elem_of_app.
      intros [?|(dir & -> & [Hd _]%elem_of_bfilter)%list_elem_of_fmap]; [by left|right; eauto]. }
    - apply Hp in Hcom as (e' & _ & [m Hm]%starts_with_spec & Hcol).
      destruct (norm_delimiter d) as [delim|]; [|done]. rewrite Hm, collapse_spec in Hcol.
      destruct (find_str m delim) as [i|] eqn:Ei; [|done]. injection Hcol as <-.
      destruct (find_str (take i m ++ delim) delim) as [j|] eqn:Ej.
      { by exists (take i m ++ delim), delim, j. }
      apply (find_str_none _ _ (length (take i m))) in Ej. rewrite drop_app_length in Ej.
      rewrite <- (app_nil_r delim) in Ej at 1. by rewrite starts_with_app in Ej.
    - apply dir_common_prefix_slash in Hd as (m & -> & Hm). exists (m ++ [slash]), [slash].
      exists (length m). split_and!; [done|done|]. by apply find_byte_app. }
  rewrite Hn, collapse_spec, Hf in He. done.
Qed.

Lemma listing_outputs_ok files dirs prefix d :
  NoDup (key <$> files) →
  outputs_ok (listing_outputs files dirs prefix d).1 (listing_outputs files dirs prefix d).2.
Proof.
  intros Hd. split.
  - unfold listing_outputs. pose proof (list_to_contents_contents files prefix d) as Hc.
    destruct (list_to_contents files prefix d) as [c com]. cbn [fst] in *. subst c.
    apply (sort_by_key_strict key). by apply NoDup_fmap_bfilter.
  - unfold listing_outputs. destruct (list_to_contents files prefix d) as [c com].
    apply str_cmp_sort_dedup.
  - intros e p. apply listing_outputs_disjoint.
Qed.

Lemma output_key_inj l x y :
  StronglySorted output_lt l → x ∈ l → y ∈ l → output_key x = output_key y → x = y.
Proof.
  induction 1 as [|z l Hs IH Hz]; [by intros ?%elem_of_nil|].
  rewrite Forall_forall in Hz.
  intros [->|Hx]%elem_of_cons [->|Hy]%elem_of_cons E; [done| | |by apply IH].
  - specialize (Hz _ Hy). unfold key_lt in Hz. rewrite E in Hz. by apply str_lt_irrefl in Hz.
  - specialize (Hz _ Hx). unfold key_lt in Hz. rewrite E in Hz. by apply str_lt_irrefl in Hz.
Qed.

(** Selecting by the keys of a segment selects the segment. *)
Lemma filter_segment l n :
  StronglySorted output_lt l →
  List.filter (λ o, bool_decide (output_key o ∈ output_key <$> take n l)) l = take n l.
Proof.
  intros Hs. apply (strict_sorted_ext output_lt); auto with gw.
  intros o. rewrite elem_of_bfilter, bool_decide_eq_true. split.
  - intros [(o' & E & Ho')%list_elem_of_fmap Ho].
    by rewrite (output_key_inj l o o' Hs Ho (elem_of_take_inv _ _ _ Ho') E).
  - intros Ho. split; [|by eapply elem_of_take_inv]. apply list_elem_of_fmap. by exists o.
Qed.

Lemma objects_segment l n :
  StronglySorted output_lt l →
  objects (take n l) =
  List.filter (λ e, bool_decide (key e ∈ output_key <$> take n l)) (objects l).
Proof.
  intros Hs. pose proof (filter_segment l n Hs) as E. set (ks := output_key <$> take n l) in *.
  set (f := λ k : str, bool_decide (k ∈ ks)). rewrite <- E. apply (objects_filter f).
Qed.

Lemma prefixes_segment l n :
  StronglySorted output_lt l →
  prefixes (take n l) =
  List.filter (λ p, bool_decide (p ∈ output_key <$> take n l)) (prefixes l).
Proof.
  intros Hs. pose proof (filter_segment l n Hs) as E. set (ks := output_key <$> take n l) in *.
  set (f := λ k : str, bool_decide (k ∈ ks)). rewrite <- E. apply (prefixes_filter f).
Qed.

Lemma paginate_page_spec files dirs prefix d marker max_keys :
  NoDup (key <$> files) → max_keys ≠ 0%N →
  paginate files dirs prefix d marker max_keys =
  page_spec (all_outputs files dirs prefix d) max_keys marker.
Proof.
  intros Hd Hm. unfold paginate, all_outputs, page_spec. apply N.eqb_neq in Hm as ->.
  pose proof (listing_outputs_ok files dirs prefix d Hd) as Hok.
  destruct (listing_outputs files dirs prefix d) as [c p]. cbn [fst snd] in Hok. cbv zeta.
  pose proof (outputs_ok_filter (after_marker marker) c p Hok) as Hok'.
  pose proof (merge_outputs_filter (after_marker marker) c p Hok) as Hrest.
  unfold outputs_after. rewrite Hrest.
  set (c' := List.filter _ c) in *. set (p' := List.filter _ p) in *.
  set (rest := merge_outputs c' p'). pose proof (merge_outputs_sorted c' p' Hok') as Hs.
  assert (sort_by str_cmp (map key c' ++ p') = output_key <$> rest) as ->.
  { apply (sort_by_key_unique id).
    - apply (key_lt_map id). rewrite list_fmap_id. by apply (key_lt_map output_key).
    - unfold rest, merge_outputs. rewrite (sort_by_perm (key_cmp output_key)), outputs_keys. done. }
  rewrite length_fmap, <- fmap_take, fmap_last.
  set (n := N.to_nat _). f_equal.
  - rewrite objects_segment by done. unfold rest. by rewrite merge_outputs_objects.
  - rewrite prefixes_segment by done. unfold rest. by rewrite merge_outputs_prefixes.
Qed.

Lemma all_outputs_sorted files dirs prefix d :
  NoDup (key <$> files) → StronglySorted output_lt (all_outputs files dirs prefix d).
Proof.
  intros Hd. unfold all_outputs. pose proof (listing_outputs_ok files dirs prefix d Hd) as Hok.
  destruct (listing_outputs files dirs prefix d). by apply merge_outputs_sorted.
Qed.

(** ** Following the tokens *)

Lemma outputs_after_length marker l : length (outputs_after marker l) <= length l.
Proof. apply List.filter_length_le. Qed.

(** The outputs after the last one of a page are those the page left. *)
Lemma outputs_after_last l marker n o :
  StronglySorted output_lt l → last (take n (outputs_after marker l)) = Some o →
  outputs_after (Some (output_key o)) l = drop n (outputs_after marker l).
Proof.
  intros Hs Hl. set (rest := outputs_after marker l) in *.
  assert (StronglySorted output_lt rest) as Hr by (by apply StronglySorted_bfilter).
  assert (∃ l1, take n rest = l1 ++ [o]) as [l1 Ht].
  { apply last_Some in Hl. done. }
  assert (rest = l1 ++ o :: drop n rest) as Er.
  { rewrite <- (take_drop n rest) at 1. by rewrite Ht, <- app_assoc. }
  rewrite Er in Hr. pose proof (bfilter_after_split output_key l1 o (drop n rest) Hr) as Hsp.
  rewrite <- Er in Hsp. rewrite <- Hsp. unfold rest, outputs_after. rewrite bfilter_bfilter.
  apply bfilter_ext. intros x Hx. cbn [after_marker].
  destruct (str_cmp (output_key x) (output_key o)) eqn:E; rewrite ?andb_false_r, ?andb_true_r; try done.
  apply str_cmp_gt_lt in E. destruct marker as [m|]; [|done].
  assert (m ≺ output_key o) as Ho.
  { assert (o ∈ rest) as [Ho _]%elem_of_bfilter.
    { rewrite Er, elem_of_app, elem_of_cons. auto. }
    cbn [after_marker] in Ho. apply str_cmp_gt_lt. by destruct (str_cmp _ m). }
  cbn [after_marker]. assert (str_cmp (output_key x) m = Gt) as ->; [|done].
  apply str_cmp_gt_lt. by trans (output_key o).
Qed.

(** A client of [page_spec] pages reads everything after its marker, whatever
    the page size. *)
Lemma walk_pages_spec l n fetch fuel marker :
  StronglySorted output_lt l → n ≠ 0%N → (∀ m, fetch m = page_spec l n m) →
  length (outputs_after marker l) < fuel →
  ∃ ps, walk_pages fuel fetch marker = Some ps ∧
    List.concat (map contents ps) = objects (outputs_after marker l) ∧
    List.concat (map common_prefixes ps) = prefixes (outputs_after marker l) ∧
    Forall (λ p, (N.of_nat (length (contents p) + length (common_prefixes p)) <= n)%N) ps.
Proof.
  intros Hs Hn Hf. revert marker. induction fuel as [|fuel IH]; intros marker Hfuel; [lia|].
  cbn [walk_pages]. rewrite Hf. unfold page_spec. cbv zeta. cbn [next_token].
  set (rest := outputs_after marker l) in *.
  set (k := N.to_nat (N.min n (N.of_nat (length rest)))).
  assert (length (take k rest) <= N.to_nat n) as Hk by (rewrite length_take; lia).
  case_bool_decide as Hmore.
  - destruct (last (take k rest)) as [o|] eqn:El.
    2: { apply last_None in El. apply (f_equal length) in El. rewrite length_take in El. simpl in El. lia. }
    cbn [fmap option_fmap option_map]. pose proof (outputs_after_last l marker k o Hs El) as Hd.
    destruct (IH (Some (output_key o))) as (ps & -> & H1 & H2 & H3).
    { rewrite Hd. fold rest. rewrite length_drop. lia. }
    eexists. split; [done|]. cbn [map List.concat contents common_prefixes].
    rewrite H1, H2, Hd, <- objects_app, <- prefixes_app. fold rest. rewrite take_drop.
    split_and!; [done|done|]. constructor; [|done]. cbn [contents common_prefixes].
    rewrite objects_prefixes_length. lia.
  - eexists. split; [done|]. cbn [map List.concat contents common_prefixes].
    rewrite !app_nil_r, take_ge by lia. split_and!; [done|done|].
    constructor; [|constructor]. cbn [contents common_prefixes].
    rewrite objects_prefixes_length. unfold k in *. lia.
Qed.

Lemma outputs_after_none l : outputs_after None l = l.
Proof. apply bfilter_all, Forall_forall. done. Qed.

(** C25 A page of [paginate] is the segment of at most [max_keys] outputs after
    the marker, truncated exactly when outputs are left, and then with the
    last key of the segment as its token. *)
Theorem paginate_refines files dirs prefix d marker max_keys :
  NoDup (key <$> files) → max_keys ≠ 0%N →
  paginate files dirs prefix d marker max_keys =
  page_spec (all_outputs files dirs prefix d) max_keys marker.
Proof. apply paginate_page_spec. Qed.

(** Following the tokens from the start ends, and the pages together hold
    every object and every common prefix of the listing exactly once and in
    order, whatever the page size; no page exceeds it. *)
Theorem paginate_walk_complete files dirs prefix d max_keys :
  NoDup (key <$> files) → max_keys ≠ 0%N →
  let '(c, p) := listing_outputs files dirs prefix d in
  ∃ ps, walk_pages (S (length c + length p))
          (λ m, paginate files dirs prefix d m max_keys) None = Some ps ∧
    List.concat (map contents ps) = c ∧ List.concat (map common_prefixes ps) = p ∧
    Forall (λ pg, (N.of_nat (length (contents pg) + length (common_prefixes pg)) <= max_keys)%N) ps.
Proof.
  intros Hd Hm. pose proof (listing_outputs_ok files dirs prefix d Hd) as Hok.
  pose proof (all_outputs_sorted files dirs prefix d Hd) as Hs.
  pose proof (λ m, paginate_page_spec files dirs prefix d m max_keys Hd Hm) as Hf.
  unfold all_outputs in Hs, Hf. destruct (listing_outputs files dirs prefix d) as [c p].
  cbn [fst snd] in Hok.
  destruct (walk_pages_spec _ max_keys _ (S (length c + length p)) None Hs Hm Hf)
    as (ps & H1 & H2 & H3 & H4).
  { rewrite outputs_after_none. unfold merge_outputs. rewrite (sort_by_perm (key_cmp output_key)).
    rewrite length_app, !length_fmap. lia. }
  rewrite outputs_after_none, merge_outputs_objects in H2 by done.
  rewrite outputs_after_none, merge_outputs_prefixes in H3 by done. by exists ps.
Qed.

(** ** What is listed *)

(** The search of the code finds the first occurrence. *)
Lemma find_str_group d m i :
  d ≠ [] → find_str m d = Some i → group (Some d) m (take i m ++ d).
Proof.
  intros Hd Hf. pose proof (find_str_some _ _ _ Hf) as [Hl [b Hb]]. exists d, (take i m), b.
  split_and!; [done|done| |done|].
  - by rewrite <- Hb, take_drop.
  - intros a' b' ->. rewrite length_take. destruct (decide (i <= length a')) as [?|Hlt]; [lia|].
    pose proof (find_str_first _ _ _ (length a') Hf ltac:(lia)) as Hn.
    by rewrite drop_app_length, starts_with_app in Hn.
Qed.

Lemma group_find_str delimiter m q :
  group delimiter m q → ∃ d i, delimiter = Some d ∧ d ≠ [] ∧ find_str m d = Some i ∧ q = take i m ++ d.
Proof.
  intros (d & a & b & -> & Hd & -> & -> & Hmin).
  destruct (find_str (a ++ d ++ b) d) as [i|] eqn:E.
  - exists d, i. split_and!; [done..|]. destruct (find_str_group d _ i Hd E) as (d' & a' & b' & [= <-] & _ & Em & Eq & Hmin').
    rewrite Eq. f_equal. assert (length a = length a') as Hlen.
    { pose proof (Hmin a' b' Em). pose proof (Hmin' a b eq_refl). lia. }
    by apply (app_inj_1 a a' (d ++ b) (d ++ b')) in Em as [-> _].
  - apply (find_str_none _ _ (length a)) in E. by rewrite drop_app_length, starts_with_app in E.
Qed.

(** [collapse] is the grouping. *)
Lemma collapse_group prefix delimiter m p :
  collapse prefix (norm_delimiter delimiter) (prefix ++ m) = Some p ↔
  ∃ q, group delimiter m q ∧ p = prefix ++ q.
Proof.
  split.
  - unfold norm_delimiter. destruct delimiter as [d|]; [|done]. case_bool_decide as Hd; [done|].
    rewrite collapse_spec. destruct (find_str m d) as [i|] eqn:E; [|done]. intros [= <-].
    eexists. split; [by apply find_str_group|done].
  - intros (q & (d & i & -> & Hd & Hf & ->)%group_find_str & ->). unfold norm_delimiter.
    rewrite bool_decide_eq_false_2 by done. by rewrite collapse_spec, Hf.
Qed.

Lemma is_content_group prefix delimiter k :
  is_content prefix (norm_delimiter delimiter) k = true ↔ ∃ m, k = prefix ++ m ∧ ∀ q, ¬ group delimiter m q.
Proof.
  unfold is_content. rewrite andb_true_iff, starts_with_spec. split.
  - intros [[m ->] Hc]. exists m. split; [done|]. intros q Hq.
    assert (collapse prefix (norm_delimiter delimiter) (prefix ++ m) = Some (prefix ++ q)) as E
      by (apply collapse_group; eauto).
    by rewrite E in Hc.
  - intros (m & -> & Hn). split; [by eexists|].
    destruct (collapse _ _ _) as [p|] eqn:E; [|done]. apply collapse_group in E as (q & Hq & _). by destruct (Hn q).
Qed.

Lemma first_slash (a b a' b' : str) : slash ∉ a → a ++ slash :: b = a' ++ slash :: b' → length a <= length a'.
Proof.
  intros Ha E. destruct (decide (length a <= length a')) as [|Hlt]; [done|exfalso]. apply Ha.
  apply (f_equal (lookup (length a'))) in E. rewrite (list_lookup_middle a') in E by done.
  rewrite lookup_app_l in E by lia. by eapply list_elem_of_lookup_2.
Qed.

Lemma slash_group (a b q : str) : slash ∉ a → group (Some [slash]) (a ++ slash :: b) q ↔ q = a ++ [slash].
Proof.
  intros Ha. split.
  - intros (d & a' & b' & [= <-] & _ & E & -> & Hmin).
    pose proof (first_slash a b a' b' Ha E). pose proof (Hmin a b eq_refl).
    apply (app_inj_1 a a' (slash :: b) (slash :: b')) in E as [-> _]; [done|lia].
  - intros ->. exists [slash], a, b. split_and!; [done..|]. intros a' b'. by apply first_slash.
Qed.

(** And so is the common prefix of a directory. *)
Lemma dir_group prefix dir p :
  starts_with dir prefix = true ∧ p = dir_common_prefix prefix dir ↔
  ∃ m q, dir ++ [slash] = prefix ++ m ∧ group (Some [slash]) m q ∧ p = prefix ++ q.
Proof.
  assert (∀ r, dir_common_prefix prefix (prefix ++ r) = p ↔
    ∃ q, group (Some [slash]) (r ++ [slash]) q ∧ p = prefix ++ q) as Hr.
  { intros r. unfold dir_common_prefix. rewrite drop_app_length. cbv zeta.
    destruct (find_str r [slash]) as [i|] eqn:E.
    - apply find_byte_some in E as (a & b & -> & Ha & ->).
      rewrite <- app_assoc. setoid_rewrite (slash_group a (b ++ [slash])); [|done].
      replace (take (length a + 1) (a ++ slash :: b)) with (a ++ [slash]).
      { split; [intros <-; eauto|by intros (q & -> & ->)]. }
      rewrite (take_app_ge a) by lia. by replace (length a + 1 - length a) with 1 by lia.
    - apply find_byte_none in E. setoid_rewrite (slash_group r []); [|done].
      rewrite <- app_assoc. split; [intros <-; eauto|by intros (q & -> & ->)]. }
  split.
  - intros [[r ->]%starts_with_spec ->]. destruct (proj1 (Hr r)) as (q & Hq & E); [done|].
    exists (r ++ [slash]), q. by rewrite <- app_assoc, E.
  - intros (m & q & Hm & Hg & ->). destruct m as [|x r _] using rev_ind.
    { destruct Hg as (d & a & b & [= <-] & _ & E & _). by destruct a. }
    rewrite app_assoc in Hm. apply app_inj_2 in Hm as [-> [= <-]]; [|done].
    split; [apply starts_with_app|]. symmetry. apply Hr. eauto.
Qed.

(** What a listing without directories outputs. *)
Lemma elem_of_all_outputs es prefix d o :
  o ∈ all_outputs es [] prefix d ↔
  match o with
  | inl e => e ∈ es ∧ is_content prefix (norm_delimiter d) (key e) = true
  | inr p => ∃ e, e ∈ es ∧ starts_with (key e) prefix = true ∧
                  collapse prefix (norm_delimiter d) (key e) = Some p
  end.
Proof.
  unfold all_outputs, listing_outputs.
  pose proof (list_to_contents_contents es prefix d) as Hc.
  pose proof (elem_of_list_to_contents es prefix d) as Hp.
  destruct (list_to_contents es prefix d) as [c com]. cbn [fst snd] in Hc, Hp. subst c.
  rewrite elem_of_merge_outputs. destruct o as [e|p].
  - rewrite (sort_by_perm cmp_entry), elem_of_bfilter. tauto.
  - rewrite <- Hp, elem_of_dedup, (sort_by_perm str_cmp). unfold into_vec.
    case_bool_decide; [cbn [List.filter map]; by rewrite app_nil_r|done].
Qed.

(** The outputs of the code are the listing, and nothing else is. *)
Lemma all_outputs_listing files dirs prefix d :
  NoDup (key <$> files) → d = Some [slash] ∨ dirs = [] →
  listing_of files dirs prefix d (all_outputs files dirs prefix d).
Proof.
  intros Hn Hd. split; [by apply all_outputs_sorted|..].
  - intros e. unfold all_outputs, listing_outputs. pose proof (list_to_contents_contents files prefix d) as Hc.
    destruct (list_to_contents files prefix d) as [c com]. cbn [fst] in Hc. subst c.
    rewrite elem_of_merge_outputs, (sort_by_perm cmp_entry), elem_of_bfilter, is_content_group. tauto.
  - intros p. unfold all_outputs, listing_outputs. pose proof (elem_of_list_to_contents files prefix d p) as Hp.
    destruct (list_to_contents files prefix d) as [c com]. cbn [snd] in Hp.
    rewrite elem_of_merge_outputs, elem_of_dedup, (sort_by_perm str_cmp).
    trans ((∃ e, e ∈ files ∧ ∃ m q, key e = prefix ++ m ∧ group d m q ∧ p = prefix ++ q) ∨
           (∃ dir, dir ∈ dirs ∧ ∃ m q, dir ++ [slash] = prefix ++ m ∧ group d m q ∧ p = prefix ++ q)).
    2: { split.
         - intros [(e & He & m & q & ?)|(dir & ? & m & q & ?)]; [exists (key e), m, q|exists (dir ++ [slash]), m, q].
           + split; [left; by apply list_elem_of_fmap_2|done].
           + split; [right; by apply (list_elem_of_fmap_2 (λ dir, dir ++ [slash]))|done].
         - intros (k & m & q & [(e & -> & He)%list_elem_of_fmap|(dir & -> & Hdir)%list_elem_of_fmap] & ?); eauto 8. }
    assert (p ∈ com ↔ ∃ e, e ∈ files ∧ ∃ m q, key e = prefix ++ m ∧ group d m q ∧ p = prefix ++ q) as Hcom.
    { rewrite Hp. f_equiv. intros e. split.
      - intros (? & [m Hm]%starts_with_spec & Hc). rewrite Hm in Hc. apply collapse_group in Hc as (q & ? & ?). eauto 6.
      - intros (? & m & q & Hm & Hg). split_and!; [done|rewrite Hm; apply starts_with_app|].
        rewrite Hm. apply collapse_group. eauto. }
    destruct Hd as [->| ->].
    + rewrite bool_decide_eq_true_2 by done. rewrite elem_of_app, Hcom. f_equiv.
      rewrite list_elem_of_fmap. f_equiv. intros dir. rewrite elem_of_bfilter, <- dir_group. tauto.
    + assert (∀ b : bool, (if b then com ++ map (dir_common_prefix prefix) (List.filter (λ dir, starts_with dir prefix) []) else com) = com)
        as E by (intros []; [apply app_nil_r|done]).
      rewrite E, Hcom. split; [by left|]. by intros [?|(dir & ?%elem_of_nil & _)].
Qed.

Lemma listing_unique files dirs prefix d l l' :
  listing_of files dirs prefix d l → listing_of files dirs prefix d l' → l = l'.
Proof.
  intros [Hs Ho Hp] [Hs' Ho' Hp']. apply (strict_sorted_ext output_lt); [done..|].
  intros [e|p]; [by rewrite Ho, Ho'|by rewrite Hp, Hp'].
Qed.

Lemma listing_eq files dirs prefix d l :
  NoDup (key <$> files) → d = Some [slash] ∨ dirs = [] →
  listing_of files dirs prefix d l → l = all_outputs files dirs prefix d.
Proof. intros. eapply listing_unique; [done|by apply all_outputs_listing]. Qed.

(** A common prefix is at most the keys it stands for. *)
Lemma collapse_le prefix d k p :
  starts_with k prefix = true → collapse prefix d k = Some p → p ⪯ k.
Proof.
  destruct d as [d|]; [|done]. intros [m ->]%starts_with_spec. rewrite collapse_spec.
  destruct (find_str m d) as [i|] eqn:Ei; [|done]. intros [= <-].
  apply find_str_some in Ei as [_ [r Hr]]. apply str_le_app.
  rewrite <- (take_drop i m) at 2. rewrite Hr. apply str_le_app, str_prefix_le.
Qed.

(** A page depends on the files that match the prefix and are after the marker
    only, in any order. *)
Lemma paginate_ext es es' prefix d marker max_keys :
  NoDup (key <$> es) → NoDup (key <$> es') →
  (∀ e, starts_with (key e) prefix = true → after_marker marker (key e) = true →
     e ∈ es' ↔ e ∈ es) →
  paginate es' [] prefix d marker max_keys = paginate es [] prefix d marker max_keys.
Proof.
  intros Hd Hd' Hes. destruct (N.eq_dec max_keys 0) as [->|Hm]; [done|].
  rewrite !paginate_page_spec by done. unfold page_spec. cbv zeta.
  assert (outputs_after marker (all_outputs es' [] prefix d) =
          outputs_after marker (all_outputs es [] prefix d)) as ->; [|done].
  apply (strict_sorted_ext output_lt); [by apply StronglySorted_bfilter, all_outputs_sorted..|].
  intros o. unfold outputs_after. rewrite !elem_of_bfilter, !elem_of_all_outputs.
  assert (∀ A B C : Prop, (A → B ↔ C) → A ∧ B ↔ A ∧ C) as Hand by tauto. apply Hand.
  intros Ho. destruct o as [e|p]; cbn [output_key] in Ho.
  - split; intros [He Hc]; (split; [|done]); apply (Hes e); try done;
      unfold is_content in Hc; by apply andb_true_iff in Hc as [? _].
  - assert (∀ e, starts_with (key e) prefix = true →
              collapse prefix (norm_delimiter d) (key e) = Some p → after_marker marker (key e) = true) as Haf.
    { intros e Hst Hcol. destruct marker as [m|]; [|done]. cbn [after_marker] in *.
      assert (m ≺ key e) as Hlt; [|by apply str_cmp_gt_lt in Hlt; rewrite Hlt].
      apply (str_lt_le_trans _ p); [|by eapply collapse_le].
      apply str_cmp_gt_lt. by destruct (str_cmp p m). }
    split; intros (e & He & Hst & Hcol); exists e; split_and!; try done; apply Hes; eauto.
Qed.

(** Keys the marker has passed can be left out of the input of [paginate]:
    with a marker pushed down to the walk, a delimiter other than [/] gives
    the same page. *)
Theorem paginate_marker_pushdown entries prefix d marker max_keys :
  NoDup (key <$> entries) →
  paginate (List.filter (λ e, after_marker (Some marker) (key e)) entries) [] prefix d
    (Some marker) max_keys =
  paginate entries [] prefix d (Some marker) max_keys.
Proof.
  intros Hd. apply paginate_ext; [done|by apply NoDup_fmap_bfilter|].
  intros e _ Ha. rewrite elem_of_bfilter. tauto.
Qed.

(** ** One directory, delimiter [/] *)

(** The inputs the gateway passes: the children of the prefix's directory,
    [dp] being the prefix's part up to and including its last slash, each kind
    sorted by output key. *)
Record direct_children (dp : str) (files : list ListEntry) (dirs : list str) (prefix : str) :
    Prop := {
  dc_prefix : ∃ part, prefix = dp ++ part ∧ slash ∉ part;
  dc_files : ∀ f, f ∈ files → ∃ name, key f = dp ++ name ∧ slash ∉ name;
  dc_dirs : ∀ d, d ∈ dirs → ∃ name, d = dp ++ name ∧ slash ∉ name;
  dc_files_sorted : StronglySorted (key_lt key) files;
  dc_dirs_sorted : StronglySorted (key_lt (λ d, d ++ [slash])) dirs;
}.

(** The skip loops drop a prefix of the stream that is outside the range. *)
Section skip.
Context {A : Type} (out : A → str).

Fixpoint skip (fuel : nat) (l : list A) (prefix : str) (i : nat) : nat :=
  match fuel with
  | 0 => i
  | S fuel =>
      match l !! i with
      | None => i
      | Some x =>
          if starts_with (out x) prefix then i
          else match str_cmp (out x) prefix with
               | Gt => skip fuel l prefix (length l)
               | _ => skip fuel l prefix (S i)
               end
      end
  end.

Definition in_range_from (l : list A) (prefix : str) (i : nat) : list A :=
  List.filter (λ x, starts_with (out x) prefix) (drop i l).

Lemma skip_end fuel l prefix : skip fuel l prefix (length l) = length l.
Proof using Type.
  destruct fuel; [done|]. cbn [skip]. by rewrite lookup_ge_None_2 by lia.
Qed.

Lemma skip_spec fuel l prefix i :
  StronglySorted (key_lt out) l → length l - i <= fuel →
  let i' := skip fuel l prefix i in
  in_range_from l prefix i = in_range_from l prefix i' ∧
  in_range_from l prefix i' =
    match l !! i' with Some x => x :: in_range_from l prefix (S i') | None => [] end.
Proof using Type.
  intros Hs. revert i. induction fuel as [|fuel IH]; intros i Hf; cbv zeta; cbn [skip].
  { rewrite lookup_ge_None_2 by lia. unfold in_range_from. by rewrite drop_ge by lia. }
  destruct (l !! i) as [x|] eqn:Ex.
  2: { rewrite Ex. apply lookup_ge_None_1 in Ex. unfold in_range_from. by rewrite drop_ge. }
  pose proof (drop_S _ _ _ Ex) as Hd.
  destruct (starts_with (out x) prefix) eqn:Est.
  { rewrite Ex. unfold in_range_from. by rewrite Hd, bfilter_cons, Est. }
  assert (in_range_from l prefix i = in_range_from l prefix (S i)) as Hnext.
  { unfold in_range_from. by rewrite Hd, bfilter_cons, Est. }
  apply lookup_lt_Some in Ex.
  destruct (str_cmp (out x) prefix) eqn:Ec; [rewrite Hnext; apply IH; lia..|].
  rewrite skip_end, lookup_ge_None_2 by lia.
  assert (in_range_from l prefix (length l) = []) as ->
    by (unfold in_range_from; by rewrite drop_ge).
  split; [|done]. apply bfilter_none, Forall_forall.
  rewrite Hd. intros y Hy. apply (starts_with_past (out x)); [done|by apply str_lt_le, str_cmp_gt_lt|].
  apply elem_of_cons in Hy as [->|Hy]; [done|].
  apply str_lt_le. pose proof (StronglySorted_drop _ i _ Hs) as Hsd. rewrite Hd in Hsd.
  inversion Hsd as [|? ? _ HF]; subst. rewrite Forall_forall in HF. by apply HF.
Qed.

(** The two lower bounds leave the entries in the range after the marker. *)
Lemma slash_start_spec l prefix marker :
  StronglySorted (key_lt out) l →
  let a := partition_point (λ x, bool_decide (str_cmp (out x) prefix = Lt)) l in
  let i := match marker with
           | Some m => a `max` partition_point (λ x, bool_decide (str_cmp (out x) m ≠ Gt)) l
           | None => a
           end in
  in_range_from l prefix i =
  List.filter (λ x, starts_with (out x) prefix && after_marker marker (out x)) l.
Proof using Type.
  intros Hs. cbv zeta.
  destruct (partition_point_sorted (key_lt out) (λ x, bool_decide (str_cmp (out x) prefix = Lt)) l Hs)
    as [Ha _].
  { intros x y Hxy. rewrite !bool_decide_eq_true. intros Hy. by eapply (cmp_lt_trans (cmp:=str_cmp)). }
  set (a := partition_point (λ x, bool_decide (str_cmp (out x) prefix = Lt)) l) in *.
  assert (∀ x, x ∈ take a l → starts_with (out x) prefix = false) as Hlow.
  { intros x Hx. rewrite Forall_forall in Ha. specialize (Ha x Hx). apply bool_decide_eq_true in Ha.
    apply not_true_iff_false. intros Hst%starts_with_le. by apply str_le_not_lt in Hst. }
  assert (∀ i, (∀ x, x ∈ take i l → starts_with (out x) prefix && after_marker marker (out x) = false) →
               (∀ x, x ∈ drop i l → after_marker marker (out x) = true) →
            in_range_from l prefix i =
            List.filter (λ x, starts_with (out x) prefix && after_marker marker (out x)) l) as Hgen.
  { intros i Ht Hd. rewrite <- (take_drop i l) at 2. rewrite bfilter_app, bfilter_none by (by apply Forall_forall).
    apply bfilter_ext. intros x Hx. by rewrite (Hd x Hx), andb_true_r. }
  destruct marker as [m|]; [|apply Hgen; [intros x Hx; by rewrite Hlow|done]].
  destruct (partition_point_sorted (key_lt out) (λ x, bool_decide (str_cmp (out x) m ≠ Gt)) l Hs)
    as [Hb1 Hb2].
  { intros x y Hxy. rewrite !bool_decide_eq_true. intros Hy.
    apply str_lt_le. by eapply str_lt_le_trans. }
  set (b := partition_point (λ x, bool_decide (str_cmp (out x) m ≠ Gt)) l) in *.
  rewrite Forall_forall in Hb1. rewrite Forall_forall in Hb2. apply Hgen; intros x Hx.
  - destruct (Nat.max_spec a b) as [[_ Em]|[_ Em]]; rewrite Em in Hx; [|by rewrite Hlow].
    specialize (Hb1 x Hx). apply bool_decide_eq_true in Hb1. cbn [after_marker].
    destruct (str_cmp (out x) m); try done; by rewrite andb_false_r.
  - assert (x ∈ drop b l) as Hx'.
    { replace (a `max` b) with (b + (a `max` b - b)) in Hx by lia.
      rewrite <- drop_drop in Hx. by eapply elem_of_drop_inv. }
    specialize (Hb2 x Hx'). apply bool_decide_eq_false in Hb2. cbn [after_marker].
    destruct (str_cmp (out x) m); [by destruct Hb2..|done].
Qed.
End skip.

Lemma skip_files_eq fuel files prefix fi : skip_files fuel files prefix fi = skip key fuel files prefix fi.
Proof.
  revert fi. induction fuel as [|fuel IH]; intros fi; cbn [skip_files skip]; [done|].
  destruct (files !! fi); [|done]. destruct (starts_with _ _); [done|]. by rewrite !IH.
Qed.

Lemma skip_dirs_eq fuel dirs prefix di :
  skip_dirs fuel dirs prefix di = skip (λ d, d ++ [slash]) fuel dirs prefix di.
Proof.
  revert di. induction fuel as [|fuel IH]; intros di; cbn [skip_dirs skip]; [done|].
  destruct (dirs !! di) as [d|]; [|done]. rewrite dir_output_starts_with_str, cmp_dir_output_str.
  destruct (starts_with _ _); [done|]. by rewrite !IH.
Qed.

Abbreviation dir_out := (λ d : str, d ++ [slash]).

Section slash.
Context (dp : str) (files : list ListEntry) (dirs : list str) (prefix : str).
Context (Hdc : direct_children dp files dirs prefix).

(** The two streams from positions [fi] and [di] on. *)
Abbreviation files_from fi := (in_range_from key files prefix fi).
Abbreviation prefixes_from di := (dir_out <$> in_range_from dir_out dirs prefix di).

Lemma streams_ok f g :
  outputs_ok (List.filter f files) (dir_out <$> List.filter g dirs).
Proof using Hdc.
  destruct Hdc as [_ Hf Hd Hfs Hds]. split.
  - by apply StronglySorted_bfilter.
  - apply (StronglySorted_map dir_out str_lt). by apply StronglySorted_bfilter.
  - intros e q [_ He]%elem_of_bfilter (d & -> & [_ Hin]%elem_of_bfilter)%list_elem_of_fmap.
    destruct (Hf e He) as (n & -> & Hn). destruct (Hd d Hin) as (n' & -> & _).
    rewrite <- app_assoc. intros E%app_inv_head. subst n. apply Hn.
    apply elem_of_app. right. apply elem_of_cons. by left.
Qed.

Lemma streams_from_ok fi di : outputs_ok (files_from fi) (prefixes_from di).
Proof using Hdc.
  destruct (streams_ok (λ _, true) (λ _, true)) as [H1 H2 H3]. split.
  - apply StronglySorted_bfilter, StronglySorted_drop, Hdc.
  - apply (StronglySorted_map dir_out str_lt), StronglySorted_bfilter, StronglySorted_drop, Hdc.
  - intros e q [_ He%elem_of_drop_inv]%elem_of_bfilter
      (d & -> & [_ Hin%elem_of_drop_inv]%elem_of_bfilter)%list_elem_of_fmap.
    apply H3; [by apply elem_of_bfilter|]. apply list_elem_of_fmap. exists d.
    split; [done|by apply elem_of_bfilter].
Qed.

(** What the loop adds to its state when [rest] is left and [k] more fit. *)
Definition loop_result (st : SlashState) (rest : list output) (k : N) : Page :=
  let n := N.to_nat (N.min k (N.of_nat (length rest))) in
  let more := bool_decide (n < length rest) in
  {| contents := st_contents st ++ objects (take n rest);
     common_prefixes := st_prefixes st ++ prefixes (take n rest);
     is_truncated := more;
     next_token := if more then
                     match last (take n rest) with
                     | Some o => Some (output_key o)
                     | None => st_last_key st
                     end
                   else None |}.

(** The state after one output. *)
Definition push_output (st : SlashState) (o : output) : SlashState :=
  match o with
  | inl f => mkSlashState (st_contents st ++ [f]) (st_prefixes st) (Some (key f))
  | inr p => mkSlashState (st_contents st) (st_prefixes st ++ [p]) (Some p)
  end.

Definition st_count (st : SlashState) : N :=
  N.of_nat (length (st_contents st) + length (st_prefixes st)).

Lemma loop_result_step st o rest k :
  k ≠ 0%N → loop_result st (o :: rest) k = loop_result (push_output st o) rest (k - 1).
Proof using Type.
  intros Hk. unfold loop_result. cbn [length].
  replace (N.to_nat (N.min k (N.of_nat (S (length rest)))))
    with (S (N.to_nat (N.min (k - 1) (N.of_nat (length rest))))) by lia.
  set (n := N.to_nat _). cbn [take].
  rewrite (bool_decide_ext (S n < S (length rest)) (n < length rest)) by lia.
  rewrite last_cons. destruct o as [f|p]; cbn [push_output st_contents st_prefixes st_last_key];
    rewrite <- !app_assoc; by destruct (last (take n rest)).
Qed.

Lemma push_output_count st o : st_count (push_output st o) = (st_count st + 1)%N.
Proof using Type. destruct o; unfold st_count; simpl; rewrite length_app; simpl; lia. Qed.

(** One turn: the smaller of the two fronts, and the streams after it. *)
Lemma merge_fronts fi di :
  merge_outputs (files_from fi) (prefixes_from di) =
  let fi := skip_files (length files) files prefix fi in
  let di := skip_dirs (length dirs) dirs prefix di in
  match files !! fi, dirs !! di with
  | None, None => []
  | Some f, Some d =>
      match cmp_dir_output d (key f) with
      | Gt => inl f :: merge_outputs (files_from (S fi)) (prefixes_from di)
      | _ => inr (dir_out d) :: merge_outputs (files_from fi) (prefixes_from (S di))
      end
  | Some f, None => inl f :: merge_outputs (files_from (S fi)) (prefixes_from di)
  | None, Some d => inr (dir_out d) :: merge_outputs (files_from fi) (prefixes_from (S di))
  end.
Proof using Hdc.
  cbv zeta.
  destruct (skip_spec key (length files) files prefix fi) as [E1 F1]; [apply Hdc|lia|].
  destruct (skip_spec dir_out (length dirs) dirs prefix di) as [E2 F2]; [apply Hdc|lia|].
  rewrite <- skip_files_eq in E1, F1. rewrite <- skip_dirs_eq in E2, F2. rewrite E1, E2.
  set (fi' := skip_files _ _ _ fi) in *. set (di' := skip_dirs _ _ _ di) in *. clearbody fi' di'.
  rewrite (merge_outputs_step _ _ (streams_from_ok fi' di')).
  pose proof (streams_from_ok (S fi') di') as O1. pose proof (streams_from_ok fi' (S di')) as O2.
  rewrite F1, F2. rewrite F1 in O2. rewrite F2 in O1.
  destruct (files !! fi') as [f|], (dirs !! di') as [d|]; cbn [fmap list_fmap]; cbn [fmap list_fmap] in O1, O2.
  - by rewrite cmp_dir_output_str.
  - f_equal. symmetry. apply merge_outputs_nil_r, O1.
  - f_equal. symmetry. apply merge_outputs_nil_l, O2.
  - done.
Qed.

Lemma loop_result_done st k : loop_result st [] k = finish_page st false.
Proof using Type.
  unfold loop_result, finish_page. cbn [length].
  replace (N.to_nat (N.min k (N.of_nat 0))) with 0 by lia.
  rewrite take_0. cbn [objects prefixes omap list_omap]. by rewrite !app_nil_r.
Qed.

Lemma loop_result_full st o rest : loop_result st (o :: rest) 0 = finish_page st true.
Proof using Type.
  unfold loop_result, finish_page. rewrite N.min_0_l. cbn [N.to_nat length].
  rewrite take_0, bool_decide_eq_true_2 by lia. cbn [objects prefixes omap list_omap last].
  by rewrite !app_nil_r.
Qed.

Lemma slash_loop_spec fuel max_keys fi di st :
  (st_count st <= max_keys)%N →
  length (merge_outputs (files_from fi) (prefixes_from di)) < fuel →
  slash_loop fuel files dirs prefix max_keys fi di st =
  Some (loop_result st (merge_outputs (files_from fi) (prefixes_from di)) (max_keys - st_count st)).
Proof using Hdc.
  revert fi di st. induction fuel as [|fuel IH]; intros fi di st Hc Hf; [lia|].
  cbn [slash_loop]. cbv zeta. rewrite merge_fronts in Hf |- *. cbv zeta in Hf |- *.
  set (fi' := skip_files _ _ _ fi) in *. set (di' := skip_dirs _ _ _ di) in *. fold (st_count st).
  assert (∀ o rest fi1 di1, rest = merge_outputs (files_from fi1) (prefixes_from di1) →
    length (o :: rest) < S fuel →
    (if N.eqb (st_count st) max_keys then Some (finish_page st true)
     else slash_loop fuel files dirs prefix max_keys fi1 di1 (push_output st o)) =
    Some (loop_result st (o :: rest) (max_keys - st_count st))) as Hstep.
  { intros o rest fi1 di1 -> Hl. simpl in Hl. destruct (N.eqb_spec (st_count st) max_keys) as [<-|Hne].
    - by rewrite N.sub_diag, loop_result_full.
    - rewrite IH by (rewrite ?push_output_count; lia).
      rewrite loop_result_step by lia. rewrite push_output_count. do 2 f_equal. lia. }
  destruct (files !! fi') as [f|], (dirs !! di') as [d|].
  - destruct (cmp_dir_output d (key f)) eqn:Ec.
    + by rewrite <- (Hstep (inr (dir_out d)) _ fi' (S di') eq_refl Hf).
    + by rewrite <- (Hstep (inr (dir_out d)) _ fi' (S di') eq_refl Hf).
    + by rewrite <- (Hstep (inl f) _ (S fi') di' eq_refl Hf).
  - by rewrite <- (Hstep (inl f) _ (S fi') di' eq_refl Hf).
  - by rewrite <- (Hstep (inr (dir_out d)) _ fi' (S di') eq_refl Hf).
  - by rewrite loop_result_done.
Qed.

(** No child's remainder has a slash. *)
Lemma child_no_slash k m :
  (∃ name, k = dp ++ name ∧ slash ∉ name) → k = prefix ++ m → find_str m [slash] = None.
Proof using Hdc.
  destruct (dc_prefix _ _ _ _ Hdc) as (part & -> & _). intros (n & -> & Hn) Hm.
  apply find_byte_none. intros Hin. apply Hn.
  rewrite <- app_assoc in Hm. apply app_inv_head in Hm. rewrite Hm. apply elem_of_app. auto.
Qed.

Lemma slash_contents :
  list_to_contents files prefix (Some [slash]) =
  (List.filter (λ f, starts_with (key f) prefix) files, []).
Proof using Hdc.
  assert (∀ f, f ∈ files → starts_with (key f) prefix = true →
            collapse prefix (Some [slash]) (key f) = None) as Hnc.
  { intros f Hin [m Hm]%starts_with_spec. pose proof (dc_files _ _ _ _ Hdc f Hin) as Hf.
    rewrite Hm, collapse_spec. by rewrite (child_no_slash _ m Hf Hm). }
  pose proof (list_to_contents_contents files prefix (Some [slash])) as Hc.
  pose proof (elem_of_list_to_contents files prefix (Some [slash])) as He.
  destruct (list_to_contents files prefix (Some [slash])) as [c com]. cbn [fst snd] in Hc, He.
  change (norm_delimiter (Some [slash])) with (Some [slash]) in Hc, He. f_equal.
  - rewrite Hc. apply bfilter_ext. intros f Hin. unfold is_content.
    destruct (starts_with (key f) prefix) eqn:Est; [|done]. by rewrite Hnc.
  - destruct com as [|x com]; [done|].
    destruct (proj1 (He x)) as (f & Hin & Hst & Hcol); [apply elem_of_cons; by left|].
    by rewrite Hnc in Hcol.
Qed.

Lemma slash_prefixes :
  map (dir_common_prefix prefix) (List.filter (λ dir, starts_with dir prefix) dirs) =
  dir_out <$> List.filter (λ d, starts_with (dir_out d) prefix) dirs.
Proof using Hdc.
  rewrite (bfilter_ext (λ d, starts_with (dir_out d) prefix) (λ d, starts_with d prefix)).
  - apply map_ext_in. intros d [Hst Hin]%list_elem_of_In%elem_of_bfilter.
    apply starts_with_spec in Hst as [m Hm].
    pose proof (child_no_slash d m (dc_dirs _ _ _ _ Hdc d Hin) Hm) as Hno.
    unfold dir_common_prefix. cbv zeta. by rewrite Hm, drop_app_length, Hno.
  - intros d Hin. destruct (dc_dirs _ _ _ _ Hdc d Hin) as (n & -> & Hns).
    destruct (dc_prefix _ _ _ _ Hdc) as (part & Hp & Hps). apply eq_true_iff_eq. rewrite Hp.
    rewrite !starts_with_spec. split.
    + intros [r E]. rewrite <- !app_assoc in E. apply app_inv_head in E.
      destruct r as [|x r _] using rev_ind.
      { rewrite app_nil_r in E. subst part. destruct Hps. apply elem_of_app. right.
        apply elem_of_cons. by left. }
      rewrite app_assoc in E. apply app_inj_tail in E as [-> _]. exists r. by rewrite app_assoc.
    + intros [r E]. exists (r ++ [slash]). rewrite E. by rewrite !app_assoc.
Qed.

(** The children collapse to themselves: files to contents, directories to
    their output keys. *)
Lemma slash_outputs :
  listing_outputs files dirs prefix (Some [slash]) =
  (List.filter (λ f, starts_with (key f) prefix) files,
   dir_out <$> List.filter (λ d, starts_with (dir_out d) prefix) dirs).
Proof using Hdc.
  pose proof (streams_ok (λ f, starts_with (key f) prefix) (λ d, starts_with (dir_out d) prefix)) as Hok.
  unfold listing_outputs. rewrite slash_contents. unfold into_vec. rewrite bool_decide_eq_true_2 by done.
  cbn [app]. rewrite slash_prefixes. f_equal; [apply (sort_by_key_id key); apply Hok|].
  change (sort_by str_cmp) with (sort_by (key_cmp (@id str))).
  rewrite (sort_by_key_id id) by (apply (key_lt_map id); rewrite list_fmap_id; apply Hok).
  apply (dedup_id str_lt), Hok.
Qed.
End slash.

Lemma slash_start_eq files dirs prefix marker :
  slash_start files dirs prefix marker =
    (match marker with
     | Some m => partition_point (λ f, bool_decide (str_cmp (key f) prefix = Lt)) files
                 `max` partition_point (λ f, bool_decide (str_cmp (key f) m ≠ Gt)) files
     | None => partition_point (λ f, bool_decide (str_cmp (key f) prefix = Lt)) files
     end,
     match marker with
     | Some m => partition_point (λ d, bool_decide (str_cmp (dir_out d) prefix = Lt)) dirs
                 `max` partition_point (λ d, bool_decide (str_cmp (dir_out d) m ≠ Gt)) dirs
     | None => partition_point (λ d, bool_decide (str_cmp (dir_out d) prefix = Lt)) dirs
     end).
Proof.
  unfold slash_start. cbv zeta.
  rewrite (partition_point_ext (λ d, bool_decide (cmp_dir_output d prefix = Lt))
             (λ d, bool_decide (str_cmp (dir_out d) prefix = Lt)))
    by (intros d; by rewrite cmp_dir_output_str).
  destruct marker as [m|]; [|done].
  by rewrite (partition_point_ext (λ d, bool_decide (cmp_dir_output d m ≠ Gt))
               (λ d, bool_decide (str_cmp (dir_out d) m ≠ Gt)))
    by (intros d; by rewrite cmp_dir_output_str).
Qed.

Lemma paginate_slash_eq dp files dirs prefix marker max_keys :
  direct_children dp files dirs prefix →
  paginate_slash files dirs prefix marker max_keys =
  Some (paginate files dirs prefix (Some [slash]) marker max_keys).
Proof.
  intros Hdc. unfold paginate_slash. destruct (N.eqb_spec max_keys 0) as [->|Hm]; [done|].
  rewrite paginate_page_spec;
    [|apply (strict_sorted_NoDup str_lt), (StronglySorted_map key str_lt), Hdc|done].
  unfold all_outputs. rewrite (slash_outputs dp) by done.
  pose proof (streams_ok dp files dirs prefix Hdc) as Hok. rewrite slash_start_eq.
  pose proof (slash_start_spec key files prefix marker (dc_files_sorted _ _ _ _ Hdc)) as Hsf.
  pose proof (slash_start_spec dir_out dirs prefix marker (dc_dirs_sorted _ _ _ _ Hdc)) as Hsd.
  cbv zeta in Hsf, Hsd. set (fi := match marker with Some _ => _ | None => _ end) in Hsf |- *.
  set (di := match marker with Some _ => _ | None => _ end) in Hsd |- *.
  assert (merge_outputs (in_range_from key files prefix fi)
            (dir_out <$> in_range_from dir_out dirs prefix di) =
          outputs_after marker
            (merge_outputs (List.filter (λ f, starts_with (key f) prefix) files)
               (dir_out <$> List.filter (λ d, starts_with (dir_out d) prefix) dirs))) as Hrest.
  { unfold outputs_after. rewrite merge_outputs_filter by done. f_equal.
    - rewrite Hsf, bfilter_bfilter. done.
    - rewrite Hsd, bfilter_map, bfilter_bfilter. done. }
  rewrite (slash_loop_spec dp); [|done|unfold st_count; simpl; lia|].
  - rewrite Hrest. unfold loop_result, page_spec, st_count. cbn [st_contents st_prefixes length Nat.add app].
    by rewrite N.sub_0_r.
  - rewrite Hrest. pose proof (outputs_after_length marker
      (merge_outputs (List.filter (λ f, starts_with (key f) prefix) files)
               (dir_out <$> List.filter (λ d, starts_with (dir_out d) prefix) dirs))) as Hl.
    unfold merge_outputs in Hl at 2. rewrite (sort_by_perm (key_cmp output_key)) in Hl.
    rewrite length_app, !length_fmap in Hl.
    pose proof (List.filter_length_le (λ f, starts_with (key f) prefix) files).
    pose proof (List.filter_length_le (λ d, starts_with (dir_out d) prefix) dirs). lia.
Qed.

(** C23 For the children of the prefix's directory, the binary searches and the
    merge of [paginate_slash] compute the page of [paginate], and within its
    fuel. *)
Theorem paginate_slash_equiv dp files dirs prefix marker max_keys :
  direct_children dp files dirs prefix →
  paginate_slash files dirs prefix marker max_keys =
  Some (paginate files dirs prefix (Some [slash]) marker max_keys).
Proof. apply paginate_slash_eq. Qed.

(** ** Witnesses *)

(** The children of [a/]: two files, and a directory whose output key sorts
    after a sibling file that extends its name. *)
Definition demo_files : list ListEntry := [mkListEntry $"a/b.txt" 1 0; mkListEntry $"a/z" 2 0].
Definition demo_dirs : list str := [$"a/b"; $"a/c"].

Lemma demo_children : direct_children $"a/" demo_files demo_dirs $"a/".
Proof.
  split.
  - exists []. split; [done|apply not_elem_of_nil].
  - intros f. unfold demo_files. rewrite !elem_of_cons, elem_of_nil.
    intros [->|[->|[]]]; [exists $"b.txt"|exists $"z"]; split; try done; by apply rfind_slash_none.
  - intros d. unfold demo_dirs. rewrite !elem_of_cons, elem_of_nil.
    intros [->|[->|[]]]; [exists $"b"|exists $"c"]; split; try done; by apply rfind_slash_none.
  - by repeat constructor.
  - by repeat constructor.
Qed.

Lemma demo_nodup : NoDup (key <$> demo_files).
Proof. apply (strict_sorted_NoDup str_lt), (StronglySorted_map key str_lt), demo_children. Qed.

Example paginate_refines_witness :
  paginate demo_files demo_dirs $"a/" (Some [slash]) (Some $"a/b.txt") 1 =
  page_spec (all_outputs demo_files demo_dirs $"a/" (Some [slash])) 1 (Some $"a/b.txt").
Proof. by apply paginate_refines; [apply demo_nodup|]. Defined.

(** The page after the file [a/b.txt] starts with the directory [a/b/]. *)
Example demo_page :
  paginate demo_files demo_dirs $"a/" (Some [slash]) (Some $"a/b.txt") 1 =
  mkPage [] [$"a/b/"] true (Some $"a/b/").
Proof. vm_compute. reflexivity. Qed.

Example paginate_walk_complete_witness :
  let '(c, p) := listing_outputs demo_files demo_dirs $"a/" (Some [slash]) in
  ∃ ps, walk_pages (S (length c + length p))
          (λ m, paginate demo_files demo_dirs $"a/" (Some [slash]) m 1) None = Some ps ∧
    List.concat (map contents ps) = c ∧ List.concat (map common_prefixes ps) = p ∧
    Forall (λ pg, (N.of_nat (length (contents pg) + length (common_prefixes pg)) <= 1)%N) ps.
Proof. by apply (paginate_walk_complete _ _ _ _ 1); [apply demo_nodup|]. Defined.

Example paginate_marker_pushdown_witness :
  paginate (List.filter (λ e, after_marker (Some $"a/b.") (key e)) demo_files) [] [] (Some $".")
    (Some $"a/b.") 5 =
  paginate demo_files [] [] (Some $".") (Some $"a/b.") 5.
Proof. apply paginate_marker_pushdown, demo_nodup. Defined.

Example paginate_slash_equiv_witness :
  paginate_slash demo_files demo_dirs $"a/" (Some $"a/b.txt") 2 =
  Some (paginate demo_files demo_dirs $"a/" (Some [slash]) (Some $"a/b.txt") 2).
Proof. apply (paginate_slash_equiv $"a/"), demo_children. Defined.
