(* ===== verification/SortedListing.v ===== *)
(** The flat listing: [src/s3/sorted_listing.rs].

    A lazy merge of per-directory listings in key order. Listing a directory
    is the interface [DirLister], a program over the state its implementation
    shares with the other requests (caches, clock), which may run between any
    two of its accesses; the merge is proved against any lister that reads a
    fixed namespace. *)

From S2P Require Import Prelude Prog Bytes Config Path HdfsError Listing.

(** The fields of [hdfs_native::client::FileStatus] the program reads. *)
Record FileStatus := mkFileStatus {
  fs_path : str;
  fs_length : N;
  fs_isdir : bool;
  fs_modification_time : N;
}.

(** [trait DirLister]: one directory's children, non-recursively. *)
Class DirLister (S : Type) :=
  list_dir : str → Prog S (result DirListing HdfsError).

(** The loop of [listing_from_statuses] over the statuses. *)
Definition classify_status (mapper : PathMapper) (acc : list ListEntry * list str)
    (status : FileStatus) : list ListEntry * list str :=
  let '(files, dirs) := acc in
  match hdfs_path_to_key mapper (fs_path status) with
  | None => (files, dirs)
  | Some k =>
      if bool_decide (k = []) then (files, dirs)
      else if fs_isdir status then (files, dirs ++ [k])
      else (files ++ [mkListEntry k (fs_length status) (fs_modification_time status)], dirs)
  end.

Definition listing_from_statuses (statuses : list FileStatus) (mapper : PathMapper) :
    DirListing :=
  let '(files, dirs) := foldl (classify_status mapper) ([], []) statuses in
  mkDirListing (sort_by cmp_entry files) (sort_by cmp_dir_keys dirs).

(** ** Cursors *)

Record Cursor := mkCursor {
  cur_listing : DirListing;
  cur_files : bool;
  cur_idx : nat;
}.

Definition cursor_len (c : Cursor) : nat :=
  if cur_files c then length (files (cur_listing c)) else length (dirs (cur_listing c)).

(** Indexing panics out of range; a cursor is only kept in range. *)
Definition cursor_front (c : Cursor) : str :=
  if cur_files c then
    match files (cur_listing c) !! cur_idx c with Some f => key f | None => [] end
  else or_else (dirs (cur_listing c) !! cur_idx c) [].

Definition advance (c : Cursor) : bool * Cursor :=
  let c := mkCursor (cur_listing c) (cur_files c) (S (cur_idx c)) in
  (bool_decide (cur_idx c < cursor_len c), c).

(** [impl Ord for Cursor]. *)
Definition cursor_cmp (a b : Cursor) : comparison :=
  match cur_files a, cur_files b with
  | true, true => str_cmp (cursor_front a) (cursor_front b)
  | false, false => cmp_dir_keys (cursor_front a) (cursor_front b)
  | true, false => cmp_file_dir (cursor_front a) (cursor_front b)
  | false, true => CompOpp (cmp_file_dir (cursor_front b) (cursor_front a))
  end.

Definition dir_children_all_before (dir_key after : str) : bool :=
  let common := min (length dir_key) (length after) in
  match str_cmp (take common dir_key) (take common after) with
  | Lt => true
  | Gt => false
  | Eq =>
      if bool_decide (length dir_key = length after) then false
      else if bool_decide (length dir_key < length after) then
        match after !! length dir_key with
        | Some c => match byte_cmp c slash with Gt => true | _ => false end
        | None => false
        end
      else false
  end.

Definition dirs_start_after (dirs : list str) (marker : str) : nat :=
  let start := partition_point (λ d, bool_decide (cmp_dir_output d marker ≠ Gt)) dirs in
  if bool_decide (0 < start) then
    let candidate := or_else (dirs !! (start - 1)) [] in
    if bool_decide (length candidate < length marker) && starts_with marker candidate
       && bool_decide (marker !! length candidate = Some slash)
    then start - 1 else start
  else start.

(** ** The frontier *)

(** [BinaryHeap<Reverse<Cursor>>] as the cursors it holds: [push] adds one,
    [pop] removes a least one. *)
Fixpoint heap_pop (heap : list Cursor) : option (Cursor * list Cursor) :=
  match heap with
  | [] => None
  | c :: heap =>
      match heap_pop heap with
      | None => Some (c, [])
      | Some (m, rest) =>
          match cursor_cmp c m with
          | Gt => Some (m, c :: rest)
          | _ => Some (c, heap)
          end
      end
  end.

Record SortedListing := mkSortedListing {
  sl_mapper : PathMapper;
  sl_prefix : str;
  sl_after : option str;
  sl_start : str;
  sl_heap : list Cursor;
  sl_start_seeded : bool;
  sl_exhausted : bool;
}.

(** [SortedListing::new]; the lister is the [DirLister] instance. *)
Definition new_listing (start prefix : str) (after : option str) (mapper : PathMapper) :
    SortedListing :=
  mkSortedListing mapper prefix after start [] false false.

Definition set_heap (heap : list Cursor) (sl : SortedListing) : SortedListing :=
  mkSortedListing (sl_mapper sl) (sl_prefix sl) (sl_after sl) (sl_start sl) heap
    (sl_start_seeded sl) (sl_exhausted sl).

Definition set_seeded (sl : SortedListing) : SortedListing :=
  mkSortedListing (sl_mapper sl) (sl_prefix sl) (sl_after sl) (sl_start sl) (sl_heap sl)
    true (sl_exhausted sl).

Definition set_exhausted (sl : SortedListing) : SortedListing :=
  mkSortedListing (sl_mapper sl) (sl_prefix sl) (sl_after sl) (sl_start sl) (sl_heap sl)
    (sl_start_seeded sl) true.

(** The two cursors of a listing, as [push_listing] positions them. *)
Definition listing_cursors (after : option str) (listing : DirListing) : list Cursor :=
  let '(files_start, dirs_start) :=
    match after with
    | Some marker =>
        (partition_point (λ f, bool_decide (str_cmp (key f) marker ≠ Gt)) (files listing),
         dirs_start_after (dirs listing) marker)
    | None => (0, 0)
    end in
  (if bool_decide (files_start < length (files listing))
   then [mkCursor listing true files_start] else []) ++
  (if bool_decide (dirs_start < length (dirs listing))
   then [mkCursor listing false dirs_start] else []).

Definition push_listing (listing : DirListing) (sl : SortedListing) : SortedListing :=
  set_heap (listing_cursors (sl_after sl) listing ++ sl_heap sl) sl.

(** ** The merge *)

Section merge.
Context {S : Type} `{!DirLister S}.

(** The loop of [next_entry]; [None] when the fuel runs out or where an index
    out of range would panic. *)
Fixpoint next_loop (fuel : nat) (sl : SortedListing) :
    Prog S (option (result (option ListEntry) HdfsError * SortedListing)) :=
  match fuel with
  | 0 => Done None
  | Datatypes.S fuel =>
      match heap_pop (sl_heap sl) with
      | None => Done (Some (Ok None, set_exhausted sl))
      | Some (cursor, heap) =>
          let '(more, next) := advance cursor in
          let sl := set_heap (if more then next :: heap else heap) sl in
          if cur_files cursor then
            match files (cur_listing cursor) !! cur_idx cursor with
            | None => Done None
            | Some entry =>
                if negb (starts_with (key entry) (sl_prefix sl)) then next_loop fuel sl
                else if negb (after_marker (sl_after sl) (key entry)) then next_loop fuel sl
                else Done (Some (Ok (Some entry), sl))
            end
          else
            match dirs (cur_listing cursor) !! cur_idx cursor with
            | None => Done None
            | Some k =>
                if negb (starts_with k (sl_prefix sl)) then next_loop fuel sl
                else if (match sl_after sl with
                         | Some after => dir_children_all_before k after
                         | None => false
                         end) then next_loop fuel sl
                else
                  match key_to_hdfs_path (sl_mapper sl) k with
                  | None => next_loop fuel sl
                  | Some hdfs_path =>
                      pbind (list_dir hdfs_path) (λ r,
                      match r with
                      | Ok listing => next_loop fuel (push_listing listing sl)
                      | Err e =>
                          if is_dir_denied e then next_loop fuel sl
                          else match e with
                               | FileNotFound _ => next_loop fuel sl
                               | _ => Done (Some (Err e, sl))
                               end
                      end)
                  end
            end
      end
  end.

Definition next_entry (fuel : nat) (sl : SortedListing) :
    Prog S (option (result (option ListEntry) HdfsError * SortedListing)) :=
  if sl_exhausted sl then Done (Some (Ok None, sl))
  else if negb (sl_start_seeded sl) then
    let sl := set_seeded sl in
    pbind (list_dir (sl_start sl)) (λ r,
    match r with
    | Ok listing => next_loop fuel (push_listing listing sl)
    | Err (FileNotFound _) => Done (Some (Ok None, set_exhausted sl))
    | Err e => Done (Some (Err e, sl))
    end)
  else next_loop fuel sl.

(** The loop of [collect_page], [fuel] for each pull and [turns] of them. *)
Fixpoint collect_loop (turns fuel : nat) (max_keys : N) (page : list ListEntry)
    (sl : SortedListing) : Prog S (option (result (list ListEntry * bool) HdfsError)) :=
  match turns with
  | 0 => Done None
  | Datatypes.S turns =>
      pbind (next_entry fuel sl) (λ r,
      match r with
      | None => Done None
      | Some (Err e, _) => Done (Some (Err e))
      | Some (Ok entry, sl) =>
          if N.ltb (N.of_nat (length page)) max_keys then
            match entry with
            | Some entry => collect_loop turns fuel max_keys (page ++ [entry]) sl
            | None => Done (Some (Ok (page, false)))
            end
          else Done (Some (Ok (page, match entry with Some _ => true | None => false end)))
      end)
  end.

Definition collect_page (fuel : nat) (max_keys : N) (sl : SortedListing) :
    Prog S (option (result (list ListEntry * bool) HdfsError)) :=
  if N.eqb max_keys 0 then Done (Some (Ok ([], false)))
  else collect_loop fuel fuel max_keys [] sl.
End merge.
