(* ===== verification/Merge.v ===== *)
(** The lazy merge implements the walk of the whole subtree.

    [walk_start] is the recursive listing the merge replaces: every directory
    opened, every file collected. Over a fixed namespace whose listings are
    well formed, [collect_page] returns the requested page of the walk's files,
    sorted, with an exact truncation flag, within a number of turns the walk
    bounds. *)

From S2P Require Import Prelude Prog Bytes Config Path HdfsError Listing SortedListing.

(** ** The walk *)

(** The errors of a subdirectory that the flat listing passes over. *)
Definition skippable (e : HdfsError) : bool :=
  is_dir_denied e || match e with FileNotFound _ => true | _ => false end.

Section walk.
Context (m : PathMapper) (ns : str → result DirListing HdfsError).

(** The files below a list of directories, and the number of entries seen. *)
Fixpoint walk_dirs (walk : str → option (list ListEntry * nat)) (ks : list str) :
    option (list ListEntry * nat) :=
  match ks with
  | [] => Some ([], 0)
  | k :: ks =>
      match walk k, walk_dirs walk ks with
      | Some (es, n), Some (es', n') => Some (es ++ es', S (n + n'))
      | _, _ => None
      end
  end.

(** The files below the directory with key [k]; [None] past the depth bound
    or on an error that is not skipped. *)
Fixpoint walk_dir (depth : nat) (k : str) : option (list ListEntry * nat) :=
  match depth with
  | 0 => None
  | S depth =>
      match key_to_hdfs_path m k with
      | None => Some ([], 0)
      | Some p =>
          match ns p with
          | Ok l =>
              match walk_dirs (walk_dir depth) (dirs l) with
              | Some (es, n) => Some (files l ++ es, length (files l) + n)
              | None => None
              end
          | Err e => if skippable e then Some ([], 0) else None
          end
      end
  end.

Definition walk_start (depth : nat) (start : str) : option (list ListEntry * nat) :=
  match ns start with
  | Ok l =>
      match walk_dirs (walk_dir depth) (dirs l) with
      | Some (es, n) => Some (files l ++ es, length (files l) + n)
      | None => None
      end
  | Err (FileNotFound _) => Some ([], 0)
  | Err _ => None
  end.
End walk.

(** ** Well-formed listings *)

(** The listing of the directory with components [ds] (below the root): its
    children, each kind sorted by output key. *)
Record children_of (ds : list str) (l : DirListing) : Prop := {
  co_files : ∀ f, f ∈ files l → ∃ n, valid_seg n ∧ key f = join_slash (ds ++ [n]);
  co_dirs : ∀ d, d ∈ dirs l → ∃ n, valid_seg n ∧ d = join_slash (ds ++ [n]);
  co_files_sorted : StronglySorted (key_lt key) (files l);
  co_dirs_sorted : StronglySorted (key_lt (λ d, d ++ [slash])) (dirs l);
}.

(** A namespace all of whose listings are well formed. *)
Definition ns_wf (rs : list str) (ns : str → result DirListing HdfsError) : Prop :=
  ∀ ds l, Forall valid_seg ds → ns (abs_path (rs ++ ds)) = Ok l → children_of ds l.

(** A clean key strictly below the directory [ds]. *)
Definition below (ds : list str) (k : str) : Prop :=
  ∃ x xs, Forall valid_seg (x :: xs) ∧ k = join_slash (ds ++ x :: xs).

(** ** Keys of a subtree *)

Lemma below_dir ds n k :
  below (ds ++ [n]) k → ∃ r, k = join_slash (ds ++ [n]) ++ slash :: r.
Proof.
  intros (x & xs & _ & ->). exists (join_slash (x :: xs)). apply join_slash_app; [|done].
  by destruct ds.
Qed.

Lemma below_up ds n k : valid_seg n → below (ds ++ [n]) k → below ds k.
Proof.
  intros Hn (x & xs & HF & ->). exists n, (x :: xs). split; [by constructor|].
  by rewrite <- app_assoc.
Qed.

Lemma below_child ds n : valid_seg n → below ds (join_slash (ds ++ [n])).
Proof. intros Hn. exists n, []. split; [by apply Forall_singleton|done]. Qed.

Lemma below_inj ds n n' k :
  Forall valid_seg ds → valid_seg n → valid_seg n' →
  below (ds ++ [n]) k → below (ds ++ [n']) k → n = n'.
Proof.
  intros Hds Hn Hn' (x & xs & HF & ->) (y & ys & HF' & E).
  apply join_valid_inj in E; [|repeat (apply Forall_app; split); auto..].
  rewrite <- !app_assoc in E. apply app_inv_head in E. by injection E.
Qed.

Lemma below_not_child ds n k :
  Forall valid_seg ds → valid_seg n → below (ds ++ [n]) k →
  ∀ n', valid_seg n' → k ≠ join_slash (ds ++ [n']).
Proof.
  intros Hds Hn (x & xs & HF & ->) n' Hn' E.
  apply join_valid_inj in E; [|repeat (apply Forall_app; split); auto..].
  apply (f_equal length) in E. rewrite !length_app in E. simpl in E. lia.
Qed.

Section subtree.
Context (m : PathMapper) (rs : list str) (ns : str → result DirListing HdfsError).
Context (Hm : rooted_at m rs) (Hns : ns_wf rs ns).

Lemma elem_of_walk_dirs walk ks es n e :
  walk_dirs walk ks = Some (es, n) → e ∈ es →
  ∃ k es' n', k ∈ ks ∧ walk k = Some (es', n') ∧ e ∈ es'.
Proof using Type.
  revert es n. induction ks as [|k ks IH]; intros es n; cbn [walk_dirs].
  { intros [= <- <-] ?%elem_of_nil. done. }
  destruct (walk k) as [[es1 n1]|] eqn:E1; [|done].
  destruct (walk_dirs walk ks) as [[es2 n2]|] eqn:E2; [|done].
  intros [= <- <-] [Hin|Hin]%elem_of_app.
  - exists k, es1, n1. rewrite elem_of_cons. auto.
  - destruct (IH _ _ eq_refl Hin) as (k' & es' & n' & ? & ? & ?).
    exists k', es', n'. rewrite elem_of_cons. auto.
Qed.

(** Everything in the subtree of a directory is below it. *)
Lemma walk_dir_below depth ds es n e :
  Forall valid_seg ds → ds ≠ [] → walk_dir m ns depth (join_slash ds) = Some (es, n) →
  e ∈ es → below ds (key e).
Proof using Hm Hns.
  revert ds es n e. induction depth as [|depth IH]; intros ds es n e Hds Hne; [done|].
  cbn [walk_dir]. rewrite (key_to_hdfs_path_clean m rs) by done.
  destruct (ns _) as [l|err] eqn:El.
  2: { destruct (skippable err); [|done]. intros [= <- <-] ?%elem_of_nil. done. }
  destruct (walk_dirs _ (dirs l)) as [[es' n']|] eqn:Ew; [|done].
  intros [= <- <-]. destruct (Hns ds l Hds El) as [Hf Hd _ _].
  intros [Hin|Hin]%elem_of_app.
  - destruct (Hf e Hin) as (x & Hx & ->). by apply below_child.
  - destruct (elem_of_walk_dirs _ _ _ _ _ Ew Hin) as (k & es1 & n1 & Hk & Hw & Hin1).
    destruct (Hd k Hk) as (x & Hx & ->). apply (below_up ds x); [done|].
    eapply IH; [|by destruct ds|exact Hw|done]. apply Forall_app; auto.
Qed.

(** The files below a run of children of [ds]. *)
Lemma walk_dirs_below depth ds ks es n e :
  Forall valid_seg ds → (∀ d, d ∈ ks → ∃ x, valid_seg x ∧ d = join_slash (ds ++ [x])) →
  walk_dirs (walk_dir m ns depth) ks = Some (es, n) → e ∈ es →
  ∃ x, valid_seg x ∧ join_slash (ds ++ [x]) ∈ ks ∧ below (ds ++ [x]) (key e).
Proof using Hm Hns.
  intros Hds Hks Hw Hin.
  destruct (elem_of_walk_dirs _ _ _ _ _ Hw Hin) as (k & es1 & n1 & Hk & Hw1 & Hin1).
  destruct (Hks k Hk) as (x & Hx & ->). exists x. split_and!; [done|done|].
  eapply walk_dir_below; [|by destruct ds|exact Hw1|done]. apply Forall_app; auto.
Qed.

(** No key occurs twice. *)
Lemma walk_dirs_nodup depth ds ks es n :
  Forall valid_seg ds → (∀ d, d ∈ ks → ∃ x, valid_seg x ∧ d = join_slash (ds ++ [x])) →
  NoDup ks →
  (∀ x es n, valid_seg x → walk_dir m ns depth (join_slash (ds ++ [x])) = Some (es, n) →
     NoDup (key <$> es)) →
  walk_dirs (walk_dir m ns depth) ks = Some (es, n) → NoDup (key <$> es).
Proof using Hm Hns.
  intros Hds Hks Hnd Hsub. revert es n.
  induction ks as [|k ks IH]; intros es n; cbn [walk_dirs].
  { intros [= <- <-]. constructor. }
  destruct (walk_dir m ns depth k) as [[es1 n1]|] eqn:E1; [|done].
  destruct (walk_dirs _ ks) as [[es2 n2]|] eqn:E2; [|done]. intros [= <- <-].
  apply NoDup_cons in Hnd as [Hkn Hnd].
  destruct (Hks k) as (x & Hx & ->); [apply elem_of_cons; auto|].
  assert (∀ d, d ∈ ks → ∃ x, valid_seg x ∧ d = join_slash (ds ++ [x])) as Hks'.
  { intros d Hd. apply Hks. apply elem_of_cons; auto. }
  rewrite fmap_app. apply NoDup_app. split_and!; [by eapply Hsub| |by eapply IH].
  intros kk (e1 & -> & H1)%list_elem_of_fmap (e2 & E & H2)%list_elem_of_fmap.
  destruct (walk_dirs_below depth ds ks es2 n2 e2 Hds Hks' E2 H2) as (x' & Hx' & Hin & Hb2).
  assert (below (ds ++ [x]) (key e1)) as Hb1.
  { eapply walk_dir_below; [|by destruct ds|exact E1|done]. apply Forall_app; auto. }
  rewrite E in Hb1. assert (x = x') as <- by (by eapply below_inj). done.
Qed.

Lemma dirs_nodup ds l : children_of ds l → NoDup (dirs l).
Proof using Type. intros H. eapply strict_sorted_NoDup, H. apply key_lt_strict. Qed.

Lemma listing_nodup depth ds l es n :
  Forall valid_seg ds → children_of ds l →
  (∀ x es n, valid_seg x → walk_dir m ns depth (join_slash (ds ++ [x])) = Some (es, n) →
     NoDup (key <$> es)) →
  walk_dirs (walk_dir m ns depth) (dirs l) = Some (es, n) →
  NoDup (key <$> files l ++ es).
Proof using Hm Hns.
  intros Hds Hco Hsub Hw. rewrite fmap_app. apply NoDup_app. split_and!.
  - apply (strict_sorted_NoDup str_lt), (StronglySorted_map key str_lt), Hco.
  - intros kk (f & -> & Hf)%list_elem_of_fmap (e & E & He)%list_elem_of_fmap.
    destruct (co_files _ _ Hco f Hf) as (n' & Hn' & Hk).
    destruct (walk_dirs_below depth ds (dirs l) es n e Hds (co_dirs _ _ Hco) Hw He)
      as (x & Hx & _ & Hb).
    eapply below_not_child; [exact Hds|exact Hx|exact Hb|exact Hn'|]. by rewrite <- E, Hk.
  - eapply walk_dirs_nodup; [exact Hds|apply Hco|by eapply dirs_nodup|exact Hsub|exact Hw].
Qed.

Lemma walk_dir_nodup depth ds es n :
  Forall valid_seg ds → ds ≠ [] → walk_dir m ns depth (join_slash ds) = Some (es, n) →
  NoDup (key <$> es).
Proof using Hm Hns.
  revert ds es n. induction depth as [|depth IH]; intros ds es n Hds Hne; [done|].
  cbn [walk_dir]. rewrite (key_to_hdfs_path_clean m rs) by done.
  destruct (ns _) as [l|err] eqn:El.
  2: { destruct (skippable err); [|done]. intros [= <- <-]. constructor. }
  destruct (walk_dirs _ (dirs l)) as [[es' n']|] eqn:Ew; [|done].
  intros [= <- <-]. eapply listing_nodup; [exact Hds|by apply Hns| |exact Ew].
  intros x es1 n1 Hx Hw. apply (IH (ds ++ [x]) es1 n1); [apply Forall_app; auto|by destruct ds|done].
Qed.

Lemma walk_start_nodup depth ds es n :
  Forall valid_seg ds → walk_start m ns depth (abs_path (rs ++ ds)) = Some (es, n) →
  NoDup (key <$> es).
Proof using Hm Hns.
  intros Hds. unfold walk_start. destruct (ns _) as [l|[]] eqn:El; try done.
  2: { intros [= <- <-]. constructor. }
  destruct (walk_dirs _ (dirs l)) as [[es' n']|] eqn:Ew; [|done].
  intros [= <- <-]. eapply listing_nodup; [exact Hds|by apply Hns| |exact Ew].
  intros x es1 n1 Hx Hw.
  apply (walk_dir_nodup depth (ds ++ [x]) es1 n1); [apply Forall_app; auto|by destruct ds|done].
Qed.
End subtree.

(** ** What a marker rules out *)

Lemma dir_children_all_before_cons x d y a :
  dir_children_all_before (x :: d) (y :: a) =
  match byte_cmp x y with Lt => true | Gt => false | Eq => dir_children_all_before d a end.
Proof.
  unfold dir_children_all_before. cbn [length min take str_cmp]. destruct (byte_cmp x y); [|done..].
  destruct (str_cmp _ _); [|done..].
  rewrite (bool_decide_ext (S (length d) = S (length a)) (length d = length a)) by lia.
  by rewrite (bool_decide_ext (S (length d) < S (length a)) (length d < length a)) by lia.
Qed.

Lemma all_before_iff d a : dir_children_all_before d a = true ↔ ∀ r, d ++ slash :: r ≺ a.
Proof.
  revert a. induction d as [|x d IH]; intros [|y a].
  - split; [done|]. intros H. by specialize (H []).
  - unfold dir_children_all_before. cbn [length min take str_cmp app lookup list_lookup].
    rewrite bool_decide_eq_false_2, bool_decide_eq_true_2 by (simpl; lia).
    unfold str_lt. split.
    + intros Hc r. rewrite str_cmp_cons, (cmp_antisym (cmp:=byte_cmp) y slash).
      by destruct (byte_cmp y slash).
    + intros H. specialize (H a). rewrite str_cmp_cons, str_cmp_refl in H.
      rewrite (cmp_antisym (cmp:=byte_cmp) slash y). by destruct (byte_cmp slash y).
  - split; [done|]. intros H. by specialize (H []).
  - rewrite dir_children_all_before_cons. unfold str_lt in *. cbn [app].
    destruct (byte_cmp x y) eqn:E.
    + rewrite IH. split; intros H r; specialize (H r); rewrite str_cmp_cons, E in *; done.
    + split; [|done]. intros _ r. by rewrite str_cmp_cons, E.
    + split; [done|]. intros H. specialize (H []). by rewrite str_cmp_cons, E in H.
Qed.

(** The test that skips a directory on a resumed page holds exactly when
    every key the directory could contain is before the marker. *)
Theorem dir_children_all_before_exact d a :
  dir_children_all_before d a = true ↔ ∀ r, d ++ slash :: r ≺ a.
Proof. apply all_before_iff. Qed.

(** A directory whose output key is not after the marker has all its keys
    before it, unless the marker is inside it. *)
Lemma children_before d a r :
  d ++ [slash] ⪯ a → starts_with a (d ++ [slash]) = false → d ++ slash :: r ≺ a.
Proof.
  intros Hle Hst. apply str_lt_not_le. intros Hge.
  assert (starts_with a (d ++ [slash]) = true); [|congruence].
  eapply starts_with_between; [|apply (starts_with_app _ r)|exact Hle|].
  - rewrite <- (app_nil_r (d ++ [slash])) at 1. apply starts_with_app.
  - by rewrite <- app_assoc.
Qed.

(** The straddler test of [dirs_start_after]. *)
Lemma straddler_test d a :
  bool_decide (length d < length a) && starts_with a d && bool_decide (a !! length d = Some slash) = true
  ↔ starts_with a (d ++ [slash]) = true.
Proof.
  rewrite !andb_true_iff, !bool_decide_eq_true, !starts_with_spec. split.
  - intros [[Hl [r ->]] Hs]. rewrite lookup_app_r, Nat.sub_diag in Hs by lia.
    destruct r as [|c r]; [done|]. injection Hs as ->. exists r. by rewrite <- app_assoc.
  - intros [r ->]. rewrite <- app_assoc. split_and!.
    + rewrite length_app. simpl. lia.
    + by exists ([slash] ++ r).
    + by rewrite lookup_app_r, Nat.sub_diag by lia.
Qed.

(** Siblings: no one's output key extends another's. *)
Lemma sibling_outputs ds n n' :
  Forall valid_seg ds → valid_seg n → valid_seg n' →
  starts_with (join_slash (ds ++ [n']) ++ [slash]) (join_slash (ds ++ [n]) ++ [slash]) = true →
  n = n'.
Proof.
  intros Hds Hn Hn' [r Hr]%starts_with_spec.
  assert (∀ x, valid_seg x → split_slash (join_slash (ds ++ [x])) = ds ++ [x]) as Hsp.
  { intros x Hx. apply split_valid; [by destruct ds|]. apply Forall_app; auto. }
  apply (f_equal split_slash) in Hr. rewrite <- app_assoc in Hr. cbn [app] in Hr.
  rewrite !split_slash_app, !Hsp in Hr by done. rewrite <- !app_assoc in Hr.
  apply app_inv_head in Hr. by injection Hr.
Qed.

(** Everything [dirs_start_after] passes over is before the marker. *)
Lemma dirs_start_after_spec ds l marker d :
  Forall valid_seg ds → children_of ds l →
  d ∈ take (dirs_start_after (dirs l) marker) (dirs l) → dir_children_all_before d marker = true.
Proof.
  intros Hds [_ Hco _ Hs] Hd.
  destruct (partition_point_sorted (key_lt (λ d, d ++ [slash]))
    (λ d, bool_decide (cmp_dir_output d marker ≠ Gt)) (dirs l) Hs) as [Hlow _].
  { intros x y Hxy. rewrite !bool_decide_eq_true, !cmp_dir_output_str. intros Hy.
    apply str_lt_le. by eapply str_lt_le_trans. }
  unfold dirs_start_after in Hd. cbv zeta in Hd.
  set (pp := partition_point _ (dirs l)) in *. rewrite Forall_forall in Hlow.
  assert (∀ x, x ∈ take pp (dirs l) → x ++ [slash] ⪯ marker) as Hle.
  { intros x Hx%Hlow. apply bool_decide_eq_true in Hx. by rewrite cmp_dir_output_str in Hx. }
  clear Hlow. apply all_before_iff. intros r.
  assert (d ∈ take pp (dirs l) ∧ starts_with marker (d ++ [slash]) = false) as [Hin Hst];
    [|apply children_before; auto].
  destruct (bool_decide (0 < pp)) eqn:Hpos; [apply bool_decide_eq_true in Hpos|].
  2: { apply bool_decide_eq_false in Hpos. replace pp with 0 in * by lia. by apply elem_of_nil in Hd. }
  assert (d ∈ take pp (dirs l)) as Hin.
  { destruct (_ && _); [|done]. replace (pp - 1) with ((pp - 1) `min` pp) in Hd by lia.
    rewrite <- take_take in Hd. by eapply elem_of_take_inv. }
  split; [done|]. apply not_true_iff_false. intros Hst.
  apply list_elem_of_lookup in Hin as Hlk. destruct Hlk as [i Hi].
  apply lookup_take_Some in Hi as [Hi Hip].
  destruct (lookup_lt_is_Some_2 (dirs l) (pp - 1)) as [cand Hc].
  { apply lookup_lt_Some in Hi.
    destruct (decide (pp <= length (dirs l))); [lia|].
    exfalso. pose proof (partition_point_le (λ d, bool_decide (cmp_dir_output d marker ≠ Gt)) (dirs l)).
    unfold pp in *. lia. }
  rewrite Hc in Hd. cbn [or_else] in Hd.
  assert (cand ∈ take pp (dirs l)) as Hcin.
  { apply list_elem_of_lookup. exists (pp - 1). apply lookup_take_Some. split; [done|lia]. }
  assert (d = cand) as ->.
  { destruct (decide (i = pp - 1)) as [->|Hne]; [congruence|].
    pose proof (strict_sorted_lt _ _ i (pp - 1) d cand Hs Hi Hc ltac:(lia)) as Hlt.
    assert (starts_with (cand ++ [slash]) (d ++ [slash]) = true) as Hsw.
    { eapply starts_with_between; [|exact Hst|apply str_lt_le, Hlt|by apply Hle].
      rewrite <- (app_nil_r (d ++ [slash])) at 1. apply starts_with_app. }
    destruct (Hco d) as (x & Hx & ->); [by eapply elem_of_take_inv|].
    destruct (Hco cand) as (y & Hy & ->); [by eapply elem_of_take_inv|].
    by apply (sibling_outputs ds x y) in Hsw as ->. }
  rewrite (proj2 (straddler_test cand marker) Hst) in Hd.
  apply list_elem_of_lookup in Hd as [j Hj]. apply lookup_take_Some in Hj as [Hj Hjp].
  assert (j = pp - 1); [|lia].
  apply (NoDup_lookup (dirs l) j (pp - 1) cand); [|done|done].
  eapply strict_sorted_NoDup, Hs. apply key_lt_strict.
Qed.

(** ** What the prefix rules out *)

Lemma starts_with_no_slash a b part :
  slash ∉ part → starts_with (a ++ slash :: b) part = true → starts_with a part = true.
Proof.
  revert a. induction part as [|c part IH]; intros a Hp; [by rewrite starts_with_nil|].
  apply not_elem_of_cons in Hp as [Hc Hp]. destruct a as [|x a]; cbn [app starts_with].
  - rewrite andb_true_iff, byte_eqb_spec. by intros [-> _].
  - rewrite !andb_true_iff. intros [? ?]. auto.
Qed.

(** If a key below a directory (itself below the start) matches the prefix,
    so does the directory's key: a directory that does not match can be
    left unopened. *)
Lemma prefix_prune m rs ds0 prefix ds k :
  rooted_at m rs → Forall valid_seg ds0 → list_start m prefix = Some (abs_path (rs ++ ds0)) →
  Forall valid_seg ds → ds ≠ [] → below (ds0 ++ ds) k → starts_with k prefix = true →
  starts_with (join_slash (ds0 ++ ds)) prefix = true.
Proof.
  intros Hm Hds0 Hls Hds Hne (x & xs & HF & ->) Hst.
  assert (prefix ≠ dot ∧ prefix ≠ dotdot) as [Hn1 Hn2] by (split; intros ->; done).
  pose proof Hm as [Hrs _].
  destruct (list_start_dirs m rs prefix ((ds0 ++ ds) ++ x :: xs) Hm)
    as (ds1 & rest & part & H1 & H2 & H3 & H4 & H5 & H6); try done.
  { repeat (apply Forall_app; split); auto. }
  { by destruct ds0, ds. }
  assert (Forall valid_seg (ds1 ++ rest)) as HF1.
  { rewrite <- H2. repeat (apply Forall_app; split); auto. }
  apply Forall_app in HF1 as [HF1 _].
  rewrite Hls in H1. injection H1 as H1. apply join_valid_inj in H1;
    [|by apply Forall_app..]. apply app_inv_head in H1 as <-.
  rewrite <- app_assoc in H2. apply app_inv_head in H2 as <-.
  rewrite join_slash_app in H6 by done. apply starts_with_no_slash in H6; [|done].
  apply starts_with_spec in H6 as [r Hr]. rewrite H4. apply starts_with_spec. exists r.
  rewrite <- app_assoc, <- Hr. destruct ds0 as [|d0 ds0]; [done|].
  rewrite join_slash_app by done. unfold dir_prefix. by rewrite <- app_assoc.
Qed.

(** ** The frontier *)

Definition cursor_out (c : Cursor) : str :=
  if cur_files c then cursor_front c else cursor_front c ++ [slash].

Lemma cursor_cmp_out a b : cursor_cmp a b = str_cmp (cursor_out a) (cursor_out b).
Proof.
  unfold cursor_cmp, cursor_out. destruct (cur_files a), (cur_files b).
  - done.
  - apply cmp_file_dir_str.
  - by rewrite cmp_file_dir_str, <- (cmp_antisym (cmp:=str_cmp)).
  - apply cmp_dir_keys_str.
Qed.

Lemma heap_pop_none h : heap_pop h = None ↔ h = [].
Proof.
  destruct h as [|c h]; [done|]. split; [|done]. cbn [heap_pop].
  destruct (heap_pop h) as [[m r]|]; [|done]. by destruct (cursor_cmp c m).
Qed.

Lemma heap_pop_some h c h' :
  heap_pop h = Some (c, h') →
  h ≡ₚ c :: h' ∧ ∀ c', c' ∈ h' → cursor_out c ⪯ cursor_out c'.
Proof.
  revert c h'. induction h as [|a h IH]; intros c h'; cbn [heap_pop]; [done|].
  destruct (heap_pop h) as [[mn rest]|] eqn:E.
  - destruct (IH mn rest eq_refl) as [Hp Hmin]. rewrite cursor_cmp_out.
    assert (∀ c', c' ∈ h → cursor_out mn ⪯ cursor_out c') as Hall.
    { intros c'. rewrite Hp. intros [->|?]%elem_of_cons; [done|auto]. }
    destruct (str_cmp _ _) eqn:Ec; intros [= <- <-].
    + apply cmp_eq_iff in Ec. split; [done|]. intros c' Hc'. rewrite Ec. auto.
    + split; [done|]. intros c' Hc'. trans (cursor_out mn); [by apply str_lt_le|auto].
    + apply str_cmp_gt_lt in Ec. split; [rewrite Hp; apply Permutation_swap|].
      intros c' [->|?]%elem_of_cons; [by apply str_lt_le|auto].
  - apply heap_pop_none in E as ->. intros [= <- <-]. split; [done|]. by intros c' ?%elem_of_nil.
Qed.

Section frontier.
Context (m : PathMapper) (rs ds0 : list str) (ns : str → result DirListing HdfsError).
Context (prefix : str) (after : option str).
Context (Hm : rooted_at m rs) (Hds0 : Forall valid_seg ds0) (Hns : ns_wf rs ns).
Context (Hls : list_start m prefix = Some (abs_path (rs ++ ds0))).

(** The keys the listing emits. *)
Definition emit (e : ListEntry) : bool :=
  starts_with (key e) prefix && after_marker after (key e).

(** A cursor in range, over the listing of a directory at or below the start. *)
Definition cursor_ok (c : Cursor) : Prop :=
  cur_idx c < cursor_len c ∧
  ∃ ex, Forall valid_seg ex ∧ children_of (ds0 ++ ex) (cur_listing c).

(** The files a cursor still stands for, and the turns they can take. *)
Definition cursor_rem (c : Cursor) (es : list ListEntry) (n : nat) : Prop :=
  if cur_files c then es = drop (cur_idx c) (files (cur_listing c)) ∧ n = length es
  else ∃ depth, walk_dirs (walk_dir m ns depth) (drop (cur_idx c) (dirs (cur_listing c))) = Some (es, n).

Inductive heap_rem : list Cursor → list ListEntry → nat → Prop :=
| heap_rem_nil : heap_rem [] [] 0
| heap_rem_cons c h es n es' n' :
    cursor_ok c → cursor_rem c es n → heap_rem h es' n' →
    heap_rem (c :: h) (es ++ es') (n + n').

Lemma heap_rem_perm h h' es n :
  h ≡ₚ h' → heap_rem h es n → ∃ es', heap_rem h' es' n ∧ es ≡ₚ es'.
Proof using Type.
  intros Hp. revert es n. induction Hp as [|c h h' Hp IH|a b h|h1 h2 h3 Hp1 IH1 Hp2 IH2]; intros es n H.
  - by exists es.
  - inversion H as [|? ? e1 n1 e2 n2 Hok Hr Hh]; subst. destruct (IH _ _ Hh) as (es' & He & Hp').
    exists (e1 ++ es'). split; [by constructor|]. by rewrite Hp'.
  - inversion H as [|? ? e1 n1 e2 n2 Hok Hr Hh]; subst.
    inversion Hh as [|? ? e3 n3 e4 n4 Hok' Hr' Hh']; subst.
    exists (e3 ++ e1 ++ e4). split.
    + replace (n1 + (n3 + n4)) with (n3 + (n1 + n4)) by lia.
      apply heap_rem_cons; [done|done|]. by apply heap_rem_cons.
    + rewrite !app_assoc. by rewrite (Permutation_app_comm e1 e3).
  - destruct (IH1 _ _ H) as (es1 & H1 & P1). destruct (IH2 _ _ H1) as (es2 & H2 & P2).
    exists es2. split; [done|]. by trans es1.
Qed.

Lemma heap_rem_app h1 h2 es1 n1 es2 n2 :
  heap_rem h1 es1 n1 → heap_rem h2 es2 n2 → heap_rem (h1 ++ h2) (es1 ++ es2) (n1 + n2).
Proof using Type.
  intros H1 H2. induction H1 as [|c h e n e' n' Hok Hr Hh IH]; [done|].
  cbn [app]. rewrite <- app_assoc. replace (n + n' + n2) with (n + (n' + n2)) by lia. by constructor.
Qed.

(** A cursor's files are at or after its front. *)
Lemma cursor_rem_le c es n e :
  cursor_ok c → cursor_rem c es n → e ∈ es → cursor_out c ⪯ key e.
Proof using Hm Hns Hds0.
  intros (Hi & ex & Hex & [Hf Hd Hfs Hdsort]). unfold cursor_rem, cursor_out, cursor_front, cursor_len in *.
  destruct (cur_files c).
  - intros [-> _]. destruct (lookup_lt_is_Some_2 _ _ Hi) as [f Hlk]. rewrite Hlk, (drop_S _ _ _ Hlk).
    intros [->|He]%elem_of_cons; [done|]. apply str_lt_le.
    apply list_elem_of_lookup in He as [j Hj]. rewrite lookup_drop in Hj.
    eapply (strict_sorted_lt (key_lt key)); [exact Hfs|exact Hlk|exact Hj|lia].
  - intros [depth Hw] He. destruct (lookup_lt_is_Some_2 _ _ Hi) as [d Hlk]. rewrite Hlk. cbn [or_else].
    assert (Forall valid_seg (ds0 ++ ex)) as HF by (by apply Forall_app).
    assert (∀ d, d ∈ drop (cur_idx c) (dirs (cur_listing c)) →
              ∃ x, valid_seg x ∧ d = join_slash ((ds0 ++ ex) ++ [x])) as Hks.
    { intros d' ?%elem_of_drop_inv. auto. }
    destruct (walk_dirs_below m rs ns Hm Hns depth (ds0 ++ ex) _ es n e HF Hks Hw He)
      as (x & Hx & Hin & [r ->]%below_dir).
    trans (join_slash ((ds0 ++ ex) ++ [x]) ++ [slash]).
    2: { apply str_le_app, (str_prefix_le [slash] r). }
    rewrite (drop_S _ _ _ Hlk) in Hin. apply elem_of_cons in Hin as [->|Hin]; [done|].
    apply str_lt_le. apply list_elem_of_lookup in Hin as [j Hj]. rewrite lookup_drop in Hj.
    apply (strict_sorted_lt (key_lt (λ d, d ++ [slash])) (dirs (cur_listing c)) (cur_idx c) (S (cur_idx c) + j) d);
      [done|done|done|lia].
Qed.

Lemma heap_rem_elem h es n e :
  heap_rem h es n → e ∈ es → ∃ c, c ∈ h ∧ cursor_out c ⪯ key e.
Proof using Hm Hns Hds0.
  induction 1 as [|c h e1 n1 e2 n2 Hok Hr Hh IH]; [by intros ?%elem_of_nil|].
  intros [He|He]%elem_of_app.
  - exists c. split; [apply elem_of_cons; auto|]. by eapply cursor_rem_le.
  - destruct (IH He) as (c' & ? & ?). exists c'. split; [apply elem_of_cons; auto|done].
Qed.

Abbreviation emitted es := (List.filter emit es).

Lemma emitted_perm es es' : es ≡ₚ es' → emitted es ≡ₚ emitted es'.
Proof using Type.
  induction 1 as [|x l l' Hp IH|x y l|l1 l2 l3 Hp1 IH1 Hp2 IH2]; simpl.
  - done.
  - destruct (emit x); [by rewrite IH|done].
  - destruct (emit x), (emit y); try done. apply Permutation_swap.
  - by trans (emitted l2).
Qed.

Lemma emitted_none es : (∀ e, e ∈ es → emit e = false) → emitted es = [].
Proof using Type. intros. by apply bfilter_none, Forall_forall. Qed.

Lemma before_not_emitted e a : after = Some a → key e ⪯ a → emit e = false.
Proof using Type.
  intros Ha Hle. unfold emit. rewrite Ha. unfold str_le in Hle. unfold after_marker.
  destruct (str_cmp (key e) a); [apply andb_false_r..|done].
Qed.

Lemma walk_dirs_app walk k1 k2 es n :
  walk_dirs walk (k1 ++ k2) = Some (es, n) →
  ∃ es1 n1 es2 n2, walk_dirs walk k1 = Some (es1, n1) ∧ walk_dirs walk k2 = Some (es2, n2) ∧
    es = es1 ++ es2 ∧ n = n1 + n2.
Proof using Type.
  revert es n. induction k1 as [|k k1 IH]; intros es n; cbn [app walk_dirs].
  { intros H. by exists [], 0, es, n. }
  destruct (walk k) as [[ea na]|]; [|done]. destruct (walk_dirs walk (k1 ++ k2)) as [[eb nb]|]; [|done].
  intros [= <- <-]. destruct (IH _ _ eq_refl) as (es1 & n1 & es2 & n2 & -> & -> & -> & ->).
  exists (ea ++ es1), (S (na + n1)), es2, n2. split_and!; [done|done|by rewrite app_assoc|lia].
Qed.

(** The positions [push_listing] starts the cursors at pass over nothing the
    listing would emit. *)
Lemma listing_starts ex l depth es n :
  Forall valid_seg ex → children_of (ds0 ++ ex) l →
  walk_dirs (walk_dir m ns depth) (dirs l) = Some (es, n) →
  ∃ fi di es' n',
    listing_cursors after l =
      (if bool_decide (fi < length (files l)) then [mkCursor l true fi] else []) ++
      (if bool_decide (di < length (dirs l)) then [mkCursor l false di] else []) ∧
    walk_dirs (walk_dir m ns depth) (drop di (dirs l)) = Some (es', n') ∧ n' <= n ∧
    emitted (drop fi (files l)) = emitted (files l) ∧ emitted es' = emitted es.
Proof using Hm Hns Hds0.
  intros Hex Hco Hw. unfold listing_cursors. destruct after as [a|] eqn:Ea.
  2: { exists 0, 0, es, n. by rewrite !drop_0. }
  set (fi := partition_point _ (files l)). set (di := dirs_start_after (dirs l) a).
  rewrite <- (take_drop di (dirs l)) in Hw.
  destruct (walk_dirs_app _ _ _ _ _ Hw) as (es1 & n1 & es2 & n2 & H1 & H2 & -> & ->).
  exists fi, di, es2, n2. split_and!; [done|done|lia| |].
  - rewrite <- (take_drop fi (files l)) at 2. rewrite bfilter_app, (emitted_none (take fi _)); [done|].
    destruct (partition_point_sorted (key_lt key) (λ f, bool_decide (str_cmp (key f) a ≠ Gt)) (files l)
      (co_files_sorted _ _ Hco)) as [Hlow _].
    { intros x y Hxy. rewrite !bool_decide_eq_true. intros Hy.
      apply str_lt_le. by eapply str_lt_le_trans. }
    rewrite Forall_forall in Hlow. intros e He%Hlow. apply bool_decide_eq_true in He.
    by apply (before_not_emitted e a).
  - rewrite bfilter_app, (emitted_none es1); [done|]. intros e He.
    assert (Forall valid_seg (ds0 ++ ex)) as HF by (by apply Forall_app).
    destruct (walk_dirs_below m rs ns Hm Hns depth (ds0 ++ ex) (take di (dirs l)) es1 n1 e)
      as (x & Hx & Hin & [r Hr]%below_dir); [done| |done|done|].
    { intros d Hd%elem_of_take_inv. by apply Hco. }
    pose proof (dirs_start_after_spec (ds0 ++ ex) l a _ HF Hco Hin) as Hb.
    apply (before_not_emitted e a); [done|]. rewrite Hr.
    apply str_lt_le. by apply all_before_iff.
Qed.

Lemma listing_rem ex l depth es n :
  Forall valid_seg ex → children_of (ds0 ++ ex) l →
  walk_dirs (walk_dir m ns depth) (dirs l) = Some (es, n) →
  ∃ es' n', heap_rem (listing_cursors after l) es' n' ∧ n' <= length (files l) + n ∧
            emitted es' = emitted (files l ++ es).
Proof using Hm Hns Hds0.
  intros Hex Hco Hw.
  destruct (listing_starts ex l depth es n Hex Hco Hw) as (fi & di & es' & n' & -> & Hw' & Hn & Hf & He).
  assert (∃ k, k <= length (files l) ∧
    heap_rem (if bool_decide (fi < length (files l)) then [mkCursor l true fi] else [])
      (drop fi (files l)) k) as (k & Hk & Hh1).
  { case_bool_decide as Hfi.
    - exists (length (drop fi (files l)) + 0). rewrite length_drop. split; [lia|].
      rewrite <- (app_nil_r (drop fi (files l))). rewrite <- length_drop.
      apply heap_rem_cons; [split; [done|by exists ex]|done|constructor].
    - exists 0. rewrite drop_ge by lia. split; [lia|constructor]. }
  assert (∃ k2, k2 <= n' ∧
    heap_rem (if bool_decide (di < length (dirs l)) then [mkCursor l false di] else []) es' k2)
    as (k2 & Hk2 & Hh2).
  { clear Hh1. case_bool_decide as Hdi.
    - exists (n' + 0). split; [lia|]. rewrite <- (app_nil_r es').
      apply heap_rem_cons; [split; [done|by exists ex]|by exists depth|constructor].
    - rewrite drop_ge in Hw' by lia. injection Hw' as <- <-. exists 0. split; [lia|constructor]. }
  exists (drop fi (files l) ++ es'), (k + k2). split_and!.
  - by apply heap_rem_app.
  - lia.
  - by rewrite !bfilter_app, Hf, He.
Qed.

(** ** One pull *)

(** Taking the front of a cursor: a file, or a directory with its subtree. *)
Lemma advance_files c h ec nc eh nh :
  cur_files c = true → cursor_ok c → cursor_rem c ec nc → heap_rem h eh nh →
  ∃ f ec' nc', files (cur_listing c) !! cur_idx c = Some f ∧ ec = f :: ec' ∧ nc = S nc' ∧
    heap_rem (if (advance c).1 then (advance c).2 :: h else h) (ec' ++ eh) (nc' + nh).
Proof using Type.
  intros Hf (Hi & ex & Hex & Hco) Hr Hh. unfold cursor_rem, cursor_len in *. rewrite Hf in Hr, Hi.
  destruct Hr as [-> ->]. destruct (lookup_lt_is_Some_2 _ _ Hi) as [f Hlk].
  exists f, (drop (S (cur_idx c)) (files (cur_listing c))), (length (drop (S (cur_idx c)) (files (cur_listing c)))).
  rewrite (drop_S _ _ _ Hlk). split_and!; [done|done|done|].
  unfold advance, cursor_len. cbn [cur_files cur_listing cur_idx fst snd]. rewrite Hf.
  case_bool_decide as Hb.
  - apply heap_rem_cons; [|done|done]. split; [|by exists ex]. unfold cursor_len. cbn. lia.
  - by rewrite drop_ge by lia.
Qed.

Lemma advance_dirs c h ec nc eh nh :
  cur_files c = false → cursor_ok c → cursor_rem c ec nc → heap_rem h eh nh →
  ∃ d ed nd ec' nc' depth, dirs (cur_listing c) !! cur_idx c = Some d ∧
    walk_dir m ns depth d = Some (ed, nd) ∧ ec = ed ++ ec' ∧ nc = S (nd + nc') ∧
    heap_rem (if (advance c).1 then (advance c).2 :: h else h) (ec' ++ eh) (nc' + nh).
Proof using Type.
  intros Hf (Hi & ex & Hex & Hco) Hr Hh. unfold cursor_rem, cursor_len in *. rewrite Hf in Hr, Hi.
  destruct Hr as [depth Hw]. destruct (lookup_lt_is_Some_2 _ _ Hi) as [d Hlk].
  rewrite (drop_S _ _ _ Hlk) in Hw. cbn [walk_dirs] in Hw.
  destruct (walk_dir m ns depth d) as [[ed nd]|] eqn:Ed; [|done].
  destruct (walk_dirs _ (drop _ _)) as [[ec' nc']|] eqn:Ec; [|done]. injection Hw as <- <-.
  exists d, ed, nd, ec', nc', depth. split_and!; [done|done|done|done|].
  unfold advance, cursor_len. cbn [cur_files cur_listing cur_idx fst snd]. rewrite Hf.
  case_bool_decide as Hb.
  - apply heap_rem_cons; [|by exists depth|done]. split; [|by exists ex]. unfold cursor_len. cbn. lia.
  - rewrite drop_ge in Ec by lia. by injection Ec as <- <-.
Qed.

(** A directory the merge leaves unopened has nothing to emit. *)
Lemma unopened_none ex x depth ed nd :
  Forall valid_seg ex → valid_seg x →
  walk_dir m ns depth (join_slash ((ds0 ++ ex) ++ [x])) = Some (ed, nd) →
  starts_with (join_slash ((ds0 ++ ex) ++ [x])) prefix = false ∨
  (∃ a, after = Some a ∧ dir_children_all_before (join_slash ((ds0 ++ ex) ++ [x])) a = true) →
  emitted ed = [].
Proof using Hm Hns Hds0 Hls.
  intros Hex Hx Hw Hor. apply emitted_none. intros e He.
  assert (below ((ds0 ++ ex) ++ [x]) (key e)) as Hb.
  { eapply (walk_dir_below m rs ns Hm Hns); [|by destruct (ds0 ++ ex)|exact Hw|done].
    repeat (apply Forall_app; split); auto. }
  destruct Hor as [Hst|(a & Ha & Hall)].
  - unfold emit. destruct (starts_with (key e) prefix) eqn:Ek; [|done].
    rewrite <- app_assoc in Hb, Hst.
    rewrite (prefix_prune m rs ds0 prefix (ex ++ [x]) (key e) Hm Hds0 Hls) in Hst;
      [done|apply Forall_app; auto|by destruct ex|done|done].
  - apply below_dir in Hb as [r Hr]. apply (before_not_emitted e a); [done|]. rewrite Hr.
    apply str_lt_le. by apply all_before_iff.
Qed.

(** The lister answers from [ns], whatever happens between its accesses. *)
Context {St : Type} `{!DirLister St} (I : St → Prop) (Rely : St → St → Prop) `{!PreOrder Rely}.
Context (Hlist : ∀ p, always I Rely (list_dir p) (λ r, r = ns p)).

(** The fields a pull leaves alone. *)
Definition sl_frame (sl : SortedListing) : Prop :=
  sl_mapper sl = m ∧ sl_prefix sl = prefix ∧ sl_after sl = after ∧ sl_start_seeded sl = true.

(** What a pull returns, when [es] is what the frontier stands for. *)
Definition pull_spec (es : list ListEntry) (n : nat) (r : option ListEntry) (sl' : SortedListing) :
    Prop :=
  match r with
  | None => emitted es = []
  | Some e =>
      sl_exhausted sl' = false ∧
      ∃ es' n', heap_rem (sl_heap sl') es' n' ∧ n' < n ∧ emitted es ≡ₚ e :: emitted es' ∧
                ∀ x, x ∈ emitted es' → key e ⪯ key x
  end.

Lemma pull_spec_mono es n es' n' r sl' :
  n' <= n → emitted es ≡ₚ emitted es' → pull_spec es' n' r sl' → pull_spec es n r sl'.
Proof using Type.
  intros Hn Hp. destruct r as [e|]; cbn [pull_spec].
  - intros (He & e1 & n1 & H1 & H2 & H3 & H4). split; [done|]. exists e1, n1.
    split_and!; [done|lia|by rewrite Hp|done].
  - intros Hnil. rewrite Hnil in Hp. by apply Permutation_nil_r in Hp.
Qed.

(** The outcome of a pull on a frontier that stands for [es]. *)
Definition pulls (fuel : nat) (es : list ListEntry) (n : nat) (sl : SortedListing) : Prop :=
  always I Rely (next_loop fuel sl) (λ o,
    ∃ r sl', o = Some (Ok r, sl') ∧ sl_frame sl' ∧ pull_spec es n r sl').

(** The pulls of the next turn, on any smaller frontier with the same keys
    left to emit. *)
Definition continues (fuel : nat) (es : list ListEntry) (n : nat) : Prop :=
  ∀ sl es' n', sl_frame sl → sl_exhausted sl = false → heap_rem (sl_heap sl) es' n' →
    n' < n → emitted es ≡ₚ emitted es' → pulls fuel es n sl.

Section turn.
Context (fuel : nat) (sl : SortedListing) (es : list ListEntry).
Context (c : Cursor) (h : list Cursor) (ec eh : list ListEntry) (nc nh : nat).
Context (Hfr : sl_frame sl) (Hxh : sl_exhausted sl = false).
Context (Hpop : heap_pop (sl_heap sl) = Some (c, h)).
Context (Hok : cursor_ok c) (Hrc : cursor_rem c ec nc) (Hrh : heap_rem h eh nh).
Context (Hes : emitted es ≡ₚ emitted (ec ++ eh)).
Context (Hcont : continues fuel es (nc + nh)).

(** A turn that takes a file. *)
Lemma pull_file : cur_files c = true → pulls (S fuel) es (nc + nh) sl.
Proof using All.
  intros Ef. destruct (heap_pop_some _ _ _ Hpop) as [_ Hmin]. destruct Hfr as (Hfm & Hfp & Hfa & Hfs).
  unfold pulls. cbn [next_loop]. rewrite Hpop.
  destruct (advance_files c h ec nc eh nh Ef Hok Hrc Hrh) as (f & ec' & nc' & Hlk & Hec & Hnc & Hr').
  destruct (advance c) as [more next]. cbn [fst snd] in Hr'. rewrite Ef, Hlk.
  cbn [set_heap sl_prefix sl_after]. rewrite Hec in Hes. cbn [app] in Hes. rewrite bfilter_cons in Hes.
  assert (emit f = starts_with (key f) (sl_prefix sl) && after_marker (sl_after sl) (key f)) as He
    by (unfold emit; by rewrite <- Hfp, <- Hfa).
  destruct (starts_with (key f) (sl_prefix sl)); cbn [negb andb] in *.
  2: { rewrite He in Hes. eapply Hcont; [done|done|exact Hr'|lia|done]. }
  destruct (after_marker (sl_after sl) (key f)); cbn [negb]; rewrite He in Hes.
  2: { eapply Hcont; [done|done|exact Hr'|lia|done]. }
  apply always_done. eexists (Some f), _. split; [done|]. split; [done|]. split; [done|].
  exists (ec' ++ eh), (nc' + nh). split_and!; [done|lia|done|].
  assert (cursor_out c = key f) as Hout by (unfold cursor_out, cursor_front; by rewrite Ef, Hlk).
  intros x [_ [Hx|Hx]%elem_of_app]%elem_of_bfilter; rewrite <- Hout.
  - eapply cursor_rem_le; [exact Hok|exact Hrc|]. rewrite Hec. by apply elem_of_cons; right.
  - destruct (heap_rem_elem _ _ _ x Hrh Hx) as (c' & Hc' & Hle). trans (cursor_out c'); auto.
Qed.

(** A turn that takes a directory and leaves it unopened, or opens it. *)
Lemma pull_dir : cur_files c = false → pulls (S fuel) es (nc + nh) sl.
Proof using All.
  intros Ef. destruct Hfr as (Hfm & Hfp & Hfa & Hfs). unfold pulls. cbn [next_loop]. rewrite Hpop.
  destruct (advance_dirs c h ec nc eh nh Ef Hok Hrc Hrh)
    as (d & ed & nd & ec' & nc' & depth & Hlk & Hw & Hec & Hnc & Hr').
  destruct (advance c) as [more next]. cbn [fst snd] in Hr'. rewrite Ef, Hlk.
  cbn [set_heap sl_prefix sl_after sl_mapper].
  destruct Hok as (_ & ex & Hex & Hco). destruct (co_dirs _ _ Hco d) as (x & Hx & ->).
  { by eapply list_elem_of_lookup_2. }
  assert (Forall valid_seg (ex ++ [x])) as Hexx by (apply Forall_app; auto).
  rewrite Hec, <- app_assoc, bfilter_app in Hes.
  assert (emitted ed = [] → emitted es ≡ₚ emitted (ec' ++ eh)) as Hskip.
  { intros He. by rewrite He in Hes. }
  destruct (starts_with (join_slash _) (sl_prefix sl)) eqn:Est; cbn [negb].
  2: { eapply Hcont; [done|done|exact Hr'|lia|]. apply Hskip.
       apply (unopened_none ex x depth ed nd); [done..|]. left. by rewrite <- Hfp. }
  destruct (match sl_after sl with Some _ => _ | None => _ end) eqn:Eaf.
  { eapply Hcont; [done|done|exact Hr'|lia|]. apply Hskip.
    apply (unopened_none ex x depth ed nd); [done..|]. right. rewrite Hfa in Eaf.
    destruct after as [a|]; [by exists a|done]. }
  destruct depth as [|depth]; [done|]. cbn [walk_dir] in Hw. rewrite Hfm.
  rewrite <- app_assoc in Hw, Est |- *. rewrite (key_to_hdfs_path_clean m rs) in Hw |- *;
    [|done|by apply Forall_app|by destruct ds0, ex|done|by apply Forall_app|by destruct ds0, ex].
  eapply always_bind; [apply _|apply Hlist|]. intros r ->.
  destruct (ns (abs_path (rs ++ ds0 ++ ex ++ [x]))) as [l|err] eqn:El.
  - destruct (walk_dirs _ (dirs l)) as [[e2 n2]|] eqn:Ew; [|done]. injection Hw as <- <-.
    assert (children_of (ds0 ++ ex ++ [x]) l) as Hco' by (apply Hns; [by apply Forall_app|done]).
    destruct (listing_rem (ex ++ [x]) l depth e2 n2 Hexx Hco' Ew) as (e3 & n3 & Hr3 & Hn3 & He3).
    eapply Hcont; [done|done| | |].
    + cbn [push_listing set_heap sl_heap sl_after]. rewrite Hfa. eapply heap_rem_app; [exact Hr3|exact Hr'].
    + lia.
    + by rewrite (bfilter_app emit e3), He3.
  - destruct (skippable err) eqn:Esk; [|done]. injection Hw as <- <-. unfold skippable in Esk.
    destruct (is_dir_denied err); [|destruct err; try done];
      (eapply Hcont; [done|done|exact Hr'|lia|by apply Hskip]).
Qed.
End turn.

Lemma next_loop_spec fuel sl es n :
  sl_frame sl → sl_exhausted sl = false → heap_rem (sl_heap sl) es n → n < fuel →
  pulls fuel es n sl.
Proof using All.
  revert sl es n. induction fuel as [|fuel IH]; intros sl es n Hfr Hxh Hr Hfuel; [lia|].
  destruct (heap_pop (sl_heap sl)) as [[c h]|] eqn:Epop.
  2: { unfold pulls. cbn [next_loop]. rewrite Epop. apply heap_pop_none in Epop.
       rewrite Epop in Hr. inversion Hr; subst. apply always_done. by exists None, (set_exhausted sl). }
  destruct (heap_pop_some _ _ _ Epop) as [Hp _].
  destruct (heap_rem_perm _ _ _ _ Hp Hr) as (es1 & Hr1 & Hes).
  inversion Hr1 as [|? ? ec nc eh nh Hok Hrc Hrh]; subst. apply emitted_perm in Hes.
  assert (continues fuel es (nc + nh)) as Hcont.
  { intros sl2 es2 n2 Hf2 Hx2 Hr2 Hn2 Hp2.
    eapply always_mono; [apply _| |apply (IH sl2 es2 n2 Hf2 Hx2 Hr2); lia].
    intros o (r & sl' & -> & Hf' & Hs'). exists r, sl'. split_and!; [done|done|].
    eapply pull_spec_mono; [|exact Hp2|exact Hs']. lia. }
  destruct (cur_files c) eqn:Ef; [by eapply pull_file|by eapply pull_dir].
Qed.

(** ** A page *)

Abbreviation sorted_emitted es := (sort_by cmp_entry (emitted es)).

(** A pull takes the head of the sorted keys left. *)
Lemma sorted_emitted_cons es e es' :
  NoDup (key <$> emitted es) → emitted es ≡ₚ e :: emitted es' →
  (∀ x, x ∈ emitted es' → key e ⪯ key x) →
  NoDup (key <$> emitted es') ∧ sorted_emitted es = e :: sorted_emitted es'.
Proof using Type.
  intros Hnd Hp Hmin. rewrite Hp in Hnd. cbn [fmap list_fmap] in Hnd.
  apply NoDup_cons in Hnd as [Hni Hnd]. split; [done|].
  apply (sort_by_key_unique key).
  - constructor; [by apply (sort_by_key_strict key)|]. apply Forall_forall.
    intros x Hx. rewrite (sort_by_perm cmp_entry) in Hx. specialize (Hmin x Hx).
    apply str_le_lt_eq in Hmin as [E|?]; [|done]. destruct Hni. rewrite E.
    apply list_elem_of_fmap. by exists x.
  - rewrite (sort_by_perm cmp_entry). by symmetry.
Qed.

Lemma next_entry_seeded fuel sl :
  sl_exhausted sl = false → sl_start_seeded sl = true → next_entry fuel sl = next_loop fuel sl.
Proof using Type. intros Hx Hs. unfold next_entry. by rewrite Hx, Hs. Qed.

Lemma collect_loop_spec turns fuel max_keys page sl es n :
  sl_frame sl → sl_exhausted sl = false → heap_rem (sl_heap sl) es n →
  n < turns → n < fuel → NoDup (key <$> emitted es) →
  (N.of_nat (length page) <= max_keys)%N →
  let l := sorted_emitted es in
  let k := N.to_nat (N.min (max_keys - N.of_nat (length page)) (N.of_nat (length l))) in
  always I Rely (collect_loop turns fuel max_keys page sl) (λ o,
    o = Some (Ok (page ++ take k l, bool_decide (k < length l)))).
Proof using All.
  revert page sl es n. induction turns as [|turns IH];
    intros page sl es n Hfr Hx Hr Ht Hf Hnd Hlen; [lia|]. cbv zeta. cbn [collect_loop].
  rewrite next_entry_seeded by (done || apply Hfr).
  eapply always_bind; [apply _|apply (next_loop_spec fuel sl es n Hfr Hx Hr Hf)|].
  intros o (r & sl1 & -> & Hfr1 & Hsp). destruct r as [e|]; cbn [pull_spec] in Hsp.
  - destruct Hsp as (Hx1 & es1 & n1 & Hr1 & Hn1 & Hp & Hmin).
    destruct (sorted_emitted_cons es e es1 Hnd Hp Hmin) as [Hnd1 ->].
    destruct (N.ltb_spec (N.of_nat (length page)) max_keys) as [Hlt|Hge].
    + eapply always_mono; [apply _| |apply (IH (page ++ [e]) sl1 es1 n1);
        [done|done|done|lia|lia|done|rewrite length_app; simpl; lia]].
      intros o ->. rewrite length_app. cbn [length]. do 3 f_equal.
      set (L := sorted_emitted es1).
      replace (N.to_nat (N.min (max_keys - N.of_nat (length page)) (N.of_nat (S (length L)))))
        with (S (N.to_nat (N.min (max_keys - N.of_nat (length page + 1)) (N.of_nat (length L))))) by lia.
      set (k := N.to_nat _). cbn [take]. rewrite <- app_assoc. cbn [app]. f_equal.
      apply bool_decide_ext. lia.
    + apply always_done. replace (max_keys - N.of_nat (length page))%N with 0%N by lia.
      rewrite N.min_0_l. cbn [N.to_nat take length]. rewrite app_nil_r.
      by rewrite bool_decide_eq_true_2 by lia.
  - rewrite Hsp. cbn [sort_by length]. rewrite N.min_0_r. cbn [N.to_nat take]. rewrite app_nil_r.
    destruct (N.ltb (N.of_nat (length page)) max_keys); by apply always_done.
Qed.
End frontier.

(** The files of the walk a request asks for, in key order. *)
Definition requested_files (prefix : str) (after : option str) (es : list ListEntry) :
    list ListEntry :=
  sort_by cmp_entry (List.filter (λ e, starts_with (key e) prefix && after_marker after (key e)) es).

(** A listing over a lister that reads the namespace [ns] at every moment. *)
Lemma collect_page_spec {St} `{!DirLister St} (I : St → Prop) (Rely : St → St → Prop) `{!PreOrder Rely}
    m rs ns depth prefix after start es n fuel max_keys :
  rooted_at m rs → ns_wf rs ns → (∀ p, always I Rely (list_dir p) (λ r, r = ns p)) →
  list_start m prefix = Some start → walk_start m ns depth start = Some (es, n) →
  n < fuel → max_keys ≠ 0%N →
  let l := requested_files prefix after es in
  let k := N.to_nat (N.min max_keys (N.of_nat (length l))) in
  always I Rely (collect_page fuel max_keys (new_listing start prefix after m)) (λ o,
    o = Some (Ok (take k l, bool_decide (k < length l)))).
Proof.
  intros Hm Hns Hlist Hls Hw Hf Hmax. cbv zeta. unfold collect_page.
  apply N.eqb_neq in Hmax as Hmax'. rewrite Hmax'.
  assert (∃ ds0, Forall valid_seg ds0 ∧ start = abs_path (rs ++ ds0)) as (ds0 & Hds0 & ->).
  { by eapply list_start_rooted. }
  pose proof (walk_start_nodup m rs ns Hm Hns depth ds0 es n Hds0 Hw) as Hnd.
  destruct fuel as [|fuel]; [lia|]. unfold walk_start in Hw.
  set (sl0 := set_seeded (new_listing (abs_path (rs ++ ds0)) prefix after m)).
  assert (∀ l, ns (abs_path (rs ++ ds0)) = Ok l →
    always I Rely (collect_loop (S fuel) (S fuel) max_keys [] (push_listing l sl0)) (λ o,
      o = Some (Ok (take (N.to_nat (N.min max_keys (N.of_nat (length (requested_files prefix after es)))))
        (requested_files prefix after es),
        bool_decide (N.to_nat (N.min max_keys (N.of_nat (length (requested_files prefix after es))))
                     < length (requested_files prefix after es)))))) as Hok.
  { intros l El. rewrite El in Hw.
    destruct (walk_dirs _ (dirs l)) as [[e2 n2]|] eqn:Ew; [|done]. injection Hw as <- <-.
    assert (children_of (ds0 ++ []) l) as Hco by (rewrite app_nil_r; by apply Hns).
    destruct (listing_rem m rs ds0 ns prefix after Hm Hds0 Hns [] l depth e2 n2 ltac:(constructor) Hco Ew)
      as (e3 & n3 & Hr3 & Hn3 & He3).
    assert (sort_by cmp_entry (List.filter (emit prefix after) e3) =
            requested_files prefix after (files l ++ e2)) as E by (by rewrite He3).
    eapply always_mono; [apply _| |apply (collect_loop_spec m rs ds0 ns prefix after Hm Hds0 Hns Hls I Rely
      Hlist (S fuel) (S fuel) max_keys [] (push_listing l sl0) e3 n3)]; [|done|done| |lia|lia| |simpl; lia].
    - intros o ->. rewrite E. cbn [length app N.of_nat]. by rewrite N.sub_0_r.
    - cbn. rewrite app_nil_r. exact Hr3.
    - rewrite He3. by apply NoDup_fmap_bfilter. }
  assert (∀ l, next_entry (S fuel) (push_listing l sl0) = next_loop (S fuel) (push_listing l sl0)) as Hne
    by (intros l; by apply next_entry_seeded).
  cbn [collect_loop] in Hok |- *. unfold next_entry at 1.
  cbn [new_listing sl_exhausted sl_start_seeded negb]. cbv zeta. fold sl0.
  apply always_assoc. eapply always_bind; [apply _|apply Hlist|]. intros r ->.
  change (sl_start sl0) with (abs_path (rs ++ ds0)).
  destruct (ns (abs_path (rs ++ ds0))) as [l|err] eqn:El.
  - specialize (Hok l eq_refl). by rewrite Hne in Hok.
  - destruct err; try done. injection Hw as <- <-. cbn [pbind length N.of_nat].
    unfold requested_files. cbn [List.filter sort_by length]. rewrite N.min_0_r. cbn [N.to_nat take].
    destruct (N.ltb _ max_keys); by apply always_done.
Qed.

(** ** The flat listing: theorems *)

(** C14 Over a fixed namespace the lazy merge returns the page of the full walk,
    whatever other requests do between its steps: the files whose key matches
    the prefix and is after the marker, strictly sorted, cut at [max_keys], with
    the truncation flag set exactly when files are left; a missing start
    directory gives the empty page, and unreadable or vanished subdirectories
    are left out. The number of entries the walk sees bounds the turns. *)
Theorem flat_listing_exact {St} `{!DirLister St} (I : St → Prop) (Rely : St → St → Prop)
    `{!PreOrder Rely} config rs ns depth prefix after start es n fuel max_keys :
  let m := new_mapper config in
  root m = abs_path rs → Forall valid_seg rs → ns_wf rs ns →
  (∀ p, always I Rely (list_dir p) (λ r, r = ns p)) →
  list_start m prefix = Some start → walk_start m ns depth start = Some (es, n) →
  n < fuel → max_keys ≠ 0%N →
  let l := requested_files prefix after es in
  let k := N.to_nat (N.min max_keys (N.of_nat (length l))) in
  StronglySorted (key_lt key) l ∧
  always I Rely (collect_page fuel max_keys (new_listing start prefix after m)) (λ o,
    o = Some (Ok (take k l, bool_decide (k < length l)))).
Proof.
  intros m Hr Hrs Hns Hlist Hls Hw Hf Hmax l k.
  assert (rooted_at m rs) as Hm by done. split; [|by eapply collect_page_spec].
  assert (∃ ds0, Forall valid_seg ds0 ∧ start = abs_path (rs ++ ds0)) as (ds0 & Hds0 & ->).
  { by eapply list_start_rooted. }
  pose proof (walk_start_nodup m rs ns Hm Hns depth ds0 es n Hds0 Hw) as Hnd.
  apply (sort_by_key_strict key). by apply NoDup_fmap_bfilter.
Qed.

Section any_lister.
Context {St : Type} `{!DirLister St} (I : St → Prop) (Rely : St → St → Prop) `{!PreOrder Rely}.
Context (m : PathMapper) (prefix start : str) (after : option str).

(** The fields that say what may be opened. *)
Definition request_frame (sl : SortedListing) : Prop :=
  sl_mapper sl = m ∧ sl_prefix sl = prefix ∧ sl_after sl = after ∧ sl_start sl = start.

(** The directories a request may open. *)
Definition may_open (p : str) : Prop :=
  p = start ∨
  ∃ k, starts_with k prefix = true ∧ (∀ a, after = Some a → dir_children_all_before k a = false) ∧
       key_to_hdfs_path m k = Some p.

(** What is known of an error of the lister. *)
Context (P : str → HdfsError → Prop).
Context (Hopen : ∀ p, may_open p → always I Rely (list_dir p) (λ r, ∀ e, r = Err e → P p e)).

(** An error a listing reports is the lister's. *)
Definition reported (e : HdfsError) : Prop :=
  ∃ p, P p e ∧ (∀ w, e ≠ FileNotFound w) ∧ (p = start ∨ is_dir_denied e = false).

Definition pulled_any (o : option (result (option ListEntry) HdfsError * SortedListing)) : Prop :=
  ∀ r sl', o = Some (r, sl') →
    request_frame sl' ∧ match r with Err e => reported e | Ok _ => True end.

Lemma pulled_done r sl :
  request_frame sl → match r with Err e => reported e | Ok _ => True end →
  always I Rely (Done (Some (r, sl))) pulled_any.
Proof using Type. intros Hf Hr. apply always_done. by intros ? ? [= <- <-]. Qed.

Lemma next_loop_any fuel sl :
  request_frame sl → always I Rely (next_loop fuel sl) pulled_any.
Proof using All.
  revert sl. induction fuel as [|fuel IH]; intros sl Hfr; cbn [next_loop]; [by apply always_done|].
  destruct (heap_pop (sl_heap sl)) as [[c h]|]; [|by apply pulled_done].
  destruct (advance c) as [more next].
  set (sl2 := set_heap (if more then next :: h else h) sl).
  assert (request_frame sl2) as Hfr2 by done. pose proof Hfr2 as (Hfm & Hfp & Hfa & Hfs).
  assert (∀ l, request_frame (push_listing l sl2)) as Hpush by done. clearbody sl2.
  destruct (cur_files c).
  - destruct (files (cur_listing c) !! cur_idx c) as [f|]; [|by apply always_done].
    destruct (negb _); [by apply IH|]. destruct (negb _); [by apply IH|]. by apply pulled_done.
  - destruct (dirs (cur_listing c) !! cur_idx c) as [k|]; [|by apply always_done].
    destruct (starts_with k (sl_prefix sl2)) eqn:Est; [|by apply IH].
    cbn [negb]. destruct (match sl_after sl2 with Some _ => _ | None => _ end) eqn:Eaf; [by apply IH|].
    rewrite Hfm. destruct (key_to_hdfs_path m k) as [p|] eqn:Ek; [|by apply IH].
    assert (may_open p) as Hp.
    { right. exists k. rewrite <- Hfp. split_and!; [done| |done]. intros a Ha.
      by rewrite Hfa, Ha in Eaf. }
    eapply always_bind; [apply _|by apply Hopen|]. intros [l|e] He; [by apply IH|].
    destruct (is_dir_denied e) eqn:Ed; [by apply IH|].
    destruct e; try (by apply IH); (apply pulled_done; [done|]; exists p; split_and!; auto; done).
Qed.

Lemma next_entry_any fuel sl :
  request_frame sl → always I Rely (next_entry fuel sl) pulled_any.
Proof using All.
  intros Hfr. unfold next_entry. destruct (sl_exhausted sl); [by apply pulled_done|].
  destruct (sl_start_seeded sl); cbn [negb]; [by apply next_loop_any|].
  pose proof Hfr as (Hfm & Hfp & Hfa & Hfs). cbn [set_seeded sl_start]. rewrite Hfs.
  eapply always_bind; [apply _|apply Hopen; by left|]. intros [l|e] He; [by apply next_loop_any|].
  destruct e; (apply pulled_done; [done|]); try done; exists start; split_and!; auto; done.
Qed.

Lemma collect_loop_any turns fuel max_keys page sl :
  request_frame sl →
  always I Rely (collect_loop turns fuel max_keys page sl) (λ o, ∀ e, o = Some (Err e) → reported e).
Proof using All.
  revert page sl. induction turns as [|turns IH]; intros page sl Hfr; cbn [collect_loop];
    [by apply always_done|].
  eapply always_bind; [apply _|by apply next_entry_any|].
  intros [[r1 sl1]|] Hr; [|by apply always_done].
  destruct (Hr r1 sl1 eq_refl) as [Hfr1 He].
  destruct r1 as [entry|e]; [|apply always_done; by intros ? [= <-]].
  destruct (N.ltb _ _); [|by apply always_done]. destruct entry; [by apply IH|by apply always_done].
Qed.

Lemma collect_page_any fuel max_keys :
  always I Rely (collect_page fuel max_keys (new_listing start prefix after m))
    (λ o, ∀ e, o = Some (Err e) → reported e).
Proof using All.
  unfold collect_page. destruct (N.eqb max_keys 0); [by apply always_done|]. by apply collect_loop_any.
Qed.
End any_lister.

(** What every access of the lister keeps, every access of the page does. *)
Section keeping.
Context {St : Type} `{!DirLister St} (D K : St → St → Prop).
Context (Hkeep : ∀ p, keeps D K (list_dir p) (λ _, True)).

Lemma next_loop_keeps fuel sl : keeps D K (next_loop fuel sl) (λ _, True).
Proof using All.
  revert sl. induction fuel as [|fuel IH]; intros sl; cbn [next_loop]; [done|].
  destruct (heap_pop (sl_heap sl)) as [[c h]|]; [|done]. destruct (advance c) as [more next].
  destruct (cur_files c).
  - destruct (files _ !! _) as [f|]; [|done]. by destruct (negb _); [|destruct (negb _)].
  - destruct (dirs _ !! _) as [k|]; [|done]. destruct (negb _); [done|].
    destruct (match sl_after _ with Some _ => _ | None => _ end); [done|].
    destruct (key_to_hdfs_path _ k) as [p|]; [|done]. eapply keeps_bind; [apply Hkeep|].
    intros [l|e] _; [done|]. destruct (is_dir_denied e); [done|]. by destruct e.
Qed.

Lemma next_entry_keeps fuel sl : keeps D K (next_entry fuel sl) (λ _, True).
Proof using All.
  unfold next_entry. destruct (sl_exhausted sl); [done|].
  destruct (sl_start_seeded sl); cbn [negb]; [apply next_loop_keeps|].
  eapply keeps_bind; [apply Hkeep|]. intros [l|e] _; [apply next_loop_keeps|by destruct e].
Qed.

Lemma collect_page_keeps fuel max_keys sl : keeps D K (collect_page fuel max_keys sl) (λ _, True).
Proof using All.
  unfold collect_page. destruct (N.eqb max_keys 0); [done|]. generalize (@nil ListEntry) as page.
  generalize fuel at 1 as turns. intros turns. revert sl.
  induction turns as [|turns IH]; intros sl page; cbn [collect_loop]; [done|].
  eapply keeps_bind; [apply next_entry_keeps|]. intros [[[[e|]|e] sl']|] _; [..|done|done];
    by destruct (N.ltb _ _).
Qed.
End keeping.

(** A directory is only ever opened when it is the start of the listing, or
    its key matches the prefix and can hold a key after the marker: what every
    access of such an opening keeps true, every access of the page does. *)
Theorem flat_listing_pruned {St} `{!DirLister St} (I : St → Prop) (Rely : St → St → Prop)
    `{!PreOrder Rely} m prefix start after fuel max_keys :
  (∀ p, may_open m prefix start after p → always I Rely (list_dir p) (λ _, True)) →
  always I Rely (collect_page fuel max_keys (new_listing start prefix after m)) (λ _, True).
Proof.
  intros H. eapply always_mono; [apply _| |apply (collect_page_any I Rely m prefix start after (λ _ _, True))];
    [done|]. intros p Hp. eapply always_mono; [apply _| |by apply H]. done.
Qed.

(** A failed listing reports an error of the lister: never a missing
    directory, and a denial only when it is the start directory's. *)
Theorem flat_listing_error {St} `{!DirLister St} (I : St → Prop) (Rely : St → St → Prop)
    `{!PreOrder Rely} m prefix start after fuel max_keys (P : str → HdfsError → Prop) :
  (∀ p, may_open m prefix start after p →
        always I Rely (list_dir p) (λ r, ∀ e, r = Err e → P p e)) →
  always I Rely (collect_page fuel max_keys (new_listing start prefix after m)) (λ o,
    ∀ e, o = Some (Err e) →
      ∃ p, P p e ∧ (∀ w, e ≠ FileNotFound w) ∧ (p = start ∨ is_dir_denied e = false)).
Proof. intros H. by apply collect_page_any. Qed.

(** ** One directory's listing *)

(** What a status adds to each kind. *)
Definition status_file (mapper : PathMapper) (st : FileStatus) : option ListEntry :=
  match hdfs_path_to_key mapper (fs_path st) with
  | Some k => if bool_decide (k = []) || fs_isdir st then None
              else Some (mkListEntry k (fs_length st) (fs_modification_time st))
  | None => None
  end.

Definition status_dir (mapper : PathMapper) (st : FileStatus) : option str :=
  match hdfs_path_to_key mapper (fs_path st) with
  | Some k => if bool_decide (k = []) || negb (fs_isdir st) then None else Some k
  | None => None
  end.

Lemma classify_fold mapper statuses fl dl :
  foldl (classify_status mapper) (fl, dl) statuses =
  (fl ++ omap (status_file mapper) statuses, dl ++ omap (status_dir mapper) statuses).
Proof.
  revert fl dl. induction statuses as [|st sts IH]; intros fl dl; [by rewrite !app_nil_r|].
  cbn [foldl classify_status omap list_omap]. unfold status_file at 1, status_dir at 1.
  destruct (hdfs_path_to_key mapper (fs_path st)) as [k|]; [|by rewrite IH].
  destruct (bool_decide (k = [])); cbn [orb]; [by rewrite IH|].
  destruct (fs_isdir st); cbn [negb]; rewrite IH, <- !app_assoc; done.
Qed.

(** The statuses a [getListing] of the directory [ds] returns: its children,
    each once. *)
Definition children_statuses (rs ds : list str) (statuses : list FileStatus) : Prop :=
  (∀ st, st ∈ statuses → ∃ n, valid_seg n ∧ fs_path st = abs_path (rs ++ ds ++ [n])) ∧
  NoDup (fs_path <$> statuses).

(** The key a status maps to. *)
Lemma status_key m rs ds st :
  rooted_at m rs → Forall valid_seg ds →
  (∃ n, valid_seg n ∧ fs_path st = abs_path (rs ++ ds ++ [n])) →
  ∃ n, valid_seg n ∧ fs_path st = abs_path (rs ++ ds ++ [n]) ∧
       hdfs_path_to_key m (fs_path st) = Some (join_slash (ds ++ [n])) ∧
       join_slash (ds ++ [n]) ≠ [].
Proof.
  intros Hm Hds (n & Hn & Hp). exists n. split_and!; [done|done| |].
  - rewrite Hp. apply hdfs_path_to_key_clean; [done|]. apply Forall_app; auto.
  - apply valid_join_nonempty; [apply Forall_app; auto|by destruct ds].
Qed.

(** The name a child's path ends in is its own. *)
Lemma child_name_unique rs ds n n' :
  Forall valid_seg rs → Forall valid_seg ds → valid_seg n → valid_seg n' →
  abs_path (rs ++ ds ++ [n]) = abs_path (rs ++ ds ++ [n']) → n = n'.
Proof.
  intros Hrs Hds Hn Hn' E%abs_path_inj; [|repeat (apply Forall_app; split); auto..].
  do 2 apply app_inv_head in E. by injection E.
Qed.

Lemma status_file_spec m rs ds st f :
  rooted_at m rs → Forall valid_seg ds →
  (∃ n, valid_seg n ∧ fs_path st = abs_path (rs ++ ds ++ [n])) →
  status_file m st = Some f ↔ ∃ n, fs_isdir st = false ∧
    fs_path st = abs_path (rs ++ ds ++ [n]) ∧ valid_seg n ∧
    f = mkListEntry (join_slash (ds ++ [n])) (fs_length st) (fs_modification_time st).
Proof.
  intros Hm Hds Hst. destruct (status_key m rs ds st Hm Hds Hst) as (n & Hn & Hp & Hk & Hne).
  unfold status_file. rewrite Hk, bool_decide_eq_false_2 by done. cbn [orb]. split.
  - destruct (fs_isdir st); [done|]. intros [= <-]. by exists n.
  - intros (n' & -> & Hp' & Hn' & ->). rewrite Hp in Hp'.
    apply child_name_unique in Hp'; [by subst|apply Hm|done..].
Qed.

Lemma status_dir_spec m rs ds st d :
  rooted_at m rs → Forall valid_seg ds →
  (∃ n, valid_seg n ∧ fs_path st = abs_path (rs ++ ds ++ [n])) →
  status_dir m st = Some d ↔ ∃ n, fs_isdir st = true ∧
    fs_path st = abs_path (rs ++ ds ++ [n]) ∧ valid_seg n ∧ d = join_slash (ds ++ [n]).
Proof.
  intros Hm Hds Hst. destruct (status_key m rs ds st Hm Hds Hst) as (n & Hn & Hp & Hk & Hne).
  unfold status_dir. rewrite Hk, bool_decide_eq_false_2 by done. cbn [orb]. split.
  - destruct (fs_isdir st); [|done]. intros [= <-]. by exists n.
  - intros (n' & -> & Hp' & Hn' & ->). rewrite Hp in Hp'.
    apply child_name_unique in Hp'; [by subst|apply Hm|done..].
Qed.

(** A directory's listing, from the statuses of its children. *)
Lemma children_listing m rs ds statuses :
  rooted_at m rs → Forall valid_seg ds → children_statuses rs ds statuses →
  let l := listing_from_statuses statuses m in
  children_of ds l ∧
  (∀ f, f ∈ files l ↔ ∃ st n, st ∈ statuses ∧ fs_isdir st = false ∧
     fs_path st = abs_path (rs ++ ds ++ [n]) ∧ valid_seg n ∧
     f = mkListEntry (join_slash (ds ++ [n])) (fs_length st) (fs_modification_time st)) ∧
  (∀ d, d ∈ dirs l ↔ ∃ st n, st ∈ statuses ∧ fs_isdir st = true ∧
     fs_path st = abs_path (rs ++ ds ++ [n]) ∧ valid_seg n ∧ d = join_slash (ds ++ [n])).
Proof.
  intros Hm Hds [Hch Hnd]. cbv zeta.
  unfold listing_from_statuses. rewrite classify_fold. cbn [app files dirs].
  pose proof (λ st f Hst, status_file_spec m rs ds st f Hm Hds (Hch st Hst)) as H1.
  pose proof (λ st d Hst, status_dir_spec m rs ds st d Hm Hds (Hch st Hst)) as H2.
  rewrite (sort_by_ext cmp_dir_keys (key_cmp (λ d, d ++ [slash])))
    by (intros; apply cmp_dir_keys_str).
  split_and!.
  - split; cbn [files dirs].
    + intros f. rewrite (sort_by_perm cmp_entry), list_elem_of_omap.
      intros (st & Hst & (n & _ & _ & Hn & ->)%H1); [|done]. by exists n.
    + intros d. rewrite (sort_by_perm (key_cmp _)), list_elem_of_omap.
      intros (st & Hst & (n & _ & _ & Hn & ->)%H2); [|done]. by exists n.
    + apply (sort_by_key_strict key). apply (NoDup_omap_key (status_file m) fs_path key); [|done].
      intros x y a b Hx Hy (n & _ & Hp & Hn & ->)%H1 (n' & _ & Hp' & Hn' & ->)%H1; [|done..].
      cbn [key]. rewrite Hp, Hp'. intros E%join_valid_inj; [|apply Forall_app; auto..].
      by rewrite E.
    + apply (sort_by_key_strict (λ d, d ++ [slash])).
      apply (NoDup_omap_key (status_dir m) fs_path (λ d, d ++ [slash])); [|done].
      intros x y a b Hx Hy (n & _ & Hp & Hn & ->)%H2 (n' & _ & Hp' & Hn' & ->)%H2; [|done..].
      rewrite Hp, Hp'. intros E%app_inv_tail%join_valid_inj; [|apply Forall_app; auto..].
      by rewrite E.
  - intros f. rewrite (sort_by_perm cmp_entry), list_elem_of_omap. split.
    + intros (st & Hst & (n & ? & ? & ? & ->)%H1); [|done]. by exists st, n.
    + intros (st & n & Hst & H). exists st. split; [done|]. apply H1; eauto.
  - intros d. rewrite (sort_by_perm (key_cmp _)), list_elem_of_omap. split.
    + intros (st & Hst & (n & ? & ? & ? & ->)%H2); [|done]. by exists st, n.
    + intros (st & n & Hst & H). exists st. split; [done|]. apply H2; eauto.
Qed.

(** The statuses of a directory's children become a well-formed listing that
    holds exactly them: each file with its length and time, each directory
    by its key. *)
Theorem listing_from_statuses_spec config rs ds statuses :
  let m := new_mapper config in
  root m = abs_path rs → Forall valid_seg rs → Forall valid_seg ds →
  children_statuses rs ds statuses →
  let l := listing_from_statuses statuses m in
  children_of ds l ∧
  (∀ f, f ∈ files l ↔ ∃ st n, st ∈ statuses ∧ fs_isdir st = false ∧
     fs_path st = abs_path (rs ++ ds ++ [n]) ∧ valid_seg n ∧
     f = mkListEntry (join_slash (ds ++ [n])) (fs_length st) (fs_modification_time st)) ∧
  (∀ d, d ∈ dirs l ↔ ∃ st n, st ∈ statuses ∧ fs_isdir st = true ∧
     fs_path st = abs_path (rs ++ ds ++ [n]) ∧ valid_seg n ∧ d = join_slash (ds ++ [n])).
Proof. intros m Hr Hrs Hds Hch. by apply children_listing. Qed.

(** ** Witnesses *)

(** A small namespace under [/data]: a file, a directory with one file whose
    own name sorts before it, and an unreadable directory. The lister's state
    is the log of the directories it was asked for. *)
Definition denied : HdfsError :=
  RPCError $"org.apache.hadoop.security.AccessControlException" $"Permission denied".

Definition demo_ns (p : str) : result DirListing HdfsError :=
  if bool_decide (p = $"/data") then
    Ok (mkDirListing [mkListEntry $"a.txt" 7 42] [$"a"; $"x"])
  else if bool_decide (p = $"/data/a") then Ok (mkDirListing [mkListEntry $"a/1" 7 42] [])
  else if bool_decide (p = $"/data/x") then Err denied
  else Err (FileNotFound p).

#[local] Instance demo_lister : DirLister (list str) := λ p, act (λ log, (demo_ns p, log ++ [p])).

(** In a state any other request may have changed. *)
Definition anything (log log' : list str) : Prop := True.

#[local] Instance anything_preorder : PreOrder anything.
Proof. done. Qed.

Lemma demo_lists p : always (λ _, True) anything (list_dir p) (λ r, r = demo_ns p).
Proof. intros s0. by apply safe_act. Qed.

Lemma demo_valid (s : str) : bool_decide (valid_seg s) = true → valid_seg s.
Proof. apply bool_decide_eq_true. Qed.

Lemma demo_wf : ns_wf [$"data"] demo_ns.
Proof.
  assert (Forall valid_seg [$"data"]) as Hd by (by apply Forall_singleton, demo_valid).
  intros ds l Hds. unfold demo_ns.
  case_bool_decide as E; [|clear E; case_bool_decide as E; [|by case_bool_decide]]; intros [= <-].
  - assert ([$"data"] ++ ds = [$"data"]) as E2.
    { apply abs_path_inj; [by apply Forall_app|done|exact E]. }
    destruct ds; [|done]. split; cbn [files dirs].
    + intros f [->|[]%elem_of_nil]%elem_of_cons. exists $"a.txt". by split; [apply demo_valid|].
    + intros d [->|[->|[]%elem_of_nil]%elem_of_cons]%elem_of_cons;
        [exists $"a"|exists $"x"]; by split; [apply demo_valid|].
    + by repeat constructor.
    + by repeat constructor.
  - assert ([$"data"] ++ ds = [$"data"; $"a"]) as E2.
    { apply abs_path_inj; [by apply Forall_app|by repeat (constructor; [by apply demo_valid|])|exact E]. }
    injection E2 as ->. split; cbn [files dirs].
    + intros f [->|[]%elem_of_nil]%elem_of_cons. exists $"1". by split; [apply demo_valid|].
    + by intros d ?%elem_of_nil.
    + by repeat constructor.
    + constructor.
Qed.

Definition demo_mapper : PathMapper := new_mapper (data_config $"/data").

(** The page after the marker [a.]: the directory [a] is opened, its keys are
    after the marker; the merge asks for the start, [a] and [x]. *)
Example merge_demo_page :
  exec (collect_page 10 5 (new_listing $"/data" [] (Some $"a.") demo_mapper)) [] =
  (Some (Ok ([mkListEntry $"a.txt" 7 42; mkListEntry $"a/1" 7 42], false)),
   [$"/data"; $"/data/a"; $"/data/x"]).
Proof. vm_compute. reflexivity. Qed.

Example flat_listing_exact_witness :
  let l := requested_files [] None [mkListEntry $"a.txt" 7 42; mkListEntry $"a/1" 7 42] in
  let k := N.to_nat (N.min 1 (N.of_nat (length l))) in
  StronglySorted (key_lt key) l ∧
  always (λ _, True) anything (collect_page 5 1 (new_listing $"/data" [] None demo_mapper)) (λ o,
    o = Some (Ok (take k l, bool_decide (k < length l)))).
Proof.
  apply (flat_listing_exact (λ _, True) anything (data_config $"/data") [$"data"] demo_ns 5 [] None
           $"/data" [mkListEntry $"a.txt" 7 42; mkListEntry $"a/1" 7 42] 4 5 1).
  - reflexivity.
  - by apply Forall_singleton, demo_valid.
  - apply demo_wf.
  - apply demo_lists.
  - reflexivity.
  - vm_compute. reflexivity.
  - lia.
  - done.
Defined.

(** Every directory the demonstration opens is under the root. *)
Definition under_data (log : list str) : Prop := Forall (λ p, starts_with p $"/data" = true) log.

Example flat_listing_pruned_witness :
  always under_data anything (collect_page 5 5 (new_listing $"/data" $"a" None demo_mapper)) (λ _, True).
Proof.
  apply (flat_listing_pruned under_data anything demo_mapper $"a" $"/data" None 5 5).
  intros p Hp s0. apply safe_act. intros s Hs _. split_and!; [|done|done].
  apply Forall_app. split; [done|]. apply Forall_singleton.
  destruct Hp as [->|(k & _ & _ & Hk)]; [done|].
  destruct (key_to_hdfs_path_inv demo_mapper [$"data"] k p) as (ds & HF & ->); [|exact Hk|].
  - split; [|done]. by apply Forall_singleton, demo_valid.
  - destruct ds; [done|]. unfold abs_path. by rewrite join_slash_app.
Defined.

Example flat_listing_error_witness :
  always (λ _, True) anything (collect_page 5 5 (new_listing $"/data/x" [] None demo_mapper)) (λ o,
    ∀ e, o = Some (Err e) →
      ∃ p, demo_ns p = Err e ∧ (∀ w, e ≠ FileNotFound w) ∧ (p = $"/data/x" ∨ is_dir_denied e = false)).
Proof.
  apply (flat_listing_error (λ _, True) anything demo_mapper [] $"/data/x" None 5 5
           (λ p e, demo_ns p = Err e)).
  intros p _. eapply always_mono; [apply _| |apply demo_lists]. by intros r ->.
Defined.

(** The statuses behind the listing of [/data]. *)
Definition demo_statuses : list FileStatus :=
  [mkFileStatus $"/data/x" 0 true 0; mkFileStatus $"/data/a" 0 true 0;
   mkFileStatus $"/data/a.txt" 7 false 42].

Example demo_listing :
  listing_from_statuses demo_statuses demo_mapper =
  mkDirListing [mkListEntry $"a.txt" 7 42] [$"a"; $"x"].
Proof. vm_compute. reflexivity. Qed.

Example listing_from_statuses_spec_witness :
  children_of [] (listing_from_statuses demo_statuses demo_mapper).
Proof.
  apply (listing_from_statuses_spec (data_config $"/data") [$"data"] []); try done.
  - by apply Forall_singleton, demo_valid.
  - split.
    + intros st. unfold demo_statuses. rewrite !elem_of_cons, elem_of_nil.
      intros [->|[->|[->|[]]]]; [exists $"x"|exists $"a"|exists $"a.txt"];
        by split; [apply demo_valid|].
    + apply (bool_decide_unpack _). reflexivity.
Defined.
