(* ===== verification/Caches.v ===== *)
(** The gateway's caches: [src/s3/cache.rs].

    The four TTL caches, their keys and values, and the budgets
    [Caches::new] derives from the configuration. The reader type of
    [hdfs_native] is a parameter. *)

From S2P Require Import Prelude Config Cache Listing.

(** [usize] is 64 bits wide on the targets the gateway is built for. *)

Record FileMeta := mkFileMeta {
  fm_length : N;
  fm_isdir : bool;
  fm_modification_time : N;
}.

#[export] Instance FileMeta_eq_dec : EqDecision FileMeta.
Proof. solve_decision. Defined.

Record CachedReader (R : Type) := mkCachedReader {
  cr_reader : R;
  cr_length : N;
  cr_modification_time : N;
}.
Arguments mkCachedReader {R}.
Arguments cr_reader {R}.
Arguments cr_length {R}.
Arguments cr_modification_time {R}.

(** [NonZeroUsize::new(n.max(1))]. *)
Definition capacity (n : N) : N := N.max n 1.

(** A duration in milliseconds; zero when the caches are switched off. *)
Definition ttl (config : CacheConfig) (millis : N) : N := if enabled config then millis else 0.

Record Caches (L : Type → Type) (R : Type) := mkCaches {
  metadata : TtlCache L FileMeta;
  negative : TtlCache L unit;
  blocks : TtlCache L (CachedReader R);
  dirs : TtlCache L DirListing;
  max_dir_entries : N;
}.
Arguments mkCaches {L R}.
Arguments metadata {L R}.
Arguments negative {L R}.
Arguments blocks {L R}.
Arguments dirs {L R}.
Arguments max_dir_entries {L R}.

Section caches.
Context {L : Type → Type} `{!Lru str L} {R : Type}.

Definition new_caches (config : CacheConfig) : Caches L R := {|
  metadata := cache_new (capacity (metadata_capacity config))
                (ttl config (metadata_ttl_ms config)) (metadata_capacity config);
  negative := cache_new (capacity (metadata_capacity config))
                (ttl config (negative_ttl_ms config)) (metadata_capacity config);
  blocks := cache_new (capacity (blocks_capacity config))
              (ttl config (blocks_ttl_ms config)) (blocks_capacity config);
  dirs := cache_new (capacity (listing_capacity_entries config))
            (ttl config (listing_ttl_ms config)) (listing_capacity_entries config);
  max_dir_entries := listing_max_dir_entries config;
|}.

(** The caches of a configuration that switches them off are disabled. *)
Lemma new_caches_off config :
  enabled config = false →
  is_enabled (metadata (new_caches config)) = false ∧
  is_enabled (negative (new_caches config)) = false ∧
  is_enabled (blocks (new_caches config)) = false ∧
  is_enabled (dirs (new_caches config)) = false.
Proof. unfold new_caches, ttl. intros ->. done. Qed.

(** Every cache starts empty. *)
Lemma new_caches_empty `{!LruLaws str L} config :
  lru_items (entries (metadata (new_caches config))) = [] ∧
  lru_items (entries (negative (new_caches config))) = [] ∧
  lru_items (entries (blocks (new_caches config))) = [] ∧
  lru_items (entries (dirs (new_caches config))) = [].
Proof. split_and!; apply lru_items_new. Qed.
End caches.
