(* ===== verification/Server.v ===== *)
(** The server: [src/s3/server.rs], [src/s3/auth.rs], [src/main.rs], and
    [HdfsGateway::from_config].

    From a configuration to a listening service: the HDFS client, the S3
    service with its limits and its optional secret, the bound address. Then
    the accept loop: [serve_step] is one thing that happens to a serving
    process, and a run of it any order of them. Sockets, [hyper], the builder
    of the HDFS client and [s3s] are parameters. *)

From S2P Require Import Prelude Config Path HdfsError Cache Caches Backpressure.
From stdpp Require Import relations.

(** ** Construction *)

Section construction.
(** [hdfs_native::ClientBuilder] and [Client]. *)
Context {ClientBuilder Client ClientError : Type}.
Context (builder_new : ClientBuilder) (with_url : str → ClientBuilder → ClientBuilder).
Context (with_config : gmap str str → ClientBuilder → ClientBuilder).
Context (with_config_dir with_user : str → ClientBuilder → ClientBuilder).
Context (builder_build : ClientBuilder → result Client ClientError) (client_error_string : ClientError → str).
Context {L : Type → Type} `{!Lru str L} {R : Type} {Sem : Type} `{!Semaphore Sem}.

Record HdfsGateway := mkHdfsGateway {
  hg_client : Client;
  hg_mapper : PathMapper;
  hg_config : Config;
  hg_cache : Caches L R;
}.

Definition new_gateway (client : Client) (config : Config) : HdfsGateway := {|
  hg_client := client;
  hg_mapper := new_mapper config;
  hg_config := config;
  hg_cache := new_caches (cache config);
|}.

Definition from_config (config : Config) : result HdfsGateway str :=
  let builder := with_url (namenode_uri config) builder_new in
  let builder := if bool_decide (hdfs_options config = ∅) then builder
                 else with_config (hdfs_options config) builder in
  let builder := match hdfs_config_dir config with
                 | Some dir => with_config_dir dir builder | None => builder end in
  let builder := match hdfs_user config with
                 | Some user => with_user user builder | None => builder end in
  let? client := map_err (λ e, $"failed to build HDFS client: " ++ client_error_string e)
                   (builder_build builder) in
  Ok (new_gateway client config).

(** ** Authentication *)

(** [s3s::auth::SecretKey]. *)
Abbreviation SecretKey := str (only parsing).

Record SharedSecretAuth := mkSharedSecretAuth { secret : SecretKey }.

(** [S3Auth::get_secret_key]. *)
Definition get_secret_key (auth : SharedSecretAuth) (_access_key : str) : result SecretKey S3Error :=
  Ok (secret auth).

(** ** The service *)

(** The limits [build_service] sets on the default [S3Config]. *)
Record S3Config := mkS3Config {
  xml_max_body_size : N;
  post_object_max_file_size : N;
  form_max_field_size : N;
  form_max_fields_size : N;
  form_max_parts : N;
}.

Record S3Service := mkS3Service {
  svc_gateway : HdfsGateway;
  svc_config : S3Config;
  svc_auth : option SharedSecretAuth;
}.

Record BackpressureService := mkBackpressureService {
  bp_inner : S3Service;
  bp_semaphore : Sem;
}.

Definition build_service (gateway : HdfsGateway) (config : Config) : BackpressureService :=
  let s3_config := {|
    xml_max_body_size := 20 * 1024 * 1024;
    post_object_max_file_size := 5 * 1024 * 1024 * 1024;
    form_max_field_size := 1024 * 1024;
    form_max_fields_size := 20 * 1024 * 1024;
    form_max_parts := 1000;
  |}%N in
  let builder := mkS3Service gateway s3_config None in
  let builder := match auth_secret config with
                 | Some secret => mkS3Service gateway s3_config (Some (mkSharedSecretAuth secret))
                 | None => builder
                 end in
  mkBackpressureService builder (bp_service config).

(** ** Startup *)

(** [SocketAddr], its parser and printer, and [TcpListener::bind]. *)
Context {SocketAddr Listener AddrError BindError : Type}.
Context (parse_addr : str → result SocketAddr AddrError).
Context (bind : SocketAddr → result Listener BindError).

(** What stops a gateway before it serves. *)
Inductive StartError : Type :=
| ClientFailed (message : str)
| InvalidAddr (e : AddrError)
| BindFailed (addr : SocketAddr) (e : BindError).

(** The steps [main], [start] and [serve_blocking] share. *)
Definition prepare (config : Config) : result (Listener * BackpressureService) StartError :=
  let? gateway := map_err ClientFailed (from_config config) in
  let service := build_service gateway config in
  let? addr := map_err InvalidAddr (parse_addr (listen_addr config)) in
  let? listener := map_err (BindFailed addr) (bind addr) in
  Ok (listener, service).

Context {IoError TomlError : Type} (load : CliArgs → result Config (ConfigError IoError TomlError)).

Inductive MainError : Type :=
| LoadFailed (e : ConfigError IoError TomlError)
| StartFailed (e : StartError).

(** [main], up to the call of [serve]. *)
Definition main (args : CliArgs) : result (Listener * BackpressureService) MainError :=
  let? config := map_err LoadFailed (load args) in
  map_err StartFailed (prepare config).

Lemma prepare_inv config listener service :
  prepare config = Ok (listener, service) →
  ∃ gateway addr, from_config config = Ok gateway ∧ parse_addr (listen_addr config) = Ok addr ∧
    bind addr = Ok listener ∧ service = build_service gateway config.
Proof.
  unfold prepare. destruct (from_config config) as [g|]; [|done]. cbn [map_err].
  destruct (parse_addr _) as [addr|]; [|done]. cbn [map_err]. destruct (bind addr) as [l|] eqn:Eb; [|done].
  intros [= <- <-]. by exists g, addr.
Qed.

Lemma from_config_inv config g :
  from_config config = Ok g → ∃ client, g = new_gateway client config.
Proof.
  unfold from_config. cbv zeta. destruct (builder_build _) as [c|]; [|done]. intros [= <-]. by exists c.
Qed.
End construction.

(** ** The accept loop *)

Section serve.
(** The shutdown future: polled, it resolves or not yet. *)
Context {Shutdown : Type} (poll_shutdown : Shutdown → option Shutdown).

(** Where [serve] is; the drain's start is remembered with the number of
    connections accepted until then. *)
Inductive ServePhase : Type :=
| Accepting
| Draining (since : N) (accepted : nat)
| Returned (since : N) (accepted : nat).

(** The clock in milliseconds, and for each accepted connection whether its
    task still serves it. *)
Record ServeState := mkServeState {
  sv_phase : ServePhase;
  sv_now : N;
  sv_conns : list bool;
}.

(** The time a drain may take. *)
Definition drain_limit : N := 10 * 1000.

Definition all_closed (conns : list bool) : bool := forallb negb conns.

Inductive serve_step : ServeState * Shutdown → ServeState * Shutdown → Prop :=
| serve_accept now conns sd :
    serve_step (mkServeState Accepting now conns, sd) (mkServeState Accepting now (conns ++ [true]), sd)
| serve_accept_error now conns sd :
    serve_step (mkServeState Accepting now conns, sd) (mkServeState Accepting now conns, sd)
| serve_shutdown now conns sd sd' :
    poll_shutdown sd = Some sd' →
    serve_step (mkServeState Accepting now conns, sd)
      (mkServeState (Draining now (List.length conns)) now conns, sd')
(* [graceful.shutdown()] resolves when every watched connection is done *)
| serve_drained now conns sd since n :
    all_closed conns = true →
    serve_step (mkServeState (Draining since n) now conns, sd)
      (mkServeState (Returned since n) now conns, sd)
| serve_timeout now conns sd since n :
    (since + drain_limit <= now)%N →
    serve_step (mkServeState (Draining since n) now conns, sd)
      (mkServeState (Returned since n) now conns, sd)
(* a connection's task ends; time passes *)
| serve_close phase now conns sd i :
    conns !! i = Some true →
    serve_step (mkServeState phase now conns, sd) (mkServeState phase now (<[i := false]> conns), sd)
| serve_time phase now now' conns sd :
    (now <= now')%N →
    serve_step (mkServeState phase now conns, sd) (mkServeState phase now' conns, sd).

Definition serve_start (now : N) : ServeState := mkServeState Accepting now [].

(** What holds of a serving process: a drain accepts nothing, and [serve]
    returns when all it accepted are done or the time is over. *)
Definition serve_ok (s : ServeState) : Prop :=
  match sv_phase s with
  | Accepting => True
  | Draining since n => (since <= sv_now s)%N ∧ List.length (sv_conns s) = n
  | Returned since n => (since <= sv_now s)%N ∧ List.length (sv_conns s) = n ∧
      (all_closed (sv_conns s) = true ∨ (since + drain_limit <= sv_now s)%N)
  end.

Lemma all_closed_insert conns i : all_closed conns = true → all_closed (<[i := false]> conns) = true.
Proof using Type.
  unfold all_closed. revert i. induction conns as [|c conns IH]; intros [|i]; cbn; [done..| |];
    intros [Hc H]%andb_true_iff; [done|]. by rewrite Hc, IH.
Qed.

Lemma serve_step_ok c c' : serve_step c c' → serve_ok c.1 → serve_ok c'.1.
Proof using Type.
  intros Hst. unfold serve_ok.
  destruct Hst as [| | |now conns sd since n Hc|now conns sd since n Ht|phase now conns sd i Hi
    |phase now now' conns sd Ht]; cbn [fst sv_phase sv_now sv_conns]; try tauto.
  - done.
  - destruct phase; rewrite ?length_insert; [tauto..|]. intros (H1 & H2 & H3). split_and!; [done..|].
    destruct H3; [left; by apply all_closed_insert|by right].
  - destruct phase as [|since n|since n]; [done|..]; intuition lia.
Qed.

(** A drain can end: at once when every connection is done, and whatever the
    connections do once the time is over. *)
Lemma drain_enabled since n now conns sd :
  all_closed conns = true ∨ (since + drain_limit <= now)%N →
  serve_step (mkServeState (Draining since n) now conns, sd) (mkServeState (Returned since n) now conns, sd).
Proof using Type. intros [?|?]; by constructor. Qed.

Lemma serve_reach_ok now sd c : rtc serve_step (serve_start now, sd) c → serve_ok c.1.
Proof using Type.
  apply (rtc_ind_r (λ c, serve_ok c.1)); [done|]. intros c1 c2 _ Hst. by apply serve_step_ok.
Qed.

(** What a drain remembers does not change. *)
Definition drain_of (s : ServeState) : option (N * nat) :=
  match sv_phase s with Accepting => None | Draining t n | Returned t n => Some (t, n) end.

Lemma serve_steps_drain c c' d :
  rtc serve_step c c' → drain_of c.1 = Some d → drain_of c'.1 = Some d.
Proof using Type. induction 1 as [|c1 c2 c3 Hst _ IH]; [done|]. intros H. apply IH. by destruct Hst. Qed.

(** Graceful shutdown: from the moment the loop sees the signal, no
    connection is accepted any more; [serve] returns only when every accepted
    connection is done or ten seconds have passed since, and then it can,
    whatever the clients do. *)
Theorem serve_drains now0 sd0 since n now conns sd c :
  rtc serve_step (serve_start now0, sd0) (mkServeState (Draining since n) now conns, sd) →
  rtc serve_step (mkServeState (Draining since n) now conns, sd) c →
  List.length (sv_conns c.1) = List.length conns ∧
  match sv_phase c.1 with
  | Accepting => False
  | Draining since' _ => since' = since ∧
      (all_closed (sv_conns c.1) = true ∨ (since + drain_limit <= sv_now c.1)%N →
       serve_step c (mkServeState (Returned since n) (sv_now c.1) (sv_conns c.1), c.2))
  | Returned since' _ => since' = since ∧
      (all_closed (sv_conns c.1) = true ∨ (since + drain_limit <= sv_now c.1)%N)
  end.
Proof using Type.
  intros H0 H1. pose proof (serve_reach_ok _ _ _ H0) as [_ Hn].
  assert (serve_ok c.1) as Hok by (eapply serve_reach_ok; by etransitivity).
  pose proof (serve_steps_drain _ _ _ H1 eq_refl) as Hd.
  destruct c as [[phase now' conns'] sd']. unfold serve_ok, drain_of in *.
  cbn [fst snd sv_phase sv_now sv_conns] in *. destruct phase as [|t k|t k]; [done|..]; injection Hd as -> ->.
  - destruct Hok as [_ ->]. split_and!; [done..|]. by apply drain_enabled.
  - destruct Hok as (_ & -> & ?). by split_and!.
Qed.
End serve.

(** ** Witnesses *)

(** A client connects, the signal comes, the client is done, [serve] returns. *)
Example serve_drains_witness :
  let drained := mkServeState (Returned 5 1) 5 [false] in
  List.length (sv_conns drained) = 1 ∧
  match sv_phase drained with
  | Accepting => False
  | Draining since' _ => since' = 5%N ∧
      (all_closed (sv_conns drained) = true ∨ (5 + drain_limit <= sv_now drained)%N →
       serve_step (λ sd : bool, if sd then Some false else None) (drained, false)
         (mkServeState (Returned 5 1) (sv_now drained) (sv_conns drained), false))
  | Returned since' _ => since' = 5%N ∧
      (all_closed (sv_conns drained) = true ∨ (5 + drain_limit <= sv_now drained)%N)
  end.
Proof.
  intros drained.
  apply (serve_drains (λ sd : bool, if sd then Some false else None) 5 true 5 1 5 [true] false
           (drained, false)).
  - eapply rtc_l; [apply serve_accept|]. eapply rtc_l; [by apply serve_shutdown|]. apply rtc_refl.
  - eapply rtc_l; [by apply (serve_close _ _ 5 [true] false 0)|]. cbn.
    eapply rtc_l; [by apply serve_drained|]. apply rtc_refl.
Defined.
