(* ===== verification/PyLog.v ===== *)
(** The log bridge of the Python bindings: [init_tracing], [PyLogger] and the
    consumer thread of [src/python/src/lib.rs]; and its panic hook.

    The server's threads write chunks to an unbounded channel; a thread of its
    own cuts them into lines and calls Python's logger. The channel is the list
    of the chunks sent. *)

From S2P Require Import Prelude Bytes Config.

(** ** Initialization *)

(** The destination a subscriber was installed for, and its filter; the first
    call that gets to [call_once] decides. *)
Inductive LogTarget := ToPython | ToStderr.

Section tracing.
(** [EnvFilter::try_from_default_env] and [EnvFilter::new]. *)
Context {EnvFilter : Type} (env_filter : option EnvFilter) (filter_new : str → EnvFilter).
(** Whether [RUST_LOG] is set, and valid Unicode. *)
Context (has_env : bool).

Definition init_tracing (level : option str) (target : str) (installed : option (LogTarget * EnvFilter)) :
    option (LogTarget * EnvFilter) :=
  let level_str := match level with
                   | Some l => Some l
                   | None => if has_env then Some $"info" else None
                   end in
  match level_str with
  | None => installed
  | Some level_str =>
      let filter := or_else env_filter (filter_new level_str) in
      match installed with
      | Some _ => installed
      | None => Some (if bool_decide (target = $"python") then ToPython else ToStderr, filter)
      end
  end.
End tracing.

(** ** The bridge *)

(** [PyLogger::write]: a buffer that is text goes to the channel; the write
    always counts as complete. *)
Definition py_logger_write (buf : str) (channel : list str) : nat * list str :=
  (List.length buf, if utf8_valid buf then channel ++ [buf] else channel).

(** [line.trim_end_matches(['\r', '\n'])]. *)
Definition is_line_end (c : ascii) : bool := bool_decide (c = "010"%char ∨ c = "013"%char).

Fixpoint trim_start_matches (f : ascii → bool) (s : str) : str :=
  match s with
  | [] => []
  | c :: t => if f c then trim_start_matches f t else s
  end.

Definition trim_line (line : str) : str := rev (trim_start_matches is_line_end (rev line)).

(** [emit_line]: [attach n] is whether the [n]th attempt gets the interpreter;
    at most fifty are made. The result is what [logger.info] is called with. *)
Definition emit_line (logger : bool) (attach : nat → bool) (line : str) : option str :=
  let line := trim_line line in
  if bool_decide (line = []) then None
  else if negb logger then None
  else if existsb attach (seq 0 50) then Some line else None.

Definition newline : ascii := "010"%char.

(** The inner loop of the consumer: the complete lines of [pending], and what
    is left of it; the fuel is its length. *)
Fixpoint drain_lines (fuel : nat) (pending : str) : list str * str :=
  match fuel with
  | 0 => ([], pending)
  | S fuel =>
      match find_str pending [newline] with
      | Some idx =>
          let '(lines, rest) := drain_lines fuel (drop (S idx) pending) in
          (take (S idx) pending :: lines, rest)
      | None => ([], pending)
      end
  end.

(** [spawn_log_consumer]: the lines it hands to [emit_line], from the chunks of
    the channel until it is closed. *)
Fixpoint log_consumer (chunks : list str) (pending : str) : list str :=
  match chunks with
  | [] => if bool_decide (pending = []) then [] else [pending]
  | chunk :: chunks =>
      let pending := pending ++ chunk in
      let '(lines, pending) := drain_lines (List.length pending) pending in
      lines ++ log_consumer chunks pending
  end.

(** A line with its end. *)
Definition complete_line (l : str) : Prop := ∃ t, l = t ++ [newline] ∧ newline ∉ t.

Lemma drain_lines_spec fuel pending :
  List.length pending <= fuel →
  let '(lines, rest) := drain_lines fuel pending in
  List.concat lines ++ rest = pending ∧ Forall complete_line lines ∧ newline ∉ rest.
Proof.
  revert pending. induction fuel as [|fuel IH]; intros pending Hf; cbn [drain_lines].
  { destruct pending; [|simpl in Hf; lia]. split_and!; [done|constructor|apply not_elem_of_nil]. }
  destruct (find_str pending [newline]) as [idx|] eqn:E.
  2: { apply find_byte_none in E. by split_and!. }
  apply find_byte_some in E as (a & b & -> & Ha & ->). rewrite length_app in Hf. simpl in Hf.
  assert (drop (S (List.length a)) (a ++ newline :: b) = b) as ->.
  { rewrite cons_middle, app_assoc, drop_app_length'; [done|]. rewrite length_app. simpl. lia. }
  assert (take (S (List.length a)) (a ++ newline :: b) = a ++ [newline]) as ->.
  { rewrite cons_middle, app_assoc, take_app_length'; [done|]. rewrite length_app. simpl. lia. }
  specialize (IH b ltac:(lia)). destruct (drain_lines fuel b) as [lines rest].
  destruct IH as (E & Hl & Hr). split_and!; [|constructor; [by exists a|done]|done].
  cbn [List.concat]. by rewrite <- !app_assoc, E.
Qed.

Lemma log_consumer_spec chunks pending :
  newline ∉ pending →
  List.concat (log_consumer chunks pending) = pending ++ List.concat chunks ∧
  ∃ lines rest, log_consumer chunks pending = lines ++ rest ∧ Forall complete_line lines ∧
    match rest with [] => True | [l] => l ≠ [] ∧ newline ∉ l | _ => False end.
Proof.
  revert pending. induction chunks as [|chunk chunks IH]; intros pending Hp; cbn [log_consumer].
  { split; [case_bool_decide as E; [by rewrite E|cbn; by rewrite !app_nil_r]|].
    case_bool_decide; [by exists [], []|]. by exists [], [pending]. }
  pose proof (drain_lines_spec (List.length (pending ++ chunk)) (pending ++ chunk) (le_n _)) as Hd.
  destruct (drain_lines _ _) as [lines rest]. destruct Hd as (E & Hl & Hr).
  destruct (IH rest Hr) as (E2 & lines2 & rest2 & E3 & Hl2 & Hr2). split.
  - rewrite concat_app, E2. cbn [List.concat]. rewrite !app_assoc. by rewrite E.
  - exists (lines ++ lines2), rest2. rewrite E3, app_assoc. split_and!; [done| |done]. by apply Forall_app.
Qed.

(** The bridge loses and reorders nothing, however the writer cuts its output
    into chunks: the lines handed on are the whole output, each ended by its
    newline, with at most one unended line at the close. *)
Lemma log_lines_complete chunks :
  List.concat (log_consumer chunks []) = List.concat chunks ∧
  ∃ lines rest, log_consumer chunks [] = lines ++ rest ∧ Forall complete_line lines ∧
    match rest with [] => True | [l] => l ≠ [] ∧ newline ∉ l | _ => False end.
Proof. apply (log_consumer_spec chunks []), not_elem_of_nil. Qed.

(** ** From the writer to the logger *)

(** The channel after the writes of [bufs], through any clones of the logger. *)
Definition written (bufs : list str) : list str := foldl (λ channel buf, (py_logger_write buf channel).2) [] bufs.

(** What [logger.info] is called with, when the interpreter can be had for the
    [i]th line at the attempts [attach i]. *)
Definition bridge_lines (logger : bool) (attach : nat → nat → bool) (bufs : list str) : list str :=
  omap (λ x, emit_line logger (attach x.1) x.2) (imap pair (log_consumer (written bufs) [])).

(** The lines of a text. *)
Fixpoint split_lines (s : str) : list str :=
  match s with
  | [] => [[]]
  | c :: s =>
      if bool_decide (c = newline) then [] :: split_lines s
      else match split_lines s with
           | l :: ls => (c :: l) :: ls
           | [] => [[c]]
           end
  end.

Lemma written_valid bufs : Forall (λ b, utf8_valid b = true) bufs → written bufs = bufs.
Proof.
  unfold written. induction bufs as [|b bufs IH] using rev_ind; [done|].
  intros [Hbs Hb]%Forall_app. assert (utf8_valid b = true) as E by exact (proj1 (Forall_singleton _ _) Hb).
  rewrite foldl_app, IH by done. unfold py_logger_write. cbn [foldl snd]. by rewrite E.
Qed.

Lemma split_lines_line t s : newline ∉ t → split_lines (t ++ newline :: s) = t :: split_lines s.
Proof.
  induction t as [|c t IH]; [done|]. intros [Hc Ht]%not_elem_of_cons. cbn [app split_lines].
  rewrite bool_decide_false by done. by rewrite IH.
Qed.

Lemma split_lines_last t : newline ∉ t → split_lines t = [t].
Proof.
  induction t as [|c t IH]; [done|]. intros [Hc Ht]%not_elem_of_cons. cbn [split_lines].
  rewrite bool_decide_false by done. by rewrite IH.
Qed.

Lemma trim_line_newline t : trim_line (t ++ [newline]) = trim_line t.
Proof. unfold trim_line. by rewrite rev_unit. Qed.

Lemma emit_line_spec attach line :
  existsb attach (seq 0 50) = true →
  emit_line true attach line = if bool_decide (trim_line line = []) then None else Some (trim_line line).
Proof. intros Ha. unfold emit_line. cbv zeta. cbn [negb]. by rewrite Ha. Qed.

(** The lines, trimmed and without the empty ones. *)
Definition visible (ls : list str) : list str := filter (λ l, l ≠ []) (map trim_line ls).

Lemma visible_cons l ls :
  visible (l :: ls) = (if bool_decide (trim_line l = []) then [] else [trim_line l]) ++ visible ls.
Proof.
  unfold visible. cbn [map]. rewrite filter_cons. case_bool_decide as E; [|by rewrite decide_True].
  rewrite decide_False; [done|]. by intros [].
Qed.

Lemma visible_lines lines rest :
  Forall complete_line lines → match rest with [] => True | [l] => l ≠ [] ∧ newline ∉ l | _ => False end →
  visible (split_lines (List.concat (lines ++ rest))) = visible (lines ++ rest).
Proof.
  intros Hl Hr. induction Hl as [|l lines (t & -> & Ht) _ IH]; cbn [app List.concat].
  - destruct rest as [|l [|? ?]]; [by cbn|destruct Hr as [_ Hr]|done]. cbn [List.concat].
    by rewrite app_nil_r, split_lines_last.
  - rewrite <- app_assoc. cbn [app]. rewrite split_lines_line by done.
    by rewrite !visible_cons, IH, trim_line_newline.
Qed.

Lemma emitted lines attach k :
  (∀ i, existsb (attach i) (seq 0 50) = true) →
  omap (λ x, emit_line true (attach x.1) x.2) (imap (λ i, pair (k + i)) lines) = visible lines.
Proof.
  intros Ha. revert k. induction lines as [|l lines IH]; intros k; [done|].
  rewrite visible_cons, imap_cons. cbn [omap list_omap fst snd]. rewrite emit_line_spec by done.
  rewrite <- (IH (S k)). assert (imap ((λ i, pair (k + i)) ∘ S) lines = imap (λ i, pair (S k + i)) lines) as ->.
  { apply imap_ext. intros i x _. unfold compose. f_equal. lia. }
  by case_bool_decide.
Qed.

(** C39 The log bridge, from the writer to Python's logger: however the writer cuts
    its text into chunks, and however often the interpreter must be asked for,
    as long as it is had within the attempts, the logger is called with the
    lines of the text, in their order, each once and without its end, the empty
    ones left out. *)
Theorem bridge_exact attach bufs :
  Forall (λ b, utf8_valid b = true) bufs → (∀ i, existsb (attach i) (seq 0 50) = true) →
  bridge_lines true attach bufs = visible (split_lines (List.concat bufs)).
Proof.
  intros Hv Ha. unfold bridge_lines. rewrite written_valid by done.
  destruct (log_lines_complete bufs) as (<- & lines & rest & E & Hl & Hr).
  rewrite E, visible_lines by done. exact (emitted _ attach 0 Ha).
Qed.

(** Two lines, one of them empty, cut in the middle; the second attempt gets the
    interpreter. *)
Example bridge_exact_witness :
  bridge_lines true (λ _ n, Nat.eqb n 1) [$"hel"; $"lo" ++ [newline; newline] ++ $"wor"; $"ld"] = [$"hello"; $"world"].
Proof.
  exact (bridge_exact (λ _ n, Nat.eqb n 1) [$"hel"; $"lo" ++ [newline; newline] ++ $"wor"; $"ld"]
    ltac:(repeat constructor) (λ _, eq_refl)).
Defined.

(** ** Panics *)

Section panics.
(** What a hook is told of a panic, and the lines it prints. *)
Context {Info : Type}.

(** A hook is called on the thread that panics, whose flag
    [SUPPRESS_PANIC_PRINT] it may read. *)
Definition PanicHook : Type := bool → Info → list str.

(** The process's hook, and whether [INSTALLED] was used. *)
Record PanicState := mkPanicState {
  panic_hook : PanicHook;
  hook_installed : bool;
}.

Definition install_panic_hook (st : PanicState) : PanicState :=
  if hook_installed st then st
  else
    let prev := panic_hook st in
    mkPanicState (λ suppress info, if suppress then [] else prev suppress info) true.

(** However many servers are started, a thread that asked for silence is silent,
    and all the others panic as they did before. *)
Lemma panics_reported n st suppress info :
  hook_installed st = false →
  panic_hook (Nat.iter (S n) install_panic_hook st) suppress info =
    if suppress then [] else panic_hook st suppress info.
Proof using Type.
  intros Hi. assert (Nat.iter (S n) install_panic_hook st = install_panic_hook st) as ->.
  { induction n as [|n IH]; [done|]. rewrite Nat.iter_succ, IH. unfold install_panic_hook. by rewrite Hi. }
  unfold install_panic_hook. by rewrite Hi.
Qed.
End panics.
