(* ===== verification/Bindings.v ===== *)
(** The Python bindings: [src/python/src/lib.rs].

    A [Gateway] object, the native threads its [start] spawns, and the Python
    threads inside its methods. [py_step] is one step of one of them, and a
    run of it any interleaving. [tokio]'s [Notify] is the interface [Notify];
    PyO3's check of the borrows of the object is [PyBorrow]. *)

From S2P Require Import Prelude Bytes Config Backpressure Server.
From stdpp Require Import relations.

(** ** [tokio::sync::Notify], for one waiter at a time *)

Class Notify (Nt : Type) := {
  notify_new : Nt;
  notify_one : Nt → Nt;
  (* a poll of [notified().await]: it consumes the permit, if there is one *)
  notified : Nt → option Nt;
}.

Class NotifyLaws (Nt : Type) `{!Notify Nt} : Prop := {
  notified_new : notified notify_new = None;
  notified_one : ∀ n, is_Some (notified (notify_one n));
  notified_once : ∀ n n', notified n = Some n' → notified n' = None;
}.

(** ** The borrows of a [#[pyclass]] object *)

(** [&self] and [&mut self]. *)
Inductive Borrow := SharedBorrow | MutBorrow.

(** Whether a method may be entered, given the borrows of the methods in
    progress; otherwise the call raises [RuntimeError]. *)
Class PyBorrow := may_borrow : list Borrow → Borrow → bool.

Class PyBorrowLaws `{PyBorrow} : Prop := {
  borrow_free : ∀ b, may_borrow [] b = true;
  borrow_unique : ∀ l, may_borrow l MutBorrow = true → l = [];
  borrow_after_mut : ∀ l b, MutBorrow ∈ l → may_borrow l b = false;
}.

(** What a call that may panic gives. *)
Inductive PanicPayload :=
| StaticStr (s : str)
| OwnedString (s : str)
| OtherPayload.

Inductive Attempt (A : Type) : Type :=
| Value (a : A)
| Panics (payload : PanicPayload).
Arguments Value {A}.
Arguments Panics {A}.

Definition panic_message (payload : PanicPayload) : str :=
  match payload with
  | StaticStr s => s
  | OwnedString s => s
  | OtherPayload => $"unknown panic"
  end.

(** ** The constructor *)

(** [Gateway::new]'s arguments. *)
Record NewArgs := mkNewArgs {
  na_config_path : option str;
  na_namenode_uri : option str;
  na_hdfs_root : option str;
  na_bucket_name : option str;
  na_listen_addr : option str;
  na_auth_secret : option str;
  na_hdfs_user : option str;
  na_hdfs_config_dir : option str;
  na_hdfs_options : option (list (str * str));
  na_cache_enabled : option bool;
  na_log_level : option str;
  na_log_to : option str;
}.

(** The arguments of the shared loader. *)
Definition cli_args (a : NewArgs) : CliArgs := {|
  arg_config := na_config_path a;
  arg_listen_addr := na_listen_addr a;
  arg_namenode_uri := na_namenode_uri a;
  arg_hdfs_root := na_hdfs_root a;
  arg_bucket_name := na_bucket_name a;
  arg_auth_secret := na_auth_secret a;
  arg_hdfs_user := na_hdfs_user a;
  arg_hdfs_config_dir := na_hdfs_config_dir a;
  arg_hdfs_options := na_hdfs_options a;
  arg_no_cache := false;
  arg_cache := false;
|}.

(** The object; the [Notify] it shares with its threads is in [Proc]. *)
Record Gateway := mkGateway {
  py_config : Config;
  py_thread : option nat;
  py_address : option str;
  py_log_level : option str;
  py_log_target : str;
}.

Section new.
Context {IoError TomlError : Type} (load : CliArgs → result Config (ConfigError IoError TomlError)).

Definition gateway_new (a : NewArgs) : result Gateway (ConfigError IoError TomlError) :=
  let? config := load (cli_args a) in
  let config := match na_cache_enabled a with
                | Some enabled => with_cache enabled config
                | None => config
                end in
  Ok (mkGateway config None None (na_log_level a) (or_else (na_log_to a) $"stderr")).
End new.

Definition cache_enabled (g : Gateway) : bool := enabled (cache (py_config g)).

(** ** The object at work *)

Section lifecycle.
Context {Nt : Type} `{Ops : !Notify Nt} `{Rule : !PyBorrow}.

(** [SocketAddr] with its parser, printer and errors; [TcpListener]; the errors
    of [bind]. *)
Context {SocketAddr Listener : Type}.
Context (parse_addr : str → result SocketAddr str) (addr_string : SocketAddr → str).

(** What the outside answers to one attempt to serve. [HdfsGateway::from_config]
    and [build_service], whose values the threads keep to themselves, are in
    [Server]; here they succeed, fail or panic. An exception is its message, and
    [error_string] what [Display] makes of the exception. *)
Record Boot := mkBoot {
  runtime : Attempt (result unit str);
  error_string : str → str;
  from_config : Config → Attempt (result unit str);
  bind : SocketAddr → result Listener str;
  local_addr : Listener → option SocketAddr;
  clock_at : N;
}.

(** [build_runtime]. *)
Definition build_runtime (boot : Boot) : Attempt (result unit str) :=
  match runtime boot with
  | Value (Err e) => Value (Err ($"failed to build async runtime: " ++ e))
  | r => r
  end.

(** The block both ways to serve share, up to the accept loop: the bound
    address, or the message of what failed. *)
Definition serve_block (boot : Boot) (config : Config) : Attempt (result str str) :=
  match from_config boot config with
  | Panics p => Panics p
  | Value (Err e) => Value (Err e)
  | Value (Ok _) =>
      match parse_addr (listen_addr config) with
      | Err e => Value (Err ($"invalid listen_addr: " ++ e))
      | Ok addr =>
          match bind boot addr with
          | Err e => Value (Err ($"failed to bind " ++ addr_string addr ++ $": " ++ e))
          | Ok listener => Value (Ok (addr_string (or_else (local_addr boot listener) addr)))
          end
      end
  end.

(** The message the thread of [start] sends before it serves or ends; [None]
    when it dies without one. *)
Definition server_boot (boot : Boot) (config : Config) : option (result str str) :=
  match build_runtime boot with
  | Panics _ => None
  | Value (Err e) => Some (Err (error_string boot e))
  | Value (Ok _) =>
      match serve_block boot config with
      | Panics p => Some (Err ($"gateway panicked: " ++ panic_message p))
      | Value r => Some r
      end
  end.

(** A native thread: not yet up, in [serve], past it, or finished. *)
Inductive ThreadPhase :=
| Booting
| Serving (s : ServeState)
| Closing
| Exited.

Record Thread := mkThread {
  th_boot : Boot;
  th_phase : ThreadPhase;
  (* the first message on the channel to [start] *)
  th_message : option (result str str);
}.

Definition is_finished (t : Thread) : bool := match th_phase t with Exited => true | _ => false end.

(** A Python thread inside a method. *)
Inductive Call :=
| InStart (h : nat)
| InStop
| InJoin (h : nat)
| InServe (boot : Boot) (s : option ServeState).

Definition borrow_of (c : Call) : Borrow :=
  match c with InServe _ _ => SharedBorrow | _ => MutBorrow end.

(** The process: the object, its [Notify], the threads spawned so far, and the
    method calls, those that have returned being [None]. *)
Record Proc := mkProc {
  p_gateway : Gateway;
  p_shutdown : Nt;
  p_threads : list Thread;
  p_calls : list (option Call);
}.

Definition borrows (calls : list (option Call)) : list Borrow := borrow_of <$> omap id calls.

(** What a method returned; [BorrowError] is PyO3's. *)
Inductive Method := Start | Stop | ServeBlocking.
Inductive PyOutcome :=
| Returns (r : result unit str)
| BorrowError
| PanicException.

Definition already_running : str := $"gateway is already running".
Definition died_before_bind : str := $"gateway thread terminated before binding (likely a panic)".
Definition already_terminated : str := $"gateway background thread had already terminated (likely a panic)".

Definition set_thread (h : option nat) (g : Gateway) : Gateway :=
  mkGateway (py_config g) h (py_address g) (py_log_level g) (py_log_target g).

Definition set_running (addr : str) (h : nat) (g : Gateway) : Gateway :=
  mkGateway (py_config g) (Some h) (Some addr) (py_log_level g) (py_log_target g).

(** [Gateway::is_running]. *)
Definition is_running (p : Proc) : bool :=
  match py_thread (p_gateway p) with
  | Some h => match p_threads p !! h with Some t => negb (is_finished t) | None => false end
  | None => false
  end.

(** The end of [start], once the channel has something or is closed: what it
    returns and what it does to the object; [None] while it waits. *)
Definition start_receive (h : nat) (t : Thread) (g : Gateway) : option (result unit str * Gateway) :=
  match th_message t with
  | Some (Ok addr) => Some (Ok tt, set_running addr h g)
  | Some (Err e) => Some (Err e, g)
  | None => if is_finished t then Some (Err died_before_bind, g) else None
  end.

(** The thread after its boot. *)
Definition booted (boot : Boot) (config : Config) : Thread :=
  let message := server_boot boot config in
  mkThread boot (match message with Some (Ok _) => Serving (serve_start (clock_at boot)) | _ => Closing end)
    message.

(** Whether the thread of [start] gets past its first lines. The message of a
    runtime that cannot be built is that of a Python exception, for which the
    interpreter is needed; [start] holds it while it waits for the thread. *)
Definition comes_up (boot : Boot) : bool :=
  match build_runtime boot with Value (Err _) => false | _ => true end.

(** One step of a native thread. *)
Inductive thread_step (config : Config) : Thread * Nt → Thread * Nt → Prop :=
| th_start boot m sd :
    comes_up boot = true →
    thread_step config (mkThread boot Booting m, sd) (booted boot config, sd)
| th_serve boot s s' m sd sd' :
    serve_step notified (s, sd) (s', sd') →
    thread_step config (mkThread boot (Serving s) m, sd) (mkThread boot (Serving s') m, sd')
| th_return boot since n now conns m sd :
    thread_step config (mkThread boot (Serving (mkServeState (Returned since n) now conns)) m, sd)
      (mkThread boot Closing m, sd)
(* the panic is caught; its message finds the channel's other end gone *)
| th_panic boot s m sd :
    thread_step config (mkThread boot (Serving s) m, sd) (mkThread boot Closing m, sd)
| th_exit boot m sd :
    thread_step config (mkThread boot Closing m, sd) (mkThread boot Exited m, sd).

(** The beginning of [serve_blocking]. *)
Definition serve_begin (boot : Boot) (config : Config) : Attempt (result ServeState str) :=
  match build_runtime boot with
  | Panics p => Panics p
  | Value (Err e) => Value (Err e)
  | Value (Ok _) =>
      match serve_block boot config with
      | Panics p => Panics p
      | Value (Err e) => Value (Err e)
      | Value (Ok _) => Value (Ok (serve_start (clock_at boot)))
      end
  end.

(** One step inside [serve_blocking]: what it returns, or how it goes on. *)
Inductive blocking_step (config : Config) : Boot * option ServeState * Nt →
    (PyOutcome + option ServeState) * Nt → Prop :=
| bl_begin boot s sd :
    serve_begin boot config = Value (Ok s) → blocking_step config (boot, None, sd) (inr (Some s), sd)
| bl_error boot e sd :
    serve_begin boot config = Value (Err e) → blocking_step config (boot, None, sd) (inl (Returns (Err e)), sd)
| bl_panic boot p sd :
    serve_begin boot config = Panics p → blocking_step config (boot, None, sd) (inl PanicException, sd)
| bl_serve boot s s' sd sd' :
    serve_step notified (s, sd) (s', sd') →
    blocking_step config (boot, Some s, sd) (inr (Some s'), sd')
| bl_return boot since n now conns sd :
    blocking_step config (boot, Some (mkServeState (Returned since n) now conns), sd) (inl (Returns (Ok tt)), sd)
| bl_crash boot s sd :
    blocking_step config (boot, Some s, sd) (inl PanicException, sd).

Definition method_borrow (m : Method) : Borrow :=
  match m with ServeBlocking => SharedBorrow | _ => MutBorrow end.

(** One step of the process; the label is what a method returned. *)
Inductive py_step : Proc → option (Method * PyOutcome) → Proc → Prop :=
| py_refused g sd ts cs m :
    may_borrow (borrows cs) (method_borrow m) = false →
    py_step (mkProc g sd ts cs) (Some (m, BorrowError)) (mkProc g sd ts cs)
| py_start_again g sd ts cs h :
    may_borrow (borrows cs) MutBorrow = true → py_thread g = Some h →
    py_step (mkProc g sd ts cs) (Some (Start, Returns (Err already_running))) (mkProc g sd ts cs)
| py_start g sd ts cs boot :
    may_borrow (borrows cs) MutBorrow = true → py_thread g = None →
    py_step (mkProc g sd ts cs) None
      (mkProc g sd (ts ++ [mkThread boot Booting None]) (cs ++ [Some (InStart (List.length ts))]))
| py_started g sd ts cs i h t r g' :
    cs !! i = Some (Some (InStart h)) → ts !! h = Some t → start_receive h t g = Some (r, g') →
    py_step (mkProc g sd ts cs) (Some (Start, Returns r)) (mkProc g' sd ts (<[i := None]> cs))
| py_stop_dead g sd ts cs h t :
    may_borrow (borrows cs) MutBorrow = true → py_thread g = Some h → ts !! h = Some t →
    is_finished t = true →
    py_step (mkProc g sd ts cs) (Some (Stop, Returns (Err already_terminated)))
      (mkProc (set_thread None g) sd ts cs)
| py_stop g sd ts cs :
    may_borrow (borrows cs) MutBorrow = true →
    (∀ h t, py_thread g = Some h → ts !! h = Some t → is_finished t = false) →
    py_step (mkProc g sd ts cs) None (mkProc g sd ts (cs ++ [Some InStop]))
| py_stop_idle g sd ts cs i :
    cs !! i = Some (Some InStop) → py_thread g = None →
    py_step (mkProc g sd ts cs) (Some (Stop, Returns (Ok tt)))
      (mkProc g (notify_one sd) ts (<[i := None]> cs))
| py_stop_notify g sd ts cs i h :
    cs !! i = Some (Some InStop) → py_thread g = Some h →
    py_step (mkProc g sd ts cs) None
      (mkProc (set_thread None g) (notify_one sd) ts (<[i := Some (InJoin h)]> cs))
| py_joined g sd ts cs i h t :
    cs !! i = Some (Some (InJoin h)) → ts !! h = Some t → is_finished t = true →
    py_step (mkProc g sd ts cs) (Some (Stop, Returns (Ok tt))) (mkProc g sd ts (<[i := None]> cs))
| py_serve g sd ts cs boot :
    may_borrow (borrows cs) SharedBorrow = true →
    py_step (mkProc g sd ts cs) None (mkProc g sd ts (cs ++ [Some (InServe boot None)]))
| py_blocking g sd ts cs i boot s sd' o :
    cs !! i = Some (Some (InServe boot s)) →
    blocking_step (py_config g) (boot, s, sd) (o, sd') →
    py_step (mkProc g sd ts cs) (match o with inl r => Some (ServeBlocking, r) | inr _ => None end)
      (mkProc g sd' ts (<[i := match o with inl _ => None | inr s' => Some (InServe boot s') end]> cs))
| py_native g sd ts cs h t t' sd' :
    ts !! h = Some t → thread_step (py_config g) (t, sd) (t', sd') →
    py_step (mkProc g sd ts cs) None (mkProc g sd' (<[h := t']> ts) cs).

Definition py_any (p p' : Proc) : Prop := ∃ l, py_step p l p'.

(** A new object, in a process of its own. *)
Definition py_initial (g : Gateway) : Proc := mkProc (set_thread None g) notify_new [] [].

Definition py_reach (g : Gateway) (p : Proc) : Prop := rtc py_any (py_initial g) p.

(** ** Invariants *)

Context `{Laws : !NotifyLaws Nt} `{RuleLaws : !PyBorrowLaws}.

(** The thread serves or is about to. *)
Definition alive (t : Thread) : bool :=
  match th_phase t with Booting | Serving _ => true | _ => false end.

(** The loop still accepts. *)
Definition accepting (t : Thread) : bool :=
  match th_phase t with
  | Serving s => match sv_phase s with Accepting => true | _ => false end
  | _ => false
  end.

(** The thread the object, or the method in progress, has the handle of. *)
Definition owned (p : Proc) (h : nat) : Prop :=
  py_thread (p_gateway p) = Some h ∨
  ∃ i, p_calls p !! i = Some (Some (InStart h)) ∨ p_calls p !! i = Some (Some (InJoin h)).

(** A thread's message is its boot's, once it is up, and it serves only with
    an address. *)
Definition thread_ok (config : Config) (t : Thread) : Prop :=
  match th_phase t with
  | Booting => th_message t = None
  | Serving _ => th_message t = server_boot (th_boot t) config ∧ ∃ addr, th_message t = Some (Ok addr)
  | _ => th_message t = server_boot (th_boot t) config
  end.

Record py_inv (g0 : Gateway) (p : Proc) : Prop := {
  inv_config : py_config (p_gateway p) = py_config g0;
  inv_excl : ∀ i j c c', p_calls p !! i = Some (Some c) → p_calls p !! j = Some (Some c') →
    borrow_of c = MutBorrow → i = j;
  inv_starting : ∀ i h, p_calls p !! i = Some (Some (InStart h)) →
    py_thread (p_gateway p) = None ∧ h < List.length (p_threads p);
  inv_joining : ∀ i h, p_calls p !! i = Some (Some (InJoin h)) →
    py_thread (p_gateway p) = None ∧ ∃ t, p_threads p !! h = Some t ∧ th_phase t ≠ Booting ∧
    (accepting t = true → is_Some (notified (p_shutdown p)));
  inv_held : ∀ h, py_thread (p_gateway p) = Some h →
    ∃ t addr, p_threads p !! h = Some t ∧ th_message t = Some (Ok addr) ∧
      py_address (p_gateway p) = Some addr;
  inv_alive : ∀ h t, p_threads p !! h = Some t → alive t = true → owned p h;
  inv_threads : ∀ h t, p_threads p !! h = Some t → thread_ok (py_config g0) t;
}.

Lemma thread_step_ok config t sd t' sd' :
  thread_step config (t, sd) (t', sd') → thread_ok config t →
  thread_ok config t' ∧ th_phase t' ≠ Booting ∧ (alive t' = true → alive t = true) ∧
  (th_phase t ≠ Booting → th_message t' = th_message t) ∧
  (sd' = sd ∨ accepting t = true ∧ accepting t' = false) ∧
  (accepting t' = true → th_phase t = Booting ∨ accepting t = true).
Proof using Type.
  intros Hst. unfold thread_ok.
  inversion Hst as [boot m ? Hup|boot s s' m ? ? Hsv|boot since n now conns m|boot s m|boot m]; subst; clear Hst;
    cbn [th_phase th_message th_boot].
  - intros _. unfold booted. destruct (server_boot boot config) as [[addr|e]|] eqn:E;
      cbn [th_phase th_message th_boot]; rewrite ?E; split_and!; try done; eauto.
  - intros [H [addr ->]]. unfold accepting. cbn [th_phase].
    inversion Hsv; subst; cbn [sv_phase]; split_and!; try done; eauto.
  - intros [H _]. split_and!; try done. eauto.
  - intros [H _]. split_and!; try done. eauto.
  - intros H. split_and!; try done. eauto.
Qed.

(** When a method with [&mut self] may be entered, no other is in progress. *)
Lemma may_mut_idle cs i c : may_borrow (borrows cs) MutBorrow = true → cs !! i ≠ Some (Some c).
Proof using RuleLaws.
  intros Hm Hi. apply borrow_unique in Hm. assert (borrow_of c ∈ borrows cs) as Hin; [|by rewrite Hm in Hin; apply elem_of_nil in Hin].
  unfold borrows. apply list_elem_of_fmap. exists c. split; [done|]. apply list_elem_of_omap.
  exists (Some c). split; [by eapply list_elem_of_lookup_2|done].
Qed.

Lemma may_shared_no_mut cs i c :
  may_borrow (borrows cs) SharedBorrow = true → cs !! i = Some (Some c) → borrow_of c = SharedBorrow.
Proof using RuleLaws.
  intros Hm Hi. destruct (borrow_of c) eqn:E; [done|].
  rewrite (borrow_after_mut (borrows cs) SharedBorrow) in Hm; [done|].
  unfold borrows. apply list_elem_of_fmap. exists c. split; [done|]. apply list_elem_of_omap.
  exists (Some c). split; [by eapply list_elem_of_lookup_2|done].
Qed.

Lemma owned_unique g0 p h h' : py_inv g0 p → owned p h → owned p h' → h = h'.
Proof using Type.
  intros [_ He Hs Hj _ _ _] Ho Ho'.
  assert (∀ i h, p_calls p !! i = Some (Some (InStart h)) ∨ p_calls p !! i = Some (Some (InJoin h)) →
    py_thread (p_gateway p) = None) as Hnone.
  { intros i k [Hi|Hi]; [by destruct (Hs _ _ Hi)|by destruct (Hj _ _ Hi)]. }
  destruct Ho as [Ho|(i & Hi)], Ho' as [Ho'|(j & Hk)]; [congruence|..].
  - rewrite (Hnone _ _ Hk) in Ho. done.
  - rewrite (Hnone _ _ Hi) in Ho'. done.
  - destruct Hi as [Hi|Hi], Hk as [Hk|Hk]; pose proof (He _ _ _ _ Hi Hk eq_refl) as E; subst j; congruence.
Qed.

(** *** The calls in progress *)

Lemma calls_app (cs : list (option Call)) (c : Call) i (d : Call) :
  (cs ++ [Some c]) !! i = Some (Some d) → cs !! i = Some (Some d) ∨ (i = List.length cs ∧ d = c).
Proof using Type.
  intros [?|[? [? ?]%list_lookup_singleton_Some]]%lookup_app_Some; [by left|right].
  split; [lia|congruence].
Qed.

Lemma calls_drop (cs : list (option Call)) i j (d : Call) :
  <[i := None]> cs !! j = Some (Some d) → j ≠ i ∧ cs !! j = Some (Some d).
Proof using Type. by intros [(<- & [=] & _)|[? ?]]%list_lookup_insert_Some. Qed.

Lemma calls_set (cs : list (option Call)) i (c : Call) j (d : Call) :
  <[i := Some c]> cs !! j = Some (Some d) → (j = i ∧ d = c) ∨ (j ≠ i ∧ cs !! j = Some (Some d)).
Proof using Type.
  intros [(<- & [= <-] & _)|[? ?]]%list_lookup_insert_Some; [by left|right]. done.
Qed.

(** A method that has not spawned or joined is entered. *)
Lemma inv_enter g0 g sd ts cs c :
  py_inv g0 (mkProc g sd ts cs) → (∀ h, c ≠ InStart h ∧ c ≠ InJoin h) →
  (∀ i c', cs !! i = Some (Some c') → borrow_of c = SharedBorrow ∧ borrow_of c' = SharedBorrow) →
  py_inv g0 (mkProc g sd ts (cs ++ [Some c])).
Proof using Type.
  intros [Ic Ie Is Ij Ih Ia It] Hc Hb. split; cbn [p_gateway p_shutdown p_threads p_calls] in *; try done.
  - intros i j d d' [Hi|[-> ->]]%calls_app [Hj|[-> ->]]%calls_app Hm; [by eapply Ie|..|done].
    + destruct (Hb _ _ Hi) as [_ E]. by rewrite E in Hm.
    + destruct (Hb _ _ Hj) as [E _]. by rewrite E in Hm.
  - intros i h [Hi|[_ E]]%calls_app; [by eapply Is|]. by destruct (Hc h) as [[] _].
  - intros i h [Hi|[_ E]]%calls_app; [by eapply Ij|]. by destruct (Hc h) as [_ []].
  - intros h t Ht Hal. destruct (Ia h t Ht Hal) as [?|(i & Hi)]; [by left|right]. exists i.
    cbn [p_calls] in *. destruct Hi; [left|right]; by apply lookup_app_l_Some.
Qed.

(** A method whose thread needs no owner any more returns. *)
Lemma inv_leave g0 g sd ts cs i c :
  py_inv g0 (mkProc g sd ts cs) → cs !! i = Some (Some c) →
  (∀ h t, c = InStart h ∨ c = InJoin h → ts !! h = Some t → alive t = false) →
  py_inv g0 (mkProc g sd ts (<[i := None]> cs)).
Proof using Type.
  intros [Ic Ie Is Ij Ih Ia It] Hi Hc. split; cbn [p_gateway p_shutdown p_threads p_calls] in *; try done.
  - intros j k d d' [_ Hj]%calls_drop [_ Hk]%calls_drop. by eapply Ie.
  - intros j h [_ Hj]%calls_drop. by eapply Is.
  - intros j h [_ Hj]%calls_drop. by eapply Ij.
  - intros h t Ht Hal. destruct (Ia h t Ht Hal) as [?|(j & Hj)]; [by left|right]. cbn [p_calls] in *.
    destruct (decide (j = i)) as [->|Hne].
    + rewrite Hi in Hj. rewrite (Hc h t) in Hal; [done| |done]. destruct Hj; [left|right]; congruence.
    + exists j. by rewrite !list_lookup_insert_ne.
Qed.

(** A step on the shutdown signal that no [stop] waits for, or that keeps it. *)
Lemma inv_signal g0 g sd sd' ts cs :
  py_inv g0 (mkProc g sd ts cs) →
  (∀ i h, cs !! i = Some (Some (InJoin h)) → is_Some (notified sd) → is_Some (notified sd')) →
  py_inv g0 (mkProc g sd' ts cs).
Proof using Type.
  intros [Ic Ie Is Ij Ih Ia It] Hs. split; cbn [p_gateway p_shutdown p_threads p_calls] in *; try done.
  intros i h Hi. destruct (Ij i h Hi) as (? & t & ? & ? & ?). split; [done|]. exists t. eauto.
Qed.

(** [start] spawns. *)
Lemma inv_spawn g0 g sd ts cs boot :
  py_inv g0 (mkProc g sd ts cs) → may_borrow (borrows cs) MutBorrow = true → py_thread g = None →
  py_inv g0 (mkProc g sd (ts ++ [mkThread boot Booting None]) (cs ++ [Some (InStart (List.length ts))])).
Proof using RuleLaws.
  intros [Ic Ie Is Ij Ih Ia It] Hm Hn. pose proof (may_mut_idle cs) as Hidle.
  split; cbn [p_gateway p_shutdown p_threads p_calls] in *; try done.
  - intros i j d d' [Hi|[-> ->]]%calls_app [Hj|[-> ->]]%calls_app _; first [done|by edestruct Hidle].
  - intros i h [Hi|[_ [= ->]]]%calls_app; [by edestruct Hidle|]. rewrite length_app. simpl. split; [done|lia].
  - intros i h [Hi|[_ [=]]]%calls_app. by edestruct Hidle.
  - intros h. by rewrite Hn.
  - intros h t [Hh|[Hh [E _]%list_lookup_singleton_Some]]%lookup_app_Some Hal.
    + destruct (Ia h t Hh Hal) as [E|(i & [Hi|Hi])]; cbn [p_gateway p_calls] in *; [congruence|by edestruct Hidle..].
    + right. exists (List.length cs). left. cbn [p_calls]. rewrite lookup_app_r, Nat.sub_diag by lia.
      cbn. do 3 f_equal. lia.
  - intros h t [Hh|[_ [_ <-]%list_lookup_singleton_Some]]%lookup_app_Some; [by eapply It|done].
Qed.

(** [start] has its message. *)
Lemma inv_started g0 g sd ts cs i h t r g' :
  py_inv g0 (mkProc g sd ts cs) → cs !! i = Some (Some (InStart h)) → ts !! h = Some t →
  start_receive h t g = Some (r, g') → py_inv g0 (mkProc g' sd ts (<[i := None]> cs)).
Proof using Type.
  intros Hinv Hi Ht Hr. pose proof (inv_threads _ _ Hinv h t Ht) as Hok. unfold start_receive in Hr.
  destruct (th_message t) as [[addr|e]|] eqn:Em.
  - injection Hr as <- <-. destruct Hinv as [Ic Ie Is Ij Ih Ia It].
    split; cbn [p_gateway p_shutdown p_threads p_calls set_running py_config py_thread py_address] in *; try done.
    + intros j k d d' [_ Hj]%calls_drop [_ Hk]%calls_drop. by eapply Ie.
    + intros j k [Hne Hj]%calls_drop. destruct Hne. by eapply (Ie j i).
    + intros j k [Hne Hj]%calls_drop. destruct Hne. by eapply (Ie j i).
    + intros k [= <-]. eauto.
    + intros k u Hk Hal. left. cbn. f_equal.
      apply (owned_unique g0 (mkProc g sd ts cs)); [by split|right; eauto|by eapply Ia].
  - injection Hr as <- <-. eapply inv_leave; [done|done|]. intros k u [[= <-]|[=]] Hk.
    rewrite Ht in Hk. injection Hk as <-. unfold thread_ok in Hok. unfold alive.
    destruct (th_phase t); [congruence| |done..]. destruct Hok as (_ & addr & E). congruence.
  - destruct (is_finished t) eqn:Ef; [|done]. injection Hr as <- <-. eapply inv_leave; [done|done|].
    intros k u [[= <-]|[=]] Hk. rewrite Ht in Hk. injection Hk as <-. unfold is_finished in Ef.
    unfold alive. by destruct (th_phase t).
Qed.

(** The object lets go of a thread that needs no owner. *)
Lemma inv_forget g0 g sd ts cs h t :
  py_inv g0 (mkProc g sd ts cs) → may_borrow (borrows cs) MutBorrow = true →
  py_thread g = Some h → ts !! h = Some t → is_finished t = true →
  py_inv g0 (mkProc (set_thread None g) sd ts cs).
Proof using RuleLaws.
  intros Hinv Hm Hg Ht Hf. pose proof (may_mut_idle cs) as Hidle.
  pose proof Hinv as [Ic Ie Is Ij Ih Ia It].
  split; cbn [p_gateway p_shutdown p_threads p_calls set_thread py_config py_thread py_address] in *; try done.
  - intros i k Hi. by edestruct Hidle.
  - intros i k Hi. by edestruct Hidle.
  - intros k u Hk Hal. exfalso. assert (k = h) as ->.
    { apply (owned_unique g0 (mkProc g sd ts cs)); [done|by eapply Ia|by left]. }
    rewrite Ht in Hk. injection Hk as <-. unfold alive, is_finished in *. by destruct (th_phase t).
Qed.

(** [stop] signals and takes the handle. *)
Lemma inv_notify g0 g sd ts cs i h :
  py_inv g0 (mkProc g sd ts cs) → cs !! i = Some (Some InStop) → py_thread g = Some h →
  py_inv g0 (mkProc (set_thread None g) (notify_one sd) ts (<[i := Some (InJoin h)]> cs)).
Proof using Laws.
  intros Hinv Hi Hg. pose proof Hinv as [Ic Ie Is Ij Ih Ia It].
  split; cbn [p_gateway p_shutdown p_threads p_calls set_thread py_config py_thread py_address] in *; try done.
  - intros j k d d' [[-> ->]|[_ Hj]]%calls_set [[-> ->]|[Hne Hk]]%calls_set Hm; [done|..].
    + by apply (Ie i k InStop d').
    + by apply (Ie j i d InStop).
    + by eapply Ie.
  - intros j k [[_ [=]]|[Hne Hj]]%calls_set. destruct (Is j k Hj) as [E _]. congruence.
  - intros j k [[_ [= ->]]|[Hne Hj]]%calls_set.
    + destruct (Ih h Hg) as (t & addr & Ht & Hm & _). split; [done|]. exists t. split_and!; [done| |].
      * intros E. pose proof (It h t Ht) as Hok. unfold thread_ok in Hok. rewrite E in Hok. congruence.
      * intros _. apply notified_one.
    + destruct (Ij j k Hj) as [E _]. congruence.
  - intros k t Hk Hal. right. exists i. right. cbn [p_calls].
    assert (k = h) as ->.
    { apply (owned_unique g0 (mkProc g sd ts cs)); [done|by eapply Ia|by left]. }
    apply list_lookup_insert_eq. by eapply lookup_lt_Some.
Qed.

(** A native thread steps. *)
Lemma inv_native g0 g sd ts cs h t t' sd' :
  py_inv g0 (mkProc g sd ts cs) → ts !! h = Some t → thread_step (py_config g) (t, sd) (t', sd') →
  py_inv g0 (mkProc g sd' (<[h := t']> ts) cs).
Proof using Type.
  intros Hinv Ht Hst. pose proof Hinv as [Ic Ie Is Ij Ih Ia It].
  cbn [p_gateway p_shutdown p_threads p_calls] in *. rewrite Ic in Hst.
  destruct (thread_step_ok _ _ _ _ _ Hst (It h t Ht)) as (Hok & Hnb & Hal & Hmsg & Hsd & Hacc).
  split; cbn [p_gateway p_shutdown p_threads p_calls] in *; try done.
  - intros i k Hi. rewrite length_insert. by eapply Is.
  - intros i k Hi. destruct (Ij i k Hi) as (Hg & u & Hu & Hub & Hua). split; [done|].
    destruct (decide (k = h)) as [->|Hne].
    + rewrite Ht in Hu. injection Hu as <-. exists t'. split_and!; [|done|].
      { apply list_lookup_insert_eq. by eapply lookup_lt_Some. }
      intros Ha. destruct (Hacc Ha) as [?|Ha']; [done|]. destruct Hsd as [->|[_ E]]; [auto|congruence].
    + exists u. rewrite list_lookup_insert_ne by done. split_and!; [done..|]. intros Ha.
      destruct Hsd as [->|[Hta _]]; [auto|]. destruct Hne.
      apply (owned_unique g0 (mkProc g sd ts cs)); [done|right; eauto|].
      apply (Ia h t Ht). unfold accepting in Hta. unfold alive. by destruct (th_phase t).
  - intros k Hk. destruct (Ih k Hk) as (u & addr & Hu & Hm & Ha). destruct (decide (k = h)) as [->|Hne].
    + rewrite Ht in Hu. injection Hu as <-. exists t', addr. split_and!; [|rewrite Hmsg; [done|]|done].
      { apply list_lookup_insert_eq. by eapply lookup_lt_Some. }
      intros E. pose proof (It h t Ht) as Hto. unfold thread_ok in Hto. rewrite E in Hto. congruence.
    + exists u, addr. by rewrite list_lookup_insert_ne.
  - intros k u [(<- & <- & _)|[Hne Hk]]%list_lookup_insert_Some Hau; [|by eapply Ia].
    apply (Ia h t Ht). auto.
  - intros k u [(<- & <- & _)|[Hne Hk]]%list_lookup_insert_Some; [done|by eapply It].
Qed.

(** [serve_blocking] steps: no [stop] is in progress. *)
Lemma inv_blocking g0 g sd ts cs i boot s sd' (o : PyOutcome + option ServeState) :
  py_inv g0 (mkProc g sd ts cs) → cs !! i = Some (Some (InServe boot s)) →
  py_inv g0 (mkProc g sd' ts (<[i := match o with inl _ => None | inr s' => Some (InServe boot s') end]> cs)).
Proof using Type.
  intros Hinv Hi. assert (py_inv g0 (mkProc g sd' ts cs)) as Hinv'.
  { eapply inv_signal; [exact Hinv|]. intros j h Hj _.
    by rewrite (inv_excl _ _ Hinv j i _ _ Hj Hi eq_refl), Hi in Hj. }
  destruct o as [r|s']; [by eapply inv_leave; [..|intros h t [[=]|[=]]]|].
  destruct Hinv' as [Ic Ie Is Ij Ih Ia It].
  split; cbn [p_gateway p_shutdown p_threads p_calls] in *; try done.
  - intros j k d d' [[-> ->]|[Hj' Hj]]%calls_set [[-> ->]|[Hk' Hk]]%calls_set Hm; [done..| |].
    + by apply (Ie j i d (InServe boot s)).
    + by eapply Ie.
  - intros j h [[_ [=]]|[_ Hj]]%calls_set. by eapply Is.
  - intros j h [[_ [=]]|[_ Hj]]%calls_set. by eapply Ij.
  - intros h t Ht Hal. destruct (Ia h t Ht Hal) as [?|(j & Hj)]; [by left|right]. exists j. cbn [p_calls] in *.
    destruct (decide (j = i)) as [->|Hne]; [|by rewrite !list_lookup_insert_ne].
    rewrite Hi in Hj. by destruct Hj as [[=]|[=]].
Qed.

Lemma py_step_inv g0 p l p' : py_inv g0 p → py_step p l p' → py_inv g0 p'.
Proof using Laws RuleLaws.
  intros Hinv Hst. destruct Hst as [| |? ? ? ? boot|? ? ? ? i h t r g' Hi Ht Hr|? ? ? ? h t Hm Hg Ht Hf
    |? ? ? ? Hm _|g sd ts cs i Hi Hg|? ? ? ? i h Hi Hg|g sd ts cs i h t Hi Ht Hf|g sd ts cs boot Hm
    |? ? ? ? i boot s sd' o Hi Hb|? ? ? ? h t t' sd' Ht Hs]; try done.
  - by apply inv_spawn.
  - by eapply inv_started.
  - by eapply inv_forget.
  - apply inv_enter; [done|done|]. intros i c Hi. by destruct (may_mut_idle _ _ _ Hm Hi).
  - apply (inv_signal _ _ sd); [|intros; apply notified_one].
    eapply inv_leave; [done|exact Hi|by intros h t [[=]|[=]]].
  - by apply inv_notify.
  - eapply inv_leave; [done|exact Hi|]. intros k u [[=]|[= ->]] Hk. rewrite Ht in Hk. injection Hk as <-.
    unfold is_finished in Hf. unfold alive. by destruct (th_phase t).
  - apply inv_enter; [done|done|]. intros i c Hi. split; [done|by eapply may_shared_no_mut].
  - eapply inv_blocking; [exact Hinv|exact Hi].
  - by eapply inv_native.
Qed.

Lemma py_initial_inv g : py_inv g (py_initial g).
Proof using Type.
  split; cbn [py_initial p_gateway p_shutdown p_threads p_calls set_thread py_config py_thread]; try done.
  all: intros i; intros; by rewrite lookup_nil in *.
Qed.

Lemma py_reach_inv g p : py_reach g p → py_inv g p.
Proof using Laws RuleLaws.
  apply (rtc_ind_r (py_inv g)); [apply py_initial_inv|]. intros p1 p2 _ [l Hst] H. by eapply py_step_inv.
Qed.

(** ** What the methods promise *)

(** C21 However Python calls it, an object never has two background servers:
    of all the threads its [start]s spawned, at most one serves or is about
    to, and a server the object has no handle of is one a [start] or [stop]
    in progress holds. *)
Theorem one_server g p h h' t t' :
  py_reach g p → p_threads p !! h = Some t → p_threads p !! h' = Some t' →
  alive t = true → alive t' = true → h = h' ∧ owned p h.
Proof using Laws RuleLaws.
  intros Hp%py_reach_inv Ht Ht' Ha Ha'. split; [|by eapply inv_alive].
  by eapply owned_unique; [|eapply inv_alive..].
Qed.

(** C28 [start], when it returns, tells the truth: it succeeds when its thread
    has bound a socket, and then the object has that thread and that address; otherwise it raises
    what stopped the thread, or that a thread is there already, and leaves the
    object as it was. *)
Theorem start_reports g p r p' :
  py_reach g p → py_step p (Some (Start, Returns r)) p' →
  match r with
  | Ok _ => ∃ h t addr, py_thread (p_gateway p') = Some h ∧ py_address (p_gateway p') = Some addr ∧
      p_threads p' !! h = Some t ∧ server_boot (th_boot t) (py_config g) = Some (Ok addr)
  | Err e => p_gateway p' = p_gateway p ∧
      ((e = already_running ∧ is_Some (py_thread (p_gateway p))) ∨
       (py_thread (p_gateway p) = None ∧ ∃ h t, p_threads p !! h = Some t ∧
          (server_boot (th_boot t) (py_config g) = Some (Err e) ∨
           (server_boot (th_boot t) (py_config g) = None ∧ e = died_before_bind))))
  end.
Proof using Laws RuleLaws.
  intros Hp%py_reach_inv Hst.
  inversion Hst as [|gw sd ts cs h Hm Hg| |gw sd ts cs i h t r' g' Hi Ht Hr| | | | | | |? ? ? ? ? ? ? ? o|];
    subst; [| |by destruct o].
  - split; [done|]. left. split; [done|]. by exists h.
  - pose proof (inv_threads _ _ Hp h t Ht) as Hok.
    destruct (inv_starting _ _ Hp i h Hi) as [Hn _]. cbn [p_gateway] in *.
    assert (th_message t ≠ None ∨ is_finished t = true → th_message t = server_boot (th_boot t) (py_config g)) as Hm.
    { unfold thread_ok, is_finished in *. destruct (th_phase t); [|by destruct Hok|done..].
      rewrite Hok. intros [?|?]; done. }
    unfold start_receive in Hr. destruct (th_message t) as [[addr|e]|] eqn:Em.
    + injection Hr as <- <-. exists h, t, addr. split_and!; [done..|]. symmetry. by apply Hm; left.
    + injection Hr as <- <-. split; [done|]. right. split; [done|]. exists h, t. split; [done|].
      left. symmetry. by apply Hm; left.
    + destruct (is_finished t); [|done]. injection Hr as <- <-. split; [done|]. right. split; [done|].
      exists h, t. split; [done|]. right. split; [|done]. symmetry. by apply Hm; right.
Qed.

(** One failure [start] never reports: a thread whose runtime cannot be built
    waits for the interpreter, and its [start] for the thread, for ever. *)
Lemma up_threads g p h t :
  py_reach g p → p_threads p !! h = Some t → th_phase t ≠ Booting → comes_up (th_boot t) = true.
Proof using Type.
  intros Hp. revert h t. revert p Hp.
  apply (rtc_ind_r (λ p, ∀ h t, p_threads p !! h = Some t → th_phase t ≠ Booting → comes_up (th_boot t) = true));
    [done|]. intros p1 p2 _ [l Hst] IH h t.
  destruct Hst as [| |g1 sd ts cs boot| | | | | | | | |g1 sd ts cs h1 t1 t1' sd' Ht1 Hth]; cbn [p_threads] in *;
    try apply IH.
  - intros [Ht|[_ Ht]]%lookup_app_Some; [by eapply IH|]. by destruct (h - _) as [|]; [injection Ht as <-|].
  - destruct (decide (h1 = h)) as [->|Hne].
    + rewrite list_lookup_insert_eq by (by eapply lookup_lt_Some). intros [= <-] _.
      specialize (IH h t1 Ht1). inversion Hth; subst; cbn [th_boot th_phase] in *; first [done|by apply IH].
    + rewrite list_lookup_insert_ne by done. apply IH.
Qed.

Theorem start_hangs g p i h t :
  py_reach g p → p_calls p !! i = Some (Some (InStart h)) → p_threads p !! h = Some t →
  comes_up (th_boot t) = false → start_receive h t (p_gateway p) = None.
Proof using Laws RuleLaws.
  intros Hp Hi Ht Hup. assert (th_phase t = Booting) as Hb.
  { destruct (th_phase t) eqn:E; [done|..]; by rewrite (up_threads g p h t Hp Ht) in Hup by congruence. }
  apply py_reach_inv in Hp. pose proof (inv_threads _ _ Hp h t Ht) as Hok.
  unfold thread_ok, start_receive, is_finished in *. by rewrite Hb in Hok |- *; rewrite Hok.
Qed.

(** When [stop] returns without an error, no background server is left:
    every thread is past serving, and the object is not running. *)
Theorem stop_joins g p p' :
  py_reach g p → py_step p (Some (Stop, Returns (Ok tt))) p' →
  is_running p' = false ∧ py_thread (p_gateway p') = None ∧
  ∀ h t, p_threads p' !! h = Some t → alive t = false.
Proof using Laws RuleLaws.
  intros Hp%py_reach_inv Hst. pose proof (py_step_inv _ _ _ _ Hp Hst) as Hp'.
  assert (py_thread (p_gateway p') = None ∧ ∀ h t, p_threads p' !! h = Some t → alive t = false) as [Hn Ha].
  2: { split_and!; [|done..]. unfold is_running. by rewrite Hn. }
  inversion Hst as [| | | | | |gw sd ts cs i Hi Hg| |gw sd ts cs i h t Hi Ht Hf| |? ? ? ? ? ? ? ? o|]; subst;
    [| |by destruct o]; cbn [p_gateway p_threads] in *; (split; [|intros k u Hk; apply not_true_iff_false; intros Hal]).
  - done.
  - destruct (inv_alive _ _ Hp k u Hk Hal) as [?|(j & Hj)]; cbn [p_gateway p_calls] in *; [congruence|].
    assert (j = i) as ->.
    { destruct Hj as [Hj|Hj]; by eapply (inv_excl _ _ Hp j i _ _ Hj Hi). }
    destruct Hj; congruence.
  - by destruct (inv_joining _ _ Hp i h Hi) as [? _].
  - assert (k = h) as ->.
    { eapply owned_unique; [exact Hp|by eapply inv_alive|right; eauto]. }
    rewrite Ht in Hk. injection Hk as <-. unfold alive, is_finished in *. by destruct (th_phase t).
Qed.

(** A thread alone, while the rest of the process stands still. *)
Lemma native_steps g sd ts cs h c c' :
  rtc (thread_step (py_config g)) c c' → ts !! h = Some c.1 → sd = c.2 →
  rtc py_any (mkProc g sd ts cs) (mkProc g c'.2 (<[h := c'.1]> ts) cs).
Proof using Type.
  intros Hr. revert sd ts. induction Hr as [[t s]|[t1 s1] [t2 s2] c3 Hst _ IH]; intros sd ts Ht ->;
    cbn [fst snd] in *.
  - rewrite list_insert_id by done. apply rtc_refl.
  - eapply rtc_l; [exists None; by eapply py_native|].
    replace (<[h := c3.1]> ts) with (<[h := c3.1]> (<[h := t2]> ts)) by apply list_insert_insert_eq.
    apply IH; [|done]. apply list_lookup_insert_eq. by eapply lookup_lt_Some.
Qed.

(** A server that has been told to stop ends, without any of its clients. *)
Lemma server_ends config t sd :
  th_phase t ≠ Booting → (accepting t = true → is_Some (notified sd)) →
  ∃ t' sd', rtc (thread_step config) (t, sd) (t', sd') ∧ is_finished t' = true.
Proof using Type.
  destruct t as [boot phase m]. cbn [th_phase]. intros Hb Ha.
  assert (∀ sd, rtc (thread_step config) (mkThread boot Closing m, sd) (mkThread boot Exited m, sd)) as Hclose.
  { intros s. apply rtc_once. constructor. }
  assert (∀ since n now conns sd,
    rtc (thread_step config) (mkThread boot (Serving (mkServeState (Returned since n) now conns)) m, sd)
      (mkThread boot Exited m, sd)) as Hret.
  { intros. eapply rtc_l; [constructor|apply Hclose]. }
  assert (∀ since n now conns sd,
    rtc (thread_step config) (mkThread boot (Serving (mkServeState (Draining since n) now conns)) m, sd)
      (mkThread boot Exited m, sd)) as Hdrain.
  { intros since n now conns s.
    eapply rtc_l; [apply th_serve, (serve_time _ _ now (N.max now (since + drain_limit))); lia|].
    eapply rtc_l; [apply th_serve, serve_timeout; lia|]. apply Hret. }
  destruct phase as [|[[|since n|since n] now conns]| |].
  - done.
  - destruct (Ha eq_refl) as [sd' Hsd]. exists (mkThread boot Exited m), sd'. split; [|done].
    eapply rtc_l; [by apply th_serve, serve_shutdown|]. apply Hdrain.
  - eexists _, sd. split; [apply Hdrain|done].
  - eexists _, sd. split; [apply Hret|done].
  - eexists _, sd. split; [apply Hclose|done].
  - eexists _, sd. split; [apply rtc_refl|done].
Qed.

(** [stop] is never stuck: at every moment of its wait, the server's thread
    can end without any step of a client or of another Python thread, and
    then [stop] returns. *)
Theorem stop_can_return g p i h :
  py_reach g p → p_calls p !! i = Some (Some (InJoin h)) →
  ∃ p1 p2, rtc py_any p p1 ∧ p_calls p1 = p_calls p ∧ py_step p1 (Some (Stop, Returns (Ok tt))) p2.
Proof using Laws RuleLaws.
  intros Hp%py_reach_inv Hi. destruct (inv_joining _ _ Hp i h Hi) as (_ & t & Ht & Hb & Ha).
  destruct p as [gw sd ts cs]. cbn [p_gateway p_shutdown p_threads p_calls] in *.
  destruct (server_ends (py_config gw) t sd Hb Ha) as (t' & sd' & Hr & Hf).
  eexists _, _. split_and!; [by apply (native_steps gw sd ts cs h (t, sd) (t', sd'))|done|].
  eapply py_joined; [exact Hi| |exact Hf]. apply list_lookup_insert_eq. by eapply lookup_lt_Some.
Qed.

(** What the methods return, in order, along a run. *)
Inductive py_trace : Proc → list (Method * PyOutcome) → Proc → Prop :=
| tr_nil p : py_trace p [] p
| tr_silent p p1 l p2 : py_step p None p1 → py_trace p1 l p2 → py_trace p l p2
| tr_return p r p1 l p2 : py_step p (Some r) p1 → py_trace p1 l p2 → py_trace p (r :: l) p2.

Lemma server_boot_up boot config addr : server_boot boot config = Some (Ok addr) → comes_up boot = true.
Proof using Type. unfold server_boot, comes_up. by destruct (build_runtime boot) as [[]|]. Qed.

(** C22 A [stop] that has nothing to stop is remembered: after [stop] on a fresh
    object and a [start] that succeeds, the server may shut down with no
    [stop] since; the object then is not running, yet [start] is refused. *)
Theorem stray_stop g boot addr :
  server_boot boot (py_config g) = Some (Ok addr) →
  ∃ p, py_trace (py_initial g) [(Stop, Returns (Ok tt)); (Start, Returns (Ok tt))] p ∧
    is_running p = false ∧ py_step p (Some (Start, Returns (Err already_running))) p.
Proof using Laws RuleLaws.
  intros Hboot. assert (∀ cs : list (option Call), omap id cs = [] → may_borrow (borrows cs) MutBorrow = true) as Hfree.
  { intros cs Hcs. unfold borrows. rewrite Hcs. apply borrow_free. }
  destruct (notified_one notify_new) as [sd Hsd]. set (g' := set_thread None g).
  set (now := clock_at boot).
  set (one := notify_one notify_new). set (go := set_running addr 0 g').
  set (serving s := mkThread boot (Serving s) (Some (Ok addr))).
  assert (booted boot (py_config g') = serving (serve_start now)) as Et.
  { unfold booted. change (py_config g') with (py_config g). by rewrite Hboot. }
  exists (mkProc go sd [mkThread boot Exited (Some (Ok addr))] [None; None]).
  split_and!; [|done|by eapply py_start_again; [apply Hfree|]].
  apply (tr_silent _ (mkProc g' notify_new [] [Some InStop])).
  { by apply (py_stop g' notify_new [] []); [apply Hfree|]. }
  apply (tr_return _ _ (mkProc g' one [] [None])); [by apply (py_stop_idle g' notify_new [] [Some InStop] 0)|].
  apply (tr_silent _ (mkProc g' one [mkThread boot Booting None] [None; Some (InStart 0)])).
  { by apply (py_start g' one [] [None] boot); [apply Hfree|]. }
  apply (tr_silent _ (mkProc g' one [serving (serve_start now)] [None; Some (InStart 0)])).
  { rewrite <- Et. by apply (py_native g' one [mkThread boot Booting None] _ 0 _ _ one eq_refl), th_start, (server_boot_up _ _ _ Hboot). }
  apply (tr_return _ _ (mkProc go one [serving (serve_start now)] [None; None])).
  { by apply (py_started g' one [serving (serve_start now)] [None; Some (InStart 0)] 1 0 (serving (serve_start now))). }
  assert (∀ t t' s s', thread_step (py_config go) (t, s) (t', s') →
    py_step (mkProc go s [t] [None; None]) None (mkProc go s' [t'] [None; None])) as Hstep.
  { intros t t' s s' Hst. by apply (py_native go s [t] _ 0 t). }
  eapply tr_silent; [apply Hstep; by apply th_serve, serve_shutdown|].
  eapply tr_silent; [apply Hstep; by apply th_serve, serve_drained|].
  eapply tr_silent; [apply Hstep, th_return|]. eapply tr_silent; [apply Hstep, th_exit|]. apply tr_nil.
Qed.

(** A step in which no method panics. *)
Definition py_calm (p p' : Proc) : Prop :=
  ∃ l, py_step p l p' ∧ ∀ m, l ≠ Some (m, PanicException).

(** [serve_blocking] accepts, and nobody has signalled. *)
Definition deaf (i : nat) (p : Proc) : Prop :=
  notified (p_shutdown p) = None ∧
  ∃ boot s, p_calls p !! i = Some (Some (InServe boot (Some s))) ∧ sv_phase s = Accepting.

Lemma serve_step_deaf (s s' : ServeState) (sd sd' : Nt) :
  serve_step notified (s, sd) (s', sd') → notified sd = None →
  sd' = sd ∧ (sv_phase s = Accepting → sv_phase s' = Accepting).
Proof using Type. intros Hst Hn. by inversion Hst; subst; split_and!; try done; congruence. Qed.

Lemma deaf_step g0 i p l p' :
  py_inv g0 p → deaf i p → py_step p l p' → (∀ m, l ≠ Some (m, PanicException)) → deaf i p'.
Proof using RuleLaws.
  intros Hinv (Hn & boot & s & Hi & Hs) Hst Hl. pose proof (inv_excl _ _ Hinv) as He.
  assert (∀ j c, p_calls p !! j = Some (Some c) → borrow_of c = MutBorrow → False) as Hmut.
  { intros j c Hj Hc. pose proof (He j i _ _ Hj Hi Hc). subst j. rewrite Hi in Hj. by injection Hj as <-. }
  assert (may_borrow (borrows (p_calls p)) MutBorrow = true → False) as Hidle.
  { intros Hm. by apply (may_mut_idle _ _ _ Hm Hi). }
  unfold deaf. destruct Hst as [| | |? ? ? ? j h t r g' Hj| | |? ? ? ? j Hj|? ? ? ? j h Hj|? ? ? ? j h t Hj
    |g sd ts cs boot' Hm|g sd ts cs j boot' s0 sd' o Hj Hb|g sd ts cs h t t' sd' Ht Hs'];
    cbn [p_gateway p_shutdown p_threads p_calls] in *; try (by destruct (Hidle ltac:(done)));
    try (by destruct (Hmut _ _ Hj eq_refl)).
  - eauto.
  - split; [done|]. exists boot, s. split; [|done]. by apply lookup_app_l_Some.
  - destruct (decide (j = i)) as [->|Hne].
    + rewrite Hi in Hj. injection Hj as <- <-.
      inversion Hb as [| | |? ? s' ? ? Hsv| |]; subst; [|done|by destruct (Hl ServeBlocking)].
      destruct (serve_step_deaf _ _ _ _ Hsv Hn) as [-> Hp]. split; [done|]. exists boot, s'. split; [|auto].
      apply list_lookup_insert_eq. by eapply lookup_lt_Some.
    + assert (sd' = sd) as ->.
      { inversion Hb as [| | |? ? s' ? ? Hsv| |]; subst; try done. by eapply serve_step_deaf. }
      split; [done|]. exists boot, s. by rewrite list_lookup_insert_ne.
  - assert (sd' = sd) as ->; [|eauto].
    inversion Hs' as [|? ? ? ? ? ? Hsv| | |]; subst; try done. by eapply serve_step_deaf.
Qed.

(** C20 Nobody can stop [serve_blocking]: while it accepts and no signal was
    left from before, every [stop] raises [RuntimeError], since the object is
    borrowed; so it never stops accepting, whatever Python does. *)
Theorem serve_blocking_deaf g i p p' :
  py_reach g p → deaf i p → rtc py_calm p p' →
  deaf i p' ∧ ∀ o p'', py_step p' (Some (Stop, o)) p'' → o = BorrowError ∧ p'' = p'.
Proof using Laws RuleLaws.
  intros Hp Hd Hr. assert (py_inv g p' ∧ deaf i p') as [Hp' Hd'].
  { apply py_reach_inv in Hp. induction Hr as [|p1 p2 p3 (l & Hst & Hl) _ IH]; [done|].
    apply IH; [by eapply py_step_inv|by eapply deaf_step]. }
  split; [done|]. intros o p'' Hst. destruct Hd' as (_ & boot & s & Hi & _).
  assert (∀ j c, p_calls p' !! j = Some (Some c) → borrow_of c = MutBorrow → False) as Hmut.
  { intros j c Hj Hc. pose proof (inv_excl _ _ Hp' j i _ _ Hj Hi Hc). subst j. rewrite Hi in Hj.
    by injection Hj as <-. }
  inversion Hst as [| | | |? ? ? ? h t Hm| |? ? ? ? j Hj Hg| |? ? ? ? j h t Hj| |? ? ? ? ? ? ? ? o'|];
    subst; cbn [p_calls] in *.
  - done.
  - by destruct (may_mut_idle _ _ _ Hm Hi).
  - by destruct (Hmut _ _ Hj eq_refl).
  - by destruct (Hmut _ _ Hj eq_refl).
  - by destruct o'.
Qed.
End lifecycle.

(** ** The constructor's configuration *)

(** C37 The constructor loads as the binary does, and its [cache_enabled] wins;
    but the switch comes after the validation, so the result is valid except
    in one case: caches it enables may have no room for listings. *)
Theorem constructor_config {IoError TomlError} read_to_string toml_parse (missing unknown : str → TomlError)
    var_os check_bucket a g :
  let load := load (IoError:=IoError) read_to_string toml_parse missing unknown var_os check_bucket in
  gateway_new load a = Ok g →
  ∃ c, load (cli_args a) = Ok c ∧
    py_config g = (match na_cache_enabled a with Some b => with_cache b c | None => c end) ∧
    py_thread g = None ∧ py_address g = None ∧
    validate (IoError:=IoError) (TomlError:=TomlError) check_bucket (py_config g) =
      (if bool_decide (na_cache_enabled a = Some true) && N.ltb 0 (listing_ttl_ms (cache c))
          && N.eqb (listing_capacity_entries (cache c)) 0
       then Err (Invalid ZeroListingCapacity) else Ok tt).
Proof.
  intros load. unfold gateway_new. destruct (load (cli_args a)) as [c|] eqn:El; [|done].
  intros [= <-]. exists c. split_and!; [done..|]. cbn [py_config].
  apply load_inv in El as (_ & _ & _ & _ & Hv & _). unfold validate in *.
  destruct (na_cache_enabled a) as [b|].
  2: { by rewrite (bool_decide_eq_false_2 (None = Some true)). }
  cbn [with_cache namenode_uri hdfs_root bucket_name max_concurrent_requests cache set_enabled enabled
       listing_ttl_ms listing_capacity_entries].
  destruct (bool_decide (namenode_uri c = [])); [done|]. destruct (bool_decide (hdfs_root c = [])); [done|].
  destruct (bool_decide (bucket_name c = [])); [done|]. destruct (N.eqb (max_concurrent_requests c) 0); [done|].
  destruct (enabled (cache c) && _ && _); [done|]. destruct (negb (check_bucket _)); [done|].
  destruct b; [by rewrite bool_decide_eq_true_2|by rewrite bool_decide_eq_false_2].
Qed.

(** ** Witnesses *)

#[export] Instance flag_notify : Notify bool := {|
  notify_new := false;
  notify_one _ := true;
  notified n := if n then Some false else None;
|}.

#[export] Instance flag_laws : NotifyLaws bool.
Proof. split; [done|by intros n; exists false|by intros [] n' [= <-]]. Qed.

(** The rule of Rust's borrows. *)
#[export] Instance rust_borrows : PyBorrow := λ l b,
  match b with
  | MutBorrow => match l with [] => true | _ => false end
  | SharedBorrow => forallb (λ b, match b with SharedBorrow => true | MutBorrow => false end) l
  end.

#[export] Instance rust_borrows_laws : PyBorrowLaws.
Proof.
  split; [by intros []|by intros []|]. intros l [] Hin; cbn; [|by destruct Hin].
  apply not_true_iff_false. rewrite forallb_forall. intros Hf. by apply list_elem_of_In, Hf in Hin.
Qed.

Definition demo_gateway : Gateway := mkGateway default_config None None None $"stderr".

(** Everything works. *)
Definition demo_boot : Boot (SocketAddr:=str) (Listener:=str) :=
  mkBoot (Value (Ok tt)) (λ e, $"GatewayError: " ++ e) (λ _, Value (Ok tt)) Ok Some 0.

Abbreviation demo_proc := (Proc (Nt:=bool) (SocketAddr:=str) (Listener:=str)).
Abbreviation demo_step := (py_step (Nt:=bool) (SocketAddr:=str) (Listener:=str) (λ a : str, Ok a) (λ a : str, a)).
Abbreviation demo_reach := (py_reach (Nt:=bool) (SocketAddr:=str) (Listener:=str) (λ a : str, Ok a) (λ a : str, a)).

Definition demo_thread (phase : ThreadPhase) : Thread (SocketAddr:=str) (Listener:=str) :=
  mkThread demo_boot phase (match phase with Booting => None | _ => Some (Ok (listen_addr default_config)) end).

(** [start] on a fresh object, up to the message, its return, and a [stop] that
    waits. *)
Definition booting_proc : demo_proc :=
  mkProc demo_gateway false [demo_thread (Serving (serve_start 0))] [Some (InStart 0)].
Definition running_proc : demo_proc :=
  mkProc (set_running (listen_addr default_config) 0 demo_gateway) false
    [demo_thread (Serving (serve_start 0))] [None].
Definition joining_proc : demo_proc :=
  mkProc (set_thread None (set_running (listen_addr default_config) 0 demo_gateway)) true
    [demo_thread (Serving (serve_start 0))] [None; Some (InJoin 0)].

Lemma booting_reached : demo_reach demo_gateway booting_proc.
Proof.
  eapply rtc_l; [exists None; by apply (py_start _ _ (set_thread None demo_gateway) false [] [] demo_boot)|].
  eapply rtc_l; [exists None; eapply (py_native _ _ _ _ _ _ 0); [reflexivity|by apply th_start]|]. apply rtc_refl.
Qed.

Lemma demo_started : demo_step booting_proc (Some (Start, Returns (Ok tt))) running_proc.
Proof. by apply (py_started _ _ demo_gateway false _ [Some (InStart 0)] 0 0 (demo_thread (Serving (serve_start 0)))). Qed.

Lemma running_reached : demo_reach demo_gateway running_proc.
Proof. eapply rtc_r; [apply booting_reached|]. eexists. apply demo_started. Qed.

Lemma joining_reached : demo_reach demo_gateway joining_proc.
Proof.
  eapply rtc_r; [eapply rtc_r; [apply running_reached|]|].
  - exists None. apply py_stop; [done|]. by intros h t [= <-] [= <-].
  - exists None. exact (py_stop_notify _ _ (set_running (listen_addr default_config) 0 demo_gateway) false
      [demo_thread (Serving (serve_start 0))] [None; Some InStop] 1 0 eq_refl eq_refl).
Qed.

Example one_server_witness : 0 = 0 ∧ owned running_proc 0.
Proof.
  exact (one_server _ _ demo_gateway running_proc 0 0 _ _ running_reached eq_refl eq_refl eq_refl eq_refl).
Defined.

Example start_reports_witness :
  ∃ h t addr, py_thread (p_gateway running_proc) = Some h ∧ py_address (p_gateway running_proc) = Some addr ∧
    p_threads running_proc !! h = Some t ∧
    server_boot (λ a : str, Ok a) (λ a : str, a) (th_boot t) (py_config demo_gateway) = Some (Ok addr).
Proof. exact (start_reports _ _ demo_gateway booting_proc (Ok tt) running_proc booting_reached demo_started). Defined.

(** [stop] on the fresh object. *)
Example stop_joins_witness :
  let p := mkProc (SocketAddr:=str) (Listener:=str) (set_thread None demo_gateway) true [] [None] in
  is_running p = false ∧ py_thread (p_gateway p) = None ∧ ∀ h t, p_threads p !! h = Some t → alive t = false.
Proof.
  intros p. apply (stop_joins (λ a : str, Ok a) (λ a : str, a) demo_gateway
    (mkProc (set_thread None demo_gateway) false [] [Some InStop])).
  - eapply rtc_l; [exists None; by apply (py_stop _ _ (set_thread None demo_gateway) false [] [])|]. apply rtc_refl.
  - exact (py_stop_idle _ _ (set_thread None demo_gateway) false [] [Some InStop] 0 eq_refl eq_refl).
Defined.

Example stop_can_return_witness :
  ∃ p1 p2, rtc (py_any (λ a : str, Ok a) (λ a : str, a)) joining_proc p1 ∧
    p_calls p1 = p_calls joining_proc ∧ demo_step p1 (Some (Stop, Returns (Ok tt))) p2.
Proof. exact (stop_can_return _ _ demo_gateway joining_proc 1 0 joining_reached eq_refl). Defined.

Example stray_stop_witness :
  ∃ p : demo_proc, py_trace (λ a : str, Ok a) (λ a : str, a) (py_initial demo_gateway)
      [(Stop, Returns (Ok tt)); (Start, Returns (Ok tt))] p ∧
    is_running p = false ∧ demo_step p (Some (Start, Returns (Err already_running))) p.
Proof. exact (stray_stop (λ a : str, Ok a) (λ a : str, a) demo_gateway demo_boot (listen_addr default_config) eq_refl). Defined.

(** A foreground server. *)
Definition blocking_proc : demo_proc :=
  mkProc (set_thread None demo_gateway) false [] [Some (InServe demo_boot (Some (serve_start 0)))].

Example serve_blocking_deaf_witness :
  deaf 0 blocking_proc ∧
  ∀ o p'', demo_step blocking_proc (Some (Stop, o)) p'' → o = BorrowError ∧ p'' = blocking_proc.
Proof.
  apply (serve_blocking_deaf _ _ demo_gateway 0 blocking_proc blocking_proc); [|split; [done|]|apply rtc_refl].
  - eapply rtc_l; [exists None; by apply (py_serve _ _ (set_thread None demo_gateway) false [] [] demo_boot)|].
    eapply rtc_l; [eexists; by eapply (py_blocking _ _ (set_thread None demo_gateway) false [] _ 0 demo_boot None
      false (inr (Some (serve_start 0)))); [|apply bl_begin]|]. apply rtc_refl.
  - by exists demo_boot, (serve_start 0).
Defined.

(** A file with the caches off and no room for listings. *)
Definition roomless_toml : TomlConfig :=
  mkTomlConfig (Some $"hdfs://nn") (Some $"/data") (Some $"hdfs") None None None None None None
    (Some (mkTomlCache (Some false) None None None None None None (Some 0%N) None None)) None None.

Definition roomless_load : CliArgs → result Config (ConfigError unit unit) :=
  load (λ _, Ok []) (λ _, Ok roomless_toml) (λ _, tt) (λ _, tt) (λ _, None) (λ _, true).

Definition roomless_args : NewArgs :=
  mkNewArgs (Some $"gateway.toml") None None None None None None None None (Some true) None None.

Definition roomless_config : Config :=
  match roomless_load (cli_args roomless_args) with Ok c => c | Err _ => default_config end.

Definition roomless : Gateway :=
  match gateway_new roomless_load roomless_args with Ok g => g | Err _ => demo_gateway end.

Example constructor_config_witness :
  validate (IoError:=unit) (TomlError:=unit) (λ _, true) (py_config roomless) = Err (Invalid ZeroListingCapacity).
Proof.
  destruct (constructor_config (IoError:=unit) (TomlError:=unit) (λ _, Ok []) (λ _, Ok roomless_toml) (λ _, tt) (λ _, tt) (λ _, None) (λ _, true)
    roomless_args roomless eq_refl) as (c & Hc & _ & _ & _ & Hv).
  rewrite Hv. change (Ok roomless_config = Ok (E:=ConfigError unit unit) c) in Hc. injection Hc as <-. reflexivity.
Defined.
