(* ===== verification/Gateway.v ===== *)
(** The S3 operations on objects and buckets: [src/s3/mod.rs],
    [src/s3/write_policy.rs].

    A request is a program over the gateway's state: the shared caches, the
    request counter and the log. Each of its accesses is one lock acquisition,
    one atomic increment, one log line or one remote call; between two of them
    other requests may run. The clock and the HDFS client are functions of a
    tick that every access advances, so an outside writer may also change HDFS
    between any two calls. *)

From S2P Require Import Prelude Prog Bytes Config Path Range Metadata HdfsError Listing.
From S2P Require Import Cache Caches SortedListing.

(** ** The types of [s3s] the operations use *)

(** [s3s::dto::ETag]. *)
Inductive ETag : Type :=
| Strong (value : str)
| Weak (value : str).

(** [s3s::dto::ETagCondition]. *)
Inductive ETagCondition : Type :=
| AnyETag
| OneETag (etag : ETag).

(** [s3s::dto::Timestamp]: an instant, in nanoseconds from the Unix epoch. *)
Abbreviation Timestamp := Z.

(** [s3s::dto::Range]. *)
Inductive RangeHeader : Type :=
| RangeInt (first : N) (last : option N)
| RangeSuffix (length : N).

(** [S3Response<T>]: the output and the headers the gateway adds. *)
Record S3Response (A : Type) := mkS3Response {
  output : A;
  headers : list (str * str);
}.
Arguments mkS3Response {A}.
Arguments output {A}.
Arguments headers {A}.

(** The four preconditions of [HeadObject] and [GetObject]. *)
Record Conditions := mkConditions {
  if_match : option ETagCondition;
  if_unmodified_since : option Timestamp;
  if_none_match : option ETagCondition;
  if_modified_since : option Timestamp;
}.

Record HeadObjectInput := mkHeadObjectInput {
  ho_bucket : str;
  ho_key : str;
  ho_conditions : Conditions;
}.

Record HeadObjectOutput := mkHeadObjectOutput {
  ho_accept_ranges : str;
  ho_content_length : Z;
  ho_content_type : str;
  ho_last_modified : Timestamp;
  ho_e_tag : ETag;
}.

Record GetObjectInput := mkGetObjectInput {
  go_bucket : str;
  go_key : str;
  go_conditions : Conditions;
  go_range : option RangeHeader;
}.

(** The response of [GetObject]; [go_body] is the window the body streams. *)
Record GetBody (R : Type) := mkGetBody {
  gb_reader : R;
  gb_path : str;
  gb_start : N;
  gb_length : N;
}.
Arguments mkGetBody {R}.
Arguments gb_reader {R}.
Arguments gb_path {R}.
Arguments gb_start {R}.
Arguments gb_length {R}.

Record GetObjectOutput (R : Type) := mkGetObjectOutput {
  go_accept_ranges : str;
  go_body : GetBody R;
  go_content_length : Z;
  go_content_range : option str;
  go_last_modified : Timestamp;
  go_e_tag : ETag;
  go_content_type : str;
}.
Arguments mkGetObjectOutput {R}.
Arguments go_accept_ranges {R}.
Arguments go_body {R}.
Arguments go_content_length {R}.
Arguments go_content_range {R}.
Arguments go_last_modified {R}.
Arguments go_e_tag {R}.
Arguments go_content_type {R}.

(** ** Pure helpers *)

(** The decimal digits of a 64-bit word; twenty are enough. *)
Fixpoint fmt_dec_fuel (fuel : nat) (n : N) : str :=
  match fuel with
  | 0 => []
  | S fuel =>
      if N.ltb n 10 then [from_digit n] else fmt_dec_fuel fuel (n / 10) ++ [from_digit (n mod 10)]
  end.

Definition fmt_dec (n : N) : str := fmt_dec_fuel 20 n.

Definition fmt_content_range (start end_inclusive size : N) : str :=
  $"bytes " ++ fmt_dec start ++ $"-" ++ fmt_dec end_inclusive ++ $"/" ++ fmt_dec size.

Definition millis_to_timestamp (millis : N) : Timestamp :=
  let secs := (millis / 1000)%N in
  let nanos := ((millis mod 1000) * 1000000)%N in
  (Z.of_N secs * 1000000000 + Z.of_N nanos)%Z.

(** [x as i64]. *)
Definition as_i64 (n : N) : Z :=
  let z := Z.of_N (n mod U64_MOD) in if Z.ltb z (2 ^ 63) then z else (z - 2 ^ 64)%Z.

(** [usize::try_from] on a 64-bit target. *)
Definition usize_try_from (n : N) : option N := if N.ltb n U64_MOD then Some n else None.

(** The conversion of the parsed [Range] header. *)
Definition to_byte_range (r : RangeHeader) : ByteRange :=
  match r with
  | RangeInt first (Some last) => Inclusive first last
  | RangeInt first None => From first
  | RangeSuffix length => Suffix length
  end.

(** ** Errors and the request id *)

(** The [{:x}] format of a 128-bit word, at most thirty-two digits. *)
Definition fmt_hex_u128 (n : N) : str := fmt_hex_fuel 32 n.

Definition request_id_header : str := $"x-amz-request-id".

(** [RequestLog], without the tracing span. *)
Record RequestLog := mkRequestLog {
  op : str;
  request_id : str;
  hdfs_path : option str;
  bytes_served : N;
  ok : bool;
}.

(** The events a request logs. *)
Inductive LogEvent : Type :=
| Started (request_id op : str)
| Completed (request_id op hdfs_path : str) (bytes_served : N) (ok : bool).

Section attach.
(** [http::HeaderValue::from_str]. *)
Context (header_value : str → option str).

Definition attach_error_request_id (request_id : str) (err : S3Error) : S3Error :=
  let headers := match header_value request_id with
                 | Some val => [(request_id_header, val)]
                 | None => []
                 end ++ [($"content-type", $"application/xml")] in
  mkS3Error (code err) (message err) (error_source err) (Some request_id) (Some headers).

(** [with_request_id]: the response with the header, the log marked. *)
Definition with_request_id {A} (resp : S3Response A) (log : RequestLog) :
    S3Response A * RequestLog :=
  (match header_value (request_id log) with
   | Some val => mkS3Response (output resp) (headers resp ++ [(request_id_header, val)])
   | None => resp
   end,
   mkRequestLog (op log) (request_id log) (hdfs_path log) (bytes_served log) true).
End attach.

(** ** State *)

Section gateway.
Context {L : Type → Type} `{!Lru str L}.
(** [hdfs_native::file::FileReader] and its I/O errors. *)
Context {R IoError : Type}.

(** The shared state of the gateway, and the tick of the outside world.
    [gw_seq] counts the increments of [REQUEST_SEQ], whose word holds it modulo
    [2^64]. *)
Record GwState := mkGwState {
  gw_caches : Caches L R;
  gw_seq : N;
  gw_tick : nat;
  gw_events : list LogEvent;
}.

(** A step of a request, which owns its log: it fails with an S3 error or
    returns a value. *)
Definition H (A : Type) : Type := RequestLog → Prog GwState (result A S3Error * RequestLog).

Definition ret {A} (a : A) : H A := λ log, Done (Ok a, log).

(** The [?] operator. *)
Definition bind {A B} (c : H A) (k : A → H B) : H B := λ log,
  pbind (c log) (λ r, match r with
                      | (Ok a, log) => k a log
                      | (Err e, log) => Done (Err e, log)
                      end).

Notation "'let!' x ':=' c 'in' k" := (bind c (λ x, k))
  (at level 10, x name, c at level 100, k at level 200).
Notation "'let!' ' x ':=' c 'in' k" := (bind c (λ x, k))
  (at level 10, x strict pattern, c at level 100, k at level 200).

Definition set_caches (c : Caches L R) (gw : GwState) : GwState :=
  mkGwState c (gw_seq gw) (gw_tick gw) (gw_events gw).

Definition step_tick (gw : GwState) : GwState :=
  mkGwState (gw_caches gw) (gw_seq gw) (S (gw_tick gw)) (gw_events gw).

Definition set_metadata c (cs : Caches L R) : Caches L R :=
  mkCaches c (negative cs) (blocks cs) (dirs cs) (max_dir_entries cs).
Definition set_negative c (cs : Caches L R) : Caches L R :=
  mkCaches (metadata cs) c (blocks cs) (dirs cs) (max_dir_entries cs).
Definition set_blocks c (cs : Caches L R) : Caches L R :=
  mkCaches (metadata cs) (negative cs) c (dirs cs) (max_dir_entries cs).
Definition set_dirs c (cs : Caches L R) : Caches L R :=
  mkCaches (metadata cs) (negative cs) (blocks cs) c (max_dir_entries cs).

(** The world: clocks, the HDFS client, and the parts of [s3s], [http] and
    [mime_guess] the operations call. *)
Record World := mkWorld {
  (* [Instant::now], in milliseconds *)
  clock : nat → N;
  (* [SystemTime::now], in nanoseconds from the epoch *)
  system_time : nat → N;
  (* [Client::get_file_info], [Client::list_status(_, false)], [Client::read] *)
  get_file_info : nat → str → result FileStatus HdfsError;
  list_status : nat → str → result (list FileStatus) HdfsError;
  read : nat → str → result R HdfsError;
  (* [FileReader::file_length] and the items of [read_range_stream] *)
  reader_length : R → N;
  read_range_stream : nat → R → N → N → list (result str IoError);
  (* [impl Display for HdfsError] *)
  hdfs_to_string : HdfsError → str;
  (* [ETag::strong_cmp], [ETag::weak_cmp] *)
  strong_cmp : ETag → ETag → bool;
  weak_cmp : ETag → ETag → bool;
  (* [HeaderValue::from_str] *)
  header_value : str → option str;
  (* [mime_guess::from_path(_).first()] *)
  mime_first : str → option str;
}.
Context (w : World).

(** The gateway's fixed part. *)
Context (mapper : PathMapper) (config : Config).

(** ** Requests *)

Definition fmt_request_id (micros seq : N) : str := fmt_hex_u128 micros ++ $"-" ++ fmt_hex seq.

(** [new_request_id]: a reading of the clock and an atomic increment, which
    returns the word before it. *)
Definition new_request_id : Prog GwState str :=
  pbind (act (λ gw, ((system_time w (gw_tick gw) / 1000)%N, step_tick gw))) (λ micros,
  pbind (act (λ gw, ((gw_seq gw mod U64_MOD)%N,
                     mkGwState (gw_caches gw) (gw_seq gw + 1) (S (gw_tick gw)) (gw_events gw))))
    (λ seq, Done (fmt_request_id micros seq))).

Definition log_event (e : LogEvent) (gw : GwState) : GwState :=
  mkGwState (gw_caches gw) (gw_seq gw) (S (gw_tick gw)) (gw_events gw ++ [e]).

Definition push_event (e : LogEvent) : Prog GwState unit := act (λ gw, (tt, log_event e gw)).

(** [RequestLog::new]. *)
Definition new_log (op : str) : Prog GwState RequestLog :=
  pbind new_request_id (λ request_id,
    pbind (push_event (Started request_id op))
      (λ _, Done (mkRequestLog op request_id None 0 false))).

(** [impl Drop for RequestLog]. *)
Definition completion (log : RequestLog) : LogEvent :=
  Completed (request_id log) (op log) (or_else (hdfs_path log) []) (bytes_served log) (ok log).

Definition drop_log (log : RequestLog) : Prog GwState unit := push_event (completion log).

(** An operation: its future is polled, the log is created first and dropped
    last. A future that is dropped before its first poll does nothing. *)
Definition request {A} (op : str) (body : H (S3Response A)) :
    Prog GwState (result (S3Response A) S3Error) :=
  pbind (await (λ gw, (tt, gw))) (λ _,
  pbind (new_log op) (λ log,
    pbind (body log) (λ r, pbind (drop_log r.2) (λ _, Done r.1)))).

(** [log.set_path]. *)
Definition set_path (path : str) : H unit := λ log,
  Done (Ok tt, mkRequestLog (op log) (request_id log) (Some path) (bytes_served log) (ok log)).

(** [log.set_bytes]. *)
Definition set_bytes (n : N) : H unit := λ log,
  Done (Ok tt, mkRequestLog (op log) (request_id log) (hdfs_path log) n (ok log)).

(** [Err(log.attach(err))]. *)
Definition fail {A} (err : S3Error) : H A := λ log,
  Done (Err (attach_error_request_id (header_value w) (request_id log) err), log).

(** [Ok(with_request_id(S3Response::new(output), &mut log))]. *)
Definition respond {A} (output : A) : H (S3Response A) := λ log,
  let '(resp, log) := with_request_id (header_value w) (mkS3Response output []) log in
  Done (Ok resp, log).

(** One access to the shared state. *)
Definition access {A} (f : GwState → A * GwState) : H A := λ log,
  Act A None f (λ a, Done (Ok a, log)).

(** A program without a log of its own: if it is dropped, so is the request's
    log, which writes the completion line. *)
Definition lift {A} (p : Prog GwState A) : H A := λ log,
  pbind (owning (log_event (completion log)) p) (λ a, Done (Ok a, log)).

(** An access to one of the caches, at the time of the tick. *)
Definition on_caches {A} (f : N → Caches L R → A * Caches L R) (gw : GwState) : A * GwState :=
  let '(a, cs) := f (clock w (gw_tick gw)) (gw_caches gw) in
  (a, step_tick (set_caches cs gw)).

(** A remote call, and a reading of the clock, which is none. *)
Definition call {A} (f : nat → A) : H A := lift (await (λ gw, (f (gw_tick gw), step_tick gw))).
Definition read_clock {A} (f : nat → A) : H A := access (λ gw, (f (gw_tick gw), step_tick gw)).

Definition metadata_get (p : str) : H (option FileMeta) := access (on_caches (λ now cs,
  let '(v, c) := cache_get now p (metadata cs) in (v, set_metadata c cs))).
Definition metadata_insert (p : str) (m : FileMeta) : H unit := access (on_caches (λ now cs,
  (tt, set_metadata (cache_insert now p m 1 (metadata cs)) cs))).
Definition metadata_remove (p : str) : H unit := access (on_caches (λ now cs,
  (tt, set_metadata (cache_remove p (metadata cs)) cs))).
Definition negative_get (p : str) : H (option unit) := access (on_caches (λ now cs,
  let '(v, c) := cache_get now p (negative cs) in (v, set_negative c cs))).
Definition negative_insert (p : str) : H unit := access (on_caches (λ now cs,
  (tt, set_negative (cache_insert now p tt 1 (negative cs)) cs))).
Definition blocks_get (p : str) : H (option (CachedReader R)) := access (on_caches (λ now cs,
  let '(v, c) := cache_get now p (blocks cs) in (v, set_blocks c cs))).
Definition blocks_insert (p : str) (r : CachedReader R) : H unit := access (on_caches (λ now cs,
  (tt, set_blocks (cache_insert now p r 1 (blocks cs)) cs))).
Definition blocks_remove (p : str) : H unit := access (on_caches (λ now cs,
  (tt, set_blocks (cache_remove p (blocks cs)) cs))).

(** ** Metadata and readers *)

Definition meta_of_status (status : FileStatus) : FileMeta :=
  mkFileMeta (fs_length status) (fs_isdir status) (fs_modification_time status).

Definition file_meta (hdfs_path : str) : H FileMeta :=
  let! hit := metadata_get hdfs_path in
  match hit with
  | Some meta => ret meta
  | None =>
      let! missing := negative_get hdfs_path in
      match missing with
      | Some _ => fail (s3_error NoSuchKey)
      | None =>
          let! r := call (λ t, get_file_info w t hdfs_path) in
          match r with
          | Ok status =>
              let meta := meta_of_status status in
              let! _ := metadata_insert hdfs_path meta in
              ret meta
          | Err (FileNotFound _) =>
              let! _ := negative_insert hdfs_path in
              fail (s3_error NoSuchKey)
          | Err e => fail (map_hdfs_error (hdfs_to_string w) e (expose_upstream_errors config))
          end
      end
  end.

Definition open_reader (hdfs_path : str) (meta : FileMeta) : H R :=
  let open :=
    let! r := call (λ t, read w t hdfs_path) in
    match r with
    | Ok reader =>
        let! _ := blocks_insert hdfs_path
                    (mkCachedReader reader (fm_length meta) (fm_modification_time meta)) in
        ret reader
    | Err e =>
        let! _ := metadata_remove hdfs_path in
        fail (map_hdfs_error (hdfs_to_string w) e (expose_upstream_errors config))
    end in
  let! hit := blocks_get hdfs_path in
  match hit with
  | Some cached =>
      if N.eqb (cr_length cached) (fm_length meta)
         && N.eqb (cr_modification_time cached) (fm_modification_time meta)
      then ret (cr_reader cached)
      else let! _ := blocks_remove hdfs_path in open
  | None => open
  end.

(** ** Preconditions *)

Definition etag_matches (cmp : ETag → ETag → bool) (etag : ETag) (cond : ETagCondition) : bool :=
  match cond with AnyETag => true | OneETag other => cmp etag other end.

(** The checks of the conditional headers, in the order of the code. *)
Definition preconditions (c : Conditions) (etag : ETag) (last_modified : Timestamp) :
    option S3ErrorCode :=
  if match if_match c with
     | Some cond => negb (etag_matches (strong_cmp w) etag cond)
     | None => false
     end then Some PreconditionFailed
  else if match if_unmodified_since c with
          | Some since => Z.ltb since last_modified
          | None => false
          end then Some PreconditionFailed
  else if match if_none_match c with
          | Some cond => etag_matches (weak_cmp w) etag cond
          | None => false
          end then Some NotModified
  else if match if_modified_since c with
          | Some since => Z.leb last_modified since
          | None => false
          end then Some NotModified
  else None.

(** What both operations do before the preconditions: the bucket, the key, the
    metadata; directories are not objects. *)
Definition resolve_object (bucket key : str) : H (str * FileMeta) :=
  if negb (bool_decide (bucket = Path.bucket mapper)) then fail (s3_error NoSuchBucket)
  else
    match key_to_hdfs_path mapper key with
    | None => fail (s3_error NoSuchKey)
    | Some hdfs_path =>
        let! _ := set_path hdfs_path in
        let! status := file_meta hdfs_path in
        if fm_isdir status then fail (s3_error NoSuchKey) else ret (hdfs_path, status)
    end.

Definition object_meta (hdfs_path : str) (status : FileMeta) : ObjectMetadata :=
  from_hdfs hdfs_path (fm_length status) (fm_isdir status) (fm_modification_time status) None.

(** ** Operations *)

Definition head_bucket (bucket : str) : Prog GwState (result (S3Response unit) S3Error) :=
  request $"HeadBucket"
    (if negb (bool_decide (bucket = Path.bucket mapper)) then fail (s3_error NoSuchBucket)
     else respond tt).

Definition head_object (input : HeadObjectInput) :
    Prog GwState (result (S3Response HeadObjectOutput) S3Error) :=
  request $"HeadObject"
    (let! '(hdfs_path, status) := resolve_object (ho_bucket input) (ho_key input) in
     let meta := object_meta hdfs_path status in
     let etag := Strong (etag meta) in
     let last_modified := millis_to_timestamp (fm_modification_time status) in
     match preconditions (ho_conditions input) etag last_modified with
     | Some code => fail (s3_error code)
     | None =>
         respond {|
           ho_accept_ranges := $"bytes";
           ho_content_length := as_i64 (fm_length status);
           ho_content_type := content_type (mime_first w) meta;
           ho_last_modified := last_modified;
           ho_e_tag := etag;
         |}
     end).

(** The name and creation date of the one bucket. *)
Definition list_buckets : Prog GwState (result (S3Response (str * Timestamp)) S3Error) :=
  request $"ListBuckets"
    (let! now := read_clock (system_time w) in
     respond (Path.bucket mapper, Z.of_N now)).

(** The range resolution of [get_object]: window start and end, content
    length, [Content-Range]. *)
Definition resolve_window (file_len : N) (range : option RangeHeader) :
    option (N * N * N * option str) :=
  match range with
  | None => Some (0, file_len, file_len, None)%N
  | Some range =>
      match resolve_range file_len (to_byte_range range) with
      | None => None
      | Some (s, e) =>
          let len := u64_sub e s in
          Some (s, e, len, Some (fmt_content_range s (u64_sub e 1) file_len))
      end
  end.

Definition get_object (input : GetObjectInput) :
    Prog GwState (result (S3Response (GetObjectOutput R)) S3Error) :=
  request $"GetObject"
    (let! '(hdfs_path, status) := resolve_object (go_bucket input) (go_key input) in
     let file_len := fm_length status in
     let last_modified := millis_to_timestamp (fm_modification_time status) in
     let meta := object_meta hdfs_path status in
     let etag := Strong (etag meta) in
     match preconditions (go_conditions input) etag last_modified with
     | Some code => fail (s3_error code)
     | None =>
         match resolve_window file_len (go_range input) with
         | None => fail (s3_error InvalidRange)
         | Some (start, end_exclusive, content_length, content_range) =>
             match usize_try_from start, usize_try_from end_exclusive with
             | Some window_start, Some window_end =>
                 let! reader := open_reader hdfs_path status in
                 if N.ltb (reader_length w reader) window_end then
                   let! _ := blocks_remove hdfs_path in
                   let! _ := metadata_remove hdfs_path in
                   fail (s3_error InternalError)
                 else
                   let remaining := u64_sub window_end window_start in
                   let! _ := set_bytes content_length in
                   respond {|
                     go_accept_ranges := $"bytes";
                     go_body := mkGetBody reader hdfs_path window_start remaining;
                     go_content_length := as_i64 content_length;
                     go_content_range := content_range;
                     go_last_modified := last_modified;
                     go_e_tag := etag;
                     go_content_type := content_type (mime_first w) meta;
                   |}
             | _, _ => fail (s3_error InvalidRange)
             end
         end
     end).

(** ** The body of [GetObject] *)

(** [GetBodyError]. *)
Inductive GetBodyError : Type :=
| Upstream (e : IoError)
| ShortRead (expected got : N).

(** The polls of the reader's stream: a failed item drops the object's block
    map and metadata before it is passed on. *)
Definition evict_on_error (path : str) (r : result str IoError) : Prog GwState (result str IoError) :=
  match r with
  | Ok bytes => Done (Ok bytes)
  | Err e =>
      pbind (act (on_caches (λ _ cs, (tt, set_blocks (cache_remove path (blocks cs)) cs)))) (λ _,
      pbind (act (on_caches (λ _ cs, (tt, set_metadata (cache_remove path (metadata cs)) cs)))) (λ _,
      Done (Err e)))
  end.

(** [bytes_stream], over the polls of a stream until it ends. *)
Fixpoint bytes_stream (stream : list (Prog GwState (result str IoError))) (limit remaining : N) :
    Prog GwState (list (result str GetBodyError)) :=
  if N.eqb remaining 0 then Done []
  else
    match stream with
    | [] => Done [Err (ShortRead limit (u64_sub limit remaining))]
    | poll :: stream =>
        pbind poll (λ r,
          match r with
          | Ok bytes =>
              let bytes := if N.ltb remaining (N.of_nat (List.length bytes))
                           then take (N.to_nat remaining) bytes else bytes in
              let remaining := u64_sub remaining (N.of_nat (List.length bytes)) in
              pbind (bytes_stream stream limit remaining) (λ out, Done (Ok bytes :: out))
          | Err e =>
              pbind (bytes_stream stream limit remaining) (λ out, Done (Err (Upstream e) :: out))
          end)
    end.

(** The client reads the whole body of a response. *)
Definition stream_body (b : GetBody R) : Prog GwState (list (result str GetBodyError)) :=
  pbind (await (λ gw,
           (read_range_stream w (gw_tick gw) (gb_reader b) (gb_start b) (gb_length b), step_tick gw)))
    (λ items, bytes_stream (map (evict_on_error (gb_path b)) items) (gb_length b) (gb_length b)).

(** ** Write-shaped operations and configuration probes *)

Inductive WriteOp : Type :=
| PutObject | DeleteObject | DeleteObjects | CreateBucket | DeleteBucket | CopyObject
| CreateMultipartUpload | UploadPart | CompleteMultipartUpload | AbortMultipartUpload
| ListMultipartUploads | ListParts | RestoreObject.

Definition write_op_name (o : WriteOp) : str :=
  match o with
  | PutObject => $"PutObject" | DeleteObject => $"DeleteObject"
  | DeleteObjects => $"DeleteObjects" | CreateBucket => $"CreateBucket"
  | DeleteBucket => $"DeleteBucket" | CopyObject => $"CopyObject"
  | CreateMultipartUpload => $"CreateMultipartUpload" | UploadPart => $"UploadPart"
  | CompleteMultipartUpload => $"CompleteMultipartUpload"
  | AbortMultipartUpload => $"AbortMultipartUpload"
  | ListMultipartUploads => $"ListMultipartUploads" | ListParts => $"ListParts"
  | RestoreObject => $"RestoreObject"
  end.

(** [log.finish(Err(write_policy::write_denied()))]. *)
Definition write_operation (o : WriteOp) :
    Prog GwState (result (S3Response unit) S3Error) :=
  request (write_op_name o) (fail write_denied).

Inductive ProbeOp : Type :=
| GetBucketVersioning | GetBucketTagging | GetBucketAcl | GetBucketCors.

Definition probe_op_name (o : ProbeOp) : str :=
  match o with
  | GetBucketVersioning => $"GetBucketVersioning" | GetBucketTagging => $"GetBucketTagging"
  | GetBucketAcl => $"GetBucketAcl" | GetBucketCors => $"GetBucketCors"
  end.

(** [bucket_versioning_not_configured], [bucket_tagging_not_configured],
    [bucket_acl_not_configured] and [bucket_cors_not_configured]: each succeeds
    with the default output of its type. *)
Definition bucket_not_configured (o : ProbeOp) : H unit := ret tt.

Definition probe_operation (o : ProbeOp) :
    Prog GwState (result (S3Response unit) S3Error) :=
  request (probe_op_name o) (let! output := bucket_not_configured o in respond output).

(** ** Theorems *)

(** Every write-shaped operation is refused with [AccessDenied], with the
    request id on the error, and leaves the caches as they were. *)
Theorem write_refused o gw :
  let '(r, gw') := exec (write_operation o) gw in
  ∃ id, r = Err (attach_error_request_id (header_value w) id write_denied) ∧
    code (attach_error_request_id (header_value w) id write_denied) = AccessDenied ∧
    gw_caches gw' = gw_caches gw.
Proof. cbn. by eexists. Qed.

End gateway.
