(* ===== verification/ListObjects.v ===== *)
(** [ListObjectsV2]: the handler of [src/s3/mod.rs] and the production lister
    of [src/s3/sorted_listing.rs].

    The three listing strategies over the cached, key-mapped lister, and the
    page they return on the wire. *)

From S2P Require Import Prelude Prog Bytes Config Path Metadata HdfsError Listing.
From S2P Require Import Cache Caches SortedListing Gateway.

Record ListObjectsV2Input := mkListObjectsV2Input {
  lo_bucket : str;
  lo_prefix : option str;
  lo_delimiter : option str;
  lo_max_keys : option Z;
  lo_continuation_token : option str;
  lo_start_after : option str;
}.

(** [s3s::dto::Object]: the fields the gateway fills. *)
Record Object := mkObject {
  obj_key : str;
  obj_size : Z;
  obj_last_modified : Timestamp;
  obj_e_tag : ETag;
}.

Record ListObjectsV2Output := mkListObjectsV2Output {
  out_name : str;
  out_prefix : option str;
  out_delimiter : option str;
  out_max_keys : Z;
  out_is_truncated : bool;
  out_contents : option (list Object);
  out_common_prefixes : option (list str);
  out_continuation_token : option str;
  out_next_continuation_token : option str;
  out_key_count : Z;
}.

(** [x as i32] of a [usize]. *)
Definition as_i32 (n : N) : Z :=
  let z := Z.of_N (n mod 2 ^ 32) in if Z.ltb z (2 ^ 31) then z else (z - 2 ^ 32)%Z.

Definition USIZE_MAX : N := U64_MAX.

Section list_objects.
Context {L : Type → Type} `{!Lru str L} {R IoError : Type} `{!Base64}.
Context (w : World (R:=R) (IoError:=IoError)).
Context (mapper : PathMapper) (config : Config).

(** [HdfsDirLister::list_dir]: the cached listing, or one [getListing]; an
    oversized directory is served but not cached. *)
Definition hdfs_list_dir (dir : str) :
    Prog (GwState (L:=L) (R:=R)) (result DirListing HdfsError) :=
  pbind (act (on_caches w (λ now cs,
           let '(v, c) := cache_get now dir (Caches.dirs cs) in (v, set_dirs c cs)))) (λ hit,
  match hit with
  | Some listing => Done (Ok listing)
  | None =>
      pbind (await (λ gw, (list_status w (gw_tick gw) dir, step_tick gw))) (λ r,
      match r with
      | Err e => Done (Err e)
      | Ok statuses =>
          let listing := listing_from_statuses statuses mapper in
          let weight := N.of_nat (List.length (Listing.files listing)
                                  + List.length (Listing.dirs listing)) in
          pbind (act (on_caches w (λ now cs,
                   if N.leb weight (max_dir_entries cs)
                   then (tt, set_dirs (cache_insert now dir listing weight (Caches.dirs cs)) cs)
                   else (tt, cs))))
            (λ _, Done (Ok listing))
      end)
  end).

#[local] Instance HdfsDirLister : DirLister (GwState (L:=L) (R:=R)) :=
  hdfs_list_dir.

(** A listing that failed, attached to the request. *)
Definition fail_hdfs {A} (e : HdfsError) : H (L:=L) (R:=R) A :=
  fail w (map_hdfs_error (hdfs_to_string w) e (expose_upstream_errors config)).

(** What the three strategies return: contents, common prefixes, the
    truncation flag and the raw key to resume from. *)
Definition ListPage : Type := list ListEntry * list str * bool * option str.

(** The delimiter [/]: one directory, one page of it. *)
Definition list_slash (prefix : str) (start_after : option str) (max_keys : N) :
    H (L:=L) (R:=R) (option ListPage) :=
  bind (match list_start mapper prefix with
        | None => ret empty_listing
        | Some hdfs_start =>
            bind (lift (hdfs_list_dir hdfs_start)) (λ r,
              match r with
              | Ok listing => ret listing
              | Err (FileNotFound _) => ret empty_listing
              | Err e => fail_hdfs e
              end)
        end)
    (λ listing,
       ret ((λ page, (contents page, common_prefixes page, is_truncated page, next_token page)) <$>
            paginate_slash (Listing.files listing) (Listing.dirs listing) prefix start_after max_keys)).

(** The merge, run from a fresh [SortedListing]. *)
Definition run_merge (fuel : nat) (prefix : str) (start_after : option str) (max_keys : N) :
    H (L:=L) (R:=R) (option (list ListEntry * bool)) :=
  match list_start mapper prefix with
  | None => ret (Some ([], false))
  | Some hdfs_start =>
      bind (lift (collect_page fuel max_keys (new_listing hdfs_start prefix start_after mapper)))
        (λ r, match r with
              | None => ret None
              | Some (Ok page) => ret (Some page)
              | Some (Err e) => fail_hdfs e
              end)
  end.

(** Another delimiter: every matching key of the subtree, then the general
    pagination. *)
Definition list_delimited (fuel : nat) (prefix : str) (delimiter : option str)
    (start_after : option str) (max_keys : N) : H (L:=L) (R:=R) (option ListPage) :=
  bind (if N.eqb max_keys 0 then ret (Some ([], false))
        else run_merge fuel prefix start_after USIZE_MAX)
    (λ r, ret (match r with
               | None => None
               | Some (entries, _) =>
                   let page := paginate entries [] prefix delimiter start_after max_keys in
                   Some (contents page, common_prefixes page, is_truncated page, next_token page)
               end)).

(** No delimiter: one page of the merge. *)
Definition list_flat (fuel : nat) (prefix : str) (start_after : option str) (max_keys : N) :
    H (L:=L) (R:=R) (option ListPage) :=
  bind (run_merge fuel prefix start_after max_keys)
    (λ r, ret (match r with
               | None => None
               | Some (page_entries, is_truncated) =>
                   let next_token := if is_truncated then key <$> last page_entries else None in
                   Some (page_entries, [], is_truncated, next_token)
               end)).

(** One [Object] of the response. *)
Definition object_of_entry (e : ListEntry) : Object := {|
  obj_key := key e;
  obj_size := as_i64 (size e);
  obj_last_modified := millis_to_timestamp (Listing.modification_time e);
  obj_e_tag := Strong (fallback_etag (size e) (Listing.modification_time e));
|}.

(** The response built from a page. *)
Definition list_output (input : ListObjectsV2Input) (max_keys : N) (page : ListPage) :
    ListObjectsV2Output :=
  let '(page_entries, page_prefixes, is_truncated, next_token) := page in
  let is_truncated := is_truncated && match next_token with Some _ => true | None => false end in
  let result_contents := map object_of_entry page_entries in
  {| out_name := Path.bucket mapper;
     out_prefix := lo_prefix input;
     out_delimiter := lo_delimiter input;
     out_max_keys := as_i32 max_keys;
     out_is_truncated := is_truncated;
     out_contents := match result_contents with [] => None | l => Some l end;
     out_common_prefixes := match page_prefixes with [] => None | l => Some l end;
     out_continuation_token := lo_continuation_token input;
     out_next_continuation_token := encode_token <$> next_token;
     out_key_count := as_i32 (N.of_nat (List.length page_entries + List.length page_prefixes)) |}.

(** The page size: 1000 by default; a negative one is refused. *)
Definition parse_max_keys (max_keys : option Z) : option N :=
  match max_keys with
  | None => Some 1000%N
  | Some n => if Z.ltb n 0 then None else Some (Z.to_N n)
  end.

(** The key to resume after: the decoded token, else [start-after]. *)
Definition parse_start_after (input : ListObjectsV2Input) : option (option str) :=
  match lo_continuation_token input with
  | Some token => match decode_token token with Some k => Some (Some k) | None => None end
  | None => Some (lo_start_after input)
  end.

(** The handler; [fuel] bounds the merge. The result is [None] when the fuel
    runs out. *)
Definition list_objects_v2 (fuel : nat) (input : ListObjectsV2Input) :
    Prog (GwState (L:=L) (R:=R)) (result (S3Response (option ListObjectsV2Output)) S3Error) :=
  request w $"ListObjectsV2"
    (if negb (bool_decide (lo_bucket input = Path.bucket mapper)) then fail w (s3_error NoSuchBucket)
     else
       let prefix := or_else (lo_prefix input) [] in
       let delimiter := match lo_delimiter input with
                        | Some d => if bool_decide (d = []) then None else Some d
                        | None => None
                        end in
       match parse_max_keys (lo_max_keys input) with
       | None => fail w (s3_error_with InvalidArgument $"max-keys must not be negative")
       | Some max_keys =>
           match parse_start_after input with
           | None => fail w (s3_error InvalidToken)
           | Some start_after =>
               bind (match delimiter with
                     | Some d =>
                         if bool_decide (d = [slash]) then list_slash prefix start_after max_keys
                         else list_delimited fuel prefix delimiter start_after max_keys
                     | None => list_flat fuel prefix start_after max_keys
                     end)
                 (λ page, respond w (list_output input max_keys <$> page))
           end
       end).
End list_objects.
