(* ===== verification/Invariant.v ===== *)
(** The gateway's invariant, kept by every access of every request.

    Each cached value is an answer HDFS gave, stamped with the time it was
    stored, and every cache is within its budget. [hoare] is the judgement for
    the request code: what it proves of one request holds with any number of
    other requests running between its accesses. *)

From S2P Require Import Prelude Prog Bytes Config Path Range Metadata HdfsError Listing.
From S2P Require Import Cache Caches SortedListing Gateway ListObjects.

(** The sizes a configuration may ask for: a budget and one more value fit the
    word that counts the weight. *)
Record sizes_ok (c : CacheConfig) : Prop := {
  so_metadata : (2 * metadata_capacity c < U64_MOD)%N;
  so_blocks : (2 * blocks_capacity c < U64_MOD)%N;
  so_listing : (2 * listing_capacity_entries c < U64_MOD)%N;
}.

(** The time to live of each cache, in milliseconds; zero without caches. *)
Abbreviation metadata_life c := (Caches.ttl (cache c) (metadata_ttl_ms (cache c))).
Abbreviation negative_life c := (Caches.ttl (cache c) (negative_ttl_ms (cache c))).
Abbreviation blocks_life c := (Caches.ttl (cache c) (blocks_ttl_ms (cache c))).
Abbreviation listing_life c := (Caches.ttl (cache c) (listing_ttl_ms (cache c))).

Section invariant.
Context {L : Type → Type} `{!Lru str L} `{!LruLaws str L} {R IoError : Type}.
Context (w : World (R:=R) (IoError:=IoError)) (mapper : PathMapper) (config : Config).

Abbreviation State := (GwState (L:=L) (R:=R)).
Abbreviation HH A := (H (L:=L) (R:=R) A).

(** The caches as they were created: their parameters never change. *)
Abbreviation fresh := (new_caches (L:=L) (R:=R) (cache config)).

(** ** What an entry of each cache is: an answer at a tick [t], stored at a later
    one, both before [tick] *)

Definition stat_entry (tick : nat) (p : str) (e : Entry FileMeta) : Prop :=
  ∃ t ti st, t < ti ∧ ti < tick ∧ get_file_info w t p = Ok st ∧
             value e = meta_of_status st ∧ inserted e = clock w ti.

Definition missing_entry (tick : nat) (p : str) (e : Entry unit) : Prop :=
  ∃ t ti msg, t < ti ∧ ti < tick ∧ get_file_info w t p = Err (FileNotFound msg) ∧
              inserted e = clock w ti.

(** The reader was opened after its path had the length and time on the label. *)
Definition block_entry (tick : nat) (p : str) (e : Entry (CachedReader R)) : Prop :=
  ∃ t1 t2 ti st, t1 < t2 ∧ t2 < ti ∧ ti < tick ∧ get_file_info w t1 p = Ok st ∧
    cr_length (value e) = fs_length st ∧
    cr_modification_time (value e) = fs_modification_time st ∧
    read w t2 p = Ok (cr_reader (value e)) ∧ inserted e = clock w ti.

Definition dir_entry (tick : nat) (p : str) (e : Entry DirListing) : Prop :=
  ∃ t ti sts, t < ti ∧ ti < tick ∧ list_status w t p = Ok sts ∧
              value e = listing_from_statuses sts mapper ∧ inserted e = clock w ti.

Record caches_ok (tick : nat) (cs : Caches L R) : Prop := {
  co_metadata : cache_ok (stat_entry tick) (metadata fresh) (metadata cs);
  co_negative : cache_ok (missing_entry tick) (negative fresh) (negative cs);
  co_blocks : cache_ok (block_entry tick) (blocks fresh) (blocks cs);
  co_listings : cache_ok (dir_entry tick) (Caches.dirs fresh) (Caches.dirs cs);
}.

Definition gw_inv (gw : State) : Prop := caches_ok (gw_tick gw) (gw_caches gw).

(** Time moves forward. *)
Definition later (gw gw' : State) : Prop := gw_tick gw <= gw_tick gw'.

#[export] Instance later_preorder : PreOrder later.
Proof. split; [intros gw|intros a b c]; unfold later; lia. Qed.

Lemma caches_ok_later tick tick' cs : tick <= tick' → caches_ok tick cs → caches_ok tick' cs.
Proof.
  intros Ht [H1 H2 H3 H4]. split; eapply cache_ok_mono; [|eassumption| |eassumption| |eassumption| |eassumption].
  - intros k e (t & ti & st & ? & ? & ?). exists t, ti, st. split_and!; try tauto; lia.
  - intros k e (t & ti & st & ? & ? & ?). exists t, ti, st. split_and!; try tauto; lia.
  - intros k e (t1 & t2 & ti & st & ? & ? & ? & ?). exists t1, t2, ti, st. split_and!; try tauto; lia.
  - intros k e (t & ti & st & ? & ? & ?). exists t, ti, st. split_and!; try tauto; lia.
Qed.

Lemma fresh_ok tick : sizes_ok (cache config) → caches_ok tick fresh.
Proof.
  intros [H1 H2 H3]. split; (split; [apply new_wf; unfold capacity; lia|done|done|]);
    intros k e; unfold new_caches; cbn [metadata negative blocks Caches.dirs];
    rewrite new_items; by intros ?%elem_of_nil.
Qed.

(** ** Accesses *)

(** An access keeps the invariant when it keeps the caches well formed and the
    tick moves by one. *)
Lemma on_caches_inv {A} (f : N → Caches L R → A * Caches L R) gw :
  (caches_ok (S (gw_tick gw)) (gw_caches gw) →
   caches_ok (S (gw_tick gw)) (f (clock w (gw_tick gw)) (gw_caches gw)).2) →
  gw_inv gw → gw_inv (on_caches w f gw).2 ∧ later gw (on_caches w f gw).2.
Proof.
  intros Hf Hinv. unfold on_caches. destruct (f _ _) as [a cs]. unfold gw_inv, later. simpl in *.
  split; [|lia]. apply Hf. eapply caches_ok_later; [|exact Hinv]. lia.
Qed.

Lemma tick_inv gw seq events :
  gw_inv gw → gw_inv (mkGwState (gw_caches gw) seq (S (gw_tick gw)) events).
Proof. unfold gw_inv. simpl. apply caches_ok_later. lia. Qed.

Abbreviation psafe := (safe gw_inv later).

(** An access to the caches, and a remote call, outside a handler. *)
Lemma safe_on_caches {A} s0 (f : N → Caches L R → A * Caches L R) (Q : State → A → Prop) :
  (∀ now cs, gw_tick s0 <= now → caches_ok now cs →
    (caches_ok (S now) cs → caches_ok (S now) (f (clock w now) cs).2) ∧
    ∀ s', now < gw_tick s' → Q s' (f (clock w now) cs).1) →
  psafe s0 (act (on_caches w f)) Q.
Proof.
  intros Hf. apply safe_act. intros s Hs Hl. destruct (Hf _ _ Hl Hs) as [H1 H2].
  destruct (on_caches_inv f s H1 Hs) as [G1 G2]. split_and!; [done..|]. intros s' _ Hl'.
  unfold on_caches in *. destruct (f _ _) as [a cs]. apply H2. unfold later in Hl'. simpl in *. lia.
Qed.

Lemma safe_call {A} s0 (f : nat → A) :
  psafe s0 (await (λ gw, (f (gw_tick gw), step_tick gw)))
    (λ s a, ∃ t, gw_tick s0 <= t ∧ t < gw_tick s ∧ a = f t).
Proof.
  apply safe_await; [apply _|]. apply safe_act. intros s Hs Hl.
  split_and!; [by apply tick_inv|unfold later; simpl; lia|].
  intros s' _ Hl'. exists (gw_tick s). unfold later in *. simpl in *. split_and!; [lia..|done].
Qed.

(** The judgement for a request's code: it keeps the log's identity, and its
    result satisfies [Q]. *)
Definition hoare {A} (s0 : State) (log : RequestLog) (c : HH A)
    (Q : State → result A S3Error → Prop) : Prop :=
  psafe s0 (c log) (λ s r, request_id r.2 = request_id log ∧ Q s r.1).

Lemma hoare_mono {A} s0 log (c : HH A) (Q Q' : State → result A S3Error → Prop) :
  (∀ s r, later s0 s → Q s r → Q' s r) → hoare s0 log c Q → hoare s0 log c Q'.
Proof. intros HQ. apply safe_mono; [apply _|]. intros s a Hs [H1 H2]. auto. Qed.

Lemma hoare_ret {A} s0 log (a : A) (Q : State → result A S3Error → Prop) :
  (∀ s, later s0 s → Q s (Ok a)) → hoare s0 log (ret a) Q.
Proof. intros HQ s _ Hs. split; [done|]. auto. Qed.

Lemma hoare_fail {A} s0 log e (Q : State → result A S3Error → Prop) :
  (∀ s, later s0 s → Q s (Err (attach_error_request_id (header_value w) (request_id log) e))) →
  hoare s0 log (fail w e) Q.
Proof. intros HQ s _ Hs. split; [done|]. auto. Qed.

(** An error of the first part is the whole's; what it satisfies must hold later. *)
Lemma hoare_bind {A B} s0 log (c : HH A) (k : A → HH B) Q Q' :
  hoare s0 log c Q' →
  (∀ s log' a, gw_inv s → later s0 s → request_id log' = request_id log → Q' s (Ok a) →
    hoare s log' (k a) Q) →
  (∀ s s' e, later s0 s → later s s' → Q' s (Err e) → Q s' (Err e)) →
  hoare s0 log (bind c k) Q.
Proof.
  intros Hc Hk He. unfold hoare, bind. eapply safe_bind; [apply _|exact Hc|].
  intros s [[a|e] log'] Hs Hl [Hid HQ]; cbn [fst snd] in *.
  - eapply safe_mono; [apply _| |by apply Hk]. intros s' r _ [H1 H2]. by rewrite H1.
  - intros s' _ Hl'. split; [done|]. eauto.
Qed.

Lemma hoare_access {A} s0 log (f : State → A * State) (Q : State → result A S3Error → Prop) :
  (∀ s, gw_inv s → later s0 s →
    gw_inv (f s).2 ∧ later s (f s).2 ∧ ∀ s', later (f s).2 s' → Q s' (Ok (f s).1)) →
  hoare s0 log (access f) Q.
Proof.
  intros Hf. unfold hoare, access. intros s Hs Hl. destruct (Hf s Hs Hl) as (H1 & H2 & H3).
  split_and!; [done..| |done]. intros s' _ Hl'. auto.
Qed.

(** A program of its own, during which the request may be dropped. *)
Lemma hoare_lift {A} s0 log (p : Prog State A) (Q : State → A → Prop) :
  (∀ s s' a, later s s' → Q s a → Q s' a) → psafe s0 p Q →
  hoare s0 log (lift p) (λ s r, ∃ a, r = Ok a ∧ Q s a).
Proof.
  intros HQ Hp. unfold hoare, lift. eapply safe_bind; [apply _|apply safe_owning; [|exact Hp]|].
  - intros s Hs. split; [by apply tick_inv|unfold later; simpl; lia].
  - intros s a _ _ Ha s' _ Hs'. split; [done|]. exists a. eauto.
Qed.

Lemma hoare_call {A} s0 log (f : nat → A) :
  hoare s0 log (call f)
    (λ s r, ∃ a, r = Ok a ∧ ∃ t, gw_tick s0 <= t ∧ t < gw_tick s ∧ a = f t).
Proof.
  apply (hoare_lift _ _ _ (λ s a, ∃ t, gw_tick s0 <= t ∧ t < gw_tick s ∧ a = f t)); [|apply safe_call].
  intros s s' a Hs (t & H1 & H2 & ->). exists t. unfold later in Hs. split_and!; [lia..|done].
Qed.

Lemma hoare_clock {A} s0 log (f : nat → A) :
  hoare s0 log (read_clock f)
    (λ s r, ∃ a, r = Ok a ∧ ∃ t, gw_tick s0 <= t ∧ t < gw_tick s ∧ a = f t).
Proof.
  apply hoare_access. intros s Hs Hl. split_and!; [by apply tick_inv|unfold later; simpl; lia|].
  intros s' Hl'. eexists. split; [done|]. exists (gw_tick s). unfold later in *. simpl in *. split_and!; [lia..|done].
Qed.

Lemma hoare_on_caches {A} s0 log (f : N → Caches L R → A * Caches L R)
    (Q : State → result A S3Error → Prop) :
  (∀ now cs, gw_tick s0 <= now → caches_ok now cs →
    (caches_ok (S now) cs → caches_ok (S now) (f (clock w now) cs).2) ∧
    ∀ s', now < gw_tick s' → Q s' (Ok (f (clock w now) cs).1)) →
  hoare s0 log (access (on_caches w f)) Q.
Proof.
  intros Hf. apply hoare_access. intros s Hs Hl. destruct (Hf _ _ Hl Hs) as [H1 H2].
  destruct (on_caches_inv f s H1 Hs) as [G1 G2]. split_and!; [done..|]. intros s' Hl'.
  unfold on_caches in *. destruct (f _ _) as [a cs]. apply H2. unfold later in Hl'. simpl in *. lia.
Qed.

(** ** What a request may have seen *)

(** A cached answer, read during the request and younger than its time to live. *)
Definition hit {V} (ttl : N) (P : nat → str → Entry V → Prop) (since tick : nat) (p : str) (v : V) :
    Prop :=
  ∃ e now, P now p e ∧ value e = v ∧ since <= now ∧ now < tick ∧ (clock w now - inserted e < ttl)%N.

Lemma hit_later {V} ttl (P : nat → str → Entry V → Prop) since tick tick' p v :
  tick <= tick' → hit ttl P since tick p v → hit ttl P since tick' p v.
Proof. intros Ht (e & now & ? & ? & ? & ? & ?). exists e, now. split_and!; try done; lia. Qed.

Lemma hit_since {V} ttl (P : nat → str → Entry V → Prop) since since' tick p v :
  since <= since' → hit ttl P since' tick p v → hit ttl P since tick p v.
Proof. intros Ht (e & now & ? & ? & ? & ? & ?). exists e, now. split_and!; try done; lia. Qed.

(** A lookup in one of the caches, by its projection and its setter. *)
Lemma hoare_lookup {V} (P : nat → str → Entry V → Prop) (c0 : TtlCache L V) field set s0 log p :
  (∀ tick cs, caches_ok tick cs → cache_ok (P tick) c0 (field cs)) →
  (∀ tick c cs, caches_ok tick cs → cache_ok (P tick) c0 c → caches_ok tick (set c cs)) →
  hoare s0 log
    (access (on_caches w (λ now cs, let '(v, c) := cache_get now p (field cs) in (v, set c cs))))
    (λ s r, ∃ v, r = Ok v ∧ ∀ m, v = Some m → hit (Cache.ttl c0) P (gw_tick s0) (gw_tick s) p m).
Proof.
  intros Hf Hset. apply hoare_on_caches. intros now cs Hn Hcs. split.
  - intros H. pose proof (cache_ok_get _ _ _ (clock w now) p (Hf _ _ H)) as Hg.
    destruct (cache_get _ p _) as [v c]. by apply Hset.
  - intros s' Hl.
    destruct (cache_get (clock w now) p (field cs)) as [v c] eqn:Eg. cbn [fst].
    exists v. split; [done|]. intros m ->.
    destruct (cache_ok_hit _ _ _ (clock w now) p m (Hf _ _ Hcs)) as (e & He & Hv & Ha); [by rewrite Eg|]. by exists e, now.
Qed.

Lemma hoare_metadata_get s0 log p :
  hoare s0 log (metadata_get w p) (λ s r, ∃ v, r = Ok v ∧
    ∀ m, v = Some m → hit (metadata_life config) stat_entry (gw_tick s0) (gw_tick s) p m).
Proof.
  apply (hoare_lookup _ (metadata fresh) metadata set_metadata); [by intros ? ? []|intros ? ? ? []; by split].
Qed.

Lemma hoare_negative_get s0 log p :
  hoare s0 log (negative_get w p) (λ s r, ∃ v, r = Ok v ∧
    ∀ m, v = Some m → hit (negative_life config) missing_entry (gw_tick s0) (gw_tick s) p m).
Proof.
  apply (hoare_lookup _ (negative fresh) negative set_negative); [by intros ? ? []|intros ? ? ? []; by split].
Qed.

Lemma hoare_blocks_get s0 log p :
  hoare s0 log (blocks_get w p) (λ s r, ∃ v, r = Ok v ∧
    ∀ m, v = Some m → hit (blocks_life config) block_entry (gw_tick s0) (gw_tick s) p m).
Proof.
  apply (hoare_lookup _ (blocks fresh) blocks set_blocks); [by intros ? ? []|intros ? ? ? []; by split].
Qed.

Lemma hoare_metadata_insert s0 log p m :
  (∃ t st, t < gw_tick s0 ∧ get_file_info w t p = Ok st ∧ m = meta_of_status st) →
  hoare s0 log (metadata_insert w p m) (λ _ r, r = Ok tt).
Proof.
  intros (t & st & Ht & Hg & ->). apply hoare_on_caches. intros now cs Hn Hcs. split; [|done].
  intros [H1 H2 H3 H4]. split; [|done..]. apply cache_ok_insert; [|done].
  exists t, now, st. split_and!; try done; lia.
Qed.

Lemma hoare_negative_insert s0 log p :
  (∃ t msg, t < gw_tick s0 ∧ get_file_info w t p = Err (FileNotFound msg)) →
  hoare s0 log (negative_insert w p) (λ _ r, r = Ok tt).
Proof.
  intros (t & msg & Ht & Hg). apply hoare_on_caches. intros now cs Hn Hcs. split; [|done].
  intros [H1 H2 H3 H4]. split; [done| |done..]. apply cache_ok_insert; [|done].
  exists t, now, msg. split_and!; try done; lia.
Qed.

Lemma hoare_blocks_insert s0 log p r :
  (∃ t1 t2 st, t1 < t2 ∧ t2 < gw_tick s0 ∧ get_file_info w t1 p = Ok st ∧
     cr_length r = fs_length st ∧ cr_modification_time r = fs_modification_time st ∧
     read w t2 p = Ok (cr_reader r)) →
  hoare s0 log (blocks_insert w p r) (λ _ r, r = Ok tt).
Proof.
  intros (t1 & t2 & st & H12 & Ht & Hg & El & Em & Hr). apply hoare_on_caches.
  intros now cs Hn Hcs. split; [|done]. intros [H1 H2 H3 H4]. split; [done..| |done].
  apply cache_ok_insert; [|done]. exists t1, t2, now, st. split_and!; try done; lia.
Qed.

Lemma hoare_metadata_remove s0 log p :
  hoare s0 log (metadata_remove w p) (λ _ r, r = Ok tt).
Proof.
  apply hoare_on_caches. intros now cs Hn Hcs. split; [|done].
  intros [H1 H2 H3 H4]. split; [by apply cache_ok_remove|done..].
Qed.

Lemma hoare_blocks_remove s0 log p :
  hoare s0 log (blocks_remove w p) (λ _ r, r = Ok tt).
Proof.
  apply hoare_on_caches. intros now cs Hn Hcs. split; [|done].
  intros [H1 H2 H3 H4]. split; [done..|by apply cache_ok_remove|done].
Qed.
End invariant.
