(* ===== verification/Objects.v ===== *)
(** What the object operations promise, and that they keep it.

    [object_result], [head_result] and [get_result] are the specification: every
    answer of [HeadObject] and [GetObject] in terms of what HDFS answered during
    the request, or less than a time to live before it. The lemmas show that the
    handlers refine it, whatever runs between their accesses. *)

From S2P Require Import Prelude Prog Bytes Config Path Range Metadata HdfsError Listing.
From S2P Require Import Cache Caches SortedListing Gateway ListObjects Invariant.

Section objects.
Context {L : Type → Type} `{!Lru str L} `{!LruLaws str L} {R IoError : Type}.
Context (w : World (R:=R) (IoError:=IoError)) (mapper : PathMapper) (config : Config).

Abbreviation State := (GwState (L:=L) (R:=R)).
Abbreviation HH A := (H (L:=L) (R:=R) A).
Abbreviation gw_inv := (gw_inv (L:=L) w mapper config).
Abbreviation psafe := (safe gw_inv later).
Abbreviation hoare := (hoare (L:=L) w mapper config).
Abbreviation mapped e := (map_hdfs_error (hdfs_to_string w) e (expose_upstream_errors config)).

(** ** Observations *)

(** The status of a path, as HDFS gave it during the request or as cached. *)
Definition stat_seen (since tick : nat) (p : str) (m : FileMeta) : Prop :=
  (∃ t st, since <= t ∧ t < tick ∧ get_file_info w t p = Ok st ∧ m = meta_of_status st) ∨
  hit w (metadata_life config) (stat_entry w) since tick p m.

Definition missing_seen (since tick : nat) (p : str) : Prop :=
  (∃ t msg, since <= t ∧ t < tick ∧ get_file_info w t p = Err (FileNotFound msg)) ∨
  hit w (negative_life config) (missing_entry w) since tick p tt.

(** A reader opened after the path had the length and time of [m]: during the
    request or as cached. *)
Definition reader_seen (since tick : nat) (p : str) (m : FileMeta) (r : R) : Prop :=
  ∃ t1 t2 st, t1 < t2 ∧ t2 < tick ∧ get_file_info w t1 p = Ok st ∧
    fs_length st = fm_length m ∧ fs_modification_time st = fm_modification_time m ∧
    read w t2 p = Ok r ∧
    (since <= t2 ∨
     hit w (blocks_life config) (block_entry w) since tick p
       (mkCachedReader r (fm_length m) (fm_modification_time m))).

Inductive meta_result (since tick : nat) (p : str) : result FileMeta S3Error → Prop :=
| meta_found m : stat_seen since tick p m → meta_result since tick p (Ok m)
| meta_missing : missing_seen since tick p → meta_result since tick p (Err (s3_error NoSuchKey))
| meta_failed t e :
    since <= t → t < tick → get_file_info w t p = Err e → (∀ msg, e ≠ FileNotFound msg) →
    meta_result since tick p (Err (mapped e)).

Inductive open_result (since tick : nat) (p : str) (m : FileMeta) : result R S3Error → Prop :=
| open_reused_or_read r : reader_seen since tick p m r → open_result since tick p m (Ok r)
| open_failed t e :
    since <= t → t < tick → read w t p = Err e → open_result since tick p m (Err (mapped e)).

(** The object a bucket and key name. *)
Inductive object_result (since tick : nat) (bucket key : str) :
    result (str * FileMeta) S3Error → Prop :=
| object_bucket :
    bucket ≠ Path.bucket mapper → object_result since tick bucket key (Err (s3_error NoSuchBucket))
| object_key :
    bucket = Path.bucket mapper → key_to_hdfs_path mapper key = None →
    object_result since tick bucket key (Err (s3_error NoSuchKey))
| object_error p e :
    bucket = Path.bucket mapper → key_to_hdfs_path mapper key = Some p →
    meta_result since tick p (Err e) → object_result since tick bucket key (Err e)
| object_dir p m :
    bucket = Path.bucket mapper → key_to_hdfs_path mapper key = Some p →
    stat_seen since tick p m → fm_isdir m = true →
    object_result since tick bucket key (Err (s3_error NoSuchKey))
| object_file p m :
    bucket = Path.bucket mapper → key_to_hdfs_path mapper key = Some p →
    stat_seen since tick p m → fm_isdir m = false →
    object_result since tick bucket key (Ok (p, m)).

Abbreviation object_etag m := (Strong (fallback_etag (fm_length m) (fm_modification_time m))).
Abbreviation last_modified m := (millis_to_timestamp (fm_modification_time m)).
Abbreviation checks c m := (preconditions w c (object_etag m) (last_modified m)).
Abbreviation type_of p := (content_type (mime_first w) (from_hdfs p 0 false 0 None)).

Inductive head_result (since tick : nat) (i : HeadObjectInput) :
    result HeadObjectOutput S3Error → Prop :=
| head_unresolved e :
    object_result since tick (ho_bucket i) (ho_key i) (Err e) → head_result since tick i (Err e)
| head_precondition p m c :
    object_result since tick (ho_bucket i) (ho_key i) (Ok (p, m)) →
    checks (ho_conditions i) m = Some c → head_result since tick i (Err (s3_error c))
| head_found p m :
    object_result since tick (ho_bucket i) (ho_key i) (Ok (p, m)) →
    checks (ho_conditions i) m = None →
    head_result since tick i (Ok (mkHeadObjectOutput $"bytes" (as_i64 (fm_length m)) (type_of p)
                                    (last_modified m) (object_etag m))).

(** The bytes a response carries: all of the file, or those the range asks
    for, with the [Content-Range] that names them. *)
Definition window_of (len : N) (range : option RangeHeader) (s e : N) (cr : option str) : Prop :=
  match range with
  | None => s = 0%N ∧ e = len ∧ cr = None
  | Some range =>
      (s < e)%N ∧ (e <= len)%N ∧
      (∀ i, (s <= i < e)%N ↔ (i < len)%N ∧ requested (to_byte_range range) len i) ∧
      cr = Some (fmt_content_range s (e - 1) len)
  end.

Inductive get_result (since tick : nat) (i : GetObjectInput) :
    result (GetObjectOutput R) S3Error → Prop :=
| get_unresolved e :
    object_result since tick (go_bucket i) (go_key i) (Err e) → get_result since tick i (Err e)
| get_precondition p m c :
    object_result since tick (go_bucket i) (go_key i) (Ok (p, m)) →
    checks (go_conditions i) m = Some c → get_result since tick i (Err (s3_error c))
| get_range p m range :
    object_result since tick (go_bucket i) (go_key i) (Ok (p, m)) →
    checks (go_conditions i) m = None → go_range i = Some range →
    resolve_range (fm_length m) (to_byte_range range) = None →
    get_result since tick i (Err (s3_error InvalidRange))
| get_open p m e :
    object_result since tick (go_bucket i) (go_key i) (Ok (p, m)) →
    checks (go_conditions i) m = None → open_result since tick p m (Err e) →
    get_result since tick i (Err e)
| get_shrunk p m r s e cr :
    object_result since tick (go_bucket i) (go_key i) (Ok (p, m)) →
    checks (go_conditions i) m = None → window_of (fm_length m) (go_range i) s e cr →
    open_result since tick p m (Ok r) → (reader_length w r < e)%N →
    get_result since tick i (Err (s3_error InternalError))
| get_served p m r s e cr :
    object_result since tick (go_bucket i) (go_key i) (Ok (p, m)) →
    checks (go_conditions i) m = None → window_of (fm_length m) (go_range i) s e cr →
    open_result since tick p m (Ok r) → (e <= reader_length w r)%N →
    get_result since tick i (Ok (mkGetObjectOutput $"bytes" (mkGetBody r p s (e - s))
      (as_i64 (e - s)) cr (last_modified m) (object_etag m) (type_of p))).

(** ** What was seen stays seen *)

Lemma stat_seen_later since since' tick tick' p m :
  since' <= since → tick <= tick' → stat_seen since tick p m → stat_seen since' tick' p m.
Proof.
  intros Hs Ht [(t & st & ? & ? & ?)|Hh]; [left; exists t, st; split_and!; try tauto; lia|right].
  by eapply hit_since, hit_later.
Qed.

Lemma missing_seen_later since since' tick tick' p :
  since' <= since → tick <= tick' → missing_seen since tick p → missing_seen since' tick' p.
Proof.
  intros Hs Ht [(t & msg & ? & ? & ?)|Hh]; [left; exists t, msg; split_and!; try tauto; lia|right].
  by eapply hit_since, hit_later.
Qed.

Lemma reader_seen_later since since' tick tick' p m r :
  since' <= since → tick <= tick' → reader_seen since tick p m r → reader_seen since' tick' p m r.
Proof.
  intros Hs Ht (t1 & t2 & st & ? & ? & ? & ? & ? & ? & Hh). exists t1, t2, st.
  split_and!; try done; [lia|]. destruct Hh as [?|Hh]; [left; lia|right].
  by eapply hit_since, hit_later.
Qed.

Lemma meta_result_later since since' tick tick' p r :
  since' <= since → tick <= tick' → meta_result since tick p r → meta_result since' tick' p r.
Proof.
  intros Hs Ht [m Hm|Hm|t e ? ? ? ?]; [apply meta_found|apply meta_missing|apply (meta_failed _ _ _ t)];
    eauto using stat_seen_later, missing_seen_later with lia.
Qed.

Lemma open_result_later since since' tick tick' p m r :
  since' <= since → tick <= tick' → open_result since tick p m r → open_result since' tick' p m r.
Proof.
  intros Hs Ht [x Hm|t e ? ? ?]; [apply open_reused_or_read|apply (open_failed _ _ _ _ t)];
    eauto using reader_seen_later with lia.
Qed.

Lemma object_result_later since since' tick tick' b k r :
  since' <= since → tick <= tick' → object_result since tick b k r → object_result since' tick' b k r.
Proof.
  intros Hs Ht []; [by apply object_bucket|by apply object_key|eapply object_error|
                    eapply object_dir|apply object_file];
    eauto using stat_seen_later, meta_result_later.
Qed.

Lemma head_result_later since tick tick' i r :
  tick <= tick' → head_result since tick i r → head_result since tick' i r.
Proof.
  intros Ht []; [eapply head_unresolved|eapply head_precondition|eapply head_found];
    eauto using object_result_later.
Qed.

Lemma get_result_later since tick tick' i r :
  tick <= tick' → get_result since tick i r → get_result since tick' i r.
Proof.
  intros Ht []; [eapply get_unresolved|eapply get_precondition|eapply get_range|eapply get_open|
                 eapply get_shrunk|eapply get_served];
    eauto using object_result_later, open_result_later.
Qed.

(** A status that was seen was once the answer of HDFS. *)
Lemma stat_seen_once since tick p m :
  stat_seen since tick p m →
  ∃ t st, t < tick ∧ get_file_info w t p = Ok st ∧ m = meta_of_status st.
Proof.
  intros [(t & st & ? & ? & ? & ?)|(e & now & (t & ti & st & ? & ? & ? & ? & ?) & ? & ? & ? & ?)];
    exists t, st; split_and!; try done; [lia|congruence].
Qed.

(** ** The handlers *)

Abbreviation attach := (attach_error_request_id (header_value w)).

(** A result whose error carries the request id. *)
Definition tagged {A} (id : str) (P : result A S3Error → Prop) (r : result A S3Error) : Prop :=
  match r with
  | Ok a => P (Ok a)
  | Err e => ∃ e0, e = attach id e0 ∧ P (Err e0)
  end.

Lemma hoare_fail_tagged {A} s0 log e (P : State → result A S3Error → Prop) :
  (∀ s, later s0 s → P s (Err e)) →
  hoare s0 log (fail w e) (λ s, tagged (request_id log) (P s)).
Proof. intros HP. apply hoare_fail. intros s Hs. exists e. auto. Qed.

(** One step of a handler: what it returns is bound, an error it raises is the
    handler's. *)
Lemma hoare_step {A B} s0 log (c : HH A) (k : A → HH B) (P : State → result A S3Error → Prop)
    (Q : State → result B S3Error → Prop) :
  hoare s0 log c (λ s, tagged (request_id log) (P s)) →
  (∀ s log' a, later s0 s → request_id log' = request_id log → P s (Ok a) →
    hoare s log' (k a) (λ s', tagged (request_id log') (Q s'))) →
  (∀ s s' e, later s0 s → later s s' → P s (Err e) → Q s' (Err e)) →
  hoare s0 log (bind c k) (λ s, tagged (request_id log) (Q s)).
Proof.
  intros Hc Hk He. eapply hoare_bind; [exact Hc| |].
  - intros s log' a _ Hl Hid HP. rewrite <- Hid. eauto.
  - intros s s' e Hl Hl' (e0 & -> & HP). exists e0. eauto.
Qed.

(** A step that cannot fail. *)
Lemma hoare_then {A B} s0 log (c : HH A) (k : A → HH B) (P : State → A → Prop) Q :
  hoare s0 log c (λ s r, ∃ a, r = Ok a ∧ P s a) →
  (∀ s log' a, later s0 s → request_id log' = request_id log → P s a →
    hoare s log' (k a) Q) →
  hoare s0 log (bind c k) Q.
Proof.
  intros Hc Hk. eapply hoare_bind; [exact Hc| |].
  - intros s log' a _ Hl Hid (a' & [= <-] & HP). eauto.
  - by intros s s' e _ _ (a & ? & _).
Qed.

Lemma hoare_unit s0 log (c : HH unit) :
  hoare s0 log c (λ _ r, r = Ok tt) → hoare s0 log c (λ _ r, ∃ a, r = Ok a ∧ True).
Proof. apply hoare_mono. intros s r _ ->. by exists tt. Qed.

Lemma hoare_set_path s0 log p : hoare s0 log (set_path p) (λ _ r, ∃ a, r = Ok a ∧ True).
Proof. apply hoare_unit. by intros s _ _. Qed.

Lemma hoare_set_bytes s0 log n : hoare s0 log (set_bytes n) (λ _ r, ∃ a, r = Ok a ∧ True).
Proof. apply hoare_unit. by intros s _ _. Qed.

Lemma file_meta_ok s0 log p :
  hoare s0 log (file_meta w config p)
    (λ s, tagged (request_id log) (meta_result (gw_tick s0) (gw_tick s) p)).
Proof.
  unfold file_meta. eapply hoare_then; [apply hoare_metadata_get|].
  intros s1 log1 [m|] H1 E1 Hm.
  { apply hoare_ret. intros s Hs. apply meta_found. right. eapply hit_later; [exact Hs|auto]. }
  eapply hoare_then; [apply hoare_negative_get|]. rewrite <- E1. intros s2 log2 [[]|] H2 E2 Hn.
  { rewrite <- E2. apply hoare_fail_tagged. intros s Hs. apply meta_missing. right.
    eapply hit_since, hit_later; [exact H1|exact Hs|auto]. }
  eapply hoare_then; [apply hoare_call|].
  intros s3 log3 r H3 E3 (t & Hb & Ht & Er). rewrite <- E2, <- E3. unfold later in *.
  destruct r as [st|e].
  - eapply hoare_then; [apply hoare_unit, hoare_metadata_insert; by exists t, st|].
    intros s4 log4 [] H4 E4 _. unfold later in *. apply hoare_ret. intros s Hs. unfold later in *.
    apply meta_found. left. exists t, st. split_and!; try done; lia.
  - destruct e as [msg| | | | | | | | | | |];
      try (apply hoare_fail_tagged; intros s Hs; unfold later in *;
           apply (meta_failed _ _ _ t); [lia|lia|done|done]).
    eapply hoare_then; [apply hoare_unit, hoare_negative_insert; by exists t, msg|].
    intros s4 log4 [] H4 E4 _. rewrite <- E4. apply hoare_fail_tagged. intros s Hs.
    unfold later in *. apply meta_missing. left. exists t, msg. split_and!; try done; lia.
Qed.

Lemma open_reader_ok s0 log p m :
  (∃ t st, t < gw_tick s0 ∧ get_file_info w t p = Ok st ∧ m = meta_of_status st) →
  hoare s0 log (open_reader w config p m)
    (λ s, tagged (request_id log) (open_result (gw_tick s0) (gw_tick s) p m)).
Proof.
  intros (t1 & st & Ht1 & Hst & Em). unfold open_reader. cbv zeta.
  set (open := bind (call (λ t, read w t p)) _).
  assert (∀ s log', later s0 s → request_id log' = request_id log →
            hoare s log' open
              (λ s, tagged (request_id log') (open_result (gw_tick s0) (gw_tick s) p m))) as Hopen.
  { intros s1 log1 H1 E1. subst open. eapply hoare_then; [apply hoare_call|].
    intros s2 log2 r H2 E2 (t & Hb & Ht & Er). unfold later in *. rewrite <- E2. destruct r as [r|e].
    - eapply hoare_then.
      { apply hoare_unit, hoare_blocks_insert. exists t1, t, st. rewrite Em. split_and!; done || lia. }
      intros s3 log3 [] H3 E3 _. apply hoare_ret. unfold later in *. intros s Hs. unfold later in *.
      apply open_reused_or_read. exists t1, t, st. rewrite Em. split_and!; try done; lia.
    - eapply hoare_then; [apply hoare_unit, hoare_metadata_remove|].
      intros s3 log3 [] H3 E3 _. rewrite <- E3. apply hoare_fail_tagged.
      unfold later in *. intros s Hs. unfold later in *.
      apply (open_failed _ _ _ _ t); done || lia. }
  eapply hoare_then; [apply hoare_blocks_get|].
  intros s1 log1 [c|] H1 E1 Hc; [|rewrite <- E1; by apply Hopen].
  destruct (N.eqb_spec (cr_length c) (fm_length m)) as [El|]; cbn [andb].
  2: { eapply hoare_then; [apply hoare_unit, hoare_blocks_remove|]. intros s2 log2 [] H2 E2 _.
       rewrite <- E1, <- E2. apply Hopen; [by transitivity s1|congruence]. }
  destruct (N.eqb_spec (cr_modification_time c) (fm_modification_time m)) as [Et|].
  2: { eapply hoare_then; [apply hoare_unit, hoare_blocks_remove|]. intros s2 log2 [] H2 E2 _.
       rewrite <- E1, <- E2. apply Hopen; [by transitivity s1|congruence]. }
  apply hoare_ret. intros s Hs. apply open_reused_or_read. unfold later in *.
  pose proof (Hc _ eq_refl) as (e & now & Hbe & Hv & Hs1 & Hs2 & Hage).
  pose proof Hbe as (u1 & u2 & ti & st' & ? & ? & ? & Hg & G1 & G2 & Hr & Hi).
  rewrite Hv in G1, G2, Hr. exists u1, u2, st'. split_and!; try congruence; [lia..|].
  right. exists e, now. rewrite <- El, <- Et. split_and!; try done; [by destruct c|lia].
Qed.

Lemma resolve_object_ok s0 log bucket key :
  hoare s0 log (resolve_object w mapper config bucket key)
    (λ s, tagged (request_id log) (object_result (gw_tick s0) (gw_tick s) bucket key)).
Proof.
  unfold resolve_object. destruct (bool_decide (bucket = Path.bucket mapper)) eqn:Eb; cbn [negb].
  2: { apply bool_decide_eq_false in Eb. apply hoare_fail_tagged. intros s Hs. by apply object_bucket. }
  apply bool_decide_eq_true in Eb. destruct (key_to_hdfs_path mapper key) as [p|] eqn:Ek.
  2: { apply hoare_fail_tagged. intros s Hs. by apply object_key. }
  eapply hoare_then; [apply hoare_set_path|]. intros s1 log1 [] H1 E1 _. rewrite <- E1.
  eapply hoare_step; [apply file_meta_ok| |].
  - intros s2 log2 m H2 E2 Hm. unfold later in *. inversion Hm as [? Hseen| |]; subst.
    destruct (fm_isdir m) eqn:Ed.
    + apply hoare_fail_tagged. intros s Hs. unfold later in *.
      eapply object_dir; eauto using stat_seen_later.
    + apply hoare_ret. intros s Hs. unfold later in *. cbn [tagged].
      apply object_file; eauto using stat_seen_later.
  - intros s2 s e H2 Hs He. unfold later in *. eapply object_error; eauto using meta_result_later.
Qed.

(** ** Whole requests *)

Definition response {A} (id : str) (a : A) : S3Response A :=
  mkS3Response a (match header_value w id with Some v => [(request_id_header, v)] | None => [] end).

(** An answer with the request id [id] on it. *)
Definition answered {A} (id : str) (P : result A S3Error → Prop)
    (r : result (S3Response A) S3Error) : Prop :=
  match r with
  | Ok resp => ∃ a, resp = response id a ∧ P (Ok a)
  | Err e => ∃ e0, e = attach id e0 ∧ P (Err e0)
  end.

Lemma hoare_fail_answered {A} s0 log e (P : State → result A S3Error → Prop) :
  (∀ s, later s0 s → P s (Err e)) →
  hoare s0 log (fail w e) (λ s, answered (request_id log) (P s)).
Proof. intros HP. apply hoare_fail. intros s Hs. exists e. auto. Qed.

Lemma hoare_respond {A} s0 log (a : A) (P : State → result A S3Error → Prop) :
  (∀ s, later s0 s → P s (Ok a)) →
  hoare s0 log (respond w a) (λ s, answered (request_id log) (P s)).
Proof.
  intros HP s _ Hs. unfold with_request_id, response. cbn [fst snd request_id]. split; [done|].
  exists a. split; [|auto]. unfold response. by destruct (header_value w (request_id log)).
Qed.

(** The last part of a handler answers; an error of the first is the answer. *)
Lemma hoare_answer {A B} s0 log (c : HH A) (k : A → HH (S3Response B))
    (P : State → result A S3Error → Prop) (Q : State → result B S3Error → Prop) :
  hoare s0 log c (λ s, tagged (request_id log) (P s)) →
  (∀ s log' a, gw_inv s → later s0 s → request_id log' = request_id log → P s (Ok a) →
    hoare s log' (k a) (λ s', answered (request_id log') (Q s'))) →
  (∀ s s' e, later s0 s → later s s' → P s (Err e) → Q s' (Err e)) →
  hoare s0 log (bind c k) (λ s, answered (request_id log) (Q s)).
Proof.
  intros Hc Hk He. eapply hoare_bind; [exact Hc| |].
  - intros s log' a Hi Hl Hid HP. rewrite <- Hid. eauto.
  - intros s s' e Hl Hl' (e0 & -> & HP). exists e0. eauto.
Qed.

Lemma push_event_ok s0 e (Q : State → unit → Prop) :
  (∀ s, later s0 s → Q s tt) → psafe s0 (push_event e) Q.
Proof.
  intros HQ. apply safe_act. intros s Hs Hl. split_and!; [by apply tick_inv|unfold later; simpl; lia|].
  intros s' _ Hl'. apply HQ. unfold later in *. simpl in *. lia.
Qed.

Lemma new_log_ok s0 op : psafe s0 (new_log w op) (λ _ _, True).
Proof.
  unfold new_log, new_request_id. eapply safe_bind; [apply _| |].
  - eapply (safe_bind _ _ _ _ _ _ (λ _ _, True)); [apply safe_act|].
    { intros s Hs Hl. split_and!; [by apply tick_inv|unfold later; simpl; lia|done]. }
    intros s micros _ _ _. eapply (safe_bind _ _ _ _ _ _ (λ _ _, True)); [apply safe_act|].
    { intros s' Hs Hl. split_and!; [by apply tick_inv|unfold later; simpl; lia|done]. }
    intros s' seq _ _ _. by apply (safe_done _ _ _ _ (λ _ _, True)).
  - intros s id _ _ _. eapply (safe_bind _ _ _ _ _ _ (λ _ _, True)); [by apply push_event_ok|].
    intros s' [] _ _ _. by apply safe_done.
Qed.

(** What the body promises with the id of its log, the request promises. *)
Lemma request_ok {A} op (body : HH (S3Response A)) s0 (P : nat → result A S3Error → Prop) :
  (∀ s log, later s0 s → hoare s log body (λ s', answered (request_id log) (P (gw_tick s')))) →
  (∀ t t' r, t <= t' → P t r → P t' r) →
  psafe s0 (request w op body) (λ s r, ∃ id, answered id (P (gw_tick s)) r).
Proof.
  intros Hbody Hstable. unfold request. eapply (safe_bind _ _ _ _ _ _ (λ _ _, True)).
  { apply safe_await; [apply _|]. apply safe_act. intros s Hs _. split_and!; [done|reflexivity|done]. }
  intros s1 [] _ Hl1 _. eapply safe_bind; [apply _|apply new_log_ok|].
  intros s log _ Hl2 _. assert (later s0 s) as Hl by (by transitivity s1). eapply safe_bind; [apply _|by apply Hbody|].
  intros s' [r log'] _ Hl' [_ Hr]. cbn [fst snd] in *.
  eapply (safe_bind _ _ _ _ _ _ (λ _ _, True)); [by apply push_event_ok|]. intros s2 [] _ H2 _.
  apply safe_done. intros s3 _ H3. exists (request_id log). unfold later in *.
  destruct r as [resp|e]; cbn [answered] in *.
  - destruct Hr as (a & ? & HP). exists a. split; [done|]. eapply Hstable; [|exact HP]. lia.
  - destruct Hr as (e0 & ? & HP). exists e0. split; [done|]. eapply Hstable; [|exact HP]. lia.
Qed.

Lemma head_object_ok s0 input :
  psafe s0 (head_object w mapper config input)
    (λ s r, ∃ id, answered id (head_result (gw_tick s0) (gw_tick s) input) r).
Proof.
  unfold head_object. apply (request_ok _ _ _ (λ t, head_result (gw_tick s0) t input)); [|intros; by eapply head_result_later].
  intros s log Hl. eapply hoare_answer; [apply resolve_object_ok| |].
  - intros s1 log1 [p m] _ H1 E1 Hobj.
    assert (object_result (gw_tick s0) (gw_tick s1) (ho_bucket input) (ho_key input) (Ok (p, m)))
      as Hobj' by (eapply object_result_later; [exact Hl|reflexivity|exact Hobj]).
    clear Hobj. destruct (preconditions _ _ _ _) as [c|] eqn:Ep.
    + apply hoare_fail_answered. intros s' Hs. eapply head_precondition; [|exact Ep].
      eapply object_result_later; [|exact Hs|exact Hobj']. reflexivity.
    + apply hoare_respond. intros s' Hs. eapply head_found; [|exact Ep].
      eapply object_result_later; [|exact Hs|exact Hobj']. reflexivity.
  - intros s1 s2 e H1 H2 He. apply head_unresolved. by eapply object_result_later.
Qed.

(** The window [get_object] computes, in words of 64 bits. *)
Lemma resolve_window_ok len range :
  (len < U64_MOD)%N →
  match resolve_window len range with
  | Some (s, e, n, cr) => window_of len range s e cr ∧ n = (e - s)%N ∧ (s <= e)%N ∧ (e <= len)%N
  | None => ∃ r, range = Some r ∧ resolve_range len (to_byte_range r) = None
  end.
Proof.
  intros Hl. destruct range as [range|]; cbn [resolve_window]; [|cbn [window_of]; split_and!; lia || done].
  destruct (resolve_range len (to_byte_range range)) as [[s e]|] eqn:E; [|eauto]. cbv zeta.
  destruct (resolve_range_window _ _ _ _ Hl E) as (H1 & H2 & H3).
  rewrite !u64_sub_exact by lia. cbn [window_of]. split_and!; try lia; [apply H3|done].
Qed.

Lemma get_object_ok s0 input :
  (∀ t p st, get_file_info w t p = Ok st → (fs_length st < U64_MOD)%N) →
  psafe s0 (get_object w mapper config input)
    (λ s r, ∃ id, answered id (get_result (gw_tick s0) (gw_tick s) input) r).
Proof.
  intros Hlen. unfold get_object.
  apply (request_ok _ _ _ (λ t, get_result (gw_tick s0) t input)); [|intros; by eapply get_result_later].
  intros s log Hl. eapply hoare_answer; [apply resolve_object_ok| |].
  2: { intros s1 s2 e H1 H2 He. apply get_unresolved. by eapply object_result_later. }
  intros s1 log1 [p m] _ H1 E1 Hobj. cbv beta iota zeta.
  assert (∀ s', later s1 s' →
    object_result (gw_tick s0) (gw_tick s') (go_bucket input) (go_key input) (Ok (p, m))) as Ho.
  { intros s' Hs. eapply object_result_later; [exact Hl|exact Hs|exact Hobj]. }
  assert (∃ t st, t < gw_tick s1 ∧ get_file_info w t p = Ok st ∧ m = meta_of_status st) as Hst.
  { inversion Hobj; subst. by eapply stat_seen_once. }
  assert (fm_length m < U64_MOD)%N as Hm.
  { destruct Hst as (t & st & _ & Hg & ->). by eapply Hlen. }
  clear Hobj. change (etag (object_meta p m)) with (fallback_etag (fm_length m) (fm_modification_time m)).
  destruct (preconditions _ _ _ _) as [c|] eqn:Ep.
  { apply hoare_fail_answered. intros s' Hs. by eapply get_precondition; [apply Ho|]. }
  pose proof (resolve_window_ok (fm_length m) (go_range input) Hm) as Hw.
  destruct (resolve_window _ _) as [[[[st e] n] cr]|].
  2: { destruct Hw as (r & Er & Hr). apply hoare_fail_answered. intros s' Hs.
       by eapply get_range; [apply Ho|..]. }
  destruct Hw as (Hwin & -> & Hse & Hel). unfold usize_try_from.
  rewrite !(proj2 (N.ltb_lt _ _)) by lia.
  eapply hoare_answer; [by apply open_reader_ok| |].
  2: { intros s2 s3 e' H2 H3 He. eapply get_open; [apply Ho; by transitivity s2|done|].
       eapply open_result_later; [|exact H3|exact He]. unfold later in *. lia. }
  intros s2 log2 r _ H2 E2 Hr.
  assert (∀ s', later s2 s' → open_result (gw_tick s0) (gw_tick s') p m (Ok r)) as Hr'.
  { intros s' Hs. eapply open_result_later; [|exact Hs|exact Hr]. unfold later in *. lia. }
  destruct (N.ltb_spec (reader_length w r) e).
  - eapply hoare_then; [apply hoare_unit, hoare_blocks_remove|]. intros s3 log3 [] H3 E3 _.
    eapply hoare_then; [apply hoare_unit, hoare_metadata_remove|]. intros s4 log4 [] H4 E4 _.
    rewrite <- E3, <- E4. apply hoare_fail_answered. intros s' Hs.
    eapply get_shrunk; [apply Ho|done|done|apply Hr'|done];
      repeat (etransitivity; [eassumption|]); done.
  - eapply hoare_then; [apply hoare_set_bytes|]. intros s3 log3 [] H3 E3 _. rewrite <- E3. apply hoare_respond. intros s' Hs.
    rewrite u64_sub_exact by lia.
    eapply get_served; [apply Ho|done|done|apply Hr'|done];
      repeat (etransitivity; [eassumption|]); done.
Qed.
End objects.
