(* ===== verification/Listings.v ===== *)
(** What a directory listing may have seen, and the listings of a namespace that
    does not change.

    [list_dir_ok] is the cached lister's contract. Over a fixed namespace the
    lister answers with it whatever the cache holds, so the page of
    [ListObjectsV2] is the page of the namespace. *)

From S2P Require Import Prelude Prog Bytes Config Path HdfsError Listing.
From S2P Require Import Cache Caches SortedListing Merge Paging Gateway ListObjects Invariant Objects.

Section listings.
Context {L : Type → Type} `{!Lru str L} `{!LruLaws str L} {R IoError : Type} `{!Base64}.
Context (w : World (R:=R) (IoError:=IoError)) (mapper : PathMapper) (config : Config).

Abbreviation State := (GwState (L:=L) (R:=R)).
Abbreviation HH A := (H (L:=L) (R:=R) A).
Abbreviation gw_inv := (gw_inv (L:=L) w mapper config).
Abbreviation psafe := (safe gw_inv later).
Abbreviation hoare := (hoare (L:=L) w mapper config).

(** The listing of a directory, as HDFS gave it during the request or as cached. *)
Definition list_seen (since tick : nat) (p : str) (l : DirListing) : Prop :=
  (∃ t sts, since <= t ∧ t < tick ∧ list_status w t p = Ok sts ∧ l = listing_from_statuses sts mapper) ∨
  hit w (listing_life config) (dir_entry w mapper) since tick p l.

Inductive list_result (since tick : nat) (p : str) : result DirListing HdfsError → Prop :=
| list_found l : list_seen since tick p l → list_result since tick p (Ok l)
| list_failed t e :
    since <= t → t < tick → list_status w t p = Err e → list_result since tick p (Err e).

Lemma list_seen_later since since' tick tick' p l :
  since' <= since → tick <= tick' → list_seen since tick p l → list_seen since' tick' p l.
Proof.
  intros Hs Ht [(t & sts & ? & ? & ? & ?)|Hh]; [left; exists t, sts; split_and!; done || lia|right].
  by eapply hit_since, hit_later.
Qed.

Lemma list_result_later since since' tick tick' p r :
  since' <= since → tick <= tick' → list_result since tick p r → list_result since' tick' p r.
Proof.
  intros Hs Ht [l Hl|t e ? ? ?]; [by eapply list_found, list_seen_later|].
  apply (list_failed _ _ _ t); done || lia.
Qed.

(** The lister, with other requests between its accesses. *)
Lemma list_dir_ok s0 p :
  psafe s0 (hdfs_list_dir w mapper p) (λ s r, list_result (gw_tick s0) (gw_tick s) p r).
Proof.
  unfold hdfs_list_dir. eapply (safe_bind _ _ _ _ _ _
    (λ s v, ∀ l, v = Some l → hit w (listing_life config) (dir_entry w mapper) (gw_tick s0) (gw_tick s) p l)).
  { apply safe_on_caches. intros now cs Hn Hcs. split.
    - intros [H1 H2 H3 H4]. pose proof (cache_ok_get _ _ _ (clock w now) p H4) as Hg.
      destruct (cache_get _ p _) as [v c]. by split.
    - intros s' Ht. destruct (cache_get (clock w now) p (Caches.dirs cs)) as [v c] eqn:Eg.
      cbn [fst]. intros l ->.
      destruct (cache_ok_hit _ _ _ (clock w now) p l (co_listings _ _ _ _ _ Hcs))
        as (e & He & Hv & Ha); [by rewrite Eg|]. by exists e, now. }
  intros s1 [l|] _ H1 Hh.
  { apply safe_done. intros s _ Hs. apply list_found. right. eapply hit_later; [exact Hs|auto]. }
  eapply safe_bind; [apply _|apply (safe_call _ _ _ _ (λ t, list_status w t p))|].
  intros s2 r _ H2 (t & Hb & Ht & Er). unfold later in *. destruct r as [sts|e].
  2: { apply safe_done. intros s _ Hs. unfold later in *. apply (list_failed _ _ _ t); done || lia. }
  cbv zeta. set (l := listing_from_statuses sts mapper).
  eapply (safe_bind _ _ _ _ _ _ (λ _ _, True)).
  { apply safe_on_caches. intros now cs Hn Hcs. split; [|done].
    intros [G1 G2 G3 G4]. destruct (N.leb _ _); [|by split]. split; [done..|].
    apply cache_ok_insert; [|done]. exists t, now, sts. split_and!; done || lia. }
  intros s3 [] _ H3 _. apply safe_done. intros s _ Hs. unfold later in *.
  apply list_found. left. exists t, sts. split_and!; done || lia.
Qed.

(** ** The lister inside the merge *)

#[local] Instance lister : DirLister State := HdfsDirLister w mapper.

(** An error of the lister is an answer of HDFS. *)
Lemma lister_error p :
  always gw_inv later (list_dir p) (λ r, ∀ e, r = Err e → ∃ t, list_status w t p = Err e).
Proof.
  intros s0. eapply safe_mono; [apply _| |apply (list_dir_ok s0 p)].
  intros s r _ Hr e ->. inversion Hr; subst. eauto.
Qed.

(** ** A namespace that does not change *)

(** The listing of a directory, from the statuses of [tree]. *)
Definition ns_of (tree : str → result (list FileStatus) HdfsError) (p : str) :
    result DirListing HdfsError :=
  match tree p with
  | Ok sts => Ok (listing_from_statuses sts mapper)
  | Err e => Err e
  end.

(** HDFS answers with [tree] at every moment, and a directory below the root
    [rs] holds its children. *)
Record stable (rs : list str) (tree : str → result (list FileStatus) HdfsError) : Prop := {
  st_root : rooted_at mapper rs;
  st_fixed : ∀ t p, list_status w t p = tree p;
  st_children : ∀ ds sts, Forall valid_seg ds → tree (abs_path (rs ++ ds)) = Ok sts →
    children_statuses rs ds sts;
}.

Lemma stable_ns_wf rs tree : stable rs tree → ns_wf rs (ns_of tree).
Proof.
  intros [Hr Hf Hc] ds l Hds. unfold ns_of.
  destruct (tree (abs_path (rs ++ ds))) as [sts|e] eqn:E; [|done]. intros [= <-].
  by eapply children_listing; eauto.
Qed.

(** What the lister answers, cached or not, is the namespace. *)
Lemma list_result_stable rs tree since tick p r :
  stable rs tree → list_result since tick p r → r = ns_of tree p.
Proof.
  intros [Hr Hf Hc]. unfold ns_of. rewrite <- (Hf 0).
  intros [l [(t & sts & _ & _ & Hl & ->)|(e & now & (t & ti & sts & _ & _ & Hl & Hv & _) & Ev & _)]|t e _ _ Hl];
    rewrite (Hf t) in Hl; rewrite (Hf 0), Hl; congruence.
Qed.

Lemma lister_stable rs tree p :
  stable rs tree → always gw_inv later (list_dir p) (λ r, r = ns_of tree p).
Proof.
  intros Hst s0. eapply safe_mono; [apply _| |apply (list_dir_ok s0 p)].
  intros s r _. by eapply list_result_stable.
Qed.

(** ** Answers *)

Abbreviation mapped e := (map_hdfs_error (hdfs_to_string w) e (expose_upstream_errors config)).

(** An error of a listing: one HDFS gave, and not a missing directory. *)
Definition listing_error (e : S3Error) : Prop :=
  ∃ t p err, list_status w t p = Err err ∧ (∀ msg, err ≠ FileNotFound msg) ∧ e = mapped err.

(** The page of a flat listing, and of one with a delimiter other than [/],
    over the files [es] of the subtree. *)
Definition flat_page (prefix : str) (after : option str) (max_keys : N) (es : list ListEntry) :
    ListPage :=
  let l := requested_files prefix after es in
  let k := N.to_nat (N.min max_keys (N.of_nat (length l))) in
  if N.eqb max_keys 0 then ([], [], false, None)
  else (take k l, [], bool_decide (k < length l),
        if bool_decide (k < length l) then key <$> last (take k l) else None).

Definition page_parts (page : Page) : ListPage :=
  (contents page, common_prefixes page, is_truncated page, next_token page).

Definition delimited_page (prefix : str) (delimiter : option str) (after : option str)
    (max_keys : N) (es : list ListEntry) : ListPage :=
  page_parts (paginate es [] prefix delimiter after max_keys).

Definition slash_page (prefix : str) (after : option str) (max_keys : N) (l : DirListing) : ListPage :=
  page_parts (paginate (Listing.files l) (Listing.dirs l) prefix (Some [slash]) after max_keys).

(** No file has a key that starts so: every key is clean. *)
Definition unmatched (prefix : str) : Prop :=
  ∀ segs, Forall valid_seg segs → starts_with (join_slash segs) prefix = false.

(** The files a listing is of, in an unchanging namespace whose walk ends within
    the fuel: those below the directory the prefix spells out, whose components
    are [ds]. Where the code starts its walk does not come into it. A prefix that
    no key matches has none, but the directory it comes down to, if any, must be
    readable. Of the prefixes [.] and [..] nothing is said: the code answers
    them with an empty page ([Path.list_start_dot_misses]). *)
Inductive walkable (fuel : nat) (prefix : str) : list ListEntry → Prop :=
| walk_below rs tree ds part depth n es :
    stable rs tree → Forall valid_seg ds → slash ∉ part → prefix = dir_prefix ds ++ part →
    prefix ≠ dot → prefix ≠ dotdot →
    walk_start mapper (ns_of tree) depth (abs_path (rs ++ ds)) = Some (es, n) → n < fuel →
    walkable fuel prefix es
| walk_aside rs tree start depth n es :
    stable rs tree → unmatched prefix → list_start mapper prefix = Some start →
    walk_start mapper (ns_of tree) depth start = Some (es, n) → n < fuel →
    walkable fuel prefix es
| walk_nowhere : unmatched prefix → list_start mapper prefix = None → walkable fuel prefix [].

(** The code walks where the specification does. *)
Lemma walkable_start fuel prefix es :
  walkable fuel prefix es →
  match list_start mapper prefix with
  | None => es = []
  | Some start => ∃ rs tree depth n, stable rs tree ∧
      walk_start mapper (ns_of tree) depth start = Some (es, n) ∧ n < fuel
  end.
Proof.
  intros [rs tree ds part depth n es' Hst Hds Hp -> Hd1 Hd2 Hw Hn|rs tree start depth n es' Hst _ -> Hw Hn|_ ->].
  - rewrite (list_start_clean _ rs) by first [done|apply Hst]. by exists rs, tree, depth, n.
  - by exists rs, tree, depth, n.
  - done.
Qed.

Abbreviation tagged := (Objects.tagged w).

Lemma slash_empty prefix after mk : paginate_slash [] [] prefix after mk = Some empty_page.
Proof. unfold paginate_slash. destruct (N.eqb mk 0); [done|]. by destruct after. Qed.

Lemma slash_page_empty prefix after mk :
  slash_page prefix after mk empty_listing = ([], [], false, None).
Proof.
  unfold slash_page, paginate. destruct (N.eqb mk 0); [done|]. cbn. by rewrite N.min_0_r.
Qed.

(** The prefix's directory, and its children as pagination wants them. *)
Lemma children_direct ds part l :
  Forall valid_seg ds → slash ∉ part → children_of ds l →
  direct_children (dir_prefix ds) (Listing.files l) (Listing.dirs l) (dir_prefix ds ++ part).
Proof.
  intros Hds Hpart [H1 H2 H3 H4].
  assert (∀ n, join_slash (ds ++ [n]) = dir_prefix ds ++ n) as Hj.
  { intros n. unfold dir_prefix. destruct ds as [|d ds']; [done|].
    rewrite join_slash_app by done. by rewrite <- app_assoc. }
  split; [by exists part| | |done|done].
  - intros f Hf. destruct (H1 f Hf) as (n & (_ & _ & _ & Hn) & ->). exists n. auto.
  - intros d Hd. destruct (H2 d Hd) as (n & (_ & _ & _ & Hn) & ->). exists n. auto.
Qed.

(** What the error of a result satisfies, if it is one. *)
Definition failed_only_by {A} (P : S3Error → Prop) (r : result A S3Error) : Prop :=
  match r with Ok _ => True | Err e => P e end.

(** A missing directory counts as an empty one. *)
Definition or_missing (r : result DirListing HdfsError) : result DirListing HdfsError :=
  match r with Err (FileNotFound _) => Ok empty_listing | r => r end.

Definition slash_answer (prefix : str) (after : option str) (mk : N)
    (r : result (option ListPage) S3Error) : Prop :=
  failed_only_by listing_error r ∧
  (list_start mapper prefix = None → r = Ok (Some ([], [], false, None))) ∧
  ∀ rs tree ds part l, stable rs tree → Forall valid_seg ds → slash ∉ part →
    prefix = dir_prefix ds ++ part → list_start mapper prefix = Some (abs_path (rs ++ ds)) →
    or_missing (ns_of tree (abs_path (rs ++ ds))) = Ok l →
    r = Ok (Some (slash_page prefix after mk l)).

Lemma list_slash_ok s0 log prefix after mk :
  hoare s0 log (list_slash w mapper config prefix after mk)
    (λ _, tagged (request_id log) (slash_answer prefix after mk)).
Proof.
  unfold list_slash.
  apply (hoare_step _ _ _ _ _ _ _ (λ _ r,
    match list_start mapper prefix with
    | None => r = Ok empty_listing
    | Some start => ∃ since tick r0, list_result since tick start r0 ∧
        match or_missing r0 with
        | Ok l => r = Ok l
        | Err err => r = Err (mapped err) ∧ listing_error (mapped err)
        end
    end)).
  - destruct (list_start mapper prefix) as [start|]; [|by apply hoare_ret].
    eapply hoare_then.
    { apply (hoare_lift _ _ _ _ _ _ (λ s r, list_result (gw_tick s0) (gw_tick s) start r)); [|apply list_dir_ok].
      intros s s' a Hl. by apply list_result_later. }
    intros s1 log1 r _ E1 Hr. rewrite <- E1. destruct r as [l|e].
    + apply hoare_ret. intros s _. by eexists _, _, _.
    + inversion Hr as [|t ? _ _ He]; subst.
      destruct e; try (apply hoare_fail_tagged; intros s _; eexists _, _, _; split; [exact Hr|];
                       split; [done|]; by eexists t, start, _).
      apply hoare_ret. intros s _. by eexists _, _, _.
  - intros s1 log1 l _ E1 Hl. apply hoare_ret. intros s _. cbn [Objects.tagged]. unfold slash_answer.
    destruct (list_start mapper prefix) as [start|] eqn:Els.
    + split; [exact I|]. split; [intros [=]|]. intros rs tree ds part l' Hst Hds Hpart -> [= ->] Hns.
      destruct Hl as (since & tick & r & Hr & Hl). rewrite (list_result_stable rs tree _ _ _ _ Hst Hr) in Hl.
      rewrite Hns in Hl. injection Hl as ->.
      assert (l' = empty_listing ∨ children_of ds l') as [->|Hch].
      { pose proof (stable_ns_wf rs tree Hst ds l' Hds) as Hwf.
        destruct (ns_of tree _) as [l0|[]]; cbn [or_missing] in Hns;
          first [right; apply Hwf; congruence|left; congruence]. }
      * cbn [Listing.files Listing.dirs empty_listing]. rewrite slash_empty, slash_page_empty. done.
      * by rewrite (paginate_slash_eq (dir_prefix ds)) by by apply children_direct.
    + injection Hl as ->. split_and!; [done| |done]. intros _.
      cbn [Listing.files Listing.dirs empty_listing]. by rewrite slash_empty.
  - intros s s' e _ _ He. unfold slash_answer. destruct (list_start mapper prefix) as [start|]; [|done].
    destruct He as (since & tick & r & Hr & He). split_and!; [|done|].
    + destruct (or_missing r); [done|]. by destruct He as [[= ->] ?].
    + intros rs tree ds part l Hst Hds Hpart -> [= ->] Hns.
      rewrite (list_result_stable rs tree _ _ _ _ Hst Hr), Hns in He. done.
Qed.

(** ** The merge *)

(** Whatever the namespace does, the merge keeps the invariant and reports an
    error of HDFS. *)
Lemma collect_page_error fuel mk prefix start after :
  always gw_inv later (collect_page fuel mk (new_listing start prefix after mapper))
    (λ o, ∀ e, o = Some (Err e) → listing_error (mapped e)).
Proof.
  eapply always_mono; [apply _| |apply (collect_page_any gw_inv later mapper prefix start after
    (λ p e, ∃ t, list_status w t p = Err e))].
  - intros o Ho e He. destruct (Ho e He) as (p & (t & Ht) & Hne & _). by exists t, p, e.
  - intros p _. apply lister_error.
Qed.

(** Over an unchanging namespace it is the page of the walk. *)
Lemma collect_page_stable fuel mk prefix start after es :
  list_start mapper prefix = Some start → walkable fuel prefix es → mk ≠ 0%N →
  let l := requested_files prefix after es in
  let k := N.to_nat (N.min mk (N.of_nat (List.length l))) in
  always gw_inv later (collect_page fuel mk (new_listing start prefix after mapper)) (λ o,
    o = Some (Ok (take k l, bool_decide (k < List.length l)))).
Proof.
  intros Els Hwalk%walkable_start Hmk. rewrite Els in Hwalk.
  destruct Hwalk as (rs & tree & depth & n & Hst & Hw & Hn).
  apply (collect_page_spec gw_inv later mapper rs (ns_of tree) depth prefix after start es n); try done;
    [apply Hst|by apply stable_ns_wf|intros p; by apply (lister_stable rs)].
Qed.

Definition merge_answer (fuel : nat) (prefix : str) (after : option str) (mk : N)
    (r : result (option (list ListEntry * bool)) S3Error) : Prop :=
  failed_only_by listing_error r ∧ (mk = 0%N → r = Ok (Some ([], false))) ∧
  ∀ es, walkable fuel prefix es → mk ≠ 0%N →
    let l := requested_files prefix after es in
    let k := N.to_nat (N.min mk (N.of_nat (List.length l))) in
    r = Ok (Some (take k l, bool_decide (k < List.length l))).

Lemma run_merge_ok s0 log fuel prefix after mk :
  hoare s0 log (run_merge w mapper config fuel prefix after mk)
    (λ _, tagged (request_id log) (merge_answer fuel prefix after mk)).
Proof.
  unfold run_merge. destruct (list_start mapper prefix) as [start|] eqn:Els.
  2: { apply hoare_ret. intros s _. split_and!; [done..|].
       intros es Hwalk%walkable_start _. rewrite Els in Hwalk. subst es. cbn. by rewrite N.min_0_r. }
  eapply (hoare_then _ _ _ _ _ _ _ (λ _ r,
    merge_answer fuel prefix after mk
      match r with
      | Some (Err e) => Err (mapped e)
      | Some (Ok page) => Ok (Some page)
      | None => Ok None
      end)).
  - eapply hoare_mono; [|apply (hoare_lift _ _ _ _ _ _ (λ _ o,
      (∀ e, o = Some (Err e) → listing_error (mapped e)) ∧
      (mk = 0%N → o = Some (Ok ([], false))) ∧
      ∀ x : { es | walkable fuel prefix es ∧ mk ≠ 0%N },
        let l := requested_files prefix after (`x) in
        let k := N.to_nat (N.min mk (N.of_nat (List.length l))) in
        o = Some (Ok (take k l, bool_decide (k < List.length l)))))]; [|done|].
    + intros s r _ (o & -> & He & Hz & Hp). exists o. split; [done|]. split_and!.
      * destruct o as [[page|e]|]; [done|by apply He|done].
      * intros Hmk. by rewrite (Hz Hmk).
      * intros es Hwalk Hmk. cbv zeta. by rewrite (Hp (exist _ es (conj Hwalk Hmk))).
    + apply safe_and; [apply collect_page_error|].
      apply safe_and; [|eapply safe_all; [apply collect_page_error|]].
      * destruct (N.eqb_spec mk 0) as [->|Hmk]; [by intros s _ _|].
        eapply safe_mono; [apply _| |apply collect_page_error]. done.
      * intros [es [Hwalk Hmk]]. by apply collect_page_stable.
  - intros s1 log1 r _ E1 Hr. rewrite <- E1. destruct r as [[page|e]|].
    + by apply hoare_ret.
    + apply hoare_fail_tagged. intros s _. exact Hr.
    + by apply hoare_ret.
Qed.

(** The walk yields every file once. *)
Lemma walkable_nodup fuel prefix es : walkable fuel prefix es → NoDup (key <$> es).
Proof.
  intros Hwalk%walkable_start. destruct (list_start mapper prefix) as [start|] eqn:E; [|subst; constructor].
  destruct Hwalk as (rs & tree & depth & n & Hst & Hw & _).
  destruct (list_start_rooted _ _ _ _ (st_root _ _ Hst) E) as (ds & Hds & ->).
  eapply (walk_start_nodup mapper rs); [apply Hst|by apply stable_ns_wf|done|done].
Qed.

Definition flat_answer (fuel : nat) (prefix : str) (after : option str) (mk : N)
    (r : result (option ListPage) S3Error) : Prop :=
  failed_only_by listing_error r ∧
  ∀ es, walkable fuel prefix es → r = Ok (Some (flat_page prefix after mk es)).

Lemma list_flat_ok s0 log fuel prefix after mk :
  hoare s0 log (list_flat w mapper config fuel prefix after mk)
    (λ _, tagged (request_id log) (flat_answer fuel prefix after mk)).
Proof.
  unfold list_flat. eapply hoare_step; [apply run_merge_ok| |].
  - intros s1 log1 page _ E1 (_ & Hz & Hp). apply hoare_ret. intros s _. split; [done|].
    intros es Hwalk. unfold flat_page. destruct (N.eqb_spec mk 0) as [Hmk|Hmk].
    + specialize (Hz Hmk). by injection Hz as ->.
    + specialize (Hp es Hwalk Hmk). cbv zeta in Hp. injection Hp as ->. by destruct (bool_decide _).
  - intros s s' e _ _ (He & Hz & Hp). split; [done|]. intros es Hwalk.
    destruct (decide (mk = 0%N)) as [Hmk|Hmk]; [by apply Hz in Hmk|].
    by specialize (Hp es Hwalk Hmk).
Qed.

Definition delimited_answer (fuel : nat) (prefix : str) (d : option str) (after : option str) (mk : N)
    (r : result (option ListPage) S3Error) : Prop :=
  failed_only_by listing_error r ∧
  ∀ es, walkable fuel prefix es → (N.of_nat (List.length es) <= USIZE_MAX)%N →
    r = Ok (Some (delimited_page prefix d after mk es)).

Lemma list_delimited_ok s0 log fuel prefix d after mk :
  hoare s0 log (list_delimited w mapper config fuel prefix d after mk)
    (λ _, tagged (request_id log) (delimited_answer fuel prefix d after mk)).
Proof.
  unfold list_delimited.
  apply (hoare_step _ _ _ _ _ _ _ (λ _ r,
    failed_only_by listing_error r ∧ (mk = 0%N → r = Ok (Some ([], false))) ∧
    (mk ≠ 0%N → merge_answer fuel prefix after USIZE_MAX r))).
  3: { intros s s' e _ _ (He & Hz & Hp). split; [done|]. intros es Hwalk _.
       destruct (decide (mk = 0%N)) as [Hmk|Hmk]; [by apply Hz in Hmk|].
       destruct (Hp Hmk) as (_ & _ & Hp'). by specialize (Hp' es Hwalk ltac:(done)). }
  - destruct (N.eqb_spec mk 0); [by apply hoare_ret|].
    eapply hoare_mono; [|apply run_merge_ok]. intros s [page|e] _; cbn [Objects.tagged].
    + intros H. by split.
    + intros (e0 & -> & H). exists e0. split; [done|]. split; [apply H|]. by split.
  - intros s1 log1 page _ E1 (_ & Hz & Hp). apply hoare_ret. intros s _. split; [done|].
    intros es Hwalk Hsz.
    unfold delimited_page, page_parts. destruct (decide (mk = 0%N)) as [Hmk|Hmk].
    { specialize (Hz Hmk). injection Hz as ->. unfold paginate. by rewrite Hmk. }
    destruct (Hp Hmk) as (_ & _ & Hp'). specialize (Hp' es Hwalk ltac:(done)). cbv zeta in Hp'.
    injection Hp' as ->. set (l := requested_files prefix after es).
    assert (Hlen : List.length l <= List.length es).
    { unfold l, requested_files. rewrite (sort_by_perm cmp_entry). apply List.filter_length_le. }
    rewrite firstn_all2 by lia.
    assert (paginate l [] prefix d after mk = paginate es [] prefix d after mk) as ->; [|done].
    pose proof (walkable_nodup _ _ _ Hwalk) as Hnd. apply paginate_ext; [done| |].
    + unfold l, requested_files. rewrite (sort_by_perm cmp_entry). by apply NoDup_fmap_bfilter.
    + intros e Hst Ha. unfold l, requested_files. rewrite (sort_by_perm cmp_entry), elem_of_bfilter.
      rewrite Hst, Ha. tauto.
Qed.

(** ** The handler *)

(** The delimiter of a request; an empty one is none. *)
Definition delimiter_of (i : ListObjectsV2Input) : option str :=
  match lo_delimiter i with
  | Some d => if bool_decide (d = []) then None else Some d
  | None => None
  end.

Definition page_answer (fuel : nat) (prefix : str) (delimiter after : option str) (mk : N)
    (r : result (option ListPage) S3Error) : Prop :=
  match delimiter with
  | None => flat_answer fuel prefix after mk r
  | Some d =>
      if bool_decide (d = [slash]) then slash_answer prefix after mk r
      else delimited_answer fuel prefix delimiter after mk r
  end.

Definition list_answer (fuel : nat) (i : ListObjectsV2Input)
    (r : result (option ListObjectsV2Output) S3Error) : Prop :=
  if bool_decide (lo_bucket i = Path.bucket mapper) then
    match parse_max_keys (lo_max_keys i), parse_start_after i with
    | None, _ => r = Err (s3_error_with InvalidArgument $"max-keys must not be negative")
    | Some _, None => r = Err (s3_error InvalidToken)
    | Some mk, Some after =>
        ∃ r0, page_answer fuel (or_else (lo_prefix i) []) (delimiter_of i) after mk r0 ∧
              r = match r0 with
                  | Ok page => Ok (list_output mapper i mk <$> page)
                  | Err e => Err e
                  end
    end
  else r = Err (s3_error NoSuchBucket).

Lemma list_objects_ok s0 fuel input :
  psafe s0 (list_objects_v2 w mapper config fuel input)
    (λ s r, ∃ id, answered w id (list_answer fuel input) r).
Proof.
  unfold list_objects_v2. apply (request_ok _ _ _ _ _ _ (λ _, list_answer fuel input)); [|done].
  intros s log _. unfold list_answer.
  destruct (bool_decide (lo_bucket input = Path.bucket mapper)); cbn [negb];
    [|by apply hoare_fail_answered].
  cbv zeta. fold (delimiter_of input). set (prefix := or_else (lo_prefix input) []).
  destruct (parse_max_keys (lo_max_keys input)) as [mk|]; [|by apply hoare_fail_answered].
  destruct (parse_start_after input) as [after|]; [|by apply hoare_fail_answered].
  apply (hoare_answer _ _ _ _ _ _ _ (λ _, page_answer fuel prefix (delimiter_of input) after mk)).
  - unfold page_answer. destruct (delimiter_of input) as [d|]; [|apply list_flat_ok].
    destruct (bool_decide (d = [slash])); [apply list_slash_ok|apply list_delimited_ok].
  - intros s1 log1 page _ _ E1 Hp. apply hoare_respond. intros s' _. by eexists (Ok page).
  - intros s1 s2 e _ _ He. by eexists (Err e).
Qed.
End listings.
