(* ===== verification/Requests.v ===== *)
(** The gateway at work: any number of requests, interleaved.

    A request is one operation of [src/s3/mod.rs], or the streaming of a body a
    [GetObject] returned. The pool runs them one access at a time in any order,
    drops those that await whenever their clients are gone, and lets time pass.
    The theorems say what every finished request answered. *)

From S2P Require Import Prelude Prog Bytes Config Path Range Metadata HdfsError Listing.
From S2P Require Import Cache Caches SortedListing Merge Paging Gateway ListObjects.
From S2P Require Import Invariant Objects Listings.

Section requests.
Context {L : Type → Type} `{!Lru str L} {R IoError : Type} `{!Base64}.
Context (w : World (R:=R) (IoError:=IoError)) (mapper : PathMapper) (config : Config).

Abbreviation State := (GwState (L:=L) (R:=R)).

(** ** The requests and their programs *)

Inductive Request : Type :=
| ReqHeadBucket (bucket : str)
| ReqHeadObject (input : HeadObjectInput)
| ReqListBuckets
| ReqListObjects (fuel : nat) (input : ListObjectsV2Input)
| ReqGetObject (input : GetObjectInput)
| ReqWrite (o : WriteOp)
| ReqProbe (o : ProbeOp)
| ReqBody (b : GetBody R).

Abbreviation answer A := (result (S3Response A) S3Error).

Inductive Outcome : Type :=
| OutUnit (r : answer unit)
| OutHead (r : answer HeadObjectOutput)
| OutBuckets (r : answer (str * Timestamp))
| OutList (r : answer (option ListObjectsV2Output))
| OutGet (r : answer (GetObjectOutput R))
| OutBody (out : list (result str (GetBodyError (IoError:=IoError))))
(* no answer: the request was dropped *)
| OutDropped.

Definition pmap {A B} (f : A → B) (p : Prog State A) : Prog State B := pbind p (λ a, Done (f a)).

Definition handler (q : Request) : Prog State Outcome :=
  match q with
  | ReqHeadBucket bucket => pmap OutUnit (head_bucket w mapper bucket)
  | ReqHeadObject input => pmap OutHead (head_object w mapper config input)
  | ReqListBuckets => pmap OutBuckets (list_buckets w mapper)
  | ReqListObjects fuel input => pmap OutList (list_objects_v2 w mapper config fuel input)
  | ReqGetObject input => pmap OutGet (get_object w mapper config input)
  | ReqWrite o => pmap OutUnit (write_operation w o)
  | ReqProbe o => pmap OutUnit (probe_operation w o)
  | ReqBody b => pmap OutBody (stream_body w b)
  end.

(** Time passes. *)
Definition env (gw gw' : State) : Prop :=
  ∃ n, gw' = mkGwState (gw_caches gw) (gw_seq gw) (gw_tick gw + n) (gw_events gw).

(** A new gateway. *)
Definition initial : State := mkGwState (new_caches (cache config)) 0 0 [].

(** The states and tasks the server may reach. *)
Definition served (gw : State) (ts : list (Task (S:=State) (Req:=Request) (A:=Outcome))) : Prop :=
  pool_reach handler OutDropped env initial gw ts.
End requests.
Arguments Request : clear implicits.
Arguments Outcome : clear implicits.

(** ** Bodies *)

Section body.
Context {IoError : Type}.

(** The bytes of the chunks that did not fail. *)
Definition delivered {E} (out : list (result str E)) : str :=
  List.concat (omap (λ r, match r with Ok b => Some b | Err _ => None end) out).


(** What a client receives of [remaining] bytes, over the reader's items: the
    reader's bytes in order, cut at the declared length, and an error unless
    that length was reached. *)
Record body_spec (items : list (result str IoError)) (limit remaining : N)
    (out : list (result str (GetBodyError (IoError:=IoError)))) : Prop := {
  body_bytes : delivered out = take (N.to_nat remaining) (delivered items);
  body_complete : forallb is_ok out = true → List.length (delivered out) = N.to_nat remaining;
  body_clean : forallb is_ok items = true → N.to_nat remaining <= List.length (delivered items) →
    forallb is_ok out = true;
  body_short : List.length (delivered items) < N.to_nat remaining →
    last out = Some (Err (ShortRead limit (limit - (remaining - N.of_nat (List.length (delivered items))))));
}.

Lemma body_spec_done items limit : body_spec items limit 0 [].
Proof. split; simpl; try done; try lia. Qed.

Lemma body_spec_end limit remaining :
  (0 < remaining)%N → (remaining <= limit)%N → (limit < U64_MOD)%N →
  body_spec [] limit remaining [Err (ShortRead limit (u64_sub limit remaining))].
Proof.
  intros H1 H2 H3. split; simpl; [by destruct (N.to_nat remaining)|done| |].
  - intros _ ?. lia.
  - intros _. rewrite u64_sub_exact by lia. by rewrite N.sub_0_r.
Qed.

Lemma last_cons_some {A} (x : A) l y : last l = Some y → last (x :: l) = Some y.
Proof. by destruct l. Qed.

Lemma body_spec_ok b items limit remaining out :
  (0 < remaining)%N →
  let b' := if N.ltb remaining (N.of_nat (List.length b)) then take (N.to_nat remaining) b else b in
  body_spec items limit (remaining - N.of_nat (List.length b')) out →
  body_spec (Ok b :: items) limit remaining (Ok b' :: out).
Proof.
  intros Hr b' [H1 H2 H3 H4].
  assert (Hb : b' = take (N.to_nat remaining) b).
  { subst b'. destruct (N.ltb_spec remaining (N.of_nat (List.length b))); [done|].
    by rewrite take_ge by lia. }
  clearbody b'. subst b'. rewrite length_take in *.
  assert (Hd : delivered (Ok (take (N.to_nat remaining) b) :: out) =
               take (N.to_nat remaining) (delivered (Ok b :: items))).
  { unfold delivered in *. cbn [omap list_omap List.concat]. rewrite H1, take_app. do 2 f_equal. lia. }
  split; [done| | |].
  - rewrite Hd. intros Hok. cbn [forallb is_ok andb] in Hok. specialize (H2 Hok).
    rewrite <- Hd. unfold delivered in *. cbn [omap list_omap List.concat].
    rewrite length_app, H2, length_take. lia.
  - cbn [forallb is_ok andb]. intros Hok Hlen. apply H3; [done|]. revert Hlen.
    unfold delivered. cbn [omap list_omap List.concat]. rewrite length_app. lia.
  - unfold delivered at 1. cbn [omap list_omap List.concat]. rewrite length_app.
    intros Hlen. apply last_cons_some. rewrite H4.
    + do 3 f_equal. unfold delivered. cbn [omap list_omap List.concat]. rewrite length_app. lia.
    + unfold delivered. lia.
Qed.

Lemma body_spec_err e items limit remaining out :
  body_spec items limit remaining out → body_spec (Err e :: items) limit remaining (Err (Upstream e) :: out).
Proof.
  intros [H1 H2 H3 H4]. split; [done|done|done|]. intros Hl. apply last_cons_some. auto.
Qed.
End body.

(** ** Every request keeps the invariant *)

Section answers.
Context {L : Type → Type} `{!Lru str L} `{!LruLaws str L} {R IoError : Type} `{!Base64}.
Context (w : World (R:=R) (IoError:=IoError)) (mapper : PathMapper) (config : Config).

Abbreviation State := (GwState (L:=L) (R:=R)).
Abbreviation gw_inv := (gw_inv (L:=L) w mapper config).
Abbreviation psafe := (safe gw_inv later).
Abbreviation hoare := (hoare (L:=L) w mapper config).
Abbreviation Pool := (served w mapper config).

Lemma safe_pmap {A B} (f : A → B) s0 (p : Prog State A) (Q : State → B → Prop) :
  psafe s0 p (λ s a, ∀ s', later s s' → Q s' (f a)) → psafe s0 (pmap f p) Q.
Proof.
  intros Hp. unfold pmap. eapply safe_bind; [apply _|exact Hp|].
  intros s a _ _ HQ s' _ Hs'. auto.
Qed.

Lemma request_simple_ok {A} s0 op (body : H (L:=L) (R:=R) (S3Response A)) (P : result A S3Error → Prop) :
  (∀ s log, later s0 s → hoare s log body (λ _, answered w (request_id log) P)) →
  psafe s0 (request w op body) (λ _ r, ∃ id, answered w id P r).
Proof. intros Hb. by apply (request_ok _ _ _ _ _ _ (λ _, P)). Qed.

Lemma head_bucket_ok s0 bucket :
  psafe s0 (head_bucket w mapper bucket) (λ _ r, ∃ id, answered w id
    (λ a, a = if bool_decide (bucket = Path.bucket mapper) then Ok tt
              else Err (s3_error NoSuchBucket)) r).
Proof.
  apply request_simple_ok. intros s log _. destruct (bool_decide (bucket = Path.bucket mapper)).
  - by apply hoare_respond.
  - by apply hoare_fail_answered.
Qed.

Lemma list_buckets_ok s0 :
  psafe s0 (list_buckets w mapper) (λ _ r, ∃ id, answered w id
    (λ a, ∃ t, a = Ok (Path.bucket mapper, Z.of_N (system_time w t))) r).
Proof.
  apply request_simple_ok. intros s log _. eapply hoare_then; [apply hoare_clock|].
  intros s1 log1 now _ E1 (t & _ & _ & ->). rewrite <- E1. apply hoare_respond. eauto.
Qed.

Lemma write_operation_ok s0 o :
  psafe s0 (write_operation w o) (λ _ r, ∃ id, answered w id (λ a, a = Err write_denied) r).
Proof. apply request_simple_ok. intros s log _. by apply hoare_fail_answered. Qed.

Lemma probe_operation_ok s0 o :
  psafe s0 (probe_operation w o) (λ _ r, ∃ id, answered w id (λ a, a = Ok tt) r).
Proof. apply request_simple_ok. intros s log _. by apply hoare_respond. Qed.

Lemma evict_on_error_ok s0 p (r : result str IoError) :
  psafe s0 (evict_on_error w p r) (λ _ r', r' = r).
Proof.
  destruct r as [b|e]; cbn [evict_on_error]; [done|].
  eapply (safe_bind _ _ _ _ _ _ (λ _ _, True)).
  { apply safe_on_caches. intros now cs _ _. split; [|done]. intros [H1 H2 H3 H4].
    split; [done..|by apply cache_ok_remove|done]. }
  intros s1 [] _ _ _. eapply (safe_bind _ _ _ _ _ _ (λ _ _, True)).
  { apply safe_on_caches. intros now cs _ _. split; [|done]. intros [H1 H2 H3 H4].
    split; [by apply cache_ok_remove|done..]. }
  intros s2 [] _ _ _. done.
Qed.

Lemma bytes_stream_ok s0 p items limit remaining :
  psafe s0 (bytes_stream (map (evict_on_error w p) items) limit remaining)
    (λ _ out, (remaining <= limit)%N → (limit < U64_MOD)%N → body_spec items limit remaining out).
Proof.
  revert s0 remaining. induction items as [|r items IH]; intros s0 remaining;
    cbn [map bytes_stream]; destruct (N.eqb_spec remaining 0) as [->|Hz].
  1, 3: apply safe_done; intros; apply body_spec_done.
  - apply safe_done. intros. apply body_spec_end; lia.
  - eapply safe_bind; [apply _|apply evict_on_error_ok|]. intros s1 ? _ _ ->.
    destruct r as [b|e]; cbv zeta; (eapply safe_bind; [apply _|apply IH|]);
      intros s2 out _ _ Ho; apply safe_done; intros s _ _ Hr Hl; [|by apply body_spec_err, Ho].
    set (b' := if N.ltb remaining _ then _ else b) in *.
    assert (N.of_nat (List.length b') <= remaining)%N.
    { subst b'. destruct (N.ltb_spec remaining (N.of_nat (List.length b))); [|done].
      rewrite length_take. lia. }
    rewrite u64_sub_exact in Ho by lia. apply body_spec_ok; [lia|]. apply Ho; lia.
Qed.

Lemma stream_body_ok s0 b :
  psafe s0 (stream_body w b) (λ _ out, (gb_length b < U64_MOD)%N → ∃ t,
    body_spec (read_range_stream w t (gb_reader b) (gb_start b) (gb_length b))
      (gb_length b) (gb_length b) out).
Proof.
  unfold stream_body. eapply safe_bind; [apply _|apply (safe_call _ _ _ _
    (λ t, read_range_stream w t (gb_reader b) (gb_start b) (gb_length b)))|].
  intros s1 items _ _ (t & _ & _ & ->).
  eapply safe_mono; [apply _| |by apply bytes_stream_ok]. intros s out _ Ho Hl. exists t. by apply Ho.
Qed.

(** What the answer to each request satisfies, from its start to its end. *)
Definition post (q : Request R) (gw0 gw : State) (o : Outcome R IoError) : Prop :=
  match q with
  | ReqHeadBucket bucket => ∃ r, o = OutUnit r ∧ ∃ id, answered w id
      (λ a, a = if bool_decide (bucket = Path.bucket mapper) then Ok tt
                else Err (s3_error NoSuchBucket)) r
  | ReqHeadObject i => ∃ r, o = OutHead r ∧
      ∃ id, answered w id (head_result w mapper config (gw_tick gw0) (gw_tick gw) i) r
  | ReqListBuckets => ∃ r, o = OutBuckets r ∧ ∃ id, answered w id
      (λ a, ∃ t, a = Ok (Path.bucket mapper, Z.of_N (system_time w t))) r
  | ReqListObjects fuel i => ∃ r, o = OutList r ∧
      ∃ id, answered w id (list_answer w mapper config fuel i) r
  | ReqGetObject i => ∃ r, o = OutGet r ∧
      ∃ id, answered w id (get_result w mapper config (gw_tick gw0) (gw_tick gw) i) r
  | ReqWrite _ => ∃ r, o = OutUnit r ∧ ∃ id, answered w id (λ a, a = Err write_denied) r
  | ReqProbe _ => ∃ r, o = OutUnit r ∧ ∃ id, answered w id (λ a, a = Ok tt) r
  | ReqBody b => ∃ out, o = OutBody out ∧ ((gb_length b < U64_MOD)%N → ∃ t,
      body_spec (read_range_stream w t (gb_reader b) (gb_start b) (gb_length b))
        (gb_length b) (gb_length b) out)
  end.

(** The lengths HDFS reports are 64-bit. *)
Definition lengths_ok : Prop :=
  ∀ t p st, get_file_info w t p = Ok st → (fs_length st < U64_MOD)%N.

Lemma answered_later {A} id (P P' : result A S3Error → Prop) r :
  (∀ a, P a → P' a) → answered w id P r → answered w id P' r.
Proof. intros HP. destruct r; cbn [answered]; intros (x & ? & ?); eauto. Qed.

Lemma handler_ok q s0 : lengths_ok → psafe s0 (handler w mapper config q) (post q s0).
Proof.
  intros Hlen. destruct q as [bucket|i| |fuel i|i|o|o|b]; cbn [handler post]; apply safe_pmap.
  - eapply safe_mono; [apply _| |apply head_bucket_ok]. intros s r _ Hr s' _. by exists r.
  - eapply safe_mono; [apply _| |apply head_object_ok].
    intros s r _ (id & Hr) s' Hs. exists r. split; [done|]. exists id.
    eapply answered_later; [|exact Hr]. intros a. by apply head_result_later.
  - eapply safe_mono; [apply _| |apply list_buckets_ok]. intros s r _ Hr s' _. by exists r.
  - eapply safe_mono; [apply _| |apply list_objects_ok]. intros s r _ Hr s' _. by exists r.
  - eapply safe_mono; [apply _| |by apply get_object_ok].
    intros s r _ (id & Hr) s' Hs. exists r. split; [done|]. exists id.
    eapply answered_later; [|exact Hr]. intros a. by apply get_result_later.
  - eapply safe_mono; [apply _| |apply write_operation_ok]. intros s r _ Hr s' _. by exists r.
  - eapply safe_mono; [apply _| |apply probe_operation_ok]. intros s r _ Hr s' _. by exists r.
  - eapply safe_mono; [apply _| |apply stream_body_ok]. intros s r _ Hr s' _. by exists r.
Qed.

Lemma handler_may : lengths_ok → ∀ q s, gw_inv s →
  psafe s (handler w mapper config q) (λ s' o, o = OutDropped ∨ post q s s' o).
Proof. intros Hlen q s _. eapply safe_mono; [apply _| |by apply handler_ok]. by right. Qed.

Lemma env_ok gw gw' : gw_inv gw → env gw gw' → gw_inv gw' ∧ later gw gw'.
Proof.
  intros Hi (n & ->). split; [|unfold later; simpl; lia].
  unfold Invariant.gw_inv. simpl. eapply caches_ok_later; [|exact Hi]. lia.
Qed.

Lemma initial_ok : sizes_ok (cache config) → gw_inv (initial config).
Proof. intros Hs. by apply fresh_ok. Qed.

(** Every task of the server that was not dropped finishes with the answer its
    request promises. *)
Lemma served_post gw ts i q st o :
  sizes_ok (cache config) → lengths_ok → Pool gw ts → o ≠ OutDropped →
  ts !! i = Some (mkTask q st (Done o)) → post q st gw o.
Proof.
  intros Hsz Hlen Hr Ho Hi.
  destruct (pool_post (handler w mapper config) OutDropped env gw_inv later
    (λ q s s' o, o = OutDropped ∨ post q s s' o) _ _ _ _ _ _ _ (handler_may Hlen) ltac:(by left) env_ok
    (initial_ok Hsz) Hr Hi); [done|exact H].
Qed.

(** A request that runs to its end by itself is answered. *)
Lemma answered_alone q gw : (exec (handler (L:=L) w mapper config q) gw).1 ≠ OutDropped.
Proof using Type. destruct q; cbn [handler]; unfold pmap; rewrite exec_pbind; discriminate. Qed.

Lemma served_inv gw ts : sizes_ok (cache config) → lengths_ok → Pool gw ts → gw_inv gw.
Proof.
  intros Hsz Hlen Hr.
  eapply (pool_safe _ OutDropped env gw_inv later (λ q s s' o, o = OutDropped ∨ post q s s' o));
    [by apply handler_may|by left|exact env_ok|by apply initial_ok|exact Hr].
Qed.
End answers.
