(* ===== verification/Pages.v ===== *)
(** The page a listing answers with.

    [listing_namespace] says which files and directories a listing is of, for
    the three strategies of the handler; over it, whatever the caches hold and
    the other requests do, the answer is the page of [paginate]
    ([served_page]). *)

From S2P Require Import Prelude Prog Bytes Config Path HdfsError Listing.
From S2P Require Import Cache Caches SortedListing Merge Paging Gateway ListObjects.
From S2P Require Import Invariant Objects Listings Requests.

Section pages.
Context {L : Type → Type} `{!Lru str L} `{!LruLaws str L} {R IoError : Type} `{!Base64}.
Context (w : World (R:=R) (IoError:=IoError)) (mapper : PathMapper) (config : Config).

Abbreviation Pool := (served (L:=L) w mapper config).

(** ** Fields of the answer *)

Lemma list_output_fields input mk c p t tok :
  (t = true → tok ≠ None) →
  let out := list_output mapper input mk (c, p, t, tok) in
  or_else (out_contents out) [] = object_of_entry <$> c ∧
  or_else (out_common_prefixes out) [] = p ∧
  out_is_truncated out = t ∧ out_next_continuation_token out = encode_token <$> tok ∧
  out_key_count out = as_i32 (N.of_nat (List.length c + List.length p)).
Proof.
  intros Ht. cbn. split_and!; [by destruct c|by destruct p| |done|done].
  destruct t; [|done]. by destruct tok; [|destruct (Ht eq_refl)].
Qed.

(** The answer to a listing whose parameters are in order. *)
Lemma served_listing gw ts i fuel input st o mk after :
  sizes_ok (cache config) → lengths_ok w → Pool gw ts → o ≠ OutDropped →
  ts !! i = Some (mkTask (ReqListObjects fuel input) st (Done o)) →
  lo_bucket input = Path.bucket mapper →
  parse_max_keys (lo_max_keys input) = Some mk → parse_start_after input = Some after →
  ∃ id r0,
    page_answer w mapper config fuel (or_else (lo_prefix input) []) (delimiter_of input) after mk r0 ∧
    ∀ page, r0 = Ok (Some page) →
      o = OutList (Ok (response w id (Some (list_output mapper input mk page)))).
Proof.
  intros Hsz Hlen Hp Hnd Hi Hb Hmk Haf.
  destruct (served_post w mapper config _ _ _ _ _ _ Hsz Hlen Hp Hnd Hi) as (r & -> & id & Hr).
  assert (∀ a, list_answer w mapper config fuel input a → ∃ r0,
    page_answer w mapper config fuel (or_else (lo_prefix input) []) (delimiter_of input) after mk r0 ∧
    a = match r0 with Ok page => Ok (list_output mapper input mk <$> page) | Err e => Err e end) as Ha.
  { intros a. unfold list_answer. by rewrite bool_decide_true, Hmk, Haf by done. }
  exists id. destruct r as [resp|e]; destruct Hr as (a & -> & Hr); destruct (Ha _ Hr) as (r0 & Hpa & E);
    exists r0; (split; [exact Hpa|]); intros page ->; [|done]. by injection E as ->.
Qed.

Lemma take_last_some {A} k (l : list A) : 0 < k → 0 < List.length l → is_Some (last (take k l)).
Proof.
  intros Hk Hl. apply last_is_Some. destruct k, l; done || (simpl in *; lia).
Qed.

(** A truncated page has a token. *)
Lemma paginate_token files dirs prefix d marker mk :
  let page := paginate files dirs prefix d marker mk in
  is_truncated page = true → next_token page ≠ None.
Proof using Type.
  unfold paginate. destruct (N.eqb_spec mk 0); [done|].
  destruct (listing_outputs _ _ _ _) as [c com]. cbn [is_truncated next_token]. cbv zeta.
  set (keys := sort_by str_cmp _). set (k := N.to_nat _). intros Ht. rewrite Ht.
  apply bool_decide_eq_true in Ht. destruct (take_last_some k keys) as [x ->]; [lia..|done].
Qed.


(** ** The page of a namespace *)

(** A flat listing is a page of [paginate] without delimiter. *)
Lemma flat_outputs prefix after es :
  NoDup (key <$> es) →
  outputs_after after (all_outputs es [] prefix None) = inl <$> requested_files prefix after es.
Proof using Type.
  intros Hd. apply (strict_sorted_ext output_lt).
  - by apply StronglySorted_bfilter, all_outputs_sorted.
  - apply key_lt_map. rewrite <- list_fmap_compose. apply (key_lt_map key).
    by apply (sort_by_key_strict key), NoDup_fmap_bfilter.
  - intros o. unfold outputs_after. rewrite elem_of_bfilter, elem_of_all_outputs, list_elem_of_fmap.
    unfold requested_files. setoid_rewrite (sort_by_perm cmp_entry). setoid_rewrite elem_of_bfilter.
    setoid_rewrite andb_true_iff. unfold is_content. cbn [norm_delimiter collapse].
    destruct o as [e|p]; cbn [output_key].
    + rewrite andb_true_r. split; [intros (? & ? & ?); by exists e|].
      by intros (e' & [= <-] & (? & ?) & ?).
    + split; [by intros (_ & e & _ & _ & [=])|by intros (e & [=] & _)].
Qed.

Lemma objects_inl es : objects (inl <$> es) = es.
Proof using Type. induction es as [|e es IH]; [done|]. cbn. f_equal. exact IH. Qed.

Lemma prefixes_inl es : prefixes (inl <$> es) = [].
Proof using Type. induction es as [|e es IH]; [done|]. exact IH. Qed.

Lemma flat_page_eq prefix after mk es :
  NoDup (key <$> es) → mk ≠ 0%N →
  flat_page prefix after mk es = page_parts (paginate es [] prefix None after mk).
Proof using Type.
  intros Hd Hm. rewrite paginate_page_spec by done. unfold flat_page, page_spec, page_parts.
  apply N.eqb_neq in Hm as ->. rewrite flat_outputs by done. rewrite length_fmap. cbv zeta.
  set (l := requested_files prefix after es). set (k := N.to_nat _).
  cbn [contents common_prefixes is_truncated next_token]. rewrite <- fmap_take, objects_inl, prefixes_inl.
  rewrite fmap_last. by destruct (last (take k l)), (bool_decide _).
Qed.

(** The files and directories a listing is of, in a namespace that does not
    change: the files below the directory the prefix spells out, or with the
    delimiter [/] its children. As for [walkable], where the code starts does not
    come into it, a prefix that no key matches has none, and of the prefixes [.]
    and [..] nothing is said. *)
Inductive listing_namespace (fuel : nat) (prefix : str) :
    option str → list ListEntry → list str → Prop :=
| ns_walk d es :
    d ≠ Some [slash] → walkable w mapper fuel prefix es → (N.of_nat (List.length es) <= USIZE_MAX)%N →
    listing_namespace fuel prefix d es []
| ns_slash rs tree ds part l :
    stable w mapper rs tree → Forall valid_seg ds → slash ∉ part → prefix = dir_prefix ds ++ part →
    prefix ≠ dot → prefix ≠ dotdot →
    or_missing (ns_of mapper tree (abs_path (rs ++ ds))) = Ok l →
    listing_namespace fuel prefix (Some [slash]) (Listing.files l) (Listing.dirs l)
| ns_nowhere :
    unmatched prefix → list_start mapper prefix = None → listing_namespace fuel prefix (Some [slash]) [] [].

Lemma namespace_nodup fuel prefix d fs ds :
  listing_namespace fuel prefix d fs ds → NoDup (key <$> fs).
Proof using Type.
  intros [? es _ Hw _|rs tree ds' part l Hst Hds Hpart -> _ _ Hns|_ _]; [|..|constructor].
  - by eapply walkable_nodup.
  - pose proof (stable_ns_wf w mapper rs tree Hst ds' l Hds) as Hwf.
    assert (l = empty_listing ∨ children_of ds' l) as [->|Hch]; [|constructor|].
    { destruct (ns_of mapper tree _) as [l0|[]]; cbn [or_missing] in Hns;
        first [right; apply Hwf; congruence|left; congruence]. }
    eapply strict_sorted_NoDup; [apply _|]. apply (StronglySorted_map key str_lt).
    by eapply dc_files_sorted, children_direct.
Qed.

Lemma page_answer_of fuel prefix d after mk fs ds r :
  listing_namespace fuel prefix d fs ds → mk ≠ 0%N → page_answer w mapper config fuel prefix d after mk r →
  r = Ok (Some (page_parts (paginate fs ds prefix d after mk))).
Proof using Type.
  intros Hns Hmk. destruct Hns as [d es Hd Hw Hes|rs tree ds' part l Hst Hds Hpart Hpre Hd1 Hd2 Hor|_ Hls].
  - unfold page_answer. destruct d as [d|].
    + rewrite bool_decide_eq_false_2 by congruence. intros [_ H]. by apply H.
    + intros [_ H]. rewrite (H es Hw). do 2 f_equal. apply flat_page_eq; [by eapply walkable_nodup|done].
  - intros (_ & _ & H). apply (H rs tree ds' part l Hst Hds Hpart Hpre); [|done]. subst prefix.
    by apply list_start_clean; [apply Hst|..].
  - intros (_ & H & _). rewrite (H Hls). do 2 f_equal. symmetry. exact (slash_page_empty prefix after mk).
Qed.

(** Directories come into a listing only with the delimiter [/]. *)
Lemma namespace_dirs fuel prefix d fs ds :
  listing_namespace fuel prefix d fs ds → d = Some [slash] ∨ ds = [].
Proof using Type. intros []; auto. Qed.

(** What the output of a listing says, as a page. *)
Definition reports (out : ListObjectsV2Output) (page : Page) : Prop :=
  or_else (out_contents out) [] = object_of_entry <$> contents page ∧
  or_else (out_common_prefixes out) [] = common_prefixes page ∧
  out_is_truncated out = is_truncated page ∧
  out_next_continuation_token out = encode_token <$> next_token page.

Lemma page_reported input mk files dirs prefix d after :
  let page := paginate files dirs prefix d after mk in
  reports (list_output mapper input mk (page_parts page)) page.
Proof using Type.
  intros page. destruct (list_output_fields input mk (contents page) (common_prefixes page)
    (is_truncated page) (next_token page)) as (H1 & H2 & H3 & H4 & _); [apply paginate_token|].
  by split_and!.
Qed.

(** A page is the outputs after the marker, cut at its size. *)
Lemma reported_segment out files dirs prefix d marker mk :
  NoDup (key <$> files) → reports out (paginate files dirs prefix d marker mk) →
  let rest := outputs_after marker (all_outputs files dirs prefix d) in
  let page := take (N.to_nat (N.min mk (N.of_nat (List.length rest)))) rest in
  let more := bool_decide (mk ≠ 0%N ∧ List.length page < List.length rest) in
  or_else (out_contents out) [] = object_of_entry <$> objects page ∧
  or_else (out_common_prefixes out) [] = prefixes page ∧
  out_is_truncated out = more ∧
  out_next_continuation_token out = (if more then encode_token ∘ output_key <$> last page else None).
Proof using Type.
  intros Hn Hr rest page more. unfold reports in Hr. destruct (decide (mk = 0%N)) as [->|Hmk].
  - assert (page = []) as -> by (unfold page; by rewrite N.min_0_l).
    assert (more = false) as -> by (unfold more; by apply bool_decide_eq_false_2; intros [? _]). exact Hr.
  - rewrite paginate_page_spec in Hr by done. unfold page_spec in Hr. cbv zeta in Hr.
    cbn [contents common_prefixes is_truncated next_token] in Hr. fold rest in Hr. fold page in Hr.
    destruct Hr as (H1 & H2 & H3 & H4).
    assert (more = bool_decide (N.to_nat (N.min mk (N.of_nat (List.length rest))) < List.length rest)) as ->.
    { apply bool_decide_ext. unfold page. rewrite length_take. lia. }
    split_and!; [done..|]. rewrite H4. case_bool_decide; [|done]. by destruct (last page).
Qed.

(** In every interleaving the answer to a listing is its page. *)
Lemma served_page gw ts i fuel input st o mk after fs ds :
  sizes_ok (cache config) → lengths_ok w → Pool gw ts → o ≠ OutDropped →
  ts !! i = Some (mkTask (ReqListObjects fuel input) st (Done o)) →
  lo_bucket input = Path.bucket mapper → parse_max_keys (lo_max_keys input) = Some mk → mk ≠ 0%N →
  parse_start_after input = Some after →
  listing_namespace fuel (or_else (lo_prefix input) []) (delimiter_of input) fs ds →
  ∃ id out, o = OutList (Ok (response w id (Some out))) ∧
    reports out (paginate fs ds (or_else (lo_prefix input) []) (delimiter_of input) after mk).
Proof.
  intros Hsz Hlen Hp Hnd Hi Hb Hmk Hmk0 Haf Hns.
  destruct (served_listing _ _ _ _ _ _ _ _ _ Hsz Hlen Hp Hnd Hi Hb Hmk Haf) as (id & r0 & Hpa & Ho).
  apply (page_answer_of _ _ _ _ _ _ _ _ Hns Hmk0) in Hpa. apply Ho in Hpa.
  eexists id, _. split; [exact Hpa|apply page_reported].
Qed.
End pages.
