(* ===== verification/RequestLog.v ===== *)
(** Request ids and log lines.

    Every request takes one number from the process-wide counter, and the id
    made of it is on its answer and in its two log lines. A request that is
    dropped while it awaits writes its second line from the drop of its log. *)

From S2P Require Import Prelude Prog Bytes Config Path Range Metadata HdfsError Listing.
From S2P Require Import Cache Caches SortedListing Merge Gateway ListObjects Requests.

Section log.
Context {L : Type → Type} `{!Lru str L} {R IoError : Type} `{!Base64}.
Context (w : World (R:=R) (IoError:=IoError)) (mapper : PathMapper) (config : Config).

Abbreviation State := (GwState (L:=L) (R:=R)).
Abbreviation HH A := (H (L:=L) (R:=R) A).

(** [HeaderValue::from_str] takes any text of visible ASCII characters as it
    is; an id has no others. *)
Definition header_law : Prop :=
  ∀ s : str, (∀ c, c ∈ s → (32 < N_of_ascii c < 127)%N) → header_value w s = Some s.

(** ** The ids *)

Lemma from_digit_visible d : (d < 16)%N → (32 < N_of_ascii (from_digit d) < 127)%N.
Proof.
  intros Hd%lt_16_cases. repeat (apply elem_of_cons in Hd as [->|Hd]; [by vm_compute|]).
  by apply elem_of_nil in Hd.
Qed.

Lemma fmt_hex_visible fuel n c : c ∈ fmt_hex_fuel fuel n → (32 < N_of_ascii c < 127)%N.
Proof.
  revert n. induction fuel as [|fuel IH]; intros n; cbn [fmt_hex_fuel]; [by intros ?%elem_of_nil|].
  destruct (N.ltb_spec n 16).
  - intros [->|[]%elem_of_nil]%elem_of_cons. by apply from_digit_visible.
  - intros [?%IH|[->|[]%elem_of_nil]%elem_of_cons]%elem_of_app; [done|].
    apply from_digit_visible, N.mod_lt. done.
Qed.

Lemma request_id_visible micros seq c :
  c ∈ fmt_request_id micros seq → (32 < N_of_ascii c < 127)%N.
Proof.
  unfold fmt_request_id. intros [?%fmt_hex_visible|[[->|[]%elem_of_nil]%elem_of_cons|
    ?%fmt_hex_visible]%elem_of_app]%elem_of_app; done.
Qed.

Lemma request_id_inj m1 s1 m2 s2 :
  (s1 < U64_MOD)%N → (s2 < U64_MOD)%N → fmt_request_id m1 s1 = fmt_request_id m2 s2 → s1 = s2.
Proof.
  intros H1 H2 E. apply dash_split_inj in E as [_ E]; [|by apply fmt_hex_no_dash..].
  by apply fmt_hex_inj.
Qed.

(** The id an answer carries: the response header, or the error's request id. *)
Definition carried_id {A} (r : result (S3Response A) S3Error) : option str :=
  match r with
  | Ok resp => snd <$> head (List.filter (λ h, bool_decide (h.1 = request_id_header)) (headers resp))
  | Err e => error_request_id e
  end.

Definition outcome_id (o : Outcome R IoError) : option str :=
  match o with
  | OutUnit r => carried_id r
  | OutHead r => carried_id r
  | OutBuckets r => carried_id r
  | OutList r => carried_id r
  | OutGet r => carried_id r
  | OutBody _ => None
  | OutDropped => None
  end.

Definition outcome_ok (o : Outcome R IoError) : bool :=
  match o with
  | OutUnit r => is_ok r
  | OutHead r => is_ok r
  | OutBuckets r => is_ok r
  | OutList r => is_ok r
  | OutGet r => is_ok r
  | OutBody out => forallb is_ok out
  | OutDropped => false
  end.

(** ** Code between the two log lines *)

(** It takes no number and writes no line. *)
Definition quietly (s s' : State) : Prop := gw_seq s' = gw_seq s ∧ gw_events s' = gw_events s.

#[export] Instance quietly_preorder : PreOrder quietly.
Proof. split; [done|]. intros a b c [H1 H2] [H3 H4]. split; congruence. Qed.

(** The log of a request under way. *)
Definition same_log (log log' : RequestLog) : Prop :=
  op log' = op log ∧ request_id log' = request_id log ∧ ok log' = ok log.

(** A drop while this log is alive: it writes the second line. *)
Definition completes (log : RequestLog) (s s' : State) : Prop :=
  ∃ path n, s' = log_event (Completed (request_id log) (op log) path n (ok log)) s.

Lemma completes_same log log' s s' : same_log log log' → completes log' s s' → completes log s s'.
Proof. unfold completes. intros (-> & -> & ->). done. Qed.

(** A step of a handler: quiet, and an error it raises carries the id. *)
Definition quiet {A} (c : HH A) : Prop := ∀ log,
  keeps (completes log) quietly (c log) (λ r, same_log log r.2 ∧
    match r.1 with Ok _ => True | Err e => error_request_id e = Some (request_id log) end).

(** A handler's body: quiet, its answer carries the id, and the log says
    whether it succeeded. *)
Definition answering {A} (c : HH (S3Response A)) : Prop := ∀ log,
  ok log = false → header_value w (request_id log) = Some (request_id log) →
  keeps (completes log) quietly (c log) (λ r, op r.2 = op log ∧ request_id r.2 = request_id log ∧
    ok r.2 = is_ok r.1 ∧ carried_id r.1 = Some (request_id log)).

Lemma keeps_same {A} log log' (p : Prog State A) (Q : A → Prop) :
  same_log log log' → keeps (completes log') quietly p Q → keeps (completes log) quietly p Q.
Proof. intros Hl. apply keeps_weaken; [|done]. intros s s'. by apply completes_same. Qed.

Lemma quiet_bind {A B} (c : HH A) (k : A → HH B) :
  quiet c → (∀ a, quiet (k a)) → quiet (bind c k).
Proof.
  intros Hc Hk log. unfold bind. eapply keeps_bind; [apply Hc|].
  intros [[a|e] log'] [Hl He]; cbn [fst snd] in *; [|done]. eapply keeps_same; [exact Hl|].
  destruct Hl as (E1 & E2 & E3).
  eapply keeps_mono; [|apply Hk]. intros r [(F1 & F2 & F3) Hr]. rewrite <- E2.
  split; [|done]. split_and!; congruence.
Qed.

Lemma answering_bind {A B} (c : HH A) (k : A → HH (S3Response B)) :
  quiet c → (∀ a, answering (k a)) → answering (bind c k).
Proof.
  intros Hc Hk log Hok Hv. unfold bind. eapply keeps_bind; [apply Hc|].
  intros [[a|e] log'] [Hl He]; cbn [fst snd] in *;
    [eapply keeps_same; [exact Hl|]|]; destruct Hl as (E1 & E2 & E3); [|cbn; split_and!; congruence].
  eapply keeps_mono; [|apply Hk; congruence]. intros r (F1 & F2 & F3 & F4). rewrite <- E2.
  split_and!; congruence.
Qed.

Lemma quiet_ret {A} (a : A) : quiet (ret a).
Proof. by intros log. Qed.

Lemma quiet_fail {A} e : quiet (fail w e : HH A).
Proof. by intros log. Qed.

Lemma quiet_set_path p : quiet (set_path p).
Proof. by intros log. Qed.

Lemma quiet_set_bytes n : quiet (set_bytes n).
Proof. by intros log. Qed.

Lemma quiet_access {A} (f : State → A * State) : (∀ s, quietly s (f s).2) → quiet (access f).
Proof. intros Hf log s. split_and!; [apply Hf|done..]. Qed.

Lemma quietly_on_caches {A} (f : N → Caches L R → A * Caches L R) s : quietly s (on_caches w f s).2.
Proof. unfold on_caches. by destruct (f _ _). Qed.

Lemma quiet_caches {A} (f : N → Caches L R → A * Caches L R) : quiet (access (on_caches w f)).
Proof. apply quiet_access. intros s. apply quietly_on_caches. Qed.

(** Another program: wherever it awaits, the log is alive. *)
Lemma quiet_lift {A} (p : Prog State A) :
  keeps (λ _ _, True) quietly p (λ _, True) → quiet (lift p).
Proof.
  intros Hp log. unfold lift. eapply keeps_bind; [eapply keeps_owning; [|exact Hp]|done].
  intros s. by eexists _, _.
Qed.

Lemma quiet_call {A} (f : nat → A) : quiet (call f).
Proof. apply quiet_lift. intros s. by split_and!. Qed.

Lemma quiet_clock {A} (f : nat → A) : quiet (read_clock f).
Proof. by apply quiet_access. Qed.

Lemma answering_fail {A} e : answering (fail w e : HH (S3Response A)).
Proof. by intros log. Qed.

Lemma answering_respond {A} (a : A) : answering (respond w a).
Proof.
  intros log Hok Hv. unfold respond, with_request_id. rewrite Hv. cbn. split_and!; done.
Qed.
End log.

Create HintDb quiet.
#[export] Hint Resolve quiet_ret quiet_fail quiet_set_path quiet_set_bytes quiet_caches quiet_call quiet_clock
  answering_fail answering_respond : quiet.

(** Code made of quiet steps, taken apart along its binds and matches. *)
Ltac quiet_code :=
  repeat first
    [ progress auto with quiet nocore
    | apply quiet_bind
    | apply answering_bind
    | progress intros
    | progress cbv zeta
    | match goal with
      | |- quiet (match ?x with _ => _ end) => destruct x
      | |- answering _ (match ?x with _ => _ end) => destruct x
      end ].

(** ** The handlers *)

Section handlers.
Context {L : Type → Type} `{!Lru str L} {R IoError : Type} `{!Base64}.
Context (w : World (R:=R) (IoError:=IoError)) (mapper : PathMapper) (config : Config).

Abbreviation State := (GwState (L:=L) (R:=R)).
Abbreviation HH A := (H (L:=L) (R:=R) A).

Lemma quiet_file_meta p : quiet (L:=L) (file_meta w config p).
Proof. unfold file_meta, metadata_get, negative_get, metadata_insert, negative_insert. quiet_code. Qed.

Lemma quiet_open_reader p m : quiet (L:=L) (open_reader w config p m).
Proof. unfold open_reader, blocks_get, blocks_insert, blocks_remove, metadata_remove. quiet_code. Qed.

Lemma quiet_resolve_object bucket key : quiet (L:=L) (resolve_object w mapper config bucket key).
Proof. unfold resolve_object. pose proof quiet_file_meta. quiet_code. Qed.

(** The lister touches the directory cache and the tick only. *)
Lemma list_dir_keeps p :
  keeps (λ _ _, True) quietly (hdfs_list_dir w mapper p : Prog State (result DirListing HdfsError)) (λ _, True).
Proof.
  unfold hdfs_list_dir. eapply (keeps_bind _ _ _ _ _ (λ _, True)).
  { apply keeps_act. intros s'. split; [apply quietly_on_caches|done]. }
  intros [l|] _; [done|]. eapply (keeps_bind _ _ _ _ _ (λ _, True)); [intros s'; by split_and!|].
  intros [sts|e] _; [|done]. cbv zeta. eapply (keeps_bind _ _ _ _ _ (λ _, True)); [|done].
  apply keeps_act. intros s'. split; [apply quietly_on_caches|done].
Qed.

Lemma quiet_lift_list_dir p : quiet (L:=L) (lift (hdfs_list_dir w mapper p)).
Proof. apply quiet_lift, list_dir_keeps. Qed.

Lemma quiet_run_merge fuel prefix after mk : quiet (run_merge w mapper config fuel prefix after mk).
Proof.
  unfold run_merge, fail_hdfs. destruct (list_start mapper prefix) as [start|]; [|apply quiet_ret].
  apply quiet_bind; [|quiet_code]. apply quiet_lift, (collect_page_keeps _ quietly list_dir_keeps).
Qed.

(** The name of the operation in the log. *)
Definition op_name (q : Request R) : str :=
  match q with
  | ReqHeadBucket _ => $"HeadBucket"
  | ReqHeadObject _ => $"HeadObject"
  | ReqListBuckets => $"ListBuckets"
  | ReqListObjects _ _ => $"ListObjectsV2"
  | ReqGetObject _ => $"GetObject"
  | ReqWrite o => write_op_name o
  | ReqProbe o => probe_op_name o
  | ReqBody _ => []
  end.

(** Every operation is one request whose body is quiet and answers. *)
Definition operation (q : Request R) : Prop :=
  ∃ A (f : result (S3Response A) S3Error → Outcome R IoError) (body : HH (S3Response A)),
    handler w mapper config q = pmap f (request w (op_name q) body) ∧ answering w body ∧
    ∀ r, outcome_id (f r) = carried_id r ∧ outcome_ok (f r) = is_ok r.

Lemma handler_operation q : (∀ b, q ≠ ReqBody b) → operation q.
Proof.
  intros Hq.
  pose proof quiet_resolve_object as H1. pose proof quiet_open_reader as H2.
  pose proof quiet_lift_list_dir as H3. pose proof quiet_run_merge as H4.
  destruct q as [bucket|i| |fuel i|i|o|o|b]; [| | | | | | |by destruct (Hq b)];
    eexists _, _, _; (split; [reflexivity|]); (split; [|done]).
  - quiet_code.
  - quiet_code.
  - quiet_code.
  - unfold list_slash, list_delimited, list_flat, fail_hdfs. quiet_code.
  - unfold blocks_remove, metadata_remove. quiet_code.
  - quiet_code.
  - unfold bucket_not_configured. quiet_code.
Qed.

(** ** Ids and lines of one request *)

(** The id of a line, and the ids a number may have been made into. *)
Definition event_id (e : LogEvent) : str :=
  match e with Started id _ => id | Completed id _ _ _ _ => id end.

Definition id_of (n : N) (id : str) : Prop := ∃ micros, id = fmt_request_id micros (n mod U64_MOD).

Lemma id_of_inj n n' id : (n < U64_MOD)%N → (n' < U64_MOD)%N → id_of n id → id_of n' id → n = n'.
Proof.
  intros H1 H2 [m1 ->] [m2 E]. apply request_id_inj in E; [|by apply N.mod_lt..].
  by rewrite !N.mod_small in E by done.
Qed.

Abbreviation own := (option (N * str * list LogEvent)).
Abbreviation gw_step := (own_step (S:=State) gw_seq gw_events event_id id_of).
Abbreviation gw_owns := (owns (S:=State) gw_seq gw_events event_id id_of).

(** The two lines of a request, and what it owns when it is over: both, or
    nothing if it was dropped before its first poll. *)
Definition lines (id op path : str) (n : N) (ok : bool) : list LogEvent :=
  [Started id op; Completed id op path n ok].

Definition wrote (op : str) (ok : bool) (id : option str) (g : own) : Prop :=
  ∃ n x path b, g = Some (n, x, lines x op path b ok) ∧ ∀ i, id = Some i → i = x.

Definition logged (q : Request R) (g : own) (o : Outcome R IoError) : Prop :=
  match q, o with
  | ReqBody _, _ => g = None
  | _, OutDropped => g = None ∨ wrote (op_name q) false None g
  | _, _ => is_Some (outcome_id o) ∧ wrote (op_name q) (outcome_ok o) (outcome_id o) g
  end.

Lemma logged_answer q g o :
  logged q g o → o ≠ OutDropped → (∀ b, q ≠ ReqBody b) →
  ∃ n x path b, g = Some (n, x, lines x (op_name q) path b (outcome_ok o)) ∧ outcome_id o = Some x.
Proof.
  intros Hl Hd Hq. assert (is_Some (outcome_id o) ∧ wrote (op_name q) (outcome_ok o) (outcome_id o) g)
    as [[x Ex] (n & x' & path & b & -> & Hx)] by (destruct q, o; try done; by destruct (Hq b)).
  exists n, x', path, b. split; [done|]. rewrite Ex in Hx |- *. by rewrite (Hx x eq_refl).
Qed.

(** What a task over owns, if anything, is two lines. *)
Lemma logged_lines q g o n x es :
  logged q g o → g = Some (n, x, es) → ∃ path b ok, es = lines x (op_name q) path b ok.
Proof.
  intros Hl ->. assert (∃ ok id, wrote (op_name q) ok id (Some (n, x, es))) as (ok & id & n' & x' & path & b & E & _).
  { destruct q, o; cbn [logged] in Hl; try done;
      first [destruct Hl as [_ Hw]|destruct Hl as [Hw|Hw]; [done|]]; eauto. }
  injection E as _ <- ->. eauto.
Qed.

(** The part of them written so far, once the first is. *)
Lemma lines_prefix id op op' path n ok es es' :
  es ++ es' = lines id op path n ok → Started id op' ∈ es →
  op' = op ∧ (es = [Started id op] ∨ es = lines id op path n ok).
Proof.
  unfold lines. destruct es as [|e1 [|e2 [|e3 es]]]; [by intros _ ?%elem_of_nil|..]; intros [=]; subst.
  - intros [= ->]%list_elem_of_singleton. by split; [|left].
  - intros [[= ->]|[[=]|[]%elem_of_nil]%elem_of_cons]%elem_of_cons. by split; [|right].
Qed.

Lemma new_log_owns op QD :
  gw_owns None (new_log w op : Prog State RequestLog) (λ g log,
    ∃ n, g = Some (n, request_id log, [Started (request_id log) op]) ∧ id_of n (request_id log) ∧
      Gateway.op log = op ∧ ok log = false) QD.
Proof.
  unfold new_log, new_request_id, push_event, act. cbn [pbind owns].
  intros s1. split; [|done]. eexists. split; [by apply own_silent|]. intros s2. split; [|done].
  eexists. split; [apply own_ticket; [done|done|by eexists]|]. intros s3. split; [|done].
  eexists. split; [by apply own_entry|]. cbn. eexists. split_and!; [done|by eexists|done..].
Qed.

Lemma request_owns {A} op (body : HH (S3Response A)) :
  header_law w → answering w body →
  gw_owns None (request w op body)
    (λ g r, is_Some (carried_id r) ∧ wrote op (is_ok r) (carried_id r) g)
    (λ g, g = None ∨ wrote op false None g).
Proof.
  intros Hv Hb. unfold request. cbn [await pbind owns]. intros s. split.
  2:{ exists None. split; [by apply own_silent|by left]. }
  exists None. split; [by apply own_silent|]. eapply owns_bind; [apply new_log_owns|].
  intros g log (n & -> & Hid & Hop & Hok).
  assert (header_value w (request_id log) = Some (request_id log)) as Hhv.
  { apply Hv. destruct Hid as [m ->]. apply request_id_visible. }
  eapply owns_bind.
  { eapply keeps_owns; [|by apply Hb]. intros s1 s2 (path & b & ->). eexists. split; [by apply own_entry|].
    right. exists n, (request_id log), path, b. by rewrite Hop, Hok. }
  intros g r (-> & Ho & Hi & Hk & Hc). unfold drop_log, push_event, act. cbn [pbind owns].
  intros s1. split; [|done]. eexists. split; [by apply own_entry|]. rewrite Hc. split; [done|].
  unfold completion. rewrite Ho, Hi, Hk, Hop. eexists _, _, _, _. split; [reflexivity|]. by intros i [= <-].
Qed.

Lemma bytes_stream_keeps p items limit remaining :
  keeps (λ s s', s' = s) quietly (bytes_stream (map (evict_on_error w p) items) limit remaining : Prog State _)
    (λ _, True).
Proof.
  revert remaining. induction items as [|r items IH]; intros remaining;
    cbn [map bytes_stream]; destruct (N.eqb remaining 0); try done.
  eapply (keeps_bind _ _ _ _ _ (λ _, True)).
  - destruct r as [x|e]; cbn [evict_on_error]; [done|].
    eapply (keeps_bind _ _ _ _ _ (λ _, True)).
    { apply keeps_act. intros s'. split; [apply quietly_on_caches|done]. }
    intros _ _. eapply (keeps_bind _ _ _ _ _ (λ _, True)); [|done].
    apply keeps_act. intros s'. split; [apply quietly_on_caches|done].
  - intros [x|e] _; cbv zeta; by (eapply keeps_bind; [apply IH|]).
Qed.

Lemma handler_owns q :
  header_law w →
  gw_owns None (handler w mapper config q : Prog State _) (logged q) (λ g, logged q g OutDropped).
Proof.
  intros Hv. assert ((∃ b, q = ReqBody b) ∨ ∀ b, q ≠ ReqBody b) as [[b ->]|Hq].
  { destruct q; try (by right). left. eauto. }
  - cbn [handler]. unfold pmap. eapply owns_bind; [eapply (keeps_owns _ _ _ _ (λ s s', s' = s))|].
    + intros s s' ->. exists None. split; [by apply own_silent|done].
    + unfold stream_body. eapply (keeps_bind _ _ _ _ _ (λ _, True)); [intros s; by split_and!|].
      intros items _. apply bytes_stream_keeps.
    + intros g out [-> _]. done.
  - destruct (handler_operation q Hq) as (A & f & body & -> & Hb & Hf). unfold pmap.
    eapply owns_bind; [eapply owns_mono; [..|by apply request_owns]|].
    + intros g r Hr. exact Hr.
    + intros g Hg. destruct q; try done. by destruct (Hq b).
    + intros g r [Hs Hw]. destruct (Hf r) as [E1 E2]. cbn [owns]. rewrite <- E1, <- E2 in *.
      destruct q; cbn [logged]; [..|by destruct (Hq b)]; destruct (f r) eqn:Ef; try done;
        by destruct Hs.
Qed.
End handlers.
