(* ===== verification/Demo.v ===== *)
(** A small file system, on which the witnesses run requests.

    The root [/data] holds a file [a.txt] of five bytes and a directory [d] with
    a file [x]. The clock advances ten milliseconds with every tick. *)

From S2P Require Import Prelude Prog Bytes Config Path Range Metadata HdfsError Listing.
From S2P Require Import Cache Caches SortedListing Merge Gateway ListObjects.
From S2P Require Import Invariant Objects Listings Requests RequestLog.

#[export] Existing Instance plain64.

Definition demo_config : Config := with_cache true (data_config $"/data").
Definition demo_paths : PathMapper := new_mapper demo_config.

Definition status_a : FileStatus := mkFileStatus $"/data/a.txt" 5 false 1500.
Definition status_d : FileStatus := mkFileStatus $"/data/d" 0 true 0.
Definition status_x : FileStatus := mkFileStatus $"/data/d/x" 1 false 2000.

Definition demo_tree (p : str) : result (list FileStatus) HdfsError :=
  if bool_decide (p = $"/data") then Ok [status_d; status_a]
  else if bool_decide (p = $"/data/d") then Ok [status_x]
  else Err (FileNotFound p).

Definition demo_status (p : str) : result FileStatus HdfsError :=
  if bool_decide (p = $"/data/a.txt") then Ok status_a
  else if bool_decide (p = $"/data/d") then Ok status_d
  else if bool_decide (p = $"/data/d/x") then Ok status_x
  else Err (FileNotFound p).

Definition etag_eqb (a b : ETag) : bool :=
  match a, b with
  | Strong x, Strong y => bool_decide (x = y)
  | _, _ => false
  end.

(** A reader is the contents of its file. *)
Definition demo_world : World (R:=str) (IoError:=unit) := {|
  clock := λ t, (10 * N.of_nat t)%N;
  system_time := λ t, (1000000 * N.of_nat t)%N;
  get_file_info := λ _, demo_status;
  list_status := λ _, demo_tree;
  read := λ _ p, if bool_decide (p = $"/data/a.txt") then Ok $"hello" else Err (FileNotFound p);
  reader_length := λ r, N.of_nat (List.length r);
  read_range_stream := λ _ r s n, [Ok (take (N.to_nat n) (drop (N.to_nat s) r))];
  hdfs_to_string := λ _, [];
  strong_cmp := etag_eqb;
  weak_cmp := etag_eqb;
  header_value := Some;
  mime_first := λ _, None;
|}.

Abbreviation demo_start := (initial (L:=list_lru str) (R:=str) demo_config).
Abbreviation demo_handler := (handler (L:=list_lru str) demo_world demo_paths demo_config).

(** The gateway after one request, and the task that served it. *)
Definition after_one (q : Request str) : GwState * list (Task (A:=Outcome str unit)) :=
  ((exec (demo_handler q) demo_start).2,
   [] ++ [mkTask q demo_start (Done (exec (demo_handler q) demo_start).1)]).

Definition outcome_of (q : Request str) : Outcome str unit := (exec (demo_handler q) demo_start).1.

Lemma after_one_task q : (after_one q).2 !! 0 = Some (mkTask q demo_start (Done (outcome_of q))).
Proof. reflexivity. Qed.

Lemma after_one_served q :
  served demo_world demo_paths demo_config (after_one q).1 (after_one q).2.
Proof. apply pool_request. apply rtc_refl. Qed.

Lemma demo_answered q s : (exec (demo_handler q) s).1 ≠ OutDropped.
Proof. apply answered_alone. Qed.

(** The gateway after one request that was dropped after [n] accesses. *)
Definition after_drop (q : Request str) (n : nat) : option (GwState (L:=list_lru str)) :=
  cut (run_for n (demo_handler q) demo_start).

Lemma after_drop_served q n gw :
  after_drop q n = Some gw →
  served demo_world demo_paths demo_config gw [mkTask q demo_start (Done OutDropped)].
Proof. intros H. exact (pool_dropped _ _ _ n _ [] _ _ H). Qed.

(** And after a second one. *)
Definition after_two (q1 q2 : Request str) : GwState * list (Task (A:=Outcome str unit)) :=
  let s1 := (after_one q1).1 in
  ((exec (demo_handler q2) s1).2,
   (after_one q1).2 ++ [mkTask q2 s1 (Done (exec (demo_handler q2) s1).1)]).

Definition outcome_after (q1 q2 : Request str) : Outcome str unit :=
  (exec (demo_handler q2) (after_one q1).1).1.

Lemma after_two_first q1 q2 :
  (after_two q1 q2).2 !! 0 = Some (mkTask q1 demo_start (Done (outcome_of q1))).
Proof. reflexivity. Qed.

Lemma after_two_second q1 q2 :
  (after_two q1 q2).2 !! 1 = Some (mkTask q2 (after_one q1).1 (Done (outcome_after q1 q2))).
Proof. reflexivity. Qed.

Lemma after_two_served q1 q2 :
  served demo_world demo_paths demo_config (after_two q1 q2).1 (after_two q1 q2).2.
Proof. apply pool_request. apply after_one_served. Qed.

Lemma demo_sizes : sizes_ok (cache demo_config).
Proof. by split. Qed.

Lemma demo_lengths : lengths_ok demo_world.
Proof.
  intros t p st. cbn. unfold demo_status. do 3 (case_bool_decide; [by intros [= <-]|]). done.
Qed.

Lemma demo_header : header_law demo_world.
Proof. by intros s _. Qed.

Lemma demo_stable : stable demo_world demo_paths [$"data"] demo_tree.
Proof.
  split; [split; [by apply Forall_singleton, demo_valid|done]|done|].
  assert (Forall valid_seg [$"data"]) as Hd by (by apply Forall_singleton, demo_valid).
  intros ds sts Hds. unfold demo_tree. case_bool_decide as E; [|case_bool_decide as E2; [|done]];
    intros [= <-].
  - assert ([$"data"] ++ ds = [$"data"]) as E2.
    { apply abs_path_inj; [by apply Forall_app|done|exact E]. }
    destruct ds; [|done]. split.
    + intros st [->|[->|[]%elem_of_nil]%elem_of_cons]%elem_of_cons;
        [exists $"d"|exists $"a.txt"]; by split; [apply demo_valid|].
    + by apply (bool_decide_unpack _).
  - assert ([$"data"] ++ ds = [$"data"; $"d"]) as E3.
    { apply abs_path_inj; [by apply Forall_app|by repeat (constructor; [by apply demo_valid|])|exact E2]. }
    injection E3 as ->. split.
    + intros st [->|[]%elem_of_nil]%elem_of_cons. exists $"x". by split; [apply demo_valid|].
    + by apply (bool_decide_unpack _).
Qed.

(** The files of the tree. *)
Definition demo_files : list ListEntry :=
  [mkListEntry $"a.txt" 5 1500; mkListEntry $"d/x" 1 2000].

Lemma demo_walkable prefix :
  prefix = [] → walkable demo_world demo_paths 10 prefix demo_files.
Proof.
  intros ->. eapply (walk_below _ _ _ _ [$"data"] demo_tree [] [] 5 3);
    [apply demo_stable|constructor|apply not_elem_of_nil|done|done|done|by vm_compute|lia].
Qed.

(** A listing, one key to the page. *)
Definition demo_list (delimiter : option str) : ListObjectsV2Input :=
  mkListObjectsV2Input $"hdfs" None delimiter (Some 1%Z) None None.
