(* ===== verification/Confinement.v ===== *)
(** No request depends on what HDFS holds outside the configured root.

    [elsewhere] gives the world another HDFS. If the two agree below the root,
    every handler makes the same accesses with the same results ([same]), so
    the gateway answers, caches and logs the same in every interleaving. *)

From S2P Require Import Prelude Prog Bytes Config Path HdfsError Listing.
From S2P Require Import Cache Caches SortedListing Merge Gateway ListObjects Listings Requests Demo.

Section confinement.
Context {L : Type → Type} `{!Lru str L} {R IoError : Type} `{!Base64}.
Context (w : World (R:=R) (IoError:=IoError)) (mapper : PathMapper) (config : Config).

Abbreviation State := (GwState (L:=L) (R:=R)).
Abbreviation HH A := (H (L:=L) (R:=R) A).

(** Another HDFS behind the same gateway. *)
Context (stat' : nat → str → result FileStatus HdfsError).
Context (list' : nat → str → result (list FileStatus) HdfsError).
Context (read' : nat → str → result R HdfsError).

Definition elsewhere : World (R:=R) (IoError:=IoError) := {|
  clock := clock w;
  system_time := system_time w;
  get_file_info := stat';
  list_status := list';
  read := read';
  reader_length := reader_length w;
  read_range_stream := read_range_stream w;
  hdfs_to_string := hdfs_to_string w;
  strong_cmp := strong_cmp w;
  weak_cmp := weak_cmp w;
  header_value := header_value w;
  mime_first := mime_first w;
|}.

(** The paths below the root [rs]. *)
Definition below_root (rs : list str) (p : str) : Prop :=
  ∃ ds, Forall valid_seg ds ∧ p = abs_path (rs ++ ds).

Record agree_below (rs : list str) : Prop := {
  ag_stat : ∀ t p, below_root rs p → get_file_info w t p = stat' t p;
  ag_list : ∀ t p, below_root rs p → list_status w t p = list' t p;
  ag_read : ∀ t p, below_root rs p → read w t p = read' t p;
}.

Context (rs : list str) (Hm : rooted_at mapper rs) (Hag : agree_below rs).

(** ** Steps of a handler *)

(** The same step, whose value satisfies [Q] when it does not fail. *)
Definition hsame {A} (Q : A → Prop) (c c' : HH A) : Prop := ∀ log,
  same (λ r, match r.1 with Ok a => Q a | Err _ => True end) (c log) (c' log).

Lemma hsame_refl {A} (c : HH A) : hsame (λ _, True) c c.
Proof using Type. intros log. eapply same_mono; [|apply same_refl]. by intros [[a|e] l] _. Qed.

Lemma hsame_bind {A B} (Q : A → Prop) (Q' : B → Prop) c c' (k k' : A → HH B) :
  hsame Q c c' → (∀ a, Q a → hsame Q' (k a) (k' a)) → hsame Q' (bind c k) (bind c' k').
Proof using Type.
  intros Hc Hk log. unfold bind. eapply same_bind; [apply Hc|].
  intros [[a|e] l] Ha; cbn [fst] in Ha; [by apply Hk|by constructor].
Qed.

Lemma hsame_ret {A} (Q : A → Prop) a : Q a → hsame Q (ret a) (ret a).
Proof using Type. intros Ha log. by constructor. Qed.

Lemma hsame_fail {A} (Q : A → Prop) e : hsame Q (fail w e) (fail elsewhere e).
Proof using Type. intros log. by constructor. Qed.

Lemma hsame_lift {A} (p p' : Prog State A) :
  same (λ _, True) p p' → hsame (λ _, True) (lift p) (lift p').
Proof using Type.
  intros Hp log. eapply same_bind; [apply same_owning, Hp|]. intros a _. by constructor.
Qed.

Lemma same_remote {A} (f f' : nat → A) : (∀ t, f t = f' t) →
  same (λ _, True) (await (λ gw : State, (f (gw_tick gw), step_tick gw)))
    (await (λ gw, (f' (gw_tick gw), step_tick gw))).
Proof using Type. intros Hf. constructor; [done|intros s; by rewrite Hf|by constructor]. Qed.

Lemma hsame_call {A} (f f' : nat → A) : (∀ t, f t = f' t) → hsame (λ _, True) (call f) (call f').
Proof using Type. intros Hf. by apply hsame_lift, same_remote. Qed.

Lemma request_same {A} op (body body' : HH (S3Response A)) :
  hsame (λ _, True) body body' →
  same (λ _, True) (request w op body) (request elsewhere op body').
Proof using Type.
  intros Hb. unfold request. eapply same_bind; [apply same_refl|]. intros _ _.
  eapply same_bind; [apply same_refl|]. intros log _.
  eapply same_bind; [apply Hb|]. intros r _. apply same_refl.
Qed.

(** ** Objects *)

Lemma file_meta_same p :
  below_root rs p → hsame (λ _, True) (file_meta w config p) (file_meta elsewhere config p).
Proof using Hag.
  intros Hp. unfold file_meta. eapply hsame_bind; [apply (hsame_refl (metadata_get w p))|].
  intros [m|] _; [apply hsame_refl|].
  eapply hsame_bind; [apply (hsame_refl (negative_get w p))|]. intros [u|] _; [apply hsame_fail|].
  eapply hsame_bind; [apply hsame_call; intros t; by apply (ag_stat rs)|].
  intros r _. exact (hsame_refl _).
Qed.

Lemma open_reader_same p m :
  below_root rs p → hsame (λ _, True) (open_reader w config p m) (open_reader elsewhere config p m).
Proof using Hag.
  intros Hp. unfold open_reader. cbv zeta.
  eapply hsame_bind; [apply (hsame_refl (blocks_get w p))|]. intros hit _.
  assert (∀ k : result R HdfsError → HH R,
    hsame (λ _, True) (bind (call (λ t, read w t p)) k) (bind (call (λ t, read elsewhere t p)) k)) as Hopen.
  { intros k. eapply hsame_bind; [apply hsame_call; intros t; by apply (ag_read rs)|].
    intros r _. apply hsame_refl. }
  destruct hit as [c|]; [|apply Hopen]. destruct (_ && _); [apply hsame_refl|].
  eapply hsame_bind; [apply (hsame_refl (blocks_remove w p))|]. intros [] _. apply Hopen.
Qed.

Lemma resolve_object_same bucket key :
  hsame (λ r, below_root rs r.1) (resolve_object w mapper config bucket key)
    (resolve_object elsewhere mapper config bucket key).
Proof using Hag Hm.
  unfold resolve_object. destruct (negb _); [apply hsame_fail|].
  destruct (key_to_hdfs_path mapper key) as [p|] eqn:E; [|apply hsame_fail].
  apply (key_to_hdfs_path_inv _ rs) in E; [|done].
  eapply hsame_bind; [apply hsame_refl|]. intros [] _.
  eapply hsame_bind; [by apply file_meta_same|]. intros m _.
  destruct (fm_isdir m); [apply hsame_fail|by apply hsame_ret].
Qed.

Lemma get_object_same i :
  same (λ _, True) (get_object w mapper config i : Prog State _) (get_object elsewhere mapper config i).
Proof using Hag Hm.
  apply request_same. eapply hsame_bind; [apply resolve_object_same|]. intros [p m] Hp. cbn [fst] in Hp.
  cbv zeta. change (preconditions elsewhere) with (preconditions w).
  destruct (preconditions w _ _ _); [apply hsame_refl|].
  destruct (resolve_window _ _) as [[[[s e] len] cr]|]; [|apply hsame_refl].
  destruct (usize_try_from s), (usize_try_from e); try apply hsame_refl.
  eapply hsame_bind; [by apply open_reader_same|]. intros r _. exact (hsame_refl _).
Qed.

(** ** Listings *)

Lemma list_dir_same p :
  below_root rs p →
  same (λ _, True) (hdfs_list_dir w mapper p : Prog State _) (hdfs_list_dir elsewhere mapper p).
Proof using Hag.
  intros Hp. unfold hdfs_list_dir. eapply same_bind; [apply same_refl|]. intros [l|] _; [by constructor|].
  eapply same_bind; [apply (same_remote (λ t, list_status w t p) (λ t, list_status elsewhere t p));
    intros t; by apply (ag_list rs)|]. intros r _. exact (same_refl _).
Qed.

(** The merge opens the start of the listing and directories of keys. *)
Definition merge_frame (sl : SortedListing) : Prop :=
  sl_mapper sl = mapper ∧ below_root rs (sl_start sl).

Definition pulled_frame (o : option (result (option ListEntry) HdfsError * SortedListing)) : Prop :=
  ∀ r sl, o = Some (r, sl) → merge_frame sl.

Section merge.
Context (D D' : DirLister State).
Context (Hd : ∀ p, below_root rs p → same (λ _, True) (list_dir (DirLister:=D) p) (list_dir (DirLister:=D') p)).

Lemma pulled_same r sl :
  merge_frame sl → same (S:=State) pulled_frame (Done (Some (r, sl))) (Done (Some (r, sl))).
Proof using Type. intros Hf. constructor. by intros ? ? [= <- <-]. Qed.

Lemma next_loop_same fuel sl :
  merge_frame sl → same pulled_frame (next_loop (DirLister0:=D) fuel sl) (next_loop (DirLister0:=D') fuel sl).
Proof using Hd Hm.
  revert sl. induction fuel as [|fuel IH]; intros sl Hfr; cbn [next_loop]; [by constructor|].
  destruct (heap_pop (sl_heap sl)) as [[c h]|]; [|by apply pulled_same].
  destruct (advance c) as [more next].
  set (sl2 := set_heap (if more then next :: h else h) sl).
  assert (merge_frame sl2) as Hfr2 by done.
  assert (∀ l, merge_frame (push_listing l sl2)) as Hpush by done. clearbody sl2.
  destruct (cur_files c).
  - destruct (files (cur_listing c) !! cur_idx c) as [f|]; [|by constructor].
    destruct (negb _); [by apply IH|]. destruct (negb _); [by apply IH|]. by apply pulled_same.
  - destruct (Listing.dirs (cur_listing c) !! cur_idx c) as [k|]; [|by constructor].
    destruct (negb _); [by apply IH|].
    destruct (match sl_after sl2 with Some _ => _ | None => _ end); [by apply IH|].
    rewrite (proj1 Hfr2). destruct (key_to_hdfs_path mapper k) as [p|] eqn:Ek; [|by apply IH].
    apply (key_to_hdfs_path_inv _ rs) in Ek; [|done].
    eapply same_bind; [by apply Hd|]. intros [l|e] _; [by apply IH|].
    destruct (is_dir_denied e); [by apply IH|]. destruct e; by (apply IH || apply pulled_same).
Qed.

Lemma next_entry_same fuel sl :
  merge_frame sl → same pulled_frame (next_entry (DirLister0:=D) fuel sl) (next_entry (DirLister0:=D') fuel sl).
Proof using Hd Hm.
  intros Hfr. unfold next_entry. destruct (sl_exhausted sl); [by apply pulled_same|].
  destruct (sl_start_seeded sl); cbn [negb]; [by apply next_loop_same|].
  eapply same_bind; [by apply Hd, Hfr|]. intros [l|e] _; [by apply next_loop_same|].
  destruct e; by apply pulled_same.
Qed.

Lemma collect_page_same fuel max_keys sl :
  merge_frame sl → same (λ _, True) (collect_page (DirLister0:=D) fuel max_keys sl) (collect_page (DirLister0:=D') fuel max_keys sl).
Proof using Hd Hm.
  unfold collect_page. destruct (N.eqb max_keys 0); [by constructor|]. generalize (@nil ListEntry) as page.
  generalize fuel at 1 3 as turns. intros turns. revert sl.
  induction turns as [|turns IH]; intros sl page Hfr; cbn [collect_loop]; [by constructor|].
  eapply same_bind; [by apply next_entry_same|]. intros [[[entry|e] sl']|] Hsl; [|by constructor..].
  specialize (Hsl _ _ eq_refl). destruct (N.ltb _ _); [|by constructor].
  destruct entry; [by apply IH|by constructor].
Qed.
End merge.

Lemma run_merge_same fuel prefix after mk :
  hsame (λ _, True) (run_merge w mapper config fuel prefix after mk)
    (run_merge elsewhere mapper config fuel prefix after mk).
Proof using Hag Hm.
  unfold run_merge. destruct (list_start mapper prefix) as [start|] eqn:E; [|apply hsame_refl].
  apply (list_start_rooted _ rs) in E; [|done].
  eapply hsame_bind; [apply hsame_lift, collect_page_same; [exact list_dir_same|by split]|].
  intros r _. exact (hsame_refl _).
Qed.

Lemma list_slash_same prefix after mk :
  hsame (λ _, True) (list_slash w mapper config prefix after mk)
    (list_slash elsewhere mapper config prefix after mk).
Proof using Hag Hm.
  unfold list_slash. eapply hsame_bind; [|intros l _; apply hsame_refl].
  destruct (list_start mapper prefix) as [start|] eqn:E; [|apply hsame_refl].
  apply (list_start_rooted _ rs) in E; [|done].
  eapply hsame_bind; [by apply hsame_lift, list_dir_same|]. intros r _. exact (hsame_refl _).
Qed.

Lemma list_objects_same fuel i :
  same (λ _, True) (list_objects_v2 w mapper config fuel i : Prog State _)
    (list_objects_v2 elsewhere mapper config fuel i).
Proof using Hag Hm.
  apply request_same. destruct (negb _); [apply hsame_fail|]. cbv zeta.
  destruct (parse_max_keys _) as [mk|]; [|apply hsame_fail].
  destruct (parse_start_after i) as [after|]; [|apply hsame_fail].
  eapply hsame_bind; [|intros page _; exact (hsame_refl _)].
  destruct (match lo_delimiter i with Some _ => _ | None => _ end) as [d|].
  - destruct (bool_decide _); [apply list_slash_same|]. unfold list_delimited.
    eapply hsame_bind; [|intros r _; apply hsame_refl].
    destruct (N.eqb mk 0); [apply hsame_refl|apply run_merge_same].
  - unfold list_flat. eapply hsame_bind; [apply run_merge_same|]. intros r _. apply hsame_refl.
Qed.

(** ** Every handler *)

Lemma head_object_same i :
  same (λ _, True) (head_object w mapper config i : Prog State _) (head_object elsewhere mapper config i).
Proof using Hag Hm.
  apply request_same. eapply hsame_bind; [apply resolve_object_same|]. intros [p m] _.
  exact (hsame_refl _).
Qed.

Lemma handler_same q :
  same (λ _, True) (handler w mapper config q : Prog State _) (handler elsewhere mapper config q).
Proof using Hag Hm.
  destruct q as [bucket|i| |fuel i|i|o|o|b]; cbn [handler].
  2: eapply same_bind; [apply head_object_same|intros r _; apply same_refl].
  3: eapply same_bind; [apply list_objects_same|intros r _; apply same_refl].
  3: eapply same_bind; [apply get_object_same|intros r _; apply same_refl].
  all: apply same_refl.
Qed.

(** C5 What HDFS holds outside the root has no influence: two namespaces that
    agree below it take the gateway, in any interleaving and whichever requests
    are dropped, through the same states (caches, ids and log lines included) to
    the same answers. *)
Theorem confined gw ts :
  served (L:=L) w mapper config gw ts →
  ∃ ts', served elsewhere mapper config gw ts' ∧
    ∀ i q st o, ts !! i = Some (mkTask q st (Done o)) → ts' !! i = Some (mkTask q st (Done o)).
Proof using Hag Hm.
  intros Hs. destruct (pool_same _ (handler elsewhere mapper config) _ _ _ _ _ handler_same Hs)
    as (ts' & Hs' & Hts). exists ts'. split; [exact Hs'|]. intros i q st o Hi.
  destruct (Forall2_lookup_l _ _ _ _ _ Hts Hi) as ([q' st' p'] & -> & E1 & E2 & Hp).
  cbn [t_req t_start t_prog] in *. apply same_inv in Hp. by subst.
Qed.
End confinement.

(** ** Witness *)

(** The demonstration's HDFS with a directory more beside the root. *)
Definition other_status (t : nat) (p : str) : result FileStatus HdfsError :=
  if bool_decide (p = $"/other") then Ok (mkFileStatus $"/other" 0 true 7) else demo_status p.

Definition other_list (t : nat) (p : str) : result (list FileStatus) HdfsError :=
  if bool_decide (p = $"/other") then Ok [mkFileStatus $"/other/secret" 9 false 7] else demo_tree p.

Lemma other_not_below p : below_root [$"data"] p → p ≠ $"/other".
Proof.
  intros (ds & Hds & ->) E. assert ([$"data"] ++ ds = [$"other"]) as E2; [|by destruct ds].
  apply abs_path_inj; [apply Forall_app; split; [|done]|..|exact E];
    by apply Forall_singleton, demo_valid.
Qed.

Lemma other_agrees : agree_below demo_world other_status other_list (read demo_world) [$"data"].
Proof.
  split; intros t p Hp%other_not_below; [| |done]; cbn.
  - unfold other_status. by rewrite bool_decide_eq_false_2.
  - unfold other_list. by rewrite bool_decide_eq_false_2.
Qed.

Example confined_witness :
  let q := ReqListObjects 10 (demo_list None) in
  ∃ ts', served (elsewhere demo_world other_status other_list (read demo_world)) demo_paths demo_config
           (after_one q).1 ts' ∧
    ∀ i q' st o, (after_one q).2 !! i = Some (mkTask q' st (Done o)) →
      ts' !! i = Some (mkTask q' st (Done o)).
Proof.
  intros q. apply (confined demo_world demo_paths demo_config other_status other_list (read demo_world)
    [$"data"] (st_root _ _ _ _ demo_stable) other_agrees), after_one_served.
Defined.
