(* ===== verification/Walk.v ===== *)
(** A client that follows the continuation tokens.

    The client asks for a page, and while the answer has a token, for the page
    of the token. Its requests are tasks of the pool among any others. What it
    collects is the whole listing, each object and common prefix once; and when
    its requests have their turns it is at the end after finitely many pages,
    whatever the other requests do. *)

From S2P Require Import Prelude Prog Bytes Config Path HdfsError Listing.
From S2P Require Import Cache Caches SortedListing Merge Paging Gateway ListObjects.
From S2P Require Import Invariant Objects Listings Requests Pages Liveness Demo.
From stdpp Require Import relations.

(** The request for the page of a token; the first has the client's own
    [start-after]. *)
Definition page_request (base : ListObjectsV2Input) (token : option str) : ListObjectsV2Input := {|
  lo_bucket := lo_bucket base;
  lo_prefix := lo_prefix base;
  lo_delimiter := lo_delimiter base;
  lo_max_keys := lo_max_keys base;
  lo_continuation_token := token;
  lo_start_after := lo_start_after base;
|}.

(** What a page counts against [max-keys]. *)
Definition page_size (out : ListObjectsV2Output) : nat :=
  List.length (or_else (out_contents out) []) + List.length (or_else (out_common_prefixes out) []).

Section walk.
Context {L : Type → Type} `{!Lru str L} `{Laws : !LruLaws str L} {R IoError : Type} `{!Base64} `{B64 : !Base64Laws}.
Context (w : World (R:=R) (IoError:=IoError)) (mapper : PathMapper) (config : Config).

Abbreviation State := (GwState (L:=L) (R:=R)).
Abbreviation Pool := (served (L:=L) w mapper config).
Abbreviation Tasks := (list (Task (S:=State) (Req:=Request R) (A:=Outcome R IoError))).
Abbreviation Run := (nat → State * Tasks).

(** The answer to the page of a token is in the pool. *)
Definition page_served (ts : Tasks) fuel base token (out : ListObjectsV2Output) : Prop :=
  ∃ i st resp, output resp = Some out ∧
    ts !! i = Some (mkTask (ReqListObjects fuel (page_request base token)) st (Done (OutList (Ok resp)))).

(** The pages of a client, from a token on. *)
Inductive client_walk (ts : Tasks) fuel base : option str → list ListObjectsV2Output → Prop :=
| walk_last token out :
    page_served ts fuel base token out → out_next_continuation_token out = None →
    client_walk ts fuel base token [out]
| walk_more token out t outs :
    page_served ts fuel base token out → out_next_continuation_token out = Some t →
    client_walk ts fuel base (Some t) outs → client_walk ts fuel base token (out :: outs).

(** The pages a client has when it is to ask for the next, and that one's token. *)
Inductive reached (ts : Tasks) fuel base : list ListObjectsV2Output → option str → Prop :=
| reached_first : reached ts fuel base [] None
| reached_next outs token out t :
    reached ts fuel base outs token → page_served ts fuel base token out →
    out_next_continuation_token out = Some t → reached ts fuel base (outs ++ [out]) (Some t).

(** In an execution the page of a token is asked for, by a request that keeps
    getting its turns and is not dropped. *)
Definition asks (run : Run) fuel base token : Prop := ∃ i n st p,
  let q := ReqListObjects fuel (page_request base token) in
  (run n).2 !! i = Some (mkTask q st p) ∧ fair i run ∧
  ∀ m, (run m).2 !! i ≠ Some (mkTask q st (Done OutDropped)).

(** The client of an execution: whatever it has, it asks for what is next. *)
Definition follows (run : Run) fuel base : Prop :=
  ∀ n outs token, reached (run n).2 fuel base outs token → asks run fuel base token.

Section complete.
Context (Hsz : sizes_ok (cache config)) (Hlen : lengths_ok w).
Context (fuel : nat) (base : ListObjectsV2Input) (mk : N) (fs : list ListEntry) (ds : list str).
Abbreviation prefix := (or_else (lo_prefix base) []).
Abbreviation delim := (delimiter_of base).
Context (Hb : lo_bucket base = Path.bucket mapper).
Context (Hmk : parse_max_keys (lo_max_keys base) = Some mk) (Hmk0 : mk ≠ 0%N).
Context (Hns : listing_namespace w mapper fuel prefix delim fs ds).

Abbreviation outputs := (all_outputs fs ds prefix delim).

(** The listing's keys, which its tokens stand for, are text. *)
Context (Hutf : ∀ l o, listing_of fs ds prefix delim l → o ∈ l → utf8_valid (output_key o) = true).

Lemma outputs_listing : listing_of fs ds prefix delim outputs.
Proof using Hns. eapply all_outputs_listing; [by eapply namespace_nodup|by eapply namespace_dirs]. Qed.

Lemma outputs_sorted : StronglySorted output_lt outputs.
Proof using Hns. eapply all_outputs_sorted, namespace_nodup, Hns. Qed.

(** A page is a segment of the outputs after its marker. *)
Definition segment (after : option str) : list Paging.output :=
  take (N.to_nat mk) (outputs_after after outputs).

Lemma page_segment after :
  page_spec outputs mk after = {|
    contents := objects (segment after);
    common_prefixes := prefixes (segment after);
    is_truncated := bool_decide (N.to_nat mk < List.length (outputs_after after outputs));
    next_token := if bool_decide (N.to_nat mk < List.length (outputs_after after outputs))
                  then output_key <$> last (segment after) else None |}.
Proof using Hmk0.
  unfold page_spec, segment. cbv zeta. set (rest := outputs_after after outputs).
  assert (take (N.to_nat (N.min mk (N.of_nat (List.length rest)))) rest = take (N.to_nat mk) rest) as ->.
  { destruct (N.min_spec mk (N.of_nat (List.length rest))) as [[_ ->]|[H ->]]; [done|].
    rewrite !take_ge by lia. done. }
  rewrite (bool_decide_ext (N.to_nat (N.min _ _) < _) (N.to_nat mk < List.length rest)) by lia. done.
Qed.

(** What a client learns from one page. *)
Record page_facts (after : option str) (out : ListObjectsV2Output) : Prop := {
  pf_contents : or_else (out_contents out) [] = object_of_entry <$> objects (segment after);
  pf_prefixes : or_else (out_common_prefixes out) [] = prefixes (segment after);
  pf_size : page_size out = List.length (segment after);
  pf_last : out_next_continuation_token out = None → segment after = outputs_after after outputs;
  pf_next : ∀ t, out_next_continuation_token out = Some t →
    ∃ o, decode_token t = Some (output_key o) ∧ page_size out = N.to_nat mk ∧
      outputs_after (Some (output_key o)) outputs =
      drop (N.to_nat mk) (outputs_after after outputs);
}.

Lemma reported_facts after out :
  reports out (paginate fs ds prefix delim after mk) → page_facts after out.
Proof using B64 Hmk0 Hns Hutf.
  rewrite paginate_page_spec by (by eauto using namespace_nodup). rewrite page_segment.
  intros (Hc & Hp & _ & Ht). cbn [contents common_prefixes next_token] in *.
  assert (page_size out = List.length (segment after)) as Hsize.
  { unfold page_size. by rewrite Hc, Hp, length_fmap, objects_prefixes_length. }
  split; [done..| |].
  - rewrite Ht. case_bool_decide as Hmore.
    + destruct (take_last_some (N.to_nat mk) (outputs_after after outputs)) as [o E]; [lia..|].
      unfold segment. by rewrite E.
    + intros _. unfold segment. apply take_ge. lia.
  - intros t. rewrite Ht. case_bool_decide as Hmore; [|done].
    destruct (last (segment after)) as [o|] eqn:E; [|done]. intros [= <-]. exists o. split_and!.
    + apply token_decodes, (Hutf outputs); [apply outputs_listing|]. apply last_Some_elem_of, elem_of_take_inv in E.
      unfold outputs_after in E. by apply elem_of_bfilter in E as [_ ?].
    + rewrite Hsize. unfold segment. rewrite length_take. lia.
    + by eapply outputs_after_last; [apply outputs_sorted|].
Qed.

Lemma page_served_facts gw ts token after out :
  Pool gw ts → parse_start_after (page_request base token) = Some after →
  page_served ts fuel base token out → page_facts after out.
Proof using B64 Laws Hsz Hlen Hb Hmk Hmk0 Hns Hutf.
  intros Hp Haf (i & st & resp & Ho & Hi). apply reported_facts.
  assert (OutList (R:=R) (IoError:=IoError) (Ok resp) ≠ OutDropped) as Hd by done.
  destruct (served_page w mapper config gw ts i fuel (page_request base token) st _ mk after fs ds
    Hsz Hlen Hp Hd Hi Hb Hmk Hmk0 Haf Hns) as (id & out' & [= ->] & Hr). by injection Ho as ->.
Qed.

Lemma parse_token t k :
  decode_token t = Some k → parse_start_after (page_request base (Some t)) = Some (Some k).
Proof using Type. intros E. unfold parse_start_after. cbn. by rewrite E. Qed.

(** What the pages from a token on hold together. *)
Lemma walk_from gw ts token outs after :
  Pool gw ts → client_walk ts fuel base token outs →
  parse_start_after (page_request base token) = Some after →
  let l := outputs_after after outputs in
  List.concat (map (λ out, or_else (out_contents out) []) outs) = object_of_entry <$> objects l ∧
  List.concat (map (λ out, or_else (out_common_prefixes out) []) outs) = prefixes l ∧
  Forall (λ out, page_size out = N.to_nat mk) (removelast outs) ∧
  Forall (λ out, page_size out <= N.to_nat mk) outs.
Proof using B64 Laws Hsz Hlen Hb Hmk Hmk0 Hns Hutf.
  intros Hp Hw. revert after.
  induction Hw as [token out Hs Hn|token out t outs Hs Hn Hw IH]; intros after Haf l;
    destruct (page_served_facts gw ts token after out Hp Haf Hs) as [Hc Hpr Hsize Hlast Hnext].
  - specialize (Hlast Hn). cbn [map List.concat removelast]. rewrite !app_nil_r, Hc, Hpr, Hlast.
    split_and!; [done|done|constructor|]. constructor; [|constructor].
    rewrite Hsize. unfold segment. rewrite length_take. lia.
  - destruct (Hnext t Hn) as (o & Ed & Hfull & Erest).
    destruct (IH _ (parse_token t _ Ed)) as (I1 & I2 & I3 & I4). rewrite Erest in I1, I2.
    cbn [map List.concat]. rewrite I1, I2, Hc, Hpr. unfold segment, l.
    rewrite <- fmap_app, <- objects_app, <- prefixes_app, take_drop. split_and!; [done|done| |].
    + destruct outs as [|out' outs]; [constructor|]. by constructor.
    + constructor; [lia|done].
Qed.

(** C3 A client that follows the tokens collects the whole listing of an
    unchanging namespace: after its [start-after], each file below the
    prefix's directory that matches and is not grouped, and each group by the
    delimiter, once and in key order, whatever the page size other than zero,
    the caches and the requests between its pages; every page but the last is
    full. The prefixes [.] and [..] are excepted. *)
Theorem client_walk_exact gw ts outs :
  Pool gw ts → client_walk ts fuel base None outs →
  ∃ all, listing_of fs ds prefix delim all ∧
  let l := outputs_after (lo_start_after base) all in
  List.concat (map (λ out, or_else (out_contents out) []) outs) = object_of_entry <$> objects l ∧
  List.concat (map (λ out, or_else (out_common_prefixes out) []) outs) = prefixes l ∧
  Forall (λ out, page_size out = N.to_nat mk) (removelast outs) ∧
  Forall (λ out, page_size out <= N.to_nat mk) outs.
Proof using B64 Laws Hsz Hlen Hb Hmk Hmk0 Hns Hutf.
  intros Hp Hw. exists outputs. split; [apply outputs_listing|].
  by apply (walk_from gw ts None outs (lo_start_after base)).
Qed.

(** What a client has not yet got shrinks by a page with each token. *)
Lemma reached_rest gw ts outs token :
  Pool gw ts → reached ts fuel base outs token →
  ∃ after, parse_start_after (page_request base token) = Some after ∧
    N.to_nat mk * List.length outs + List.length (outputs_after after outputs) =
    List.length (outputs_after (lo_start_after base) outputs).
Proof using B64 Laws Hsz Hlen Hb Hmk Hmk0 Hns Hutf.
  intros Hp. induction 1 as [|outs token out t _ (after & Haf & E) Hs Hn].
  { exists (lo_start_after base). split; [done|]. simpl. lia. }
  destruct (page_served_facts _ _ _ _ _ Hp Haf Hs) as [_ _ Hsize _ Hnext].
  destruct (Hnext t Hn) as (o & Ed & Hfull & Erest). exists (Some (output_key o)).
  split; [by apply parse_token|]. rewrite Erest, length_drop, length_app. cbn [List.length].
  rewrite Hfull in Hsize. unfold segment in Hsize. rewrite length_take in Hsize. lia.
Qed.

Lemma walk_length gw ts token outs after :
  Pool gw ts → client_walk ts fuel base token outs → parse_start_after (page_request base token) = Some after →
  N.to_nat mk * pred (List.length outs) <= List.length (outputs_after after outputs).
Proof using B64 Laws Hsz Hlen Hb Hmk Hmk0 Hns Hutf.
  intros Hp Hw. revert after. induction Hw as [|token out t outs Hs Hn Hw IH]; intros after Haf; [simpl; lia|].
  destruct (page_served_facts _ _ _ _ _ Hp Haf Hs) as [_ _ Hsize _ Hnext].
  destruct (Hnext t Hn) as (o & Ed & Hfull & Erest). specialize (IH _ (parse_token t _ Ed)).
  rewrite Erest, length_drop in IH. rewrite Hfull in Hsize. unfold segment in Hsize. rewrite length_take in Hsize.
  destruct outs as [|out2 outs]; cbn [List.length pred] in *; lia.
Qed.

Section execution.
Context (run : Run) (He : execution (handler (L:=L) w mapper config) OutDropped env run (initial config)).

Lemma page_stays n d token out :
  page_served (run n).2 fuel base token out → page_served (run (n + d)).2 fuel base token out.
Proof using He.
  intros (i & st & resp & Ho & Hi). exists i, st, resp. split; [done|]. by eapply answer_stays.
Qed.

Lemma reached_stays n d outs token :
  reached (run n).2 fuel base outs token → reached (run (n + d)).2 fuel base outs token.
Proof using He. induction 1; [constructor|]. econstructor; eauto using page_stays. Qed.

(** What is asked for is served. *)
Lemma asked_served token after :
  asks run fuel base token → parse_start_after (page_request base token) = Some after →
  ∃ n out, page_served (run n).2 fuel base token out.
Proof using He Laws Hsz Hlen Hb Hmk Hmk0 Hns.
  intros (i & n & st & p & Hi & Hf & Hd) Haf.
  destruct (fair_finishes _ _ _ run _ i n (mkTask _ st p) He Hf Hd Hi) as (m & o & _ & Ho). cbn [t_req t_start] in Ho.
  assert (o ≠ OutDropped) as Hnd by (intros ->; by apply (Hd m)).
  destruct (served_page w mapper config _ _ i fuel (page_request base token) st o mk after fs ds
    Hsz Hlen (execution_reach _ _ _ _ _ m He) Hnd Ho Hb Hmk Hmk0 Haf Hns) as (id & out & -> & _).
  exists m, out, i. eexists _, _. by split; [|exact Ho].
Qed.

Lemma walk_to_end k n outs token after :
  follows run fuel base → reached (run n).2 fuel base outs token →
  parse_start_after (page_request base token) = Some after → List.length (outputs_after after outputs) <= k →
  ∃ d outs', client_walk (run (n + d)).2 fuel base token outs'.
Proof using He B64 Laws Hsz Hlen Hb Hmk Hmk0 Hns Hutf.
  intros Hfo. revert n outs token after. induction k as [k IH] using lt_wf_ind; intros n outs token after Hr Haf Hk.
  destruct (asked_served token after (Hfo _ _ _ Hr) Haf) as (m & out & Hs).
  apply (page_stays m n) in Hs. rewrite Nat.add_comm in Hs. apply (reached_stays n m) in Hr.
  destruct (page_served_facts _ _ _ _ _ (execution_reach _ _ _ _ _ (n + m) He) Haf Hs) as [_ _ Hsize _ Hnext].
  destruct (out_next_continuation_token out) as [t|] eqn:Et; [|exists m, [out]; by apply walk_last].
  destruct (Hnext t eq_refl) as (o & Ed & Hfull & Erest).
  rewrite Hfull in Hsize. unfold segment in Hsize. rewrite length_take in Hsize.
  destruct (IH (List.length (outputs_after (Some (output_key o)) outputs)) ltac:(rewrite Erest, length_drop; lia)
    (n + m) (outs ++ [out]) (Some t) (Some (output_key o))) as (d & outs' & Hw);
    [by econstructor|by apply parse_token|done|].
  exists (m + d), (out :: outs'). rewrite Nat.add_assoc. by eapply walk_more; [apply page_stays| |].
Qed.
End execution.

(** C17 Following the tokens ends: over an unchanging namespace, with a page
    size other than zero, in every execution, whatever its other requests are and
    do. A client is never given more tokens than the outputs of the listing
    fill pages; and one that asks for the page of each token it has, with
    requests that have their turns and are not dropped, comes to a page without
    a token. The prefixes [.] and [..] are excepted. *)
Theorem client_walk_ends run :
  execution (handler (L:=L) w mapper config) OutDropped env run (initial config) →
  follows run fuel base →
  ∃ all, listing_of fs ds prefix delim all ∧
  let l := outputs_after (lo_start_after base) all in
  (∀ n outs token, reached (run n).2 fuel base outs token →
     N.to_nat mk * List.length outs <= List.length l) ∧
  ∃ n outs, client_walk (run n).2 fuel base None outs ∧
    N.to_nat mk * pred (List.length outs) <= List.length l.
Proof using B64 Laws Hsz Hlen Hb Hmk Hmk0 Hns Hutf.
  intros He Hfo. exists outputs. split; [apply outputs_listing|]. split.
  - intros n outs token Hr.
    destruct (reached_rest _ _ _ _ (execution_reach _ _ _ _ _ n He) Hr) as (after & _ & E). lia.
  - destruct (walk_to_end run He _ 0 [] None (lo_start_after base) Hfo (reached_first _ _ _) eq_refl (le_n _))
      as (d & outs & Hw). exists (0 + d), outs. split; [done|].
    by eapply walk_length; [by apply execution_reach|..].
Qed.
End complete.
End walk.

(** ** Witnesses *)

(** The two pages of the demonstration's files, one key each. *)
Definition walk_base : ListObjectsV2Input := demo_list None.
Definition walk_token : str := $"a.txt".
Definition walk_first : Request str := ReqListObjects 10 (page_request walk_base None).
Definition walk_second : Request str := ReqListObjects 10 (page_request walk_base (Some walk_token)).

(** What was answered, as values. *)
Definition first_answer : Outcome str unit := Eval vm_compute in outcome_of walk_first.
Definition second_answer : Outcome str unit := Eval vm_compute in outcome_after walk_first walk_second.

Lemma walk_answers :
  outcome_of walk_first = first_answer ∧ outcome_after walk_first walk_second = second_answer.
Proof. split; by vm_compute. Qed.

Definition walk_output (o : Outcome str unit) : option ListObjectsV2Output :=
  match o with OutList (Ok resp) => output resp | _ => None end.

Definition walk_outputs : list ListObjectsV2Output := omap walk_output [first_answer; second_answer].

Lemma walk_namespace :
  listing_namespace demo_world demo_paths 10 [] None demo_files [].
Proof. apply ns_walk; [done|by apply demo_walkable|by vm_compute]. Qed.

Lemma walk_listing l : listing_of demo_files [] [] None l → l = all_outputs demo_files [] [] None.
Proof. apply listing_eq; [by apply (bool_decide_unpack _); vm_compute|by right]. Qed.

Lemma walk_text l o :
  listing_of demo_files [] [] None l → o ∈ l → utf8_valid (output_key o) = true.
Proof.
  assert (Forall (λ o, utf8_valid (output_key o) = true) (all_outputs demo_files [] [] None)) as H
    by (by apply (bool_decide_unpack _); vm_compute).
  rewrite Forall_forall in H. intros ->%walk_listing. apply H.
Qed.

Lemma walk_done :
  client_walk (after_two walk_first walk_second).2 10 walk_base None walk_outputs.
Proof.
  destruct walk_answers as [E1 E2].
  pose proof (after_two_first walk_first walk_second) as H1. rewrite E1 in H1.
  pose proof (after_two_second walk_first walk_second) as H2. rewrite E2 in H2.
  eapply walk_more; [|reflexivity|apply walk_last; [|reflexivity]].
  - exists 0. eexists _, _. split; [|exact H1]. reflexivity.
  - exists 1. eexists _, _. split; [|exact H2]. reflexivity.
Qed.

Example client_walk_exact_witness :
  ∃ all, listing_of demo_files [] [] None all ∧
  let l := outputs_after None all in
  List.concat (map (λ out, or_else (out_contents out) []) walk_outputs) = object_of_entry <$> objects l ∧
  List.concat (map (λ out, or_else (out_common_prefixes out) []) walk_outputs) = prefixes l ∧
  Forall (λ out, page_size out = N.to_nat 1) (removelast walk_outputs) ∧
  Forall (λ out, page_size out <= N.to_nat 1) walk_outputs.
Proof.
  exact (client_walk_exact demo_world demo_paths demo_config demo_sizes demo_lengths 10 walk_base 1
    demo_files [] eq_refl eq_refl ltac:(done) walk_namespace walk_text _ _ walk_outputs
    (after_two_served _ _) walk_done).
Defined.

(** The two requests one after the other, access by access. *)
Definition walk_run : nat → GwState * list (Task (A:=Outcome str unit)) :=
  queue_run demo_handler [walk_first; walk_second] demo_start.

Definition answer_of (t : Task (S:=GwState (L:=list_lru str) (R:=str)) (Req:=Request str) (A:=Outcome str unit)) :
    option (Outcome str unit) :=
  match t_prog t with Done o => Some o | _ => None end.

(** Both are answered within a hundred accesses, *)
Lemma walk_final :
  ((λ t, (t_req t, answer_of t)) <$> (walk_run 100).2) =
    [(walk_first, Some first_answer); (walk_second, Some second_answer)] ∧
  (queue demo_handler [walk_first; walk_second] demo_start 100).2 = [].
Proof. split; by vm_compute. Qed.

(** and that is how it stays. *)
#[local] Opaque queue.

Lemma answered_finished (ts : list _) l :
  (λ t, (t_req t, answer_of t)) <$> ts = l → Forall (λ x, is_Some x.2) l → Forall finished ts.
Proof.
  intros <-. rewrite Forall_fmap. intros H. eapply Forall_impl; [exact H|]. intros t [o Ho]. exists o.
  cbn in Ho. unfold answer_of in Ho. destruct (t_prog t); congruence.
Qed.

Lemma walk_settled d : walk_run (100 + d) = walk_run 100.
Proof.
  destruct walk_final as [Ht Hw].
  exact (queue_stops demo_handler [walk_first; walk_second] demo_start 100 d Hw
    (answered_finished _ _ Ht ltac:(by repeat constructor))).
Qed.

Lemma walk_execution : execution demo_handler OutDropped env walk_run (initial demo_config).
Proof. apply queue_execution. Qed.

Lemma walk_fair i : fair i walk_run.
Proof. apply queue_fair. Qed.

#[local] Opaque walk_run.

Lemma walk_answer n i q st o :
  (walk_run n).2 !! i = Some (mkTask q st (Done o)) →
  [(walk_first, Some first_answer); (walk_second, Some second_answer)] !! i = Some (q, Some o).
Proof.
  intros Hi. apply (answer_stays demo_world demo_paths demo_config _ _ _ _ 100 _ _ _ walk_execution) in Hi.
  rewrite Nat.add_comm, walk_settled in Hi. destruct walk_final as [<- _].
  by rewrite list_lookup_fmap, Hi.
Qed.

Lemma walk_asks i q o :
  [(walk_first, Some first_answer); (walk_second, Some second_answer)] !! i = Some (q, Some o) → o ≠ OutDropped →
  ∃ st, (walk_run 100).2 !! i = Some (mkTask q st (Done o)) ∧ fair i walk_run ∧
  ∀ m, (walk_run m).2 !! i ≠ Some (mkTask q st (Done OutDropped)).
Proof.
  intros Hi Ho. destruct walk_final as [Ht _].
  rewrite <- Ht in Hi. clear Ht. apply list_lookup_fmap_Some in Hi as ([q' st p] & Hi & E).
  unfold answer_of in Hi. cbn in Hi. injection Hi as -> Hp. destruct p as [o'|]; [|discriminate Hp]. injection Hp as ->.
  exists st. split; [exact E|]. split; [apply walk_fair|]. intros m Hm%walk_answer. apply walk_answer in E. congruence.
Qed.

Lemma walk_kept : first_answer ≠ OutDropped ∧ second_answer ≠ OutDropped.
Proof. split; discriminate. Qed.

Lemma walk_follows : follows walk_run 10 walk_base.
Proof.
  intros n outs token Hr. destruct Hr as [|outs token out t _ (i & st & resp & Ho & Hi) Hn].
  - destruct (walk_asks 0 walk_first first_answer eq_refl (proj1 walk_kept)) as (st & H).
    exists 0, 100, st, (Done first_answer). exact H.
  - apply walk_answer in Hi. destruct i as [|[|i]]; [| |discriminate]; cbn in Hi.
    + injection Hi as Hq Ha. subst resp. cbn in Ho. injection Ho as <-.
      cbn in Hn. injection Hn as <-.
      destruct (walk_asks 1 walk_second second_answer eq_refl (proj2 walk_kept)) as (st' & H).
      exists 1, 100, st', (Done second_answer). exact H.
    + injection Hi as Hq Ha. subst resp. cbn in Ho.
      injection Ho as <-. discriminate.
Qed.

Example client_walk_ends_witness :
  ∃ all, listing_of demo_files [] [] None all ∧
  let l := outputs_after None all in
  (∀ n outs token, reached (walk_run n).2 10 walk_base outs token → 1 * List.length outs <= List.length l) ∧
  ∃ n outs, client_walk (walk_run n).2 10 walk_base None outs ∧ 1 * pred (List.length outs) <= List.length l.
Proof.
  exact (client_walk_ends demo_world demo_paths demo_config demo_sizes demo_lengths 10 walk_base 1
    demo_files [] eq_refl eq_refl ltac:(done) walk_namespace walk_text walk_run walk_execution walk_follows).
Defined.
