(* ===== verification/Served.v ===== *)
(** What the gateway answers, in every interleaving of requests.

    The theorems instantiate the pool of [Requests] for each operation; the
    witnesses run requests on a small file system. *)

From S2P Require Import Prelude Prog Bytes Config Path Range Metadata HdfsError Listing.
From S2P Require Import Cache Caches SortedListing Merge Paging Gateway ListObjects.
From S2P Require Import Invariant Objects Listings Requests Pages RequestLog Demo.

Section served.
Context {L : Type → Type} `{!Lru str L} `{!LruLaws str L} {R IoError : Type} `{!Base64}.
Context (w : World (R:=R) (IoError:=IoError)) (mapper : PathMapper) (config : Config).

Abbreviation Pool := (served (L:=L) w mapper config).

(** C1 In every interleaving of requests, the answer to a [GetObject] is one
    the specification allows: the object's status as HDFS gave it during the
    request or as cached less than a time to live before; a reader opened
    after its path had that length and time, never the block map of an earlier
    version; exactly the requested bytes; and otherwise the error that fits. *)
Theorem get_object_answers gw ts i input st o :
  sizes_ok (cache config) → lengths_ok w → Pool gw ts → o ≠ OutDropped →
  ts !! i = Some (mkTask (ReqGetObject input) st (Done o)) →
  ∃ r, o = OutGet r ∧
  ∃ id, answered w id (get_result w mapper config (gw_tick st) (gw_tick gw) input) r.
Proof. intros Hsz Hlen Hp Hnd Hi. exact (served_post w mapper config _ _ _ _ _ _ Hsz Hlen Hp Hnd Hi). Qed.

(** C26 In every interleaving, the answer to a [HeadObject] reports a status
    HDFS gave during the request or less than a time to live before, after the
    preconditions of the request, or the error that fits. *)
Theorem head_object_answers gw ts i input st o :
  sizes_ok (cache config) → lengths_ok w → Pool gw ts → o ≠ OutDropped →
  ts !! i = Some (mkTask (ReqHeadObject input) st (Done o)) →
  ∃ r, o = OutHead r ∧
  ∃ id, answered w id (head_result w mapper config (gw_tick st) (gw_tick gw) input) r.
Proof. intros Hsz Hlen Hp Hnd Hi. exact (served_post w mapper config _ _ _ _ _ _ Hsz Hlen Hp Hnd Hi). Qed.

(** C16 In every interleaving, each cache holds only answers HDFS gave, each
    block map one opened after the status on its label, and no cache exceeds
    its budget. *)
Theorem caches_hold_answers gw ts :
  sizes_ok (cache config) → lengths_ok w → Pool gw ts →
  let cs := gw_caches gw in
  (∀ p e, (p, e) ∈ lru_items (entries (metadata cs)) → stat_entry w (gw_tick gw) p e) ∧
  (∀ p e, (p, e) ∈ lru_items (entries (negative cs)) → missing_entry w (gw_tick gw) p e) ∧
  (∀ p e, (p, e) ∈ lru_items (entries (blocks cs)) → block_entry w (gw_tick gw) p e) ∧
  (∀ p e, (p, e) ∈ lru_items (entries (Caches.dirs cs)) → dir_entry w mapper (gw_tick gw) p e) ∧
  (weight_of (lru_items (entries (metadata cs))) <= metadata_capacity (cache config))%N ∧
  (weight_of (lru_items (entries (negative cs))) <= metadata_capacity (cache config))%N ∧
  (weight_of (lru_items (entries (blocks cs))) <= blocks_capacity (cache config))%N ∧
  (weight_of (lru_items (entries (Caches.dirs cs))) <= listing_capacity_entries (cache config))%N.
Proof.
  intros Hsz Hlen Hp. destruct (served_inv w mapper config gw ts Hsz Hlen Hp)
    as [[W1 _ B1 E1] [W2 _ B2 E2] [W3 _ B3 E3] [W4 _ B4 E4]]. cbv zeta.
  split_and!; try done; rewrite <- wf_weight by done;
    (etransitivity; [by apply wf_budget|]); by rewrite ?B1, ?B2, ?B3, ?B4.
Qed.

(** A client that reads a body gets the reader's bytes in order, never more
    than the declared length; it sees an error unless it got that length, and
    none if the reader delivers it without one; a reader that ends early shows
    as a short read. *)
Theorem get_body_exact gw ts i b st o :
  sizes_ok (cache config) → lengths_ok w → Pool gw ts → o ≠ OutDropped →
  ts !! i = Some (mkTask (ReqBody b) st (Done o)) → (gb_length b < U64_MOD)%N →
  ∃ out t, o = OutBody out ∧
    body_spec (read_range_stream w t (gb_reader b) (gb_start b) (gb_length b))
      (gb_length b) (gb_length b) out.
Proof.
  intros Hsz Hlen Hp Hnd Hi Hb.
  destruct (served_post w mapper config _ _ _ _ _ _ Hsz Hlen Hp Hnd Hi) as (out & -> & H).
  destruct (H Hb) as [t Ht]. by exists out, t.
Qed.

(** A [GetObject] and its body: the window that the request asked for, of the
    object whose ETag the answer has, is what the reader was asked for, within
    its length. *)
Lemma get_object_window gw ts i j input resp st st' out :
  sizes_ok (cache config) → lengths_ok w → Pool gw ts →
  ts !! i = Some (mkTask (ReqGetObject input) st (Done (OutGet (Ok resp)))) →
  ts !! j = Some (mkTask (ReqBody (go_body (output resp))) st' (Done (OutBody out))) →
  ∃ m s e cr t, window_of (fm_length m) (go_range input) s e cr ∧
    go_e_tag (output resp) = Strong (fallback_etag (fm_length m) (fm_modification_time m)) ∧
    (s <= e)%N ∧ (e <= reader_length w (gb_reader (go_body (output resp))))%N ∧
    body_spec (read_range_stream w t (gb_reader (go_body (output resp))) s (e - s)) (e - s) (e - s) out.
Proof.
  intros Hsz Hlen Hp Hi Hj.
  assert (OutGet (IoError:=IoError) (Ok resp) ≠ OutDropped) as Hd1 by done.
  assert (OutBody (R:=R) out ≠ OutDropped) as Hd2 by done.
  destruct (served_post w mapper config _ _ _ _ _ _ Hsz Hlen Hp Hd1 Hi) as (r & [= <-] & id & Hr).
  destruct (served_post w mapper config _ _ _ _ _ _ Hsz Hlen Hp Hd2 Hj) as (out' & [= <-] & Hbody).
  destruct Hr as (a & -> & Hr). unfold response in *. cbn [output] in *.
  inversion Hr as [| | | | |p m r s e cr Hobj Hc Hwin Hopen He Ea]. subst a.
  assert (fm_length m < U64_MOD)%N as Hm.
  { inversion Hobj as [| | | |? ? _ _ Hst]; subst.
    apply stat_seen_once in Hst as (t & x & _ & Hx & ->). by eapply Hlen. }
  assert (s <= e ∧ e <= fm_length m)%N as [Hse Hel].
  { revert Hwin. unfold window_of. destruct (go_range input); [intros (? & ? & _); lia|].
    intros (-> & -> & _). lia. }
  cbn [go_body gb_reader gb_start gb_length] in *. destruct (Hbody ltac:(lia)) as (t & Hb).
  exists m, s, e, cr, t. split_and!; [done|done|lia|lia|exact Hb].
Qed.

(** The bytes of the file behind a reader: its items, up to a failure, are some
    of them in order; without a failure, all that it was asked for. *)
Definition reads (file : R → str) : Prop :=
  (∀ r, reader_length w r = N.of_nat (List.length (file r))) ∧
  ∀ t r s n, (s + n <= reader_length w r)%N → ∃ k,
    delivered (read_range_stream w t r s n) = take k (drop (N.to_nat s) (file r)).

Definition reads_well (file : R → str) : Prop :=
  (∀ r, reader_length w r = N.of_nat (List.length (file r))) ∧
  ∀ t r s n, (s + n <= reader_length w r)%N →
    forallb is_ok (read_range_stream w t r s n) = true ∧
    delivered (read_range_stream w t r s n) = take (N.to_nat n) (drop (N.to_nat s) (file r)).

(** What the client of a [GetObject] is to receive: the window it asked for. *)
Definition exact_bytes (file : R → str) (input : GetObjectInput) (out : GetObjectOutput R) (bytes : str) : Prop :=
  ∃ m s e cr, window_of (fm_length m) (go_range input) s e cr ∧
    go_e_tag out = Strong (fallback_etag (fm_length m) (fm_modification_time m)) ∧
    bytes = take (N.to_nat (e - s)) (drop (N.to_nat s) (file (gb_reader (go_body out)))) ∧
    List.length bytes = N.to_nat (e - s).

(** It has received it when no chunk failed, and none does over a reader that
    reads well. *)
Lemma get_object_bytes (file : R → str) gw ts i j input resp st st' out :
  reads file → sizes_ok (cache config) → lengths_ok w → Pool gw ts →
  ts !! i = Some (mkTask (ReqGetObject input) st (Done (OutGet (Ok resp)))) →
  ts !! j = Some (mkTask (ReqBody (go_body (output resp))) st' (Done (OutBody out))) →
  forallb is_ok out = true → exact_bytes file input (output resp) (delivered out).
Proof.
  intros [Hfile Hread] Hsz Hlen Hp Hi Hj Hok.
  destruct (get_object_window _ _ _ _ _ _ _ _ _ Hsz Hlen Hp Hi Hj) as (m & s & e & cr & t & Hw & He & Hse & Hr & [B1 B2 _ _]).
  specialize (B2 Hok). exists m, s, e, cr. split_and!; [done|done| |done].
  destruct (Hread t (gb_reader (go_body (output resp))) s (e - s)%N) as [k Hk]; [lia|]. rewrite B1, Hk in B2 |- *.
  rewrite length_take in B2. rewrite !take_take in *. rewrite length_take in B2. f_equal. lia.
Qed.

Lemma reads_well_reads file : reads_well file → reads file.
Proof. intros [H1 H2]. split; [done|]. intros t r s n Hn. destruct (H2 t r s n Hn). by eexists. Qed.

Lemma get_object_clean (file : R → str) gw ts i j input resp st st' out :
  reads_well file → sizes_ok (cache config) → lengths_ok w → Pool gw ts →
  ts !! i = Some (mkTask (ReqGetObject input) st (Done (OutGet (Ok resp)))) →
  ts !! j = Some (mkTask (ReqBody (go_body (output resp))) st' (Done (OutBody out))) →
  forallb is_ok out = true.
Proof.
  intros [Hfile Hread] Hsz Hlen Hp Hi Hj.
  destruct (get_object_window _ _ _ _ _ _ _ _ _ Hsz Hlen Hp Hi Hj) as (m & s & e & cr & t & _ & _ & Hse & Hr & [_ _ B3 _]).
  destruct (Hread t (gb_reader (go_body (output resp))) s (e - s)%N) as [Hok Hd]; [lia|]. apply B3; [done|].
  rewrite Hd, length_take, length_drop. rewrite Hfile in Hr. lia.
Qed.

(** ** Listings *)

(** C2 In every interleaving, and whatever the caches hold, a flat listing of
    a namespace that does not change is, for a page size other than zero, the
    page of the files below the directory the prefix spells out: those whose
    key matches the prefix and is after the marker or token, strictly sorted,
    cut at the page size, truncated exactly when some are left, with the token
    of the last key. A prefix that no key matches gets an empty page; the
    prefixes [.] and [..] are excepted. *)
Theorem list_flat_exact gw ts i fuel input st o mk after es :
  sizes_ok (cache config) → lengths_ok w → Pool gw ts → o ≠ OutDropped →
  ts !! i = Some (mkTask (ReqListObjects fuel input) st (Done o)) →
  lo_bucket input = Path.bucket mapper → delimiter_of input = None →
  parse_max_keys (lo_max_keys input) = Some mk → mk ≠ 0%N →
  parse_start_after input = Some after →
  walkable w mapper fuel (or_else (lo_prefix input) []) es →
  let l := requested_files (or_else (lo_prefix input) []) after es in
  let k := N.to_nat (N.min mk (N.of_nat (List.length l))) in
  StronglySorted (key_lt key) l ∧
  ∃ id out, o = OutList (Ok (response w id (Some out))) ∧
    or_else (out_contents out) [] = object_of_entry <$> take k l ∧
    or_else (out_common_prefixes out) [] = [] ∧
    out_is_truncated out = bool_decide (k < List.length l) ∧
    out_next_continuation_token out =
      (if bool_decide (k < List.length l) then encode_token ∘ key <$> last (take k l) else None) ∧
    out_key_count out = as_i32 (N.of_nat k).
Proof.
  intros Hsz Hlen Hp Hnd Hi Hb Hd Hmk Hmk0 Haf Hw l k.
  split. { apply (sort_by_key_strict key), NoDup_fmap_bfilter. by eapply walkable_nodup. }
  destruct (served_listing w mapper config _ _ _ _ _ _ _ _ _ Hsz Hlen Hp Hnd Hi Hb Hmk Haf) as (id & r0 & Hpa & Ho).
  rewrite Hd in Hpa. destruct Hpa as [_ Hpa]. specialize (Hpa es Hw). apply Ho in Hpa. clear Ho.
  unfold flat_page in Hpa. rewrite (proj2 (N.eqb_neq mk 0) Hmk0) in Hpa. fold l in Hpa. fold k in Hpa.
  eexists id, _. split; [exact Hpa|].
  destruct (list_output_fields mapper input mk (take k l) [] (bool_decide (k < List.length l))
    (if bool_decide (k < List.length l) then key <$> last (take k l) else None)) as (H1 & H2 & H3 & H4 & H5).
  { intros Ht. rewrite Ht. apply bool_decide_eq_true in Ht.
    destruct (take_last_some k l) as [x ->]; [lia..|done]. }
  split_and!; [done..| |].
  - rewrite H4. destruct (bool_decide _); [|done]. by destruct (last (take k l)).
  - rewrite H5. f_equal. rewrite length_take. cbn [List.length]. lia.
Qed.

(** C12 In every interleaving, and whatever the caches hold, a listing with the
    delimiter [/] of a namespace that does not change is the page of the
    children of the prefix's directory: its files as contents, its directories
    as common prefixes; a missing directory is an empty page. *)
Theorem list_slash_exact gw ts i fuel input st o mk after rs tree ds part l :
  sizes_ok (cache config) → lengths_ok w → Pool gw ts → o ≠ OutDropped →
  ts !! i = Some (mkTask (ReqListObjects fuel input) st (Done o)) →
  lo_bucket input = Path.bucket mapper → delimiter_of input = Some [slash] →
  parse_max_keys (lo_max_keys input) = Some mk → parse_start_after input = Some after →
  stable w mapper rs tree → Forall valid_seg ds → slash ∉ part →
  or_else (lo_prefix input) [] = dir_prefix ds ++ part →
  list_start mapper (dir_prefix ds ++ part) = Some (abs_path (rs ++ ds)) →
  or_missing (ns_of mapper tree (abs_path (rs ++ ds))) = Ok l →
  let page := paginate (Listing.files l) (Listing.dirs l) (dir_prefix ds ++ part) (Some [slash]) after mk in
  ∃ id out, o = OutList (Ok (response w id (Some out))) ∧
    or_else (out_contents out) [] = object_of_entry <$> contents page ∧
    or_else (out_common_prefixes out) [] = common_prefixes page ∧
    out_is_truncated out = is_truncated page ∧
    out_next_continuation_token out = encode_token <$> next_token page.
Proof.
  intros Hsz Hlen Hp Hnd Hi Hb Hd Hmk Haf Hst Hds Hpart Hpre Hls Hns page.
  destruct (served_listing w mapper config _ _ _ _ _ _ _ _ _ Hsz Hlen Hp Hnd Hi Hb Hmk Haf) as (id & r0 & Hpa & Ho).
  rewrite Hd, Hpre in Hpa. destruct Hpa as (_ & _ & Hpa).
  specialize (Hpa rs tree ds part l Hst Hds Hpart eq_refl Hls Hns). apply Ho in Hpa. clear Ho.
  eexists id, _. split; [exact Hpa|apply page_reported].
Qed.

(** C24 In every interleaving, and whatever the caches hold, a listing with
    another delimiter of a namespace that does not change is the page of the
    files below the directory the prefix spells out: after the marker or
    token, those that match the prefix and are not grouped, and once each
    group, the prefix and what follows it up to the first delimiter, all in
    key order, cut at the page size, truncated exactly when some are left, with
    the token of the last; for the page size zero it is empty. The prefixes
    [.] and [..] are excepted. *)
Theorem list_delimited_exact gw ts i fuel input st o d mk after es :
  sizes_ok (cache config) → lengths_ok w → Pool gw ts → o ≠ OutDropped →
  ts !! i = Some (mkTask (ReqListObjects fuel input) st (Done o)) →
  lo_bucket input = Path.bucket mapper → delimiter_of input = Some d → d ≠ [slash] →
  parse_max_keys (lo_max_keys input) = Some mk → parse_start_after input = Some after →
  walkable w mapper fuel (or_else (lo_prefix input) []) es →
  (N.of_nat (List.length es) <= USIZE_MAX)%N →
  ∃ all, listing_of es [] (or_else (lo_prefix input) []) (Some d) all ∧
  let rest := outputs_after after all in
  let page := take (N.to_nat (N.min mk (N.of_nat (List.length rest)))) rest in
  let more := bool_decide (mk ≠ 0%N ∧ List.length page < List.length rest) in
  ∃ id out, o = OutList (Ok (response w id (Some out))) ∧
    or_else (out_contents out) [] = object_of_entry <$> objects page ∧
    or_else (out_common_prefixes out) [] = prefixes page ∧
    out_is_truncated out = more ∧
    out_next_continuation_token out = (if more then encode_token ∘ output_key <$> last page else None).
Proof.
  intros Hsz Hlen Hp Hnd Hi Hb Hd Hds Hmk Haf Hw Hes.
  pose proof (walkable_nodup w mapper _ _ _ Hw) as Hn.
  exists (all_outputs es [] (or_else (lo_prefix input) []) (Some d)).
  split; [by apply all_outputs_listing; [|right]|]. intros rest page more.
  destruct (served_listing w mapper config _ _ _ _ _ _ _ _ _ Hsz Hlen Hp Hnd Hi Hb Hmk Haf) as (id & r0 & Hpa & Ho).
  rewrite Hd in Hpa. unfold page_answer in Hpa. rewrite bool_decide_eq_false_2 in Hpa by done.
  destruct Hpa as [_ Hpa]. specialize (Hpa es Hw Hes). apply Ho in Hpa. clear Ho.
  eexists id, _. split; [exact Hpa|]. apply (reported_segment _ es [] _ (Some d) after mk Hn), page_reported.
Qed.

(** ** Request ids and log lines *)

(** What every task has written, while the counter has not come round. *)
Lemma served_owned gw ts :
  header_law w → Pool gw ts →
  ∃ gs, Forall2 (λ t g, owns gw_seq gw_events event_id id_of g (t_prog t) (logged (t_req t))
                          (λ g, logged (IoError:=IoError) (t_req t) g OutDropped)) ts gs ∧
    ((gw_seq gw <= U64_MOD)%N → owned gw_seq gw_events event_id id_of gs gw).
Proof using Type.
  intros Hv Hp. eapply (pool_owned (handler w mapper config) OutDropped env gw_seq gw_events event_id id_of
    U64_MOD id_of_inj); [| | |exact Hp]; [intros q; by apply handler_owns|by intros ? ? [? ->]|done].
Qed.

(** While the process has served fewer than [2^64] requests, no two of
    them answer with the same id, however they overlap, and every operation's
    answer, error or not, carries one. *)
Theorem request_ids_unique gw ts i j q1 q2 st1 st2 o1 o2 :
  header_law w → Pool gw ts → (gw_seq gw <= U64_MOD)%N → i ≠ j →
  o1 ≠ OutDropped → o2 ≠ OutDropped →
  ts !! i = Some (mkTask q1 st1 (Done o1)) → ts !! j = Some (mkTask q2 st2 (Done o2)) →
  (∀ b, q1 ≠ ReqBody b) → (∀ b, q2 ≠ ReqBody b) →
  ∃ id1 id2, outcome_id o1 = Some id1 ∧ outcome_id o2 = Some id2 ∧ id1 ≠ id2.
Proof.
  intros Hv Hp Hseq Hij Hd1 Hd2 Hi Hj Hq1 Hq2. destruct (served_owned gw ts Hv Hp) as (gs & Hgs & Ho).
  destruct (Ho Hseq) as [On Od _ _].
  destruct (Forall2_lookup_l _ _ _ _ _ Hgs Hi) as (g1 & Hg1 & T1).
  destruct (Forall2_lookup_l _ _ _ _ _ Hgs Hj) as (g2 & Hg2 & T2). cbn [owns t_prog t_req] in T1, T2.
  apply logged_answer in T1 as (n1 & x1 & path1 & b1 & -> & E1); [|done..].
  apply logged_answer in T2 as (n2 & x2 & path2 & b2 & -> & E2); [|done..].
  exists x1, x2. split_and!; [done..|]. intros <-. destruct (On _ _ _ _ Hg1), (On _ _ _ _ Hg2).
  assert (n1 = n2) as <- by (eapply id_of_inj; [..|done|done]; lia). eauto.
Qed.

(** What follows the line that says a request started: nothing while the request
    is at work, else the one that says it is over. *)
Lemma served_started gw ts id op :
  header_law w → Pool gw ts → (gw_seq gw <= U64_MOD)%N → Started id op ∈ gw_events gw →
  (∃ path n ok, filter (λ e, event_id e = id) (gw_events gw) = lines id op path n ok) ∨
  filter (λ e, event_id e = id) (gw_events gw) = [Started id op] ∧
    ∃ i t, ts !! i = Some t ∧ op_name (t_req t) = op ∧ (∀ b, t_req t ≠ ReqBody b) ∧ ¬ finished t.
Proof using Type.
  intros Hv Hp Hseq He. destruct (served_owned gw ts Hv Hp) as (gs & Hgs & Ho).
  destruct (Ho Hseq) as [_ _ Oe Oa]. destruct (Oa _ He) as (i & n & x & es & Hg & Hx). cbn [event_id] in Hx. subst x.
  pose proof (Oe _ _ _ _ Hg) as Hf. destruct (Forall2_lookup_r _ _ _ _ _ Hgs Hg) as (t & Ht & Hot).
  assert (Started id op ∈ es) as Hin by (rewrite <- Hf; by apply list_elem_of_filter).
  destruct (owns_end _ _ _ _ _ _ _ _ gw Hot) as (g' & o & [es' ->] & Hl).
  destruct (logged_lines _ _ _ _ _ _ Hl eq_refl) as (path & b & ok & E).
  destruct (lines_prefix _ _ _ _ _ _ _ _ E Hin) as [-> Hes]. rewrite Hf. destruct Hes as [->| ->]; [right|left; eauto].
  split; [done|]. exists i, t. split_and!; [done..| |].
  - intros b' Hb. by rewrite Hb in Hl.
  - intros [o' Hd]. rewrite Hd in Hot. cbn [owns] in Hot.
    by destruct (logged_lines _ _ _ _ _ _ Hot eq_refl) as (? & ? & ? & ?).
Qed.

(** C19 The log is complete, however the requests overlap and whichever of them
    are dropped: one that was answered has exactly two lines under the id of its
    answer, and the second says whether it was a success; a line that says a
    request started is followed by the one that says it is over, unless the
    request is still at work. *)
Theorem request_logged gw ts :
  header_law w → Pool gw ts → (gw_seq gw <= U64_MOD)%N →
  (∀ i q st o, ts !! i = Some (mkTask q st (Done o)) → o ≠ OutDropped → (∀ b, q ≠ ReqBody b) →
     ∃ id path n, outcome_id o = Some id ∧
       filter (λ e, event_id e = id) (gw_events gw) = lines id (op_name q) path n (outcome_ok o)) ∧
  (∀ id op, Started id op ∈ gw_events gw →
     (∃ path n ok, filter (λ e, event_id e = id) (gw_events gw) = lines id op path n ok) ∨
     filter (λ e, event_id e = id) (gw_events gw) = [Started id op] ∧
       ∃ i t, ts !! i = Some t ∧ op_name (t_req t) = op ∧ ¬ finished t).
Proof.
  intros Hv Hp Hseq. split.
  - intros i q st o Hi Hd Hq. destruct (served_owned gw ts Hv Hp) as (gs & Hgs & Ho).
    destruct (Ho Hseq) as [_ _ Oe _]. destruct (Forall2_lookup_l _ _ _ _ _ Hgs Hi) as (g & Hg & T).
    cbn [owns t_prog t_req] in T. apply logged_answer in T as (n & x & path & b & -> & E); [|done..].
    exists x, path, b. split; [done|]. by eapply Oe.
  - intros id op He. destruct (served_started gw ts id op Hv Hp Hseq He) as [?|(? & i & t & ? & ? & _ & ?)];
      [by left|right]. split; [done|]. by exists i, t.
Qed.

(** ** Conditional requests *)

(** The date of an HTTP header, in whole seconds. *)
Definition http_date (t : Timestamp) : Timestamp := (t / 1000000000 * 1000000000)%Z.

Lemma millis_date millis :
  (millis_to_timestamp millis = http_date (millis_to_timestamp millis) ∧ (millis mod 1000 = 0)%N) ∨
  ((http_date (millis_to_timestamp millis) < millis_to_timestamp millis)%Z ∧ (millis mod 1000 ≠ 0)%N).
Proof.
  unfold http_date, millis_to_timestamp. pose proof (N.mod_lt millis 1000).
  set (q := (millis / 1000)%N) in *. set (r := (millis mod 1000)%N) in *.
  assert ((Z.of_N q * 1000000000 + Z.of_N (r * 1000000)) / 1000000000 = Z.of_N q)%Z as ->.
  { rewrite Z.div_add_l by done. rewrite Z.div_small by lia. lia. }
  destruct (decide (r = 0%N)); [left|right]; lia.
Qed.

(** C40 Revalidation: an object's own ETag answers [If-None-Match] with 304 and
    passes [If-Match]; the [Last-Modified] date a client echoes does so for the
    date conditions exactly when the modification time has no milliseconds:
    with some, [If-Unmodified-Since] fails with 412 and [If-Modified-Since]
    never answers 304. *)
Theorem revalidation tag millis :
  strong_cmp w tag tag = true → weak_cmp w tag tag = true →
  let modified := millis_to_timestamp millis in
  let date := http_date modified in
  preconditions w (mkConditions None None (Some (OneETag tag)) None) tag modified = Some NotModified ∧
  preconditions w (mkConditions (Some (OneETag tag)) None None None) tag modified = None ∧
  preconditions w (mkConditions None (Some date) None None) tag modified =
    (if bool_decide (millis mod 1000 = 0)%N then None else Some PreconditionFailed) ∧
  preconditions w (mkConditions None None None (Some date)) tag modified =
    (if bool_decide (millis mod 1000 = 0)%N then Some NotModified else None).
Proof.
  intros Hs Hw modified date. unfold preconditions.
  cbn [if_match if_unmodified_since if_none_match if_modified_since etag_matches].
  rewrite Hs, Hw. cbn [negb]. split_and!; [done|done|..];
    (destruct (millis_date millis) as [[E Hm]|[E Hm]]; fold modified in E; fold date in E;
     [rewrite bool_decide_true by done|rewrite bool_decide_false by done]).
  - by rewrite (proj2 (Z.ltb_ge _ _)) by lia.
  - by rewrite (proj2 (Z.ltb_lt _ _)) by lia.
  - by rewrite (proj2 (Z.leb_le _ _)) by lia.
  - by rewrite (proj2 (Z.leb_gt _ _)) by lia.
Qed.
End served.

(** ** Witnesses *)

Definition no_conditions : Conditions := mkConditions None None None None.

(** The first four bytes of [a.txt]. *)
Definition demo_get : GetObjectInput :=
  mkGetObjectInput $"hdfs" $"a.txt" no_conditions (Some (RangeInt 0 (Some 3%N))).

Example get_object_answers_witness :
  ∃ r, outcome_of (ReqGetObject demo_get) = OutGet r ∧
  ∃ id, answered demo_world id
    (get_result demo_world demo_paths demo_config (gw_tick demo_start)
       (gw_tick (after_one (ReqGetObject demo_get)).1) demo_get) r.
Proof.
  exact (get_object_answers demo_world demo_paths demo_config _ _ 0 demo_get demo_start _
    demo_sizes demo_lengths (after_one_served _) (demo_answered _ _) (after_one_task _)).
Defined.

(** The answer that was promised: the window of four bytes. *)
Definition demo_body : GetBody str := mkGetBody $"hello" $"/data/a.txt" 0 4.

Definition demo_response : S3Response (GetObjectOutput str) :=
  mkS3Response (mkGetObjectOutput $"bytes" demo_body 4 (Some $"bytes 0-3/5")
    1500000000 (Strong (fallback_etag 5 1500)) $"application/octet-stream")
    [(request_id_header, fmt_request_id 0 0)].

Example demo_get_response : outcome_of (ReqGetObject demo_get) = OutGet (Ok demo_response).
Proof. vm_compute. reflexivity. Qed.

Definition demo_head : HeadObjectInput := mkHeadObjectInput $"hdfs" $"d" no_conditions.

Example head_object_answers_witness :
  ∃ r, outcome_of (ReqHeadObject demo_head) = OutHead r ∧
  ∃ id, answered demo_world id
    (head_result demo_world demo_paths demo_config (gw_tick demo_start)
       (gw_tick (after_one (ReqHeadObject demo_head)).1) demo_head) r.
Proof.
  exact (head_object_answers demo_world demo_paths demo_config _ _ 0 demo_head demo_start _
    demo_sizes demo_lengths (after_one_served _) (demo_answered _ _) (after_one_task _)).
Defined.

Example caches_hold_answers_witness :
  let gw := (after_one (ReqGetObject demo_get)).1 in
  let cs := gw_caches gw in
  (∀ p e, (p, e) ∈ lru_items (entries (metadata cs)) → stat_entry demo_world (gw_tick gw) p e) ∧
  (∀ p e, (p, e) ∈ lru_items (entries (negative cs)) → missing_entry demo_world (gw_tick gw) p e) ∧
  (∀ p e, (p, e) ∈ lru_items (entries (blocks cs)) → block_entry demo_world (gw_tick gw) p e) ∧
  (∀ p e, (p, e) ∈ lru_items (entries (Caches.dirs cs)) → dir_entry demo_world demo_paths (gw_tick gw) p e) ∧
  (weight_of (lru_items (entries (metadata cs))) <= metadata_capacity (cache demo_config))%N ∧
  (weight_of (lru_items (entries (negative cs))) <= metadata_capacity (cache demo_config))%N ∧
  (weight_of (lru_items (entries (blocks cs))) <= blocks_capacity (cache demo_config))%N ∧
  (weight_of (lru_items (entries (Caches.dirs cs))) <= listing_capacity_entries (cache demo_config))%N.
Proof.
  exact (caches_hold_answers demo_world demo_paths demo_config _ _
    demo_sizes demo_lengths (after_one_served (ReqGetObject demo_get))).
Defined.

Example get_body_exact_witness :
  ∃ out t, outcome_of (ReqBody demo_body) = OutBody out ∧
    body_spec (read_range_stream demo_world t (gb_reader demo_body) (gb_start demo_body)
                 (gb_length demo_body)) (gb_length demo_body) (gb_length demo_body) out.
Proof.
  exact (get_body_exact demo_world demo_paths demo_config _ _ 0 demo_body demo_start _
    demo_sizes demo_lengths (after_one_served _) (demo_answered _ _) (after_one_task _) eq_refl).
Defined.

Example demo_body_out :
  outcome_after (ReqGetObject demo_get) (ReqBody demo_body) = OutBody [Ok $"hell"].
Proof. vm_compute. reflexivity. Qed.

Lemma demo_reads : reads_well demo_world (λ r, r).
Proof.
  split; [done|]. intros t r s n _. split; [done|]. apply app_nil_r.
Qed.

Example get_object_bytes_witness :
  ∃ m s e cr, window_of (fm_length m) (go_range demo_get) s e cr ∧
    go_e_tag (output demo_response) = Strong (fallback_etag (fm_length m) (fm_modification_time m)) ∧
    delivered [Ok (E:=GetBodyError (IoError:=unit)) $"hell"] =
      take (N.to_nat (e - s)) (drop (N.to_nat s) $"hello") ∧
    List.length (delivered [Ok (E:=GetBodyError (IoError:=unit)) $"hell"]) = N.to_nat (e - s).
Proof.
  apply (get_object_bytes demo_world demo_paths demo_config (λ r, r)
           (after_two (ReqGetObject demo_get) (ReqBody demo_body)).1
           (after_two (ReqGetObject demo_get) (ReqBody demo_body)).2 0 1 demo_get demo_response
           demo_start (after_one (ReqGetObject demo_get)).1).
  - apply reads_well_reads, demo_reads.
  - apply demo_sizes.
  - apply demo_lengths.
  - apply after_two_served.
  - rewrite <- demo_get_response. apply after_two_first.
  - rewrite <- demo_body_out. apply after_two_second.
  - reflexivity.
Defined.

Example list_flat_exact_witness :
  let l := requested_files [] None demo_files in
  let k := N.to_nat (N.min 1 (N.of_nat (List.length l))) in
  StronglySorted (key_lt key) l ∧
  ∃ id out, outcome_of (ReqListObjects 10 (demo_list None)) =
            OutList (Ok (response demo_world id (Some out))) ∧
    or_else (out_contents out) [] = object_of_entry <$> take k l ∧
    or_else (out_common_prefixes out) [] = [] ∧
    out_is_truncated out = bool_decide (k < List.length l) ∧
    out_next_continuation_token out =
      (if bool_decide (k < List.length l) then encode_token ∘ key <$> last (take k l) else None) ∧
    out_key_count out = as_i32 (N.of_nat k).
Proof.
  exact (list_flat_exact demo_world demo_paths demo_config _ _ 0 10 (demo_list None) demo_start _ 1 None
    demo_files demo_sizes demo_lengths (after_one_served _) (demo_answered _ _) (after_one_task _) eq_refl eq_refl eq_refl
    ltac:(done) eq_refl (demo_walkable [] eq_refl)).
Defined.

Example list_slash_exact_witness :
  let l := listing_from_statuses [status_d; status_a] demo_paths in
  let page := paginate (Listing.files l) (Listing.dirs l) [] (Some [slash]) None 1 in
  ∃ id out, outcome_of (ReqListObjects 10 (demo_list (Some [slash]))) =
            OutList (Ok (response demo_world id (Some out))) ∧
    or_else (out_contents out) [] = object_of_entry <$> contents page ∧
    or_else (out_common_prefixes out) [] = common_prefixes page ∧
    out_is_truncated out = is_truncated page ∧
    out_next_continuation_token out = encode_token <$> next_token page.
Proof.
  exact (list_slash_exact demo_world demo_paths demo_config _ _ 0 10 (demo_list (Some [slash])) demo_start
    _ 1 None [$"data"] demo_tree [] [] (listing_from_statuses [status_d; status_a] demo_paths)
    demo_sizes demo_lengths (after_one_served _) (demo_answered _ _) (after_one_task _) eq_refl eq_refl eq_refl eq_refl
    demo_stable (List.Forall_nil _) (not_elem_of_nil _) eq_refl eq_refl eq_refl).
Defined.

(** The delimiter [.]: the key [a.txt] collapses to the prefix [a.]. *)
Example list_delimited_exact_witness :
  ∃ all, listing_of demo_files [] [] (Some $".") all ∧
  let rest := outputs_after None all in
  let page := take (N.to_nat (N.min 1 (N.of_nat (List.length rest)))) rest in
  let more := bool_decide (1%N ≠ 0%N ∧ List.length page < List.length rest) in
  ∃ id out, outcome_of (ReqListObjects 10 (demo_list (Some $"."))) =
            OutList (Ok (response demo_world id (Some out))) ∧
    or_else (out_contents out) [] = object_of_entry <$> objects page ∧
    or_else (out_common_prefixes out) [] = prefixes page ∧
    out_is_truncated out = more ∧
    out_next_continuation_token out = (if more then encode_token ∘ output_key <$> last page else None).
Proof.
  exact (list_delimited_exact demo_world demo_paths demo_config _ _ 0 10 (demo_list (Some $".")) demo_start
    _ $"." 1 None demo_files demo_sizes demo_lengths (after_one_served _) (demo_answered _ _) (after_one_task _) eq_refl eq_refl
    ltac:(done) eq_refl eq_refl (demo_walkable [] eq_refl) ltac:(vm_compute; discriminate)).
Defined.

(** Two reads of the same object, one after the other. *)
Example request_ids_unique_witness :
  ∃ id1 id2, outcome_id (outcome_of (ReqGetObject demo_get)) = Some id1 ∧
    outcome_id (outcome_after (ReqGetObject demo_get) (ReqHeadObject demo_head)) = Some id2 ∧ id1 ≠ id2.
Proof.
  apply (request_ids_unique demo_world demo_paths demo_config _ _ 0 1 (ReqGetObject demo_get)
    (ReqHeadObject demo_head) demo_start (after_one (ReqGetObject demo_get)).1 _ _ demo_header
    (after_two_served (ReqGetObject demo_get) (ReqHeadObject demo_head))).
  - vm_compute. discriminate.
  - discriminate.
  - apply demo_answered.
  - apply demo_answered.
  - apply after_two_first.
  - apply after_two_second.
  - discriminate.
  - discriminate.
Defined.

(** A download whose client leaves while the metadata is asked for. *)
Example request_logged_witness :
  ∃ gw, after_drop (ReqGetObject demo_get) 6 = Some gw ∧
    ∃ id path n ok, filter (λ e, event_id e = id) (gw_events gw) = lines id $"GetObject" path n ok ∧ ok = false.
Proof.
  destruct (after_drop (ReqGetObject demo_get) 6) as [gw|] eqn:E; [|by vm_compute in E].
  exists gw. split; [done|].
  pose proof (after_drop_served _ _ _ E) as Hp. vm_compute in E. injection E as <-.
  edestruct (request_logged demo_world demo_paths demo_config _ _ demo_header Hp) as [_ H]; [by vm_compute|].
  destruct (H _ _ (list_elem_of_here _ _)) as [(path & n & ok & Hl)|[Hl _]].
  - eexists _, path, n, ok. split; [exact Hl|]. by vm_compute in Hl; injection Hl.
  - by vm_compute in Hl.
Defined.

(** A file modified half a second past a full one. *)
Example revalidation_witness :
  let modified := millis_to_timestamp 1500 in
  preconditions demo_world (mkConditions None (Some (http_date modified)) None None)
    (Strong $"t") modified = Some PreconditionFailed.
Proof. apply (revalidation demo_world (Strong $"t") 1500 eq_refl eq_refl). Defined.
