(* ===== verification/Front.v ===== *)
(** The whole service: the handlers of the gateway behind the cap.

    A [Front] is what a serving process holds: the semaphore of
    [Backpressure], the shared state of [Gateway], and the exchanges, each with
    its handler and, once answered, its body. [front_step] is one event: an
    arrival, one access of a handler, an answer, one turn of a body's poll, a
    disconnection, or the passing of time. A run of the service is a run of the
    pool of [Requests], so what is proved of the pool holds of the service. *)

From S2P Require Import Prelude Prog Bytes Config Path Range Metadata HdfsError Listing.
From S2P Require Import Cache Caches SortedListing Merge Paging Gateway ListObjects Backpressure.
From S2P Require Import Invariant Objects Listings Requests RequestLog Demo Served.

#[local] Arguments mkHttpResponse {Head B}.
#[local] Arguments resp_head {Head B}.
#[local] Arguments resp_body {Head B}.

(** ** The body of [GetObject], frame by frame *)

Section unfolding.
Context {L : Type → Type} `{!Lru str L} {R IoError : Type} `{!Base64}.
Context (w : World (R:=R) (IoError:=IoError)).

Abbreviation State := (GwState (L:=L) (R:=R)).
Abbreviation Chunk := (result str (GetBodyError (IoError:=IoError))).

(** What [futures::stream::unfold] carries: the items the reader's stream has
    yet to yield, the declared length, and what of it remains. *)
Definition Unfolding : Type := list (result str IoError) * N * N.

(** The closure of [bytes_stream]: the next chunk, over a reader's stream that
    evicts on errors. *)
Definition unfold_step (path : str) (u : Unfolding) : Prog State (option (Chunk * Unfolding)) :=
  let '(stream, limit, remaining) := u in
  if N.eqb remaining 0 then Done None
  else
    match stream with
    | r :: stream =>
        pbind (evict_on_error w path r) (λ r,
          match r with
          | Ok bytes =>
              let bytes := if N.ltb remaining (N.of_nat (List.length bytes))
                           then take (N.to_nat remaining) bytes else bytes in
              let remaining := u64_sub remaining (N.of_nat (List.length bytes)) in
              Done (Some (Ok bytes, (stream, limit, remaining)))
          | Err e => Done (Some (Err (Upstream e), (stream, limit, remaining)))
          end)
    | [] =>
        if N.ltb 0 remaining
        then Done (Some (Err (ShortRead limit (u64_sub limit remaining)), (stream, limit, 0%N)))
        else Done None
    end.

(** The chunks from a poll on. *)
Definition chunks_from (path : str) (p : Prog State (option (Chunk * Unfolding))) : Prog State (list Chunk) :=
  pbind p (λ o,
    match o with
    | Some (c, (stream, limit, remaining)) =>
        pbind (bytes_stream (map (evict_on_error w path) stream) limit remaining) (λ out, Done (c :: out))
    | None => Done []
    end).

(** [bytes_stream] is the closure, unfolded. *)
Lemma bytes_stream_unfold path stream limit remaining :
  same (λ _, True) (bytes_stream (map (evict_on_error w path) stream) limit remaining)
    (chunks_from path (unfold_step path (stream, limit, remaining))).
Proof.
  destruct stream as [|r stream]; cbn [map bytes_stream unfold_step];
    destruct (N.eqb_spec remaining 0) as [->|Hz]; try by constructor.
  - destruct (N.ltb_spec 0 remaining); [|lia]. by constructor.
  - destruct r as [b|e]; [apply same_refl|]. cbn [evict_on_error act pbind chunks_from].
    constructor; [done|done|intros s]. constructor; [done|done|intros s']. apply same_refl.
Qed.
End unfolding.

(** ** The service *)

Section front.
Context {L : Type → Type} `{!Lru str L} {R IoError : Type} `{!Base64}.
Context {Sem Head HttpError : Type} `{!Semaphore Sem}.
Context (w : World (R:=R) (IoError:=IoError)) (mapper : PathMapper) (config : Config).

Abbreviation State := (GwState (L:=L) (R:=R)).
Abbreviation Chunk := (result str (GetBodyError (IoError:=IoError))).
Abbreviation Req := (Request R).
Abbreviation Out := (Outcome R IoError).

(** A response body: bytes in memory (none left once sent), or the stream of an
    object, before the reader was asked and within a poll. *)
Inductive FrontBody : Type :=
| Buffered (bytes : option str)
| Unread (b : GetBody R)
| Polling (b : GetBody R) (p : Prog State (option (Chunk * Unfolding (IoError:=IoError)))).

Abbreviation Conn := (Exchange (Body:=FrontBody) (Head:=Head) (HttpError:=HttpError)).

(** [s3s]: the head of a response and its bytes in memory, from what a handler
    returned; the 503 of the cap. *)
Context (serialize : Out → result (Head * option str) HttpError).
Context (status_head : N → Head).
Context (to_http_response : S3Error → result (HttpResponse (Head:=Head) FrontBody) HttpError).

(** The object an outcome streams. *)
Definition streams (o : Out) : option (GetBody R) :=
  match o with OutGet (Ok resp) => Some (go_body (output resp)) | _ => None end.

(** [S3Service::call], after the handler. *)
Definition render (o : Out) : result (HttpResponse (Head:=Head) FrontBody) HttpError :=
  match serialize o with
  | Ok (head, bytes) =>
      Ok (mkHttpResponse head
            (match streams o with Some b => Unread b | None => Buffered bytes end))
  | Err e => Err e
  end.

(** One access of a poll, or its end: [Pending] while the poll is not through. *)
Definition body_turn (b : FrontBody) (gw : State) : Poll (option Chunk) * FrontBody * State :=
  match b with
  | Buffered (Some bytes) => (Ready (Some (Ok bytes)), Buffered None, gw)
  | Buffered None => (Ready None, Buffered None, gw)
  | Unread b =>
      let items := read_range_stream w (gw_tick gw) (gb_reader b) (gb_start b) (gb_length b) in
      (Pending, Polling b (unfold_step w (gb_path b) (items, gb_length b, gb_length b)), step_tick gw)
  | Polling b (Act B _ f k) => let '(x, gw) := f gw in (Pending, Polling b (k x), gw)
  | Polling b (Done (Some (c, u))) => (Ready (Some c), Polling b (unfold_step w (gb_path b) u), gw)
  | Polling b (Done None) => (Ready None, Polling b (Done None), gw)
  end.

(** An exchange: the request, its handler if it was called (kept when the client
    has gone), the connection, and the chunks it was sent. *)
Record Slot := mkSlot {
  sl_req : Req;
  sl_work : option (Prog State Out);
  sl_conn : Conn;
  sl_chunks : list Chunk;
}.

Record Front := mkFront {
  f_sem : Sem;
  f_slots : list Slot;
  f_gw : State;
}.

Definition front_new : Front := mkFront (bp_service config) [] (initial config).

Inductive front_event : Type :=
| FArrive (q : Req)
| FTurn (i : nat)
| FAnswer (i : nat)
| FPoll (i : nat)
| FDrop (i : nat)
| FTime (n : nat).

(** Clients ask for operations; the streaming of a body is no request. *)
Definition is_operation (q : Req) : bool := match q with ReqBody _ => false | _ => true end.

(** What the disconnection of a client does to its exchange and the shared
    state. A handler is dropped where it awaits, and what it owns there with it;
    within a poll that does not await, neither it nor a body is. *)
Definition drop_slot (x : Conn) (work : option (Prog State Out)) (gw : State) :
    option (option (Prog State Out) * State) :=
  match x, work with
  | Handling, Some (Act B (Some d) f k) => Some (Some (Done OutDropped), d gw)
  | Handling, Some (Act B None f k) => None
  | Sending resp, _ =>
      match pb_inner (resp_body resp) with Polling _ (Act B None f k) => None | _ => Some (work, gw) end
  | _, _ => Some (work, gw)
  end.

Definition front_step (c : Front) (ev : front_event) : Front :=
  let '(mkFront sem slots gw) := c in
  match ev with
  | FArrive q =>
      if is_operation q then
        let '(x, sem) := bp_call (Buffered None) status_head to_http_response sem in
        let work := match x with Refused _ => None | _ => Some (handler w mapper config q) end in
        mkFront sem (slots ++ [mkSlot q work x []]) gw
      else c
  | FTurn i =>
      match slots !! i with
      | Some (mkSlot q (Some (Act B _ f k)) Handling chunks) =>
          let '(x, gw) := f gw in mkFront sem (<[i := mkSlot q (Some (k x)) Handling chunks]> slots) gw
      | _ => c
      end
  | FAnswer i =>
      match slots !! i with
      | Some (mkSlot q (Some (Done o)) Handling chunks) =>
          let '(x, sem) := bp_answer (render o) sem in
          mkFront sem (<[i := mkSlot q (Some (Done o)) x chunks]> slots) gw
      | _ => c
      end
  | FPoll i =>
      match slots !! i with
      | Some (mkSlot q work (Sending resp) chunks) =>
          let '(r, inner, gw) := body_turn (pb_inner (resp_body resp)) gw in
          let '(r, (b, sem)) := poll_frame (λ _, (r, inner)) (resp_body resp) sem in
          let chunks := match r with Ready (Some c) => chunks ++ [c] | _ => chunks end in
          mkFront sem (<[i := mkSlot q work (Sending (mkHttpResponse (resp_head resp) b)) chunks]> slots) gw
      | _ => c
      end
  | FDrop i =>
      match slots !! i with
      | Some (mkSlot q work x chunks) =>
          match drop_slot x work gw with
          | Some (work, gw) => mkFront (bp_drop x sem) (<[i := mkSlot q work Gone chunks]> slots) gw
          | None => c
          end
      | None => c
      end
  | FTime n =>
      mkFront sem slots (mkGwState (gw_caches gw) (gw_seq gw) (gw_tick gw + n) (gw_events gw))
  end.

Definition front_run (evs : list front_event) : Front := foldl front_step front_new evs.
End front.

(** ** A run of the service is a run of the pool *)

Section refines.
Context {L : Type → Type} `{!Lru str L} {R IoError : Type} `{!Base64}.
Context {Sem Head HttpError : Type} `{!Semaphore Sem}.
Context (w : World (R:=R) (IoError:=IoError)) (mapper : PathMapper) (config : Config).

Abbreviation State := (GwState (L:=L) (R:=R)).
Abbreviation Chunk := (result str (GetBodyError (IoError:=IoError))).
Abbreviation Req := (Request R).
Abbreviation Out := (Outcome R IoError).
Abbreviation Body := (FrontBody (L:=L) (R:=R) (IoError:=IoError)).
Abbreviation FSlot := (Slot (L:=L) (R:=R) (IoError:=IoError) (Head:=Head) (HttpError:=HttpError)).
Abbreviation Slots := (list FSlot).
Abbreviation pstep := (pool_step (S:=State) (handler w mapper config) OutDropped env).
Abbreviation Tasks := (list (Task (S:=State) (Req:=Req) (A:=Out))).

(** The task of a body under way: the poll, the chunks to come, after those
    already sent. *)
Definition resumed (b : GetBody R) p (chunks : list Chunk) : Prog State Out :=
  pmap OutBody (pbind (chunks_from w (gb_path b) p) (λ out, Done (chunks ++ out))).

(** The tasks an exchange stands for: its handler, unless it was refused; and
    its body, once the reader was asked. *)
Definition slot_view (s : FSlot) (body : bool) : option (Req * Prog State Out) :=
  if body then
    match sl_conn s with
    | Sending resp =>
        match pb_inner (resp_body resp) with
        | Polling b p => Some (ReqBody b, resumed b p (sl_chunks s))
        | _ => None
        end
    | _ => None
    end
  else match sl_work s with Some p => Some (sl_req s, p) | None => None end.

Definition view (slots : Slots) (o : nat * bool) : option (Req * Prog State Out) :=
  match slots !! o.1 with Some s => slot_view s o.2 | None => None end.

(** The tasks an exchange may have had. *)
Definition had (s : FSlot) (body : bool) : Prop :=
  if body then
    match sl_conn s with
    | Handling => False
    | Sending resp => match pb_inner (resp_body resp) with Polling _ _ => True | _ => False end
    | _ => True
    end
  else is_Some (sl_work s).

Definition taken (slots : Slots) (o : nat * bool) : Prop := ∃ s, slots !! o.1 = Some s ∧ had s o.2.

(** [owners] names the task at each place of the pool; every one viewed is
    there, at the same point. *)
Record mirror (V : nat * bool → option (Req * Prog State Out)) (T : nat * bool → Prop)
    (owners : list (nat * bool)) (ts : Tasks) : Prop := {
  mr_length : List.length owners = List.length ts;
  mr_nodup : NoDup owners;
  mr_taken : ∀ o, o ∈ owners → T o;
  mr_body : ∀ j i t, owners !! j = Some (i, true) → ts !! j = Some t → ∃ b, t_req t = ReqBody b;
  mr_view : ∀ o q p, V o = Some (q, p) → ∃ j st p',
    owners !! j = Some o ∧ ts !! j = Some (mkTask q st p') ∧ same (λ _, True) p p';
}.

Lemma mirror_weaken V V' (T T' : nat * bool → Prop) owners ts :
  mirror V T owners ts →
  (∀ o q p, V' o = Some (q, p) → ∃ p0, V o = Some (q, p0) ∧ same (λ _, True) p p0) →
  (∀ o, T o → T' o) → mirror V' T' owners ts.
Proof using Type.
  intros [H1 H2 H3 H5 H4] HV HT. split; [done..|by auto|done|]. intros o q p Ho.
  destruct (HV o q p Ho) as (p0 & Hp & Hs). destruct (H4 o q p0 Hp) as (j & st & p' & ? & ? & ?).
  exists j, st, p'. split_and!; [done..|]. by eapply same_trans.
Qed.

(** A task at the point [p] moves to [p1]: by an access, or by its drop. *)
Definition moves (q : Req) (gw gw' : State) (p p1 : Prog State Out) : Prop := ∀ ts j st p',
  same (λ _, True) p p' → ts !! j = Some (mkTask q st p') →
  ∃ p2, pstep (gw, ts) (gw', <[j := mkTask q st p2]> ts) ∧ same (λ _, True) p1 p2.

Lemma moves_run q gw B d (f : State → B * State) k : moves q gw (f gw).2 (Act B d f k) (k (f gw).1).
Proof using Type.
  intros ts j st p' Hs Hj. apply same_inv in Hs as (d' & f' & k' & -> & _ & Hf & Hk).
  exists (k' (f gw).1). split; [rewrite Hf; by eapply pool_run|apply Hk].
Qed.

Lemma moves_drop q gw B d (f : State → B * State) k :
  moves q gw (d gw) (Act B (Some d) f k) (Done OutDropped).
Proof using Type.
  intros ts j st p' Hs Hj. apply same_inv in Hs as ([d'|] & f' & k' & -> & Hd & _ & _); [|done].
  exists (Done OutDropped). split; [rewrite Hd; by eapply pool_drop|by constructor].
Qed.

Lemma mirror_run V T owners ts gw gw' o q p p1 :
  mirror V T owners ts → V o = Some (q, p) → moves q gw gw' p p1 →
  ∃ ts', pstep (gw, ts) (gw', ts') ∧
    mirror (λ o', if decide (o' = o) then Some (q, p1) else V o') T owners ts'.
Proof using Type.
  intros [H1 H2 H3 H5 H4] Ho Hmv. destruct (H4 o q _ Ho) as (j & st & p' & Hj & Ht & Hs).
  destruct (Hmv _ _ _ _ Hs Ht) as (p2 & Hst & Hs2).
  exists (<[j := mkTask q st p2]> ts). split; [exact Hst|].
  split; [by rewrite length_insert|done|done| |].
  { intros j' i' t Hj' [(<- & <- & _)|[_ Ht']]%list_lookup_insert_Some; [|by eapply H5].
    by apply (H5 _ _ _ Hj' Ht). }
  intros o' q' p''. case_decide as E.
  - intros [= <- <-]. subst o'. exists j, st, p2. split_and!; [done| |done].
    apply list_lookup_insert_eq. by eapply lookup_lt_Some.
  - intros (j' & st' & p3 & Hj' & Ht' & Hs')%H4. exists j', st', p3. split_and!; [done| |done].
    rewrite list_lookup_insert_ne; [done|]. intros <-. rewrite Hj in Hj'. congruence.
Qed.

Lemma mirror_spawn V (T : nat * bool → Prop) owners ts gw o q :
  mirror V T owners ts → ¬ T o → (o.2 = true → ∃ b, q = ReqBody b) →
  ∃ ts', pstep (gw, ts) (gw, ts') ∧
    mirror (λ o', if decide (o' = o) then Some (q, handler w mapper config q) else V o')
      (λ o', o' = o ∨ T o') (owners ++ [o]) ts'.
Proof using Type.
  intros [H1 H2 H3 H5 H4] Ho Hb. eexists. split; [by apply (pool_spawn _ _ _ gw ts q)|]. split.
  - rewrite !length_app, H1. done.
  - apply NoDup_app. split_and!; [done| |apply NoDup_singleton].
    intros o' Ho' ?%list_elem_of_singleton. subst o'. auto.
  - intros o' [?|?%list_elem_of_singleton]%elem_of_app; auto.
  - intros j i t [Hj|[Hj [_ ->]%list_lookup_singleton_Some]]%lookup_app_Some
      [Ht|[Ht [_ <-]%list_lookup_singleton_Some]]%lookup_app_Some; [by eapply H5|..|by apply Hb].
    + apply lookup_lt_Some in Hj. lia.
    + apply lookup_lt_Some in Ht. lia.
  - intros o' q' p'. case_decide as E.
    + intros [= <- <-]. subst o'. exists (List.length ts), gw, (handler w mapper config q).
      rewrite <- H1 at 1. rewrite !lookup_app_r, !Nat.sub_diag by lia.
      split_and!; [done..|apply same_refl].
    + intros (j & st & p'' & Hj & Ht & Hs)%H4. exists j, st, p''.
      split_and!; [by apply lookup_app_l_Some..|done].
Qed.

Lemma view_insert slots i s s' o :
  slots !! i = Some s →
  view (<[i := s']> slots) o = if decide (o.1 = i) then slot_view s' o.2 else view slots o.
Proof using Type.
  intros Hi. unfold view. case_decide as E.
  - rewrite E, list_lookup_insert_eq by (by eapply lookup_lt_Some). done.
  - by rewrite list_lookup_insert_ne by done.
Qed.

Lemma view_snoc slots s o :
  view (slots ++ [s]) o = if decide (o.1 = List.length slots) then slot_view s o.2 else view slots o.
Proof using Type.
  unfold view. case_decide as E; [by rewrite E, lookup_app_r, Nat.sub_diag by lia|].
  destruct (decide (o.1 < List.length slots)); [by rewrite lookup_app_l by lia|].
  by rewrite !lookup_ge_None_2 by (rewrite ?length_app; simpl; lia).
Qed.
(** ** The exchanges *)

Context (serialize : Out → result (Head * option str) HttpError) (status_head : N → Head).
Context (to_http_response : S3Error → result (HttpResponse (Head:=Head) Body) HttpError).

Abbreviation Front := (Front (L:=L) (R:=R) (IoError:=IoError) (Sem:=Sem) (Head:=Head) (HttpError:=HttpError)).
Abbreviation fstep := (front_step (Sem:=Sem) w mapper config serialize status_head to_http_response).
Abbreviation frun := (front_run (L:=L) (Sem:=Sem) w mapper config serialize status_head to_http_response).

(** A body that belongs to an outcome. *)
Definition body_of (o : Out) (b : Body) : Prop :=
  match b with
  | Buffered _ => streams o = None
  | Unread b => streams o = Some b
  | Polling b _ => streams o = Some b
  end.

(** Nothing is left of it. *)
Definition ended (b : Body) : Prop :=
  match b with Buffered None => True | Polling _ (Done None) => True | _ => False end.

Record sending_ok (s : FSlot) (resp : HttpResponse (Head:=Head) PermitBody) : Prop := {
  so_outcome : ∃ o, sl_work s = Some (Done o) ∧ body_of o (pb_inner (resp_body resp));
  so_unread : match pb_inner (resp_body resp) with Unread _ => sl_chunks s = [] | _ => True end;
  so_ended : pb_permit (resp_body resp) = None → ended (pb_inner (resp_body resp));
}.

(** Nothing is left of the work. *)
Definition settled (work : option (Prog State Out)) : Prop := ∀ p, work = Some p → ∃ o, p = Done o.

(** A handler that is dropped has made its access of that; else nothing has. *)
Lemma drop_slot_spec x work gw work' gw1 :
  drop_slot (L:=L) (R:=R) (IoError:=IoError) (Head:=Head) (HttpError:=HttpError) x work gw = Some (work', gw1) →
  work' = work ∧ gw1 = gw ∧ (x = Handling → settled work) ∨
  ∃ B d f k, x = Handling ∧ work = Some (Act B (Some d) f k) ∧ work' = Some (Done OutDropped) ∧ gw1 = d gw.
Proof using Type.
  unfold drop_slot. destruct x as [| |resp| |]; try (intros [= <- <-]; by left).
  - destruct work as [[o|B [d|] f k]|]; [| |done|].
    + intros [= <- <-]. left. split_and!; [done..|]. intros _ p [= <-]. by exists o.
    + intros [= <- <-]. right. by eexists B, d, f, k.
    + intros [= <- <-]. by left.
  - destruct (pb_inner (resp_body resp)) as [| |b [|B [d|] f k]]; intros [= <- <-]; by left.
Qed.

Definition slot_ok (s : FSlot) : Prop :=
  match sl_conn s with
  | Handling => sl_chunks s = []
  | Sending resp => sending_ok s resp
  | _ => settled (sl_work s)
  end.

(** A turn of a body: the poll ends at its end only, and an ended body stays so
    without an access. *)
Lemma body_turn_ok (b b' : Body) gw gw' r :
  body_turn w b gw = (r, b', gw') →
  (∀ o, body_of o b → body_of o b') ∧ (∀ g, b' ≠ Unread g) ∧ (r = Ready None → ended b') ∧
  (ended b → b' = b ∧ gw' = gw ∧ r = Ready None).
Proof using Type.
  destruct b as [[bytes|]|g|g [[[c u]|]|B d f k]]; cbn [body_turn].
  1-5: by intros [= <- <- <-].
  destruct (f gw) as [x gw1]. by intros [= <- <- <-].
Qed.

Lemma poll_frame_spec (r : Poll (option Chunk)) (inner : Body) b (sem : Sem) :
  poll_frame (λ _, (r, inner)) b sem =
    (r, if is_end r then release (mkPermitBody inner (pb_permit b)) sem
        else (mkPermitBody inner (pb_permit b), sem)).
Proof using Type. by destruct r as [[?|]|]. Qed.

Lemma slots_insert (P : FSlot → Prop) (slots : Slots) i s :
  (∀ i s, slots !! i = Some s → P s) → P s → ∀ j s', <[i := s]> slots !! j = Some s' → P s'.
Proof using Type.
  intros Hall Hs j s' [(_ & <- & _)|[_ Hj]]%list_lookup_insert_Some; [done|by eapply Hall].
Qed.

Lemma front_step_ok (c : Front) ev :
  (∀ i s, f_slots c !! i = Some s → slot_ok s) →
  ∀ i s, f_slots (fstep c ev) !! i = Some s → slot_ok s.
Proof using Type.
  destruct c as [sem slots gw]. cbn [f_slots]. intros Hall.
  destruct ev as [q|i|i|i|i|n]; cbn [front_step]; try exact Hall.
  - destruct (is_operation q); [|exact Hall]. unfold bp_call.
    destruct (try_acquire sem); cbn [f_slots];
      intros i s' [?|[_ [_ <-]%list_lookup_singleton_Some]]%lookup_app_Some; try done; by eapply Hall.
  - destruct (slots !! i) as [[q [[o|B d f k]|] x chunks]|] eqn:E; try exact Hall.
    destruct x; try exact Hall. destruct (f gw) as [y gw1]. cbn [f_slots].
    apply slots_insert; [exact Hall|]. exact (Hall _ _ E).
  - destruct (slots !! i) as [[q [[o|B d f k]|] x chunks]|] eqn:E; try exact Hall.
    destruct x; try exact Hall. pose proof (Hall _ _ E) as Hc. unfold slot_ok in Hc.
    cbn [sl_conn sl_chunks] in Hc. unfold render.
    destruct (serialize o) as [[hd bytes]|e]; cbn [bp_answer f_slots]; (apply slots_insert; [exact Hall|]);
      [|intros p [= <-]; by exists o]. split; cbn [resp_body new_permit_body pb_inner pb_permit sl_work sl_chunks]; [|..|done].
    + exists o. split; [done|]. by destruct (streams o) eqn:Es.
    + by destruct (streams o).
  - destruct (slots !! i) as [[q work x chunks]|] eqn:E; [|exact Hall]. destruct x as [| |resp| |]; try exact Hall.
    destruct (body_turn w (pb_inner (resp_body resp)) gw) as [[r inner] gw1] eqn:Eb.
    rewrite poll_frame_spec. pose proof (Hall _ _ E) as [(o & Eo & Ho) _ He]. cbn [sl_work] in *.
    apply body_turn_ok in Eb as (B1 & B2 & B3 & B4).
    destruct (is_end r) eqn:Er; [|]; cbn [f_slots release]; (apply slots_insert; [exact Hall|]);
      (split; cbn [sl_work resp_body pb_inner pb_permit sl_chunks]; [by exists o; auto|by destruct inner; [|destruct (B2 b)|]|]).
    + intros _. apply B3. by destruct r as [[?|]|].
    + intros Hn%He. destruct (B4 Hn) as (_ & _ & ->). done.
  - destruct (slots !! i) as [[q work x chunks]|] eqn:E; [|exact Hall].
    destruct (drop_slot x work gw) as [[work' gw1]|] eqn:Ed; [|exact Hall]. cbn [f_slots].
    apply slots_insert; [exact Hall|]. pose proof (Hall _ _ E) as Hc. unfold slot_ok in *. cbn [sl_conn sl_work] in *.
    apply drop_slot_spec in Ed as [(-> & _ & Hs)|(B & d & f & k & _ & _ & -> & _)]; [|intros p [= <-]; by eexists].
    destruct x as [| |resp| |]; auto. destruct Hc as [(o & Hw & _) _ _]. intros p Hp. exists o.
    cbn [sl_work] in Hw. congruence.
Qed.

Lemma front_slots_ok evs : ∀ i s, f_slots (frun evs) !! i = Some s → slot_ok s.
Proof using Type.
  unfold front_run. induction evs as [|ev evs IH] using rev_ind; [done|].
  rewrite foldl_app. cbn [foldl]. by apply front_step_ok.
Qed.
(** ** Each event, in the pool *)

Lemma resumed_next b c u chunks :
  same (λ _, True) (resumed b (unfold_step w (gb_path b) u) (chunks ++ [c])) (resumed b (Done (Some (c, u))) chunks).
Proof using Type.
  unfold resumed, pmap. eapply same_bind; [|intros a _; apply same_refl]. destruct u as [[items limit] remaining].
  change (chunks_from w (gb_path b) (Done (Some (c, (items, limit, remaining))))) with
    (pbind (bytes_stream (map (evict_on_error w (gb_path b)) items) limit remaining) (λ out, Done (c :: out))).
  eapply same_trans; [eapply same_bind; [apply same_sym, bytes_stream_unfold|intros a _; apply same_refl]|].
  eapply same_trans; [|apply same_sym, same_assoc].
  eapply same_bind; [apply same_refl|]. intros out _. cbn [pbind]. rewrite <- app_assoc. apply same_refl.
Qed.

Lemma resumed_start b items limit :
  same (λ _, True) (resumed b (unfold_step w (gb_path b) (items, limit, limit)) [])
    (pmap OutBody (bytes_stream (map (evict_on_error w (gb_path b)) items) limit limit)).
Proof using Type.
  unfold resumed, pmap. eapply same_bind; [|intros a _; apply same_refl].
  apply same_sym. eapply same_trans; [apply bytes_stream_unfold|].
  generalize (chunks_from w (gb_path b) (unfold_step w (gb_path b) (items, limit, limit))). intros p.
  induction p as [a|B d f k IH]; cbn [pbind app]; constructor; auto using same_drop_refl.
Qed.

Lemma taken_insert slots i s s' :
  slots !! i = Some s → (∀ body, had s body → had s' body) →
  ∀ o, taken slots o → taken (<[i := s']> slots) o.
Proof using Type.
  intros Hi Hh [j body] (s1 & Hj & Hs1). cbn [fst snd] in *. unfold taken. cbn [fst snd].
  destruct (decide (j = i)) as [->|Hne].
  - exists s'. split; [apply list_lookup_insert_eq; by eapply lookup_lt_Some|].
    apply Hh. congruence.
  - exists s1. by rewrite list_lookup_insert_ne.
Qed.

(** An exchange changes without an access. *)
Lemma mirror_quiet slots owners ts i s s' :
  mirror (view slots) (taken slots) owners ts → slots !! i = Some s →
  (∀ body q p, slot_view s' body = Some (q, p) →
     ∃ p0, slot_view s body = Some (q, p0) ∧ same (λ _, True) p p0) →
  (∀ body, had s body → had s' body) →
  mirror (view (<[i := s']> slots)) (taken (<[i := s']> slots)) owners ts.
Proof using Type.
  intros Hm Hi Hv Hh. eapply mirror_weaken; [exact Hm| |by eapply taken_insert].
  intros [j body] q p. rewrite (view_insert slots i s s') by done. cbn [fst snd]. case_decide as E.
  - subst j. unfold view. cbn [fst snd]. rewrite Hi. apply Hv.
  - intros Hp. exists p. split; [done|apply same_refl].
Qed.

(** One of its two tasks moves. *)
Lemma mirror_turn slots owners ts i s s' gw gw' q p p1 p2 body :
  mirror (view slots) (taken slots) owners ts → slots !! i = Some s →
  slot_view s body = Some (q, p) → moves q gw gw' p p1 →
  slot_view s' body = Some (q, p2) → same (λ _, True) p2 p1 →
  (∀ p', slot_view s' (negb body) = Some p' → slot_view s (negb body) = Some p') →
  (∀ body, had s body → had s' body) →
  ∃ ts', pstep (gw, ts) (gw', ts') ∧
    mirror (view (<[i := s']> slots)) (taken (<[i := s']> slots)) owners ts'.
Proof using Type.
  intros Hm Hi Hv Hmv Hv' Hs Ho Hh.
  destruct (mirror_run _ _ _ _ gw gw' (i, body) q p p1 Hm) as (ts' & Hst & Hm'); [|done|].
  { unfold view. cbn [fst snd]. by rewrite Hi. }
  exists ts'. split; [done|]. eapply mirror_weaken; [exact Hm'| |by eapply taken_insert].
  intros [j body'] q' p'. rewrite (view_insert slots i s s') by done. cbn [fst snd]. case_decide as E.
  - subst j. destruct (decide (body' = body)) as [->|Hne].
    + rewrite Hv'. intros [= <- <-]. exists p1. by rewrite decide_True.
    + assert (body' = negb body) as -> by by destruct body, body'.
      rewrite decide_False by (by destruct body). intros Hp%Ho. exists p'. unfold view. cbn [fst snd].
      rewrite Hi. split; [done|apply same_refl].
  - rewrite decide_False by congruence. intros Hp. exists p'. split; [done|apply same_refl].
Qed.

Lemma mirror_arrive slots owners ts gw q :
  mirror (view slots) (taken slots) owners ts →
  ∃ ts', pstep (gw, ts) (gw, ts') ∧
    mirror (view (slots ++ [mkSlot q (Some (handler w mapper config q)) Handling []]))
      (taken (slots ++ [mkSlot q (Some (handler w mapper config q)) Handling []]))
      (owners ++ [(List.length slots, false)]) ts'.
Proof using Type.
  intros Hm. destruct (mirror_spawn _ _ _ _ gw (List.length slots, false) q Hm) as (ts' & Hst & Hm'); [|done|].
  { intros (s & Hs%lookup_lt_Some & _). cbn in Hs. lia. }
  exists ts'. split; [done|]. eapply mirror_weaken; [exact Hm'|..].
  - intros [j [|]] q' p'; rewrite view_snoc; cbn [fst snd]; case_decide as E; try done.
    + rewrite decide_False by congruence. intros Hp. exists p'. split; [done|apply same_refl].
    + subst j. rewrite decide_True by done. intros [= <- <-]. eexists. split; [done|apply same_refl].
    + rewrite decide_False by congruence. intros Hp. exists p'. split; [done|apply same_refl].
  - intros o [->|(s & Hs & Hh)].
    + eexists. cbn [fst snd]. rewrite lookup_app_r, Nat.sub_diag by lia. by split; [|eexists].
    + exists s. split; [by apply lookup_app_l_Some|done].
Qed.

Lemma mirror_refuse slots owners ts q resp :
  mirror (view slots) (taken slots) owners ts →
  mirror (view (slots ++ [mkSlot q None (Refused resp) []])) (taken (slots ++ [mkSlot q None (Refused resp) []])) owners ts.
Proof using Type.
  intros Hm. eapply mirror_weaken; [exact Hm|..].
  - intros [j body] q' p'. rewrite view_snoc. cbn [fst snd]. case_decide as E; [by destruct body|].
    intros Hp. exists p'. split; [done|apply same_refl].
  - intros o (s & Hs & Hh). exists s. split; [by apply lookup_app_l_Some|done].
Qed.
(** A turn of the body of an exchange. *)
Lemma mirror_poll slots owners ts i q work resp chunks gw r inner gw' resp' :
  mirror (view slots) (taken slots) owners ts →
  slots !! i = Some (mkSlot q work (Sending resp) chunks) →
  slot_ok (mkSlot q work (Sending resp) chunks) →
  body_turn w (pb_inner (resp_body resp)) gw = (r, inner, gw') → pb_inner (resp_body resp') = inner →
  let slots' := <[i := mkSlot q work (Sending resp')
                         (match r with Ready (Some c) => chunks ++ [c] | _ => chunks end)]> slots in
  ∃ owners' ts', rtc pstep (gw, ts) (gw', ts') ∧ mirror (view slots') (taken slots') owners' ts'.
Proof using Type.
  intros Hm Hi [_ Hu _] Hb Hin slots'. cbn [sl_chunks] in Hu.
  destruct (pb_inner (resp_body resp)) as [[bytes|]|b|b [[[c u]|]|B d f k]] eqn:Eb; cbn [body_turn] in Hb.
  1, 2, 4, 5: injection Hb as <- <- <-; exists owners, ts; (split; [apply rtc_refl|]);
    (eapply mirror_quiet; [exact Hm|exact Hi| |]);
    (intros [|]; cbn [slot_view had sl_conn sl_req sl_work sl_chunks]; rewrite ?Hin, ?Eb; try done; eauto using same_refl).
  - intros q' p'. intros [= <- <-]. eexists. split; [done|]. apply resumed_next.
  - injection Hb as <- <- <-. subst chunks.
    destruct (mirror_spawn _ _ _ _ gw (i, true) (ReqBody b) Hm) as (ts1 & Hst1 & Hm1); [|by exists b|].
    { intros (s & Hs & Hh). cbn [fst snd] in Hs. rewrite Hi in Hs. injection Hs as <-.
      cbn [had sl_conn snd] in Hh. by rewrite Eb in Hh. }
    eapply mirror_run with (o := (i, true)) in Hm1 as (ts2 & Hst2 & Hm2);
      [|by rewrite decide_True|apply (moves_run _ gw)].
    exists (owners ++ [(i, true)]), ts2. split; [eapply rtc_l; [exact Hst1|by apply rtc_once]|].
    eapply mirror_weaken; [exact Hm2| |].
    + intros [j body] q' p'. unfold slots'. rewrite (view_insert slots i _ _) by done. cbn [fst snd].
      case_decide as E; [subst j; destruct body|]; cbn [slot_view sl_conn sl_req sl_work sl_chunks].
      * rewrite Hin. intros [= <- <-]. rewrite decide_True by done. eexists. split; [done|].
        apply resumed_start.
      * rewrite !decide_False by congruence. intros Hp. exists p'. unfold view. cbn [fst snd].
        rewrite Hi. split; [exact Hp|apply same_refl].
      * rewrite !decide_False by congruence. intros Hp. exists p'. split; [done|apply same_refl].
    + intros o [->|Ho].
      * eexists. cbn [fst snd]. split; [apply list_lookup_insert_eq; by eapply lookup_lt_Some|].
        cbn [had sl_conn]. by rewrite Hin.
      * revert o Ho. apply (taken_insert slots i _ _ Hi). intros [|]; cbn [had sl_conn]; by rewrite ?Hin.
  - destruct (f gw) as [x gw1] eqn:Ef. injection Hb as <- <- <-.
    pose proof (moves_run (ReqBody b) gw B d f (λ x, resumed b (k x) chunks)) as Hmv. rewrite Ef in Hmv.
    destruct (mirror_turn slots owners ts i _ (mkSlot q work (Sending resp') chunks) gw gw1
      (ReqBody b) (resumed b (Act B d f k) chunks) (resumed b (k x) chunks) (resumed b (k x) chunks) true Hm Hi) as (ts' & Hst & Hm');
      [|exact Hmv|..].
    + cbn [slot_view sl_conn sl_chunks]. by rewrite Eb.
    + cbn [slot_view sl_conn sl_chunks]. by rewrite Hin.
    + apply same_refl.
    + done.
    + intros [|]; cbn [had sl_conn]; by rewrite ?Hin.
    + exists owners, ts'. split; [by apply rtc_once|done].
Qed.

Lemma front_step_mirror (c : Front) ev owners ts :
  (∀ i s, f_slots c !! i = Some s → slot_ok s) →
  mirror (view (f_slots c)) (taken (f_slots c)) owners ts →
  ∃ owners' ts', rtc pstep (f_gw c, ts) (f_gw (fstep c ev), ts') ∧
    mirror (view (f_slots (fstep c ev))) (taken (f_slots (fstep c ev))) owners' ts'.
Proof using Type.
  destruct c as [sem slots gw]. cbn [f_slots f_gw]. intros Hok Hm.
  assert (∃ owners' ts', rtc pstep (gw, ts) (gw, ts') ∧ mirror (view slots) (taken slots) owners' ts') as Hstay.
  { exists owners, ts. split; [apply rtc_refl|done]. }
  destruct ev as [q|i|i|i|i|n]; cbn [front_step].
  - destruct (is_operation q); [|exact Hstay]. unfold bp_call.
    destruct (try_acquire sem); cbn [f_slots f_gw].
    + destruct (mirror_arrive slots owners ts gw q Hm) as (ts' & Hst & Hm').
      eexists _, ts'. split; [by apply rtc_once|exact Hm'].
    + exists owners, ts. split; [apply rtc_refl|by apply mirror_refuse].
  - destruct (slots !! i) as [[q [[o|B d f k]|] x chunks]|] eqn:E; try exact Hstay.
    destruct x; try exact Hstay. destruct (f gw) as [y gw1] eqn:Ef. cbn [f_slots f_gw].
    pose proof (moves_run q gw B d f k) as Hmv. rewrite Ef in Hmv.
    destruct (mirror_turn slots owners ts i _ (mkSlot q (Some (k y)) Handling chunks) gw gw1 q
      (Act B d f k) (k y) (k y) false Hm E
      eq_refl Hmv eq_refl (same_refl _)) as (ts' & Hst & Hm'); [done|by intros [|]; [|eexists]|].
    exists owners, ts'. split; [by apply rtc_once|done].
  - destruct (slots !! i) as [[q [[o|B d f k]|] x chunks]|] eqn:E; try exact Hstay.
    destruct x; try exact Hstay. unfold render.
    destruct (serialize o) as [[hd bytes]|e]; cbn [bp_answer f_slots f_gw];
      exists owners, ts; (split; [apply rtc_refl|]); (eapply mirror_quiet; [exact Hm|exact E| |]);
      intros [|]; cbn [slot_view had sl_conn sl_req sl_work sl_chunks resp_body new_permit_body pb_inner];
      try destruct (streams o); try done; eauto using same_refl.
  - destruct (slots !! i) as [[q work x chunks]|] eqn:E; [|exact Hstay]. destruct x as [| |resp| |]; try exact Hstay.
    destruct (body_turn w (pb_inner (resp_body resp)) gw) as [[r inner] gw1] eqn:Eb.
    rewrite poll_frame_spec. destruct (is_end r); cbn [f_slots f_gw release];
      (eapply mirror_poll; [exact Hm|exact E|by eapply Hok|exact Eb|done]).
  - destruct (slots !! i) as [[q work x chunks]|] eqn:E; [|exact Hstay].
    destruct (drop_slot x work gw) as [[work' gw1]|] eqn:Ed; [|exact Hstay]. cbn [f_slots f_gw].
    apply drop_slot_spec in Ed as [(-> & -> & _)|(B & d & f & k & -> & -> & -> & ->)].
    + exists owners, ts. split; [apply rtc_refl|]. eapply mirror_quiet; [exact Hm|exact E| |]; [|by intros [|]].
      intros [|]; cbn [slot_view sl_conn sl_req sl_work]; [done|]. eauto using same_refl.
    + destruct (mirror_turn slots owners ts i _ (mkSlot q (Some (Done OutDropped)) Gone chunks) gw (d gw) q
        (Act B (Some d) f k) (Done OutDropped) (Done OutDropped) false Hm E eq_refl (moves_drop q gw B d f k) eq_refl (same_refl _)) as (ts' & Hst & Hm'); [done|by intros [|]; [|eexists]|].
      exists owners, ts'. split; [by apply rtc_once|done].
  - eexists owners, ts. split; [|done]. apply rtc_once, pool_env. by exists n.
Qed.
Lemma front_mirror evs :
  ∃ owners ts, served w mapper config (f_gw (frun evs)) ts ∧
    mirror (view (f_slots (frun evs))) (taken (f_slots (frun evs))) owners ts.
Proof using Type.
  induction evs as [|ev evs (owners & ts & Hr & Hm)] using rev_ind.
  - exists [], []. split; [apply rtc_refl|]. split; [done|constructor|by intros ? ?%elem_of_nil|done..].
  - destruct (front_step_mirror _ ev owners ts (front_slots_ok evs) Hm) as (owners' & ts' & Hst & Hm').
    unfold front_run in *. rewrite foldl_app. cbn [foldl]. exists owners', ts'. split; [|exact Hm'].
    unfold served, pool_reach in *. by etransitivity.
Qed.

(** C27 Seen from the gateway, every run of the whole service is a run of the pool:
    with the same shared state, with a task at the same point for every admitted
    request, and with one for every object body under way, which is to send
    what the client was sent and then the rest. *)
Theorem front_refines evs :
  ∃ ts, served w mapper config (f_gw (frun evs)) ts ∧
    (∀ i s p, f_slots (frun evs) !! i = Some s → sl_work s = Some p →
       ∃ j st p', ts !! j = Some (mkTask (sl_req s) st p') ∧ same (λ _, True) p p') ∧
    (∀ i s resp b p, f_slots (frun evs) !! i = Some s → sl_conn s = Sending resp →
       pb_inner (resp_body resp) = Polling b p →
       ∃ j st p', ts !! j = Some (mkTask (ReqBody b) st p') ∧
         same (λ _, True) (resumed b p (sl_chunks s)) p').
Proof using Type.
  destruct (front_mirror evs) as (owners & ts & Hr & [_ _ _ _ Hv]). exists ts. split; [done|]. split.
  - intros i s p Hi Hp. destruct (Hv (i, false) (sl_req s) p) as (j & st & p' & _ & ? & ?).
    + unfold view. cbn [fst snd]. rewrite Hi. cbn [slot_view]. by rewrite Hp.
    + by exists j, st, p'.
  - intros i s resp b p Hi Hc Hb.
    destruct (Hv (i, true) (ReqBody b) (resumed b p (sl_chunks s))) as (j & st & p' & _ & ? & ?).
    + unfold view. cbn [fst snd]. rewrite Hi. cbn [slot_view]. by rewrite Hc, Hb.
    + by exists j, st, p'.
Qed.

(** A request that logged its start and not its end is still at work. *)
Lemma front_started evs id op :
  header_law w → (gw_seq (f_gw (frun evs)) <= U64_MOD)%N → Started id op ∈ gw_events (f_gw (frun evs)) →
  (∃ path n ok, filter (λ e, event_id e = id) (gw_events (f_gw (frun evs))) = lines id op path n ok) ∨
  filter (λ e, event_id e = id) (gw_events (f_gw (frun evs))) = [Started id op] ∧
    ∃ i s, f_slots (frun evs) !! i = Some s ∧ sl_conn s = Handling ∧ op_name (sl_req s) = op.
Proof using Type.
  intros Hl Hseq He. destruct (front_mirror evs) as (owners & ts & Hr & [Hlen Hnd Hta Hbo Hv]).
  destruct (served_started w mapper config _ _ _ _ Hl Hr Hseq He) as [?|(Hf & j & t & Hj & Hop & Hq & Hun)]; [by left|].
  right. split; [done|]. destruct (lookup_lt_is_Some_2 owners j) as [[i [|]] Ho].
  { rewrite Hlen. by eapply lookup_lt_Some. }
  { destruct (Hbo _ _ _ Ho Hj) as [b Hb]. by destruct (Hq b). }
  destruct (Hta (i, false)) as (s & Hi & [p Hp]); [by eapply list_elem_of_lookup_2|]. cbn [fst snd] in *.
  destruct (Hv (i, false) (sl_req s) p) as (j' & st & p' & Hj' & Ht & Hs).
  { unfold view. cbn [fst snd]. rewrite Hi. cbn [slot_view]. by rewrite Hp. }
  assert (j' = j) as -> by (by eapply NoDup_lookup). rewrite Hj in Ht. injection Ht as ->.
  exists i, s. split_and!; [done| |done]. pose proof (front_slots_ok evs _ _ Hi) as Hok. unfold slot_ok in Hok.
  assert (∀ o, p ≠ Done o) as Hdone.
  { intros o ->. apply same_inv in Hs as ->. destruct Hun. by exists o. }
  destruct (sl_conn s) as [| |resp| |]; [| done| |..]; try (by destruct (Hok _ Hp) as [o ?]; destruct (Hdone o)).
  destruct Hok as [(o & Hw & _) _ _]. destruct (Hdone o). congruence.
Qed.

(** ** The cap, over handlers and bodies *)

Definition conns (c : Front) : list (Exchange (Body:=Body) (Head:=Head) (HttpError:=HttpError)) :=
  sl_conn <$> f_slots c.

(** The connections of a service change as those of [Backpressure] do, with the
    poll that took place. *)
Lemma front_step_bp (c : Front) ev :
  ∃ (poll : Body → Poll (option Chunk) * Body) evs,
    (f_sem (fstep c ev), conns (fstep c ev)) =
    foldl (bp_step poll (Buffered None) status_head to_http_response) (f_sem c, conns c) evs.
Proof using Type.
  destruct c as [sem slots gw]. unfold conns. cbn [f_slots f_sem].
  assert (∃ (poll : Body → Poll (option Chunk) * Body) evs, (sem, sl_conn <$> slots) =
    foldl (bp_step poll (Buffered None) status_head to_http_response) (sem, sl_conn <$> slots) evs) as Hstay.
  { exists (λ b, (Pending, b)), []. done. }
  destruct ev as [q|i|i|i|i|n]; cbn [front_step]; try exact Hstay.
  - destruct (is_operation q); [|exact Hstay]. exists (λ b, (Pending, b)), [Arrive].
    cbn [foldl bp_step]. destruct (bp_call _ _ _ sem) as [x sem']. cbn [f_slots f_sem]. by rewrite fmap_app.
  - destruct (slots !! i) as [[q [[o|B d f k]|] x chunks]|] eqn:E; try exact Hstay.
    destruct x; try exact Hstay. destruct (f gw) as [y gw1]. cbn [f_slots f_sem].
    rewrite list_fmap_insert. cbn [sl_conn]. rewrite list_insert_id; [exact Hstay|].
    by rewrite list_lookup_fmap, E.
  - destruct (slots !! i) as [[q [[o|B d f k]|] x chunks]|] eqn:E; try exact Hstay.
    destruct x; try exact Hstay. exists (λ b, (Pending, b)), [Answer i (render serialize o)].
    cbn [foldl bp_step]. rewrite list_lookup_fmap, E. cbn [fmap option_fmap option_map sl_conn].
    destruct (bp_answer (render serialize o) sem) as [x sem']. cbn [f_slots f_sem].
    by rewrite list_fmap_insert.
  - destruct (slots !! i) as [[q work x chunks]|] eqn:E; [|exact Hstay]. destruct x as [| |resp| |]; try exact Hstay.
    destruct (body_turn w (pb_inner (resp_body resp)) gw) as [[r inner] gw1].
    exists (λ _, (r, inner)), [PollBody i]. cbn [foldl bp_step]. rewrite list_lookup_fmap, E.
    cbn [fmap option_fmap option_map sl_conn].
    destruct (poll_frame _ (resp_body resp) sem) as [r' [b sem']]. cbn [f_slots f_sem snd].
    by rewrite list_fmap_insert.
  - destruct (slots !! i) as [[q work x chunks]|] eqn:E; [|exact Hstay].
    destruct (drop_slot x work gw) as [[work' gw1]|]; [|exact Hstay].
    exists (λ b, (Pending, b)), [DropExchange i]. cbn [foldl bp_step f_slots f_sem].
    rewrite list_lookup_fmap, E. cbn [fmap option_fmap option_map sl_conn]. by rewrite list_fmap_insert.
Qed.

(** An event that touches the shared state: time, or an exchange with a permit. *)
Definition allowed (c : Front) (ev : front_event (R:=R)) : Prop :=
  (∃ n, ev = FTime n) ∨
  ∃ i s, (ev = FTurn i ∨ ev = FPoll i ∨ ev = FDrop i) ∧ f_slots c !! i = Some s ∧ occupies (sl_conn s).

Lemma touch_allowed (c : Front) ev :
  (∀ i s, f_slots c !! i = Some s → slot_ok s) → f_gw (fstep c ev) = f_gw c ∨ allowed c ev.
Proof using Type.
  destruct c as [sem slots gw]. unfold allowed. cbn [f_slots f_gw]. intros Hok.
  destruct ev as [q|i|i|i|i|n]; cbn [front_step].
  - left. destruct (is_operation q); [|done]. by destruct (bp_call _ _ _ sem).
  - destruct (slots !! i) as [s|] eqn:E; [|by left].
    destruct s as [q [[o|B d f k]|] x chunks]; try by left. destruct x; try by left.
    right. right. eexists i, _. split_and!; [by left|exact E|done].
  - left. destruct (slots !! i) as [[q [[o|B d f k]|] x chunks]|]; try done. destruct x; try done.
    by destruct (bp_answer _ sem).
  - destruct (slots !! i) as [[q work x chunks]|] eqn:E; [|by left]. destruct x as [| |resp| |]; try by left.
    destruct (body_turn w (pb_inner (resp_body resp)) gw) as [[r inner] gw1] eqn:Eb.
    destruct (poll_frame _ (resp_body resp) sem) as [r' [b sem']]. cbn [f_gw].
    destruct (pb_permit (resp_body resp)) eqn:Ep.
    + right. right. eexists i, _. split_and!; [by right; left|exact E|]. cbn [sl_conn occupies]. by rewrite Ep.
    + left. destruct (Hok _ _ E) as [_ _ He]. apply body_turn_ok in Eb as (_ & _ & _ & B4).
      by destruct (B4 (He Ep)) as (_ & -> & _).
  - destruct (slots !! i) as [[q work x chunks]|] eqn:E; [|by left].
    destruct (drop_slot x work gw) as [[work' gw1]|] eqn:Ed; [|by left].
    apply drop_slot_spec in Ed as [(-> & -> & _)|(B & d & f & k & -> & -> & -> & ->)]; [by left|].
    right. right. eexists i, _. split_and!; [by right; right|exact E|done].
  - right. left. by exists n.
Qed.

Context `{!SemaphoreLaws Sem}.

(** Every permit is in the semaphore or with an exchange. *)
Definition accounted (c : Front) : Prop :=
  (permits (f_sem c) + in_flight (conns c) = N.max (max_concurrent_requests config) 1)%N.

Lemma accounted_new :
  (N.max (max_concurrent_requests config) 1 ≤ max_permits (Sem:=Sem))%N → accounted (front_new config).
Proof using SemaphoreLaws0.
  intros Hcap. change (permits (bp_service config) + 0 = N.max (max_concurrent_requests config) 1)%N.
  unfold bp_service, bp_new. rewrite permits_new by done. lia.
Qed.

Lemma accounted_step (c : Front) ev :
  (N.max (max_concurrent_requests config) 1 ≤ max_permits (Sem:=Sem))%N → accounted c → accounted (fstep c ev).
Proof using All.
  intros Hcap Hc. destruct (front_step_bp c ev) as (poll & bevs & E).
  change (permits (fst (f_sem (fstep c ev), conns (fstep c ev))) +
    in_flight (snd (f_sem (fstep c ev), conns (fstep c ev))) = N.max (max_concurrent_requests config) 1)%N.
  rewrite E. clear E. induction bevs as [|b bevs IHb] using rev_ind; [exact Hc|].
  rewrite foldl_app. cbn [foldl]. by apply bp_step_accounted.
Qed.

Lemma front_accounted evs :
  (N.max (max_concurrent_requests config) 1 ≤ max_permits (Sem:=Sem))%N → accounted (frun evs).
Proof using All.
  intros Hcap. induction evs as [|ev evs IH] using rev_ind; [by apply accounted_new|].
  unfold front_run in *. rewrite foldl_app. cbn [foldl]. by apply accounted_step.
Qed.

(** When nothing is at work every permit is back. *)
Lemma accounted_over (c : Front) :
  accounted c → (∀ i s, f_slots c !! i = Some s → ¬ occupies (sl_conn s)) →
  permits (f_sem c) = N.max (max_concurrent_requests config) 1.
Proof using Type.
  unfold accounted. intros Ha Hover. rewrite in_flight_zero in Ha; [lia|]. apply Forall_fmap, Forall_lookup. exact Hover.
Qed.

(** C38 However many clients there are, no more requests than configured are at work
    behind the cap, handlers and bodies together: nothing else but time changes
    the shared state. An operation that arrives when that many are is refused
    and changes nothing; otherwise its handler is called. *)
Theorem work_bounded evs q :
  (1 ≤ max_concurrent_requests config ≤ max_permits (Sem:=Sem))%N → is_operation q = true →
  let c := frun evs in
  (in_flight (conns c) ≤ max_concurrent_requests config)%N ∧
  (∀ ev, f_gw (fstep c ev) = f_gw c ∨ allowed c ev) ∧
  f_gw (fstep c (FArrive q)) = f_gw c ∧
  ∃ s, f_slots (fstep c (FArrive q)) = f_slots c ++ [s] ∧
    if N.eqb (in_flight (conns c)) (max_concurrent_requests config)
    then f_sem (fstep c (FArrive q)) = f_sem c ∧ sl_work s = None ∧
         sl_conn s = Refused (slow_down_response (Buffered None) status_head to_http_response)
    else sl_work s = Some (handler w mapper config q) ∧ sl_conn s = Handling.
Proof using All.
  intros [H1 H2] Hq c. pose proof (front_accounted evs) as Ha. unfold accounted in Ha. rewrite N.max_l in Ha by done.
  specialize (Ha H2). fold c in Ha. split_and!; [lia|intros ev; apply touch_allowed, front_slots_ok|..];
    destruct c as [sem slots gw]; cbn [front_step f_gw f_slots f_sem] in *; rewrite Hq; unfold bp_call;
    destruct (try_acquire sem) as [sem'|] eqn:E; cbn [f_gw f_slots f_sem]; try done;
    eexists; (split; [done|]); cbn [sl_work sl_conn].
  - apply try_acquire_some in E. case N.eqb_spec; intros ?; [lia|done].
  - apply try_acquire_none in E. case N.eqb_spec; intros ?; [done|lia].
Qed.

(** ** What a client receives *)

Context `{!LruLaws str L}.

(** Every answer the service sends is one the request's specification allows. *)
Lemma front_answered evs i s o :
  sizes_ok (cache config) → lengths_ok w → o ≠ OutDropped →
  f_slots (frun evs) !! i = Some s → sl_work s = Some (Done o) →
  ∃ st, post w mapper config (sl_req s) st (f_gw (frun evs)) o.
Proof using LruLaws0.
  intros Hsz Hlen Hd Hi Ho. destruct (front_mirror evs) as (owners & ts & Hr & [_ _ _ _ Hv]).
  destruct (Hv (i, false) (sl_req s) (Done o)) as (j & st & p' & _ & Ht & Hs).
  { unfold view. cbn [fst snd]. rewrite Hi. cbn [slot_view]. by rewrite Ho. }
  apply same_inv in Hs as ->. exists st. by eapply served_post.
Qed.

(** A [GetObject] that was answered with success and its body, read to its end,
    as tasks of the pool. *)
Lemma front_download evs i input resp sent chunks :
  f_slots (frun evs) !! i =
    Some (mkSlot (ReqGetObject input) (Some (Done (OutGet (Ok resp)))) (Sending sent) chunks) →
  pb_permit (resp_body sent) = None →
  ∃ ts j st j' st', served w mapper config (f_gw (frun evs)) ts ∧
    ts !! j = Some (mkTask (ReqGetObject input) st (Done (OutGet (Ok resp)))) ∧
    ts !! j' = Some (mkTask (ReqBody (go_body (output resp))) st' (Done (OutBody chunks))).
Proof using Type.
  intros Hi Hp. destruct (front_mirror evs) as (owners & ts & Hr & [_ _ _ _ Hv]).
  destruct (front_slots_ok evs _ _ Hi) as [(o & [= <-] & Ho) _ He]. specialize (He Hp).
  destruct (Hv (i, false) (ReqGetObject input) (Done (OutGet (Ok resp)))) as (j & st & p1 & _ & Ht & Hs).
  { unfold view. cbn [fst snd]. by rewrite Hi. }
  apply same_inv in Hs as ->.
  destruct (pb_inner (resp_body sent)) as [[bytes|]|b|b [[u|]|B d f k]] eqn:Eb; cbn [body_of ended streams] in *; try done.
  destruct (Hv (i, true) (ReqBody b) (resumed b (Done None) chunks)) as (j2 & st2 & p2 & _ & Ht2 & Hs2).
  { unfold view. cbn [fst snd]. rewrite Hi. cbn [slot_view sl_conn]. by rewrite Eb. }
  apply same_inv in Hs2 as ->. rewrite app_nil_r in Ht2. injection Ho as <-. by exists ts, j, st, j2, st2.
Qed.

(** C4 A download, end to end: when the client of a [GetObject] was answered with
    success and read its body to the end without a failing chunk, it was sent
    exactly the bytes of the file that it asked for, whatever else the service
    did meanwhile. *)
Theorem client_bytes (file : R → str) evs i input resp sent chunks :
  reads w file → sizes_ok (cache config) → lengths_ok w →
  f_slots (frun evs) !! i =
    Some (mkSlot (ReqGetObject input) (Some (Done (OutGet (Ok resp)))) (Sending sent) chunks) →
  pb_permit (resp_body sent) = None → forallb is_ok chunks = true →
  exact_bytes file input (output resp) (delivered chunks).
Proof using LruLaws0.
  intros Hread Hsz Hlen Hi Hp Hok.
  destruct (front_download _ _ _ _ _ _ Hi Hp) as (ts & j & st & j' & st' & Hr & Hj & Hj').
  by eapply (get_object_bytes w mapper config file).
Qed.
End refines.

(** ** Witnesses *)

(** One slot, and two clients: the second is refused while the first downloads. *)
Definition demo_one_slot : Config := {|
  namenode_uri := namenode_uri demo_config; hdfs_root := hdfs_root demo_config;
  bucket_name := bucket_name demo_config; listen_addr := listen_addr demo_config;
  max_concurrent_requests := 1; expose_upstream_errors := false; hdfs_options := ∅;
  hdfs_config_dir := None; hdfs_user := None; cache := cache demo_config; auth_secret := None |}.

Definition demo_serialize (o : Outcome str unit) : result (N * option str) unit :=
  Ok (if outcome_ok o then (200%N, None) else (500%N, Some $"error")).

Definition demo_front (evs : list (front_event (R:=str))) :=
  front_run (L:=list_lru str) (Sem:=N) demo_world demo_paths demo_one_slot demo_serialize id (λ _, Err tt) evs.

Definition demo_download : list (front_event (R:=str)) :=
  FArrive (ReqGetObject demo_get) :: FArrive ReqListBuckets ::
  replicate 20 (FTurn 0) ++ FAnswer 0 :: replicate 4 (FPoll 0) ++
  FArrive ReqListBuckets :: replicate 10 (FTurn 2) ++ [FAnswer 2; FPoll 2].

(** The heads sent (503 is the refusal), the chunks, and the free slots. *)
Definition demo_seen (n : nat) : list (N * list (result str (GetBodyError (IoError:=unit)))) * N :=
  let c := demo_front (take n demo_download) in
  (map (λ s, (match sl_conn s with
              | Refused r => resp_head r
              | Sending r => resp_head r
              | _ => 0%N
              end, sl_chunks s)) (f_slots c), f_sem c).

Example demo_one_slot_seen :
  let sent := [Ok $"hell"] in
  map demo_seen [2; 23; 25; 26; 39; 40] =
  [([(0, []); (503, [])], 0); ([(200, []); (503, [])], 0); ([(200, sent); (503, [])], 0);
   ([(200, sent); (503, [])], 1); ([(200, sent); (503, []); (200, [])], 0);
   ([(200, sent); (503, []); (200, [])], 1)]%N.
Proof. vm_compute. reflexivity. Qed.

Example work_bounded_witness :
  let c := demo_front (take 1 demo_download) in
  in_flight (conns c) = 1%N ∧
  f_slots (front_step (L:=list_lru str) demo_world demo_paths demo_one_slot demo_serialize id (λ _, Err tt) c
             (FArrive ReqListBuckets)) =
  f_slots c ++ [mkSlot ReqListBuckets None (Refused (slow_down_response (Buffered None) id (λ _, Err tt))) []].
Proof.
  intros c. assert (in_flight (conns c) = 1%N) as E by (vm_compute; reflexivity). split; [exact E|].
  destruct (work_bounded (L:=list_lru str) (Sem:=N) demo_world demo_paths demo_one_slot demo_serialize id
    (λ _, Err tt) (take 1 demo_download) ReqListBuckets) as (_ & _ & _ & s & Hs & H);
    [by vm_compute|reflexivity|].
  change (front_run _ _ _ _ _ _ _) with c in *. rewrite E in H. destruct H as (_ & H1 & H2).
  rewrite Hs. do 2 f_equal.
  assert (sl_req s = ReqListBuckets ∧ sl_chunks s = []) as [H3 H4].
  { apply (f_equal last) in Hs. rewrite last_snoc in Hs. vm_compute in Hs. injection Hs as <-. done. }
  destruct s. cbn in *. congruence.
Defined.

Example client_bytes_witness :
  let c := demo_front (take 26 demo_download) in
  ∃ s e, delivered [Ok (E:=GetBodyError (IoError:=unit)) $"hell"] =
    take (N.to_nat (e - s)) (drop (N.to_nat s) $"hello") ∧
  (sl_chunks <$> f_slots c !! 0) = Some [Ok $"hell"].
Proof.
  intros c.
  destruct (client_bytes (L:=list_lru str) (Sem:=N) demo_world demo_paths demo_one_slot demo_serialize id
    (λ _, Err tt) (λ r, r) (take 26 demo_download) 0 demo_get demo_response
    (mkHttpResponse 200%N (mkPermitBody (Polling (go_body (output demo_response)) (Done None)) None))
    [Ok $"hell"]) as (m & s & e & cr & _ & _ & Hd & _).
  - apply reads_well_reads, demo_reads.
  - by split.
  - apply demo_lengths.
  - vm_compute. reflexivity.
  - reflexivity.
  - reflexivity.
  - exists s, e. split; [exact Hd|vm_compute; reflexivity].
Defined.
