(* ===== verification/Process.v ===== *)
(** The serving process: the accept loop of [Server], the connections it
    accepted, and the exchanges of [Front] on them.

    A connection carries any number of exchanges. [hyper] ends the task of a
    connection when each of them is over: its response was sent to the end, or
    what is left of it was dropped, as it is when the client is gone. So the
    drain of the connections, which is what [serve] waits for, is one of the
    requests. *)

From S2P Require Import Prelude Prog Bytes Config Path Range Metadata HdfsError Listing.
From S2P Require Import Cache Caches SortedListing Merge Paging Gateway ListObjects Backpressure Server.
From S2P Require Import Invariant Objects Listings Requests RequestLog Demo Served Front.

#[local] Arguments mkHttpResponse {Head B}.
#[local] Arguments resp_head {Head B}.
#[local] Arguments resp_body {Head B}.

Section process.
Context {L : Type → Type} `{!Lru str L} {R IoError : Type} `{!Base64}.
Context {Sem Head HttpError : Type} `{!Semaphore Sem}.
Context (w : World (R:=R) (IoError:=IoError)) (mapper : PathMapper) (config : Config).

Abbreviation Out := (Outcome R IoError).
Abbreviation Body := (FrontBody (L:=L) (R:=R) (IoError:=IoError)).

Context (serialize : Out → result (Head * option str) HttpError) (status_head : N → Head).
Context (to_http_response : S3Error → result (HttpResponse (Head:=Head) Body) HttpError).
Context {Shutdown : Type} (poll_shutdown : Shutdown → option Shutdown).

Abbreviation Front := (Front (L:=L) (R:=R) (IoError:=IoError) (Sem:=Sem) (Head:=Head) (HttpError:=HttpError)).
Abbreviation fstep := (front_step (Sem:=Sem) w mapper config serialize status_head to_http_response).
Abbreviation frun := (front_run (L:=L) (Sem:=Sem) w mapper config serialize status_head to_http_response).

(** The accept loop, the shutdown future, what is served, and the connection of
    each exchange. *)
Record Process := mkProcess {
  pr_serve : ServeState;
  pr_shutdown : Shutdown;
  pr_front : Front;
  pr_conn : list nat;
}.

(** Every exchange of a connection is over. *)
Definition conn_over (c : nat) (front : Front) (conn : list nat) : Prop :=
  ∀ i s, conn !! i = Some c → f_slots front !! i = Some s → ¬ occupies (sl_conn s).

Inductive process_step : Process → Process → Prop :=
(* a step of [serve], or the end of the task of a connection *)
| process_serve sv sv' sd sd' front conn :
    serve_step poll_shutdown (sv, sd) (sv', sd') →
    (∀ c, sv_conns sv !! c = Some true → sv_conns sv' !! c = Some false → conn_over c front conn) →
    process_step (mkProcess sv sd front conn) (mkProcess sv' sd' front conn)
(* a request on a connection that is served *)
| process_request sv sd front conn c q :
    sv_conns sv !! c = Some true → is_operation q = true →
    process_step (mkProcess sv sd front conn) (mkProcess sv sd (fstep front (FArrive q)) (conn ++ [c]))
(* what happens to the requests that are there *)
| process_front sv sd front conn ev :
    (∀ q, ev ≠ FArrive q) →
    process_step (mkProcess sv sd front conn) (mkProcess sv sd (fstep front ev) conn).

Definition process_start (now : N) (sd : Shutdown) : Process :=
  mkProcess (serve_start now) sd (front_new config) [].

Definition process_reach (now : N) (sd : Shutdown) : Process → Prop :=
  rtc process_step (process_start now sd).

(** ** The steps, executed *)

Inductive process_event : Type :=
| PAccept
| PAcceptError
| PSignal
| PDrained
| PTimeout
| PClose (c : nat)
| PTime (now : N)
| PRequest (c : nat) (q : Request R)
| PFront (ev : front_event (R:=R)).

Definition conn_is_over (c : nat) (front : Front) (conn : list nat) : bool :=
  forallb (λ x, negb (Nat.eqb x.1 c) || N.eqb (holds (sl_conn x.2)) 0) (zip conn (f_slots front)).

Definition is_arrival (ev : front_event (R:=R)) : bool := match ev with FArrive _ => true | _ => false end.

(** The event, where it is possible. *)
Definition process_exec (p : Process) (ev : process_event) : option Process :=
  let '(mkProcess (mkServeState phase now conns) sd front conn) := p in
  let with_serve phase now conns sd := Some (mkProcess (mkServeState phase now conns) sd front conn) in
  match ev, phase with
  | PAccept, Accepting => with_serve Accepting now (conns ++ [true]) sd
  | PAcceptError, Accepting => Some p
  | PSignal, Accepting =>
      match poll_shutdown sd with
      | Some sd => with_serve (Draining now (List.length conns)) now conns sd
      | None => None
      end
  | PDrained, Draining since n => if all_closed conns then with_serve (Returned since n) now conns sd else None
  | PTimeout, Draining since n =>
      if N.leb (since + drain_limit) now then with_serve (Returned since n) now conns sd else None
  | PClose c, _ =>
      match conns !! c with
      | Some true => if conn_is_over c front conn then with_serve phase now (<[c := false]> conns) sd else None
      | _ => None
      end
  | PTime now', _ => if N.leb now now' then with_serve phase now' conns sd else None
  | PRequest c q, _ =>
      match conns !! c with
      | Some true =>
          if is_operation q
          then Some (mkProcess (mkServeState phase now conns) sd (fstep front (FArrive q)) (conn ++ [c])) else None
      | _ => None
      end
  | PFront ev, _ =>
      if is_arrival ev then None else Some (mkProcess (mkServeState phase now conns) sd (fstep front ev) conn)
  | _, _ => None
  end.

Fixpoint process_run (p : Process) (evs : list process_event) : option Process :=
  match evs with
  | [] => Some p
  | ev :: evs => match process_exec p ev with Some p => process_run p evs | None => None end
  end.

Lemma conn_is_over_spec c front conn : conn_is_over c front conn = true ↔ conn_over c front conn.
Proof using Type.
  unfold conn_is_over, conn_over. rewrite forallb_forall. split.
  - intros H i s Hc Hs Ho%holds_occupies. specialize (H (c, s)). cbn [fst snd] in H.
    rewrite Nat.eqb_refl, Ho in H. assert (false = true) as [=]. apply H, list_elem_of_In, list_elem_of_lookup.
    exists i. apply lookup_zip_with_Some. by eexists c, s.
  - intros H [c' s] [i Hi]%list_elem_of_In%list_elem_of_lookup.
    apply lookup_zip_with_Some in Hi as (? & ? & [= <- <-] & Hc & Hs). cbn [fst snd].
    destruct (Nat.eqb_spec c' c) as [->|]; [|done]. cbn [negb orb].
    destruct (N.eqb_spec (holds (sl_conn s)) 0) as [|Hh]; [done|]. destruct (H _ _ Hc Hs).
    apply holds_occupies. pose proof (holds_le (sl_conn s)). lia.
Qed.

(** They are the steps. *)
Lemma process_exec_complete p p' : process_step p p' → ∃ ev, process_exec p ev = Some p'.
Proof using Type.
  intros [sv sv' sd sd' front conn Hst Hover|sv sd front conn c q Hc Hq|sv sd front conn ev Hev].
  - inversion Hst as [| |? ? ? ? E|? ? ? ? ? E|? ? ? ? ? E|? ? ? ? c E|? ? ? ? ? E]; subst.
    + by exists PAccept.
    + by exists PAcceptError.
    + exists PSignal. cbn [process_exec]. by rewrite E.
    + exists PDrained. cbn [process_exec]. by rewrite E.
    + exists PTimeout. cbn [process_exec]. by rewrite (proj2 (N.leb_le _ _) E).
    + exists (PClose c). cbn [process_exec]. rewrite E. rewrite (proj2 (conn_is_over_spec _ _ _)); [by destruct phase|].
      apply Hover; [done|]. apply list_lookup_insert_eq. by eapply lookup_lt_Some.
    + exists (PTime now'). cbn [process_exec]. rewrite (proj2 (N.leb_le _ _) E). by destruct phase.
  - exists (PRequest c q). destruct sv as [phase now conns]. cbn [process_exec sv_conns] in *. rewrite Hc, Hq.
    by destruct phase.
  - exists (PFront ev). destruct sv as [phase now conns]. cbn [process_exec].
    destruct (is_arrival ev) eqn:E; [|by destruct phase]. destruct ev; try done. by destruct (Hev q).
Qed.

Lemma process_exec_sound p ev p' : process_exec p ev = Some p' → process_step p p'.
Proof using Type.
  destruct p as [[phase now conns] sd front conn]. unfold process_exec. destruct ev as [| | | | |c|now'|c q|ev].
  - destruct phase; [|done..]. intros [= <-]. apply process_serve; [constructor|]. cbn [sv_conns]. intros c Hc.
    by rewrite (lookup_app_l_Some _ _ _ _ Hc).
  - destruct phase; [|done..]. intros [= <-]. apply process_serve; [constructor|]. cbn [sv_conns]. congruence.
  - destruct phase; [|done..]. destruct (poll_shutdown sd) as [sd'|] eqn:E; [|done]. intros [= <-].
    apply process_serve; [by constructor|]. cbn [sv_conns]. congruence.
  - destruct phase; [done| |done]. destruct (all_closed conns) eqn:E; [|done]. intros [= <-].
    apply process_serve; [by constructor|]. cbn [sv_conns]. congruence.
  - destruct phase as [|since n|]; [done| |done]. destruct (N.leb_spec (since + drain_limit) now); [|done].
    intros [= <-]. apply process_serve; [by constructor|]. cbn [sv_conns]. congruence.
  - destruct (conns !! c) as [[|]|] eqn:E; [|by destruct phase..].
    destruct (conn_is_over c front conn) eqn:Eo; [|by destruct phase].
    intros Hp. assert (p' = mkProcess (mkServeState phase now (<[c := false]> conns)) sd front conn) as ->
      by (destruct phase; by injection Hp).
    apply process_serve; [by constructor|]. cbn [sv_conns]. intros c' H1 H2.
    destruct (decide (c' = c)) as [->|]; [by apply conn_is_over_spec|].
    rewrite list_lookup_insert_ne in H2 by done. congruence.
  - destruct (N.leb_spec now now'); [|by destruct phase]. intros Hp.
    assert (p' = mkProcess (mkServeState phase now' conns) sd front conn) as -> by (destruct phase; by injection Hp).
    apply process_serve; [by constructor|]. cbn [sv_conns]. congruence.
  - destruct (conns !! c) as [[|]|] eqn:E; [|by destruct phase..].
    destruct (is_operation q) eqn:Eq; [|by destruct phase]. intros Hp.
    assert (p' = mkProcess (mkServeState phase now conns) sd (fstep front (FArrive q)) (conn ++ [c])) as ->
      by (destruct phase; by injection Hp). by apply process_request.
  - destruct (is_arrival ev) eqn:E; [by destruct phase|]. intros Hp.
    assert (p' = mkProcess (mkServeState phase now conns) sd (fstep front ev) conn) as ->
      by (destruct phase; by injection Hp). apply process_front. by intros q ->.
Qed.

Lemma process_exec_step p p' : process_step p p' ↔ ∃ ev, process_exec p ev = Some p'.
Proof using Type. split; [apply process_exec_complete|]. intros [ev Hev]. by eapply process_exec_sound. Qed.

Lemma process_run_steps evs p p' : process_run p evs = Some p' → rtc process_step p p'.
Proof using Type.
  revert p. induction evs as [|ev evs IH]; intros p; cbn [process_run]; [intros [= ->]; apply rtc_refl|].
  destruct (process_exec p ev) as [p1|] eqn:E; [|done]. intros H. eapply rtc_l; [|by apply IH].
  apply process_exec_step. by exists ev.
Qed.

(** ** The exchanges of a connection that has ended are over *)

(** No event but an arrival makes an exchange, and none reopens one. *)
Lemma front_step_occupies (front : Front) ev :
  (∀ q, ev ≠ FArrive q) →
  List.length (f_slots (fstep front ev)) = List.length (f_slots front) ∧
  ∀ i s', f_slots (fstep front ev) !! i = Some s' →
    ∃ s, f_slots front !! i = Some s ∧ (occupies (sl_conn s') → occupies (sl_conn s)).
Proof using Type.
  destruct front as [sem slots gw]. cbn [f_slots]. intros Hev.
  assert (∀ i s s1, slots !! i = Some s → (occupies (sl_conn s1) → occupies (sl_conn s)) →
    List.length (<[i := s1]> slots) = List.length slots ∧
    ∀ j s', <[i := s1]> slots !! j = Some s' →
      ∃ s, slots !! j = Some s ∧ (occupies (sl_conn s') → occupies (sl_conn s))) as Hins.
  { intros i s s1 Hi Hs. split; [apply length_insert|].
    intros j s' [(<- & <- & _)|[_ Hj]]%list_lookup_insert_Some; eauto. }
  assert (List.length slots = List.length slots ∧ ∀ i s', slots !! i = Some s' →
    ∃ s, slots !! i = Some s ∧ (occupies (sl_conn s') → occupies (sl_conn s))) as Hstay by eauto.
  destruct ev as [q|i|i|i|i|n]; cbn [front_step]; [by destruct (Hev q)|..].
  - destruct (slots !! i) as [[q [[o|B d f k]|] x chunks]|] eqn:E; try exact Hstay.
    destruct x; try exact Hstay. destruct (f gw) as [y gw1]. cbn [f_slots]. by eapply Hins.
  - destruct (slots !! i) as [[q [[o|B d f k]|] x chunks]|] eqn:E; try exact Hstay.
    destruct x; try exact Hstay. destruct (bp_answer _ sem) as [x sem']. cbn [f_slots]. by eapply Hins.
  - destruct (slots !! i) as [[q work x chunks]|] eqn:E; [|exact Hstay]. destruct x as [| |resp| |]; try exact Hstay.
    destruct (body_turn w (pb_inner (resp_body resp)) gw) as [[r inner] gw1].
    rewrite poll_frame_spec. destruct (is_end r); cbn [f_slots release]; (eapply Hins; [exact E|]); done.
  - destruct (slots !! i) as [[q work x chunks]|] eqn:E; [|exact Hstay].
    destruct (drop_slot x work gw) as [[work' gw1]|]; [|exact Hstay]. cbn [f_slots]. by eapply Hins.
  - exact Hstay.
Qed.

Lemma front_step_arrive (front : Front) q :
  is_operation q = true → ∃ s, f_slots (fstep front (FArrive q)) = f_slots front ++ [s].
Proof using Type.
  destruct front as [sem slots gw]. intros Hq. cbn [front_step f_slots]. rewrite Hq.
  destruct (bp_call _ _ _ sem) as [x sem']. by eexists.
Qed.

(** What holds of every process: it serves a run of [Front], each exchange has
    its connection, and one that is not over has one that is served. *)
Record process_ok (p : Process) : Prop := {
  po_run : ∃ evs, pr_front p = frun evs;
  po_conn : List.length (pr_conn p) = List.length (f_slots (pr_front p));
  po_open : ∀ i s c, f_slots (pr_front p) !! i = Some s → pr_conn p !! i = Some c →
    occupies (sl_conn s) → sv_conns (pr_serve p) !! c = Some true;
  po_serve : serve_ok (pr_serve p);
}.

Lemma front_run_snoc evs ev : frun (evs ++ [ev]) = fstep (frun evs) ev.
Proof using Type. unfold front_run. by rewrite foldl_app. Qed.

(** A step of [serve] keeps a connection, or ends it. *)
Lemma serve_step_conn sv sv' sd sd' c :
  serve_step poll_shutdown (sv, sd) (sv', sd') → sv_conns sv !! c = Some true →
  sv_conns sv' !! c = Some true ∨ sv_conns sv' !! c = Some false.
Proof using Type.
  intros Hst Hc. inversion Hst as [| | | | |? ? ? ? i Hi|]; subst; cbn [sv_conns] in *; try by left.
  - left. by apply lookup_app_l_Some.
  - destruct (decide (i = c)) as [->|Hne]; [right|left].
    + apply list_lookup_insert_eq. by eapply lookup_lt_Some.
    + by rewrite list_lookup_insert_ne.
Qed.

Lemma process_step_ok p p' : process_step p p' → process_ok p → process_ok p'.
Proof using Type.
  intros Hst [[evs Hrun] Hlen Hopen Hsv].
  destruct Hst as [sv sv' sd sd' front conn Hst Hover|sv sd front conn c q Hc Hq|sv sd front conn ev Hev];
    cbn [pr_serve pr_front pr_conn] in *.
  - split; cbn [pr_serve pr_front pr_conn]; [by exists evs|done| |by apply (serve_step_ok _ _ _ Hst)].
    intros i s c Hi Hc Hs. pose proof (Hopen _ _ _ Hi Hc Hs) as Ho.
    destruct (serve_step_conn _ _ _ _ _ Hst Ho) as [?|Hcl]; [done|].
    by destruct (Hover c Ho Hcl _ _ Hc Hi).
  - destruct (front_step_arrive front q Hq) as [s Hs]. split; cbn [pr_serve pr_front pr_conn]; [| | |done].
    + exists (evs ++ [FArrive q]). by rewrite front_run_snoc, Hrun.
    + rewrite Hs, !length_app. by rewrite Hlen.
    + intros i s' c'. rewrite Hs.
      intros [Hi|[Hi [_ <-]%list_lookup_singleton_Some]]%lookup_app_Some
        [Hc'|[Hc' [_ <-]%list_lookup_singleton_Some]]%lookup_app_Some ?; [by eapply Hopen|..|done].
      * apply lookup_lt_Some in Hi. lia.
      * apply lookup_lt_Some in Hc'. lia.
  - destruct (front_step_occupies front ev Hev) as [Hl Hs]. split; cbn [pr_serve pr_front pr_conn]; [| | |done].
    + exists (evs ++ [ev]). by rewrite front_run_snoc, Hrun.
    + by rewrite Hl.
    + intros i s' c Hi Hc Hh. destruct (Hs _ _ Hi) as (s & Hi0 & Hh0). eapply Hopen; eauto.
Qed.

Lemma process_reach_ok now sd p : process_reach now sd p → process_ok p.
Proof using Type.
  apply (rtc_ind_r process_ok).
  - split; [by exists []|done|by intros i s c|done].
  - intros p1 p2 _. apply process_step_ok.
Qed.
(** ** The drain *)

(** The shared state, but for the time. *)
Definition timeless (gw : GwState (L:=L) (R:=R)) : Caches L R * N * list LogEvent :=
  (gw_caches gw, gw_seq gw, gw_events gw).

Definition all_over (front : Front) : Prop := ∀ i s, f_slots front !! i = Some s → ¬ occupies (sl_conn s).

Lemma all_closed_over p : process_ok p → all_closed (sv_conns (pr_serve p)) = true → all_over (pr_front p).
Proof using Type.
  intros [_ Hlen Hopen _] Hcl i s Hi Ho. destruct (lookup_lt_is_Some_2 (pr_conn p) i) as [c Hc].
  { rewrite Hlen. by eapply lookup_lt_Some. }
  pose proof (Hopen _ _ _ Hi Hc Ho) as Hs. unfold all_closed in Hcl. rewrite forallb_forall in Hcl.
  by specialize (Hcl true (proj1 (list_elem_of_In _ _) (list_elem_of_lookup_2 _ _ _ Hs))).
Qed.

(** Once every connection has ended and none is accepted, nothing happens to the
    shared state any more. *)
Lemma closed_step p p' :
  process_step p p' → process_ok p →
  sv_phase (pr_serve p) ≠ Accepting → all_closed (sv_conns (pr_serve p)) = true →
  sv_phase (pr_serve p') ≠ Accepting ∧ all_closed (sv_conns (pr_serve p')) = true ∧
  timeless (f_gw (pr_front p')) = timeless (f_gw (pr_front p)).
Proof using Type.
  intros Hst Hok Hph Hcl. pose proof (all_closed_over _ Hok Hcl) as Hover.
  destruct Hst as [sv sv' sd sd' front conn Hst _|sv sd front conn c q Hc Hq|sv sd front conn ev Hev];
    cbn [pr_serve pr_front] in *.
  - inversion Hst; subst; cbn [sv_phase sv_conns] in *; try done.
    split_and!; [done|by apply all_closed_insert|done].
  - unfold all_closed in Hcl. rewrite forallb_forall in Hcl.
    by specialize (Hcl true (proj1 (list_elem_of_In _ _) (list_elem_of_lookup_2 _ _ _ Hc))).
  - split_and!; [done..|]. destruct Hok as [[evs Hrun] _ _ _]. cbn [pr_front] in Hrun.
    destruct (touch_allowed w mapper config serialize status_head to_http_response front ev)
      as [->|[[m ->]|(i & s & _ & Hi & Ho)]]; [|done|by destruct front|by destruct (Hover _ _ Hi)].
    rewrite Hrun. apply front_slots_ok.
Qed.

Lemma closed_steps p p' :
  rtc process_step p p' → process_ok p →
  sv_phase (pr_serve p) ≠ Accepting → all_closed (sv_conns (pr_serve p)) = true →
  timeless (f_gw (pr_front p')) = timeless (f_gw (pr_front p)).
Proof using Type.
  induction 1 as [p|p1 p2 p3 Hst _ IH]; [done|]. intros Hok Hph Hcl.
  destruct (closed_step _ _ Hst Hok Hph Hcl) as (Hph2 & Hcl2 & <-).
  apply IH; [by eapply process_step_ok|done..].
Qed.

(** When all exchanges are over, the connections can end. *)
Lemma close_all phase now conns sd front conn :
  (∀ c, conn_over c front conn) →
  ∀ k, k ≤ List.length conns →
  rtc process_step (mkProcess (mkServeState phase now conns) sd front conn)
    (mkProcess (mkServeState phase now (replicate k false ++ drop k conns)) sd front conn).
Proof using Type.
  intros Hover k. induction k as [|k IH]; intros Hk; [apply rtc_refl|].
  etransitivity; [apply IH; lia|]. destruct (lookup_lt_is_Some_2 conns k) as [b Hb]; [lia|].
  rewrite (drop_S _ _ _ Hb), replicate_S_end, <- app_assoc. cbn [app].
  destruct b; [|apply rtc_refl]. apply rtc_once, process_serve; [|by intros ? _ _].
  set (conns1 := replicate k false ++ true :: drop (S k) conns).
  assert (<[k := false]> conns1 = replicate k false ++ false :: drop (S k) conns) as <-.
  { unfold conns1. rewrite insert_app_r_alt by (by rewrite length_replicate). by rewrite length_replicate, Nat.sub_diag. }
  apply serve_close, list_lookup_middle. by rewrite length_replicate.
Qed.

Lemma all_closed_replicate k : all_closed (replicate k false) = true.
Proof using Type. by induction k. Qed.

Context `{!SemaphoreLaws Sem}.

(** C7 The drain, down to the requests: while one of them is at work [serve]
    returns only for the lack of time, and it can return when none is. If it
    returned in time, every request was answered to the end or dropped with its
    connection, every permit is back, every line that says a request started is
    followed by the one that says it is over, and nothing will touch the caches
    or the log any more. *)
Theorem drain_complete now sd p :
  (N.max (max_concurrent_requests config) 1 ≤ max_permits (Sem:=Sem))%N → header_law w →
  process_reach now sd p → (gw_seq (f_gw (pr_front p)) <= U64_MOD)%N →
  let front := pr_front p in
  match sv_phase (pr_serve p) with
  | Accepting => True
  | Draining since n => all_over front →
      ∃ p', rtc process_step p p' ∧ sv_phase (pr_serve p') = Returned since n ∧
        sv_now (pr_serve p') = sv_now (pr_serve p) ∧ pr_front p' = front
  | Returned since n => (sv_now (pr_serve p) < since + drain_limit)%N →
      all_over front ∧
      permits (f_sem front) = N.max (max_concurrent_requests config) 1 ∧
      (∀ id op, Started id op ∈ gw_events (f_gw front) →
         ∃ path n ok, filter (λ e, event_id e = id) (gw_events (f_gw front)) = lines id op path n ok) ∧
      ∀ p', rtc process_step p p' → timeless (f_gw (pr_front p')) = timeless (f_gw front)
  end.
Proof.
  intros Hcap Hl Hr Hseq front. pose proof (process_reach_ok _ _ _ Hr) as Hok.
  destruct (sv_phase (pr_serve p)) as [|t k|t k] eqn:Eph; [done|..].
  - intros Hover. destruct p as [[phase now' conns] sd' fr conn]. cbn [pr_serve pr_front sv_phase] in *. subst phase.
    exists (mkProcess (mkServeState (Returned t k) now' (replicate (List.length conns) false)) sd' fr conn).
    split_and!; [|done..]. eapply rtc_r.
    + apply (close_all _ _ _ _ _ _ (λ c i s _, Hover i s) (List.length conns)). done.
    + rewrite drop_all, app_nil_r. apply process_serve; [apply serve_drained, all_closed_replicate|].
      intros c Hc%lookup_replicate_1. by destruct Hc.
  - intros Ht. pose proof (po_serve _ Hok) as Hsv. unfold serve_ok in Hsv. rewrite Eph in Hsv.
    destruct Hsv as (_ & _ & [Hcl|Hlate]); [|lia]. pose proof (all_closed_over _ Hok Hcl) as Hover.
    destruct (po_run _ Hok) as [evs Hrun]. split_and!; [done|..].
    + unfold front. rewrite Hrun in Hover |- *. apply accounted_over; [|exact Hover]. by apply front_accounted.
    + intros id op. unfold front in *. rewrite Hrun in *. intros He.
      destruct (front_started w mapper config serialize status_head to_http_response evs id op Hl Hseq He)
        as [?|(_ & i & s & Hi & Hc & _)]; [done|]. destruct (Hover _ _ Hi). by rewrite Hc.
    + intros p' Hst. apply (closed_steps _ _ Hst Hok); [by rewrite Eph|done].
Qed.
End process.

(** ** Witness *)

(** The part of [demo_download] that is one client's, who comes first. *)
Definition demo_exchange : list (front_event (R:=str)) :=
  replicate 20 (FTurn 0) ++ FAnswer 0 :: replicate 4 (FPoll 0).

Abbreviation demo_stop := (λ sd : bool, if sd then Some false else None).
Abbreviation demo_step :=
  (process_step demo_world demo_paths demo_one_slot demo_serialize id (λ _, Err tt) demo_stop).

(** A client connects and asks for a download; the signal comes, and then the
    download takes place. *)
Definition demo_process_events : list (process_event (R:=str)) :=
  [PAccept; PRequest 0 (ReqGetObject demo_get); PSignal] ++ map PFront demo_exchange ++ [PClose 0; PDrained].

Definition demo_drained : Process (L:=list_lru str) (R:=str) (IoError:=unit) (Sem:=N) (Head:=N) (HttpError:=unit) :=
  or_else (process_run demo_world demo_paths demo_one_slot demo_serialize id (λ _, Err tt) demo_stop
             (process_start demo_one_slot 5 true) demo_process_events)
    (process_start demo_one_slot 5 true).

Lemma demo_drained_reach :
  process_reach demo_world demo_paths demo_one_slot demo_serialize id (λ _, Err tt) demo_stop 5 true demo_drained.
Proof.
  unfold demo_drained. destruct (process_run _ _ _ _ _ _ _ _ _) as [p|] eqn:E; [|apply rtc_refl].
  by eapply process_run_steps.
Qed.

Example drain_complete_witness :
  let front := pr_front demo_drained in
  all_over front ∧ permits (f_sem front) = 1%N ∧
  (∀ id op, Started id op ∈ gw_events (f_gw front) →
     ∃ path n ok, filter (λ e, event_id e = id) (gw_events (f_gw front)) = lines id op path n ok) ∧
  ∀ p', rtc demo_step demo_drained p' → timeless (f_gw (pr_front p')) = timeless (f_gw front).
Proof.
  assert (gw_seq (f_gw (pr_front demo_drained)) <= U64_MOD)%N as Hseq by by vm_compute.
  assert (N.max (max_concurrent_requests demo_one_slot) 1 <= max_permits (Sem:=N))%N as Hcap by by vm_compute.
  pose proof (drain_complete demo_world demo_paths demo_one_slot demo_serialize id (λ _, Err tt)
    demo_stop 5 true demo_drained Hcap demo_header demo_drained_reach Hseq) as H.
  assert (sv_phase (pr_serve demo_drained) = Returned 5 1) as E by (vm_compute; reflexivity).
  cbv zeta in H. rewrite E in H. apply H. vm_compute. reflexivity.
Defined.
