(* ===== verification/Progress.v ===== *)
(** Every client is served: in a run of the whole service that keeps giving an
    exchange its turns, and does not drop it, the exchange ends.

    A schedule is an infinite sequence of the events of [Front], with pauses.
    Nothing is assumed of the events of other exchanges. *)

From S2P Require Import Prelude Prog Bytes Config Path Range Metadata HdfsError Listing.
From S2P Require Import Cache Caches SortedListing Merge Paging Gateway ListObjects Backpressure.
From S2P Require Import Invariant Objects Listings Requests RequestLog Demo Served Front Process.

#[local] Arguments mkHttpResponse {Head B}.
#[local] Arguments resp_head {Head B}.
#[local] Arguments resp_body {Head B}.

Section progress.
Context {L : Type → Type} `{!Lru str L} {R IoError : Type} `{!Base64}.
Context {Sem Head HttpError : Type} `{!Semaphore Sem}.
Context (w : World (R:=R) (IoError:=IoError)) (mapper : PathMapper) (config : Config).

Abbreviation State := (GwState (L:=L) (R:=R)).
Abbreviation Chunk := (result str (GetBodyError (IoError:=IoError))).
Abbreviation Out := (Outcome R IoError).
Abbreviation Body := (FrontBody (L:=L) (R:=R) (IoError:=IoError)).
Abbreviation FSlot := (Slot (L:=L) (R:=R) (IoError:=IoError) (Head:=Head) (HttpError:=HttpError)).

Context (serialize : Out → result (Head * option str) HttpError) (status_head : N → Head).
Context (to_http_response : S3Error → result (HttpResponse (Head:=Head) Body) HttpError).

Abbreviation Front := (Front (L:=L) (R:=R) (IoError:=IoError) (Sem:=Sem) (Head:=Head) (HttpError:=HttpError)).
Abbreviation fstep := (front_step (Sem:=Sem) w mapper config serialize status_head to_http_response).
Abbreviation frun := (front_run (L:=L) (Sem:=Sem) w mapper config serialize status_head to_http_response).
Abbreviation event := (front_event (R:=R)).

(** What a program may return. *)
Abbreviation yields := (keeps (S:=State) (λ _ _, True) (λ _ _, True)).

(** ** One exchange under one event *)

(** The event that takes the exchange [i] further. *)
Definition next_event (i : nat) (s : FSlot) : option event :=
  match sl_conn s, sl_work s with
  | Handling, Some (Act _ _ _ _) => Some (FTurn i)
  | Handling, Some (Done _) => Some (FAnswer i)
  | Sending _, _ => Some (FPoll i)
  | _, _ => None
  end.

Lemma insert_other (slots : list FSlot) i j s s' :
  i ≠ j → slots !! i = Some s → <[j := s']> slots !! i = Some s.
Proof using Type. intros Hne Hi. by rewrite list_lookup_insert_ne. Qed.

(** Another event leaves it as it is. *)
Lemma slot_waits (c : Front) ev i s :
  f_slots c !! i = Some s → Some ev ≠ next_event i s → ev ≠ FDrop i → f_slots (fstep c ev) !! i = Some s.
Proof using Type.
  destruct c as [sem slots gw]. cbn [f_slots]. intros Hi Hn Hd. unfold next_event in Hn.
  destruct ev as [q|j|j|j|j|n]; cbn [front_step]; [| | | | |exact Hi].
  - destruct (is_operation q); [|exact Hi]. destruct (bp_call _ _ _ sem) as [x sem']. by apply lookup_app_l_Some.
  - destruct (slots !! j) as [[q [[o|B d f k]|] x chunks]|] eqn:E; try exact Hi. destruct x; try exact Hi.
    destruct (f gw) as [y gw1]. apply insert_other; [|exact Hi]. intros <-. rewrite E in Hi. by injection Hi as <-.
  - destruct (slots !! j) as [[q [[o|B d f k]|] x chunks]|] eqn:E; try exact Hi. destruct x; try exact Hi.
    destruct (bp_answer _ sem) as [x sem']. apply insert_other; [|exact Hi]. intros <-. rewrite E in Hi.
    by injection Hi as <-.
  - destruct (slots !! j) as [[q work x chunks]|] eqn:E; [|exact Hi]. destruct x as [| |resp| |]; try exact Hi.
    destruct (body_turn w (pb_inner (resp_body resp)) gw) as [[r inner] gw1].
    destruct (poll_frame _ (resp_body resp) sem) as [r' [b sem']]. apply insert_other; [|exact Hi].
    intros <-. rewrite E in Hi. by injection Hi as <-.
  - destruct (slots !! j) as [[q work x chunks]|] eqn:E; [|exact Hi].
    destruct (drop_slot x work gw) as [[work' gw1]|]; [|exact Hi]. apply insert_other; [congruence|exact Hi].
Qed.

(** Its own event is an access of its handler, *)
Lemma slot_turn (c : Front) i q B d (f : State → B * State) k chunks :
  f_slots c !! i = Some (mkSlot q (Some (Act B d f k)) Handling chunks) →
  f_slots (fstep c (FTurn i)) !! i = Some (mkSlot q (Some (k (f (f_gw c)).1)) Handling chunks).
Proof using Type.
  destruct c as [sem slots gw]. cbn [f_slots f_gw front_step]. intros Hi. rewrite Hi.
  destruct (f gw) as [x gw1]. apply list_lookup_insert_eq. by eapply lookup_lt_Some.
Qed.

(** the answer, *)
Lemma slot_answer (c : Front) i q o chunks :
  f_slots c !! i = Some (mkSlot q (Some (Done o)) Handling chunks) →
  ∃ sem, f_slots (fstep c (FAnswer i)) !! i =
    Some (mkSlot q (Some (Done o)) (bp_answer (render serialize o) sem).1 chunks).
Proof using Type.
  destruct c as [sem slots gw]. cbn [f_slots front_step]. intros Hi. rewrite Hi. exists sem.
  destruct (bp_answer _ sem) as [x sem']. apply list_lookup_insert_eq. by eapply lookup_lt_Some.
Qed.

(** or a turn of its body: the permit is there until the end. *)
Lemma slot_poll (c : Front) i q work resp chunks r inner gw :
  f_slots c !! i = Some (mkSlot q work (Sending resp) chunks) →
  body_turn w (pb_inner (resp_body resp)) (f_gw c) = (r, inner, gw) →
  ∃ resp' chunks', f_slots (fstep c (FPoll i)) !! i = Some (mkSlot q work (Sending resp') chunks') ∧
    pb_inner (resp_body resp') = inner ∧ (r = Ready None → pb_permit (resp_body resp') = None).
Proof using Type.
  destruct c as [sem slots gw0]. cbn [f_slots f_gw front_step]. intros Hi Hb. rewrite Hi, Hb, poll_frame_spec.
  assert (i < List.length slots) as Hlt by (by eapply lookup_lt_Some).
  destruct (is_end r) eqn:Er; cbn [release f_slots]; rewrite list_lookup_insert_eq by done;
    eexists _, _; (split; [reflexivity|]); cbn [resp_body pb_inner pb_permit]; (split; [done|]); [done|].
  by intros ->.
Qed.
(** ** Every exchange can be dropped *)

(** Events of the exchanges that are there. *)
Definition no_arrivals (evs : list event) : Prop := ∀ ev q, ev ∈ evs → ev ≠ FArrive q.

Lemma no_arrivals_app evs evs' : no_arrivals evs → no_arrivals evs' → no_arrivals (evs ++ evs').
Proof using Type. intros H1 H2 ev q [?|?]%elem_of_app; eauto. Qed.

Lemma no_arrivals_one ev : is_arrival ev = false → no_arrivals [ev].
Proof using Type. intros He ev' q ->%list_elem_of_singleton ->. done. Qed.

Definition over_after (i : nat) (c : Front) (evs : list event) : Prop :=
  ∀ s, f_slots (foldl fstep c evs) !! i = Some s → ¬ occupies (sl_conn s).

Lemma dropped_now (c : Front) i s r :
  f_slots c !! i = Some s → drop_slot (sl_conn s) (sl_work s) (f_gw c) = Some r → over_after i c [FDrop i].
Proof using Type.
  destruct c as [sem slots gw], s as [q work x chunks]. cbn [f_slots f_gw sl_conn sl_work]. intros Hi Hd s'.
  cbn [foldl front_step]. rewrite Hi, Hd. destruct r as [work' gw1]. cbn [f_slots].
  rewrite list_lookup_insert_eq by (by eapply lookup_lt_Some). intros [= <-]. by intros [].
Qed.

(** A handler is dropped where it awaits next, *)
Lemma drop_handler p : ∀ (c : Front) i q chunks,
  f_slots c !! i = Some (mkSlot q (Some p) Handling chunks) → ∃ evs, no_arrivals evs ∧ over_after i c evs.
Proof using Type.
  induction p as [o|B [d|] f k IH]; intros c i q chunks Hi.
  1,2: exists [FDrop i]; split; [by apply no_arrivals_one|]; by eapply dropped_now.
  pose proof (slot_turn _ _ _ _ _ _ _ _ Hi) as Ht. destruct (IH _ _ _ _ _ Ht) as (evs & Hn & Ho).
  exists (FTurn i :: evs). split; [|exact Ho]. apply (no_arrivals_app [_]); [by apply no_arrivals_one|done].
Qed.

(** and a body, where its poll does. *)
Lemma drop_polling p : ∀ (c : Front) i q work resp chunks b,
  f_slots c !! i = Some (mkSlot q work (Sending resp) chunks) → pb_inner (resp_body resp) = Polling b p →
  ∃ evs, no_arrivals evs ∧ over_after i c evs.
Proof using Type.
  induction p as [o|B [d|] f k IH]; intros c i q work resp chunks b Hi Hb.
  1,2: exists [FDrop i]; split; [by apply no_arrivals_one|]; eapply dropped_now;
    [exact Hi|cbn [sl_conn sl_work drop_slot]; by rewrite Hb].
  destruct (body_turn w (pb_inner (resp_body resp)) (f_gw c)) as [[r inner] gw] eqn:Eb.
  destruct (slot_poll _ _ _ _ _ _ _ _ _ Hi Eb) as (resp' & chunks' & Hi' & Hin & _).
  rewrite Hb in Eb. cbn [body_turn] in Eb. destruct (f (f_gw c)) as [x gw1]. injection Eb as <- <- <-.
  destruct (IH x _ _ _ _ _ _ _ Hi' Hin) as (evs & Hn & Ho). exists (FPoll i :: evs). split; [|exact Ho].
  apply (no_arrivals_app [_]); [by apply no_arrivals_one|done].
Qed.

Lemma drop_one (c : Front) i : ∃ evs, no_arrivals evs ∧ over_after i c evs.
Proof using Type.
  destruct (f_slots c !! i) as [[q work x chunks]|] eqn:E.
  2:{ exists []. split; [by intros ev q ?%elem_of_nil|]. intros s. cbn [foldl]. congruence. }
  assert ((∃ r, drop_slot x work (f_gw c) = Some r) → ∃ evs, no_arrivals evs ∧ over_after i c evs) as Hnow.
  { intros [r Hr]. exists [FDrop i]. split; [by apply no_arrivals_one|]. by eapply dropped_now. }
  destruct x as [| |resp| |]; [apply Hnow; by eexists| | |apply Hnow; by eexists..].
  - destruct work as [p|]; [by eapply drop_handler|]. apply Hnow. by eexists.
  - destruct (pb_inner (resp_body resp)) as [bytes|b|b p] eqn:Eb; [..|by eapply drop_polling];
      apply Hnow; cbn [drop_slot]; rewrite Eb; by eexists.
Qed.

Lemma over_after_more (c : Front) evs i :
  no_arrivals evs → (∀ s, f_slots c !! i = Some s → ¬ occupies (sl_conn s)) → over_after i c evs.
Proof using Type.
  revert c. induction evs as [|ev evs IH]; intros c Hn Hi; [exact Hi|]. apply IH.
  - intros ev' q Hev. apply Hn. by right.
  - intros s Hs Ho. destruct (front_step_occupies w mapper config serialize status_head to_http_response c ev)
      as [_ Hst]; [intros q; apply Hn; by left|]. destruct (Hst _ _ Hs) as (s0 & Hs0 & Himp). by apply (Hi s0 Hs0), Himp.
Qed.

Lemma drop_all (c : Front) : ∃ evs, no_arrivals evs ∧ all_over (foldl fstep c evs).
Proof using Type.
  assert (∀ k, ∃ evs, no_arrivals evs ∧ ∀ i, i < k → over_after i c evs) as Hk.
  { induction k as [|k (evs & Hn & Ho)]; [exists []; split; [by intros ev q ?%elem_of_nil|lia]|].
    destruct (drop_one (foldl fstep c evs) k) as (evs' & Hn' & Ho'). exists (evs ++ evs').
    split; [by apply no_arrivals_app|]. intros i Hi. unfold over_after in *. rewrite foldl_app.
    destruct (decide (i = k)) as [->|]; [exact Ho'|]. apply over_after_more; [done|]. apply Ho. lia. }
  destruct (Hk (List.length (f_slots c))) as (evs & Hn & Ho). exists evs. split; [done|].
  intros i s Hi. apply (Ho i); [|exact Hi]. assert (List.length (f_slots (foldl fstep c evs)) = List.length (f_slots c)) as <-.
  { clear Ho Hk Hi. revert c Hn. induction evs as [|ev evs IH]; intros c Hn; [done|]. cbn [foldl].
    rewrite IH by (intros ev' q Hev; apply Hn; by right).
    apply front_step_occupies. intros q. apply Hn. by left. }
  by eapply lookup_lt_Some.
Qed.

(** ** Along a schedule *)

Definition pause_step (c : Front) (ev : option event) : Front :=
  match ev with Some ev => fstep c ev | None => c end.

Fixpoint front_at (sched : nat → option event) (n : nat) : Front :=
  match n with
  | 0 => front_new config
  | S n => pause_step (front_at sched n) (sched n)
  end.

Lemma front_at_S sched n ev : sched n = Some ev → front_at sched (S n) = fstep (front_at sched n) ev.
Proof using Type. intros E. cbn [front_at]. by rewrite E. Qed.

Lemma front_at_run sched n : ∃ evs, front_at sched n = frun evs.
Proof using Type.
  induction n as [|n [evs IH]]; [by exists []|]. cbn [front_at].
  destruct (sched n) as [ev|]; [exists (evs ++ [ev])|by exists evs].
  unfold pause_step, front_run in *. by rewrite foldl_app, IH.
Qed.

(** An exchange that keeps getting its turns: the handler is polled, its answer
    sent, and the body read, until the end; and it is not dropped. *)
Record attends (i : nat) (sched : nat → option event) : Prop := {
  at_event : ∀ n ev, ev = FTurn i ∨ ev = FAnswer i ∨ ev = FPoll i → ∃ m, n <= m ∧ sched m = Some ev;
  at_stays : ∀ m, sched m ≠ Some (FDrop i);
}.

Context (i : nat) (sched : nat → option event).
Context (Hatt : attends i sched).

(** The exchange [i] after [n] events. *)
Abbreviation slot_at n := (f_slots (front_at sched n) !! i).

Lemma event_decided (ev x : event) : ev = FTurn i ∨ ev = FAnswer i ∨ ev = FPoll i → x = ev ∨ x ≠ ev.
Proof using Type.
  intros [->|[->| ->]]; destruct x as [q|j|j|j|j|k]; try (by right);
    (destruct (decide (j = i)) as [->|]; [by left|right; congruence]).
Qed.

(** It waits for its event, which comes. *)
Lemma slot_event n s ev :
  slot_at n = Some s → next_event i s = Some ev → ∃ m, n <= m ∧ sched m = Some ev ∧ slot_at m = Some s.
Proof using Hatt.
  intros Hn Hev. assert (ev = FTurn i ∨ ev = FAnswer i ∨ ev = FPoll i) as Hk.
  { unfold next_event in Hev. destruct (sl_conn s), (sl_work s) as [[?|? ? ? ?]|]; try done;
      injection Hev as <-; auto. }
  destruct (at_event _ _ Hatt n ev Hk) as (m & Hm & Hs).
  replace m with (n + (m - n)) in * by lia. remember (m - n) as d eqn:E. clear E Hm.
  revert n Hn Hs. induction d as [|d IH]; intros n Hn Hs.
  - exists n. rewrite Nat.add_0_r in Hs. by split_and!.
  - assert (sched n = Some ev ∨ slot_at (S n) = Some s) as [E|E]; [|by exists n|].
    { pose proof (at_stays _ _ Hatt n) as Hd. cbn [front_at]. destruct (sched n) as [e|]; [|by right].
      destruct (event_decided ev e Hk) as [->|E]; [by left|right].
      apply slot_waits; [done|rewrite Hev; congruence|congruence]. }
    destruct (IH (S n) E) as (m' & Hm' & ?); [by rewrite Nat.add_succ_comm|exists m'; split; [lia|done]].
Qed.

(** The handler comes to its end, *)
Lemma work_ends q chunks (P : Out → Prop) p n :
  yields p P → slot_at n = Some (mkSlot q (Some p) Handling chunks) →
  ∃ m o, n <= m ∧ P o ∧ slot_at m = Some (mkSlot q (Some (Done o)) Handling chunks).
Proof using Hatt.
  revert n. induction p as [o|B d f k IH]; intros n Hp Hn; [by exists n, o|].
  destruct (slot_event n _ _ Hn eq_refl) as (m & Hm & Hev & Hs).
  apply slot_turn in Hs. rewrite <- (front_at_S _ _ _ Hev) in Hs.
  destruct (Hp (f_gw (front_at sched m))) as (_ & Hk & _).
  destruct (IH _ (S m) Hk Hs) as (m' & o & Hm' & ?). exists m', o. split; [lia|done].
Qed.

(** as the body does: each poll but the last has one item less before it. *)
Definition to_come (u : Unfolding (IoError:=IoError)) : nat :=
  List.length u.1.1 + if N.eqb u.2 0 then 0 else 1.

Abbreviation fewer := (λ k o, match o with Some (_, u) => to_come u < k | None => True end).

Lemma unfold_step_fewer path u : yields (unfold_step w path u) (fewer (to_come u)).
Proof using Type.
  destruct u as [[items limit] remaining]. cbn [unfold_step]. unfold to_come. cbn [fst snd].
  destruct (N.eqb_spec remaining 0) as [->|Hz]; [done|]. destruct items as [|r items].
  - destruct (N.ltb 0 remaining); cbn; [lia|done].
  - eapply (keeps_bind _ _ _ _ _ (λ _, True)).
    + destruct r as [b|e]; cbn [evict_on_error]; [done|].
      eapply (keeps_bind _ _ _ _ _ (λ _, True)); [by apply keeps_act|]. intros _ _.
      eapply (keeps_bind _ _ _ _ _ (λ _, True)); [by apply keeps_act|]. by intros _ _.
    + intros [b|e] _; cbn; [|rewrite (proj2 (N.eqb_neq remaining 0) Hz); lia]. destruct (N.eqb _ 0); lia.
Qed.

Lemma polling_ends q work b k : ∀ p n resp chunks,
  yields p (fewer k) → slot_at n = Some (mkSlot q work (Sending resp) chunks) →
  pb_inner (resp_body resp) = Polling b p →
  ∃ m resp' chunks', n <= m ∧ slot_at m = Some (mkSlot q work (Sending resp') chunks') ∧
    pb_permit (resp_body resp') = None.
Proof using Hatt.
  induction k as [k IHk] using lt_wf_ind. intros p. induction p as [o|B d f c IHp]; intros n resp chunks Hp Hn Hb;
    destruct (slot_event n _ _ Hn eq_refl) as (m & Hm & Hev & Hs);
    destruct (body_turn w (pb_inner (resp_body resp)) (f_gw (front_at sched m))) as [[r inner] gw] eqn:Eb;
    destruct (slot_poll _ _ _ _ _ _ _ _ _ Hs Eb) as (resp' & chunks' & Hs' & Hi' & Hend);
    rewrite <- (front_at_S _ _ _ Hev) in Hs';
    rewrite Hb in Eb; cbn [body_turn] in Eb.
  - destruct o as [[c u]|]; injection Eb as <- <- <-.
    + destruct (IHk (to_come u) Hp _ _ _ _ (unfold_step_fewer (gb_path b) u) Hs' Hi') as (m' & r1 & c1 & Hm' & ?).
      exists m', r1, c1. split; [lia|done].
    + exists (S m), resp', chunks'. split_and!; [lia|done|by apply Hend].
  - destruct (f _) as [x gw1] eqn:Ef. injection Eb as <- <- <-.
    destruct (Hp (f_gw (front_at sched m))) as (_ & Hk & _). rewrite Ef in Hk.
    destruct (IHp x (S m) _ _ Hk Hs' Hi') as (m' & r1 & c1 & Hm' & ?). exists m', r1, c1. split; [lia|done].
Qed.

(** ** What an exchange that was not dropped is *)

(** Refused and without a handler; at work, and to be answered; or answered,
    with a body that ends. *)
Definition polls_end (b : Body) : Prop :=
  match b with Polling _ p => ∃ k, yields p (fewer k) | _ => True end.

Definition alive (s : FSlot) : Prop :=
  match sl_conn s with
  | Refused _ => sl_work s = None
  | Handling => ∃ p, sl_work s = Some p ∧ yields p (λ o, o ≠ OutDropped)
  | Sending resp => (∃ o, sl_work s = Some (Done o) ∧ o ≠ OutDropped) ∧ polls_end (pb_inner (resp_body resp))
  | Failed e => ∃ o, sl_work s = Some (Done o) ∧ o ≠ OutDropped ∧ render (L:=L) serialize o = Err e
  | Gone => False
  end.

Lemma handler_yields q : yields (handler w mapper config q) (λ o, o ≠ OutDropped).
Proof using Type.
  assert (∀ A (f : A → Out) (p : Prog State A), (∀ a, f a ≠ OutDropped) → yields (pmap f p) (λ o, o ≠ OutDropped))
    as Hmap.
  { intros A f p Hf. unfold pmap. eapply (keeps_bind _ _ _ _ _ (λ _, True)); [|intros a _; apply Hf].
    induction p as [a|B d g k IH]; [done|]. intros s. split_and!; [done|apply IH|by destruct d]. }
  destruct q; apply Hmap; by intros.
Qed.

Lemma unfold_step_polls g path u : polls_end (Polling g (unfold_step w path u)).
Proof using Type. exists (to_come u). apply unfold_step_fewer. Qed.

Lemma body_turn_polls b gw r b' gw' : body_turn w b gw = (r, b', gw') → polls_end b → polls_end b'.
Proof using Type.
  destruct b as [[bytes|]|g|g [[[c u]|]|B d f k]]; cbn [body_turn]; try by intros [= <- <- <-].
  - intros H%(f_equal (λ x, x.1.2)) _. cbn [fst snd] in H. subst b'. apply unfold_step_polls.
  - intros H%(f_equal (λ x, x.1.2)) _. cbn [fst snd] in H. subst b'. apply unfold_step_polls.
  - destruct (f gw) as [x gw1] eqn:Ef. intros [= <- <- <-] [n Hn]. exists n.
    destruct (Hn gw) as (_ & Hk & _). by rewrite Ef in Hk.
Qed.

Lemma alive_step (c : Front) ev :
  ev ≠ FDrop i → (∀ s, f_slots c !! i = Some s → alive s) →
  ∀ s, f_slots (fstep c ev) !! i = Some s → alive s.
Proof using Type.
  destruct c as [sem slots gw]. cbn [f_slots]. intros Hd Ha.
  assert (∀ j s s1, slots !! j = Some s → (alive s → alive s1) →
    ∀ s', <[j := s1]> slots !! i = Some s' → alive s') as Hins.
  { intros j s s1 Hj Hs s' [(-> & <- & _)|[_ Hi]]%list_lookup_insert_Some; auto. }
  destruct ev as [q|j|j|j|j|n]; cbn [front_step].
  - destruct (is_operation q); [|exact Ha]. unfold bp_call.
    destruct (try_acquire sem); cbn [f_slots];
      intros s' [?|[_ [_ <-]%list_lookup_singleton_Some]]%lookup_app_Some; auto; [|done].
    eexists. split; [done|apply handler_yields].
  - destruct (slots !! j) as [[q [[o|B d f k]|] x chunks]|] eqn:E; try exact Ha.
    destruct x; try exact Ha. destruct (f gw) as [y gw1] eqn:Ef. cbn [f_slots]. eapply Hins; [exact E|].
    intros (p & [= <-] & Hy). eexists. split; [done|]. destruct (Hy gw) as (_ & Hk & _). by rewrite Ef in Hk.
  - destruct (slots !! j) as [[q [[o|B d f k]|] x chunks]|] eqn:E; try exact Ha.
    destruct x; try exact Ha. destruct (render (L:=L) serialize o) as [resp|e] eqn:Er; cbn [bp_answer f_slots];
      (eapply Hins; [exact E|]); intros (p & [= <-] & Hy); unfold alive; cbn [sl_conn sl_work].
    + split; [by exists o|]. cbn [resp_body new_permit_body pb_inner]. revert Er. unfold render.
      destruct (serialize o) as [[hd bytes]|]; [|done]. intros [= <-]. cbn [resp_body]. by destruct (streams o).
    + by exists o.
  - destruct (slots !! j) as [[q work x chunks]|] eqn:E; [|exact Ha]. destruct x as [| |resp| |]; try exact Ha.
    destruct (body_turn w (pb_inner (resp_body resp)) gw) as [[r inner] gw1] eqn:Eb.
    rewrite poll_frame_spec. destruct (is_end r); cbn [f_slots release]; (eapply Hins; [exact E|]);
      (intros [Hw Hp]; split; [exact Hw|]; by eapply body_turn_polls).
  - destruct (slots !! j) as [[q work x chunks]|] eqn:E; [|exact Ha].
    destruct (drop_slot x work gw) as [[work' gw1]|]; [|exact Ha]. cbn [f_slots].
    intros s'. rewrite list_lookup_insert_ne by congruence. apply Ha.
  - exact Ha.
Qed.

Lemma alive_at n s : slot_at n = Some s → alive s.
Proof using Hatt.
  revert s. induction n as [|n IH]; [done|]. cbn [front_at]. pose proof (at_stays _ _ Hatt n) as Hd.
  destruct (sched n) as [ev|]; [|exact IH]. apply alive_step; [congruence|exact IH].
Qed.

Lemma body_ends q work n resp chunks :
  slot_at n = Some (mkSlot q work (Sending resp) chunks) →
  ∃ m resp' chunks', n <= m ∧ slot_at m = Some (mkSlot q work (Sending resp') chunks') ∧
    pb_permit (resp_body resp') = None.
Proof using Hatt.
  intros Hn. assert (∀ n resp chunks b, slot_at n = Some (mkSlot q work (Sending resp) chunks) →
    pb_inner (resp_body resp) = b → (match b with Buffered None => True | Polling _ _ => True | _ => False end) →
    ∃ m resp' chunks', n <= m ∧ slot_at m = Some (mkSlot q work (Sending resp') chunks') ∧
      pb_permit (resp_body resp') = None) as Hend.
  { clear n resp chunks Hn. intros n resp chunks b Hn Hb Hk. destruct b as [[bytes|]|b|b p]; [done| |done|].
    - destruct (slot_event n _ _ Hn eq_refl) as (m & Hm & Hev & Hs).
      destruct (slot_poll _ _ _ _ _ _ (Ready None) (Buffered None) (f_gw (front_at sched m)) Hs)
        as (r1 & c1 & Hs1 & _ & Hp); [by rewrite Hb|].
      exists (S m), r1, c1. rewrite (front_at_S _ _ _ Hev). split_and!; [lia|done|by apply Hp].
    - destruct (alive_at _ _ Hn) as [_ Hp]. rewrite Hb in Hp. destruct Hp as [k Hk']. by eapply polling_ends. }
  destruct (pb_inner (resp_body resp)) as [[bytes|]|b|b p] eqn:Hb; [|by eapply Hend..| |by eapply Hend];
    (destruct (slot_event n _ _ Hn eq_refl) as (m & Hm & Hev & Hs));
    (destruct (body_turn w (pb_inner (resp_body resp)) (f_gw (front_at sched m))) as [[r inner] gw] eqn:Eb);
    (destruct (slot_poll _ _ _ _ _ _ _ _ _ Hs Eb) as (r1 & c1 & Hs1 & Hi1 & _));
    rewrite <- (front_at_S _ _ _ Hev) in Hs1;
    rewrite Hb in Eb; cbn [body_turn] in Eb; injection Eb as <- <- <-;
    (destruct (Hend _ _ _ _ Hs1 Hi1) as (m' & r2 & c2 & Hm' & ?); [done|]);
    exists m', r2, c2; (split; [lia|done]).
Qed.

(** What a body read to its end has sent: all of it, when the reader reads well. *)
Lemma download_ends `{!LruLaws str L} n file input out sent chunks :
  sizes_ok (cache config) → lengths_ok w → reads_well w file →
  slot_at n = Some (mkSlot (ReqGetObject input) (Some (Done (OutGet (Ok out)))) (Sending sent) chunks) →
  pb_permit (resp_body sent) = None →
  forallb is_ok chunks = true ∧ exact_bytes file input (output out) (delivered chunks).
Proof using Type.
  intros Hsz Hlen Hread Hi Hp. destruct (front_at_run sched n) as [evs E]. rewrite E in Hi.
  destruct (front_download w mapper config serialize status_head to_http_response _ _ _ _ _ _ Hi Hp)
    as (ts & j & st & j' & st' & Hr & Hj & Hj').
  assert (forallb is_ok chunks = true) as Hok by (by eapply (get_object_clean w mapper config file)).
  split; [done|]. eapply (get_object_bytes w mapper config file); eauto. by apply reads_well_reads.
Qed.

(** Its body read to the end, after an answer that the request allows. *)
Definition sent_all (s : FSlot) (gw : State) (resp : HttpResponse (Head:=Head) (PermitBody (Body:=Body))) : Prop :=
  pb_permit (resp_body resp) = None ∧ ended (pb_inner (resp_body resp)) ∧
  ∃ o st, sl_work s = Some (Done o) ∧ post w mapper config (sl_req s) st gw o ∧
    ∀ file input out, reads_well w file → sl_req s = ReqGetObject input → o = OutGet (Ok out) →
      forallb is_ok (sl_chunks s) = true ∧ exact_bytes file input (output out) (delivered (sl_chunks s)).

Lemma answered_at `{!LruLaws str L} n s o :
  sizes_ok (cache config) → lengths_ok w → slot_at n = Some s → sl_work s = Some (Done o) → o ≠ OutDropped →
  ∃ st, post w mapper config (sl_req s) st (f_gw (front_at sched n)) o.
Proof using Type.
  intros Hsz Hlen Hn Hw Ho. destruct (front_at_run sched n) as [evs E]. rewrite E in *. by eapply front_answered.
Qed.

Lemma sent_over `{!LruLaws str L} n s resp :
  sizes_ok (cache config) → lengths_ok w → slot_at n = Some s → sl_conn s = Sending resp →
  pb_permit (resp_body resp) = None → sent_all s (f_gw (front_at sched n)) resp.
Proof using Hatt.
  intros Hsz Hlen Hn Hc Hp. destruct s as [q work x chunks]. cbn [sl_conn] in Hc. subst x.
  destruct (alive_at _ _ Hn) as [(o & Hw & Ho) _]. destruct (answered_at _ _ _ Hsz Hlen Hn Hw Ho) as [st Hst].
  split; [done|]. split.
  - destruct (front_at_run sched n) as [evs E]. rewrite E in Hn.
    destruct (front_slots_ok _ _ _ _ _ _ _ _ _ Hn) as [_ _ He]. by apply He.
  - exists o, st. split_and!; [done..|]. cbn [sl_req sl_chunks sl_work] in *. intros file input out Hr -> ->.
    subst work. by eapply download_ends.
Qed.

(** An exchange that keeps getting its turns gives its permit back. *)
Lemma exchange_over n s :
  slot_at n = Some s →
  ∃ m s', n <= m ∧ slot_at m = Some s' ∧ sl_req s' = sl_req s ∧ ¬ occupies (sl_conn s').
Proof using Hatt.
  intros Hn. destruct s as [q work x chunks]. cbn [sl_req]. pose proof (alive_at _ _ Hn) as Ha.
  assert (∀ n work resp chunks, slot_at n = Some (mkSlot q work (Sending resp) chunks) →
    ∃ m s', n <= m ∧ slot_at m = Some s' ∧ sl_req s' = q ∧ ¬ occupies (sl_conn s')) as Hsend.
  { intros n' work' resp' chunks' Hs. destruct (body_ends _ _ _ _ _ Hs) as (m & r & c & Hm & Hs' & Hp).
    eexists m, _. split_and!; [done|exact Hs'|done|]. cbn [sl_conn occupies]. intros H. by destruct (H Hp). }
  unfold alive in Ha. cbn [sl_conn sl_work] in Ha. destruct x as [resp| |resp|e|].
  - eexists n, _. split_and!; [done|exact Hn|done|by intros []].
  - destruct Ha as (p & -> & Hy). destruct (work_ends _ _ _ _ _ Hy Hn) as (m & o & Hm & Ho & Hs).
    destruct (slot_event m _ _ Hs eq_refl) as (m1 & Hm1 & Hev & Hs1).
    destruct (slot_answer _ _ _ _ _ Hs1) as [sem Hs2]. rewrite <- (front_at_S _ _ _ Hev) in Hs2.
    destruct (render (L:=L) serialize o) as [resp|e] eqn:Er; cbn [bp_answer fst] in Hs2.
    + destruct (Hsend _ _ _ _ Hs2) as (m2 & s2 & Hm2 & H). exists m2, s2. split; [lia|exact H].
    + eexists (S m1), _. split_and!; [lia|exact Hs2|done|by intros []].
  - by eapply Hsend.
  - eexists n, _. split_and!; [done|exact Hn|done|by intros []].
  - done.
Qed.

(** C6 Every client is served: an exchange that keeps getting its turns and is not
    dropped ends, whatever the others do and however many there are. It was
    refused without a handler, or its handler came to an answer that its request
    allows; and then the answer could not be sent as a response at all, or its
    body was read to the end and the permit is back. A download from a cluster
    that reads well ends with exactly the bytes that were asked for. *)
Theorem exchange_ends `{!LruLaws str L} n s :
  sizes_ok (cache config) → lengths_ok w → slot_at n = Some s →
  ∃ m s', n <= m ∧ slot_at m = Some s' ∧ sl_req s' = sl_req s ∧
    match sl_conn s' with
    | Refused _ => sl_work s' = None
    | Handling | Gone => False
    | Sending resp => sent_all s' (f_gw (front_at sched m)) resp
    | Failed e => ∃ o st, sl_work s' = Some (Done o) ∧ render (L:=L) serialize o = Err e ∧
        post w mapper config (sl_req s) st (f_gw (front_at sched m)) o
    end.
Proof using Hatt.
  intros Hsz Hlen Hn. destruct (exchange_over _ _ Hn) as (m & s' & Hm & Hs & Hq & Ho).
  exists m, s'. split_and!; [done..|]. pose proof (alive_at _ _ Hs) as Ha. unfold alive in Ha. rewrite <- Hq.
  destruct (sl_conn s') as [resp| |resp|e|] eqn:Ec; [done|by destruct Ho| | |done].
  - eapply sent_over; [done..|]. cbn [occupies] in Ho. destruct (pb_permit _); [by destruct Ho|done].
  - destruct Ha as (o & Hw & Hd & Er). destruct (answered_at _ _ o Hsz Hlen Hs Hw Hd) as [st Hst]. by exists o, st.
Qed.
End progress.

(** ** Witness *)

(** A client that downloads and keeps reading, alone. *)
Definition demo_sched (n : nat) : option (front_event (R:=str)) :=
  match n with
  | 0 => Some (FArrive (ReqGetObject demo_get))
  | _ => Some (match n mod 3 with 0 => FTurn 0 | 1 => FAnswer 0 | _ => FPoll 0 end)
  end.

Lemma demo_attends : attends 0 demo_sched.
Proof.
  split.
  - intros n ev Hev. assert (∃ j, j < 3 ∧ ev = match j with 0 => FTurn 0 | 1 => FAnswer 0 | _ => FPoll 0 end)
      as (j & Hj & ->) by (destruct Hev as [->|[->| ->]]; [exists 0|exists 1|exists 2]; split; lia || done).
    exists (j + (S n) * 3). split; [lia|]. unfold demo_sched.
    destruct (j + (S n) * 3) as [|m] eqn:E; [lia|]. by rewrite <- E, Nat.Div0.mod_add, Nat.mod_small.
  - intros [|m]; unfold demo_sched; [done|]. by destruct (S m mod 3) as [|[|?]].
Qed.

Example exchange_ends_witness :
  let c := front_at (L:=list_lru str) (Sem:=N) demo_world demo_paths demo_one_slot demo_serialize id (λ _, Err tt) demo_sched in
  ∃ m s, 1 <= m ∧ f_slots (c m) !! 0 = Some s ∧ sl_conn s ≠ Handling.
Proof.
  intros c.
  destruct (exchange_ends (L:=list_lru str) (Sem:=N) demo_world demo_paths demo_one_slot demo_serialize id
    (λ _, Err tt) 0 demo_sched demo_attends 1
    (mkSlot (ReqGetObject demo_get) (Some (handler demo_world demo_paths demo_one_slot (ReqGetObject demo_get))) Handling []))
    as (m & s & Hm & Hs & _ & H); [by split|apply demo_lengths|reflexivity|].
  exists m, s. split_and!; [done..|]. intros E. by rewrite E in H.
Defined.
