(* ===== verification/Drain.v ===== *)
(** The drain comes to its end: in a run of the whole process in which every
    client keeps reading, or is gone, [serve] returns after the signal.

    An execution gives [process_exec] one event after the other; one that is
    not possible when it comes is none. What is assumed of [hyper]: it reads no
    more requests once the drain has begun, and closes a connection whose
    exchanges are over. *)

From S2P Require Import Prelude Prog Bytes Config Path Range Metadata HdfsError Listing.
From S2P Require Import Cache Caches SortedListing Merge Paging Gateway ListObjects Backpressure Server.
From S2P Require Import Invariant Objects Listings Requests RequestLog Demo Served Front Process Progress.

#[local] Arguments mkHttpResponse {Head B}.
#[local] Arguments resp_head {Head B}.
#[local] Arguments resp_body {Head B}.

Section drain.
Context {L : Type → Type} `{!Lru str L} {R IoError : Type} `{!Base64}.
Context {Sem Head HttpError : Type} `{!Semaphore Sem}.
Context (w : World (R:=R) (IoError:=IoError)) (mapper : PathMapper) (config : Config).

Abbreviation Out := (Outcome R IoError).
Abbreviation Body := (FrontBody (L:=L) (R:=R) (IoError:=IoError)).

Context (serialize : Out → result (Head * option str) HttpError) (status_head : N → Head).
Context (to_http_response : S3Error → result (HttpResponse (Head:=Head) Body) HttpError).
Context {Shutdown : Type} (poll_shutdown : Shutdown → option Shutdown).

Abbreviation Proc := (Process (L:=L) (R:=R) (IoError:=IoError) (Sem:=Sem) (Head:=Head) (HttpError:=HttpError)
  (Shutdown:=Shutdown)).
Abbreviation pexec :=
  (process_exec (Sem:=Sem) w mapper config serialize status_head to_http_response poll_shutdown).
Abbreviation pstep :=
  (process_step (Sem:=Sem) w mapper config serialize status_head to_http_response poll_shutdown).

(** The events, and where the process started. *)
Context (evs : nat → process_event (R:=R)) (now0 : N) (sd0 : Shutdown).

Definition exec_or_stay (p : Proc) (ev : process_event (R:=R)) : Proc :=
  match pexec p ev with Some p => p | None => p end.

Fixpoint process_at (n : nat) : Proc :=
  match n with
  | 0 => process_start config now0 sd0
  | S n => exec_or_stay (process_at n) (evs n)
  end.

(** What of it the requests see. *)
Definition front_sched (n : nat) : option (front_event (R:=R)) :=
  match pexec (process_at n) (evs n), evs n with
  | Some _, PFront ev => Some ev
  | Some _, PRequest _ q => Some (FArrive q)
  | _, _ => None
  end.

Abbreviation front_at := (front_at w mapper config serialize status_head to_http_response front_sched).

Lemma exec_front p ev p' :
  pexec p ev = Some p' →
  pr_front p' = match ev with
                | PFront ev => front_step w mapper config serialize status_head to_http_response (pr_front p) ev
                | PRequest _ q => front_step w mapper config serialize status_head to_http_response (pr_front p) (FArrive q)
                | _ => pr_front p
                end.
Proof using Type.
  destruct p as [[phase now conns] sd front conn]. unfold process_exec.
  destruct ev as [| | | | |c|now'|c q|ev]; destruct phase as [|since n|since n]; intros He; cbn [pr_front];
    repeat case_match; simplify_eq; done.
Qed.

Lemma process_at_front n : pr_front (process_at n) = front_at n.
Proof using Type.
  induction n as [|n IH]; [done|]. cbn [process_at Progress.front_at]. rewrite <- IH. unfold exec_or_stay, front_sched.
  destruct (pexec (process_at n) (evs n)) as [p|] eqn:E; [|done]. apply exec_front in E. rewrite E. by destruct (evs n).
Qed.

Lemma process_at_step n : process_at (S n) = process_at n ∨ pstep (process_at n) (process_at (S n)).
Proof using Type.
  cbn [process_at]. unfold exec_or_stay. destruct (pexec (process_at n) (evs n)) as [p|] eqn:E; [right|by left].
  apply process_exec_step. by exists (evs n).
Qed.

Lemma process_at_steps n m : n <= m → rtc pstep (process_at n) (process_at m).
Proof using Type.
  intros Hm. induction Hm as [|m Hm IH]; [apply rtc_refl|].
  destruct (process_at_step m) as [->|Hst]; [done|by eapply rtc_r].
Qed.

Lemma process_at_ok n : process_ok w mapper config serialize status_head to_http_response (process_at n).
Proof using Type.
  eapply process_reach_ok. unfold process_reach. apply (process_at_steps 0 n). lia.
Qed.
(** ** What stays *)

Definition over_at (i n : nat) : Prop := ∀ s, f_slots (front_at n) !! i = Some s → ¬ occupies (sl_conn s).

Definition closed_at (c n : nat) : Prop := sv_conns (pr_serve (process_at n)) !! c = Some false.

Lemma closed_stays p p' c :
  pstep p p' → sv_conns (pr_serve p) !! c = Some false → sv_conns (pr_serve p') !! c = Some false.
Proof using Type.
  intros [sv sv' sd sd' front conn Hst _|sv sd front conn c' q _ _|sv sd front conn ev _]; [|done..].
  cbn [pr_serve]. intros Hc. inversion Hst as [| | | | |? ? ? ? i Hi|]; subst; cbn [sv_conns] in *; try done.
  - by apply lookup_app_l_Some.
  - rewrite list_lookup_insert_ne; [done|]. intros ->. congruence.
Qed.

(** A drain goes on until it is over, and accepts nothing. *)
Lemma drain_stays p p' d :
  pstep p p' → drain_of (pr_serve p) = Some d →
  drain_of (pr_serve p') = Some d ∧
  List.length (sv_conns (pr_serve p')) = List.length (sv_conns (pr_serve p)).
Proof using Type.
  intros [sv sv' sd sd' front conn Hst _|sv sd front conn c' q _ _|sv sd front conn ev _]; [|done..].
  cbn [pr_serve]. intros Hd. inversion Hst; subst; cbn [sv_conns] in *; try done.
  split; [done|]. by rewrite length_insert.
Qed.

(** ** The assumptions *)

(** From [n0] on: no request is read any more; each exchange keeps getting its
    turns or is gone; the task of each connection, and [serve], are polled. *)
Record clients_served (n0 : nat) : Prop := {
  cs_requests : ∀ n c q, n0 <= n → evs n ≠ PRequest c q;
  cs_clients : ∀ i s, f_slots (front_at n0) !! i = Some s →
    attends i front_sched ∨
    ∃ n s', n0 <= n ∧ f_slots (front_at n) !! i = Some s' ∧ sl_conn s' = Gone;
  cs_close : ∀ c n, c < List.length (sv_conns (pr_serve (process_at n0))) → ∃ m, n <= m ∧ evs m = PClose c;
  cs_return : ∀ n, ∃ m, n <= m ∧ evs m = PDrained;
}.

Context (n0 : nat) (Hserved : clients_served n0).

Lemma slots_stay n :
  n0 <= n → List.length (f_slots (front_at (S n))) = List.length (f_slots (front_at n)) ∧
  ∀ i, over_at i n → over_at i (S n).
Proof using Hserved.
  intros Hn. assert (∀ ev q, front_sched n = Some ev → ev ≠ FArrive q) as Hev.
  { intros ev q Hs ->. unfold front_sched in Hs. pose proof (cs_requests _ Hserved n) as Hr.
    destruct (pexec _ _) as [p|] eqn:E; [|done]. destruct (evs n) as [| | | | |c|now'|c q'|ev] eqn:Ee; try done.
    - by destruct (Hr c q' Hn).
    - injection Hs as ->. destruct (process_at n) as [[phase now conns] sd front conn]. by destruct phase. }
  unfold over_at. cbn [Progress.front_at]. destruct (front_sched n) as [ev|]; [|by split].
  destruct (front_step_occupies w mapper config serialize status_head to_http_response (front_at n) ev) as [Hl Ho].
  { intros q. by apply Hev. }
  split; [exact Hl|]. intros i Hi s' Hs' Hocc. destruct (Ho _ _ Hs') as (s & Hs & Hss). by apply (Hi s Hs), Hss.
Qed.

Lemma over_stays i n m : n0 <= n → n <= m → over_at i n → over_at i m.
Proof using Hserved.
  intros Hn Hm Hi. induction Hm as [|m Hm IH]; [done|]. apply slots_stay; [lia|exact IH].
Qed.

(** Every exchange ends, *)
Lemma exchanges_end : ∃ m, n0 <= m ∧ ∀ n, m <= n → all_over (pr_front (process_at n)).
Proof using Hserved.
  set (k := List.length (f_slots (front_at n0))).
  assert (∀ n, n0 <= n → List.length (f_slots (front_at n)) = k) as Hlen.
  { intros n Hn. induction Hn as [|n Hn IH]; [done|]. by rewrite (proj1 (slots_stay n Hn)). }
  destruct (eventually_all over_at n0 k) as (m & Hm & Hk).
  - intros i m Hm. by apply slots_stay.
  - intros i m Hi Hm. destruct (lookup_lt_is_Some_2 (f_slots (front_at n0)) i Hi) as [s0 Hs0].
    destruct (cs_clients _ Hserved i s0 Hs0) as [Hatt|(n & s' & Hn & Hs' & Hg)].
    + destruct (lookup_lt_is_Some_2 (f_slots (front_at m)) i) as [s Hs]; [by rewrite Hlen|].
      destruct (exchange_over _ _ _ _ _ _ _ _ Hatt _ _ Hs) as (m' & s' & Hm' & Hs' & _ & Ho).
      exists m'. split; [done|]. intros s1 Hs1. rewrite Hs' in Hs1. by injection Hs1 as <-.
    + exists (n + m). split; [lia|]. apply (over_stays i n); [lia..|].
      intros s1 Hs1. rewrite Hs' in Hs1. injection Hs1 as <-. rewrite Hg. by intros [].
  - exists m. split; [done|]. intros n Hn i s. rewrite process_at_front.
    intros Hi. apply (over_stays i m n); [lia..| |exact Hi]. apply Hk. rewrite <- (Hlen n) by lia.
    by eapply lookup_lt_Some.
Qed.
Lemma drain_at d n :
  n0 <= n → drain_of (pr_serve (process_at n0)) = Some d →
  drain_of (pr_serve (process_at n)) = Some d ∧
  List.length (sv_conns (pr_serve (process_at n))) = List.length (sv_conns (pr_serve (process_at n0))).
Proof using Type.
  intros Hn Hd. induction Hn as [|n Hn [IH1 IH2]]; [done|].
  destruct (process_at_step n) as [->|Hst]; [done|].
  destruct (drain_stays _ _ _ Hst IH1) as [H1 H2]. split; [done|]. by rewrite H2.
Qed.

(** A connection whose exchanges are over is closed when its task is polled. *)
Lemma close_now c n :
  all_over (pr_front (process_at n)) → evs n = PClose c →
  sv_conns (pr_serve (process_at n)) !! c = Some true → closed_at c (S n).
Proof using Type.
  unfold closed_at. cbn [process_at]. intros Hover -> Hc. unfold exec_or_stay.
  destruct (process_at n) as [[phase now conns] sd front conn]. cbn [pr_serve pr_front sv_conns] in *.
  assert (conn_is_over c front conn = true) as Ho by (apply conn_is_over_spec; intros i s _; apply Hover).
  cbn [process_exec]. rewrite Hc, Ho. assert (<[c := false]> conns !! c = Some false) as Hf.
  { apply list_lookup_insert_eq. by eapply lookup_lt_Some. }
  destruct phase; exact Hf.
Qed.

(** then the connections, *)
Lemma connections_end d m :
  n0 <= m → (∀ n, m <= n → all_over (pr_front (process_at n))) → drain_of (pr_serve (process_at n0)) = Some d →
  ∃ m', m <= m' ∧ ∀ n, m' <= n → all_closed (sv_conns (pr_serve (process_at n))) = true.
Proof using Hserved.
  intros Hm Hover Hd. destruct (eventually_all closed_at m (List.length (sv_conns (pr_serve (process_at n0)))))
    as (m' & Hm' & Hcl).
  - intros c n _ Hc. unfold closed_at in *. destruct (process_at_step n) as [->|Hst]; [done|by eapply closed_stays].
  - intros c n Hc Hn. destruct (cs_close _ Hserved c n Hc) as (n' & Hn' & Hev).
    destruct (drain_at d n' ltac:(lia) Hd) as [_ Hlen].
    destruct (lookup_lt_is_Some_2 (sv_conns (pr_serve (process_at n'))) c) as [[|] Hb]; [by rewrite Hlen| |].
    + exists (S n'). split; [lia|]. apply close_now; [apply Hover; lia|done..].
    + by exists n'.
  - exists m'. split; [done|]. intros n Hn. destruct (drain_at d n ltac:(lia) Hd) as [_ Hlen].
    unfold all_closed. apply forallb_forall. intros b [c Hb]%list_elem_of_In%list_elem_of_lookup.
    assert (closed_at c n) as Hc.
    { assert (c < List.length (sv_conns (pr_serve (process_at n0)))) as Hlt by (rewrite <- Hlen; by eapply lookup_lt_Some).
      specialize (Hcl c Hlt). unfold closed_at in *. clear Hb Hlen. induction Hn as [|n Hn IH]; [done|].
      destruct (process_at_step n) as [->|Hst]; [done|by eapply closed_stays]. }
    unfold closed_at in Hc. rewrite Hc in Hb. by injection Hb as <-.
Qed.

(** C10 A graceful shutdown ends: once the signal was seen, when the clients keep
    reading or are gone, and no more requests are read, every exchange ends,
    then every connection, and [serve] returns. *)
Theorem drain_ends since k :
  sv_phase (pr_serve (process_at n0)) = Draining since k →
  ∃ m, n0 <= m ∧ sv_phase (pr_serve (process_at m)) = Returned since k ∧
    all_closed (sv_conns (pr_serve (process_at m))) = true ∧ all_over (pr_front (process_at m)).
Proof using Hserved.
  intros Hd. assert (drain_of (pr_serve (process_at n0)) = Some (since, k)) as Hdr by (unfold drain_of; by rewrite Hd).
  destruct exchanges_end as (m1 & Hm1 & Hover). destruct (connections_end _ m1 Hm1 Hover Hdr) as (m2 & Hm2 & Hcl).
  destruct (cs_return _ Hserved m2) as (m & Hm & Hev). exists (S m).
  split_and!; [lia| |apply Hcl; lia|apply Hover; lia]. destruct (drain_at _ m ltac:(lia) Hdr) as [Hdm _].
  specialize (Hcl m Hm). cbn [process_at]. rewrite Hev. unfold exec_or_stay.
  destruct (process_at m) as [[phase now conns] sd front conn]. cbn [pr_serve sv_conns] in *.
  unfold drain_of in Hdm. cbn [sv_phase] in Hdm. cbn [process_exec].
  destruct phase as [|t j|t j]; [done|..]; injection Hdm as -> ->; [by rewrite Hcl|done].
Qed.
End drain.

(** ** A download whose server is told to stop *)

Definition demo_events (n : nat) : process_event (R:=str) :=
  match n with
  | 0 => PAccept
  | 1 => PRequest 0 (ReqGetObject demo_get)
  | 2 => PSignal
  | _ => match n mod 5 with
         | 0 => PFront (FTurn 0)
         | 1 => PFront (FAnswer 0)
         | 2 => PFront (FPoll 0)
         | 3 => PClose 0
         | _ => PDrained
         end
  end.

Abbreviation demo_process := (process_at (L:=list_lru str) (Sem:=N) demo_world demo_paths demo_one_slot demo_serialize
  id (λ _, Err tt) demo_stop demo_events 5 true).
Abbreviation demo_front_sched := (front_sched (L:=list_lru str) (Sem:=N) demo_world demo_paths demo_one_slot
  demo_serialize id (λ _, Err tt) demo_stop demo_events 5 true).

(** Each of the five comes again and again. *)
Lemma demo_events_cycle j n :
  j < 5 → ∃ m, n <= m ∧ demo_events m = match j with
    | 0 => PFront (FTurn 0) | 1 => PFront (FAnswer 0) | 2 => PFront (FPoll 0) | 3 => PClose 0 | _ => PDrained end.
Proof.
  intros Hj. exists (j + S n * 5). split; [lia|]. unfold demo_events.
  destruct (j + S n * 5) as [|[|[|m]]] eqn:E; [lia..|].
  rewrite <- E, Nat.Div0.mod_add, Nat.mod_small by done. by destruct j as [|[|[|[|j]]]].
Qed.

Lemma demo_front_event n ev :
  demo_events n = PFront ev → is_arrival ev = false → demo_front_sched n = Some ev.
Proof.
  intros E Ha. unfold front_sched. rewrite E. destruct (demo_process n) as [[phase now conns] sd front conn].
  cbn [process_exec]. rewrite Ha. by destruct phase.
Qed.

Lemma demo_front_attends : attends 0 demo_front_sched.
Proof.
  split.
  - intros n ev Hev. assert (∃ j, j < 5 ∧ PFront ev = match j with
      | 0 => PFront (FTurn 0) | 1 => PFront (FAnswer 0) | 2 => PFront (FPoll 0) | 3 => PClose 0 | _ => PDrained end)
      as (j & Hj & Ej) by (destruct Hev as [->|[->| ->]]; [exists 0|exists 1|exists 2]; split; lia || done).
    destruct (demo_events_cycle j n Hj) as (m & Hm & Em). rewrite <- Ej in Em. exists m. split; [done|].
    apply demo_front_event; [done|]. by destruct Hev as [->|[->| ->]].
  - intros m. unfold front_sched. destruct (process_exec _ _ _ _ _ _ _ _ _); [|done].
    destruct m as [|[|[|m]]]; try done. unfold demo_events. by destruct (S (S (S m)) mod 5) as [|[|[|[|?]]]].
Qed.

Lemma demo_served : clients_served (L:=list_lru str) (Sem:=N) demo_world demo_paths demo_one_slot demo_serialize id
  (λ _, Err tt) demo_stop demo_events 5 true 3.
Proof.
  split.
  - intros [|[|[|n]]] c q Hn; [lia..|]. unfold demo_events. by destruct (S (S (S n)) mod 5) as [|[|[|[|?]]]].
  - intros i s Hi. left. apply lookup_lt_Some in Hi.
    assert (i = 0) as ->; [|exact demo_front_attends].
    assert (List.length (f_slots (pr_front (demo_process 3))) = 1) as H1 by (vm_compute; reflexivity).
    rewrite process_at_front in H1. rewrite H1 in Hi. lia.
  - intros c n Hc. assert (List.length (sv_conns (pr_serve (demo_process 3))) = 1) as H1 by (vm_compute; reflexivity).
    rewrite H1 in Hc. assert (c = 0) as -> by lia. exact (demo_events_cycle 3 n ltac:(lia)).
  - intros n. exact (demo_events_cycle 4 n ltac:(lia)).
Qed.

Example drain_ends_witness :
  ∃ m, 3 <= m ∧ sv_phase (pr_serve (demo_process m)) = Returned 5 1 ∧
    all_closed (sv_conns (pr_serve (demo_process m))) = true ∧ all_over (pr_front (demo_process m)).
Proof.
  apply (drain_ends (L:=list_lru str) (Sem:=N) demo_world demo_paths demo_one_slot demo_serialize id (λ _, Err tt)
    demo_stop demo_events 5 true 3 demo_served 5 1).
  vm_compute. reflexivity.
Defined.
