(* ===== verification/Ending.v ===== *)
(** An exchange of [Front] ends, whatever becomes of it: every event of its own
    takes it further, and there are finitely many. So it ends in any order of
    events in which something of its own keeps happening to it; which of them,
    and what else happens, does not matter. *)

From S2P Require Import Prelude Prog Bytes Config Path Range Metadata HdfsError Listing.
From S2P Require Import Cache Caches SortedListing Merge Paging Gateway ListObjects Backpressure.
From S2P Require Import Invariant Objects Listings Requests RequestLog Demo Served Front Process Progress.

#[local] Arguments mkHttpResponse {Head B}.
#[local] Arguments resp_head {Head B}.
#[local] Arguments resp_body {Head B}.

Section ending.
Context {L : Type → Type} `{!Lru str L} {R IoError : Type} `{!Base64}.
Context {Sem Head HttpError : Type} `{!Semaphore Sem}.
Context (w : World (R:=R) (IoError:=IoError)) (mapper : PathMapper) (config : Config).

Abbreviation State := (GwState (L:=L) (R:=R)).
Abbreviation Out := (Outcome R IoError).
Abbreviation Body := (FrontBody (L:=L) (R:=R) (IoError:=IoError)).
Abbreviation FSlot := (Slot (L:=L) (R:=R) (IoError:=IoError) (Head:=Head) (HttpError:=HttpError)).

Context (serialize : Out → result (Head * option str) HttpError) (status_head : N → Head).
Context (to_http_response : S3Error → result (HttpResponse (Head:=Head) Body) HttpError).

Abbreviation Front := (Front (L:=L) (R:=R) (IoError:=IoError) (Sem:=Sem) (Head:=Head) (HttpError:=HttpError)).
Abbreviation fstep := (front_step (Sem:=Sem) w mapper config serialize status_head to_http_response).

(** An event of its own that is possible, of an exchange that is not over. *)
Definition slot_next (s s' : FSlot) : Prop :=
  occupies (sl_conn s) ∧ ∃ (c : Front) i ev, f_slots c !! i = Some s ∧
    (next_event i s = Some ev ∨ ev = FDrop i ∧ is_Some (drop_slot (sl_conn s) (sl_work s) (f_gw c))) ∧
    f_slots (fstep c ev) !! i = Some s'.

(** Nothing else touches the exchange. *)
Lemma slot_goes (c : Front) ev i s :
  f_slots c !! i = Some s → occupies (sl_conn s) →
  ∃ s', f_slots (fstep c ev) !! i = Some s' ∧ (s' = s ∨ slot_next s s').
Proof using Type.
  intros Hi Ho.
  assert (Some ev = next_event i s ∨ Some ev ≠ next_event i s) as [E|E].
  { destruct (next_event i s) as [e|] eqn:E; [|by right].
    destruct (event_decided i e ev) as [->|?]; [|by left|right; congruence].
    revert E. unfold next_event. destruct (sl_conn s), (sl_work s) as [[]|]; intros [= <-]; auto. }
  - destruct (front_step_occupies w mapper config serialize status_head to_http_response c ev) as [Hl _].
    { intros q ->. unfold next_event in E. by destruct (sl_conn s), (sl_work s) as [[]|]. }
    destruct (lookup_lt_is_Some_2 (f_slots (fstep c ev)) i) as [s' Hs'].
    { rewrite Hl. by eapply lookup_lt_Some. }
    exists s'. split; [done|right]. split; [done|]. exists c, i, ev. auto.
  - assert (ev = FDrop i ∨ ev ≠ FDrop i) as [->|Hd].
    { destruct ev as [| | | |j|]; try by right. destruct (decide (j = i)) as [->|]; [by left|right; congruence]. }
    2:{ exists s. split; [|by left]. by apply slot_waits. }
    destruct (drop_slot (sl_conn s) (sl_work s) (f_gw c)) as [r|] eqn:Ed.
    + destruct (front_step_occupies w mapper config serialize status_head to_http_response c (FDrop i)) as [Hl _]; [done|].
      destruct (lookup_lt_is_Some_2 (f_slots (fstep c (FDrop i))) i) as [s' Hs'].
      { rewrite Hl. by eapply lookup_lt_Some. }
      exists s'. split; [done|right]. split; [done|]. exists c, i, (FDrop i). split_and!; [done| |done]. right. eauto.
    + exists s. split; [|by left]. destruct c as [sem slots gw], s as [q work x chunks]. cbn [f_slots f_gw sl_conn sl_work] in *.
      cbn [front_step]. by rewrite Hi, Ed.
Qed.

(** One that is over stays so. *)
Lemma slot_over (c : Front) ev j :
  is_Some (f_slots c !! j) → (∀ s, f_slots c !! j = Some s → ¬ occupies (sl_conn s)) →
  ∀ s, f_slots (fstep c ev) !! j = Some s → ¬ occupies (sl_conn s).
Proof using Type.
  intros [s0 Hs0] Ho s Hs. destruct ev as [q|j'|j'|j'|j'|n].
  2-6: (edestruct (front_step_occupies w mapper config serialize status_head to_http_response c) as [_ Hst];
    [|destruct (Hst _ _ Hs) as (s1 & Hs1 & Himp)]; [done|]; intros Hocc; apply (Ho s1); [done|by apply Himp]).
  assert (f_slots (fstep c (FArrive q)) !! j = Some s0) as Hs1.
  { apply slot_waits; [done|..|done]. unfold next_event. by destruct (sl_conn s0), (sl_work s0) as [[]|]. }
  rewrite Hs1 in Hs. injection Hs as <-. by apply Ho.
Qed.

(** ** There are finitely many *)

Abbreviation ending := (Acc (λ s' s, slot_next s s')).

Lemma ending_over s : ¬ occupies (sl_conn s) → ending s.
Proof using Type. intros Ho. constructor. by intros s' [? _]. Qed.

(** To end, an exchange need only do so after its next event that is no drop. *)
Lemma ending_intro s :
  (∀ (c : Front) i ev s', f_slots c !! i = Some s → next_event i s = Some ev →
     f_slots (fstep c ev) !! i = Some s' → ending s') → ending s.
Proof using Type.
  intros H. constructor. intros s' (Ho & c & i & ev & Hi & [He|[-> [r Hr]]] & Hs'); [by eapply H|].
  apply ending_over. exact (dropped_now w mapper config serialize status_head to_http_response c i s r Hi Hr s' Hs').
Qed.

Lemma ending_polling q work b k : ∀ p chunks resp,
  keeps (S:=State) (λ _ _, True) (λ _ _, True) p (λ o, match o with Some (_, u) => to_come u < k | None => True end) →
  pb_inner (resp_body resp) = Polling b p → ending (mkSlot q work (Sending resp) chunks).
Proof using Type.
  induction k as [k IHk] using lt_wf_ind. intros p. induction p as [o|B d f c IHp]; intros chunks resp Hp Hb;
    apply ending_intro; intros c0 i ev s' Hi [= <-] Hs';
    destruct (body_turn w (pb_inner (resp_body resp)) (f_gw c0)) as [[r inner] gw] eqn:Eb;
    destruct (slot_poll w mapper config serialize status_head to_http_response _ _ _ _ _ _ _ _ _ Hi Eb) as (resp' & chunks' & Hi' & Hin & Hend);
    rewrite Hi' in Hs'; injection Hs' as <-; rewrite Hb in Eb; cbn [body_turn] in Eb.
  - destruct o as [[c u]|]; injection Eb as <- <- <-.
    + by eapply (IHk (to_come u) Hp); [apply unfold_step_fewer|].
    + apply ending_over. cbn [sl_conn occupies]. rewrite Hend by done. by intros [].
  - destruct (f _) as [x gw1] eqn:Ef. injection Eb as <- <- <-.
    destruct (Hp (f_gw c0)) as (_ & Hk & _). rewrite Ef in Hk. by eapply IHp.
Qed.

(** A body in memory, an unread one, and the polls of a reader. *)
Lemma ending_sending q work resp chunks : ending (mkSlot q work (Sending resp) chunks).
Proof using Type.
  assert (∀ resp chunks, (∀ (c : Front) r inner gw resp' chunks',
    body_turn w (pb_inner (resp_body resp)) (f_gw c) = (r, inner, gw) → pb_inner (resp_body resp') = inner →
    (r = Ready None → pb_permit (resp_body resp') = None) → ending (mkSlot q work (Sending resp') chunks')) →
    ending (mkSlot q work (Sending resp) chunks)) as Hturn.
  { clear. intros resp chunks H. apply ending_intro. intros c0 i ev s' Hi [= <-] Hs'.
    destruct (body_turn w (pb_inner (resp_body resp)) (f_gw c0)) as [[r inner] gw] eqn:Eb.
    destruct (slot_poll w mapper config serialize status_head to_http_response _ _ _ _ _ _ _ _ _ Hi Eb)
      as (resp' & chunks' & Hi' & Hin & Hend).
    rewrite Hi' in Hs'. injection Hs' as <-. by eapply H. }
  assert (∀ resp chunks, pb_permit (resp_body resp) = None → ending (mkSlot q work (Sending resp) chunks)) as Hnone.
  { intros resp' chunks' Hp. apply ending_over. cbn [sl_conn occupies]. rewrite Hp. by intros []. }
  assert (∀ p b resp chunks, pb_inner (resp_body resp) = Polling b p → ending (mkSlot q work (Sending resp) chunks)) as Hpoll.
  { induction p as [[[c u]|]|B d f k IH]; intros b resp' chunks' Hb; apply Hturn; rewrite Hb; cbn [body_turn];
      intros c0 r inner gw resp1 chunks1 E Hin Hend.
    - injection E as <- <- <-. eapply ending_polling; [apply unfold_step_fewer|exact Hin].
    - injection E as <- <- <-. by apply Hnone, Hend.
    - destruct (f (f_gw c0)) as [x gw1]. injection E as <- <- <-. by eapply IH. }
  assert (∀ resp chunks, pb_inner (resp_body resp) = Buffered None → ending (mkSlot q work (Sending resp) chunks)) as Hempty.
  { intros resp' chunks' Hb. apply Hturn. rewrite Hb. cbn [body_turn].
    intros c0 r inner gw resp1 chunks1 [= <- <- <-] Hin Hend. by apply Hnone, Hend. }
  apply Hturn. intros c0 r inner gw resp1 chunks1 E Hin Hend.
  destruct (pb_inner (resp_body resp)) as [[bytes|]|b|b p] eqn:Hb; cbn [body_turn] in E.
  - injection E as <- <- <-. by apply Hempty.
  - injection E as <- <- <-. by apply Hempty.
  - apply (f_equal (λ x, x.1.2)) in E. cbn [fst snd] in E. subst inner. by eapply Hpoll.
  - assert (∃ p', inner = Polling b p') as [p' ->]; [|by eapply Hpoll].
    destruct p as [[[c u]|]|B d f k]; cbn [body_turn] in E; [..|destruct (f (f_gw c0))];
      apply (f_equal (λ x, x.1.2)) in E; cbn [fst snd] in E; eauto.
Qed.

(** Every exchange ends. *)
Lemma slot_ending s : ending s.
Proof using Type.
  destruct s as [q work x chunks]. destruct x as [| |resp| |]; try (apply ending_over; by intros []); [|apply ending_sending].
  destruct work as [p|]; [|by apply ending_intro]. induction p as [o|B d f k IH]; apply ending_intro;
    intros c i ev s' Hi [= <-] Hs'.
  - destruct (slot_answer w mapper config serialize status_head to_http_response _ _ _ _ _ Hi) as [sem E].
    rewrite E in Hs'. injection Hs' as <-. unfold bp_answer. destruct (render serialize o); [apply ending_sending|].
    apply ending_over. by intros [].
  - pose proof (slot_turn w mapper config serialize status_head to_http_response _ _ _ _ _ _ _ _ Hi) as E.
    rewrite E in Hs'. injection Hs' as <-. apply IH.
Qed.

(** ** So those of a runtime that is being dropped end *)

(** In a run, [slot n j] is the exchange [j] at the time [n]; while [going], what
    is due to an exchange that is not over comes again and again, unless
    something is [left] before. *)
Section winding.
Context (slot : nat → nat → option FSlot) (going left : nat → Prop) (n0 : nat).

Definition quiet (j m : nat) : Prop := ∀ s, slot m j = Some s → ¬ occupies (sl_conn s).

Context (Hgoing : ∀ m, n0 <= m → going m → going (S m) ∨ left (S m)).
Context (Hstep : ∀ m j s, n0 <= m → slot m j = Some s → occupies (sl_conn s) →
  ∃ s', slot (S m) j = Some s' ∧ (s' = s ∨ slot_next s s')).
Context (Hquiet : ∀ m j, n0 <= m → quiet j m → quiet j (S m)).
Context (Htasks : ∀ n j, ∃ m, n <= m ∧ ∀ s, going m → slot m j = Some s → occupies (sl_conn s) →
  ∃ s', slot (S m) j = Some s' ∧ slot_next s s').

Lemma task_ends j s : ending s → ∀ n,
  n0 <= n → going n → slot n j = Some s → ∃ m, n <= m ∧ (left m ∨ going m ∧ quiet j m).
Proof using Hgoing Hstep Htasks.
  induction 1 as [s _ IH]. intros n Hn Hg Hs.
  assert (occupies (sl_conn s) ∨ ¬ occupies (sl_conn s)) as [Ho|Ho].
  { destruct (sl_conn s) as [| |resp| |]; cbn [occupies]; try tauto. destruct (pb_permit _); [by left|right; by intros []]. }
  2:{ exists n. split; [done|right]. split; [done|]. intros s' Hs'. rewrite Hs in Hs'. by injection Hs' as <-. }
  destruct (until n0 (λ m, going m ∧ slot m j = Some s) (λ m, left m ∨ going m ∧ ∃ s', slot m j = Some s' ∧ slot_next s s')
    (λ m, ∃ s', slot (S m) j = Some s' ∧ slot_next s s') n) as (m & Hm & [Hl|(Hg' & s' & Hs' & Hnx)]); [..|done|done| |].
  - intros n'. destruct (Htasks n' j) as (m & Hm & HT). exists m. split; [done|]. intros [Hg' Hs']. by apply HT.
  - intros m Hm [Hg' Hs']. destruct (Hgoing m Hm Hg') as [Hg2|?]; [|by right; left].
    destruct (Hstep m j s Hm Hs' Ho) as (s' & Hs2 & [->|Hnx]); [by left|right; right; eauto].
  - intros m Hm [Hg' Hs'] HT. destruct (Hgoing m Hm Hg') as [Hg2|?]; [by right|by left].
  - by exists m; auto.
  - destruct (IH s' Hnx m) as (m' & Hm' & ?); [lia|done..|]. exists m'. split; [lia|done].
Qed.

(** They all end, when no more come. *)
Lemma tasks_end n k :
  (∀ m j, n <= m → is_Some (slot m j) → j < k) → n0 <= n → going n →
  ∃ m, n <= m ∧ (left m ∨ going m ∧ ∀ j, quiet j m).
Proof using Hgoing Hstep Hquiet Htasks.
  intros Hk Hn Hg. assert (∀ i, i <= k → ∃ m, n <= m ∧ (left m ∨ going m ∧ ∀ j, j < i → quiet j m)) as H.
  { induction i as [|i IH]; intros Hi; [exists n; split; [done|right; split; [done|lia]]|].
    destruct IH as (m & Hm & [?|[Hg' Hq]]); [lia|by exists m; auto|].
    assert (∃ m', m <= m' ∧ (left m' ∨ going m' ∧ quiet i m')) as (m' & Hm' & [?|[Hg2 Hi']]).
    { destruct (slot m i) as [s|] eqn:Es; [eapply task_ends; [apply slot_ending|lia|done..]|].
      exists m. split; [done|right]. split; [done|]. intros s. by rewrite Es. }
    - exists m'. split; [lia|by left].
    - exists m'. split; [lia|right]. split; [done|]. intros j Hj. destruct (decide (j = i)) as [->|Hne]; [done|].
      apply (kept n0 (quiet j) m); [intros ??; by apply Hquiet|lia..|]. apply Hq. lia. }
  destruct (H k (le_n k)) as (m & Hm & [?|[Hg' Hq]]); [by exists m; auto|]. exists m. split; [done|right].
  split; [done|]. intros j s Hs. apply (Hq j); [|done]. by apply (Hk m j Hm).
Qed.
End winding.
End ending.
