(* ===== verification/Main.v ===== *)
(** The binary: [src/main.rs], from its arguments to its exit.

    [Server.main] ends with the call of [serve]; here is what comes before it in
    the log, and what comes after it. While [serve] runs, the process is a
    [Process] on the service that was built. When it has returned, so has the
    block of [main], and the attribute [tokio::main] drops the runtime: each
    task is dropped where it awaits, and the drop waits for that; then the
    process exits. *)

From S2P Require Import Prelude Prog Bytes Config Path Range Metadata HdfsError Listing.
From S2P Require Import Cache Caches SortedListing Merge Paging Gateway ListObjects Backpressure Server.
From S2P Require Import Invariant Objects Listings Requests RequestLog Demo Served Front Process Progress Ending Drain.

#[local] Arguments mkHttpResponse {Head B}.
#[local] Arguments resp_head {Head B}.
#[local] Arguments resp_body {Head B}.

(** [setup_tracing]: the filter of the environment, or [info]. *)
Definition setup_tracing {EnvFilter : Type} (try_from_default_env : option EnvFilter) (into : str → EnvFilter) : EnvFilter :=
  or_else try_from_default_env (into $"info").

(** The shutdown future of [main]: done when [ctrl_c] is, with a signal or with
    the error that none can be caught. *)
Definition await_ctrl_c {CtrlC SignalError : Type} (poll_ctrl_c : CtrlC → option (result unit SignalError * CtrlC))
    (s : CtrlC) : option CtrlC :=
  match poll_ctrl_c s with
  | Some (_, s) => Some s
  | None => None
  end.

Section main.
(** The HDFS client and its builder, [SocketAddr], [TcpListener], and the files
    and the environment. *)
Context {ClientBuilder Client ClientError : Type}.
Context (builder_new : ClientBuilder) (with_url : str → ClientBuilder → ClientBuilder).
Context (with_config : gmap str str → ClientBuilder → ClientBuilder).
Context (with_config_dir with_user : str → ClientBuilder → ClientBuilder).
Context (builder_build : ClientBuilder → result Client ClientError) (client_error_string : ClientError → str).
Context {L : Type → Type} `{!Lru str L} {R : Type} {Sem : Type} `{!Semaphore Sem}.
Context {SocketAddr Listener AddrError BindError : Type}.
Context (parse_addr : str → result SocketAddr AddrError) (bind : SocketAddr → result Listener BindError).
Context {FileError TomlError : Type} (load : CliArgs → result Config (ConfigError FileError TomlError)).

Abbreviation Svc := (BackpressureService (Client:=Client) (L:=L) (R:=R) (Sem:=Sem)).
Abbreviation from_config := (from_config (L:=L) (R:=R) builder_new with_url with_config with_config_dir with_user
  builder_build client_error_string).
Abbreviation startup := (main (L:=L) (R:=R) (Sem:=Sem) builder_new with_url with_config with_config_dir with_user builder_build
  client_error_string parse_addr bind load).
Abbreviation MainError := (MainError (SocketAddr:=SocketAddr) (AddrError:=AddrError) (BindError:=BindError)
  (IoError:=FileError) (TomlError:=TomlError)).

(** ** What it reports *)

Inductive MainLine : Type :=
| LoadedConfiguration (config : Config)
| CachesEnabled (metadata_ttl blocks_ttl listing_ttl negative_ttl : N)
| CachesDisabled
| Connected (namenode : str)
| ListeningAuth (addr : SocketAddr)
| ListeningNoAuth (addr : SocketAddr).

Definition caches_line (c : CacheConfig) : MainLine :=
  if enabled c
  then CachesEnabled (metadata_ttl_ms c) (blocks_ttl_ms c) (listing_ttl_ms c) (negative_ttl_ms c)
  else CachesDisabled.

Definition listening_line (addr : SocketAddr) (config : Config) : MainLine :=
  match auth_secret config with
  | Some _ => ListeningAuth addr
  | None => ListeningNoAuth addr
  end.

(** The lines of [main] before [serve], as far as it comes. *)
Definition main_lines (args : CliArgs) : list MainLine :=
  match load args with
  | Err _ => []
  | Ok config =>
      [LoadedConfiguration config; caches_line (cache config)] ++
      match from_config config with
      | Err _ => []
      | Ok _ =>
          Connected (namenode_uri config) ::
          match parse_addr (listen_addr config) with
          | Err _ => []
          | Ok addr => match bind addr with Err _ => [] | Ok _ => [listening_line addr config] end
          end
      end
  end.

(** ** The process *)

Context {IoError : Type} `{!Base64} {Head HttpError : Type}.
(** What a client sees of its cluster. *)
Context (cluster : Client → World (R:=R) (IoError:=IoError)).

Abbreviation Out := (Outcome R IoError).
Abbreviation Body := (FrontBody (L:=L) (R:=R) (IoError:=IoError)).

Context (serialize : Out → result (Head * option str) HttpError) (status_head : N → Head).
Context (to_http_response : S3Error → result (HttpResponse (Head:=Head) Body) HttpError).
Context {CtrlC SignalError : Type} (poll_ctrl_c : CtrlC → option (result unit SignalError * CtrlC)).

Abbreviation Proc := (Process (L:=L) (R:=R) (IoError:=IoError) (Sem:=Sem) (Head:=Head) (HttpError:=HttpError)
  (Shutdown:=CtrlC)).

Definition gateway (svc : Svc) : HdfsGateway (Client:=Client) (L:=L) (R:=R) := svc_gateway (bp_inner svc).

Abbreviation world svc := (cluster (hg_client (gateway svc))).
Abbreviation mapper svc := (hg_mapper (gateway svc)).
Abbreviation config svc := (hg_config (gateway svc)).
Abbreviation pstep svc := (process_step (Sem:=Sem) (world svc) (mapper svc) (config svc) serialize status_head
  to_http_response (await_ctrl_c poll_ctrl_c)).
Abbreviation fstep svc := (front_step (Sem:=Sem) (world svc) (mapper svc) (config svc) serialize status_head to_http_response).

(** The service as it was built, before any connection. *)
Definition serve_call (svc : Svc) (now : N) (sd : CtrlC) : Proc :=
  mkProcess (serve_start now) sd
    (mkFront (bp_semaphore svc) [] (mkGwState (hg_cache (gateway svc)) 0 0 [])) [].

(** Where [main] is. *)
Inductive Binary : Type :=
| Starting
| Failed (e : MainError)
| Running (svc : Svc) (p : Proc)
| Dropping (svc : Svc) (p : Proc)
| Exited (svc : Svc) (p : Proc).

Context (args : CliArgs).

Inductive main_step : Binary → Binary → Prop :=
| main_fails e : startup args = Err e → main_step Starting (Failed e)
| main_calls listener svc now sd :
    startup args = Ok (listener, svc) → main_step Starting (Running svc (serve_call svc now sd))
| main_runs svc p p' : pstep svc p p' → main_step (Running svc p) (Running svc p')
| main_returns svc p since n :
    sv_phase (pr_serve p) = Returned since n → main_step (Running svc p) (Dropping svc p)
(* a task goes on to where it awaits *)
| main_drops svc p p' : pstep svc p p' → main_step (Dropping svc p) (Dropping svc p')
| main_exits svc p : all_over (pr_front p) → main_step (Dropping svc p) (Exited svc p).

Definition main_reach : Binary → Prop := rtc main_step Starting.

(** ** What is reached *)

Lemma startup_inv listener svc :
  startup args = Ok (listener, svc) → ∃ c addr gw,
    load args = Ok c ∧ from_config c = Ok gw ∧ parse_addr (listen_addr c) = Ok addr ∧ bind addr = Ok listener ∧
    gateway svc = gw ∧ (∃ client, gw = new_gateway client c) ∧
    svc_auth (bp_inner svc) = option_map mkSharedSecretAuth (auth_secret c) ∧
    bp_semaphore svc = bp_service c.
Proof using Type.
  unfold main. destruct (load args) as [c|] eqn:El; [|done]. cbn [map_err].
  destruct (prepare _ _ _ _ _ _ _ _ _ c) as [[l s]|] eqn:Ep; [|done]. intros [= <- <-].
  apply prepare_inv in Ep as (gw & addr & Hg & Ha & Hb & ->). pose proof (from_config_inv _ _ _ _ _ _ _ _ _ Hg) as Hc.
  exists c, addr, gw. unfold gateway, build_service. split_and!; try done; by destruct (auth_secret c).
Qed.

Lemma startup_loads listener svc : startup args = Ok (listener, svc) → load args = Ok (config svc).
Proof using Type. by intros (c & addr & gw & Hl & _ & _ & _ & -> & [client ->] & _)%startup_inv. Qed.

(** What was built is what the theorems about a [Process] start from. *)
Lemma serve_call_start listener svc now sd :
  startup args = Ok (listener, svc) → serve_call svc now sd = process_start (config svc) now sd.
Proof using Type.
  intros (c & addr & gw & _ & _ & _ & _ & Hgw & [client ->] & _ & Hsem)%startup_inv.
  unfold serve_call, process_start, front_new, initial. by rewrite Hgw, Hsem.
Qed.

(** The process that serves, or is being dropped, or exited, is one of [Process]. *)
Definition main_ok (b : Binary) : Prop :=
  match b with
  | Starting => True
  | Failed e => startup args = Err e
  | Running svc p | Dropping svc p | Exited svc p =>
      (∃ listener, startup args = Ok (listener, svc)) ∧
      (∃ now sd, process_reach (world svc) (mapper svc) (config svc) serialize status_head to_http_response
        (await_ctrl_c poll_ctrl_c) now sd p) ∧
      match b with
      | Dropping _ _ => ∃ since n, sv_phase (pr_serve p) = Returned since n
      | Exited _ _ => (∃ since n, sv_phase (pr_serve p) = Returned since n) ∧ all_over (pr_front p)
      | _ => True
      end
  end.

Lemma returned_stays svc p p' :
  pstep svc p p' → (∃ since n, sv_phase (pr_serve p) = Returned since n) → ∃ since n, sv_phase (pr_serve p') = Returned since n.
Proof using Type.
  intros [sv sv' sd sd' front conn Hst _|sv sd front conn c q _ _|sv sd front conn ev _]; [|done..]. cbn [pr_serve].
  intros (since & n & E). inversion Hst; subst; cbn [sv_phase] in *; try done; eauto.
Qed.

Lemma main_step_ok b b' : main_step b b' → main_ok b → main_ok b'.
Proof using Type.
  intros [e He|listener svc now sd Hs|svc p p' Hst|svc p since n Hph|svc p p' Hst|svc p Hover]; cbn [main_ok].
  - done.
  - intros _. split_and!; [by eexists| |done]. exists now, sd. rewrite (serve_call_start _ _ now sd Hs).
    apply rtc_refl.
  - intros (Hs & (now & sd & Hr) & _). split_and!; [done| |done]. exists now, sd. by eapply rtc_r.
  - intros (Hs & Hr & _). split_and!; [done..|]. eauto.
  - intros (Hs & (now & sd & Hr) & Hph). split_and!; [done| |by eapply returned_stays]. exists now, sd. by eapply rtc_r.
  - intros (Hs & Hr & Hph). by split_and!.
Qed.

Lemma main_reach_ok b : main_reach b → main_ok b.
Proof using Type. apply (rtc_ind_r main_ok); [done|]. intros b1 b2 _. apply main_step_ok. Qed.

Definition is_listening (l : MainLine) : bool :=
  match l with ListeningAuth _ | ListeningNoAuth _ => true | _ => false end.

(** The log tells what happened: all four lines, the last one as the requests
    are let in, when it serves; and no such line when it does not. *)
Lemma main_reports :
  match startup args with
  | Ok (listener, svc) =>
      ∃ addr, parse_addr (listen_addr (config svc)) = Ok addr ∧ bind addr = Ok listener ∧
        main_lines args = [LoadedConfiguration (config svc); caches_line (cache (config svc));
          Connected (namenode_uri (config svc));
          match svc_auth (bp_inner svc) with Some _ => ListeningAuth addr | None => ListeningNoAuth addr end]
  | Err _ => existsb is_listening (main_lines args) = false
  end.
Proof using Type.
  destruct (startup args) as [[listener svc]|e] eqn:E.
  - apply startup_inv in E as (c & addr & gw & Hl & Hg & Ha & Hb & -> & [client ->] & Hau & _). exists addr.
    cbn [new_gateway hg_config]. split_and!; [done..|]. unfold main_lines, listening_line. rewrite Hl, Hg, Ha, Hb, Hau.
    by destruct (auth_secret c).
  - revert E. unfold main, prepare, main_lines, caches_line. destruct (load args) as [c|]; [|done]. cbn [map_err].
    destruct (from_config c) as [gw|]; cbn [map_err]; [|by destruct (enabled _)].
    destruct (parse_addr _) as [a|]; cbn [map_err]; [|by destruct (enabled _)].
    destruct (bind a) as [li|]; cbn [map_err]; [done|by destruct (enabled _)].
Qed.

(** When [serve] has returned the process can exit, whatever is at work: by
    dropping it. *)
Lemma can_exit svc p :
  ∃ p', rtc main_step (Dropping svc p) (Exited svc p') ∧ pr_serve p' = pr_serve p.
Proof using Type.
  destruct p as [sv sd front conn].
  destruct (drop_all (world svc) (mapper svc) (config svc) serialize status_head to_http_response front) as (evs & Hn & Hover).
  exists (mkProcess sv sd (foldl (fstep svc) front evs) conn). split; [|done]. eapply rtc_r; [|by apply main_exits].
  clear Hover. revert front Hn. induction evs as [|ev evs IH]; intros front Hn; [apply rtc_refl|]. cbn [foldl].
  eapply rtc_l; [apply main_drops, process_front|apply IH].
  - intros q. apply Hn. by left.
  - intros ev' q Hev. apply Hn. by right.
Qed.

Lemma final_state b b' : main_step b b' → match b with Failed _ | Exited _ _ => False | _ => True end.
Proof using Type. by intros []. Qed.

(** ** It does exit *)

Definition rank (b : Binary) : nat :=
  match b with
  | Starting | Failed _ => 0
  | Running _ p => match sv_phase (pr_serve p) with Accepting => 1 | Draining _ _ => 2 | Returned _ _ => 3 end
  | Dropping _ _ => 4
  | Exited _ _ => 5
  end.

(** What the main thread has to do: the drain is over, or out of time; [serve]
    has returned; the tasks are gone. *)
Definition due (b : Binary) : Prop :=
  match b with
  | Running _ p =>
      match sv_phase (pr_serve p) with
      | Accepting => False
      | Draining since _ => all_closed (sv_conns (pr_serve p)) = true ∨ (since + drain_limit <= sv_now (pr_serve p))%N
      | Returned _ _ => True
      end
  | Dropping _ p => all_over (pr_front p)
  | _ => False
  end.

Definition slot_at (b : Binary) (j : nat) :=
  match b with Running _ p | Dropping _ p | Exited _ p => f_slots (pr_front p) !! j | _ => None end.

Abbreviation slot_next svc :=
  (slot_next (Sem:=Sem) (world svc) (mapper svc) (config svc) serialize status_head to_http_response).

(** Past [serve]'s call the service is the same, and the rank grows. *)
Definition at_service (svc : Svc) (b : Binary) : Prop := ∃ p, b = Running svc p ∨ b = Dropping svc p ∨ b = Exited svc p.

Lemma pstep_rank svc p p' : pstep svc p p' → rank (Running svc p) <= rank (Running svc p').
Proof using Type.
  intros [sv sv' sd sd' front conn Hst _|sv sd front conn c q _ _|sv sd front conn ev _]; [|done..].
  inversion Hst as [| | | | |? ? ? ? ? ?|? ? ? ? ? ?]; subst; cbn [rank pr_serve sv_phase]; lia.
Qed.

Lemma main_step_rank b b' : main_step b b' → rank b <= rank b'.
Proof using Type.
  intros [e He|listener svc now sd Hs|svc p p' Hst|svc p since n Hph|svc p p' Hst|svc p Hover]; [cbn; lia..| | | |].
  - by apply pstep_rank.
  - cbn [rank]. rewrite Hph. lia.
  - done.
  - cbn; lia.
Qed.

Lemma main_step_service svc b b' : main_step b b' → at_service svc b → at_service svc b'.
Proof using Type.
  intros Hst (p & [-> | [-> | ->]]); inversion Hst; subst; unfold at_service; eauto.
Qed.

(** What a step does to the exchanges. *)
Lemma main_step_slots svc b b' :
  main_step b b' → at_service svc b →
  (∀ j, slot_at b' j = slot_at b j) ∨
  ∃ c ev, (∀ j, slot_at b j = f_slots c !! j) ∧ ∀ j, slot_at b' j = f_slots (fstep svc c ev) !! j.
Proof using Type.
  assert (∀ p p', pstep svc p p' → (∀ j, f_slots (pr_front p') !! j = f_slots (pr_front p) !! j) ∨
    ∃ c ev, (∀ j, f_slots (pr_front p) !! j = f_slots c !! j) ∧ ∀ j, f_slots (pr_front p') !! j = f_slots (fstep svc c ev) !! j) as Hp.
  { intros p p' [sv sv' sd sd' front conn Hst _|sv sd front conn c q _ _|sv sd front conn ev _]; [by left|right..];
      by eexists front, _. }
  intros Hst (p & [-> | [-> | ->]]); inversion Hst; subst; cbn [slot_at]; auto.
Qed.

(** A run of the binary, and what keeps moving in it: the main thread, the clock
    and the tasks; and [hyper] reads no more requests. *)
Definition main_run (run : nat → Binary) : Prop := ∀ n, main_step (run n) (run (S n)) ∨ run (S n) = run n.

Record main_served (run : nat → Binary) (svc : Svc) (n0 : nat) : Prop := {
  md_requests : ∀ n j, n0 <= n → is_Some (slot_at (run (S n)) j) → is_Some (slot_at (run n) j);
  md_main : ∀ n, ∃ m, n <= m ∧ (due (run m) → rank (run m) < rank (run (S m)));
  md_time : ∀ n b, ∃ m, n <= m ∧ ∀ p, run m = Running svc p → (b <= sv_now (pr_serve p))%N;
  md_tasks : ∀ n j, ∃ m, n <= m ∧ ∀ p s, run m = Dropping svc p → f_slots (pr_front p) !! j = Some s →
    occupies (sl_conn s) → ∃ s', slot_at (run (S m)) j = Some s' ∧ slot_next svc s s';
}.

Section exits.
Context (run : nat → Binary) (Hrun : main_run run) (svc : Svc) (n0 : nat).
Context (Hserved : main_served run svc n0) (Hsvc : at_service svc (run n0)).

Lemma run_service n : n0 <= n → at_service svc (run n).
Proof using Hrun Hsvc.
  intros Hn. apply (kept n0 (λ n, at_service svc (run n)) n0); [|lia|done..]. intros m _ Hm.
  destruct (Hrun m) as [Hst| ->]; [by eapply main_step_service|done].
Qed.

Lemma run_rank n m : n <= m → rank (run n) <= rank (run m).
Proof using Hrun.
  intros Hm. apply (kept n (λ m, rank (run n) <= rank (run m)) n); [|lia..]. intros k _ Hk.
  destruct (Hrun k) as [Hst%main_step_rank| ->]; lia.
Qed.

(** A phase with something to do, once [X] holds, is left. *)
Lemma main_phase_left r (X : nat → Prop) n :
  (∀ m, n0 <= m → rank (run m) = r → X m → due (run m)) →
  (∀ m, n0 <= m → rank (run m) = r → rank (run (S m)) = r → X m → X (S m)) →
  n0 <= n → rank (run n) = r → X n → ∃ m, n <= m ∧ r < rank (run m).
Proof using Hserved Hrun.
  intros Hdue Hstay Hn Hr HX.
  apply (until n0 (λ m, n0 <= m ∧ rank (run m) = r ∧ X m) _ (λ m, rank (run m) < rank (run (S m)))); [|..|done|done].
  - intros k. destruct (md_main _ _ _ Hserved k) as (m & Hm & HT). exists m. split; [done|].
    intros (Hm' & Hr' & HX'). by apply HT, Hdue.
  - intros m Hm (_ & Hr' & HX'). pose proof (run_rank m (S m)). destruct (decide (rank (run (S m)) = r)); [left|right; lia].
    split_and!; [lia|done|by apply Hstay].
  - intros m Hm (_ & Hr' & _) HT. lia.
Qed.

(** The drain, since [since], at the time [now]. *)
Definition drains (since now : N) (b : Binary) : Prop :=
  ∃ p k, b = Running svc p ∧ sv_phase (pr_serve p) = Draining since k ∧ (now <= sv_now (pr_serve p))%N.

Lemma drains_stays since now b b' : main_step b b' → rank b' = 2 → drains since now b → drains since now b'.
Proof using Type.
  intros Hst Hr (p & k & -> & Hph & Hnow). inversion Hst as [| |? ? p' Hp|? ? ? ? E| |]; subst; [|done].
  destruct Hp as [sv sv' sd sd' front conn Hsv _|sv sd front conn c q _ _|sv sd front conn ev _]; [|by eexists _, _..].
  cbn [pr_serve rank] in *. eexists _, k. split; [done|]. cbn [pr_serve].
  inversion Hsv; subst; cbn [sv_phase sv_now] in *; try done; split; (done || lia).
Qed.

Lemma drain_left n : n0 <= n → rank (run n) = 2 → ∃ m, n <= m ∧ 2 < rank (run m).
Proof using Hserved Hrun Hsvc.
  intros Hn Hr. assert (∃ since, drains since 0 (run n)) as [since Hd].
  { destruct (run_service n Hn) as (p & [E|[E|E]]); rewrite E in Hr |- *; try done. cbn [rank] in Hr.
    destruct (sv_phase (pr_serve p)) as [|since k|] eqn:Eph; try done. exists since, p, k. split_and!; [done..|lia]. }
  assert (∀ now m, rank (run m) = 2 → rank (run (S m)) = 2 → drains since now (run m) → drains since now (run (S m))) as Hstay.
  { intros now m _ Hr2 Hd2. destruct (Hrun m) as [Hst| ->]; [by eapply drains_stays|done]. }
  destruct (until n0 (λ m, rank (run m) = 2 ∧ drains since 0 (run m))
    (λ m, 2 < rank (run m) ∨ rank (run m) = 2 ∧ drains since (since + drain_limit) (run m))
    (λ m, drains since (since + drain_limit) (run m)) n) as (m & Hm & [?|[Hr' Hd']]); [..|by exists m|].
  - intros k. destruct (md_time _ _ _ Hserved k (since + drain_limit)) as (m & Hm & HT). exists m. split; [done|].
    intros (_ & p & j & E & Hph & _). exists p, j. split_and!; [done..|by apply HT].
  - intros m Hm [Hr' Hd']. pose proof (run_rank m (S m)). destruct (decide (rank (run (S m)) = 2)); [left; eauto|right; left; lia].
  - intros m Hm [Hr' Hd'] HT. pose proof (run_rank m (S m)). destruct (decide (rank (run (S m)) = 2)); [right; eauto|left; lia].
  - done.
  - done.
  - destruct (main_phase_left 2 (λ m, drains since (since + drain_limit) (run m)) m) as (m' & Hm' & ?);
      [| |lia|done..|exists m'; split; [lia|done]].
    + intros k _ _ (p & j & -> & Hph & Hnow). unfold due. rewrite Hph. by right.
    + intros k _. apply Hstay.
Qed.

Definition dropping (m : nat) : Prop := ∃ p, run m = Dropping svc p.

Lemma dropping_rank m : n0 <= m → rank (run m) = 4 ↔ dropping m.
Proof using Hrun Hsvc.
  intros Hm. split; [|by intros [p ->]]. intros Hr. destruct (run_service m Hm) as (p & [E|[E|E]]); [|by exists p|]; rewrite E in Hr.
  - cbn [rank] in Hr. by destruct (sv_phase _).
  - done.
Qed.

Abbreviation slots n := (slot_at (run n)).

Lemma main_quiet_stays m j : n0 <= m → quiet (λ n, slots n) j m → quiet (λ n, slots n) j (S m).
Proof using Hserved Hrun Hsvc.
  intros Hm Hq s Hs. destruct (Hrun m) as [Hst|E]; [|rewrite E in Hs; by apply Hq].
  destruct (main_step_slots _ _ _ Hst (run_service m Hm)) as [E|(c & ev & E & E')]; [rewrite E in Hs; by apply Hq|].
  pose proof (md_requests _ _ _ Hserved m j Hm ltac:(by eexists)) as Hj. rewrite E in Hj. rewrite E' in Hs.
  eapply slot_over; [exact Hj| |exact Hs]. intros s'. rewrite <- E. apply Hq.
Qed.

Lemma drop_left n : n0 <= n → rank (run n) = 4 → ∃ m, n <= m ∧ 4 < rank (run m).
Proof using Hserved Hrun Hsvc.
  intros Hn Hr. assert (∀ m j s, n0 <= m → slots m j = Some s → occupies (sl_conn s) →
    ∃ s', slots (S m) j = Some s' ∧ (s' = s ∨ slot_next svc s s')) as Hstep.
  { intros m j s Hm Hs Ho. destruct (Hrun m) as [Hst| ->]; [|by exists s; auto].
    destruct (main_step_slots _ _ _ Hst (run_service m Hm)) as [E|(c & ev & E & E')]; [exists s; rewrite E; auto|].
    rewrite E in Hs. destruct (slot_goes (world svc) (mapper svc) (config svc) serialize status_head to_http_response c ev j s Hs Ho)
      as (s' & Hs' & H). exists s'. by rewrite E'. }
  destruct (tasks_end (Sem:=Sem) (world svc) (mapper svc) (config svc) serialize status_head to_http_response (λ n, slots n)
    dropping (λ m, 4 < rank (run m)) n0) with (n := n) (k := match run n0 with
      Running _ p | Dropping _ p | Exited _ p => List.length (f_slots (pr_front p)) | _ => 0 end)
    as (m & Hm & [?|[Hd Hq]]); [..|by exists m|].
  - intros m Hm Hd. apply dropping_rank in Hd; [|done]. pose proof (run_rank m (S m)).
    destruct (decide (rank (run (S m)) = 4)); [left; apply dropping_rank; [lia|done]|right; lia].
  - exact Hstep.
  - apply main_quiet_stays.
  - intros k j. destruct (md_tasks _ _ _ Hserved k j) as (m & Hm & HT). exists m. split; [done|].
    intros s [p E] Hs Ho. rewrite E in Hs. by eapply HT.
  - intros m j Hm Hs. assert (is_Some (slots n0 j)) as Hs0.
    { destruct (decide (is_Some (slots n0 j))); [done|]. exfalso.
      apply (kept n0 (λ m, ¬ is_Some (slots m j)) n0 m); [|lia..|done|done]. intros k Hk Hno Hk'. by apply Hno, (md_requests _ _ _ Hserved). }
    destruct Hs0 as [s Hs0]. destruct (run n0); try done; by eapply lookup_lt_Some.
  - done.
  - by apply dropping_rank.
  - destruct (main_phase_left 4 (λ m, ∀ j, quiet (λ n, slots n) j m) m) as (m' & Hm' & ?); [..|lia| |done|].
    + intros k Hk Hrk Hqk. apply dropping_rank in Hrk as [p E]; [|done]. rewrite E. cbn [due]. intros j s Hs.
      apply (Hqk j). by rewrite E.
    + intros k Hk _ _ Hqk j. by apply main_quiet_stays.
    + by apply dropping_rank; [lia|].
    + exists m'. split; [lia|done].
Qed.

Lemma serving_exits : 1 < rank (run n0) → ∃ m p', n0 <= m ∧ run m = Exited svc p'.
Proof using Hserved Hrun Hsvc.
  intros Hr0. assert (∃ m1, n0 <= m1 ∧ 2 < rank (run m1)) as (m1 & Hm1 & H1).
  { destruct (decide (rank (run n0) = 2)) as [Hr|]; [by apply drain_left|exists n0; lia]. }
  assert (∃ m2, n0 <= m2 ∧ 3 < rank (run m2)) as (m2 & Hm2 & H2).
  { destruct (decide (rank (run m1) = 3)) as [Hr|]; [|exists m1; lia].
    destruct (main_phase_left 3 (λ _, True) m1) as (m & Hm & ?); [|done..|exists m; lia].
    intros m Hm Hr' _. destruct (run_service m Hm) as (p' & [E'|[E'|E']]); rewrite E' in Hr' |- *; try done.
    cbn [rank due] in *. by destruct (sv_phase (pr_serve p')). }
  assert (∃ m3, n0 <= m3 ∧ 4 < rank (run m3)) as (m3 & Hm3 & H3).
  { destruct (decide (rank (run m2) = 4)) as [Hr|]; [|exists m2; lia].
    destruct (drop_left m2) as (m & Hm & ?); [lia|done|exists m; lia]. }
  exists m3. destruct (run_service m3 Hm3) as (p' & [E'|[E'|E']]); rewrite E' in H3; [| |by exists p'].
  - cbn [rank] in H3. destruct (sv_phase (pr_serve p')); lia.
  - cbn [rank] in H3. lia.
Qed.
End exits.

(** C11 The binary that was told to stop exits, whatever its clients do: when the
    main thread, the tasks and the clock keep moving and no more requests are
    read, [serve] returns, at the latest for the lack of time, what is left is
    dropped, and the process exits. *)
Theorem main_terminates run svc n0 p since k :
  main_run run → main_served run svc n0 → run n0 = Running svc p → sv_phase (pr_serve p) = Draining since k →
  ∃ m p', n0 <= m ∧ run m = Exited svc p'.
Proof using Type.
  intros Hrun Hserved E Hph. apply serving_exits; [done..|rewrite E; by exists p; left|].
  rewrite E. cbn [rank]. rewrite Hph. lia.
Qed.

(** ** What it leaves behind *)

Context `{!SemaphoreLaws Sem}.

(** C8 The binary, from its arguments to its exit. If it fails, it is before it
    serves anything. If it exits, it served the configuration it loaded, was
    shut down, and waited for its connections as long as a drain may take;
    every request was answered to the end or dropped, every permit is back, and
    each line of the log that says a request started is followed by the one
    that says it is over. And once [serve] has returned it can exit, whatever
    is at work. *)
Theorem main_ends b :
  (∀ client, header_law (cluster client)) →
  (∀ c, load args = Ok c → (N.max (max_concurrent_requests c) 1 ≤ max_permits (Sem:=Sem))%N) →
  main_reach b →
  match b with
  | Starting => True
  | Failed e => startup args = Err e ∧ ∀ b', ¬ main_step b b'
  | Running svc _ => load args = Ok (config svc)
  | Dropping svc p => load args = Ok (config svc) ∧ ∃ p', rtc main_step b (Exited svc p') ∧ pr_serve p' = pr_serve p
  | Exited svc p =>
      let front := pr_front p in
      (gw_seq (f_gw front) <= U64_MOD)%N →
      load args = Ok (config svc) ∧
      (∃ since n, sv_phase (pr_serve p) = Returned since n ∧ List.length (sv_conns (pr_serve p)) = n ∧
         (all_closed (sv_conns (pr_serve p)) = true ∨ (since + drain_limit <= sv_now (pr_serve p))%N)) ∧
      all_over front ∧
      permits (f_sem front) = N.max (max_concurrent_requests (config svc)) 1 ∧
      (∀ id op, Started id op ∈ gw_events (f_gw front) →
         ∃ path n ok, filter (λ e, event_id e = id) (gw_events (f_gw front)) = lines id op path n ok) ∧
      ∀ b', ¬ main_step b b'
  end.
Proof using All.
  intros Hl Hcap Hr. pose proof (main_reach_ok _ Hr) as Hok.
  assert (∀ svc, (∃ listener, startup args = Ok (listener, svc)) → load args = Ok (config svc)) as Hload.
  { intros svc [l Hs]. by eapply startup_loads. }
  destruct b as [|e|svc p|svc p|svc p]; cbn [main_ok] in Hok.
  - done.
  - split; [done|]. by intros b' ?%final_state.
  - by apply Hload, Hok.
  - split; [by apply Hload, Hok|apply can_exit].
  - intros front Hseq. destruct Hok as (Hs & (now & sd & Hp%process_reach_ok) & (since & n & Hph) & Hover).
    specialize (Hload _ Hs). destruct (po_run _ _ _ _ _ _ _ Hp) as [evs Hrun].
    pose proof (po_serve _ _ _ _ _ _ _ Hp) as Hsv. unfold serve_ok in Hsv. rewrite Hph in Hsv.
    split_and!; [done|by exists since, n; tauto|done|..].
    + unfold front. rewrite Hrun in Hover |- *. apply accounted_over; [|exact Hover]. by apply front_accounted, Hcap.
    + intros id op. unfold front in *. rewrite Hrun in *. intros He.
      destruct (front_started _ _ _ serialize status_head to_http_response evs id op (Hl _) Hseq He)
        as [?|(_ & i & s & Hi & Hc & _)]; [done|]. destruct (Hover _ _ Hi). by rewrite Hc.
    + by intros b' ?%final_state.
Qed.
End main.


(** ** Witnesses *)

(** A binary on the small file system: its client hangs on to a download, and
    the drain runs out of time. *)

(** ** Witnesses *)

(** A binary on the small file system. *)
Abbreviation demo_startup := (main (L:=list_lru str) (R:=str) (Sem:=N) (AddrError:=unit) (BindError:=unit) tt
  (λ _ b, b) (λ _ b, b) (λ _ b, b) (λ _ b, b) (λ b : unit, Ok b) (λ _ : unit, []) (λ a : str, Ok a) (λ a : str, Ok a)
  (λ _ : CliArgs, @Ok Config (ConfigError unit unit) demo_one_slot)).
Abbreviation demo_svc := (build_service (Client:=unit) (L:=list_lru str) (R:=str) (Sem:=N)
  (new_gateway tt demo_one_slot) demo_one_slot).
Abbreviation demo_ctrl_c := (λ sd : bool, if sd then Some (@Ok unit unit tt, false) else None).
Abbreviation demo_exec := (process_exec (Sem:=N) demo_world demo_paths demo_one_slot demo_serialize id (λ _, Err tt)
  (await_ctrl_c demo_ctrl_c)).
Abbreviation demo_exec_all := (process_run (Sem:=N) demo_world demo_paths demo_one_slot demo_serialize id (λ _, Err tt)
  (await_ctrl_c demo_ctrl_c)).
Abbreviation demo_main_step := (main_step (Sem:=N) (AddrError:=unit) (BindError:=unit) tt (λ _ b, b) (λ _ b, b) (λ _ b, b)
  (λ _ b, b) (λ b : unit, Ok b) (λ _ : unit, []) (λ a : str, Ok a) (λ a : str, Ok a)
  (λ _ : CliArgs, @Ok Config (ConfigError unit unit) demo_one_slot) (λ _ : unit, demo_world) demo_serialize id
  (λ _, Err tt) demo_ctrl_c demo_args).

Definition demo_call := serve_call (Client:=unit) (IoError:=unit) (Head:=N) (HttpError:=unit) demo_svc 5 true.

(** A client is sent the head of a download and one chunk, while the signal comes;
    it does not go on reading, and the drain runs out of time. *)
Definition demo_stalls : list (process_event (R:=str)) :=
  [PAccept; PRequest 0 (ReqGetObject demo_get); PSignal] ++ map PFront (replicate 20 (FTurn 0) ++ (FAnswer 0 :: replicate 2 (FPoll 0))).

Definition demo_stalled := or_else (demo_exec_all demo_call demo_stalls) demo_call.
Definition demo_late := or_else (demo_exec demo_stalled (PTime 10005)) demo_stalled.
Definition demo_gave_up := or_else (demo_exec demo_late PTimeout) demo_late.
Definition demo_dropped := or_else (demo_exec demo_gave_up (PFront (FDrop 0))) demo_gave_up.

(** Given a chunk, and holding its permit; and then dropped, with its permit. *)
Example demo_stalled_seen :
  map (λ p, (sv_phase (pr_serve p), map sl_chunks (f_slots (pr_front p)), f_sem (pr_front p)))
    [demo_stalled; demo_gave_up; demo_dropped] =
  [(Draining 5 1, [[Ok $"hell"]], 0%N); (Returned 5 1, [[Ok $"hell"]], 0%N); (Returned 5 1, [[Ok $"hell"]], 1%N)].
Proof. vm_compute. reflexivity. Qed.

Lemma or_else_some {A} (x : option A) d : bool_decide (is_Some x) = true → x = Some (or_else x d).
Proof. intros [y ->]%bool_decide_eq_true. done. Qed.

Lemma all_over_check {L R IoError Sem Head HttpError} (c : Front (L:=L) (R:=R) (IoError:=IoError) (Sem:=Sem) (Head:=Head) (HttpError:=HttpError)) :
  forallb (λ s, N.eqb (holds (sl_conn s)) 0) (f_slots c) = true → all_over c.
Proof.
  rewrite forallb_forall. intros H i s Hi%list_elem_of_lookup_2%list_elem_of_In%H%N.eqb_eq Ho%holds_occupies. lia.
Qed.

Lemma demo_startup_ok : demo_startup demo_args = Ok (listen_addr demo_one_slot, demo_svc).
Proof. reflexivity. Qed.

Lemma demo_exec_runs p ev p' : demo_exec p ev = Some p' → demo_main_step (Running demo_svc p) (Running demo_svc p').
Proof. intros H. apply main_runs. by eapply process_exec_sound. Qed.

Lemma demo_stalled_reach : rtc demo_main_step Starting (Running demo_svc demo_stalled).
Proof.
  eapply rtc_l; [exact (main_calls tt _ _ _ _ _ _ _ _ _ _ _ _ _ _ demo_args _ demo_svc 5 true demo_startup_ok)|].
  assert (rtc (process_step (Sem:=N) demo_world demo_paths demo_one_slot demo_serialize id (λ _, Err tt)
    (await_ctrl_c demo_ctrl_c)) demo_call demo_stalled) as H.
  { apply process_run_steps with (evs := demo_stalls). apply or_else_some. vm_compute. reflexivity. }
  fold demo_call. revert H. generalize demo_call, demo_stalled. induction 1 as [|p1 p2 p3 Hst _ IH]; [apply rtc_refl|].
  eapply rtc_l; [by apply main_runs|exact IH].
Qed.

Abbreviation demo_state := (Binary (Client:=unit) (L:=list_lru str) (R:=str) (Sem:=N) (SocketAddr:=str) (AddrError:=unit)
  (BindError:=unit) (FileError:=unit) (TomlError:=unit) (IoError:=unit) (Head:=N) (HttpError:=unit) (CtrlC:=bool)).

(** It exits without what the client did not read. *)
Definition demo_binary (n : nat) : demo_state :=
  match n with
  | 0 => Running demo_svc demo_stalled
  | 1 => Running demo_svc demo_late
  | 2 => Running demo_svc demo_gave_up
  | 3 => Dropping demo_svc demo_gave_up
  | 4 => Dropping demo_svc demo_dropped
  | _ => Exited demo_svc demo_dropped
  end.

Lemma demo_binary_step n : n < 5 → demo_main_step (demo_binary n) (demo_binary (S n)).
Proof.
  intros Hn. destruct n as [|[|[|[|[|n]]]]]; [..|lia]; cbn [demo_binary].
  - apply (demo_exec_runs _ (PTime 10005)), or_else_some. vm_compute. reflexivity.
  - apply (demo_exec_runs _ PTimeout), or_else_some. vm_compute. reflexivity.
  - eapply main_returns. vm_compute. reflexivity.
  - apply main_drops. apply (process_exec_sound _ _ _ _ _ _ _ _ (PFront (FDrop 0))).
    change (demo_exec demo_gave_up (PFront (FDrop 0)) = Some demo_dropped).
    apply or_else_some. vm_compute. reflexivity.
  - apply main_exits, all_over_check. vm_compute. reflexivity.
Qed.

Lemma demo_binary_run n : demo_main_step (demo_binary n) (demo_binary (S n)) ∨ demo_binary (S n) = demo_binary n.
Proof.
  destruct (decide (n < 5)) as [Hn|Hn]; [left; by apply demo_binary_step|right].
  by destruct n as [|[|[|[|[|n]]]]]; [lia..|].
Qed.

Lemma demo_binary_reach n : rtc demo_main_step Starting (demo_binary n).
Proof.
  induction n as [|n IH]; [exact demo_stalled_reach|].
  destruct (demo_binary_run n) as [Hst| ->]; [|exact IH]. eapply rtc_r; [exact IH|exact Hst].
Qed.

Lemma demo_binary_exited n : 5 <= n → demo_binary n = Exited demo_svc demo_dropped.
Proof. intros Hn. by destruct n as [|[|[|[|[|n]]]]]; [lia..|]. Qed.

Example main_terminates_witness : ∃ m p', 0 <= m ∧ demo_binary m = Exited demo_svc p'.
Proof.
  assert (∀ j n, is_Some (slot_at (demo_binary n) j) → j = 0) as Hone.
  { intros j n [s Hs]. destruct n as [|[|[|[|[|n]]]]]; apply lookup_lt_Some in Hs; revert Hs; cbn [demo_binary];
      (match goal with |- j < ?l → _ => assert (l = 1) as -> by (vm_compute; reflexivity) end); lia. }
  assert (∀ n, is_Some (slot_at (demo_binary n) 0)) as Hzero.
  { intros n. destruct n as [|[|[|[|[|n]]]]]; apply lookup_lt_is_Some_2; cbn [demo_binary];
      (match goal with |- 0 < ?l => assert (l = 1) as -> by (vm_compute; reflexivity) end); lia. }
  assert (∀ n, 5 <= 5 + n) as H5 by (intros; lia).
  apply (main_terminates tt (λ _ b, b) (λ _ b, b) (λ _ b, b) (λ _ b, b) (λ b : unit, Ok b) (λ _ : unit, [])
    (λ a : str, Ok a) (λ a : str, Ok a) (λ _ : CliArgs, Ok demo_one_slot) (λ _ : unit, demo_world) demo_serialize id
    (λ _, Err tt) demo_ctrl_c demo_args demo_binary demo_svc 0 demo_stalled 5 1 demo_binary_run); [|done|vm_compute; reflexivity].
  split.
  - intros n j _ Hj. rewrite (Hone j _ Hj). apply Hzero.
  - intros n. exists (5 + n). split; [lia|]. rewrite (demo_binary_exited _ (H5 n)). by intros [].
  - intros n b. exists (5 + n). split; [lia|]. intros p E. rewrite (demo_binary_exited _ (H5 n)) in E. done.
  - intros n j. exists (5 + n). split; [lia|]. intros p s E. rewrite (demo_binary_exited _ (H5 n)) in E. done.
Defined.

Example main_ends_witness :
  let front := pr_front demo_dropped in
  @Ok Config (ConfigError unit unit) demo_one_slot = Ok (hg_config (gateway demo_svc)) ∧
  (∃ since n, sv_phase (pr_serve demo_dropped) = Returned since n ∧ List.length (sv_conns (pr_serve demo_dropped)) = n ∧
     (all_closed (sv_conns (pr_serve demo_dropped)) = true ∨ (since + drain_limit <= sv_now (pr_serve demo_dropped))%N)) ∧
  all_over front ∧ permits (f_sem front) = 1%N ∧
  (∀ id op, Started id op ∈ gw_events (f_gw front) →
     ∃ path n ok, filter (λ e, event_id e = id) (gw_events (f_gw front)) = lines id op path n ok) ∧
  ∀ b', ¬ demo_main_step (Exited demo_svc demo_dropped) b'.
Proof.
  apply (main_ends tt (λ _ b, b) (λ _ b, b) (λ _ b, b) (λ _ b, b) (λ b : unit, Ok b) (λ _ : unit, [])
    (λ a : str, Ok a) (λ a : str, Ok a) (λ _ : CliArgs, Ok demo_one_slot) (λ _ : unit, demo_world) demo_serialize id
    (λ _, Err tt) demo_ctrl_c demo_args (Exited demo_svc demo_dropped)).
  - intros _. exact demo_header.
  - intros c [= <-]. by vm_compute.
  - exact (demo_binary_reach 5).
  - by vm_compute.
Defined.
