(* ===== verification/PyService.v ===== *)
(** The Python process: the object of [Bindings], and what its servers serve.

    Each call of [serve], of a thread of [start] or of [serve_blocking], has a
    gateway of its own ([HdfsGateway::from_config]), with its caches, its cap
    and its exchanges. The counter of the requests and the log are the
    process's: [REQUEST_SEQ] is a static. When [serve] is over, the runtime is
    dropped: [tokio] drops each task where it awaits, and waits for that. *)

From stdpp Require Import functions.
From S2P Require Import Prelude Prog Bytes Config Path Range Metadata HdfsError Listing.
From S2P Require Import Cache Caches SortedListing Merge Paging Gateway ListObjects Backpressure Server Bindings.
From S2P Require Import Invariant Objects Listings Requests RequestLog Demo Served Front Process Progress.

#[local] Arguments mkHttpResponse {Head B}.
#[local] Arguments resp_head {Head B}.
#[local] Arguments resp_body {Head B}.

(** A server: that of a thread, or that of a call of [serve_blocking]. *)
Abbreviation Key := (nat + nat)%type.

(** How far it is: its runtime is not there yet, [serve] runs, what is left of
    the runtime ends, or it is gone. *)
Inductive Stage :=
| NotYet
| Serves (s : ServeState)
| Winding
| Over.

Section service.
Context {Nt : Type} `{!Notify Nt} `{!PyBorrow} {SocketAddr Listener : Type}.
Context (parse_addr : str → result SocketAddr str) (addr_string : SocketAddr → str).
Context {L : Type → Type} `{!Lru str L} {R IoError : Type} `{!Base64}.
Context {Sem Head HttpError : Type} `{!Semaphore Sem}.
(** The cluster, as each server sees it, and the object. *)
Context (w : Key → World (R:=R) (IoError:=IoError)) (g0 : Bindings.Gateway).

Abbreviation config := (py_config g0).
Abbreviation mapper := (new_mapper config).
Abbreviation Out := (Outcome R IoError).
Abbreviation Body := (FrontBody (L:=L) (R:=R) (IoError:=IoError)).

Context (serialize : Out → result (Head * option str) HttpError) (status_head : N → Head).
Context (to_http_response : S3Error → result (HttpResponse (Head:=Head) Body) HttpError).

Abbreviation Front := (Front (L:=L) (R:=R) (IoError:=IoError) (Sem:=Sem) (Head:=Head) (HttpError:=HttpError)).
Abbreviation Proc := (Proc (Nt:=Nt) (SocketAddr:=SocketAddr) (Listener:=Listener)).
Abbreviation pystep := (py_step parse_addr addr_string).
Abbreviation fstep k := (front_step (Sem:=Sem) (w k) mapper config serialize status_head to_http_response).

(** The connections, the exchanges, and the connection of each exchange. *)
Record Server := mkServer {
  se_conns : list bool;
  se_front : Front;
  se_conn : list nat;
}.

Definition thread_stage (t : Thread (SocketAddr:=SocketAddr) (Listener:=Listener)) : Stage :=
  match th_phase t with Booting => NotYet | Serving s => Serves s | Closing => Winding | Exited => Over end.

Definition call_stage (c : option (Call (SocketAddr:=SocketAddr) (Listener:=Listener))) : Stage :=
  match c with Some (InServe _ (Some s)) => Serves s | Some _ => NotYet | None => Over end.

Definition stage (p : Proc) (k : Key) : Stage :=
  match k with
  | inl h => or_else (thread_stage <$> p_threads p !! h) NotYet
  | inr i => or_else (call_stage <$> p_calls p !! i) NotYet
  end.

Record Service := mkService {
  ps_proc : Proc;
  ps_servers : Key → option Server;
  ps_seq : N;
  ps_log : list LogEvent;
}.

(** What a step of the process does to a server, *)
Definition moved (a b : Stage) (x : option Server) : option Server :=
  match a, b, x with
  | NotYet, Serves s, _ => Some (mkServer (sv_conns s) (front_new config) [])
  | Serves _, Serves s, Some sv => Some (mkServer (sv_conns s) (se_front sv) (se_conn sv))
  | _, _, _ => x
  end.

(** and when: the task of a connection ends with its exchanges, and the runtime
    when nothing is left to drop. *)
Definition may_move (a b : Stage) (x : option Server) : Prop := ∀ sv, x = Some sv →
  match a, b with
  | _, Over => all_over (se_front sv)
  | Serves s, Serves s' => ∀ c, sv_conns s !! c = Some true → sv_conns s' !! c = Some false →
      conn_over c (se_front sv) (se_conn sv)
  | _, _ => True
  end.

(** A server sees the counter and the log as the others left them. *)
Definition with_shared (seq : N) (log : list LogEvent) (f : Front) : Front :=
  mkFront (f_sem f) (f_slots f) (mkGwState (gw_caches (f_gw f)) seq (gw_tick (f_gw f)) log).

Definition on_server (ps : Service) (k : Key) (sv : Server) (ev : front_event (R:=R)) (conn : list nat) : Service :=
  let f := fstep k (with_shared (ps_seq ps) (ps_log ps) (se_front sv)) ev in
  mkService (ps_proc ps) (<[k := Some (mkServer (se_conns sv) f conn)]> (ps_servers ps)) (gw_seq (f_gw f)) (gw_events (f_gw f)).

Definition at_work (a : Stage) : Prop := match a with Serves _ | Winding => True | _ => False end.

Inductive ps_step : Service → option (Method * PyOutcome) → Service → Prop :=
| ps_python p l p' srv seq log :
    pystep p l p' → (∀ k, may_move (stage p k) (stage p' k) (srv k)) →
    ps_step (mkService p srv seq log) l (mkService p' (λ k, moved (stage p k) (stage p' k) (srv k)) seq log)
(* a request on a connection that is there *)
| ps_request ps k sv c q :
    at_work (stage (ps_proc ps) k) → ps_servers ps k = Some sv →
    se_conns sv !! c = Some true → is_operation q = true →
    ps_step ps None (on_server ps k sv (FArrive q) (se_conn sv ++ [c]))
| ps_front ps k sv ev :
    at_work (stage (ps_proc ps) k) → ps_servers ps k = Some sv → (∀ q, ev ≠ FArrive q) →
    ps_step ps None (on_server ps k sv ev (se_conn sv)).

Definition ps_any (ps ps' : Service) : Prop := ∃ l, ps_step ps l ps'.

Definition ps_initial : Service := mkService (py_initial g0) (λ _, None) 0 [].
Definition ps_reach (ps : Service) : Prop := rtc ps_any ps_initial ps.

(** ** The stages *)

Inductive stage_next : Stage → Stage → Prop :=
| next_stay a : stage_next a a
| next_begin s : stage_next NotYet (Serves s)
| next_serve s s' sd sd' : serve_step notified (s, sd) (s', sd') → stage_next (Serves s) (Serves s')
| next_wind a : a ≠ Over → stage_next a Winding
| next_over a : stage_next a Over.

(** A list of what has a stage: an item is replaced, or a new one added. *)
Lemma stage_insert {A} (f : A → Stage) (l : list A) i j x y :
  l !! i = Some x → stage_next (f x) (f y) →
  stage_next (or_else (f <$> l !! j) NotYet) (or_else (f <$> <[i := y]> l !! j) NotYet).
Proof using Type.
  intros Hi Hn. destruct (decide (j = i)) as [->|Hne]; [|rewrite list_lookup_insert_ne by done; constructor].
  rewrite Hi, list_lookup_insert_eq by (by eapply lookup_lt_Some). exact Hn.
Qed.

Lemma stage_snoc {A} (f : A → Stage) (l : list A) j x :
  f x = NotYet → stage_next (or_else (f <$> l !! j) NotYet) (or_else (f <$> (l ++ [x]) !! j) NotYet).
Proof using Type.
  intros Hx. destruct (l !! j) as [y|] eqn:E; [rewrite (lookup_app_l_Some _ _ _ _ E); constructor|].
  destruct ((l ++ [x]) !! j) as [y|] eqn:E'; [|constructor].
  apply lookup_app_Some in E' as [E'|[_ [_ <-]%list_lookup_singleton_Some]]; [congruence|].
  cbn. rewrite Hx. constructor.
Qed.

Lemma stage_step p l p' k : pystep p l p' → stage_next (stage p k) (stage p' k).
Proof using Type.
  intros Hst. destruct Hst as [| |g sd ts cs boot|? ? ? cs i h t r g' Hi Ht Hr| |g sd ts cs
    |g sd ts cs i Hi Hg|? ? ? cs i h Hi Hg|g sd ts cs i h t Hi Ht Hf|g sd ts cs boot Hm
    |? ? ? cs i boot s sd' o Hi Hb|? ? ts cs h t t' sd' Ht Hs]; try constructor;
    (destruct k as [h'|j]; cbn [stage p_threads p_calls]; [try constructor|]).
  - by apply stage_snoc.
  - by apply stage_snoc.
  - eapply stage_insert; [exact Hi|constructor].
  - by apply stage_snoc.
  - eapply stage_insert; [exact Hi|constructor].
  - eapply stage_insert; [exact Hi|constructor].
  - eapply stage_insert; [exact Hi|constructor].
  - by apply stage_snoc.
  - eapply stage_insert; [exact Hi|]. inversion Hb; subst; cbn [call_stage]; first [by constructor|by eapply next_serve].
  - eapply stage_insert; [exact Ht|]. inversion Hs; subst; cbn [thread_stage th_phase];
      first [by constructor|by eapply next_serve|idtac].
    unfold booted. destruct (server_boot _ _ _ _) as [[?|?]|]; by constructor.
  - constructor.
Qed.

(** ** Who has the handle of a server *)

Context `{Laws : !NotifyLaws Nt} `{RuleLaws : !PyBorrowLaws}.

(** Not only while it serves, as [py_inv] has it, but until its thread is gone. *)
Definition bound_owned (p : Proc) : Prop := ∀ h t addr,
  p_threads p !! h = Some t → th_message t = Some (Ok addr) → is_finished t = false → Bindings.owned p h.

Lemma owned_calls g g' (sd sd' : Nt) (ts ts' : list (Thread (SocketAddr:=SocketAddr) (Listener:=Listener))) cs cs' h :
  Bindings.owned (mkProc g sd ts cs) h → py_thread g' = py_thread g →
  (∀ j c, cs !! j = Some (Some c) → c = InStart h ∨ c = InJoin h → cs' !! j = Some (Some c)) →
  Bindings.owned (mkProc g' sd' ts' cs') h.
Proof using Type.
  intros [Hg|(j & Hj)] E Hc; [left; cbn [p_gateway] in *; congruence|]. right. exists j. cbn [p_calls] in *.
  destruct Hj as [Hj|Hj]; [left|right]; apply Hc; auto.
Qed.

Lemma owned_native g sd sd' ts cs h t t' :
  py_inv parse_addr addr_string g0 (mkProc g sd ts cs) → ts !! h = Some t →
  thread_step parse_addr addr_string (py_config g) (t, sd) (t', sd') →
  bound_owned (mkProc g sd ts cs) → (∃ addr, th_message t' = Some (Ok addr)) → is_finished t' = false →
  Bindings.owned (mkProc g sd' (<[h := t']> ts) cs) h.
Proof using Type.
  intros Hinv Ht Hst Hb [addr Hm] Hf. apply (owned_calls g g sd sd' ts _ cs); [|done|auto].
  pose proof (inv_threads _ _ _ _ Hinv h t Ht) as Hok. cbn [p_gateway] in *.
  pose proof (inv_config _ _ _ _ Hinv) as Ec. cbn [p_gateway] in Ec. rewrite Ec in Hst.
  destruct (thread_step_ok _ _ _ _ _ _ _ Hst Hok) as (_ & _ & _ & Hmsg & _).
  assert ({th_phase t = Booting} + {th_phase t ≠ Booting}) as [E|E] by (destruct (th_phase t); by (left + right)).
  - apply (inv_alive _ _ _ _ Hinv h t Ht). unfold Bindings.alive. by rewrite E.
  - apply (Hb h t addr Ht); [by rewrite <- Hmsg|]. unfold is_finished in *. inversion Hst; subst; done.
Qed.

Lemma bound_owned_step p l p' :
  py_inv parse_addr addr_string g0 p → pystep p l p' → bound_owned p → bound_owned p'.
Proof using RuleLaws.
  intros Hinv Hst Hb.
  assert (∀ k h, Bindings.owned p k → Bindings.owned p h → k = h) as Huniq by (intros; by eapply owned_unique).
  destruct Hst as [| |g sd ts cs boot Hm Hn|g sd ts cs i h t r g' Hi Ht Hr|g sd ts cs h t Hm Hg Ht Hf|g sd ts cs Hm _
    |g sd ts cs i Hi Hg|g sd ts cs i h Hi Hg|g sd ts cs i h t Hi Ht Hf|g sd ts cs boot Hm
    |g sd ts cs i boot s sd' o Hi Hs|g sd ts cs h t t' sd' Ht Hs]; try done;
    intros k u addr Hk Hu Huf; cbn [p_threads] in *.
  - apply lookup_app_Some in Hk as [Hk|[_ [_ <-]%list_lookup_singleton_Some]]; [|done].
    destruct (Hb k u addr Hk Hu Huf) as [E|(j & [Hj|Hj])]; [cbn in E; congruence|by destruct (may_mut_idle cs j _ Hm Hj)..].
  - pose proof (Hb k u addr Hk Hu Huf) as Ho. assert (k = h) as -> by (apply Huniq; [done|right; eauto]).
    rewrite Ht in Hk. injection Hk as <-. unfold start_receive in Hr. rewrite Hu in Hr. injection Hr as _ <-. by left.
  - assert (k = h) as -> by (apply Huniq; [by eapply Hb|by left]). congruence.
  - eapply owned_calls; [by eapply Hb|done|]. intros j c Hj _. by apply lookup_app_l_Some.
  - eapply owned_calls; [by eapply Hb|done|]. intros j c Hj Hc. rewrite list_lookup_insert_ne; [done|].
    intros ->. rewrite Hi in Hj. injection Hj as <-. by destruct Hc.
  - assert (k = h) as -> by (apply Huniq; [by eapply Hb|by left]). right. exists i. right. cbn [p_calls].
    apply list_lookup_insert_eq. by eapply lookup_lt_Some.
  - assert (k = h) as -> by (apply Huniq; [by eapply Hb|right; eauto]). congruence.
  - eapply owned_calls; [by eapply Hb|done|]. intros j c Hj _. by apply lookup_app_l_Some.
  - eapply owned_calls; [by eapply Hb|done|]. intros j c Hj Hc. rewrite list_lookup_insert_ne; [done|].
    intros ->. rewrite Hi in Hj. injection Hj as <-. by destruct Hc.
  - destruct (decide (k = h)) as [E|E].
    + subst k. rewrite list_lookup_insert_eq in Hk by (by eapply lookup_lt_Some). injection Hk as <-.
      eapply owned_native; eauto.
    + rewrite list_lookup_insert_ne in Hk by done. apply (owned_calls g g sd sd' ts _ cs); [by eapply Hb|done|auto].
Qed.

Lemma py_reach_bound p : py_reach parse_addr addr_string g0 p → bound_owned p.
Proof using Laws RuleLaws.
  intros Hr. assert (py_inv parse_addr addr_string g0 p ∧ bound_owned p) as [_ ?]; [|done]. revert p Hr.
  apply (rtc_ind_r (λ p, py_inv parse_addr addr_string g0 p ∧ bound_owned p)).
  - split; [apply py_initial_inv|]. intros h t addr. cbn [py_initial p_threads]. by rewrite lookup_nil.
  - intros p p' _ [l Hst] [Hi Hb]. split; [by eapply py_step_inv|by eapply bound_owned_step].
Qed.

(** ** What holds of every server *)

Context `{SemLaws : !SemaphoreLaws Sem}.
Context (Hcap : (N.max (max_concurrent_requests config) 1 ≤ max_permits (Sem:=Sem))%N).

Record server_ok (sv : Server) : Prop := {
  sk_accounted : accounted config (se_front sv);
  sk_slots : ∀ i s, f_slots (se_front sv) !! i = Some s → slot_ok s;
  sk_conn : List.length (se_conn sv) = List.length (f_slots (se_front sv));
  sk_open : ∀ i s c, f_slots (se_front sv) !! i = Some s → se_conn sv !! i = Some c →
    occupies (sl_conn s) → se_conns sv !! c = Some true;
}.

Definition stage_ok (a : Stage) (x : option Server) : Prop :=
  match a with
  | NotYet => x = None
  | Serves s => ∃ sv, x = Some sv ∧ se_conns sv = sv_conns s
  | Winding => True
  | Over => ∀ sv, x = Some sv → all_over (se_front sv)
  end.

Record ps_inv (ps : Service) : Prop := {
  pv_reach : py_reach parse_addr addr_string g0 (ps_proc ps);
  pv_server : ∀ k sv, ps_servers ps k = Some sv → server_ok sv;
  pv_stage : ∀ k, stage_ok (stage (ps_proc ps) k) (ps_servers ps k);
  pv_bound : ∀ h sv, ps_servers ps (inl h) = Some sv →
    ∃ t addr, p_threads (ps_proc ps) !! h = Some t ∧ th_message t = Some (Ok addr);
}.

Lemma server_ok_new conns : server_ok (mkServer conns (front_new config) []).
Proof using Hcap SemLaws.
  split; cbn [se_front se_conn se_conns]; [by apply accounted_new|by intros i s|done|by intros i s c].
Qed.

Lemma with_shared_ok seq log sv :
  server_ok sv → server_ok (mkServer (se_conns sv) (with_shared seq log (se_front sv)) (se_conn sv)).
Proof using Type. intros [Ha Hsl Hcn Hop]. by split. Qed.

(** The steps keep it, *)
Lemma server_ok_step k sv ev :
  server_ok sv → (∀ q, ev ≠ FArrive q) → server_ok (mkServer (se_conns sv) (fstep k (se_front sv) ev) (se_conn sv)).
Proof using Hcap SemLaws.
  intros [Ha Hsl Hcn Hop] Hev.
  destruct (front_step_occupies (w k) mapper config serialize status_head to_http_response (se_front sv) ev Hev)
    as [Hl Ho].
  split; cbn [se_front se_conn se_conns].
  - by apply accounted_step.
  - by apply front_step_ok.
  - by rewrite Hl.
  - intros i s c Hi Hc Hs. destruct (Ho _ _ Hi) as (s0 & Hi0 & Hs0). eapply Hop; eauto.
Qed.

Lemma server_ok_arrive k sv c q :
  server_ok sv → se_conns sv !! c = Some true → is_operation q = true →
  server_ok (mkServer (se_conns sv) (fstep k (se_front sv) (FArrive q)) (se_conn sv ++ [c])).
Proof using Hcap SemLaws.
  intros [Ha Hsl Hcn Hop] Hc Hq.
  destruct (front_step_arrive (w k) mapper config serialize status_head to_http_response (se_front sv) q Hq) as [s Hs].
  split; cbn [se_front se_conn se_conns].
  - by apply accounted_step.
  - by apply front_step_ok.
  - rewrite Hs, !length_app. by rewrite Hcn.
  - intros i s' c'. rewrite Hs.
    intros [Hi|[Hi [_ <-]%list_lookup_singleton_Some]]%lookup_app_Some
      [Hc'|[Hc' [_ <-]%list_lookup_singleton_Some]]%lookup_app_Some ?; [by eapply Hop|..|done].
    + apply lookup_lt_Some in Hi. lia.
    + apply lookup_lt_Some in Hc'. lia.
Qed.

Lemma moved_ok a b x :
  stage_next a b → stage_ok a x → may_move a b x → (∀ sv, x = Some sv → server_ok sv) →
  stage_ok b (moved a b x) ∧ ∀ sv, moved a b x = Some sv → server_ok sv.
Proof using Hcap SemLaws.
  intros Hn Ha Hm Hx. destruct Hn as [a|s|s s' sd sd' Hst|a Hne|a].
  - destruct a as [|s| |]; cbn [stage_ok moved] in *; [by subst|..|done|done].
    destruct Ha as (sv & -> & E). destruct sv as [conns front conn]. cbn [se_conns se_front se_conn] in *. subst conns.
    split; [by eexists|exact Hx].
  - cbn [stage_ok moved] in *. subst x. split; [by eexists|]. intros sv [= <-]. apply server_ok_new.
  - cbn [stage_ok moved] in *. destruct Ha as (sv & -> & E). specialize (Hm sv eq_refl). cbn in Hm.
    split; [by eexists|]. intros sv' [= <-]. destruct (Hx sv eq_refl) as [Hac Hsl Hcn Hop].
    split; cbn [se_front se_conn se_conns]; [done..|]. intros i sl c Hi Hc Hs. pose proof (Hop _ _ _ Hi Hc Hs) as Ho.
    rewrite E in Ho. destruct (serve_step_conn _ _ _ _ _ _ Hst Ho) as [?|Hcl]; [done|].
    by destruct (Hm c Ho Hcl _ _ Hc Hi).
  - destruct a as [|s| |]; by destruct x.
  - split; [|by destruct a, x]. destruct a as [|s| |]; cbn [stage_ok moved] in *; intros sv Hsv;
      by apply (Hm sv).
Qed.

Lemma thread_message (p : Proc) l (p' : Proc) h t addr :
  py_inv parse_addr addr_string g0 p → pystep p l p' → p_threads p !! h = Some t → th_message t = Some (Ok addr) →
  ∃ t', p_threads p' !! h = Some t' ∧ th_message t' = Some (Ok addr).
Proof using Type.
  intros Hinv Hst Ht Hm. destruct Hst as [| | | | | | | | | | |g sd ts cs j u u' sd' Hu Hs]; cbn [p_threads] in *;
    try (by exists t).
  - exists t. split; [by apply lookup_app_l_Some|done].
  - destruct (decide (j = h)) as [->|Hne]; [|exists t; by rewrite list_lookup_insert_ne].
    rewrite Ht in Hu. injection Hu as <-. exists u'. rewrite list_lookup_insert_eq by (by eapply lookup_lt_Some).
    split; [done|]. pose proof (inv_threads _ _ _ _ Hinv h t Ht) as Hok. unfold thread_ok in Hok.
    inversion Hs; subst; cbn [th_phase th_message] in *; congruence.
Qed.

Lemma serving_bound (p : Proc) h s :
  py_inv parse_addr addr_string g0 p → stage p (inl h) = Serves s →
  ∃ t addr, p_threads p !! h = Some t ∧ th_message t = Some (Ok addr).
Proof using Type.
  intros Hinv. cbn [stage]. destruct (p_threads p !! h) as [t|] eqn:E; [|done].
  pose proof (inv_threads _ _ _ _ Hinv h t E) as Hok. unfold thread_ok in Hok.
  cbn. unfold thread_stage. destruct (th_phase t); try done. intros _. destruct Hok as [_ [addr Hm]]. eauto.
Qed.

Lemma on_server_inv ps k sv ev conn :
  ps_inv ps → at_work (stage (ps_proc ps) k) → ps_servers ps k = Some sv →
  server_ok (mkServer (se_conns sv) (fstep k (with_shared (ps_seq ps) (ps_log ps) (se_front sv)) ev) conn) →
  ps_inv (on_server ps k sv ev conn).
Proof using Type.
  intros [Hr Hs Hg Hb] Hk Hsv Hok. split; cbn [on_server ps_proc ps_servers]; [done|..].
  - intros k' sv'. destruct (decide (k' = k)) as [->|Hne]; [rewrite fn_lookup_insert|rewrite fn_lookup_insert_ne by done; eauto].
    by intros [= <-].
  - intros k'. destruct (decide (k' = k)) as [->|Hne]; [rewrite fn_lookup_insert|by rewrite fn_lookup_insert_ne].
    specialize (Hg k). destruct (stage (ps_proc ps) k); cbn [stage_ok at_work] in *; try done.
    destruct Hg as (sv' & E & Ec). rewrite Hsv in E. injection E as <-. by eexists.
  - intros h sv'. destruct (decide (inl h = k)) as [<-|Hne]; [eauto|rewrite fn_lookup_insert_ne by done; eauto].
Qed.

(** and so do those of the process. *)
Lemma ps_step_inv ps l ps' :
  ps_step ps l ps' → ps_inv ps → ps_inv ps'.
Proof using Hcap SemLaws Laws RuleLaws.
  intros Hst [Hr Hs Hg Hb]. destruct Hst as [p l p' srv seq log Hst Hm|ps k sv c q Hk Hsv Hc Hq|ps k sv ev Hk Hsv Hev].
  - cbn [ps_proc ps_servers] in *. pose proof (py_reach_inv _ _ _ _ Hr) as Hinv.
    assert (∀ k, stage_ok (stage p' k) (moved (stage p k) (stage p' k) (srv k)) ∧
      ∀ sv, moved (stage p k) (stage p' k) (srv k) = Some sv → server_ok sv) as Hmv.
    { intros k. apply moved_ok; [by eapply stage_step|done|done|apply Hs]. }
    split; cbn [ps_proc ps_servers]; [eapply rtc_r; [exact Hr|by exists l]|apply Hmv|apply Hmv|].
    intros h sv Hsv. destruct (srv (inl h)) as [sv0|] eqn:E.
    + destruct (Hb _ _ E) as (t & addr & Ht & Hmsg).
      destruct (thread_message _ _ _ _ _ _ Hinv Hst Ht Hmsg) as (t' & ? & ?). eauto.
    + destruct (stage p' (inl h)) as [|s| |] eqn:Es.
      * by destruct (stage p (inl h)).
      * eapply serving_bound; [by eapply py_step_inv|exact Es].
      * by destruct (stage p (inl h)).
      * by destruct (stage p (inl h)).
  - apply on_server_inv; [by split|done..|]. by apply (server_ok_arrive k _ c q (with_shared_ok _ _ _ (Hs _ _ Hsv))).
  - apply on_server_inv; [by split|done..|]. by apply (server_ok_step k _ ev (with_shared_ok _ _ _ (Hs _ _ Hsv))).
Qed.

Lemma ps_initial_inv : ps_inv ps_initial.
Proof using Type.
  split; cbn [ps_initial ps_proc ps_servers]; [apply rtc_refl|done| |done].
  intros [h|i]; cbn [stage py_initial p_threads p_calls]; by rewrite lookup_nil.
Qed.

Lemma ps_reach_inv ps : ps_reach ps → ps_inv ps.
Proof using Hcap SemLaws Laws RuleLaws.
  apply (rtc_ind_r ps_inv); [apply ps_initial_inv|]. intros ps1 ps2 _ [l Hst] Hi. by eapply ps_step_inv.
Qed.

(** ** [stop] *)

Lemma may_move_same a x : stage_ok a x → may_move a a x.
Proof using Type.
  intros Ha sv Hx. destruct a as [|s| |]; try done; cbn [stage_ok] in Ha; [|by apply Ha].
  intros c Hc Hc'. congruence.
Qed.

Lemma may_move_over a b x : (∀ sv, x = Some sv → all_over (se_front sv)) → may_move a b x.
Proof using Type.
  intros Hx sv Hsv. specialize (Hx sv Hsv). destruct a, b; try done; intros c _ _ i sl _; apply Hx.
Qed.

Lemma moved_over a b x :
  (∀ sv, x = Some sv → all_over (se_front sv)) → stage_ok a x → a ≠ NotYet →
  ∀ sv, moved a b x = Some sv → all_over (se_front sv).
Proof using Type.
  intros Hx Ha Hn sv. destruct a as [|s| |]; [done|..]; [|by apply Hx..].
  destruct b, x as [sv0|]; cbn [moved]; intros [= <-]; try done; by apply (Hx sv0).
Qed.

(** What is at work can be dropped. *)
Lemma ps_drops evs : ∀ ps k sv,
  no_arrivals evs → at_work (stage (ps_proc ps) k) → ps_servers ps k = Some sv →
  ∃ ps' sv', rtc ps_any ps ps' ∧ ps_proc ps' = ps_proc ps ∧ ps_servers ps' k = Some sv' ∧
    with_shared (ps_seq ps') (ps_log ps') (se_front sv') =
      foldl (fstep k) (with_shared (ps_seq ps) (ps_log ps) (se_front sv)) evs.
Proof using Type.
  induction evs as [|ev evs IH]; intros ps k sv Hn Hk Hsv; [exists ps, sv; split_and!; done || apply rtc_refl|].
  destruct (IH (on_server ps k sv ev (se_conn sv)) k (mkServer (se_conns sv)
    (fstep k (with_shared (ps_seq ps) (ps_log ps) (se_front sv)) ev) (se_conn sv))) as (ps' & sv' & Hr & Hp & Hs & He).
  - intros ev' q Hev. apply Hn. by right.
  - done.
  - cbn [on_server ps_servers]. by rewrite fn_lookup_insert.
  - exists ps', sv'. split_and!; [|done..|].
    + eapply rtc_l; [|exact Hr]. exists None. apply ps_front; [done..|]. intros q. apply Hn. by left.
    + rewrite He. cbn [foldl on_server ps_seq ps_log se_front]. f_equal.
      by destruct (fstep k _ ev) as [sem slots [caches seq tick log]].
Qed.

(** A thread alone, with nothing at work in its server. *)
Lemma ps_native_steps g cs h c c' : rtc (thread_step parse_addr addr_string (py_config g)) c c' → ∀ ps ts,
  ps_inv ps → ps_proc ps = mkProc g c.2 ts cs → ts !! h = Some c.1 → th_phase c.1 ≠ Booting →
  (∀ sv, ps_servers ps (inl h) = Some sv → all_over (se_front sv)) →
  ∃ ps', rtc ps_any ps ps' ∧ ps_inv ps' ∧ ps_proc ps' = mkProc g c'.2 (<[h := c'.1]> ts) cs.
Proof using Hcap SemLaws Laws RuleLaws.
  intros Hr. induction Hr as [[t sd]|[t1 sd1] [t2 sd2] c3 Hst _ IH]; intros ps ts Hinv Hp Ht Hb Hover;
    cbn [fst snd] in *.
  - exists ps. split_and!; [apply rtc_refl|done|]. by rewrite list_insert_id.
  - destruct ps as [p srv seq log]. cbn [ps_proc ps_servers] in *. subst p.
    set (p := mkProc g sd1 ts cs) in *. set (p' := mkProc g sd2 (<[h := t2]> ts) cs).
    assert (pystep p None p') as Hpy by (by eapply py_native).
    assert (h < List.length ts) as Hlt by (by eapply lookup_lt_Some).
    assert (stage p (inl h) ≠ NotYet) as Hny.
    { unfold p. cbn [stage p_threads]. rewrite Ht. cbn. unfold thread_stage. by destruct (th_phase t1). }
    assert (ps_any (mkService p srv seq log) (mkService p' (λ k, moved (stage p k) (stage p' k) (srv k)) seq log)) as Hstep.
    { exists None. apply ps_python; [exact Hpy|]. intros k. destruct (decide (k = inl h)) as [->|Hne].
      - by apply may_move_over.
      - assert (stage p' k = stage p k) as ->.
        { unfold p, p'. destruct k as [h'|i]; [|done]. cbn [stage p_threads].
          rewrite list_lookup_insert_ne; [done|congruence]. }
        apply may_move_same, (pv_stage _ Hinv k). }
    destruct (IH (mkService p' (λ k, moved (stage p k) (stage p' k) (srv k)) seq log) (<[h := t2]> ts))
      as (ps' & Hr' & Hi' & Hp').
    + destruct Hstep as [l Hstep]. by eapply ps_step_inv.
    + done.
    + by apply list_lookup_insert_eq.
    + clear - Hst. inversion Hst; subst; cbn [th_phase]; try done. unfold booted. cbn [th_phase].
      by destruct (server_boot _ _ _ _) as [[]|].
    + cbn [ps_servers]. apply moved_over; [exact Hover|apply (pv_stage _ Hinv (inl h))|exact Hny].
    + exists ps'. split_and!; [by eapply rtc_l|done|]. by rewrite Hp', list_insert_insert_eq.
Qed.

End service.
