(* ===== verification/ServiceDemo.v ===== *)
(** A Python process with one download: [start], a request, [stop] while it is
    under way, and its end. *)

From stdpp Require Import functions.
From S2P Require Import Prelude Prog Bytes Config Path Range Metadata HdfsError Listing.
From S2P Require Import Cache Caches SortedListing Merge Paging Gateway ListObjects Backpressure Server Bindings.
From S2P Require Import Invariant Objects Listings Requests RequestLog Demo Served Front Process Progress PyService.

#[local] Arguments mkHttpResponse {Head B}.

Definition one_slot : Bindings.Gateway := mkGateway demo_one_slot None None None $"stderr".

Abbreviation demo_parse := (λ a : str, Ok (E:=str) a).
Abbreviation demo_show := (λ a : str, a).
Abbreviation demo_worlds := (λ _ : Key, demo_world).
Abbreviation DemoService := (Service (Nt:=bool) (SocketAddr:=str) (Listener:=str) (L:=list_lru str) (R:=str)
  (IoError:=unit) (Sem:=N) (Head:=N) (HttpError:=unit)).
Abbreviation DemoProc := (Proc (Nt:=bool) (SocketAddr:=str) (Listener:=str)).
Abbreviation demo_any := (ps_any demo_parse demo_show demo_worlds one_slot demo_serialize id (λ _, Err tt)).
Abbreviation demo_ps_reach := (ps_reach demo_parse demo_show demo_worlds one_slot demo_serialize id (λ _, Err tt)).
Abbreviation demo_ps_step := (ps_step demo_parse demo_show demo_worlds one_slot demo_serialize id (λ _, Err tt)).

(** ** Steps *)

Definition py_to (ps : DemoService) (p' : DemoProc) : DemoService :=
  mkService p' (λ k, moved one_slot (stage (ps_proc ps) k) (stage p' k) (ps_servers ps k)) (ps_seq ps) (ps_log ps).

Definition front_to (ps : DemoService) (ev : front_event (R:=str)) : DemoService :=
  match ps_servers ps (inl 0) with
  | Some sv => on_server demo_worlds one_slot demo_serialize id (λ _, Err tt) ps (inl 0) sv ev
                 (if is_arrival ev then se_conn sv ++ [0] else se_conn sv)
  | None => ps
  end.

(** The exchanges of the thread's server. *)
Definition demo_slots (ps : DemoService) :=
  match ps_servers ps (inl 0) with Some sv => f_slots (se_front sv) | None => [] end.

Definition idle (ps : DemoService) : bool := forallb (λ s, N.eqb (holds (sl_conn s)) 0) (demo_slots ps).

Lemma idle_over ps sv : idle ps = true → ps_servers ps (inl 0) = Some sv → all_over (se_front sv).
Proof.
  unfold idle, demo_slots. intros H Hsv i s Hi Ho%holds_occupies. rewrite Hsv, forallb_forall in H.
  apply list_elem_of_lookup_2, list_elem_of_In, H in Hi. by rewrite Ho in Hi.
Qed.

Lemma front_to_any ps ev :
  demo_ps_reach ps → at_work (stage (ps_proc ps) (inl 0)) → is_arrival ev = false → demo_ps_reach (front_to ps ev).
Proof.
  intros Hr Hk Hev. unfold front_to. destruct (ps_servers ps (inl 0)) as [sv|] eqn:E; [|done].
  rewrite Hev. eapply rtc_r; [exact Hr|]. exists None. apply ps_front; [done..|]. by intros q ->.
Qed.

Lemma front_to_all evs ps :
  demo_ps_reach ps → at_work (stage (ps_proc ps) (inl 0)) → forallb (λ ev, negb (is_arrival ev)) evs = true →
  demo_ps_reach (foldl front_to ps evs) ∧ ps_proc (foldl front_to ps evs) = ps_proc ps.
Proof.
  revert ps. induction evs as [|ev evs IH]; intros ps Hr Hk; [done|]. cbn [forallb foldl].
  intros [Hev%negb_true_iff Hevs]%andb_true_iff.
  assert (ps_proc (front_to ps ev) = ps_proc ps) as Ep by (unfold front_to; by destruct (ps_servers ps (inl 0))).
  destruct (IH (front_to ps ev)) as [H1 H2]; [by apply front_to_any|by rewrite Ep|done|]. by rewrite H2.
Qed.

Lemma demo_cap : (N.max (max_concurrent_requests demo_one_slot) 1 <= max_permits (Sem:=N))%N.
Proof. by vm_compute. Qed.

Lemma demo_inv (ps : DemoService) : demo_ps_reach ps → ps_inv demo_parse demo_show one_slot ps.
Proof. exact (ps_reach_inv _ _ _ one_slot _ _ _ demo_cap ps). Qed.

(** A step of the object or of the thread. *)
Lemma py_to_step ps l p' :
  demo_ps_reach ps → py_step demo_parse demo_show (ps_proc ps) l p' →
  (idle ps = true ∨ stage p' (inl 0) ≠ Over ∧ ∀ s s', stage (ps_proc ps) (inl 0) = Serves s → stage p' (inl 0) = Serves s' →
     ∀ c, sv_conns s !! c = Some true → sv_conns s' !! c ≠ Some false) →
  (∀ k, k ≠ inl 0 → ps_servers ps k = None) →
  demo_ps_step ps l (py_to ps p').
Proof.
  intros Hr Hst H0 Hk. destruct ps as [p srv seq log]. apply ps_python; [exact Hst|]. cbn [ps_proc ps_servers] in *.
  intros k. destruct (decide (k = inl 0)) as [->|Hne]; [|rewrite Hk by done; by intros sv].
  destruct H0 as [Hi|[Hn Hc]]; [apply may_move_over; intros sv; by apply (idle_over _ _ Hi)|].
  intros sv _. destruct (stage p (inl 0)) as [|s| |], (stage p' (inl 0)) as [|s'| |]; try done.
  intros c H1 H2. by destruct (Hc s s' eq_refl eq_refl c H1).
Qed.

(** Only that server is there. *)
Definition alone (ps : DemoService) : Prop := ∀ k, k ≠ inl 0 → ps_servers ps k = None.

Lemma py_to_alone ps p' :
  alone ps → (∀ k s, k ≠ inl 0 → stage p' k ≠ Serves s) → alone (py_to ps p').
Proof.
  intros Ha Hn k Hk. unfold py_to. cbn [ps_servers]. rewrite Ha by done. specialize (Hn k).
  destruct (stage (ps_proc ps) k), (stage p' k) as [|s'| |]; try done; by destruct (Hn s' Hk).
Qed.

Lemma front_to_alone evs ps : alone ps → alone (foldl front_to ps evs).
Proof.
  revert ps. induction evs as [|ev evs IH]; intros ps Ha; [done|]. apply IH. intros k Hk. unfold front_to.
  destruct (ps_servers ps (inl 0)); [|by apply Ha]. cbn [on_server ps_servers]. rewrite fn_lookup_insert_ne by done.
  by apply Ha.
Qed.

(** ** The run *)

Definition svc_thread (phase : ThreadPhase) : Thread (SocketAddr:=str) (Listener:=str) :=
  mkThread demo_boot phase (match phase with Booting => None | _ => Some (Ok (listen_addr demo_one_slot)) end).

Abbreviation started := (set_running (listen_addr demo_one_slot) 0 one_slot).
Abbreviation stopping := (set_thread None started).

(** [start]: the thread is spawned, boots, and the call returns. *)
Definition svc_start : DemoService :=
  foldl py_to (ps_initial one_slot)
    [mkProc (set_thread None one_slot) false [svc_thread Booting] [Some (InStart 0)];
     mkProc (set_thread None one_slot) false [svc_thread (Serving (serve_start 0))] [Some (InStart 0)];
     mkProc started false [svc_thread (Serving (serve_start 0))] [None];
     mkProc started false [svc_thread (Serving (mkServeState Accepting 0 [true]))] [None]].

(** A request, and [stop] at its first access. *)
Definition svc_joining : DemoService :=
  foldl py_to (front_to (front_to svc_start (FArrive (ReqGetObject demo_get))) (FTurn 0))
    [mkProc started false [svc_thread (Serving (mkServeState Accepting 0 [true]))] [None; Some InStop];
     mkProc stopping true [svc_thread (Serving (mkServeState Accepting 0 [true]))] [None; Some (InJoin 0)]].

(** The signal is seen; the download goes on to its end; the server ends. *)
Definition draining_proc : DemoProc :=
  mkProc stopping false [svc_thread (Serving (mkServeState (Draining 0 1) 0 [true]))] [None; Some (InJoin 0)].

Definition svc_served : DemoService := foldl front_to (py_to svc_joining draining_proc) demo_exchange.

Definition svc_ending : DemoService :=
  foldl py_to svc_served
    [mkProc stopping false [svc_thread (Serving (mkServeState (Draining 0 1) 0 [false]))] [None; Some (InJoin 0)];
     mkProc stopping false [svc_thread (Serving (mkServeState (Returned 0 1) 0 [false]))] [None; Some (InJoin 0)];
     mkProc stopping false [svc_thread Closing] [None; Some (InJoin 0)];
     mkProc stopping false [svc_thread Exited] [None; Some (InJoin 0)]].

Definition svc_stopped : DemoService := py_to svc_ending (mkProc stopping false [svc_thread Exited] [None; None]).

Example svc_seen : idle svc_joining = false ∧ idle svc_ending = true ∧ List.length (ps_log svc_stopped) = 2.
Proof. vm_compute. done. Qed.

Definition fine (ps : DemoService) : Prop := demo_ps_reach ps ∧ alone ps.

Lemma py_to_fine ps l p' :
  fine ps → py_step demo_parse demo_show (ps_proc ps) l p' →
  (idle ps = true ∨ stage p' (inl 0) ≠ Over ∧ ∀ s s', stage (ps_proc ps) (inl 0) = Serves s → stage p' (inl 0) = Serves s' →
     ∀ c, sv_conns s !! c = Some true → sv_conns s' !! c ≠ Some false) →
  (∀ k s, k ≠ inl 0 → stage p' k ≠ Serves s) → fine (py_to ps p').
Proof.
  intros [Hr Ha] Hst Hi Hk. split; [|by apply py_to_alone]. eapply rtc_r; [exact Hr|]. exists l. by apply py_to_step.
Qed.

(** The side conditions of [py_to_fine]: nothing is at work, or nothing ends. *)
Ltac nothing_ends :=
  solve [ left; vm_compute; reflexivity
        | right; split; [done|]; intros s s'; intros [= <-] [= <-]; by intros [|[|c]]
        | right; split; [done|]; by intros s s' ?%(f_equal (λ a, match a with Serves _ => true | _ => false end)) ].
Ltac one_server := clear; intros [[|h]|[|[|i]]] s Hk; done.

(** A step of the thread, given what it becomes. *)
Lemma thread_to g (sd sd' : bool) cs (t t' : Thread (SocketAddr:=str) (Listener:=str)) :
  thread_step demo_parse demo_show (py_config g) (t, sd) (t', sd') →
  py_step demo_parse demo_show (mkProc g sd [t] cs) None (mkProc g sd' [t'] cs).
Proof. by apply (py_native _ _ g sd [t] cs 0 t t' sd'). Qed.

Lemma svc_start_fine : fine svc_start.
Proof.
  unfold svc_start. cbn [foldl].
  eapply py_to_fine; [eapply py_to_fine; [eapply py_to_fine; [eapply py_to_fine; [split; [apply rtc_refl|done]|..]|..]|..]|..].
  - exact (py_start _ _ (set_thread None one_slot) false [] [] demo_boot eq_refl eq_refl).
  - nothing_ends.
  - one_server.
  - by apply thread_to, th_start.
  - nothing_ends.
  - one_server.
  - exact (py_started _ _ (set_thread None one_slot) false [svc_thread (Serving (serve_start 0))] [Some (InStart 0)] 0 0
      _ _ _ eq_refl eq_refl eq_refl).
  - nothing_ends.
  - one_server.
  - apply thread_to, th_serve, serve_accept.
  - nothing_ends.
  - one_server.
Qed.

Lemma svc_joining_fine : fine svc_joining.
Proof.
  unfold svc_joining. cbn [foldl].
  eapply py_to_fine; [eapply py_to_fine; [|..]|..].
  - split.
    + apply front_to_any; [|done..]. destruct svc_start_fine as [Hr _].
      destruct (ps_servers svc_start (inl 0)) as [sv|] eqn:E; [|done].
      eapply rtc_r; [exact Hr|]. exists None. unfold front_to. rewrite E. cbn [is_arrival].
      apply ps_request; [done|exact E| |done]. assert ((se_conns <$> ps_servers svc_start (inl 0)) = Some [true]) as Ec by done.
      rewrite E in Ec. by injection Ec as ->.
    + apply (front_to_alone [FArrive (ReqGetObject demo_get); FTurn 0]), svc_start_fine.
  - refine (py_stop _ _ started false [svc_thread (Serving (mkServeState Accepting 0 [true]))] [None] eq_refl _).
    by intros h t [= <-] [= <-].
  - nothing_ends.
  - one_server.
  - exact (py_stop_notify _ _ started false [svc_thread (Serving (mkServeState Accepting 0 [true]))] [None; Some InStop]
      1 0 eq_refl eq_refl).
  - nothing_ends.
  - one_server.
Qed.

Lemma svc_served_fine : fine svc_served ∧ ps_proc svc_served = draining_proc.
Proof.
  assert (fine (py_to svc_joining draining_proc)) as [Hr Ha].
  { eapply py_to_fine; [apply svc_joining_fine|apply thread_to, th_serve; by apply serve_shutdown|nothing_ends|one_server]. }
  destruct (front_to_all demo_exchange (py_to svc_joining draining_proc)) as [H1 H2]; [done..|].
  split; [split; [exact H1|by apply front_to_alone]|exact H2].
Qed.

Lemma svc_ending_fine : fine svc_ending.
Proof.
  unfold svc_ending. cbn [foldl]. destruct svc_served_fine as [Hf Hp].
  eapply py_to_fine; [eapply py_to_fine; [eapply py_to_fine; [eapply py_to_fine; [exact Hf|..]|..]|..]|..].
  - rewrite Hp. apply thread_to, th_serve. exact (serve_close notified (Draining 0 1) 0 [true] false 0 eq_refl).
  - nothing_ends.
  - one_server.
  - apply thread_to, th_serve. by apply serve_drained.
  - nothing_ends.
  - one_server.
  - apply thread_to, th_return.
  - nothing_ends.
  - one_server.
  - apply thread_to, th_exit.
  - nothing_ends.
  - one_server.
Qed.

Lemma svc_stop_returns : demo_ps_step svc_ending (Some (Stop, Returns (Ok tt))) svc_stopped.
Proof.
  apply py_to_step; [apply svc_ending_fine|..].
  - exact (py_joined _ _ stopping false [svc_thread Exited] [None; Some (InJoin 0)] 1 0 _ eq_refl eq_refl eq_refl).
  - nothing_ends.
  - apply svc_ending_fine.
Qed.

Lemma svc_stopped_reach : demo_ps_reach svc_stopped.
Proof. eapply rtc_r; [apply svc_ending_fine|]. eexists. apply svc_stop_returns. Qed.
