(* ===== verification/ServiceLog.v ===== *)
(** The request log of the Python process: of all its servers, in one file and
    under ids of one counter. *)

From stdpp Require Import functions.
From S2P Require Import Prelude Prog Bytes Config Path Range Metadata HdfsError Listing.
From S2P Require Import Cache Caches SortedListing Merge Paging Gateway ListObjects Backpressure Server Bindings.
From S2P Require Import Invariant Objects Listings Requests RequestLog Demo Served Front Process Progress PyService ServiceDemo.

#[local] Arguments mkHttpResponse {Head B}.
#[local] Arguments resp_head {Head B}.
#[local] Arguments resp_body {Head B}.

(** ** What an exchange owns *)

Section slots.
Context {L : Type → Type} `{!Lru str L} {R IoError : Type} `{!Base64}.
Context {Sem Head HttpError : Type} `{!Semaphore Sem}.
Context (w : World (R:=R) (IoError:=IoError)) (mapper : PathMapper) (config : Config).

Abbreviation State := (GwState (L:=L) (R:=R)).
Abbreviation Out := (Outcome R IoError).
Abbreviation Body := (FrontBody (L:=L) (R:=R) (IoError:=IoError)).
Abbreviation FSlot := (Slot (L:=L) (R:=R) (IoError:=IoError) (Head:=Head) (HttpError:=HttpError)).

Context (serialize : Out → result (Head * option str) HttpError) (status_head : N → Head).
Context (to_http_response : S3Error → result (HttpResponse (Head:=Head) Body) HttpError).

Abbreviation Front := (Front (L:=L) (R:=R) (IoError:=IoError) (Sem:=Sem) (Head:=Head) (HttpError:=HttpError)).
Abbreviation fstep := (front_step (Sem:=Sem) w mapper config serialize status_head to_http_response).
Abbreviation own := (option (N * str * list LogEvent)).
Abbreviation gw_step := (own_step (S:=State) gw_seq gw_events event_id id_of).
Abbreviation gw_owns := (owns (S:=State) gw_seq gw_events event_id id_of).

(** A program that leaves the counter and the log alone. *)
Abbreviation silent p := (keeps (S:=State) (λ _ _, True) quietly p (λ _, True)).

Definition body_silent (b : Body) : Prop := match b with Polling _ p => silent p | _ => True end.

Record slot_owns (g : own) (s : FSlot) : Prop := {
  sw_operation : is_operation (sl_req s) = true;
  sw_work : ∀ p, sl_work s = Some p → gw_owns g p (logged (sl_req s)) (λ g, logged (IoError:=IoError) (sl_req s) g OutDropped);
  sw_none : sl_work s = None → g = None;
  sw_body : ∀ resp, sl_conn s = Sending resp → body_silent (pb_inner (resp_body resp));
}.

Lemma unfold_step_silent path u : silent (unfold_step w path u).
Proof using Type.
  destruct u as [[items limit] remaining]. cbn [unfold_step]. destruct (N.eqb remaining 0); [done|].
  destruct items as [|r items]; [by destruct (N.ltb 0 remaining)|].
  eapply (keeps_bind _ _ _ _ _ (λ _, True)).
  - destruct r as [b|e]; cbn [evict_on_error]; [done|].
    eapply (keeps_bind _ _ _ _ _ (λ _, True)); [apply keeps_act; intros s; split; [apply quietly_on_caches|done]|].
    intros _ _. eapply (keeps_bind _ _ _ _ _ (λ _, True)); [|done].
    apply keeps_act; intros s; split; [apply quietly_on_caches|done].
  - by intros [b|e] _.
Qed.

Lemma body_turn_silent (b b' : Body) gw gw' r :
  body_turn w b gw = (r, b', gw') → body_silent b → quietly gw gw' ∧ body_silent b'.
Proof using Type.
  destruct b as [[bytes|]|g|g [[[c u]|]|B d f k]]; cbn [body_turn]; try by intros [= <- <- <-].
  - intros E _. pose proof (f_equal (λ x, x.1.2) E) as Eb. pose proof (f_equal snd E) as Eg. cbn [fst snd] in Eb, Eg.
    subst. split; [done|apply unfold_step_silent].
  - intros E _. pose proof (f_equal (λ x, x.1.2) E) as Eb. pose proof (f_equal snd E) as Eg. cbn [fst snd] in Eb, Eg.
    subst. split; [done|apply unfold_step_silent].
  - destruct (f gw) as [x gw1] eqn:Ef. intros [= <- <- <-] Hb. destruct (Hb gw) as (Hq & Hk & _).
    by rewrite Ef in Hq, Hk.
Qed.

Lemma own_quiet g gw gw' : quietly gw gw' → gw_step g gw gw' g.
Proof using Type. intros [H1 H2]. by apply own_silent. Qed.

(** An event of an exchange that is there. *)
Definition slot_step (c c' : Front) : Prop :=
  (f_slots c' = f_slots c ∧ quietly (f_gw c) (f_gw c')) ∨
  ∃ i s s', f_slots c !! i = Some s ∧ f_slots c' = <[i := s']> (f_slots c) ∧
    ∀ g, slot_owns g s → ∃ g', gw_step g (f_gw c) (f_gw c') g' ∧ slot_owns g' s'.

Lemma front_slot_step (c : Front) ev : (∀ q, ev ≠ FArrive q) → slot_step c (fstep c ev).
Proof using Type.
  destruct c as [sem slots gw]. unfold slot_step. cbn [f_slots f_gw]. intros Hev.
  destruct ev as [q|i|i|i|i|n]; cbn [front_step]; [by destruct (Hev q)|..].
  - destruct (slots !! i) as [[q [[o|B d f k]|] x chunks]|] eqn:E; try by left. destruct x; try by left.
    destruct (f gw) as [y gw1] eqn:Ef. cbn [f_slots f_gw]. right. eexists i, _, _. split_and!; [exact E|done|].
    intros g [Hq Hw Hno _]. cbn [sl_req sl_work] in *. destruct (Hw _ eq_refl gw) as [(g' & Hst & Hk) _].
    rewrite Ef in Hst, Hk. exists g'. split; [exact Hst|]. split; cbn [sl_req sl_work sl_conn]; [done| |done..].
    by intros p [= <-].
  - destruct (slots !! i) as [[q [[o|B d f k]|] x chunks]|] eqn:E; try by left. destruct x; try by left.
    destruct (bp_answer (render serialize o) sem) as [x sem'] eqn:Eb. cbn [f_slots f_gw]. right. eexists i, _, _.
    split_and!; [exact E|done|]. intros g [Hq Hw Hno _]. exists g. split; [by apply own_quiet|].
    split; cbn [sl_req sl_work sl_conn] in *; [done..|]. intros resp ->. revert Eb. unfold render, bp_answer.
    destruct (serialize o) as [[hd bytes]|e]; [|done]. intros [= <- <-]. cbn. by destruct (streams o).
  - destruct (slots !! i) as [[q work x chunks]|] eqn:E; [|by left]. destruct x as [| |resp| |]; try by left.
    destruct (body_turn w (pb_inner (resp_body resp)) gw) as [[r inner] gw1] eqn:Eb.
    rewrite poll_frame_spec. destruct (is_end r); cbn [release f_slots f_gw]; right; eexists i, _, _;
      (split_and!; [exact E|done|]); intros g [Hq Hw Hno Hbd]; cbn [sl_req sl_work sl_conn] in *;
      destruct (body_turn_silent _ _ _ _ _ Eb (Hbd _ eq_refl)) as [Hqu Hin];
      (exists g; split; [by apply own_quiet|]);
      (split; cbn [sl_req sl_work sl_conn]; [done..|by intros resp' [= <-]]).
  - destruct (slots !! i) as [[q work x chunks]|] eqn:E; [|by left].
    destruct (drop_slot x work gw) as [[work' gw1]|] eqn:Ed; [|by left]. cbn [f_slots f_gw].
    right. eexists i, _, _. split_and!; [exact E|done|]. intros g [Hq Hw Hno _]. cbn [sl_req sl_work] in *.
    apply drop_slot_spec in Ed as [(-> & -> & _)|(B & d & f & k & _ & -> & -> & ->)].
    + exists g. split; [by apply own_quiet|]. by split.
    + destruct (Hw _ eq_refl gw) as [_ (g' & Hst & Hd)]. exists g'. split; [exact Hst|].
      split; cbn [sl_req sl_work sl_conn]; [done| |done..]. intros p [= <-]. exact Hd.
  - by left.
Qed.

Lemma front_slot_arrive (c : Front) q :
  header_law w → is_operation q = true →
  f_gw (fstep c (FArrive q)) = f_gw c ∧
  ∃ s, f_slots (fstep c (FArrive q)) = f_slots c ++ [s] ∧ slot_owns None s.
Proof using Type.
  destruct c as [sem slots gw]. intros Hl Hq. cbn [front_step f_slots]. rewrite Hq. unfold bp_call.
  destruct (try_acquire sem); cbn [f_slots f_gw]; (split; [done|]); eexists; (split; [done|]);
    (split; cbn [sl_req sl_work sl_conn]; [done| |done..]).
  - intros p [= <-]. by apply handler_owns.
  - done.
Qed.
End slots.

(** ** The log of all servers *)

Section log.
Context {Nt : Type} `{!Notify Nt} `{!PyBorrow} {SocketAddr Listener : Type}.
Context (parse_addr : str → result SocketAddr str) (addr_string : SocketAddr → str).
Context {L : Type → Type} `{!Lru str L} {R IoError : Type} `{!Base64}.
Context {Sem Head HttpError : Type} `{!Semaphore Sem}.
Context (w : Key → World (R:=R) (IoError:=IoError)) (g0 : Bindings.Gateway).

Abbreviation config := (py_config g0).
Abbreviation mapper := (new_mapper config).
Abbreviation State := (GwState (L:=L) (R:=R)).
Abbreviation Out := (Outcome R IoError).
Abbreviation Body := (FrontBody (L:=L) (R:=R) (IoError:=IoError)).

Context (serialize : Out → result (Head * option str) HttpError) (status_head : N → Head).
Context (to_http_response : S3Error → result (HttpResponse (Head:=Head) Body) HttpError).
Context `{Laws : !NotifyLaws Nt} `{RuleLaws : !PyBorrowLaws} `{SemLaws : !SemaphoreLaws Sem}.
Context (Hcap : (N.max (max_concurrent_requests config) 1 ≤ max_permits (Sem:=Sem))%N).
Context (Hheader : ∀ k, header_law (w k)).

Abbreviation Server := (Server (L:=L) (R:=R) (IoError:=IoError) (Sem:=Sem) (Head:=Head) (HttpError:=HttpError)).
Abbreviation Service := (Service (Nt:=Nt) (SocketAddr:=SocketAddr) (Listener:=Listener) (L:=L) (R:=R)
  (IoError:=IoError) (Sem:=Sem) (Head:=Head) (HttpError:=HttpError)).
Abbreviation ps_step := (ps_step parse_addr addr_string w g0 serialize status_head to_http_response).
Abbreviation ps_any := (ps_any parse_addr addr_string w g0 serialize status_head to_http_response).
Abbreviation ps_reach := (ps_reach parse_addr addr_string w g0 serialize status_head to_http_response).
Abbreviation on_server := (on_server w g0 serialize status_head to_http_response).
Abbreviation fstep k := (front_step (Sem:=Sem) (w k) mapper config serialize status_head to_http_response).
Abbreviation own := (option (N * str * list LogEvent)).
Abbreviation gw_owned := (Prog.owned (S:=State) gw_seq gw_events event_id id_of).

Definition slot_of (srv : Key → option Server) (o : Key * nat) :
    option (Slot (L:=L) (R:=R) (IoError:=IoError) (Head:=Head) (HttpError:=HttpError)) :=
  match srv o.1 with Some sv => f_slots (se_front sv) !! o.2 | None => None end.

(** The counter and the log, as a gateway sees them. *)
Definition shared (ps : Service) : State := mkGwState (new_caches (cache config)) (ps_seq ps) 0 (ps_log ps).

(** [owners] names the exchanges there have been, [gs] what each owns. *)
Record log_ok (ps : Service) (owners : list (Key * nat)) (gs : list own) : Prop := {
  lo_length : List.length owners = List.length gs;
  lo_nodup : NoDup owners;
  lo_slot : ∀ o, o ∈ owners ↔ is_Some (slot_of (ps_servers ps) o);
  lo_owns : ∀ j o g s, owners !! j = Some o → gs !! j = Some g → slot_of (ps_servers ps) o = Some s → slot_owns g s;
  lo_owned : (ps_seq ps <= U64_MOD)%N → gw_owned gs (shared ps);
}.

Lemma slot_of_insert srv k sv sv' o :
  srv k = Some sv →
  slot_of (<[k := Some sv']> srv) o = if decide (o.1 = k) then f_slots (se_front sv') !! o.2 else slot_of srv o.
Proof using Type.
  intros Hk. unfold slot_of. destruct o as [k' i]. cbn [fst snd]. case_decide as E.
  - subst k'. by rewrite fn_lookup_insert.
  - by rewrite fn_lookup_insert_ne by congruence.
Qed.

(** One exchange moves. *)
Lemma log_turn ps k sv conn c' owners gs :
  log_ok ps owners gs → ps_servers ps k = Some sv → slot_step (with_shared (ps_seq ps) (ps_log ps) (se_front sv)) c' →
  ∃ gs', log_ok (mkService (ps_proc ps) (<[k := Some (mkServer (se_conns sv) c' conn)]> (ps_servers ps))
                   (gw_seq (f_gw c')) (gw_events (f_gw c'))) owners gs'.
Proof using Type.
  intros [Hlen Hnd Hsl Hown Hod] Hk [[Es [Eq Ee]]|(i & s & s' & Hi & Es & Hst)]; cbn [with_shared f_slots f_gw gw_seq gw_events] in *.
  - exists gs. assert (∀ o, slot_of (<[k := Some (mkServer (se_conns sv) c' conn)]> (ps_servers ps)) o =
      slot_of (ps_servers ps) o) as E.
    { intros o. rewrite (slot_of_insert _ k sv) by done. case_decide as Eo; [|done]. unfold slot_of.
      rewrite Eo, Hk. cbn [se_front]. by rewrite Es. }
    split; cbn [ps_servers ps_seq ps_log]; [done|done|..].
    + intros o. by rewrite E.
    + intros j o g sl. rewrite E. apply Hown.
    + rewrite Eq. intros HM. eapply owned_ext; [| |by apply Hod]; cbn; congruence.
  - destruct (list_elem_of_lookup_1 owners (k, i)) as [j Hj].
    { apply Hsl. unfold slot_of. cbn [fst snd]. by rewrite Hk, Hi. }
    destruct (lookup_lt_is_Some_2 gs j) as [g Hg]; [rewrite <- Hlen; by eapply lookup_lt_Some|].
    destruct (Hst g) as (g' & Hgs & Hs').
    { eapply Hown; [exact Hj|exact Hg|]. unfold slot_of. cbn [fst snd]. by rewrite Hk. }
    exists (<[j := g']> gs).
    assert (∀ o, slot_of (<[k := Some (mkServer (se_conns sv) c' conn)]> (ps_servers ps)) o =
      if decide (o = (k, i)) then Some s' else slot_of (ps_servers ps) o) as E.
    { intros [k' i']. rewrite (slot_of_insert _ k sv) by done. cbn [fst snd se_front]. rewrite Es. case_decide as Eo.
      - subst k'. case_decide as Ei.
        + injection Ei as ->. apply list_lookup_insert_eq. by eapply lookup_lt_Some.
        + rewrite list_lookup_insert_ne by congruence. unfold slot_of. cbn [fst snd]. by rewrite Hk.
      - rewrite decide_False by congruence. done. }
    split; cbn [ps_servers ps_seq ps_log]; [by rewrite length_insert|done|..].
    + intros o. rewrite E, Hsl. case_decide as Eo; [|done]. subst o. unfold slot_of. cbn [fst snd]. rewrite Hk, Hi.
      split; by eexists.
    + intros j' o g1 sl Hj' Hg1. rewrite E. case_decide as Eo.
      * subst o. assert (j' = j) as -> by (by eapply NoDup_lookup). intros [= <-].
        rewrite list_lookup_insert_eq in Hg1 by (by eapply lookup_lt_Some). by injection Hg1 as <-.
      * rewrite list_lookup_insert_ne in Hg1 by (intros ->; congruence). by apply Hown with (j := j').
    + intros HM. eapply (owned_ext _ _ _ _ _ (f_gw c')); [done..|].
      eapply (owned_step _ _ _ _ U64_MOD id_of_inj); [|exact HM|exact Hg|exact Hgs].
      eapply owned_ext; [| |apply Hod]; [done..|]. apply own_step_cnt in Hgs. cbn in Hgs. clear - Hgs HM. lia.
Qed.

(** A new one. *)
Lemma log_arrive ps k sv conn c' s owners gs :
  log_ok ps owners gs → ps_servers ps k = Some sv →
  f_slots c' = f_slots (se_front sv) ++ [s] → slot_owns None s →
  gw_seq (f_gw c') = ps_seq ps → gw_events (f_gw c') = ps_log ps →
  log_ok (mkService (ps_proc ps) (<[k := Some (mkServer (se_conns sv) c' conn)]> (ps_servers ps))
            (gw_seq (f_gw c')) (gw_events (f_gw c')))
    (owners ++ [(k, List.length (f_slots (se_front sv)))]) (gs ++ [None]).
Proof using Type.
  clear Hcap. intros [Hlen Hnd Hsl Hown Hod] Hk Es Hs Eq Ee. set (o0 := (k, List.length (f_slots (se_front sv)))).
  assert (slot_of (ps_servers ps) o0 = None) as Hnone.
  { unfold slot_of, o0. cbn [fst snd]. rewrite Hk. by apply lookup_ge_None_2. }
  assert (∀ o, slot_of (<[k := Some (mkServer (se_conns sv) c' conn)]> (ps_servers ps)) o =
    if decide (o = o0) then Some s else slot_of (ps_servers ps) o) as E.
  { intros [k' i']. rewrite (slot_of_insert _ k sv) by done. cbn [fst snd se_front]. rewrite Es. unfold o0.
    case_decide as Eo.
    - subst k'. case_decide as Ei.
      + injection Ei as ->. by rewrite lookup_app_r, Nat.sub_diag by lia.
      + unfold slot_of. cbn [fst snd]. rewrite Hk. destruct (decide (i' < List.length (f_slots (se_front sv)))).
        * by rewrite lookup_app_l by done.
        * rewrite !lookup_ge_None_2; [done|lia|]. rewrite length_app. cbn. assert (i' ≠ List.length (f_slots (se_front sv))) by congruence. lia.
    - rewrite decide_False by congruence. done. }
  split; cbn [ps_servers ps_seq ps_log].
  - by rewrite !length_app, Hlen.
  - apply NoDup_app. split_and!; [done| |apply NoDup_singleton]. intros o Ho ->%list_elem_of_singleton.
    apply Hsl in Ho. rewrite Hnone in Ho. by destruct Ho.
  - intros o. rewrite E, elem_of_app, list_elem_of_singleton, Hsl. case_decide as Eo; [|tauto]. split; [by eexists|by right].
  - intros j o g sl Hj Hg. rewrite E.
    apply lookup_app_Some in Hj as [Hj|[Hge [Hz <-]%list_lookup_singleton_Some]].
    + rewrite lookup_app_l in Hg by (rewrite <- Hlen; by eapply lookup_lt_Some). rewrite decide_False; [by eapply Hown|].
      intros ->. assert (o0 ∈ owners) as Ho by (by eapply list_elem_of_lookup_2). apply Hsl in Ho.
      rewrite Hnone in Ho. by destruct Ho.
    + rewrite decide_True by done. intros [= <-]. rewrite lookup_app_r in Hg by (rewrite <- Hlen; done).
      rewrite <- Hlen, Hz in Hg. by injection Hg as <-.
  - rewrite Eq. intros HM. eapply (owned_ext _ _ _ _ _ (shared ps)); [done..|]. by apply owned_spawn, Hod.
Qed.

(** The process starts and ends servers without their exchanges. *)
Lemma moved_slots a b (x : option Server) i :
  stage_ok a x →
  match moved g0 a b x with Some sv => f_slots (se_front sv) !! i | None => None end =
  match x with Some sv => f_slots (se_front sv) !! i | None => None end.
Proof using Type.
  intros Ha. destruct a as [|s| |], b, x; try done; cbn [stage_ok moved] in *; done.
Qed.

Lemma ps_log_step ps l ps' :
  ps_step ps l ps' → ps_inv parse_addr addr_string g0 ps → (∃ owners gs, log_ok ps owners gs) →
  ∃ owners gs, log_ok ps' owners gs.
Proof using Hheader.
  intros Hst Hinv (owners & gs & Hok). destruct Hst as [p l p' srv seq log Hst Hm|ps k sv c q Hk Hsv Hc Hq|ps k sv ev Hk Hsv Hev].
  - exists owners, gs. destruct Hok as [Hlen Hnd Hsl Hown Hod]. cbn [ps_servers ps_seq ps_log] in *.
    assert (∀ o, slot_of (λ k, moved g0 (stage p k) (stage p' k) (srv k)) o = slot_of srv o) as E.
    { intros [k i]. unfold slot_of. cbn [fst snd]. apply moved_slots, (pv_stage _ _ _ _ Hinv k). }
    split; cbn [ps_servers ps_seq ps_log]; [done|done|..|exact Hod].
    + intros o. by rewrite E.
    + intros j o g s. rewrite E. apply Hown.
  - destruct (front_slot_arrive (w k) mapper config serialize status_head to_http_response
      (with_shared (ps_seq ps) (ps_log ps) (se_front sv)) q (Hheader k) Hq) as [Egw (s & Es & Hs)].
    eexists _, _. apply (log_arrive _ _ _ _ _ s _ _ Hok Hsv Es Hs); by rewrite Egw.
  - exists owners. apply (log_turn _ _ _ _ _ _ _ Hok Hsv). by apply front_slot_step.
Qed.

Lemma ps_reach_log ps : ps_reach ps → ∃ owners gs, log_ok ps owners gs.
Proof using Hcap Hheader SemLaws Laws RuleLaws.
  intros Hr. assert (ps_inv parse_addr addr_string g0 ps ∧ ∃ owners gs, log_ok ps owners gs) as [_ ?]; [|done].
  revert ps Hr. apply (rtc_ind_r (λ ps, ps_inv parse_addr addr_string g0 ps ∧ ∃ owners gs, log_ok ps owners gs)).
  - split; [apply ps_initial_inv|]. exists [], []. split; [done|constructor| |done|intros _; by apply owned_start].
    intros o. split; [by intros ?%elem_of_nil|]. by intros [s [=]].
  - intros ps1 ps2 _ [l Hst] [Hi Hl]. split; [by eapply ps_step_inv|by eapply ps_log_step].
Qed.

Lemma started_open (ps : Service) id op :
  ps_reach ps → (ps_seq ps <= U64_MOD)%N → Started id op ∈ ps_log ps →
  (∃ path n ok, filter (λ e, event_id e = id) (ps_log ps) = lines id op path n ok) ∨
  filter (λ e, event_id e = id) (ps_log ps) = [Started id op] ∧
    ∃ o s, slot_of (ps_servers ps) o = Some s ∧ sl_conn s = Handling ∧ op_name (sl_req s) = op.
Proof using Hcap Hheader SemLaws Laws RuleLaws.
  intros Hr Hseq He. pose proof (ps_reach_inv _ _ _ _ _ _ _ Hcap _ Hr) as Hinv.
  destruct (ps_reach_log _ Hr) as (owners & gs & [Hlen Hnd Hsl Hown Hod]). destruct (Hod Hseq) as [_ _ Oe Oa].
  destruct (Oa _ He) as (j & n & x & es & Hg & Hx). cbn [event_id] in Hx. subst x. pose proof (Oe _ _ _ _ Hg) as Hf.
  cbn [shared gw_events] in Hf. destruct (lookup_lt_is_Some_2 owners j) as [o Ho].
  { rewrite Hlen. by eapply lookup_lt_Some. }
  destruct (proj1 (Hsl o) (list_elem_of_lookup_2 _ _ _ Ho)) as [s Hs].
  assert (Started id op ∈ es) as Hin by (rewrite <- Hf; by apply list_elem_of_filter).
  destruct (Hown _ _ _ _ Ho Hg Hs) as [Hq Hw Hno _].
  destruct (sl_work s) as [p|] eqn:Ew; [|by specialize (Hno eq_refl)].
  destruct (owns_end _ _ _ _ _ _ _ _ (shared ps) (Hw p eq_refl)) as (g' & out & [es' ->] & Hl).
  destruct (logged_lines _ _ _ _ _ _ Hl eq_refl) as (path & b & ok & E).
  destruct (lines_prefix _ _ _ _ _ _ _ _ E Hin) as [-> Hes]. rewrite Hf. destruct Hes as [->| ->]; [right|left; eauto].
  split; [done|]. exists o, s. split_and!; [done| |done].
  assert (∀ o, p ≠ Done o) as Hdone.
  { intros out' ->. by destruct (logged_lines _ _ _ _ _ _ (Hw _ eq_refl) eq_refl) as (? & ? & ? & ?). }
  unfold slot_of in Hs. destruct (ps_servers ps o.1) as [sv|] eqn:Esv; [|done].
  pose proof (sk_slots _ _ (pv_server _ _ _ _ Hinv _ _ Esv) _ _ Hs) as Hsk. unfold slot_ok in Hsk.
  destruct (sl_conn s) as [| |resp| |]; [| done| |..]; try (by destruct (Hsk _ Ew) as [out' ?]; destruct (Hdone out')).
  destruct Hsk as [(out' & Hw' & _) _ _]. destruct (Hdone out'). congruence.
Qed.

(** C18 The request log of a process that runs several servers, at once or one
    after the other: an operation that was answered has exactly two lines,
    under the id of its answer, which no other answer of the process carries;
    a line that says a request started is followed by the one that says it is
    over, unless a server is still at work on it. *)
Theorem process_logged (ps : Service) :
  ps_reach ps → (ps_seq ps <= U64_MOD)%N →
  (∀ o s out, slot_of (ps_servers ps) o = Some s → sl_work s = Some (Done out) → out ≠ OutDropped →
     ∃ id path n, outcome_id out = Some id ∧
       filter (λ e, event_id e = id) (ps_log ps) = lines id (op_name (sl_req s)) path n (outcome_ok out) ∧
       ∀ o' s' out', o' ≠ o → slot_of (ps_servers ps) o' = Some s' → sl_work s' = Some (Done out') →
         outcome_id out' ≠ Some id) ∧
  (∀ id op, Started id op ∈ ps_log ps →
     (∃ path n ok, filter (λ e, event_id e = id) (ps_log ps) = lines id op path n ok) ∨
     filter (λ e, event_id e = id) (ps_log ps) = [Started id op] ∧
       ∃ o s, slot_of (ps_servers ps) o = Some s ∧ sl_conn s = Handling ∧ op_name (sl_req s) = op).
Proof using Hcap Hheader SemLaws Laws RuleLaws.
  intros Hr Hseq. split; [|intros id op; by apply started_open].
  destruct (ps_reach_log _ Hr) as (owners & gs & [Hlen Hnd Hsl Hown Hod]). destruct (Hod Hseq) as [On Od Oe _].
  assert (∀ o s out, slot_of (ps_servers ps) o = Some s → sl_work s = Some (Done out) → out ≠ OutDropped →
    ∃ j n x path b, owners !! j = Some o ∧ gs !! j = Some (Some (n, x, lines x (op_name (sl_req s)) path b (outcome_ok out))) ∧
      outcome_id out = Some x) as Hlog.
  { intros o s out Hs Hw Hd. destruct (list_elem_of_lookup_1 owners o) as [j Hj]; [apply Hsl; by eexists|].
    destruct (lookup_lt_is_Some_2 gs j) as [g Hg]; [rewrite <- Hlen; by eapply lookup_lt_Some|].
    destruct (Hown _ _ _ _ Hj Hg Hs) as [Hq Hwk _ _].
    destruct (logged_answer _ _ _ (Hwk _ Hw) Hd) as (n & x & path & b & -> & E); [by intros b Hb; rewrite Hb in Hq|].
    by exists j, n, x, path, b. }
  intros o s out Hs Hw Hd. destruct (Hlog _ _ _ Hs Hw Hd) as (j & n & x & path & b & Hj & Hg & E).
  exists x, path, b. split_and!; [done|by apply (Oe _ _ _ _ Hg)|]. intros o' s' out' Hne Hs' Hw' E'.
  assert (out' ≠ OutDropped) as Hd' by (by intros ->).
  destruct (Hlog _ _ _ Hs' Hw' Hd') as (j' & n' & x' & path' & b' & Hj' & Hg' & Ex). rewrite E' in Ex. injection Ex as <-.
  destruct (On _ _ _ _ Hg) as [Hlt Hn], (On _ _ _ _ Hg') as [Hlt' Hn']. cbn [shared gw_seq] in *.
  assert (n' = n) as -> by (eapply id_of_inj; [..|done|done]; lia). rewrite (Od _ _ _ _ _ _ _ Hg' Hg) in Hj'. congruence.
Qed.

End log.

(** ** Witness *)

(** The download is answered, and its lines are in the log. *)
Example process_logged_witness :
  let out := OutGet (R:=str) (IoError:=unit) (Ok demo_response) in
  ∃ id path n, outcome_id out = Some id ∧ filter (λ e, event_id e = id) (ps_log svc_stopped) = lines id $"GetObject" path n true.
Proof.
  intros out. destruct (process_logged demo_parse demo_show demo_worlds one_slot demo_serialize id (λ _, Err tt) demo_cap
    (λ _, demo_header) svc_stopped svc_stopped_reach) as [Hlog _]; [by vm_compute|].
  assert ((λ s, (op_name (sl_req s), sl_work s)) <$> slot_of (ps_servers svc_stopped) (inl 0, 0) =
    Some ($"GetObject", Some (Done out))) as E by (vm_compute; reflexivity).
  destruct (slot_of (ps_servers svc_stopped) (inl 0, 0)) as [s|] eqn:Es; [|discriminate E].
  apply (inj Some), pair_equal_spec in E as [Eo Ew].
  destruct (Hlog _ _ _ Es Ew) as (id & path & n & H1 & H2 & _); [discriminate|]. rewrite Eo in H2.
  exists id, path, n. split; [exact H1|exact H2].
Defined.
