(* ===== verification/Stop.v ===== *)
(** [stop] of the Python object: it waits for its server, with whatever that is
    at work on, and leaves nothing behind. *)

From stdpp Require Import functions.
From S2P Require Import Prelude Prog Bytes Config Path Range Metadata HdfsError Listing.
From S2P Require Import Cache Caches SortedListing Merge Paging Gateway ListObjects Backpressure Server Bindings.
From S2P Require Import Invariant Objects Listings Requests RequestLog Demo Served Front Process Progress PyService.
From S2P Require Import ServiceDemo ServiceLog.

#[local] Arguments mkHttpResponse {Head B}.
#[local] Arguments resp_head {Head B}.
#[local] Arguments resp_body {Head B}.

Section stop.
Context {Nt : Type} `{!Notify Nt} `{!PyBorrow} {SocketAddr Listener : Type}.
Context (parse_addr : str → result SocketAddr str) (addr_string : SocketAddr → str).
Context {L : Type → Type} `{!Lru str L} {R IoError : Type} `{!Base64}.
Context {Sem Head HttpError : Type} `{!Semaphore Sem}.
Context (w : Key → World (R:=R) (IoError:=IoError)) (g0 : Bindings.Gateway).

Abbreviation config := (py_config g0).
Abbreviation mapper := (new_mapper config).
Abbreviation State := (GwState (L:=L) (R:=R)).
Abbreviation Out := (Outcome R IoError).
Abbreviation Body := (FrontBody (L:=L) (R:=R) (IoError:=IoError)).

Context (serialize : Out → result (Head * option str) HttpError) (status_head : N → Head).
Context (to_http_response : S3Error → result (HttpResponse (Head:=Head) Body) HttpError).
Context `{Laws : !NotifyLaws Nt} `{RuleLaws : !PyBorrowLaws} `{SemLaws : !SemaphoreLaws Sem}.
Context (Hcap : (N.max (max_concurrent_requests config) 1 ≤ max_permits (Sem:=Sem))%N).
Context (Hheader : ∀ k, header_law (w k)).

Abbreviation Server := (Server (L:=L) (R:=R) (IoError:=IoError) (Sem:=Sem) (Head:=Head) (HttpError:=HttpError)).
Abbreviation Service := (Service (Nt:=Nt) (SocketAddr:=SocketAddr) (Listener:=Listener) (L:=L) (R:=R)
  (IoError:=IoError) (Sem:=Sem) (Head:=Head) (HttpError:=HttpError)).
Abbreviation ps_step := (ps_step parse_addr addr_string w g0 serialize status_head to_http_response).
Abbreviation ps_any := (ps_any parse_addr addr_string w g0 serialize status_head to_http_response).
Abbreviation ps_reach := (ps_reach parse_addr addr_string w g0 serialize status_head to_http_response).
Abbreviation on_server := (on_server w g0 serialize status_head to_http_response).
Abbreviation fstep k := (front_step (Sem:=Sem) (w k) mapper config serialize status_head to_http_response).

(** [stop] is never stuck, whatever its server is at: at every moment of its
    wait, the server's thread can end, its requests being dropped where they
    await, without any step of a client or of another Python thread, and then
    [stop] returns. *)
Theorem stop_ends (ps : Service) i h :
  ps_reach ps → p_calls (ps_proc ps) !! i = Some (Some (InJoin h)) →
  ∃ ps1 ps2, rtc ps_any ps ps1 ∧ p_calls (ps_proc ps1) = p_calls (ps_proc ps) ∧
    ps_step ps1 (Some (Stop, Returns (Ok tt))) ps2.
Proof using Hcap SemLaws Laws RuleLaws.
  intros Hr Hi. pose proof (ps_reach_inv _ _ _ _ _ _ _ Hcap _ Hr) as Hinv.
  destruct (inv_joining _ _ _ _ (py_reach_inv _ _ _ _ (pv_reach _ _ _ _ Hinv)) i h Hi) as (_ & t & Ht & Hb & Ha).
  assert (∃ ps0, rtc ps_any ps ps0 ∧ ps_inv parse_addr addr_string g0 ps0 ∧ ps_proc ps0 = ps_proc ps ∧
    ∀ sv, ps_servers ps0 (inl h) = Some sv → all_over (se_front sv)) as (ps0 & Hr0 & Hinv0 & Hp0 & Hover).
  { destruct (ps_servers ps (inl h)) as [sv|] eqn:Esv.
    2:{ exists ps. split_and!; [apply rtc_refl|done..|]. congruence. }
    assert (at_work (stage (ps_proc ps) (inl h)) ∨ stage (ps_proc ps) (inl h) = Over) as [Hw|Ho].
    { cbn [stage]. rewrite Ht. cbn. unfold thread_stage. destruct (th_phase t); cbn; tauto. }
    - destruct (drop_all (w (inl h)) mapper config serialize status_head to_http_response
        (with_shared (ps_seq ps) (ps_log ps) (se_front sv))) as (evs & Hn & Hov).
      destruct (ps_drops parse_addr addr_string w g0 serialize status_head to_http_response evs ps (inl h) sv Hn Hw Esv) as (ps0 & sv0 & Hrd & Hp & Hs & He).
      exists ps0. split_and!; [done| |done|].
      + assert (ps_reach ps0) as Hr0 by (unfold PyService.ps_reach in *; by etransitivity). exact (ps_reach_inv _ _ _ _ _ _ _ Hcap _ Hr0).
      + rewrite Hs. intros sv' [= <-]. rewrite <- He in Hov. exact Hov.
    - exists ps. split_and!; [apply rtc_refl|done..|]. pose proof (pv_stage _ _ _ _ Hinv (inl h)) as Hg. by rewrite Ho in Hg. }
  rewrite <- Hp0 in *. destruct (ps_proc ps0) as [g sd ts cs] eqn:Ep. cbn [p_threads p_calls p_shutdown] in *.
  destruct (server_ends parse_addr addr_string (py_config g) t sd Hb Ha) as (t' & sd' & Hts & Hf).
  destruct (ps_native_steps parse_addr addr_string w g0 serialize status_head to_http_response Hcap g cs h (t, sd) (t', sd')
    Hts ps0 ts Hinv0 Ep Ht Hb Hover) as (ps1 & Hr1 & Hinv1 & Hp1).
  cbn [fst snd] in *. destruct ps1 as [p1 srv seq log]. cbn [ps_proc] in *. subst p1.
  eexists _, _. split_and!; [by etransitivity|done|]. apply ps_python.
  - eapply py_joined; [exact Hi| |exact Hf]. apply list_lookup_insert_eq. by eapply lookup_lt_Some.
  - intros k. pose proof (pv_stage _ _ _ _ Hinv1 k) as Hk. cbn [ps_proc ps_servers] in Hk.
    destruct k as [h'|j]; [by apply may_move_same|]. cbn [stage p_calls] in Hk |- *.
    destruct (decide (j = i)) as [->|Hne]; [|rewrite list_lookup_insert_ne by done; by apply may_move_same].
    rewrite Hi in Hk. cbn in Hk. rewrite Hk. by intros sv.
Qed.

(** ** After [stop] *)

(** A server that is gone stays as it is. *)
Lemma gone_stays (ps ps' : Service) k :
  rtc ps_any ps ps' → stage (ps_proc ps) k = Over →
  stage (ps_proc ps') k = Over ∧ ps_servers ps' k = ps_servers ps k.
Proof using Type.
  intros Hr Hk. revert Hk. induction Hr as [ps|ps1 ps2 ps3 [l Hst] _ IH]; [done|]. intros Hk.
  assert (stage (ps_proc ps2) k = Over ∧ ps_servers ps2 k = ps_servers ps1 k) as [H2 <-]; [|by apply IH].
  destruct Hst as [p l p' srv seq log Hst Hm|ps k' sv c q Hk' Hsv Hc Hq|ps k' sv ev Hk' Hsv Hev].
  - cbn [ps_proc ps_servers] in *. pose proof (stage_step _ _ _ _ _ k Hst) as Hn. rewrite Hk in *.
    by inversion Hn.
  - cbn [PyService.on_server ps_proc ps_servers]. split; [done|]. apply fn_lookup_insert_ne. intros ->.
    by rewrite Hk in Hk'.
  - cbn [PyService.on_server ps_proc ps_servers]. split; [done|]. apply fn_lookup_insert_ne. intros ->.
    by rewrite Hk in Hk'.
Qed.

(** When [stop] returns, no other method is in progress. *)
Lemma stop_alone (p p' : Proc (Nt:=Nt) (SocketAddr:=SocketAddr) (Listener:=Listener)) j c :
  py_reach parse_addr addr_string g0 p → py_step parse_addr addr_string p (Some (Stop, Returns (Ok tt))) p' →
  p_calls p' !! j ≠ Some (Some c).
Proof using Laws RuleLaws.
  intros Hr Hst. pose proof (py_reach_inv _ _ _ _ Hr) as Hp.
  inversion Hst as [| | | | | |gw sd ts cs i Hi Hg| |gw sd ts cs i h t Hi Ht Hf| |? ? ? ? ? ? ? ? o|]; subst;
    [| |by destruct o]; cbn [p_calls] in *; intros [Hne Hj]%calls_drop; destruct Hne; symmetry;
    by apply (inv_excl _ _ _ _ Hp i j _ _ Hi Hj).
Qed.

(** C9 When [stop] returns without an error, the servers are gone with all their
    requests: each was answered to the end or dropped, every permit is back,
    every line of the log that says a request started is followed by the one
    that says it is over, and no server of the past will touch anything. *)
Theorem stop_drains (ps ps' : Service) :
  ps_reach ps → ps_step ps (Some (Stop, Returns (Ok tt))) ps' →
  is_running (ps_proc ps') = false ∧
  (∀ k sv, ps_servers ps' k = Some sv →
     all_over (se_front sv) ∧ permits (f_sem (se_front sv)) = N.max (max_concurrent_requests config) 1 ∧
     ∀ ps'', rtc ps_any ps' ps'' → ps_servers ps'' k = Some sv) ∧
  ((ps_seq ps' <= U64_MOD)%N → ∀ id op, Started id op ∈ ps_log ps' →
     ∃ path n ok, filter (λ e, event_id e = id) (ps_log ps') = lines id op path n ok).
Proof using Hcap Hheader SemLaws Laws RuleLaws.
  intros Hr Hst. pose proof (ps_reach_inv _ _ _ _ _ _ _ Hcap _ Hr) as Hinv.
  pose proof (ps_step_inv _ _ _ _ _ _ _ Hcap _ _ _ Hst Hinv) as Hinv'.
  assert (ps_reach ps') as Hr' by (eapply rtc_r; [exact Hr|by eexists]).
  assert (py_step parse_addr addr_string (ps_proc ps) (Some (Stop, Returns (Ok tt))) (ps_proc ps')) as Hpy by (by inversion Hst).
  pose proof (pv_reach _ _ _ _ Hinv) as Hp. pose proof (pv_reach _ _ _ _ Hinv') as Hp'.
  assert (∀ j c, p_calls (ps_proc ps') !! j ≠ Some (Some c)) as Halone by (intros j c; exact (stop_alone _ _ j c Hp Hpy)).
  destruct (stop_joins _ _ _ _ _ Hp Hpy) as (Hrun & Hth & _).
  assert (∀ k sv, ps_servers ps' k = Some sv → stage (ps_proc ps') k = Over) as Hgone.
  { intros [h|j] sv Hsv.
    - destruct (pv_bound _ _ _ _ Hinv' h sv Hsv) as (t & addr & Ht & Hm). cbn [stage]. rewrite Ht. cbn. unfold thread_stage.
      destruct (is_finished t) eqn:Ef; [unfold is_finished in Ef; by destruct (th_phase t)|].
      destruct (py_reach_bound _ _ _ _ Hp' h t addr Ht Hm Ef) as [E|(i & [E|E])]; [congruence|by destruct (Halone i _ E)..].
    - pose proof (pv_stage _ _ _ _ Hinv' (inr j)) as Hg. cbn [stage] in *. rewrite Hsv in Hg.
      destruct (p_calls (ps_proc ps') !! j) as [[c|]|] eqn:E; [by destruct (Halone j c)|done|done]. }
  assert (∀ k sv, ps_servers ps' k = Some sv → all_over (se_front sv)) as Hover.
  { intros k sv Hsv. pose proof (pv_stage _ _ _ _ Hinv' k) as Hg. rewrite (Hgone k sv Hsv) in Hg. by apply Hg. }
  split_and!; [done| |].
  - intros k sv Hsv. split_and!; [by eapply Hover| |].
    + apply accounted_over; [|by eapply Hover]. by apply (sk_accounted _ _ (pv_server _ _ _ _ Hinv' k sv Hsv)).
    + intros ps'' Hst'. rewrite <- Hsv. apply (gone_stays ps' ps'' k); [done|by eapply Hgone].
  - intros Hseq id op He. destruct (started_open _ _ _ _ _ _ _ Hcap Hheader _ _ _ Hr' Hseq He) as [?|(_ & o & s & Hs & Hc & _)]; [done|].
    unfold slot_of in Hs. destruct (ps_servers ps' o.1) as [sv|] eqn:Esv; [|done].
    destruct (Hover _ _ Esv _ _ Hs). by rewrite Hc.
Qed.
End stop.

(** ** Witnesses *)

Example stop_ends_witness :
  ∃ ps1 ps2, rtc demo_any svc_joining ps1 ∧ p_calls (ps_proc ps1) = p_calls (ps_proc svc_joining) ∧
    demo_ps_step ps1 (Some (Stop, Returns (Ok tt))) ps2.
Proof.
  exact (stop_ends demo_parse demo_show demo_worlds one_slot demo_serialize id (λ _, Err tt) demo_cap svc_joining 1 0
    (proj1 svc_joining_fine) eq_refl).
Defined.

Example stop_drains_witness :
  is_running (ps_proc svc_stopped) = false ∧
  (∀ k sv, ps_servers svc_stopped k = Some sv →
     all_over (se_front sv) ∧ permits (f_sem (se_front sv)) = 1%N ∧
     ∀ ps, rtc demo_any svc_stopped ps → ps_servers ps k = Some sv) ∧
  (∀ id op, Started id op ∈ ps_log svc_stopped →
     ∃ path n ok, filter (λ e, event_id e = id) (ps_log svc_stopped) = lines id op path n ok).
Proof.
  destruct (stop_drains demo_parse demo_show demo_worlds one_slot demo_serialize id (λ _, Err tt) demo_cap
    (λ _, demo_header) svc_ending svc_stopped (proj1 svc_ending_fine) svc_stop_returns) as (H1 & H2 & H3).
  split_and!; [exact H1|exact H2|]. apply H3. by vm_compute.
Defined.
