(* ===== verification/Fair.v ===== *)
(** [stop] returns: in a run of the Python process in which the thread of the
    server, its tasks and the clock keep moving, and no more requests are read.

    A run is an infinite sequence of states, each a step from the one before or
    the same. What keeps moving is said so: again and again, what is due is
    done. *)

From stdpp Require Import functions.
From S2P Require Import Prelude Prog Bytes Config Path Range Metadata HdfsError Listing.
From S2P Require Import Cache Caches SortedListing Merge Paging Gateway ListObjects Backpressure Server Bindings.
From S2P Require Import Invariant Objects Listings Requests RequestLog Demo Served Front Process Progress Ending Drain.
From S2P Require Import PyService ServiceDemo ServiceLog Stop.

#[local] Arguments mkHttpResponse {Head B}.
#[local] Arguments resp_head {Head B}.
#[local] Arguments resp_body {Head B}.

Section fair.
Context {Nt : Type} `{!Notify Nt} `{!PyBorrow} {SocketAddr Listener : Type}.
Context (parse_addr : str → result SocketAddr str) (addr_string : SocketAddr → str).
Context {L : Type → Type} `{!Lru str L} {R IoError : Type} `{!Base64}.
Context {Sem Head HttpError : Type} `{!Semaphore Sem}.
Context (w : Key → World (R:=R) (IoError:=IoError)) (g0 : Bindings.Gateway).

Abbreviation config := (py_config g0).
Abbreviation mapper := (new_mapper config).
Abbreviation State := (GwState (L:=L) (R:=R)).
Abbreviation Out := (Outcome R IoError).
Abbreviation Body := (FrontBody (L:=L) (R:=R) (IoError:=IoError)).

Context (serialize : Out → result (Head * option str) HttpError) (status_head : N → Head).
Context (to_http_response : S3Error → result (HttpResponse (Head:=Head) Body) HttpError).
Context `{Laws : !NotifyLaws Nt} `{RuleLaws : !PyBorrowLaws} `{SemLaws : !SemaphoreLaws Sem}.
Context (Hcap : (N.max (max_concurrent_requests config) 1 ≤ max_permits (Sem:=Sem))%N).
Context (Hheader : ∀ k, header_law (w k)).

Abbreviation Server := (Server (L:=L) (R:=R) (IoError:=IoError) (Sem:=Sem) (Head:=Head) (HttpError:=HttpError)).
Abbreviation Service := (Service (Nt:=Nt) (SocketAddr:=SocketAddr) (Listener:=Listener) (L:=L) (R:=R)
  (IoError:=IoError) (Sem:=Sem) (Head:=Head) (HttpError:=HttpError)).
Abbreviation ps_step := (ps_step parse_addr addr_string w g0 serialize status_head to_http_response).
Abbreviation ps_any := (ps_any parse_addr addr_string w g0 serialize status_head to_http_response).
Abbreviation ps_reach := (ps_reach parse_addr addr_string w g0 serialize status_head to_http_response).
Abbreviation on_server := (on_server w g0 serialize status_head to_http_response).
Abbreviation fstep k := (front_step (Sem:=Sem) (w k) mapper config serialize status_head to_http_response).

(** The call [i] of [stop], which waits for the thread [h]. *)
Context (i h : nat).

Definition joining (ps : Service) : Prop := p_calls (ps_proc ps) !! i = Some (Some (InJoin h)).

Lemma joining_step ps l ps' :
  ps_step ps l ps' → joining ps →
  joining ps' ∨ l = Some (Stop, Returns (Ok tt)) ∧ p_calls (ps_proc ps') !! i = Some None.
Proof using Type.
  unfold joining. intros Hst Hj. destruct Hst as [p l p' srv seq log Hst Hm| |]; [|by left..]. cbn [ps_proc] in *. clear Hm.
  destruct Hst as [| |g sd ts cs boot|? ? ? cs i' h' t r g' Hi Ht Hr| |g sd ts cs
    |g sd ts cs i' Hi Hg|? ? ? cs i' h' Hi Hg|g sd ts cs i' h' t Hi Ht Hf|g sd ts cs boot Hm
    |? ? ? cs i' boot s sd' o Hi Hb|? ? ts cs h' t t' sd' Ht Hs]; cbn [p_calls] in *; try (by left);
    try (left; by apply lookup_app_l_Some);
    (destruct (decide (i' = i)) as [->|Hne]; [|left; by rewrite list_lookup_insert_ne]); try congruence.
  right. split; [done|]. apply list_lookup_insert_eq. by eapply lookup_lt_Some.
Qed.

(** How far the thread is. *)
Definition phase_rank (t : Thread (SocketAddr:=SocketAddr) (Listener:=Listener)) : nat :=
  match th_phase t with
  | Booting => 0
  | Serving s => match sv_phase s with Accepting => 1 | Draining _ _ => 2 | Returned _ _ => 3 end
  | Closing => 4
  | Exited => 5
  end.

Definition rank (ps : Service) : nat := or_else (phase_rank <$> p_threads (ps_proc ps) !! h) 0.

Lemma rank_step ps l ps' : ps_step ps l ps' → rank ps <= rank ps'.
Proof using Type.
  clear Hcap. unfold rank. intros Hst. destruct Hst as [p l p' srv seq log Hst Hm| |]; [|done..]. cbn [ps_proc] in *. clear Hm.
  destruct Hst as [| |g sd ts cs boot| | | | | | | | |g sd ts cs h' t t' sd' Ht Hs]; cbn [p_threads]; try done.
  - destruct (ts !! h) as [t|] eqn:E; [by rewrite (lookup_app_l_Some _ _ _ _ E)|cbn; lia].
  - destruct (decide (h' = h)) as [->|Hne]; [|by rewrite list_lookup_insert_ne].
    rewrite Ht, list_lookup_insert_eq by (by eapply lookup_lt_Some). cbn.
    inversion Hs as [|? ? ? ? ? ? Hsv| | |]; subst; unfold phase_rank; cbn [th_phase sv_phase]; try lia;
      [|destruct s as [[] ? ?]; cbn; lia].
    inversion Hsv; subst; cbn [sv_phase]; lia.
Qed.

(** ** The exchanges of the server *)

Abbreviation slot_next := (slot_next (Sem:=Sem) (w (inl h)) mapper config serialize status_head to_http_response).
Abbreviation inv := (ps_inv parse_addr addr_string g0).

Definition slot_at (ps : Service) (j : nat) := slot_of (ps_servers ps) (inl h, j).

Lemma slot_at_front (ps : Service) (sv : Server) j f conn :
  slot_at (mkService (ps_proc ps) (<[inl h := Some (mkServer (se_conns sv) f conn)]> (ps_servers ps))
             (gw_seq (f_gw f)) (gw_events (f_gw f))) j = f_slots f !! j.
Proof using Type. unfold slot_at, slot_of. cbn [ps_servers fst snd]. by rewrite fn_lookup_insert. Qed.

Lemma slot_at_server (ps : Service) (sv : Server) j : ps_servers ps (inl h) = Some sv → slot_at ps j = f_slots (se_front sv) !! j.
Proof using Type. intros E. unfold slot_at, slot_of. cbn [fst snd]. by rewrite E. Qed.

(** A step is one of an event of the server, or leaves its exchanges alone. *)
Lemma server_event ps l ps' :
  ps_step ps l ps' → inv ps →
  (∀ j, slot_at ps' j = slot_at ps j) ∨
  ∃ c ev, (∀ j, slot_at ps j = f_slots c !! j) ∧ ∀ j, slot_at ps' j = f_slots (fstep (inl h) c ev) !! j.
Proof using Type.
  intros Hst Hinv. destruct Hst as [p l p' srv seq log Hst Hm|ps k sv c q Hk Hsv Hc Hq|ps k sv ev Hk Hsv Hev].
  - left. intros j. unfold slot_at, slot_of. cbn [ps_servers fst snd].
    apply moved_slots, (pv_stage _ _ _ _ Hinv (inl h)).
  - destruct (decide (k = inl h)) as [->|Hne].
    + right. exists (with_shared (ps_seq ps) (ps_log ps) (se_front sv)), (FArrive q).
      split; [intros j; by apply slot_at_server|]. intros j. unfold PyService.on_server. apply slot_at_front.
    + left. intros j. unfold slot_at, slot_of. cbn [PyService.on_server ps_servers fst snd]. by rewrite fn_lookup_insert_ne.
  - destruct (decide (k = inl h)) as [->|Hne].
    + right. exists (with_shared (ps_seq ps) (ps_log ps) (se_front sv)), ev.
      split; [intros j; by apply slot_at_server|]. intros j. unfold PyService.on_server. apply slot_at_front.
    + left. intros j. unfold slot_at, slot_of. cbn [PyService.on_server ps_servers fst snd]. by rewrite fn_lookup_insert_ne.
Qed.

(** One that is at work stays, or takes a step of its own, *)
Lemma slot_evolves ps l ps' j s :
  ps_step ps l ps' → inv ps → slot_at ps j = Some s → occupies (sl_conn s) →
  ∃ s', slot_at ps' j = Some s' ∧ (s' = s ∨ slot_next s s').
Proof using Type.
  intros Hst Hinv Hs Ho. destruct (server_event _ _ _ Hst Hinv) as [E|(c & ev & E & E')]; [exists s; rewrite E; auto|].
  rewrite E in Hs. destruct (slot_goes (w (inl h)) mapper config serialize status_head to_http_response c ev j s Hs Ho)
    as (s' & Hs' & H). exists s'. by rewrite E'.
Qed.

(** and one that is over stays so. *)
Lemma slot_over_stays ps l ps' j :
  ps_step ps l ps' → inv ps → is_Some (slot_at ps j) → (∀ s, slot_at ps j = Some s → ¬ occupies (sl_conn s)) →
  ∀ s, slot_at ps' j = Some s → ¬ occupies (sl_conn s).
Proof using Type.
  intros Hst Hinv Hj Ho s. destruct (server_event _ _ _ Hst Hinv) as [E|(c & ev & E & E')]; [rewrite E; apply Ho|].
  rewrite E in Hj. rewrite E'. apply slot_over; [done|]. intros s'. rewrite <- E. apply Ho.
Qed.

(** ** What keeps moving *)

Context (run : nat → Service).
Context (Hstart : ps_reach (run 0)) (Hrun : ∀ n, ps_any (run n) (run (S n)) ∨ run (S n) = run n).

Definition returned (n : nat) : Prop :=
  ps_step (run n) (Some (Stop, Returns (Ok tt))) (run (S n)) ∧ p_calls (ps_proc (run (S n))) !! i = Some None.

(** The thread has something to do: the signal is there; the drain is over, or
    out of time; [serve] has returned; the tasks of the runtime are gone. *)
Definition due (ps : Service) : Prop := ∃ t, p_threads (ps_proc ps) !! h = Some t ∧
  match th_phase t with
  | Booting | Exited => False
  | Serving s =>
      match sv_phase s with
      | Accepting => is_Some (notified (p_shutdown (ps_proc ps)))
      | Draining since _ => all_closed (sv_conns s) = true ∨ (since + drain_limit <= sv_now s)%N
      | Returned _ _ => True
      end
  | Closing => ∀ sv, ps_servers ps (inl h) = Some sv → all_over (se_front sv)
  end.

(** The executor, the clock, and the scheduler of the threads; and [hyper], which
    reads no more requests. *)
Record stop_served (n0 : nat) : Prop := {
  ss_requests : ∀ n j, n0 <= n → is_Some (slot_at (run (S n)) j) → is_Some (slot_at (run n) j);
  ss_thread : ∀ n, ∃ m, n <= m ∧ (due (run m) → rank (run m) < rank (run (S m)));
  ss_time : ∀ n b, ∃ m, n <= m ∧ ∀ s, stage (ps_proc (run m)) (inl h) = Serves s → (b <= sv_now s)%N;
  ss_tasks : ∀ n j, ∃ m, n <= m ∧ ∀ s, rank (run m) = 4 → slot_at (run m) j = Some s → occupies (sl_conn s) →
    ∃ s', slot_at (run (S m)) j = Some s' ∧ slot_next s s';
  ss_join : ∀ n, ∃ m, n <= m ∧ (joining (run m) → rank (run m) = 5 → returned m);
}.

Context (n0 : nat) (Hserved : stop_served n0).

Lemma run_reach n : ps_reach (run n).
Proof using Hstart Hrun.
  induction n as [|n IH]; [exact Hstart|]. destruct (Hrun n) as [Hst| ->]; [|exact IH]. eapply rtc_r; [exact IH|exact Hst].
Qed.

Lemma run_inv n : inv (run n).
Proof using Hstart Hrun Hcap SemLaws Laws RuleLaws. exact (ps_reach_inv _ _ _ _ _ _ _ Hcap _ (run_reach n)). Qed.

(** Past [r], or returned. *)
Definition past (r n : nat) : Prop := (∃ m, n0 <= m ∧ returned m) ∨ joining (run n) ∧ r <= rank (run n).

Lemma run_step n :
  n0 <= n → joining (run n) →
  (∃ m, n0 <= m ∧ returned m) ∨ joining (run (S n)) ∧ rank (run n) <= rank (run (S n)).
Proof using Hrun.
  intros Hn Hj. destruct (Hrun n) as [[l Hst]| ->]; [|by right].
  destruct (joining_step _ _ _ Hst Hj) as [Hj'|[-> Hi]]; [right|left].
  - split; [done|]. by eapply rank_step.
  - exists n. by split.
Qed.

Lemma past_stays r n : n0 <= n → past r n → past r (S n).
Proof using Hrun.
  intros Hn [?|[Hj Hr]]; [by left|]. destruct (run_step n Hn Hj) as [?|[Hj' Hr']]; [by left|right]. split; [done|].
  clear Hcap. lia.
Qed.

Lemma past_le r n m : n0 <= n → n <= m → past r n → past r m.
Proof using Hrun. intros Hn Hm Hp. induction Hm as [|m Hm IH]; [done|]. apply past_stays; [clear Hcap; lia|exact IH]. Qed.

(** ** The thread ends *)

Lemma joined_thread n :
  joining (run n) → ∃ t, p_threads (ps_proc (run n)) !! h = Some t ∧ rank (run n) = phase_rank t ∧ th_phase t ≠ Booting ∧
    (accepting t = true → is_Some (notified (p_shutdown (ps_proc (run n))))).
Proof using Hstart Hrun Hcap SemLaws Laws RuleLaws.
  intros Hj. destruct (inv_joining _ _ _ _ (py_reach_inv _ _ _ _ (pv_reach _ _ _ _ (run_inv n))) i h Hj)
    as (_ & t & Ht & Hb & Ha).
  exists t. split_and!; [done| |done..]. unfold rank. by rewrite Ht.
Qed.

Lemma rank_at n t r :
  p_threads (ps_proc (run n)) !! h = Some t → rank (run n) = r → phase_rank t = r.
Proof using Type. unfold rank. intros ->. done. Qed.

(** A phase in which the thread has something to do, once [X] holds, is left. *)
Lemma phase_left r (X : nat → Prop) n :
  (∀ m, n0 <= m → joining (run m) → rank (run m) = r → X m → due (run m)) →
  (∀ m, n0 <= m → joining (run m) → rank (run m) = r → rank (run (S m)) = r → X m → X (S m)) →
  n0 <= n → joining (run n) → rank (run n) = r → X n → ∃ m, n <= m ∧ past (S r) m.
Proof using Hserved Hrun.
  intros Hdue Hstay Hn Hj Hr HX.
  apply (until n0 (λ m, joining (run m) ∧ rank (run m) = r ∧ X m) _ (λ m, rank (run m) < rank (run (S m)))); [|..|done|done].
  - clear n Hn Hj Hr HX. intros n. destruct (ss_thread _ Hserved (n + n0)) as (m & Hm & HT).
    exists m. clear Hcap. split; [lia|]. intros (Hj & Hr & HX). apply HT, Hdue; [lia|done..].
  - intros m Hm (Hj' & Hr' & HX'). destruct (run_step m Hm Hj') as [?|[Hj2 Hr2]]; [by right; left|].
    clear Hcap. destruct (decide (rank (run (S m)) = r)) as [E|E]; [left|right; right; split; [done|lia]].
    split_and!; [done|done|]. by apply Hstay.
  - intros m Hm (Hj' & Hr' & HX') HT. destruct (run_step m Hm Hj') as [?|[Hj2 Hr2]]; [by left|]. clear Hcap.
    right. split; [done|lia].
Qed.

Lemma accepting_left n : n0 <= n → joining (run n) → rank (run n) = 1 → ∃ m, n <= m ∧ past 2 m.
Proof using Hserved Hstart Hrun Hcap SemLaws Laws RuleLaws.
  intros Hn Hj Hr. apply (phase_left 1 (λ _, True) n); [|done..]. intros m _ Hj' Hr' _.
  destruct (joined_thread m Hj') as (t & Ht & Hk & Hb & Ha). exists t. split; [done|]. rewrite Hr' in Hk.
  unfold phase_rank, accepting in *. destruct (th_phase t) as [|s| |]; try done. destruct (sv_phase s); [by apply Ha|done..].
Qed.

Lemma returned_left n : n0 <= n → joining (run n) → rank (run n) = 3 → ∃ m, n <= m ∧ past 4 m.
Proof using Hserved Hstart Hrun Hcap SemLaws Laws RuleLaws.
  intros Hn Hj Hr. apply (phase_left 3 (λ _, True) n); [|done..]. intros m _ Hj' Hr' _.
  destruct (joined_thread m Hj') as (t & Ht & Hk & _). exists t. split; [done|]. rewrite Hr' in Hk.
  unfold phase_rank in *. destruct (th_phase t) as [|s| |]; try done. by destruct (sv_phase s).
Qed.

(** The drain, since [since], at the time [now]. *)
Definition draining (since now : N) (m : nat) : Prop := ∃ t s k, p_threads (ps_proc (run m)) !! h = Some t ∧
  th_phase t = Serving s ∧ sv_phase s = Draining since k ∧ (now <= sv_now s)%N.

Lemma draining_stays since now m :
  rank (run (S m)) = 2 → draining since now m → draining since now (S m).
Proof using Hrun.
  unfold draining. intros Hr (t & s & k & Ht & Hp & Hs & Hnow). destruct (Hrun m) as [[l Hst]| ->]; [|by exists t, s, k].
  clear Hcap. revert Hst Hr Ht. unfold rank. generalize (run (S m)), (run m). intros ps' ps Hst.
  destruct Hst as [p l p' srv seq log Hst Hm| |]; [|intros _ Ht; exists t, s, k; split_and!; [exact Ht|done..]..]. cbn [ps_proc]. clear Hm.
  destruct Hst as [| |g sd ts cs boot| | | | | | | | |g sd ts cs h' t1 t' sd' Ht1 Hts]; cbn [p_threads]; intros Hr Ht;
    try (by exists t, s, k).
  - exists t, s, k. split; [by apply lookup_app_l_Some|done].
  - destruct (decide (h' = h)) as [->|Hne]; [|exists t, s, k; by rewrite list_lookup_insert_ne].
    rewrite Ht in Ht1. injection Ht1 as <-. rewrite list_lookup_insert_eq in Hr |- * by (by eapply lookup_lt_Some).
    cbn in Hr. inversion Hts as [|? s1 s1' ? ? ? Hsv| | |]; subst; unfold phase_rank in Hr; cbn [th_phase] in *; try done.
    injection Hp as ->. eexists _, s1', k. split; [done|]. split; [done|].
    inversion Hsv; subst; cbn [sv_phase sv_now] in *; try done; split; (done || lia).
Qed.

Lemma draining_left n : n0 <= n → joining (run n) → rank (run n) = 2 → ∃ m, n <= m ∧ past 3 m.
Proof using Hserved Hstart Hrun Hcap SemLaws Laws RuleLaws.
  intros Hn Hj Hr. assert (∃ since, draining since 0 n) as [since Hd].
  { destruct (joined_thread n Hj) as (t & Ht & Hk & _). rewrite Hr in Hk. unfold phase_rank in Hk.
    destruct (th_phase t) as [|s| |] eqn:Ep; try done. destruct (sv_phase s) as [|since k|] eqn:Es; try done.
    exists since, t, s, k. clear Hcap. split_and!; [done..|lia]. }
  assert (∃ m, n <= m ∧ (past 3 m ∨ joining (run m) ∧ rank (run m) = 2 ∧ draining since (since + drain_limit) m))
    as (m & Hm & [Hp|(Hj' & Hr' & Hd')]); [|by exists m|].
  - apply (until n0 (λ m, joining (run m) ∧ rank (run m) = 2 ∧ draining since 0 m) _
      (λ m, draining since (since + drain_limit) m)); [|..|done|done].
    + intros n'. destruct (ss_time _ Hserved n' (since + drain_limit)) as (m & Hm & HT). exists m. split; [done|].
      intros (_ & _ & t & s & k & Ht & Hp & Hs & _). exists t, s, k. split_and!; [done..|]. apply HT.
      cbn [stage]. rewrite Ht. cbn. unfold thread_stage. by rewrite Hp.
    + intros m Hm (Hj' & Hr' & Hd'). destruct (run_step m Hm Hj') as [?|[Hj2 Hr2]]; [by right; left; left|].
      destruct (decide (rank (run (S m)) = 2)) as [E|E].
      * left. split_and!; [done..|]. by apply draining_stays.
      * right. left. right. split; [done|]. clear Hcap. lia.
    + intros m Hm (Hj' & Hr' & Hd') HT. destruct (run_step m Hm Hj') as [?|[Hj2 Hr2]]; [by left; left|].
      destruct (decide (rank (run (S m)) = 2)) as [E|E].
      * right. split_and!; [done..|]. by apply draining_stays.
      * left. right. split; [done|]. clear Hcap. lia.
  - destruct (phase_left 2 (draining since (since + drain_limit)) m) as (m' & Hm' & ?); [| |clear Hcap; lia|done..|].
    + intros m' _ _ _ (t & s & k & Ht & Hp & Hs & Hnow). exists t. split; [done|]. rewrite Hp, Hs. by right.
    + intros m' _ _ _ E. by apply draining_stays.
    + exists m'. clear Hcap. split; [lia|done].
Qed.

(** ** Its tasks end *)

Definition winding (m : nat) : Prop := joining (run m) ∧ rank (run m) = 4.

Lemma winding_goes m : n0 <= m → winding m → winding (S m) ∨ past 5 (S m).
Proof using Hrun.
  intros Hm [Hj Hr]. destruct (run_step m Hm Hj) as [?|[Hj2 Hr2]]; [by right; left|]. clear Hcap.
  destruct (decide (rank (run (S m)) = 4)); [by left|right; right; split; [done|lia]].
Qed.

Abbreviation slots n := (slot_at (run n)).

Lemma slots_known m j : n0 <= m → ¬ is_Some (slots n0 j) → ¬ is_Some (slots m j).
Proof using Hserved.
  intros Hm. apply (kept n0 (λ m, ¬ is_Some (slots m j)) n0); [|clear Hcap; lia|done].
  intros k Hk Hno Hs. by apply Hno, (ss_requests _ Hserved).
Qed.

Lemma quiet_stays m j : n0 <= m → quiet (λ n, slots n) j m → quiet (λ n, slots n) j (S m).
Proof using Hserved Hstart Hrun Hcap SemLaws Laws RuleLaws.
  intros Hm Hq s Hs. destruct (Hrun m) as [[l Hst]|E]; [|rewrite E in Hs; by apply Hq].
  apply (slot_over_stays _ _ _ j Hst (run_inv m)); [|exact Hq|exact Hs].
  apply (ss_requests _ Hserved m j Hm). by eexists.
Qed.

Lemma winding_quiet n : n0 <= n → winding n → ∃ m, n <= m ∧ (past 5 m ∨ winding m ∧ ∀ j, quiet (λ n, slots n) j m).
Proof using Hserved Hstart Hrun Hcap SemLaws Laws RuleLaws.
  intros Hn Hg.
  assert (∀ m j s, n0 <= m → slots m j = Some s → occupies (sl_conn s) →
    ∃ s', slots (S m) j = Some s' ∧ (s' = s ∨ slot_next s s')) as Hstep.
  { intros m j s Hm Hs Ho. destruct (Hrun m) as [[l Hst]| ->]; [|by exists s; auto].
    by eapply slot_evolves; [apply Hst|apply run_inv|..]. }
  assert (∀ n j, ∃ m, n <= m ∧ ∀ s, winding m → slots m j = Some s → occupies (sl_conn s) →
    ∃ s', slots (S m) j = Some s' ∧ slot_next s s') as Htasks.
  { intros n' j. destruct (ss_tasks _ Hserved n' j) as (m & Hm & HT). exists m. split; [done|]. intros s [_ Hr]. by apply HT. }
  apply (tasks_end (Sem:=Sem) (w (inl h)) mapper config serialize status_head to_http_response (λ n, slots n) winding (past 5) n0
    winding_goes Hstep quiet_stays Htasks n
    (match ps_servers (run n0) (inl h) with Some sv => List.length (f_slots (se_front sv)) | None => 0 end)); [|done..].
  intros m j Hm Hs. destruct (decide (is_Some (slots n0 j))) as [[s Hs0]|Hno].
  - destruct (ps_servers (run n0) (inl h)) as [sv|] eqn:E.
    + rewrite (slot_at_server _ _ _ E) in Hs0. by eapply lookup_lt_Some.
    + unfold slot_at, slot_of in Hs0. cbn [fst snd] in Hs0. by rewrite E in Hs0.
  - destruct (slots_known m j); [clear Hcap; lia|done..].
Qed.

Lemma winding_left n : n0 <= n → joining (run n) → rank (run n) = 4 → ∃ m, n <= m ∧ past 5 m.
Proof using Hserved Hstart Hrun Hcap SemLaws Laws RuleLaws.
  intros Hn Hj Hr. destruct (winding_quiet n Hn (conj Hj Hr)) as (m & Hm & [?|[[Hj2 Hr2] Hq]]); [by exists m|].
  destruct (phase_left 4 (λ m, ∀ j, quiet (λ n, slots n) j m) m) as (m' & Hm' & ?); [..|clear Hcap; lia|done|done|done|].
  - intros m' _ Hj' Hr' Hq2. destruct (joined_thread m' Hj') as (t & Ht & Hkr & _). exists t. split; [done|].
    rewrite Hr' in Hkr. unfold phase_rank in Hkr. destruct (th_phase t) as [|s| |]; try done; [by destruct (sv_phase s)|].
    intros sv Hsv j s Hs. apply (Hq2 j). by rewrite (slot_at_server _ _ _ Hsv).
  - intros m' Hm' _ _ _ Hq2 j. by apply quiet_stays.
  - exists m'. split; [clear Hcap; lia|done].
Qed.

Lemma climb r n : n0 <= n → 1 <= r → r < 5 → past r n → ∃ m, n <= m ∧ past (S r) m.
Proof using Hserved Hstart Hrun Hcap SemLaws Laws RuleLaws.
  intros Hn H1r Hr5 [?|[Hj Hr]]; [by exists n; split; [|left]|].
  destruct (decide (rank (run n) = r)) as [E|E].
  2:{ exists n. split; [done|right]. split; [done|]. clear Hcap. lia. }
  assert (r = 1 ∨ r = 2 ∨ r = 3 ∨ r = 4) as [->|[->|[->| ->]]] by (clear Hcap; lia).
  - by apply accepting_left.
  - by apply draining_left.
  - by apply returned_left.
  - by apply winding_left.
Qed.

(** C29 [stop] returns, whatever the clients do: when its server's thread, its
    tasks and the clock keep moving and no more requests are read, the thread
    ends, the requests that are left being dropped, and [stop] returns without
    an error. *)
Theorem stop_returns :
  joining (run n0) → ∃ m, n0 <= m ∧ returned m.
Proof using Hserved Hstart Hrun Hcap SemLaws Laws RuleLaws.
  intros Hj. assert (past 1 n0) as H1p.
  { right. split; [done|]. destruct (joined_thread n0 Hj) as (t & _ & -> & Hb & _). unfold phase_rank.
    clear Hcap. destruct (th_phase t) as [|s| |]; [done|destruct (sv_phase s); lia|lia..]. }
  assert (∀ d, d < 5 → ∃ m, n0 <= m ∧ past (S d) m) as Hclimb.
  { induction d as [|d IH]; intros Hd; [by exists n0|]. destruct IH as (m & Hm & Hp); [clear Hcap; lia|].
    destruct (climb (S d) m Hm) as (m' & Hm' & ?); [clear Hcap; lia..|done|]. exists m'. clear Hcap. split; [lia|done]. }
  destruct (Hclimb 4) as (m & Hm & Hp); [clear Hcap; lia|]. destruct (ss_join _ Hserved m) as (m' & Hm' & HT).
  destruct (past_le 5 m m' Hm Hm' Hp) as [?|[Hj' Hr']]; [done|]. exists m'. clear Hclimb. split; [clear Hcap; lia|].
  apply HT; [done|]. destruct (joined_thread m' Hj') as (t & _ & E & _). rewrite E in Hr' |- *. unfold phase_rank in *.
  clear Hcap. destruct (th_phase t) as [|s| |]; [lia|destruct (sv_phase s); lia|lia|done].
Qed.
End fair.

(** ** Witness *)

(** The run of [ServiceDemo], from the wait of [stop] on; then nothing happens. *)
Fixpoint run_of (ps : DemoService) (l : list DemoService) (n : nat) : DemoService :=
  match n, l with S n, ps' :: l => run_of ps' l n | _, _ => ps end.

Definition follows (ps ps' : DemoService) : Prop := demo_any ps ps' ∨ ps' = ps.

Fixpoint chain (ps : DemoService) (l : list DemoService) : Prop :=
  match l with [] => True | ps' :: l => follows ps ps' ∧ chain ps' l end.

Lemma run_of_chain l n : ∀ ps, chain ps l → follows (run_of ps l n) (run_of ps l (S n)).
Proof.
  revert l. induction n as [|n IH]; intros [|ps' l] ps Hc; cbn [run_of]; try by right.
  - destruct l; apply Hc.
  - by apply IH, Hc.
Qed.

Lemma chain_app ps l l' : chain ps l → chain (or_else (last l) ps) l' → chain ps (l ++ l').
Proof.
  revert ps. induction l as [|ps' l IH]; intros ps; [done|]. intros [H1 H2] H. split; [done|]. apply IH; [done|].
  rewrite last_cons in H. by destruct (last l).
Qed.

Fixpoint scan (ps : DemoService) (evs : list (front_event (R:=str))) : list DemoService :=
  match evs with [] => [] | ev :: evs => front_to ps ev :: scan (front_to ps ev) evs end.

Lemma scan_last evs : ∀ ps, or_else (last (scan ps evs)) ps = foldl front_to ps evs.
Proof.
  induction evs as [|ev evs IH]; intros ps; [done|]. cbn [scan foldl]. rewrite <- IH.
  rewrite last_cons. by destruct (last (scan (front_to ps ev) evs)).
Qed.

Lemma chain_scan evs : ∀ ps, at_work (stage (ps_proc ps) (inl 0)) →
  forallb (λ ev, negb (is_arrival ev)) evs = true → chain ps (scan ps evs).
Proof.
  induction evs as [|ev evs IH]; intros ps Hk; [done|]. cbn [forallb scan chain].
  intros [Hev%negb_true_iff Hevs]%andb_true_iff. unfold follows, front_to.
  destruct (ps_servers ps (inl 0)) as [sv|] eqn:E; (split; [|by apply IH]); [left|by right].
  rewrite Hev. exists None. apply ps_front; [done..|]. by intros q ->.
Qed.

(** The exchange, then the end of the thread, and of [stop]. *)
Definition svc_served_states : list DemoService :=
  py_to svc_joining draining_proc :: scan (py_to svc_joining draining_proc) demo_exchange.

Definition svc_last_states : list DemoService :=
  let s1 := py_to svc_served (mkProc stopping false [svc_thread (Serving (mkServeState (Draining 0 1) 0 [false]))] [None; Some (InJoin 0)]) in
  let s2 := py_to s1 (mkProc stopping false [svc_thread (Serving (mkServeState (Returned 0 1) 0 [false]))] [None; Some (InJoin 0)]) in
  let s3 := py_to s2 (mkProc stopping false [svc_thread Closing] [None; Some (InJoin 0)]) in
  [s1; s2; s3; svc_ending; svc_stopped].

Definition svc_run : nat → DemoService := run_of svc_joining (svc_served_states ++ svc_last_states).

Lemma py_to_follows ps l p' :
  fine ps → py_step demo_parse demo_show (ps_proc ps) l p' →
  (idle ps = true ∨ stage p' (inl 0) ≠ Over ∧ ∀ s s', stage (ps_proc ps) (inl 0) = Serves s → stage p' (inl 0) = Serves s' →
     ∀ c, sv_conns s !! c = Some true → sv_conns s' !! c ≠ Some false) →
  (∀ k s, k ≠ inl 0 → stage p' k ≠ Serves s) → follows ps (py_to ps p') ∧ fine (py_to ps p').
Proof.
  intros Hf Hst Hi Hk. split; [|by eapply py_to_fine]. destruct Hf as [Hr Ha]. left. exists l. by apply py_to_step.
Qed.

Lemma svc_run_follows n : follows (svc_run n) (svc_run (S n)).
Proof.
  apply run_of_chain, chain_app.
  - split; [|by apply chain_scan].
    eapply (py_to_follows svc_joining); [apply svc_joining_fine|apply thread_to, th_serve; by apply serve_shutdown|nothing_ends|one_server].
  - assert (or_else (last svc_served_states) svc_joining = svc_served) as ->.
    { unfold svc_served_states. rewrite last_cons. unfold svc_served. rewrite <- scan_last.
      by destruct (last (scan (py_to svc_joining draining_proc) demo_exchange)). }
    destruct svc_served_fine as [Hf Hp].
    edestruct (py_to_follows svc_served) as [F1 Hf1]; [exact Hf| | | |split; [exact F1|]].
    + rewrite Hp. apply thread_to, th_serve. exact (serve_close notified (Draining 0 1) 0 [true] false 0 eq_refl).
    + nothing_ends.
    + one_server.
    + clear Hf Hp F1. edestruct py_to_follows as [F2 Hf2]; [exact Hf1|apply thread_to, th_serve; by apply serve_drained|nothing_ends|one_server|].
      split; [exact F2|]. clear F2 Hf1.
      edestruct py_to_follows as [F3 Hf3]; [exact Hf2|apply thread_to, th_return|nothing_ends|one_server|].
      split; [exact F3|]. clear F3 Hf2.
      edestruct py_to_follows as [F4 Hf4]; [exact Hf3|apply thread_to, th_exit|nothing_ends|one_server|].
      split; [exact F4|]. clear. split; [|done]. left. eexists. apply svc_stop_returns.
Qed.

Lemma run_of_end l n : ∀ ps, List.length l <= n → run_of ps l n = or_else (last l) ps.
Proof.
  revert n. induction l as [|ps' l IH]; intros [|n] ps Hn; cbn [List.length] in Hn; [done|done|lia|].
  cbn [run_of]. rewrite IH, last_cons by lia. by destruct (last l).
Qed.

Lemma svc_run_end n : svc_run (31 + n) = svc_stopped.
Proof. unfold svc_run. rewrite run_of_end; [|cbn; lia]. by rewrite last_app. Qed.

Lemma svc_run_one n : List.length (demo_slots (svc_run n)) = 1.
Proof.
  destruct (decide (n < 32)) as [Hn|Hn].
  - assert (forallb (λ n, Nat.eqb (List.length (demo_slots (svc_run n))) 1) (seq 0 32) = true) as H by (vm_compute; reflexivity).
    rewrite forallb_forall in H. apply Nat.eqb_eq, H, in_seq. lia.
  - replace n with (31 + (n - 31)) by lia. rewrite svc_run_end. vm_compute. reflexivity.
Qed.

Lemma svc_run_served :
  stop_served (Sem:=N) demo_parse demo_show demo_worlds one_slot demo_serialize id (λ _, Err tt) 1 0 svc_run 0.
Proof.
  assert (∀ n, ∃ m, n <= m ∧ svc_run m = svc_stopped ∧ svc_run (S m) = svc_stopped) as Hend.
  { intros n. exists (31 + n). split; [lia|]. split; [apply svc_run_end|]. rewrite <- Nat.add_succ_r. apply svc_run_end. }
  split.
  - intros n j _. assert (∀ ps, slot_at 0 ps j = demo_slots ps !! j) as E.
    { intros ps. unfold slot_at, slot_of, demo_slots. cbn [fst snd]. by destruct (ps_servers ps (inl 0)). }
    rewrite !E, !lookup_lt_is_Some, !svc_run_one. done.
  - intros n. destruct (Hend n) as (m & Hm & E1 & E2). exists m. split; [done|]. rewrite ?E1, ?E2. intros (t & Ht & Hd).
    change (Some (svc_thread Exited) = Some t) in Ht. injection Ht as <-. destruct Hd.
  - intros n b. destruct (Hend n) as (m & Hm & E1 & _). exists m. split; [done|]. rewrite ?E1. intros s Hs.
    change (Over = Serves s) in Hs. exfalso. clear - Hs. discriminate Hs.
  - intros n j. destruct (Hend n) as (m & Hm & E1 & _). exists m. split; [done|]. rewrite ?E1. intros s Hr.
    change (5 = 4) in Hr. exfalso. clear - Hr. discriminate Hr.
  - intros n. destruct (Hend n) as (m & Hm & E1 & E2). exists m. split; [done|]. unfold joining. rewrite ?E1. intros Hj.
    change (Some None = Some (Some (InJoin (SocketAddr:=str) (Listener:=str) 0))) in Hj. exfalso. clear - Hj. discriminate Hj.
Qed.

Example stop_returns_witness :
  ∃ m, 0 <= m ∧ demo_ps_step (svc_run m) (Some (Stop, Returns (Ok tt))) (svc_run (S m)) ∧
    p_calls (ps_proc (svc_run (S m))) !! 1 = Some None.
Proof.
  exact (stop_returns demo_parse demo_show demo_worlds one_slot demo_serialize id (λ _, Err tt) demo_cap
    1 0 svc_run (proj1 svc_joining_fine) svc_run_follows 0 svc_run_served eq_refl).
Defined.
