(* ===== verification/CoreTests.v ===== *)
(** The unit tests of [src/core/path.rs], [range.rs], [metadata.rs] and
    [cache.rs], run on the model.

    Each test of the repository is a definition of its name, with the test's
    inputs and expected values; [assert_eq] and [assert] stand for the macros.
    The kernel evaluates them. *)

From S2P Require Import Prelude Bytes Config Path Range Metadata Cache.

Definition assert_eq {A} `{EqDecision A} (a b : A) : bool := bool_decide (a = b).

(** All the assertions of a test, or all tests. *)
Definition passes (l : list bool) : bool := forallb id l.

(** ** [path.rs] *)

Definition mapper : PathMapper := new_mapper (data_config $"/data").

(** The mapper with [hdfs_root = "/"]. *)
Definition root_mapper : PathMapper := new_mapper (data_config $"/").

Definition simple_key : bool := assert_eq (key_to_hdfs_path mapper $"a/b/c.txt") (Some $"/data/a/b/c.txt").

Definition leading_slash_normalized : bool :=
  assert_eq (key_to_hdfs_path mapper $"/a/b.txt") (Some $"/data/a/b.txt").

Definition trailing_slash_normalized : bool := assert_eq (key_to_hdfs_path mapper $"a/") (Some $"/data/a").

Definition empty_key_rejected : bool := passes [
  assert_eq (key_to_hdfs_path mapper $"") None;
  assert_eq (key_to_hdfs_path mapper $"/") None].

Definition path_traversal_rejected : bool := passes [
  assert_eq (key_to_hdfs_path mapper $"../../etc/passwd") None;
  assert_eq (key_to_hdfs_path mapper $"a/../../etc/passwd") None;
  bool_decide (is_Some (key_to_hdfs_path mapper $"..%2F..%2Fetc%2Fpasswd"))].

Definition non_ascii_key : bool :=
  assert_eq (key_to_hdfs_path mapper $"café/naïve.txt") (Some $"/data/café/naïve.txt").

Definition round_trip : bool :=
  let key := $"foo/bar/baz.parquet" in
  match key_to_hdfs_path mapper key with
  | Some p => assert_eq (hdfs_path_to_key mapper p) (Some key)
  | None => false
  end.

Definition hdfs_path_to_key_root : bool := assert_eq (hdfs_path_to_key mapper $"/data") (Some []).

Definition hdfs_path_outside_root : bool := assert_eq (hdfs_path_to_key mapper $"/etc/passwd") None.

Definition root_slash_maps_deep_key : bool :=
  assert_eq (key_to_hdfs_path root_mapper $"appdata/foo/bar.parquet") (Some $"/appdata/foo/bar.parquet").

Definition root_slash_maps_with_leading_slash_key : bool :=
  assert_eq (key_to_hdfs_path root_mapper $"/appdata/foo") (Some $"/appdata/foo").

Definition root_slash_collapses_dot_components : bool := passes [
  assert_eq (key_to_hdfs_path root_mapper $"a/./b.txt") (Some $"/a/b.txt");
  assert_eq (key_to_hdfs_path root_mapper $"a/../b.txt") (Some $"/b.txt")].

Definition root_slash_rejects_traversal : bool := passes [
  assert_eq (key_to_hdfs_path root_mapper $"../etc/passwd") None;
  assert_eq (key_to_hdfs_path root_mapper $"a/../../etc/passwd") None;
  assert_eq (key_to_hdfs_path root_mapper $"/..") None].

Definition root_slash_rejects_empty_key : bool := passes [
  assert_eq (key_to_hdfs_path root_mapper $"") None;
  assert_eq (key_to_hdfs_path root_mapper $"/") None;
  assert_eq (key_to_hdfs_path root_mapper $"///") None].

Definition root_slash_round_trip : bool :=
  let key := $"appdata/foo/bar.parquet" in
  match key_to_hdfs_path root_mapper key with
  | Some p => assert_eq p $"/appdata/foo/bar.parquet" && assert_eq (hdfs_path_to_key root_mapper p) (Some key)
  | None => false
  end.

Definition root_slash_hdfs_path_to_key : bool := passes [
  assert_eq (hdfs_path_to_key root_mapper $"/") (Some []);
  assert_eq (hdfs_path_to_key root_mapper $"/data/x.txt") (Some $"data/x.txt");
  assert_eq (hdfs_path_to_key root_mapper $"data/x.txt") None].

Definition root_slash_normalizes_root : bool := assert_eq (root root_mapper) $"/".

Definition list_start_root_when_no_slash : bool := passes [
  assert_eq (list_start mapper $"") (Some $"/data");
  assert_eq (list_start mapper $"a") (Some $"/data");
  assert_eq (list_start mapper $"ab") (Some $"/data")].

Definition list_start_directory_portion : bool := passes [
  assert_eq (list_start mapper $"a/b/c.txt") (Some $"/data/a/b");
  assert_eq (list_start mapper $"a/b/") (Some $"/data/a/b");
  assert_eq (list_start mapper $"a/") (Some $"/data/a");
  assert_eq (list_start mapper $"a/b") (Some $"/data/a");
  assert_eq (list_start mapper $"a") (Some $"/data")].

Definition list_start_rejects_escape_and_junk : bool := passes [
  assert_eq (list_start mapper $"../etc/passwd") None;
  assert_eq (list_start mapper $"a/../../etc") None;
  assert_eq (list_start mapper $"../") None;
  assert_eq (list_start mapper $"..") None;
  assert_eq (list_start mapper $".") None;
  assert_eq (list_start mapper $"/x") None;
  assert_eq (list_start mapper $"/") None;
  assert_eq (list_start mapper $"a/../b") (Some $"/data");
  assert_eq (list_start mapper $"a/./b") (Some $"/data/a")].

Definition root_slash_list_start : bool := passes [
  assert_eq (list_start root_mapper $"") (Some $"/");
  assert_eq (list_start root_mapper $"a/b/c.txt") (Some $"/a/b");
  assert_eq (list_start root_mapper $"a/b/") (Some $"/a/b");
  assert_eq (list_start root_mapper $"appdata/foo") (Some $"/appdata");
  assert_eq (list_start root_mapper $"appdata/foo/bar.parquet") (Some $"/appdata/foo");
  assert_eq (list_start root_mapper $"..") None;
  assert_eq (list_start root_mapper $"../x") None;
  assert_eq (list_start root_mapper $"/x") None].

Definition double_slash_prefix_normalized : bool := passes [
  assert_eq (normalize_abs $"//a/b") (Some $"/a/b");
  assert_eq (normalize_abs $"///a//b/") (Some $"/a/b");
  assert_eq (normalize_abs $"//") (Some $"/")].

Definition backslash_is_literal_filename_char : bool := passes [
  assert_eq (normalize_abs $"/data/a\..\b") (Some $"/data/a\..\b");
  bool_decide (is_Some (key_to_hdfs_path mapper $"a\..\b"));
  bool_decide (is_Some (key_to_hdfs_path mapper $"..\..\etc"))].

Definition normalize_abs_absolute_forms : bool := passes [
  assert_eq (normalize_abs $"/a/b") (Some $"/a/b");
  assert_eq (normalize_abs $"/a/./b") (Some $"/a/b");
  assert_eq (normalize_abs $"/a/b/") (Some $"/a/b");
  assert_eq (normalize_abs $"/") (Some $"/");
  assert_eq (normalize_abs $"/..") None;
  assert_eq (normalize_abs $"/a/..") (Some $"/");
  assert_eq (normalize_abs $"/a/../..") None].

Definition normalize_abs_relative_forms : bool := passes [
  assert_eq (normalize_abs $"a/b") (Some $"a/b");
  assert_eq (normalize_abs $"../a") (Some $"a");
  assert_eq (normalize_abs $"a/..") (Some []);
  assert_eq (normalize_abs $"a/../b") (Some $"b");
  assert_eq (normalize_abs $"") (Some [])].

Example path_tests_pass : passes [
  simple_key; leading_slash_normalized; trailing_slash_normalized; empty_key_rejected;
  path_traversal_rejected; non_ascii_key; round_trip; hdfs_path_to_key_root; hdfs_path_outside_root;
  root_slash_maps_deep_key; root_slash_maps_with_leading_slash_key; root_slash_collapses_dot_components;
  root_slash_rejects_traversal; root_slash_rejects_empty_key; root_slash_round_trip;
  root_slash_hdfs_path_to_key; root_slash_normalizes_root; list_start_root_when_no_slash;
  list_start_directory_portion; list_start_rejects_escape_and_junk; root_slash_list_start;
  double_slash_prefix_normalized; backslash_is_literal_filename_char; normalize_abs_absolute_forms;
  normalize_abs_relative_forms] = true.
Proof. vm_compute. reflexivity. Qed.

(** ** [range.rs] *)

Definition from_full_file : bool := assert_eq (resolve_range 100 (From 0)) (Some (0, 100)%N).

Definition from_middle : bool := assert_eq (resolve_range 100 (From 10)) (Some (10, 100)%N).

Definition from_past_eof_unsatisfiable : bool := assert_eq (resolve_range 100 (From 100)) None.

Definition inclusive_exact : bool := assert_eq (resolve_range 100 (Inclusive 0 99)) (Some (0, 100)%N).

Definition inclusive_clamped_to_eof : bool :=
  assert_eq (resolve_range 100 (Inclusive 50 999)) (Some (50, 100)%N).

Definition inclusive_first_past_eof_unsatisfiable : bool :=
  assert_eq (resolve_range 100 (Inclusive 100 200)) None.

Definition inclusive_inverted_unsatisfiable : bool := assert_eq (resolve_range 100 (Inclusive 90 80)) None.

Definition suffix_exact : bool := assert_eq (resolve_range 100 (Suffix 50)) (Some (50, 100)%N).

Definition suffix_longer_than_file : bool := assert_eq (resolve_range 100 (Suffix 500)) (Some (0, 100)%N).

Definition suffix_zero_unsatisfiable : bool := assert_eq (resolve_range 100 (Suffix 0)) None.

Definition suffix_on_empty_file_unsatisfiable : bool := passes [
  assert_eq (resolve_range 0 (Suffix 10)) None;
  assert_eq (resolve_range 0 (Suffix 0)) None].

Example range_tests_pass : passes [
  from_full_file; from_middle; from_past_eof_unsatisfiable; inclusive_exact; inclusive_clamped_to_eof;
  inclusive_first_past_eof_unsatisfiable; inclusive_inverted_unsatisfiable; suffix_exact;
  suffix_longer_than_file; suffix_zero_unsatisfiable; suffix_on_empty_file_unsatisfiable] = true.
Proof. vm_compute. reflexivity. Qed.

(** ** [metadata.rs] *)

Definition meta (checksum : option str) : ObjectMetadata :=
  from_hdfs $"/data/a/b.txt" 1024 false 1700000000000 checksum.

Definition etag_from_checksum : bool :=
  assert_eq (etag (meta (Some (ascii_of_N <$> [0xde; 0xad; 0xbe; 0xef]%N)))) $"deadbeef".

Definition etag_fallback_when_no_checksum : bool := starts_with (etag (meta None)) $"hdfs-".

Definition fallback_etag_matches_head_and_listing : bool :=
  let m := meta None in
  let head_etag := etag m in
  let list_etag := fallback_etag (length m) (modification_time m) in
  assert_eq head_etag list_etag && assert_eq head_etag $"hdfs-400-18bcfe56800".

(** The two tests of the content type, for a [mime_guess] that knows [parquet]
    and not [unknownext]. *)
Definition content_type_parquet (mime_first : str → option str) : bool :=
  assert_eq (content_type mime_first (from_hdfs $"/data/x.parquet" 1 false 0 None))
    $"application/vnd.apache.parquet".

Definition content_type_unknown_falls_back (mime_first : str → option str) : bool :=
  assert_eq (content_type mime_first (from_hdfs $"/data/x.unknownext" 1 false 0 None))
    $"application/octet-stream".

Definition demo_mime (name : str) : option str :=
  if bool_decide (name = $"x.parquet") then Some $"application/vnd.apache.parquet" else None.

Example metadata_tests_pass : passes [
  etag_from_checksum; etag_fallback_when_no_checksum; fallback_etag_matches_head_and_listing;
  content_type_parquet demo_mime; content_type_unknown_falls_back demo_mime] = true.
Proof. vm_compute. reflexivity. Qed.

(** ** [cache.rs] *)

(** The calls of a test on its cache, with what they must give; [Sleep] is
    [std::thread::sleep], and no other time passes. *)
Inductive cache_call :=
| Insert (k v : str) (weight : N)
| Remove (k : str)
| Get (k : str) (expected : option str)
| Weight (expected : N)
| Len (expected : N)
| Enabled (expected : bool)
| Sleep (ms : N).

Fixpoint run_calls (now : N) (c : TtlCache (list_lru str) str) (calls : list cache_call) : bool :=
  match calls with
  | [] => true
  | call :: calls =>
      match call with
      | Insert k v weight => run_calls now (cache_insert now k v weight c) calls
      | Remove k => run_calls now (cache_remove k c) calls
      | Get k expected =>
          let '(v, c) := cache_get now k c in assert_eq v expected && run_calls now c calls
      | Weight expected => assert_eq (total_weight c) expected && run_calls now c calls
      | Len expected => assert_eq (cache_len c) expected && run_calls now c calls
      | Enabled expected => assert_eq (is_enabled c) expected && run_calls now c calls
      | Sleep ms => run_calls (now + ms) c calls
      end
  end.

(** The helper [cache] of the tests. *)
Definition cache_test (ttl_ms max_weight : N) (calls : list cache_call) : bool :=
  run_calls 0 (cache_new 16 ttl_ms max_weight) calls.

Definition hit_and_miss : bool := cache_test 60000 10 [
  Get $"a" None; Insert $"a" $"A" 1; Get $"a" (Some $"A"); Get $"b" None].

Definition ttl_expires_entries : bool := cache_test 20 10 [
  Insert $"a" $"A" 1; Get $"a" (Some $"A"); Sleep 30; Get $"a" None; Weight 0].

Definition lru_evicts_least_recently_used_first : bool := cache_test 60000 2 [
  Insert $"a" $"A" 1; Insert $"b" $"B" 1; Get $"a" (Some $"A"); Insert $"c" $"C" 1;
  Get $"b" None; Get $"a" (Some $"A"); Get $"c" (Some $"C"); Weight 2].

Definition weighted_entries_evict_until_they_fit : bool := cache_test 60000 4 [
  Insert $"a" $"A" 1; Insert $"b" $"B" 1; Insert $"big" $"BIG" 4;
  Get $"big" (Some $"BIG"); Get $"a" None; Get $"b" None; Weight 4].

Definition capacity_eviction_releases_weight : bool := run_calls 0 (cache_new 2 60000 100) [
  Insert $"a" $"A" 3; Insert $"b" $"B" 5; Weight 8; Insert $"c" $"C" 7;
  Get $"a" None; Get $"b" (Some $"B"); Get $"c" (Some $"C"); Len 2; Weight 12].

Definition oversized_values_are_not_cached : bool := cache_test 60000 3 [
  Insert $"huge" $"HUGE" 4; Get $"huge" None; Weight 0].

Definition zero_ttl_disables_the_cache : bool := cache_test 0 10 [
  Enabled false; Insert $"a" $"A" 1; Get $"a" None; Len 0].

Definition replacing_a_key_updates_weight : bool := cache_test 60000 10 [
  Insert $"a" $"A" 3; Insert $"a" $"AA" 1; Get $"a" (Some $"AA"); Weight 1; Len 1].

Definition remove_releases_weight : bool := cache_test 60000 10 [
  Insert $"a" $"A" 2; Remove $"a"; Get $"a" None; Weight 0].

Example cache_tests_pass : passes [
  hit_and_miss; ttl_expires_entries; lru_evicts_least_recently_used_first;
  weighted_entries_evict_until_they_fit; capacity_eviction_releases_weight;
  oversized_values_are_not_cached; zero_ttl_disables_the_cache; replacing_a_key_updates_weight;
  remove_releases_weight] = true.
Proof. vm_compute. reflexivity. Qed.
