(* ===== verification/ListingTests.v ===== *)
(** The unit tests of [src/core/listing.rs], run on the model.

    As in [CoreTests], a definition for each test. The two randomized tests
    take the seed and the size of their namespace as arguments; the kernel
    evaluates them for smaller namespaces than the repository does (the
    theorems of [Paging] hold of all). The tokens are those of [Rfc4648]. *)

From S2P Require Import Prelude Bytes Config Listing Rfc4648 CoreTests.

#[export] Instance comparison_eq_dec : EqDecision comparison.
Proof. solve_decision. Defined.

Definition entry (key : str) : ListEntry := mkListEntry key 10 0.

Definition directory_output_comparators_handle_prefix_boundaries : bool := passes [
  assert_eq (cmp_dir_output $"a" $"a/") Eq;
  assert_eq (cmp_dir_output $"a" $"a/b") Lt;
  assert_eq (cmp_dir_output $"a" $"a!") Gt;
  assert_eq (cmp_dir_output $"a" $"a0") Lt;
  assert_eq (cmp_dir_keys $"a" $"a/b") Lt;
  assert_eq (cmp_dir_keys $"a/b" $"a") Gt;
  assert_eq (cmp_dir_keys $"a" $"a!") Gt;
  assert_eq (cmp_dir_keys $"a" $"a") Eq].

Definition delimiter_collapses_one_level : bool :=
  let entries := [entry $"a/b/c.txt"; entry $"a/b/d.txt"; entry $"a/e.txt"; entry $"f.txt"] in
  let '(contents, common) := list_to_contents entries [] (Some $"/") in
  assert_eq contents [entry $"f.txt"] && assert_eq (into_vec common) [$"a/"].

Definition deeply_nested_collapses_to_one : bool :=
  let '(contents, common) := list_to_contents [entry $"x/y/z/w/file.txt"] [] (Some $"/") in
  assert_eq contents [] && assert_eq (into_vec common) [$"x/"].

Definition prefix_filter : bool :=
  let '(contents, _common) := list_to_contents [entry $"foo/a.txt"; entry $"bar/b.txt"] $"foo/" None in
  assert_eq contents [entry $"foo/a.txt"].

Definition prefix_with_delimiter : bool :=
  let entries := [entry $"a/b.txt"; entry $"a/c/d.txt"; entry $"a/c/e.txt"; entry $"ab/x.txt"] in
  let '(contents, common) := list_to_contents entries $"a/" (Some $"/") in
  assert_eq contents [entry $"a/b.txt"] && assert_eq (into_vec common) [$"a/c/"].

Definition empty_delimiter_is_no_grouping : bool :=
  let entries := [entry $"a/b.txt"; entry $"a/c/d.txt"] in
  let '(contents, common) := list_to_contents entries $"a/" (Some []) in
  assert_eq contents [entry $"a/b.txt"; entry $"a/c/d.txt"] && assert_eq (into_vec common) [].

Definition token_round_trip_test : bool :=
  let key := $"some/key/with/slashes" in
  let tok := encode_token key in
  assert_eq (decode_token tok) (Some key)
  && negb (existsb (λ c, bool_decide (c ∈ ["+"; "/"; "="]%char)) tok).

Definition legacy_standard_token_still_decodes : bool :=
  let key := $"some/key/with/slashes" in
  assert_eq (decode_token (std_encode key)) (Some key).

Definition invalid_token_is_none : bool := passes [
  assert_eq (decode_token $"%%%not-base64%%%") None;
  assert_eq (decode_token $"a") None;
  assert_eq (decode_token []) (Some [])].

(** The helper [walk_pages] of the tests: the common prefixes of all pages;
    [None] when a prefix comes twice or there are more than sixteen pages. *)
Fixpoint walk_prefixes (pages : nat) (files : list ListEntry) (dirs : list str) (prefix : str)
    (max_keys : N) (marker : option str) (all : list str) : option (list str) :=
  match pages with
  | 0 => None
  | S pages =>
      let page := paginate files dirs prefix (Some $"/") marker max_keys in
      if existsb (λ c, bool_decide (c ∈ all)) (common_prefixes page) then None
      else
        let all := all ++ common_prefixes page in
        match next_token page with
        | Some t => walk_prefixes pages files dirs prefix max_keys (Some t) all
        | None => Some all
        end
  end.

Definition paginate_more_prefixes_than_max_keys_terminates : bool :=
  let dirs := [$"a/part1"; $"a/part2"; $"a/part3"; $"a/part4"; $"a/part5"] in
  assert_eq (walk_prefixes 16 [] dirs $"a/" 2 None [])
    (Some [$"a/part1/"; $"a/part2/"; $"a/part3/"; $"a/part4/"; $"a/part5/"]).

Definition paginate_mixed_contents_and_prefixes_page_advances : bool :=
  let files := [entry $"a/x.txt"; entry $"a/z.txt"] in
  let dirs := [$"a/m"; $"a/y"] in
  let page1 := paginate files dirs $"a/" (Some $"/") None 2 in
  let page2 := paginate files dirs $"a/" (Some $"/") (next_token page1) 2 in
  passes [
    assert_eq (contents page1) [entry $"a/x.txt"];
    assert_eq (common_prefixes page1) [$"a/m/"];
    is_truncated page1;
    assert_eq (next_token page1) (Some $"a/x.txt");
    assert_eq (contents page2) [entry $"a/z.txt"];
    assert_eq (common_prefixes page2) [$"a/y/"];
    negb (is_truncated page2);
    assert_eq (next_token page2) None].

Definition paginate_empty_dir_is_a_common_prefix : bool :=
  let page := paginate [] [$"a/empty"] $"a/" (Some $"/") None 100 in
  passes [assert_eq (contents page) []; assert_eq (common_prefixes page) [$"a/empty/"]; negb (is_truncated page)].

Definition non_slash_delimiter_uses_file_keys_not_directories : bool :=
  let page := paginate [entry $"a/b.txt"] [$"a"] [] (Some $".") None 100 in
  assert_eq (contents page) [] && assert_eq (common_prefixes page) [$"a/b."].

Definition paginate_ignores_dirs_outside_prefix : bool :=
  let page := paginate [entry $"a/x.txt"] [$"a/keep"; $"b/other"] $"a/" (Some $"/") None 100 in
  assert_eq (contents page) [entry $"a/x.txt"] && assert_eq (common_prefixes page) [$"a/keep/"].

Definition paginate_slashless_prefix_collapses : bool :=
  let page := paginate [entry $"t/ca"; entry $"t.txt"] [$"ta"] $"t" (Some $"/") None 100 in
  assert_eq (contents page) [entry $"t.txt"] && assert_eq (common_prefixes page) [$"t/"; $"ta/"].

Definition paginate_marker_is_strictly_greater : bool :=
  let files := [entry $"a/sub.txt"; entry $"a/sub/x.txt"] in
  let page := paginate files [$"a/sub"] $"a/" (Some $"/") (Some $"a/sub/") 100 in
  assert_eq (contents page) [] && assert_eq (common_prefixes page) [].

Definition paginate_max_keys_zero_is_not_truncated : bool :=
  let page := paginate [entry $"a/x.txt"] [$"a/d"] $"a/" (Some $"/") None 0 in
  passes [assert_eq (contents page) []; assert_eq (common_prefixes page) []; negb (is_truncated page);
          assert_eq (next_token page) None].

Example listing_tests_pass : passes [
  directory_output_comparators_handle_prefix_boundaries; delimiter_collapses_one_level;
  deeply_nested_collapses_to_one; prefix_filter; prefix_with_delimiter; empty_delimiter_is_no_grouping;
  token_round_trip_test; legacy_standard_token_still_decodes; invalid_token_is_none;
  paginate_more_prefixes_than_max_keys_terminates; paginate_mixed_contents_and_prefixes_page_advances;
  paginate_empty_dir_is_a_common_prefix; non_slash_delimiter_uses_file_keys_not_directories;
  paginate_ignores_dirs_outside_prefix; paginate_slashless_prefix_collapses;
  paginate_marker_is_strictly_greater; paginate_max_keys_zero_is_not_truncated] = true.
Proof. vm_compute. reflexivity. Qed.

(** ** Random namespaces *)

Definition alphabet : list str := [$"!"; $"."; $"0"; $"a"; $"b"; $"e"; $"_"; $"~"; $" "].

(** The generator of the tests: [rnd m], and its state after. *)
Definition rnd_seed (seed : N) : N := u64_add ((seed * 6364136223846793005) mod U64_MOD) 1.

Definition rnd (m state : N) : N * N :=
  let state := u64_add ((state * 6364136223846793005) mod U64_MOD) 1442695040888963407 in
  (N.shiftr state 33 mod m, state)%N.

(** [n] letters, after [acc]. *)
Fixpoint rnd_letters (n : nat) (acc : str) (state : N) : str * N :=
  match n with
  | 0 => (acc, state)
  | S n =>
      let '(i, state) := rnd (N.of_nat (length alphabet)) state in
      rnd_letters n (acc ++ or_else (alphabet !! N.to_nat i) []) state
  end.

(** [segments] more path segments of [1 + rnd(bound)] letters each. *)
Fixpoint rnd_segments (segments : nat) (bound : N) (key : str) (state : N) : str * N :=
  match segments with
  | 0 => (key, state)
  | S segments =>
      let key := if bool_decide (key = []) then key else key ++ [slash] in
      let '(len, state) := rnd bound state in
      let '(key, state) := rnd_letters (S (N.to_nat len)) key state in
      rnd_segments segments bound key state
  end.

(** The loop that draws [n] distinct keys; [turns] bounds it. *)
Fixpoint rnd_keys (turns : nat) (n : nat) (bound : N) (keys : CommonPrefixSet) (state : N) : CommonPrefixSet :=
  match turns with
  | 0 => keys
  | S turns =>
      if Nat.leb n (length keys) then keys
      else
        let '(segments, state) := rnd 3 state in
        let '(key, state) := rnd_segments (S (N.to_nat segments)) bound [] state in
        if existsb (λ s, bool_decide (s = $"." ∨ s = $"..")) (split_slash key)
        then rnd_keys turns n bound keys state
        else rnd_keys turns n bound (prefix_insert key keys) state
  end.

(** No key is both a file and a directory: those another key extends go. *)
Definition drop_dir_keys (keys : CommonPrefixSet) : CommonPrefixSet :=
  List.filter (λ k, negb (existsb (λ other,
    Nat.ltb (length k) (length other) && starts_with other k && bool_decide (other !! length k = Some slash))
    keys)) keys.

Definition adversarial_keys (seed : N) (n : nat) (bound : N) : CommonPrefixSet :=
  drop_dir_keys (rnd_keys (100 * n) n bound [] (rnd_seed seed)).

(** The directories above a key. *)
Definition parents (key : str) : list str :=
  let parts := split_slash key in map (λ n, join_slash (take n parts)) (seq 1 (length parts - 1)).

Definition adversarial_namespace (seed : N) (n : nat) : list ListEntry * list str :=
  let keys := adversarial_keys seed n 3 in
  let dirs := foldr prefix_insert [] (List.concat (map parents keys)) in
  let dirs := prefix_insert (or_else (head keys) [] ++ $"/empty") dirs in
  (map entry keys, dirs).

Definition dir_part (prefix : str) : str :=
  match rfind_slash prefix with Some i => take i prefix | None => [] end.

Definition direct_children (files : list ListEntry) (dirs : list str) (prefix : str) :
    list ListEntry * list str :=
  let parent := dir_part prefix in
  let keep key := match rfind_slash key with
                  | Some i => bool_decide (take i key = parent)
                  | None => bool_decide (parent = [])
                  end in
  (List.filter (λ f, keep (key f)) files, sort_by cmp_dir_keys (List.filter keep dirs)).

(** The keys of one page in output order. *)
Definition page_keys (page : Page) : list str :=
  sort_by str_cmp (map key (contents page) ++ common_prefixes page).

(** The keys so far and those of a page; [None] unless they increase. *)
Definition push_increasing (out keys : list str) : option (list str) :=
  foldl (λ out key,
    out ← out;
    match last out with
    | Some prev => if bool_decide (str_cmp prev key = Lt) then Some (out ++ [key]) else None
    | None => Some [key]
    end) (Some out) keys.

(** The keys of all pages, as a client paginator collects them; [None] when an
    assertion of the walk fails or there are too many pages. *)
Fixpoint walk_checked (pages : nat) (fetch : option str → option Page) (marker : option str)
    (out : list str) : option (list str) :=
  match pages with
  | 0 => None
  | S pages =>
      page ← fetch marker;
      let keys := page_keys page in
      if is_truncated page && (bool_decide (next_token page = None) || bool_decide (keys = [])) then None
      else
        out ← push_increasing out keys;
        match next_token page with
        | Some token => walk_checked pages fetch (Some token) out
        | None => Some out
        end
  end.

Definition walk_slash_pages files dirs prefix start_after max_keys : option (list str) :=
  walk_checked (length files + length dirs + 2) (λ m, paginate_slash files dirs prefix m max_keys)
    start_after [].

Definition walk_all_pages files dirs prefix delimiter start_after max_keys : option (list str) :=
  walk_checked (length files + length dirs + 2)
    (λ m, Some (paginate files dirs prefix delimiter m max_keys)) start_after [].

(** Both paginators, page by page. *)
Fixpoint pages_agree (pages : nat) files dirs prefix (marker : option str) : bool :=
  match pages with
  | 0 => false
  | S pages =>
      match paginate_slash files dirs prefix marker 3 with
      | None => false
      | Some fast =>
          let general := paginate files dirs prefix (Some $"/") marker 3 in
          assert_eq (page_keys fast) (page_keys general)
          && assert_eq (is_truncated fast) (is_truncated general)
          && assert_eq (next_token fast) (next_token general)
          && match next_token fast with
             | Some token => pages_agree pages files dirs prefix (Some token)
             | None => true
             end
      end
  end.

Definition paginate_slash_matches_general_paginate (seed : N) (n : nat) : bool :=
  let '(files, dirs) := adversarial_namespace seed n in
  forallb (λ prefix,
    let '(files, dirs) := direct_children files dirs prefix in
    match page_keys <$> paginate_slash files dirs prefix None U64_MAX with
    | None => false
    | Some one =>
        forallb (λ max_keys, assert_eq (walk_slash_pages files dirs prefix None max_keys) (Some one))
          [1; 2; 3; 5; 7]%N
        && forallb (λ marker,
             let expected := List.filter (after_marker marker) one in
             forallb (λ max_keys,
               assert_eq (walk_slash_pages files dirs prefix marker max_keys) (Some expected)) [1; 2; 4]%N
             && pages_agree (length files + length dirs + 2) files dirs prefix marker)
             [None; Some $"a"; Some $"a/"; Some $"0"; Some $"0 "; Some $"0."]
    end)
    [[]; $"a"; $"a/"; $"a.b"; $"!"; $"0"].

Definition paginate_page_size_invariance (seed : N) (n : nat) : bool :=
  let '(files, dirs) := adversarial_namespace seed n in
  forallb (λ prefix,
    forallb (λ delimiter,
      let full := page_keys (paginate files dirs prefix delimiter None U64_MAX) in
      forallb (λ max_keys, assert_eq (walk_all_pages files dirs prefix delimiter None max_keys) (Some full))
        [1; 2; 3; 5; 7]%N
      && forallb (λ marker,
           assert_eq (walk_all_pages files dirs prefix delimiter (Some marker) 2)
             (Some (List.filter (after_marker (Some marker)) full)))
           [$"a"; $"a/"; $"a/b"; $"a/b."; $"a/0"; $"!"])
      [Some $"/"; Some $"."])
    [[]; $"a"; $"a/"; $"a.b"; $"!"; $"é"].

Example adversarial_sizes :
  (length (adversarial_namespace 3 12).1, length (adversarial_namespace 3 12).2) = (10, 7).
Proof. vm_compute. reflexivity. Qed.

Example random_listing_tests_pass :
  paginate_slash_matches_general_paginate 3 20 && paginate_page_size_invariance 7 12 = true.
Proof. vm_compute. reflexivity. Qed.
