(* ===== verification/MergeTests.v ===== *)
(** The unit tests of [src/s3/sorted_listing.rs], run on the model.

    As in [CoreTests], a definition for each test. The state of the fake lister
    is the list of the directories it was asked for. The randomized test takes
    the seed and the size of its tree as arguments and is evaluated for a
    smaller tree than the repository's. *)

From S2P Require Import Prelude Prog Bytes Config Path HdfsError Listing SortedListing CoreTests ListingTests.

(** ** The fake file system *)

Inductive FakeErr := NotFound | Denied | Other.

Record FakeFs := mkFakeFs {
  children : list (str * list FileStatus);
  errors : list (str * FakeErr);
}.

Fixpoint find_entry {A} (k : str) (l : list (str * A)) : option A :=
  match l with
  | [] => None
  | (k', a) :: l => if bool_decide (k = k') then Some a else find_entry k l
  end.

(** [FakeLister::list_dir]; the variant [InternalError] is one of those the
    program does not tell apart. *)
Definition fake_list_dir (fs : FakeFs) : DirLister (list str) := λ dir,
  act (λ listed,
    (match find_entry dir (errors fs) with
     | Some NotFound => Err (FileNotFound dir)
     | Some Denied => Err (RPCError $"org.apache.hadoop.security.AccessControlException"
                             ($"Permission denied: user=gw, path=" ++ dir))
     | Some Other => Err (OtherError $"boom")
     | None => Ok (listing_from_statuses (or_else (find_entry dir (children fs)) []) mapper)
     end, listed ++ [dir])).

Definition file (path : str) : FileStatus := mkFileStatus path 7 false 42.
Definition dir (path : str) : FileStatus := mkFileStatus path 7 true 42.

(** [new_listing] and [collect_page] of a test: the page's keys and flag, or
    the error, and the directories listed. The fuel is more than any tree here
    needs. *)
Definition collect (fs : FakeFs) (prefix : str) (after : option str) (max_keys : N) :
    option (result (list str * bool) HdfsError) * list str :=
  let start := or_else (list_start mapper prefix) $"/data" in
  let '(r, listed) := exec (@collect_page _ (fake_list_dir fs) 1000 max_keys
                              (new_listing start prefix after mapper)) [] in
  (match r with
   | Some (Ok (page, truncated)) => Some (Ok (map key page, truncated))
   | Some (Err e) => Some (Err e)
   | None => None
   end, listed).

(** The page a test expects, not truncated. *)
Definition gives (r : option (result (list str * bool) HdfsError)) (keys : list str) : bool :=
  match r with Some (Ok (page, truncated)) => assert_eq page keys && negb truncated | _ => false end.

Definition was_listed (d : str) (listed : list str) : bool := bool_decide (d ∈ listed).

Definition tree : FakeFs := mkFakeFs [
  ($"/data", [file $"/data/a.txt"; dir $"/data/b"; file $"/data/b2.txt"; dir $"/data/c";
              file $"/data/d.txt"; dir $"/data/e"]);
  ($"/data/b", [file $"/data/b/1.txt"; file $"/data/b/2.txt"]);
  ($"/data/c", [file $"/data/c/1.txt"])] [].

(** ** The tests *)

Definition merges_directories_in_global_byte_order : bool :=
  let '(page, listed) := collect tree [] None 100 in
  gives page [$"a.txt"; $"b/1.txt"; $"b/2.txt"; $"b2.txt"; $"c/1.txt"; $"d.txt"]
  && was_listed $"/data/e" listed.

(** U+10000 and U+E000, in UTF-8. *)
Definition u10000 : str := map ascii_of_N [0xF0; 0x90; 0x80; 0x80]%N.
Definition ue000 : str := map ascii_of_N [0xEE; 0x80; 0x80]%N.

Definition emits_utf8_byte_order_not_java_string_order : bool :=
  let fs := mkFakeFs [($"/data", [file ($"/data/" ++ u10000 ++ $".txt"); file ($"/data/" ++ ue000 ++ $".txt")])] [] in
  gives (collect fs [] None 10).1 [ue000 ++ $".txt"; u10000 ++ $".txt"].

Definition prefix_filters_and_prunes_unmatchable_directories : bool :=
  let '(page, listed) := collect tree $"b" None 100 in
  passes [gives page [$"b/1.txt"; $"b/2.txt"; $"b2.txt"];
    was_listed $"/data" listed; was_listed $"/data/b" listed;
    negb (was_listed $"/data/c" listed || was_listed $"/data/e" listed)].

Definition continuation_marker_skips_keys_in_byte_order : bool :=
  gives (collect tree [] (Some $"b/1.txt") 100).1 [$"b/2.txt"; $"b2.txt"; $"c/1.txt"; $"d.txt"].

(** The loop of a client; [pages] bounds it. *)
Fixpoint collect_all (pages : nat) (fs : FakeFs) (prefix : str) (max_keys : N) (token : option str)
    (collected : list str) : option (list str) :=
  match pages with
  | 0 => None
  | S pages =>
      match (collect fs prefix token max_keys).1 with
      | Some (Ok (page, truncated)) =>
          let collected := collected ++ page in
          if truncated then collect_all pages fs prefix max_keys (last page) collected
          else Some collected
      | _ => None
      end
  end.

Definition pages_concatenate_exactly_to_the_full_sorted_listing : bool :=
  assert_eq (collect_all 10 tree [] 2 None [])
    (Some [$"a.txt"; $"b/1.txt"; $"b/2.txt"; $"b2.txt"; $"c/1.txt"; $"d.txt"]).

Definition resume_skips_directories_entirely_before_marker : bool :=
  let fs := mkFakeFs [
    ($"/data", [dir $"/data/a"; dir $"/data/b"; dir $"/data/c"]);
    ($"/data/a", [file $"/data/a/1.txt"]); ($"/data/b", [file $"/data/b/1.txt"]);
    ($"/data/c", [file $"/data/c/1.txt"; file $"/data/c/2.txt"])] [] in
  let '(page, listed) := collect fs [] (Some $"c/1.txt") 100 in
  passes [gives page [$"c/2.txt"]; was_listed $"/data" listed; was_listed $"/data/c" listed;
    negb (was_listed $"/data/a" listed || was_listed $"/data/b" listed)].

Definition marker_inside_directory_still_lists_it : bool :=
  let fs := mkFakeFs [
    ($"/data", [dir $"/data/a"; dir $"/data/b"; dir $"/data/c"]);
    ($"/data/a", [file $"/data/a/1.txt"]);
    ($"/data/b", [file $"/data/b/1.txt"; file $"/data/b/2.txt"]);
    ($"/data/c", [file $"/data/c/1.txt"])] [] in
  let '(page, listed) := collect fs [] (Some $"b/1.txt") 100 in
  passes [gives page [$"b/2.txt"; $"c/1.txt"]; was_listed $"/data/b" listed; negb (was_listed $"/data/a" listed)].

Definition marker_under_sibling_file_still_skips_directory : bool :=
  let fs := mkFakeFs [
    ($"/data", [dir $"/data/a"; file $"/data/ab"]); ($"/data/a", [file $"/data/a/1.txt"])] [] in
  let '(page, listed) := collect fs [] (Some $"ab") 100 in
  gives page [] && assert_eq listed [$"/data"].

Definition dir_children_all_before_cases : bool := passes [
  dir_children_all_before $"a" $"b/1.txt";
  dir_children_all_before $"a" $"ab";
  dir_children_all_before $"a" $"aX";
  dir_children_all_before $"a" $"a0";
  negb (dir_children_all_before $"a" $"a.");
  negb (dir_children_all_before $"a" $"a");
  negb (dir_children_all_before $"a" $"a/");
  negb (dir_children_all_before $"a" $"a/1.txt");
  negb (dir_children_all_before $"ab" $"a");
  negb (dir_children_all_before $"b" $"aZ");
  negb (dir_children_all_before $"a" []);
  dir_children_all_before $"ab" $"ac"].

Definition empty_directories_yield_nothing_but_are_still_openable : bool :=
  gives (collect (mkFakeFs [($"/data", [dir $"/data/e"])] []) [] None 10).1 [].

(** The tree of the three tests of a directory that cannot be listed. *)
Definition with_failing_b (last_file : str) (e : FakeErr) : FakeFs := mkFakeFs [
  ($"/data", [file $"/data/a.txt"; dir $"/data/b"; file last_file]);
  ($"/data/b", [file $"/data/b/1.txt"])] [($"/data/b", e)].

Definition vanished_subdirectory_is_skipped_not_fatal : bool :=
  gives (collect (with_failing_b $"/data/d.txt" NotFound) [] None 100).1 [$"a.txt"; $"d.txt"].

Definition unreadable_subdirectory_is_skipped_not_fatal : bool :=
  gives (collect (with_failing_b $"/data/d.txt" Denied) [] None 100).1 [$"a.txt"; $"d.txt"].

Definition unreadable_subdirectory_after_skipped_files_still_continues : bool :=
  gives (collect (with_failing_b $"/data/c.txt" Denied) [] None 100).1 [$"a.txt"; $"c.txt"].

Definition unreadable_start_directory_still_propagates : bool :=
  let fs := mkFakeFs [($"/data", [file $"/data/a.txt"])] [($"/data", Denied)] in
  match (collect fs [] None 100).1 with
  | Some (Err (RPCError exception _)) =>
      let suffix := $"AccessControlException" in
      assert_eq (drop (length exception - length suffix) exception) suffix
  | _ => false
  end.

Definition missing_start_directory_is_an_empty_listing : bool :=
  gives (collect (mkFakeFs [] [($"/data", NotFound)]) [] None 100).1 [].

Definition other_errors_propagate_when_reached : bool :=
  let fs := mkFakeFs [
    ($"/data", [file $"/data/a.txt"; dir $"/data/c"]); ($"/data/c", [file $"/data/c/1.txt"])]
    [($"/data/c", Other)] in
  match (collect fs [] None 2).1 with Some (Err (OtherError _)) => true | _ => false end.

Definition max_keys_zero_is_empty_and_not_truncated : bool :=
  gives (collect tree [] None 0).1 [] && gives (collect (mkFakeFs [] []) [] None 0).1 [].

Example merge_tests_pass : passes [
  merges_directories_in_global_byte_order; emits_utf8_byte_order_not_java_string_order;
  prefix_filters_and_prunes_unmatchable_directories; continuation_marker_skips_keys_in_byte_order;
  pages_concatenate_exactly_to_the_full_sorted_listing; resume_skips_directories_entirely_before_marker;
  marker_inside_directory_still_lists_it; marker_under_sibling_file_still_skips_directory;
  dir_children_all_before_cases; empty_directories_yield_nothing_but_are_still_openable;
  vanished_subdirectory_is_skipped_not_fatal; unreadable_subdirectory_is_skipped_not_fatal;
  unreadable_subdirectory_after_skipped_files_still_continues; unreadable_start_directory_still_propagates;
  missing_start_directory_is_an_empty_listing; other_errors_propagate_when_reached;
  max_keys_zero_is_empty_and_not_truncated] = true.
Proof. vm_compute. reflexivity. Qed.

(** ** Random trees *)

(** A status under its parent directory. *)
Fixpoint add_child (parent : str) (st : FileStatus) (l : list (str * list FileStatus)) :
    list (str * list FileStatus) :=
  match l with
  | [] => [(parent, [st])]
  | (p, sts) :: l => if bool_decide (p = parent) then (p, sts ++ [st]) :: l else (p, sts) :: add_child parent st l
  end.

(** The path up to its last slash. *)
Definition parent_of (path : str) : str := or_else ((λ i, take i path) <$> rfind_slash path) [].

(** Every ancestor of a directory below the root, once, under its own parent. *)
Definition add_dir (acc : list (str * list FileStatus) * list str) (d : str) :
    list (str * list FileStatus) * list str :=
  let '(l, seen) := acc in
  if bool_decide (d ∈ seen) then acc else (add_child (parent_of d) (dir d) l, d :: seen).

Definition add_key (acc : list (str * list FileStatus) * list str) (key : str) :
    list (str * list FileStatus) * list str :=
  let path := $"/data/" ++ key in
  let '(l, seen) := acc in
  foldl add_dir (add_child (parent_of path) (file path) l, seen)
    (rev (map (λ p, $"/data/" ++ p) (parents key))).

Definition adversarial_fs (seed : N) (n : nat) : FakeFs * list str :=
  let keys := adversarial_keys seed n 2 in
  let '(l, _) := foldl add_key ([], []) keys in
  (mkFakeFs (add_child $"/data" (dir $"/data/emptydir") l) [], keys).

(** The client of the test: the keys of all pages, strictly increasing, none of
    a truncated page's empty. *)
Fixpoint walk_flat (pages : nat) (fs : FakeFs) (prefix : str) (marker : option str) (max_keys : N)
    (collected : list str) : option (list str) :=
  match pages with
  | 0 => None
  | S pages =>
      match (collect fs prefix marker max_keys).1 with
      | Some (Ok (page, truncated)) =>
          if truncated && bool_decide (page = []) then None
          else
            collected ← push_increasing collected page;
            if truncated then walk_flat pages fs prefix (last page) max_keys collected else Some collected
      | _ => None
      end
  end.

Definition flat_listing_page_size_invariance (seed : N) (n : nat) : bool :=
  let '(fs, full) := adversarial_fs seed n in
  let pages := S (S n) in
  forallb (λ prefix,
    let expected := List.filter (λ k, starts_with k prefix) full in
    assert_eq (walk_flat pages fs prefix None U64_MAX []) (Some expected)
    && forallb (λ max_keys, assert_eq (walk_flat pages fs prefix None max_keys []) (Some expected))
         [1; 2; 3; 5; 7]%N
    && forallb (λ marker,
         assert_eq (walk_flat pages fs prefix marker 2 []) (Some (List.filter (after_marker marker) expected)))
         [None; Some $"a"; Some $"a/"; Some $"a/b"; Some $"a/b/"; Some $"a/b."; Some $"a/b!"; Some $"a/b!/";
          Some $"a/0"; Some $"a/0/"; Some $"!"])
    [[]; $"a"; $"a/"; $"a.b"; $"!"].

Example random_merge_tests_pass : flat_listing_page_size_invariance 11 12 = true.
Proof. vm_compute. reflexivity. Qed.
