(* ===== verification/ConfigTests.v ===== *)
(** The unit tests of [src/config/mod.rs], run on the model.

    As in [CoreTests]. The files the tests write are given as what the TOML
    parser makes of them; the environment is an argument of the loader. *)

From S2P Require Import Prelude Bytes Config CoreTests.

(** The helper [args]. *)
Definition args (config : option str) : CliArgs :=
  mkCliArgs config None None None None None None None None false false.

(** [Config::load], with one file and one environment variable. *)
Definition load_with (toml : TomlConfig) (cache_env : option str) : CliArgs → result Config (ConfigError unit unit) :=
  load (λ _, Ok []) (λ _, Ok toml) (λ _, tt) (λ _, tt)
    (λ name, if bool_decide (name = $"HDFS_S3_CACHE_ENABLED") then cache_env else None) (λ _, true).

(** The file of [write_hdfs_config]. *)
Definition hdfs_config : TomlConfig :=
  mkTomlConfig (Some $"hdfs://localhost:8020") (Some $"/data") (Some $"hdfs") None None None
    (Some (<[$"from.file" := $"1"]> {[$"shared" := $"file"]})) (Some $"/from/file") (Some $"from-file")
    None None None.

Definition hdfs_settings_are_overridable_from_arguments : bool :=
  let arguments := mkCliArgs (Some $"gateway.toml") None None None None None (Some $"alice")
    (Some $"/etc/hadoop/conf")
    (Some [($"fs.defaultFS", $"hdfs://other:8020"); ($"shared", $"flag")]) false false in
  match load_with hdfs_config None arguments with
  | Ok config => passes [
      assert_eq (hdfs_user config) (Some $"alice");
      assert_eq (hdfs_config_dir config) (Some $"/etc/hadoop/conf");
      assert_eq (hdfs_options config !! $"from.file") (Some $"1");
      assert_eq (hdfs_options config !! $"shared") (Some $"flag");
      assert_eq (hdfs_options config !! $"fs.defaultFS") (Some $"hdfs://other:8020")]
  | Err _ => false
  end.

(** The value parser of [--hdfs-option]; the rest of the test is the derived
    command line parser's. *)
Definition hdfs_option_flags_parse_and_reject_missing_values : bool := passes [
  match parse_hdfs_option $"a=1" with Ok kv => assert_eq kv ($"a", $"1") | Err _ => false end;
  match parse_hdfs_option $"b=x=y" with Ok kv => assert_eq kv ($"b", $"x=y") | Err _ => false end;
  match parse_hdfs_option $"novalue" with Ok _ => false | Err _ => true end].

(** The file of [write_config]. *)
Definition cache_toggle (cache_enabled : bool) : TomlConfig :=
  mkTomlConfig (Some $"hdfs://localhost:8020") (Some $"/data") (Some $"hdfs") None None None None None None
    (Some (mkTomlCache (Some cache_enabled) None None None None None None None None None)) None None.

(** Whether a configuration was loaded, and with the caches on. *)
Definition caches_on (r : result Config (ConfigError unit unit)) : option bool :=
  match r with Ok config => Some (enabled (cache config)) | Err _ => None end.

Definition cache_kill_switch_precedence : bool :=
  let path := Some $"gateway.toml" in
  let load env := load_with (cache_toggle true) env in
  passes [
    assert_eq (caches_on (load None (args path))) (Some true);
    assert_eq (caches_on (load (Some $"0") (args path))) (Some false);
    assert_eq (caches_on (load (Some $"0")
      (mkCliArgs path None None None None None None None None false true))) (Some true);
    assert_eq (caches_on (load None
      (mkCliArgs path None None None None None None None None true false))) (Some false);
    assert_eq (caches_on (load (Some $"definitely-not-a-bool") (args path))) None].

Example config_tests_pass : passes [
  hdfs_settings_are_overridable_from_arguments; hdfs_option_flags_parse_and_reject_missing_values;
  cache_kill_switch_precedence] = true.
Proof. vm_compute. reflexivity. Qed.
