(* ===== verification/MiniDfs.v ===== *)
(** A cluster for the integration tests of [src/tests]: the [MiniDFSCluster]
    and the [TestScope] of [src/tests/common/mod.rs].

    The file system is a list of files and explicit directories, with what the
    gateway's HDFS user may do there; it answers the calls of the client as the
    tests describe the NameNode. A test is a program over the file system and
    the gateway: it writes files, lets time pass, and calls the handlers, each
    run by itself. A tick is a millisecond. *)

From S2P Require Import Prelude Prog Bytes Config Path Range Metadata HdfsError Listing Rfc4648.
From S2P Require Import Cache Caches SortedListing Merge Paging Gateway ListObjects.
From S2P Require Import Invariant Objects Listings Requests RequestLog Demo.

(** ** The file system *)

(** A file with its bytes, or a directory; whether the user may read it, and
    pass through it. The parents of a node are there without a node. *)
Record Node := mkNode {
  nd_path : str;
  nd_data : option str;
  nd_mtime : N;
  nd_readable : bool;
  nd_traversable : bool;
}.

Abbreviation Dfs := (list Node).

Definition node_at (fs : Dfs) (path : str) : option Node := List.find (λ n, bool_decide (nd_path n = path)) fs.

Definition under (dir path : str) : bool := starts_with path (dir ++ $"/").

Definition is_dir (fs : Dfs) (path : str) : bool :=
  match node_at fs path with
  | Some n => match nd_data n with None => true | Some _ => false end
  | None => existsb (λ n, under path (nd_path n)) fs
  end.

Definition access_control (path : str) : HdfsError :=
  RPCError $"org.apache.hadoop.security.AccessControlException" ($"Permission denied: " ++ path).

(** An ancestor that the user may not pass through. *)
Definition blocked (fs : Dfs) (path : str) : bool :=
  existsb (λ n, negb (nd_traversable n) && under (nd_path n) path) fs.

Definition readable (fs : Dfs) (path : str) : bool :=
  match node_at fs path with Some n => nd_readable n | None => true end.

Definition status_of (fs : Dfs) (path : str) : result FileStatus HdfsError :=
  if is_dir fs path then Ok (mkFileStatus path 0 true 0)
  else
    match node_at fs path with
    | Some n => Ok (mkFileStatus path (N.of_nat (List.length (or_else (nd_data n) []))) false (nd_mtime n))
    | None => Err (FileNotFound path)
    end.

Definition dfs_get_file_info (fs : Dfs) (path : str) : result FileStatus HdfsError :=
  if blocked fs path then Err (access_control path) else status_of fs path.

(** The first segment of what is below [dir] of a path. *)
Definition child_of (dir path : str) : option str :=
  if under dir path then
    match split_slash (drop (S (List.length dir)) path) with
    | seg :: _ => Some (dir ++ $"/" ++ seg)
    | [] => None
    end
  else None.

(** [getListing] reports a file as it does a missing path. *)
Definition dfs_list_status (fs : Dfs) (path : str) : result (list FileStatus) HdfsError :=
  if blocked fs path then Err (access_control path)
  else if is_dir fs path then
    if readable fs path then
      Ok (omap (λ p, match status_of fs p with Ok st => Some st | Err _ => None end)
            (dedup (sort_by str_cmp (omap (child_of path ∘ nd_path) fs))))
    else Err (access_control path)
  else Err (FileNotFound path).

Definition dfs_read (fs : Dfs) (path : str) : result str HdfsError :=
  if blocked fs path then Err (access_control path)
  else
    match node_at fs path with
    | Some n =>
        match nd_data n with
        | Some data => if nd_readable n then Ok data else Err (access_control path)
        | None => Err (IsADirectoryError path)
        end
    | None => Err (FileNotFound path)
    end.

(** A DataNode sends packets of sixty-four bytes. *)
Fixpoint packets (fuel : nat) (bytes : str) : list (result str unit) :=
  match fuel, bytes with
  | S fuel, _ :: _ => Ok (take 64 bytes) :: packets fuel (drop 64 bytes)
  | _, _ => []
  end.

Definition dfs_world (fs : Dfs) : World (R:=str) (IoError:=unit) := {|
  clock := λ t, N.of_nat t;
  system_time := λ t, (1000000 * N.of_nat t)%N;
  get_file_info := λ _, dfs_get_file_info fs;
  list_status := λ _, dfs_list_status fs;
  read := λ _, dfs_read fs;
  reader_length := λ r, N.of_nat (List.length r);
  read_range_stream := λ _ r s n,
    let window := take (N.to_nat n) (drop (N.to_nat s) r) in packets (List.length window) window;
  hdfs_to_string := λ _, $"upstream";
  strong_cmp := etag_eqb;
  weak_cmp := etag_eqb;
  header_value := Some;
  mime_first := λ _, None;
|}.

(** ** Tests *)

(** The tokens are the base64 of RFC 4648. *)
#[export] Existing Instance rfc4648.

(** The cluster and one gateway on it. *)
Record Scope := mkScope {
  sc_fs : Dfs;
  sc_gw : GwState (L:=list_lru str) (R:=str);
}.

Definition T (A : Type) : Type := Config → Scope → A * Scope.

Definition t_ret {A} (a : A) : T A := λ _ sc, (a, sc).

Definition t_bind {A B} (c : T A) (k : A → T B) : T B := λ config sc, let '(a, sc) := c config sc in k a config sc.

Declare Scope test_scope.
Delimit Scope test_scope with test.
Notation "'let*' x ':=' c 'in' k" := (t_bind c (λ x, k))
  (at level 10, x name, c at level 100, k at level 200) : test_scope.
Notation "c ;; k" := (t_bind c (λ _, k)) (at level 100, k at level 200, right associativity) : test_scope.

(** [TestScope::new]: the test's own root. *)
Definition test_root : str := $"/__t_1_0".

(** [TestScope::config_with] and [TestScope::config]. *)
Definition config_with (max_concurrent : N) (secret : option str) : Config := {|
  namenode_uri := $"hdfs://127.0.0.1:9000"; hdfs_root := test_root;
  bucket_name := $"hdfs"; listen_addr := $"127.0.0.1:0";
  max_concurrent_requests := max_concurrent; expose_upstream_errors := false; hdfs_options := ∅;
  hdfs_config_dir := None; hdfs_user := None; cache := default_cache_config; auth_secret := secret |}.

Definition scope_config : Config := config_with 2048 None.

Definition passes_with (config : Config) (t : T bool) : bool := (t config (mkScope [] (initial config))).1.

Definition put_node (n : Node) : T unit := λ _ sc,
  (tt, mkScope (n :: List.filter (λ m, negb (bool_decide (nd_path m = nd_path n))) (sc_fs sc)) (sc_gw sc)).

(** [scope.write_file]: the time of the write is the cluster's. *)
Definition write_file (rel data : str) : T unit := λ config sc,
  put_node (mkNode (test_root ++ $"/" ++ rel) (Some data) (clock (dfs_world []) (gw_tick (sc_gw sc))) true true) config sc.

(** [client.mkdirs], with what the user may do there; [client.set_permission]
    on a file. *)
Definition mkdirs (rel : str) (may_read may_pass : bool) : T unit :=
  put_node (mkNode (test_root ++ $"/" ++ rel) None 0 may_read may_pass).

Definition forbid_reading (rel : str) : T unit := λ _ sc,
  (tt, mkScope (map (λ n, if bool_decide (nd_path n = test_root ++ $"/" ++ rel)
                          then mkNode (nd_path n) (nd_data n) (nd_mtime n) false (nd_traversable n) else n)
                    (sc_fs sc)) (sc_gw sc)).

(** [tokio::time::sleep]. *)
Definition sleep (millis : nat) : T unit := λ _ sc,
  let gw := sc_gw sc in
  (tt, mkScope (sc_fs sc) (mkGwState (gw_caches gw) (gw_seq gw) (gw_tick gw + millis) (gw_events gw))).

Definition events : T (list LogEvent) := λ _ sc, (gw_events (sc_gw sc), sc).

Definition call_handler (q : Request str) : T (Outcome str unit) := λ config sc,
  let '(o, gw) := exec (handler (dfs_world (sc_fs sc)) (new_mapper config) config q) (sc_gw sc) in
  (o, mkScope (sc_fs sc) gw).

(** ** The calls of the tests *)

Definition code_of {A} (r : result (S3Response A) S3Error) : result A S3ErrorCode :=
  match r with Ok resp => Ok (output resp) | Err e => Err (code e) end.

Definition plain : Conditions := mkConditions None None None None.

Definition send_unit (q : Request str) : T (result unit S3ErrorCode) :=
  t_bind (call_handler q) (λ o, t_ret (match o with OutUnit r => code_of r | _ => Err InternalError end)).

Definition head_bucket_of (bucket : str) : T (result unit S3ErrorCode) := send_unit (ReqHeadBucket bucket).

Definition head_with (key : str) (cs : Conditions) : T (result HeadObjectOutput S3ErrorCode) :=
  t_bind (call_handler (ReqHeadObject (mkHeadObjectInput $"hdfs" key cs)))
    (λ o, t_ret (match o with OutHead r => code_of r | _ => Err InternalError end)).

Definition head (key : str) : T (result HeadObjectOutput S3ErrorCode) := head_with key plain.

Definition get_with (key : str) (cs : Conditions) (range : option RangeHeader) :
    T (result (GetObjectOutput str) S3ErrorCode) :=
  t_bind (call_handler (ReqGetObject (mkGetObjectInput $"hdfs" key cs range)))
    (λ o, t_ret (match o with OutGet r => code_of r | _ => Err InternalError end)).

Definition get (key : str) : T (result (GetObjectOutput str) S3ErrorCode) := get_with key plain None.

(** [collect_body]: no chunk may fail. *)
Definition collect_body (r : result (GetObjectOutput str) S3ErrorCode) : T (option str) :=
  match r with
  | Ok out =>
      t_bind (call_handler (ReqBody (go_body out)))
        (λ o, t_ret (match o with
                     | OutBody chunks => if forallb is_ok chunks then Some (delivered chunks) else None
                     | _ => None
                     end))
  | Err _ => t_ret None
  end.

Definition list_objects (i : ListObjectsV2Input) : T (result ListObjectsV2Output S3ErrorCode) :=
  t_bind (call_handler (ReqListObjects 1000 i))
    (λ o, t_ret (match o with
                 | OutList (Ok resp) => match output resp with Some out => Ok out | None => Err InternalError end
                 | OutList (Err e) => Err (code e)
                 | _ => Err InternalError
                 end)).

Definition listing (prefix delimiter : option str) (max_keys : option Z) (token : option str) : ListObjectsV2Input :=
  mkListObjectsV2Input $"hdfs" prefix delimiter max_keys token None.

Definition keys_of (out : ListObjectsV2Output) : list str := map obj_key (or_else (out_contents out) []).
Definition prefixes_of (out : ListObjectsV2Output) : list str := or_else (out_common_prefixes out) [].

(** The loop over the pages: the keys and the common prefixes in the order they
    came, within so many pages. *)
Fixpoint walk (pages : nat) (prefix delimiter : option str) (max_keys : option Z) (token : option str) :
    T (option (list str * list str)) :=
  match pages with
  | 0 => t_ret None
  | S pages =>
      t_bind (list_objects (listing prefix delimiter max_keys token)) (λ r,
        match r with
        | Ok out =>
            match out_next_continuation_token out with
            | Some t =>
                t_bind (walk pages prefix delimiter max_keys (Some t)) (λ rest,
                  t_ret (match rest with
                         | Some (ks, ps) => Some (keys_of out ++ ks, prefixes_of out ++ ps)
                         | None => None
                         end))
            | None => t_ret (Some (keys_of out, prefixes_of out))
            end
        | Err _ => t_ret None
        end)
  end.
