(* ===== verification/GatewayTests.v ===== *)
(** The integration tests of [src/tests/integration.rs] and
    [src/tests/minidfs_permission_denial.rs], run on the model of the gateway
    over the cluster of [MiniDfs].

    As in [CoreTests], a definition for each test, with the test's calls and
    expected values. Files of megabytes are hundreds of bytes here, and the
    directory of three thousand files has sixty. *)

From S2P Require Import Prelude Bytes Config HdfsError Listing Gateway ListObjects Requests CoreTests MiniDfs.

#[local] Open Scope test_scope.

Definition fails {A} (r : result A S3ErrorCode) (c : S3ErrorCode) : bool :=
  match r with Err e => assert_eq e c | Ok _ => false end.

Definition holds_of {A} (r : result A S3ErrorCode) (p : A → bool) : bool :=
  match r with Ok a => p a | Err _ => false end.

(** The data of the large files. *)
Definition pattern (n : nat) : str := map (λ i, ascii_of_N (N.of_nat i mod 251)) (seq 0 n).

(** ** [HeadObject] and [HeadBucket] *)

Definition hello_world_minidfs : T bool :=
  let* _ := write_file $"data/hello.txt" $"hello hdfs" in
  λ _ sc,
    (match dfs_get_file_info (sc_fs sc) (test_root ++ $"/data/hello.txt"),
           dfs_read (sc_fs sc) (test_root ++ $"/data/hello.txt") with
     | Ok st, Ok buf => passes [negb (SortedListing.fs_isdir st); assert_eq (SortedListing.fs_length st) 10%N; assert_eq buf $"hello hdfs"]
     | _, _ => false
     end, sc).

Definition head_object_and_bucket : T bool :=
  let* _ := write_file $"data/a/b.txt" $"contents" in
  let* bucket := head_bucket_of $"hdfs" in
  let* other := head_bucket_of $"other" in
  let* found := head $"data/a/b.txt" in
  let* _ := write_file $"data/dir/file.txt" $"x" in
  let* directory := head $"data/dir" in
  let* missing := head $"data/missing.txt" in
  t_ret (passes [
    is_ok bucket; fails other NoSuchBucket;
    holds_of found (λ out, assert_eq (ho_content_length out) 8%Z);
    fails directory NoSuchKey; fails missing NoSuchKey]).

Definition path_traversal_blocked : T bool :=
  let* _ := write_file $"data/secret.txt" $"topsecret" in
  let* r := head $"../../secret.txt" in
  t_ret (fails r NoSuchKey).

(** ** Listings *)

Definition lists (r : result ListObjectsV2Output S3ErrorCode) (ks ps : list str) : bool :=
  holds_of r (λ out, assert_eq (keys_of out) ks && assert_eq (prefixes_of out) ps).

Definition list_objects_v2_test : T bool :=
  let* _ := write_file $"data/a/b/c.txt" $"1" in
  let* _ := write_file $"data/a/b/d.txt" $"2" in
  let* _ := write_file $"data/a/e.txt" $"3" in
  let* _ := write_file $"data/f.txt" $"4" in
  let* all := list_objects (listing None None None None) in
  let* top := list_objects (listing None (Some $"/") None None) in
  t_ret (passes [
    lists all [$"data/a/b/c.txt"; $"data/a/b/d.txt"; $"data/a/e.txt"; $"data/f.txt"] [];
    lists top [] [$"data/"]]).

Definition list_objects_v2_prefix_pagination_and_order : T bool :=
  let* _ := write_file $"data/list/a.txt" $"a" in
  let* _ := write_file $"data/list/b.txt" $"b" in
  let* _ := write_file $"data/list/sub/c.txt" $"c" in
  let* _ := write_file $"data/list/sub/d.txt" $"d" in
  let* _ := write_file $"data/list/sub/deep/e.txt" $"e" in
  let* _ := write_file $"data/list2/x.txt" $"x" in
  let* sub := list_objects (listing (Some $"data/list/sub/") None None None) in
  let* level := list_objects (listing (Some $"data/list/") (Some $"/") None None) in
  let* all := walk 10 None None (Some 2%Z) None in
  let* _ := write_file $"data/list/~z.txt" $"z" in
  let* ordered := list_objects (listing (Some $"data/list/") None None None) in
  t_ret (passes [
    lists sub [$"data/list/sub/c.txt"; $"data/list/sub/d.txt"; $"data/list/sub/deep/e.txt"] [];
    lists level [$"data/list/a.txt"; $"data/list/b.txt"] [$"data/list/sub/"];
    assert_eq (fst <$> all) (Some [$"data/list/a.txt"; $"data/list/b.txt"; $"data/list/sub/c.txt";
      $"data/list/sub/d.txt"; $"data/list/sub/deep/e.txt"; $"data/list2/x.txt"]);
    holds_of ordered (λ out, assert_eq (keys_of out) (sort_by str_cmp (keys_of out)));
    holds_of ordered (λ out, assert_eq (last (keys_of out)) (Some $"data/list/~z.txt"))]).

Definition list_objects_v2_prefix_with_delimiter : T bool :=
  let* _ := write_file $"data/list/a.txt" $"a" in
  let* _ := write_file $"data/list/sub/b.txt" $"b" in
  let* _ := write_file $"data/list/sub/deep/c.txt" $"c" in
  let* _ := write_file $"data/other/d.txt" $"d" in
  let* r := list_objects (listing (Some $"data/list/") (Some $"/") None None) in
  t_ret (lists r [$"data/list/a.txt"] [$"data/list/sub/"]).

Definition list_objects_v2_non_slash_delimiter_walks_subtree : T bool :=
  let* _ := write_file $"data/nonslash/plain" $"p" in
  let* _ := write_file $"data/nonslash/root.txt" $"r" in
  let* _ := write_file $"data/nonslash/dir/a.txt" $"a" in
  let* _ := write_file $"data/nonslash/dir/b.txt" $"b" in
  let* _ := write_file $"data/nonslash/dir/sub/c.txt" $"c" in
  let* _ := write_file $"data/nonslash/other/deep/d.txt" $"d" in
  let* all := walk 10 (Some $"data/nonslash/") (Some $".") (Some 2%Z) None in
  t_ret (assert_eq all (Some ([$"data/nonslash/plain"],
    [$"data/nonslash/dir/a."; $"data/nonslash/dir/b."; $"data/nonslash/dir/sub/c.";
     $"data/nonslash/other/deep/d."; $"data/nonslash/root."]))).

(** The partitions of the table. *)
Definition parts : list str := map (λ i, $"data/tbl/part" ++ fmt_dec i ++ $"/") [1; 2; 3; 4; 5; 6; 7]%N.

Fixpoint write_files (l : list str) (data : str) : T unit :=
  match l with
  | [] => t_ret tt
  | rel :: l => let* _ := write_file rel data in write_files l data
  end.

Definition list_objects_v2_delimiter_pagination_terminates : T bool :=
  let* _ := write_files (map (λ p, p ++ $"f.txt") parts) $"x" in
  let* all := walk 8 (Some $"data/tbl/") (Some $"/") (Some 2%Z) None in
  t_ret (assert_eq all (Some ([], parts))).

Definition list_objects_v2_delimiter_shows_empty_directory : T bool :=
  let* _ := write_file $"data/tbl/filled/f.txt" $"x" in
  let* _ := mkdirs $"data/tbl/empty" true true in
  let* r := list_objects (listing (Some $"data/tbl/") (Some $"/") None None) in
  t_ret (lists r [] [$"data/tbl/empty/"; $"data/tbl/filled/"]).

Definition list_objects_v2_missing_prefix_directory_is_empty : T bool :=
  let* _ := write_file $"data/a.txt" $"a" in
  let* r := list_objects (listing (Some $"data/nonexistent/") None None None) in
  t_ret (lists r [] [] && holds_of r (λ out, passes [
    negb (out_is_truncated out); assert_eq (out_key_count out) 0%Z;
    assert_eq (out_next_continuation_token out) None])).

Definition list_objects_v2_prefix_pointing_at_file_is_empty : T bool :=
  let* _ := write_file $"data/a.txt" $"a" in
  let* r := list_objects (listing (Some $"data/a.txt/") None None None) in
  t_ret (lists r [] [] && holds_of r (λ out, assert_eq (out_key_count out) 0%Z)).

Definition list_objects_v2_unreadable_subdirectory_is_skipped : T bool :=
  let* _ := write_file $"data/a.txt" $"a" in
  let* _ := mkdirs $"forbidden" false false in
  let* all := list_objects (listing None None None None) in
  let* denied := list_objects (listing (Some $"forbidden/") None None None) in
  let* data := list_objects (listing (Some $"data/") None None None) in
  t_ret (passes [lists all [$"data/a.txt"] []; fails denied AccessDenied; lists data [$"data/a.txt"] []]).

(** [format!("{i:05}")]. *)
Definition five_digits (i : nat) : str :=
  let s := fmt_dec (N.of_nat i) in List.repeat "0"%char (5 - List.length s) ++ s.

Definition list_objects_v2_large_dir (n : nat) (max_keys : Z) : T bool :=
  let names := map (λ i, $"data/bigdir/file_" ++ five_digits i ++ $".bin") (seq 0 n) in
  let* _ := write_files names $"x" in
  let* all := walk (S n) (Some $"data/bigdir/") None (Some max_keys) None in
  t_ret (assert_eq all (Some (names, []))).

Definition list_objects_v2_wide_tree_flat_pagination (width : nat) : T bool :=
  let names := concat (map (λ d, map (λ f,
    $"data/wide/dir_" ++ drop 3 (five_digits d) ++ $"/file_" ++ fmt_dec (N.of_nat f) ++ $".bin") (seq 0 3)) (seq 0 width)) in
  let* _ := write_files names $"x" in
  let* all := walk (S (3 * width)) (Some $"data/wide/") None (Some 17%Z) None in
  t_ret (assert_eq all (Some (sort_by str_cmp names, []))).

Definition list_objects_v2_flat_listing_uses_utf8_byte_order : T bool :=
  let astral := $"data/ord/" ++ map ascii_of_N [0xF0; 0x90; 0x80; 0x80]%N ++ $".bin" in
  let private_use := $"data/ord/" ++ map ascii_of_N [0xEE; 0x80; 0x80]%N ++ $".bin" in
  let* _ := write_file astral $"a" in
  let* _ := write_file private_use $"b" in
  let* r := list_objects (listing (Some $"data/ord/") None None None) in
  t_ret (lists r [private_use; astral] []).

Definition list_objects_v2_invalid_token_rejected : T bool :=
  let* _ := write_file $"data/a.txt" $"a" in
  let* _ := write_file $"data/b.txt" $"b" in
  let* bad := list_objects (listing None None None (Some $"not base64 !!!")) in
  let* first := list_objects (listing None None (Some 1%Z) None) in
  let token := match first with Ok out => out_next_continuation_token out | Err _ => None end in
  let* second := list_objects (listing None None None token) in
  t_ret (passes [fails bad InvalidToken; bool_decide (is_Some token); lists second [$"data/b.txt"] []]).

Definition list_objects_v2_max_keys_edge_cases : T bool :=
  let* _ := write_file $"data/mkz/a.txt" $"a" in
  let* _ := write_file $"data/mkz/b.txt" $"b" in
  let* _ := write_file $"data/mkz/sub/c.txt" $"c" in
  let empty r := lists r [] [] && holds_of r (λ out,
    negb (out_is_truncated out) && assert_eq (out_next_continuation_token out) None) in
  let* flat := list_objects (listing (Some $"data/mkz/") None (Some 0%Z) None) in
  let* level := list_objects (listing (Some $"data/mkz/") (Some $"/") (Some 0%Z) None) in
  let* negative := list_objects (listing None None (Some (-1)%Z) None) in
  t_ret (passes [empty flat; empty level; fails negative InvalidArgument]).

Definition integration_listing_tests : list (T bool) := [
  list_objects_v2_test; list_objects_v2_prefix_pagination_and_order; list_objects_v2_prefix_with_delimiter;
  list_objects_v2_non_slash_delimiter_walks_subtree; list_objects_v2_delimiter_pagination_terminates;
  list_objects_v2_delimiter_shows_empty_directory; list_objects_v2_missing_prefix_directory_is_empty;
  list_objects_v2_prefix_pointing_at_file_is_empty; list_objects_v2_unreadable_subdirectory_is_skipped;
  list_objects_v2_large_dir 60 25; list_objects_v2_wide_tree_flat_pagination 12;
  list_objects_v2_flat_listing_uses_utf8_byte_order; list_objects_v2_invalid_token_rejected;
  list_objects_v2_max_keys_edge_cases].

Example integration_listing_tests_pass : forallb (passes_with scope_config) integration_listing_tests = true.
Proof. vm_compute. reflexivity. Qed.

(** ** [GetObject] *)

(** An answer of so many bytes, with this body. *)
Definition serves (r : result (GetObjectOutput str) S3ErrorCode) (body : option str) (bytes : str) : bool :=
  holds_of r (λ out, assert_eq (go_content_length out) (Z.of_nat (List.length bytes))) && assert_eq body (Some bytes).

Definition get_object_full_and_ranged (n : nat) : T bool :=
  let data := pattern n in
  let* _ := write_file $"data/big.bin" data in
  let get_range range := get_with $"data/big.bin" plain (Some range) in
  let* full := get $"data/big.bin" in
  let* full_body := collect_body full in
  let* first := get_range (RangeInt 0 (Some 99%N)) in
  let* first_body := collect_body first in
  let* from := get_range (RangeInt 100 None) in
  let* from_body := collect_body from in
  let* suffix := get_range (RangeSuffix 500) in
  let* suffix_body := collect_body suffix in
  let* beyond := get_range (RangeInt (N.of_nat n) None) in
  let* _ := write_file $"data/dir/file.txt" $"x" in
  let* directory := get $"data/dir" in
  t_ret (passes [
    serves full full_body data;
    serves first first_body (take 100 data);
    holds_of first (λ out, assert_eq (go_content_range out) (Some ($"bytes 0-99/" ++ fmt_dec (N.of_nat n))));
    serves from from_body (drop 100 data);
    serves suffix suffix_body (drop (n - 500) data);
    fails beyond InvalidRange; fails directory NoSuchKey]).

Definition get_object_streams_large_body_exactly (n first last : nat) : T bool :=
  let data := pattern n in
  let* _ := write_file $"data/large.bin" data in
  let* full := get $"data/large.bin" in
  let* full_body := collect_body full in
  let* part := get_with $"data/large.bin" plain (Some (RangeInt (N.of_nat first) (Some (N.of_nat last)))) in
  let* part_body := collect_body part in
  t_ret (serves full full_body data && assert_eq part_body (Some (take (S last - first) (drop first data)))).

Definition when_match (c : ETagCondition) : Conditions := mkConditions (Some c) None None None.
Definition when_none_match (c : ETagCondition) : Conditions := mkConditions None None (Some c) None.
Definition when_modified (t : Timestamp) : Conditions := mkConditions None None None (Some t).

Definition e_tag_of (r : result HeadObjectOutput S3ErrorCode) : ETag :=
  match r with Ok out => ho_e_tag out | Err _ => Strong [] end.

Definition get_object_conditionals : T bool :=
  let* _ := write_file $"data/c.txt" $"conditional" in
  let* found := head $"data/c.txt" in
  let etag := OneETag (e_tag_of found) in
  let* unchanged := get_with $"data/c.txt" (when_none_match etag) None in
  let* same := get_with $"data/c.txt" (when_match etag) None in
  let* same_body := collect_body same in
  let* wrong := get_with $"data/c.txt" (when_match (OneETag (Strong $"deadbeef"))) None in
  t_ret (passes [
    is_ok found; fails unchanged NotModified; assert_eq same_body (Some $"conditional");
    fails wrong PreconditionFailed]).

Definition head_object_accept_ranges_and_conditionals : T bool :=
  let* _ := write_file $"data/c.txt" $"conditional" in
  let* found := head $"data/c.txt" in
  let* unchanged := head_with $"data/c.txt" (when_none_match (OneETag (e_tag_of found))) in
  let* wrong := head_with $"data/c.txt" (when_match (OneETag (Strong $"deadbeef"))) in
  let* future := head_with $"data/c.txt" (when_modified (3600 * 1000000000)%Z) in
  t_ret (passes [
    holds_of found (λ out, assert_eq (ho_accept_ranges out) $"bytes");
    fails unchanged NotModified; fails wrong PreconditionFailed; fails future NotModified]).

Definition get_object_empty_file_ranges : T bool :=
  let* _ := write_file $"data/empty.bin" [] in
  let* suffix := get_with $"data/empty.bin" plain (Some (RangeSuffix 10)) in
  let* nothing := get_with $"data/empty.bin" plain (Some (RangeSuffix 0)) in
  let* full := get $"data/empty.bin" in
  let* body := collect_body full in
  t_ret (passes [fails suffix InvalidRange; fails nothing InvalidRange; serves full body []]).

(** ** Refused operations and probes *)

Fixpoint all_answer {A} (send : A → T (result unit S3ErrorCode)) (p : result unit S3ErrorCode → bool) (l : list A) :
    T bool :=
  match l with
  | [] => t_ret true
  | a :: l => let* r := send a in let* rest := all_answer send p l in t_ret (p r && rest)
  end.

Definition write_ops_uniformly_denied : T bool :=
  let* _ := write_file $"data/w.txt" $"x" in
  all_answer (send_unit ∘ ReqWrite) (λ r, fails r AccessDenied)
    [PutObject; DeleteObject; DeleteObjects; CopyObject; CreateBucket; DeleteBucket; CreateMultipartUpload;
     UploadPart; CompleteMultipartUpload; AbortMultipartUpload; ListMultipartUploads; ListParts; RestoreObject].

Definition bucket_config_probes_not_configured : T bool :=
  all_answer (send_unit ∘ ReqProbe) is_ok [GetBucketVersioning; GetBucketTagging; GetBucketAcl; GetBucketCors].

(** ** Caches *)

(** The scope's configuration with the caches as a test sets them. *)
Definition with_caches (f : CacheConfig → CacheConfig) : Config := {|
  namenode_uri := namenode_uri scope_config; hdfs_root := hdfs_root scope_config;
  bucket_name := bucket_name scope_config; listen_addr := listen_addr scope_config;
  max_concurrent_requests := max_concurrent_requests scope_config;
  expose_upstream_errors := expose_upstream_errors scope_config; hdfs_options := hdfs_options scope_config;
  hdfs_config_dir := hdfs_config_dir scope_config; hdfs_user := hdfs_user scope_config;
  cache := f (cache scope_config); auth_secret := auth_secret scope_config |}.

Definition ttls (on : bool) (metadata blocks listing negative : N) (c : CacheConfig) : CacheConfig := {|
  enabled := on; metadata_ttl_ms := metadata; blocks_ttl_ms := blocks; listing_ttl_ms := listing;
  negative_ttl_ms := negative; metadata_capacity := metadata_capacity c; blocks_capacity := blocks_capacity c;
  listing_capacity_entries := listing_capacity_entries c; listing_max_dir_entries := listing_max_dir_entries c |}.

Definition head_len (key : str) : T (option Z) :=
  let* r := head key in t_ret (match r with Ok out => Some (ho_content_length out) | Err _ => None end).

(** The tests have one gateway with a long time to live and one with a short
    one, which they wait for. *)
Definition metadata_stays (wait : nat) (then_length : Z) : T bool :=
  let* _ := write_file $"data/cache/a.txt" $"aaaa" in
  let* before := head_len $"data/cache/a.txt" in
  let* _ := write_file $"data/cache/a.txt" $"aaaaaa" in
  let* _ := sleep wait in
  let* after := head_len $"data/cache/a.txt" in
  t_ret (assert_eq before (Some 4%Z) && assert_eq after (Some then_length)).

Definition metadata_cache_ttl_bounds_staleness : bool := passes [
  passes_with (with_caches (ttls true 60000 10000 5000 1000)) (metadata_stays 0 4);
  passes_with (with_caches (ttls true 200 10000 5000 1000)) (metadata_stays 450 6)].

Definition missing_stays (wait : nat) (then_found : bool) : T bool :=
  let* before := head $"data/neg/created.txt" in
  let* _ := write_file $"data/neg/created.txt" $"now here" in
  let* _ := sleep wait in
  let* after := head $"data/neg/created.txt" in
  t_ret (fails before NoSuchKey && if then_found then is_ok after else fails after NoSuchKey).

Definition negative_cache_ttl_bounds_missing_key_visibility : bool := passes [
  passes_with (with_caches (ttls true 1000 10000 5000 60000)) (missing_stays 0 false);
  passes_with (with_caches (ttls true 1000 10000 5000 200)) (missing_stays 450 true)].

Definition get_bytes (key : str) : T (option str) := let* r := get key in collect_body r.

Definition block_cache_is_invalidated_when_the_object_changes : bool :=
  passes_with (with_caches (ttls true 50 60000 5000 1000)) (
    let* _ := write_file $"data/cache/b.bin" $"aaaa" in
    let* before := get_bytes $"data/cache/b.bin" in
    let* _ := write_file $"data/cache/b.bin" $"bbbbbbbb" in
    let* _ := sleep 150 in
    let* after := get_bytes $"data/cache/b.bin" in
    t_ret (assert_eq before (Some $"aaaa") && assert_eq after (Some $"bbbbbbbb"))).

Definition shrinking_object_invalidates_cached_metadata : bool :=
  passes_with (with_caches (ttls true 60000 0 5000 1000)) (
    let* _ := write_file $"data/cache/shrink.bin" $"aaaa" in
    let* before := get_bytes $"data/cache/shrink.bin" in
    let* _ := write_file $"data/cache/shrink.bin" $"bb" in
    let* first := get $"data/cache/shrink.bin" in
    let* after := get_bytes $"data/cache/shrink.bin" in
    t_ret (passes [assert_eq before (Some $"aaaa"); negb (is_ok first); assert_eq after (Some $"bb")])).

(** The listing's keys, without and with the delimiter. *)
Definition both_list (prefix : str) (ks : list str) : T bool :=
  let* flat := list_objects (listing (Some prefix) None None None) in
  let* level := list_objects (listing (Some prefix) (Some $"/") None None) in
  t_ret (lists flat ks [] && lists level ks []).

Definition listing_stays (wait : nat) (then_keys : list str) : T bool :=
  let* _ := write_file $"data/lcached/a.txt" $"a" in
  let* before := list_objects (listing (Some $"data/lcached/") None None None) in
  let* _ := write_file $"data/lcached/b.txt" $"b" in
  let* _ := sleep wait in
  let* after := both_list $"data/lcached/" then_keys in
  t_ret (lists before [$"data/lcached/a.txt"] [] && after).

Definition listing_cache_ttl_bounds_staleness : bool := passes [
  passes_with (with_caches (ttls true 1000 10000 60000 1000)) (listing_stays 0 [$"data/lcached/a.txt"]);
  passes_with (with_caches (ttls true 1000 10000 200 1000))
    (listing_stays 450 [$"data/lcached/a.txt"; $"data/lcached/b.txt"])].

Definition cache_kill_switch_bypasses_caching : bool :=
  passes_with (with_caches (ttls false 60000 60000 60000 1000)) (
    let* _ := write_file $"data/kill/a.txt" $"aaaa" in
    let* before := head_len $"data/kill/a.txt" in
    let* keys := list_objects (listing (Some $"data/kill/") None None None) in
    let* _ := write_file $"data/kill/a.txt" $"aaaaaa" in
    let* _ := write_file $"data/kill/b.txt" $"b" in
    let* after := head_len $"data/kill/a.txt" in
    let* more := list_objects (listing (Some $"data/kill/") None None None) in
    t_ret (passes [
      assert_eq before (Some 4%Z); lists keys [$"data/kill/a.txt"] [];
      assert_eq after (Some 6%Z); lists more [$"data/kill/a.txt"; $"data/kill/b.txt"] []])).

(** ** Permissions ([minidfs_permission_denial.rs]) *)

(** The status of a file does not need the right to read it. *)
Definition permission_denied_maps_to_access_denied : T bool :=
  let* _ := write_file $"secret.txt" $"topsecret" in
  let* _ := forbid_reading $"secret.txt" in
  let* r := get $"secret.txt" in
  t_ret (fails r AccessDenied).

Definition owner_can_still_read_after_chmod : T bool :=
  let* _ := write_file $"owned.txt" $"mine" in
  let* r := get $"owned.txt" in
  t_ret (holds_of r (λ out, assert_eq (go_content_length out) 4%Z)).

Definition deeper_path_under_unreadable_ancestor_is_denied_by_traverse_check : T bool :=
  let* _ := mkdirs $"forbidden" false false in
  let* _ := mkdirs $"forbidden/inner" true true in
  let* _ := write_file $"forbidden/inner/leaf.txt" $"deep" in
  let* inner := list_objects (listing (Some $"forbidden/inner/") None None None) in
  let* leaf := list_objects (listing (Some $"forbidden/inner/leaf.txt") None None None) in
  t_ret (fails inner AccessDenied && fails leaf AccessDenied).

Definition known_deeper_path_under_traverse_only_parent_is_listable : T bool :=
  let* _ := mkdirs $"outer" false true in
  let* _ := mkdirs $"outer/inner" true true in
  let* _ := write_file $"outer/inner/leaf.txt" $"deep" in
  let* inner := both_list $"outer/inner/" [$"outer/inner/leaf.txt"] in
  let* flat := list_objects (listing (Some $"outer/") None None None) in
  let* level := list_objects (listing (Some $"outer/") (Some $"/") None None) in
  let* leaf := get $"outer/inner/leaf.txt" in
  t_ret (passes [
    inner; fails flat AccessDenied; fails level AccessDenied;
    holds_of leaf (λ out, assert_eq (go_content_length out) 4%Z)]).

Definition integration_object_tests : list (T bool) := [
  hello_world_minidfs; head_object_and_bucket; path_traversal_blocked; get_object_full_and_ranged 1000;
  get_object_streams_large_body_exactly 900 190 520; get_object_conditionals;
  head_object_accept_ranges_and_conditionals; get_object_empty_file_ranges; write_ops_uniformly_denied;
  bucket_config_probes_not_configured; permission_denied_maps_to_access_denied; owner_can_still_read_after_chmod;
  deeper_path_under_unreadable_ancestor_is_denied_by_traverse_check;
  known_deeper_path_under_traverse_only_parent_is_listable].

Example integration_object_tests_pass : forallb (passes_with scope_config) integration_object_tests = true.
Proof. vm_compute. reflexivity. Qed.

Example integration_cache_tests_pass : passes [
  metadata_cache_ttl_bounds_staleness; negative_cache_ttl_bounds_missing_key_visibility;
  block_cache_is_invalidated_when_the_object_changes; shrinking_object_invalidates_cached_metadata;
  listing_cache_ttl_bounds_staleness; cache_kill_switch_bypasses_caching] = true.
Proof. vm_compute. reflexivity. Qed.
