(* ===== verification/ServiceTests.v ===== *)
(** The tests of [src/tests] that drive a whole server, run on the model:
    [backpressure_test.rs], [graceful_shutdown.rs], [error_propagation.rs] and
    the first of [conformance.rs].

    As in [CoreTests], a definition for each test. The requests of a client are
    events of [Front] or of [Process]; a test that needs no particular
    interleaving calls the handlers, and has the error code where the client
    sees the status. Files of megabytes are hundreds of bytes here. *)

From S2P Require Import Prelude Prog Bytes Config Path HdfsError Listing Rfc4648 Cache Gateway ListObjects.
From S2P Require Import Backpressure Server Requests Front Process CoreTests MiniDfs GatewayTests.

#[local] Open Scope test_scope.
#[local] Arguments mkHttpResponse {Head B}.
#[local] Arguments resp_head {Head B}.
#[local] Arguments resp_body {Head B}.

(** ** The server *)

(** A status for a head, and a line of text for an error. *)
Definition status_code (c : S3ErrorCode) : N :=
  match c with
  | NoSuchKey | NoSuchBucket => 404
  | InvalidArgument | InvalidToken => 400
  | InvalidRange => 416
  | NotImplemented => 501
  | AccessDenied => 403
  | ServiceUnavailable | SlowDown => 503
  | InternalError => 500
  | PreconditionFailed => 412
  | NotModified => 304
  end.

Definition outcome_status (o : Outcome str unit) : N :=
  let status {A} (r : result A S3Error) : N := match r with Ok _ => 200%N | Err e => status_code (code e) end in
  match o with
  | OutUnit r => status r | OutHead r => status r | OutBuckets r => status r | OutList r => status r
  | OutGet r => status r | OutBody _ | OutDropped => 500%N
  end.

Definition to_head (o : Outcome str unit) : result (N * option str) unit := Ok (outcome_status o, None).

Definition error_response (e : S3Error) :
    result (HttpResponse (Head:=N) (FrontBody (L:=list_lru str) (R:=str) (IoError:=unit))) unit :=
  Ok (mkHttpResponse (status_code (code e)) (Buffered (Some $"SlowDown"))).

Definition file_at (rel data : str) : Node := mkNode (test_root ++ $"/" ++ rel) (Some data) 0 true true.

Definition get_of (key : str) : Request str := ReqGetObject (mkGetObjectInput $"hdfs" key plain None).

Abbreviation TestFront := (Front (L:=list_lru str) (R:=str) (IoError:=unit) (Sem:=N) (Head:=N) (HttpError:=unit)).

Definition serve_run (fs : Dfs) (cap : N) (evs : list (front_event (R:=str))) : TestFront :=
  front_run (Sem:=N) (dfs_world fs) (new_mapper (config_with cap None)) (config_with cap None) to_head id error_response evs.

(** The status a client was sent, if it was. *)
Definition sent_status (c : TestFront) (i : nat) : option N :=
  match f_slots c !! i with
  | Some s => match sl_conn s with
              | Refused resp => Some (resp_head resp)
              | Sending resp => Some (resp_head resp)
              | _ => None
              end
  | None => None
  end.

Definition sent_bytes (c : TestFront) (i : nat) : str :=
  match f_slots c !! i with Some s => delivered (sl_chunks s) | None => [] end.

(** The handler of an exchange runs to its end and is answered. *)
Definition answer (i : nat) : list (front_event (R:=str)) := replicate 30 (FTurn i) ++ [FAnswer i].

(** ** [backpressure_test.rs] *)

(** The clients: so many at a time, each of which is served before more come. *)
Definition in_batches (batches size : nat) : list (front_event (R:=str)) :=
  concat (map (λ b,
    replicate size (FArrive (get_of $"data/obj.txt")) ++
    concat (map (λ i, answer (b * size + i) ++ replicate 4 (FPoll (b * size + i))) (seq 0 size)))
    (seq 0 batches)).

Definition backpressure_503_slowdown (batches size : nat) : bool :=
  let c := serve_run [file_at $"data/obj.txt" $"hello"] 2 (in_batches batches size) in
  let statuses := map (sent_status c) (seq 0 (batches * size)) in
  let count s := List.length (List.filter (λ x, bool_decide (x = Some s)) statuses) in
  passes [Nat.eqb (count 200%N + count 503%N) (batches * size); Nat.ltb 0 (count 503%N)].

(** The payload's first four packets are read, then the second client comes. *)
Definition backpressure_holds_permit_during_body_streaming : bool :=
  let fs := [file_at $"data/big.txt" (List.repeat "x"%char 600); file_at $"data/obj.txt" $"hello"] in
  let reading := FArrive (get_of $"data/big.txt") :: answer 0 ++ replicate 5 (FPoll 0) in
  let c := serve_run fs 1 (reading ++ [FArrive (get_of $"data/obj.txt")]) in
  let rest := serve_run fs 1 (reading ++ [FArrive (get_of $"data/obj.txt")] ++ replicate 8 (FPoll 0)) in
  passes [
    assert_eq (sent_status c 0) (Some 200%N);
    Nat.eqb (List.length (sent_bytes c 0)) 256;
    assert_eq (sent_status c 1) (Some 503%N);
    Nat.eqb (List.length (sent_bytes rest 0)) 600].

(** ** [graceful_shutdown.rs] *)

Abbreviation TestProcess := (Process (L:=list_lru str) (R:=str) (IoError:=unit) (Sem:=N) (Head:=N) (HttpError:=unit)
  (Shutdown:=bool)).

(** A server whose shutdown may be triggered, after these events; none if one
    of them was not possible. *)
Definition server_run (fs : Dfs) (evs : list (process_event (R:=str))) : option TestProcess :=
  process_run (dfs_world fs) (new_mapper scope_config) scope_config to_head id error_response
    (λ notified : bool, if notified then Some false else None) (process_start scope_config 0 true) evs.

Definition server_finished (p : TestProcess) : bool :=
  match sv_phase (pr_serve p) with Returned _ _ => true | _ => false end.

Definition graceful_shutdown_drains_inflight_get : bool :=
  let data := pattern 600 in
  let fs := [file_at $"data/big.bin" data] in
  let first_chunk := [PAccept; PRequest 0 (get_of $"data/big.bin")] ++ map PFront (answer 0 ++ replicate 2 (FPoll 0)) in
  let triggered := first_chunk ++ [PTime 1000; PSignal; PTime 1200] in
  let resumed := triggered ++ map PFront (replicate 12 (FPoll 0)) ++ [PClose 0; PDrained] in
  let after evs p := match server_run fs evs with Some proc => p proc | None => false end in
  passes [
    after first_chunk (λ p, assert_eq (sent_status (pr_front p) 0) (Some 200%N)
                            && Nat.eqb (List.length (sent_bytes (pr_front p) 0)) 64);
    (* the server must not have exited, nor can it *)
    after triggered (λ p, negb (server_finished p));
    forallb (λ ev, negb (after (triggered ++ [ev]) (λ _, true))) [PClose 0; PDrained; PTimeout];
    after resumed (λ p, passes [
      assert_eq (sent_bytes (pr_front p) 0) data; server_finished p; N.ltb (sv_now (pr_serve p)) (1000 + drain_limit)])].

(** The lines that say that such an operation started and how it ended. *)
Definition started_id (events : list LogEvent) (op : str) : option str :=
  match List.find (λ e, match e with Started _ o => bool_decide (o = op) | _ => false end) events with
  | Some (Started id _) => Some id
  | _ => None
  end.

Definition completed_ok (events : list LogEvent) (op id : str) : option bool :=
  match List.find (λ e, match e with Completed i o _ _ _ => bool_decide (i = id ∧ o = op) | _ => false end) events with
  | Some (Completed _ _ _ _ ok) => Some ok
  | _ => None
  end.

Definition logged_as (events : list LogEvent) (op : str) (ok : bool) : bool :=
  match started_id events op with
  | Some rid => assert_eq (completed_ok events op rid) (Some ok)
  | None => false
  end.

Definition logging_request_id_correlated : bool := passes_with scope_config (
  let* _ := write_file $"data/obj.txt" $"logging-body" in
  let* r := head $"data/obj.txt" in
  let* logged := events in
  t_ret (is_ok r && logged_as logged $"HeadObject" true)).

(** ** [error_propagation.rs] *)

(** The variants the model does not tell apart are [OtherError]. *)
Definition upstream_to_string (e : HdfsError) : str :=
  match e with OtherError s => $"IO error: " ++ s | _ => [] end.

Definition mapped (e : HdfsError) (expose : bool) : S3Error := map_hdfs_error upstream_to_string e expose.

Definition map_hdfs_error_variants : bool := passes [
  assert_eq (code (mapped (FileNotFound $"x") false)) NoSuchKey;
  assert_eq (code (mapped (IsADirectoryError $"x") false)) NoSuchKey;
  assert_eq (code (mapped (InvalidPath $"x") false)) NoSuchKey;
  assert_eq (code (mapped (InvalidArgumentError $"bad") false)) InvalidArgument;
  assert_eq (code (mapped (UnsupportedFeature $"ec") false)) NotImplemented;
  assert_eq (code (mapped (UnsupportedErasureCodingPolicy $"ec") false)) NotImplemented;
  assert_eq (code (mapped (OtherError $"boom") false)) InternalError;
  assert_eq (code (mapped (RPCError $"c" $"m") false)) InternalError].

Definition map_hdfs_error_permission_denial_to_access_denied : bool := passes [
  forallb (λ ex, assert_eq (code (mapped (RPCError ex $"denied") false)) AccessDenied
                 && assert_eq (code (mapped (FatalRPCError ex $"denied") false)) AccessDenied)
    [$"org.apache.hadoop.security.AccessControlException";
     $"org.apache.hadoop.fs.permission.AccessControlException";
     $"org.apache.hadoop.security.authorize.AuthorizationException";
     $"org.apache.hadoop.security.AccessDeniedException"];
  assert_eq (code (mapped (SASLError $"no mechanism") false)) AccessDenied;
  assert_eq (code (mapped NoSASLMechanism false)) AccessDenied].

Definition map_hdfs_error_standby_safemode_to_service_unavailable : bool :=
  forallb (λ ex, assert_eq (code (mapped (RPCError ex $"not active") false)) ServiceUnavailable)
    [$"org.apache.hadoop.ipc.StandbyException"; $"org.apache.hadoop.hdfs.server.namenode.SafeModeException"].

Definition map_hdfs_error_unknown_rpc_still_internal : bool :=
  assert_eq (code (mapped (RPCError $"java.io.IOException" $"boom") false)) InternalError.

Definition map_hdfs_error_expose_flag : bool :=
  let secret := OtherError $"secret host info" in
  assert_eq (message (mapped secret false)) None
  && match message (mapped secret true) with
     | Some m => bool_decide (is_Some (find_str m $"secret host info"))
     | None => false
     end.

(** A NameNode that does not answer. *)
Definition dead_world : World (R:=str) (IoError:=unit) := {|
  clock := λ t, N.of_nat t;
  system_time := λ t, (1000000 * N.of_nat t)%N;
  get_file_info := λ _ _, Err (OtherError $"connection refused");
  list_status := λ _ _, Err (OtherError $"connection refused");
  read := λ _ _, Err (OtherError $"connection refused");
  reader_length := λ _, 0%N;
  read_range_stream := λ _ _ _ _, [];
  hdfs_to_string := upstream_to_string;
  strong_cmp := Demo.etag_eqb;
  weak_cmp := Demo.etag_eqb;
  header_value := Some;
  mime_first := λ _, None;
|}.

Definition upstream_error_logged_with_request_id : bool :=
  let q := ReqHeadObject (mkHeadObjectInput $"hdfs" $"data/missing.txt" plain) in
  let '(o, gw) := exec (handler (L:=list_lru str) dead_world (new_mapper scope_config) scope_config q)
                    (initial scope_config) in
  N.leb 500 (outcome_status o) && logged_as (gw_events gw) $"HeadObject" false.

(** ** [conformance.rs] *)

Definition has_id {A} (r : result (S3Response A) S3Error) : bool :=
  let carries hs := existsb (λ h, bool_decide (h.1 = request_id_header)) hs in
  match r with
  | Ok resp => carries (headers resp)
  | Err e => match error_headers e with Some hs => carries hs | None => false end
  end.

Definition head_and_wrong_bucket_have_ids : T bool :=
  let* found := call_handler (ReqHeadObject (mkHeadObjectInput $"hdfs" $"data/obj.txt" plain)) in
  let* wrong := call_handler (ReqGetObject (mkGetObjectInput $"wrongbucket" $"key" plain None)) in
  t_ret (match found, wrong with
         | OutHead r, OutGet e => passes [has_id r; assert_eq (outcome_status wrong) 404%N; has_id e]
         | _, _ => false
         end).

Definition conformance_http : bool := passes_with scope_config (
  let* _ := write_file $"data/obj.txt" $"conformance-body" in
  let* _ := write_file $"data/dir/nested.txt" $"nested" in
  let* ids := head_and_wrong_bucket_have_ids in
  let* found := head $"data/obj.txt" in
  let* unchanged := head_with $"data/obj.txt" (when_none_match (OneETag (e_tag_of found))) in
  let* full := get_bytes $"data/obj.txt" in
  let* part := get_with $"data/obj.txt" plain (Some (RangeInt 0 (Some 4%N))) in
  let* part_body := collect_body part in
  let* directory := get $"data/dir" in
  let* missing := get $"data/missing.txt" in
  let* flat := list_objects (listing None None None None) in
  let* level := list_objects (listing None (Some $"/") None None) in
  let* put := send_unit (ReqWrite PutObject) in
  let* versioning := send_unit (ReqProbe GetBucketVersioning) in
  t_ret (passes [
    ids;
    holds_of found (λ out, assert_eq (ho_content_length out) 16%Z && assert_eq (ho_accept_ranges out) $"bytes");
    fails unchanged NotModified;
    assert_eq full (Some $"conformance-body");
    holds_of part (λ out, assert_eq (go_content_range out) (Some $"bytes 0-4/16"));
    assert_eq part_body (Some $"confo");
    fails directory NoSuchKey; fails missing NoSuchKey;
    lists flat [$"data/dir/nested.txt"; $"data/obj.txt"] [];
    lists level [] [$"data/"];
    fails put AccessDenied; is_ok versioning])).

Example backpressure_tests_pass : passes [
  backpressure_503_slowdown 1 50; backpressure_503_slowdown 10 5; backpressure_holds_permit_during_body_streaming] = true.
Proof. vm_compute. reflexivity. Qed.

Example shutdown_tests_pass : passes [
  graceful_shutdown_drains_inflight_get; logging_request_id_correlated] = true.
Proof. vm_compute. reflexivity. Qed.

Example error_tests_pass : passes [
  map_hdfs_error_variants; map_hdfs_error_permission_denial_to_access_denied;
  map_hdfs_error_standby_safemode_to_service_unavailable; map_hdfs_error_unknown_rpc_still_internal;
  map_hdfs_error_expose_flag; upstream_error_logged_with_request_id; conformance_http] = true.
Proof. vm_compute. reflexivity. Qed.
